(* ===== verification/_CoqProject ===== *)
-Q . S2P
Prelude.v
Bytes.v
Decimal.v
Pattern.v
Slice.v
Params.v
Tree.v
TreeSpec.v
TreeLookup.v
Router.v
Accept.v
AcceptSpec.v
Fasthttp.v
Errors.v
Ctx.v
Handler.v
Isolation.v
App.v
AppSpec.v
Dispatch.v
Reference.v
Options.v
Static.v
StaticLife.v
Hooks.v
Bufio.v
Stream.v
Sse.v
Lifecycle.v
Middleware.v
RateLimit.v
RealIP.v
Auth.v
Cors.v
Endpoints.v
Emit.v
Otel.v
Answers.v
Logger.v
Stack.v
Rounding.v
Histogram.v
Compare.v
LoadGen.v
Summarize.v
