(* ===== verification/Prelude.v ===== *)
(** * rice-http: a verification of the framework

    [rice] is an HTTP framework on top of [fasthttp]. A program registers routes,
    groups and middleware on an App; Build compiles them into radix trees; each
    request borrows a [Ctx] from a pool, is routed, runs its chain, and whatever
    fails reaches one ErrorHandler; streams outlive their request; Serve and
    Shutdown govern the whole. This library models those parts as Rocq definitions
    written after the Go functions of the same names, and proves what makes each
    correct. A definition's doc comment says which function it is when the name
    does not.

    ** Files, in dependency order

    Foundations
    - [Prelude]: bytes, the int64 arithmetic (a [Z] that wraps), Go's zero values, a
      state monad with panics, shared lemmas and tactics.
    - [Bytes]: the string searches, splits and trims of [strings] and [bytes].
    - [Decimal]: [strconv]'s Itoa and Atoi, inverse to each other.
    - [Slice]: a Go slice as an array with a used length, so that what truncation
      leaves behind, and what [append] grows, can be stated.

    Routing ([src/internal/router])
    - [Pattern] ([pattern.go]): [parsePattern] and [checkNormalised] against a grammar
      of patterns.
    - [Params] ([params.go]): captured parameters on pooled storage.
    - [Tree] ([tree.go]): insertion with splits, the three-way lookup with
      backtracking. A pointer written through is modelled by rebuilding the path to
      it; the tree is never shared.
    - [TreeSpec], [TreeLookup]: the invariant of the tree, the map from patterns to
      handlers it stands for, what insertion does to that map, what lookup finds in
      it.
    - [Router] ([router.go]): the exported Tree, and its contract: a flat table of
      patterns.

    Requests
    - [Accept] ([ctx_accept.go]): content negotiation. [AcceptSpec]: what the header
      says by RFC 9110, and that the code reads it so.
    - [Fasthttp]: the request context of the server library as a class of operations
      with the laws the source relies on, and an instance that satisfies them.
    - [Errors] ([errors.go]): the error values, [errors.As], DefaultErrorHandler.
    - [Ctx] ([ctx.go], [ctx_param.go], [ctx_response.go], [ctx_store.go], the poison
      of [poison_debug.go] and [poison_release.go]): every exported method of a
      borrowed context.
    - [Handler] ([handler.go], [middleware.go], [internal/chain]): handlers,
      middleware and ErrorHandlers as programs over those methods, of any shape, and
      their meaning.
    - [Isolation]: two runs from contexts that differ only where no request looks.
    - [App], [AppSpec] ([app.go], [route.go], [group.go], [method.go], [build.go]):
      registration with its panics, groups as a heap, Build; what a built App serves.
    - [Dispatch] ([app.go]'s handle, [pool.go]): one request from acquire to release
      with the deferred recovery, and a server in which requests overlap.
    - [Reference]: what a program that registers and serves may expect, with no trees,
      pools or recycled storage; the files above refine it.
    - [Options] ([app.go]'s options, [New] and [transportError]): what an option
      refuses and sets, and the answer to a request fasthttp could not read.
    - [Static] ([static.go]): what surrounds fasthttp's file handler.
    - [StaticLife] ([static.go], the end of [build]): the path a file handler is given,
      and when the handlers' cache goroutines start and stop.

    Streams and life
    - [Bufio]: the standard library's buffered writer.
    - [Stream] ([stream.go], the sending half of [sse.go]): a Stream, its heartbeat
      and its goroutines as steps.
    - [Sse]: a browser's reading of an event stream, byte by byte, as the
      specification of [SSE.Send].
    - [Hooks] ([lifecycle.go]): registering and running the hooks, which may fail,
      panic and act on a world of their own.
    - [Lifecycle] ([server.go], [conns.go]): overlapping Serve, Shutdown and RunContext
      calls as threads of a step function.

    Middleware and endpoints ([src/middleware], [src/health], [src/binding])
    - [Middleware]: Recover, Timeout, RequestID and what the others share.
    - [RateLimit]: the limit, the in-memory store, GCRA as its specification.
    - [RealIP], [Auth], [Cors]; [Endpoints]: health probes, JSON binding.
    - [Emit]: handlers that also make calls on a logger or a tracer. [Otel]
      ([src/otelrice]): the tracing middleware, its options, its carrier. [Logger]
      ([middleware/logger.go]): the access log.
    - [Answers]: what a client gets from the readiness probe and behind a deadline.
    - [Stack]: the middleware in the order the package recommends, composed.

    The benchmark's own logic ([src/bench/compare])
    - [Rounding]: what binary64 rounding does to a product. [Histogram]
      ([histogram.go]): buckets, merge, quantile with the rank in binary64.
    - [Compare] ([scenarios.go], [githubapi.go], [rice.go], [check.go]): the scenarios,
      the table of GitHub's API, the application rice serves it with and the check
      that it does.
    - [LoadGen] ([loadgen.go]): the workers of a run, each over a script of what its
      clock and its client return, and the result.
    - [Summarize] ([summarize.go], the names of [targets.go], [cmd/loadgen],
      [cmd/summarize]): the line a run prints, the reading of such lines and the
      tables made of them, from bytes to bytes.

    ** What the theorems show

    - The whole refines a reference: after any registration and Build, however requests
      overlap, each gets the answer of the winning route's handler inside its
      middleware on a brand new context, and one rule for its result.
    - Routing refines a flat table: every sequence of registrations gets the answers
      of the table and leaves the tree holding exactly the accepted routes; lookup
      answers with the one pattern that wins by static, parameter, wildcard priority;
      the order of registration does not matter; captured storage never grows.
    - A pattern is accepted exactly when it is in the grammar, with one segmentation;
      filling in a pattern and looking the path up are inverse.
    - Build serves what was registered, with middleware in its documented order, also
      that added to a group later; a built App is frozen. Every App that registration
      can produce, whatever panics were recovered on the way, satisfies the invariant
      the other theorems start from, and serving a request never grows a Ctx.
    - Requests are isolated: whatever handlers run and overlap on a pooled context, a
      request's answer is the one a fresh context would give. Each request is settled
      at most once; a panic is a 500; a stream starts only on a request nothing
      answered; a released context refuses every call in the debug build.
    - Errors: what DefaultErrorHandler answers for every chain of errors. The store is
      a map by key identity. Negotiation picks the best offer, and an offer's quality
      is the RFC's, but for the parameters of media types, which are passed over.
    - Streams: under every interleaving and wherever the connection breaks, a browser
      dispatches a prefix of the events sent, all of them when the stream ended
      cleanly; a retired Stream writes nothing; a stream always ends.
    - Life: Shutdown is final, a timed-out one cuts everything off, hooks run once in
      reverse, one Serve at a time, the drain delay holds, a Shutdown whose ctx ended
      never waits for another goroutine. The first runShutdown closes what it must
      whichever hook panics, and leaves no cache goroutine running.
    - Middleware: the store is GCRA when no clock reading is from before a sweep that
      got the lock first, as [Take] reads its clock outside the lock; the rate is
      bounded in every case, by how late a lock is taken; Retry-After is honest in
      every case; the client's address cannot be forged; BasicAuth admits whom
      Validate accepts; CORS sends the headers its configuration spells out; headers
      survive the file handler; a redirect stays on the site; a
      file handler is given the path below the prefix exactly when the prefix has no
      parameter. Tracing changes no answer and reports one span and one measurement,
      the access log one line, and in the recommended order no request escapes it,
      whatever panics inside, and the line has the status answered, the address
      resolved and the id assigned. The probe answers 503 and says
      nothing of the check that failed; a deadline turns a late error into a 503.
    - The benchmark: a run counts the requests answered in the measured window, and the
      failures and wrong statuses of the whole run, its quantiles are the exact order
      statistics of the ranks ⌈n/2⌉ and ⌈99n/100⌉ within a sixteenth, and it ends when its clock advances; the
      lines it prints are the rows of the summary, in whatever order they are read; the
      application built from the whole GitHub table answers each of its routes, and
      passes the check of every scenario.

    ** Bounds and fuel

    Loops that are not structural carry fuel, and each is given as much as its input
    can need: a parser's index or a scanner's rest moves by at least a byte each
    round, an insertion consumes a byte per level, a group's parent is older than it.
    The lemmas next to each loop show its result is the specified one, so no theorem
    holds because a loop stopped early. Integers that can wrap are int64 with the
    wrap-around written out; [RateLimit] bounds each reading of the clock to 2^62 ns,
    in whatever order they come, and shows no operation wraps. The rank of a quantile
    is exact below 2^46 durations, which binary64 is precise enough for. ErrorHandlers nest through HandleError; [run_depth] shows one
    level is enough.

    ** What is not modelled

    fasthttp itself: its operations are parameters with named laws, and what its
    server and its file handler return is an input. How a log line or a span is
    written out, and elapsed times. Handlers that never return. Goroutines a handler
    starts, apart from streams. Two goroutines in one critical section or one atomic:
    these are single steps. A hook that panics while other calls overlap, which ends
    the process; [Hooks] has the call it panics in. Type parameters of [Key] beyond
    boxing and the assertion. The parsing of floats and of command-line flags; the
    adapters for other frameworks, and the command that serves one of them. *)

From Stdlib Require String.
From Stdlib Require Export Ascii ZArith Lia Bool.
From stdpp Require Export base numbers tactics option strings gmap list.

#[export] Set Warnings "-register-all".

(** ** Bytes

    A Go [string] and a Go [[]byte] are both finite sequences of bytes; the
    model makes no difference between a nil slice and an empty one except where
    the source compares with nil. *)


Abbreviation bytes := (list ascii).

Fixpoint bs (s : string) : bytes :=
  match s with
  | String.EmptyString => []
  | String.String c s' => c :: bs s'
  end.
Arguments bs s%_stdpp_scope.

(** The numeric value of a byte. *)
Definition code (c : ascii) : Z := Z.of_N (N_of_ascii c).

(** [lo <= c && c <= hi], the range test Go writes on bytes. *)
Definition between (lo hi c : ascii) : bool :=
  (code lo <=? code c)%Z && (code c <=? code hi)%Z.

(** The byte with a given value, and the letters and digits the classifiers use. *)
Definition byte_of (z : Z) : ascii := ascii_of_N (Z.to_N (z mod 256)).

Definition is_lower (c : ascii) : bool := between "a" "z" c.
Definition is_upper (c : ascii) : bool := between "A" "Z" c.
Definition is_digit (c : ascii) : bool := between "0" "9" c.
Definition is_alnum (c : ascii) : bool := is_lower c || is_upper c || is_digit c.

(** ** Go values *)

(** The zero value of a Go type. *)
Class GoZero (A : Type) := zero : A.

#[export] Instance zero_Z : GoZero Z := 0%Z.
#[export] Instance zero_nat : GoZero nat := 0.
#[export] Instance zero_bool : GoZero bool := false.
#[export] Instance zero_list {A} : GoZero (list A) := [].
#[export] Instance zero_option {A} : GoZero (option A) := None.
#[export] Instance zero_prod {A B} `{GoZero A} `{GoZero B} : GoZero (A * B) := (zero, zero).

(** [int64] arithmetic: a value is a [Z] between [min_int64] and [max_int64] and
    every operation wraps around. Division truncates towards zero. *)
Definition max_int64 : Z := 2 ^ 63 - 1.
Definition min_int64 : Z := - 2 ^ 63.
Definition wrap64 (z : Z) : Z := ((z + 2 ^ 63) mod 2 ^ 64 - 2 ^ 63)%Z.
Definition add64 (a b : Z) : Z := wrap64 (a + b).
Definition sub64 (a b : Z) : Z := wrap64 (a - b).
Definition mul64 (a b : Z) : Z := wrap64 (a * b).
Definition quot64 (a b : Z) : Z := wrap64 (Z.quot a b).
Definition rem64 (a b : Z) : Z := Z.rem a b.

(** [time.Second] in nanoseconds, the unit of [time.Duration]. *)
Definition second : Z := 1000000000.

Definition int64_range (z : Z) : Prop := (min_int64 <= z <= max_int64)%Z.

Lemma wrap64_id z : int64_range z → wrap64 z = z.
Proof.
  unfold int64_range, wrap64, min_int64, max_int64. intros [? ?].
  rewrite Z.mod_small; lia.
Qed.

Lemma wrap64_range z : int64_range (wrap64 z).
Proof.
  unfold int64_range, wrap64, min_int64, max_int64.
  pose proof (Z.mod_pos_bound (z + 2 ^ 63) (2 ^ 64)). lia.
Qed.

(** ** A state monad with panics

    A Go function that mutates a state of type [S] and may panic with a value of
    type [E] is a computation [go S E A]: it returns the final state in both
    cases, since a panic does not undo the writes made before it. *)

Inductive outcome (E A : Type) : Type :=
| Ret (a : A)
| Panic (e : E).
Arguments Ret {E A} a.
Arguments Panic {E A} e.

Definition go (S E A : Type) : Type := S → outcome E A * S.

#[export] Instance go_ret S E : MRet (go S E) := λ A a s, (Ret a, s).
#[export] Instance go_bind S E : MBind (go S E) := λ A B f m s,
  match m s with
  | (Ret a, s') => f a s'
  | (Panic e, s') => (Panic e, s')
  end.
#[export] Instance go_fmap S E : FMap (go S E) := λ A B f m,
  a ← m; mret (f a).

Definition go_panic {S E A} (e : E) : go S E A := λ s, (Panic e, s).
Definition go_get {S E} : go S E S := λ s, (Ret s, s).
Definition go_put {S E} (s' : S) : go S E unit := λ _, (Ret tt, s').
Definition go_modify {S E} (f : S → S) : go S E unit := λ s, (Ret tt, f s).

(** A guard of the shape [if cond { panic(e) }]. *)
Definition go_panic_if {S E} (cond : bool) (e : E) : go S E unit :=
  if cond then go_panic e else mret tt.

(** [defer func() { if r := recover(); r != nil { h(r) } }()]. *)
Definition go_recover {S E A} (m : go S E A) (h : E → go S E A) : go S E A := λ s,
  match m s with
  | (Ret a, s') => (Ret a, s')
  | (Panic e, s') => h e s'
  end.

(** [defer d()] around [m]: [d] runs in either case, and a panic of [m] goes on
    after it unless [d] panics itself. *)
Definition go_defer {S E A} (m : go S E A) (d : go S E unit) : go S E A := λ s,
  let '(o, s1) := m s in
  match d s1 with
  | (Ret _, s2) => (o, s2)
  | (Panic e, s2) => (Panic e, s2)
  end.

Lemma go_bind_ret {S E A B} (m : go S E A) (f : A → go S E B) s a s' :
  m s = (Ret a, s') → (m ≫= f) s = f a s'.
Proof. unfold mbind, go_bind. by intros ->. Qed.

Lemma go_bind_panic {S E A B} (m : go S E A) (f : A → go S E B) s e s' :
  m s = (Panic e, s') → (m ≫= f) s = (Panic e, s').
Proof. unfold mbind, go_bind. by intros ->. Qed.

Lemma go_recover_ret {S E A} (m : go S E A) h s a s' :
  m s = (Ret a, s') → go_recover m h s = (Ret a, s').
Proof. unfold go_recover. by intros ->. Qed.

Lemma go_recover_panic {S E A} (m : go S E A) h s e s' :
  m s = (Panic e, s') → go_recover m h s = h e s'.
Proof. unfold go_recover. by intros ->. Qed.

(** ** Automation *)

(** Splits every [if] and [match] on a boolean or a decision in the goal. *)
Ltac split_ifs :=
  repeat (case_match || case_decide); simplify_eq/=; try done.

(** Turns boolean tests in the context into propositions. *)
Ltac to_prop :=
  repeat match goal with
  | H : (_ && _) = true |- _ => apply andb_true_iff in H as [? ?]
  | H : (_ && _) = false |- _ => apply andb_false_iff in H
  | H : (_ || _) = false |- _ => apply orb_false_iff in H as [? ?]
  | H : (_ || _) = true |- _ => apply orb_true_iff in H
  | H : negb _ = true |- _ => apply negb_true_iff in H
  | H : negb _ = false |- _ => apply negb_false_iff in H
  | H : bool_decide _ = true |- _ => apply bool_decide_eq_true in H
  | H : bool_decide _ = false |- _ => apply bool_decide_eq_false in H
  | H : (_ <=? _)%Z = true |- _ => apply Z.leb_le in H
  | H : (_ <=? _)%Z = false |- _ => apply Z.leb_gt in H
  | H : (_ <? _)%Z = true |- _ => apply Z.ltb_lt in H
  | H : (_ <? _)%Z = false |- _ => apply Z.ltb_ge in H
  | H : (_ =? _)%Z = true |- _ => apply Z.eqb_eq in H
  | H : (_ =? _)%Z = false |- _ => apply Z.eqb_neq in H
  end.

(** The lemmas that automate the common cases of the development. *)
Create HintDb rice.
#[export] Hint Resolve wrap64_range : rice.

(** ** Results

    A Go function returning [(T, error)] and never both. *)

Inductive result (E A : Type) : Type :=
| Ok (a : A)
| Err (e : E).
Arguments Ok {E A} a.
Arguments Err {E A} e.

#[export] Instance result_ret E : MRet (result E) := λ A a, Ok a.
#[export] Instance result_bind E : MBind (result E) := λ A B f m,
  match m with Ok a => f a | Err e => Err e end.

Lemma result_bind_Ok {E A B} (f : A → result E B) (m : result E A) b :
  m ≫= f = Ok b ↔ ∃ a, m = Ok a ∧ f a = Ok b.
Proof. destruct m; cbn; naive_solver. Qed.

(** ** Byte lemmas *)

(** [between] decides the range of the code of a byte. *)
Lemma between_spec lo hi c :
  between lo hi c = true ↔ (code lo ≤ code c ≤ code hi)%Z.
Proof. unfold between. rewrite andb_true_iff, !Z.leb_le. done. Qed.

Lemma code_range c : (0 <= code c < 256)%Z.
Proof. destruct c as [[] [] [] [] [] [] [] []]; vm_compute; split; congruence. Qed.

Lemma code_inj c d : code c = code d → c = d.
Proof.
  unfold code. intros H. apply N2Z.inj in H.
  by rewrite <-(ascii_N_embedding c), <-(ascii_N_embedding d), H.
Qed.

Lemma byte_of_code c : byte_of (code c) = c.
Proof.
  unfold byte_of. rewrite Z.mod_small by apply code_range.
  unfold code. rewrite N2Z.id. apply ascii_N_embedding.
Qed.

Lemma code_byte_of z : code (byte_of z) = (z mod 256)%Z.
Proof.
  unfold byte_of, code. pose proof (Z.mod_pos_bound z 256).
  rewrite N_ascii_embedding; lia.
Qed.

(** ** Lists *)

(** Two places in one list: the same place, or one before the other. *)
Lemma app_cons_cases {A} (q1 q2 r1 r2 : list A) x1 x2 :
  q1 ++ x1 :: r1 = q2 ++ x2 :: r2 →
  (q1 = q2 ∧ x1 = x2 ∧ r1 = r2) ∨ (∃ w, q2 = q1 ++ x1 :: w) ∨ (∃ w, q1 = q2 ++ x2 :: w).
Proof.
  revert q2. induction q1 as [|y q1 IH]; intros [|z q2]; cbn; intros Heq;
    injection Heq as ? Heq; subst; eauto.
  destruct (IH _ Heq) as [(-> & -> & ->)|[[w ->]|[w ->]]]; eauto.
Qed.
