(* ===== verification/Bytes.v ===== *)
(** * Byte strings

    The operations on strings and byte slices that the components share: slicing,
    searching, splitting and trimming, as Go's [strings] and [bytes] packages and
    the source's own loops define them, with their lemmas. *)

From S2P Require Import Prelude.

(** [s[i:j]]. *)
Definition slice (i j : nat) (s : bytes) : bytes := take (j - i) (drop i s).

(** [bytes.IndexByte], with [None] for -1. *)
Fixpoint index_byte (c : ascii) (s : bytes) : option nat :=
  match s with
  | [] => None
  | d :: s' => if decide (d = c) then Some 0 else S <$> index_byte c s'
  end.

(** [bytes.LastIndexByte], with [None] for -1. *)
Fixpoint last_index_byte (c : ascii) (s : bytes) : option nat :=
  match s with
  | [] => None
  | d :: s' =>
    match last_index_byte c s' with
    | Some i => Some (S i)
    | None => if decide (d = c) then Some 0 else None
    end
  end.

(** [strings.IndexAny] for a set of ASCII bytes, with [None] for -1. *)
Fixpoint index_any (P : ascii → bool) (s : bytes) : option nat :=
  match s with
  | [] => None
  | d :: s' => if P d then Some 0 else S <$> index_any P s'
  end.

(** [strings.HasPrefix] and [strings.Contains]. *)
Definition has_prefix (p s : bytes) : bool := bool_decide (take (length p) s = p).

Fixpoint contains (sub s : bytes) : bool :=
  has_prefix sub s || match s with [] => false | _ :: s' => contains sub s' end.

(** [strings.HasSuffix]. *)
Definition has_suffix (p s : bytes) : bool :=
  bool_decide (length p <= length s) && bool_decide (drop (length s - length p) s = p).

(** [strings.Split(s, sep)] for a one-byte separator: never empty. *)
Fixpoint split_on (sep : ascii) (s : bytes) : list bytes :=
  match s with
  | [] => [[]]
  | c :: s' =>
    if decide (c = sep) then [] :: split_on sep s'
    else match split_on sep s' with
         | [] => [[c]]
         | x :: xs => (c :: x) :: xs
         end
  end.

(** Joining with a one-byte separator, the inverse of [split_on]. *)
Fixpoint join_on (sep : ascii) (l : list bytes) : bytes :=
  match l with
  | [] => []
  | [x] => x
  | x :: xs => x ++ sep :: join_on sep xs
  end.

(** The length of the longest prefix whose bytes satisfy [P]. *)
Fixpoint run_length (P : ascii → bool) (s : bytes) : nat :=
  match s with
  | c :: s' => if P c then S (run_length P s') else 0
  | [] => 0
  end.

(** Trimming the bytes that satisfy [P] from the left and from the right. *)
Fixpoint trim_left (P : ascii → bool) (s : bytes) : bytes :=
  match s with
  | c :: s' => if P c then trim_left P s' else s
  | [] => []
  end.

Fixpoint trim_right (P : ascii → bool) (s : bytes) : bytes :=
  match s with
  | [] => []
  | c :: s' =>
    match trim_right P s' with
    | [] => if P c then [] else [c]
    | r => c :: r
    end
  end.

Definition trim (P : ascii → bool) (s : bytes) : bytes := trim_right P (trim_left P s).

(** HTTP optional whitespace. *)
Definition isOWS (c : ascii) : bool := bool_decide (c = " "%char) || bool_decide (c = "009"%char).

(** ** Lemmas *)

Lemma index_byte_Some c s i :
  index_byte c s = Some i ↔ s !! i = Some c ∧ c ∉ take i s.
Proof.
  revert i. induction s as [|d s IH]; intros i; cbn.
  { split; [done | intros [[=] _]]. }
  case_decide as Hd; [subst|].
  - split; [intros [= <-]; split; [done | apply not_elem_of_nil]|].
    intros [_ Hn]. destruct i; [done | cbn in Hn; set_solver].
  - rewrite fmap_Some. split.
    + intros (j & Hj & ->). apply IH in Hj as [? ?]. cbn. set_solver.
    + destruct i as [|i]; cbn; intros [Hi Hn]; [congruence|].
      exists i. split; [apply IH; set_solver | done].
Qed.

Lemma index_byte_None c s : index_byte c s = None ↔ c ∉ s.
Proof.
  induction s as [|d s IH]; cbn; [set_solver|].
  case_decide; [set_solver|]. rewrite fmap_None, IH. set_solver.
Qed.

Lemma last_index_byte_Some c s i :
  last_index_byte c s = Some i → s !! i = Some c ∧ c ∉ drop (S i) s.
Proof.
  revert i. induction s as [|d s IH]; intros i; cbn; [done|].
  destruct (last_index_byte c s) as [j|] eqn:E.
  - intros [= <-]. by apply IH.
  - case_decide; [intros [= <-]; subst; split; [done|] | done].
    clear IH. induction s as [|e s IH]; cbn in *; [set_solver|].
    destruct (last_index_byte c s); [done|]. case_decide; [done|].
    rewrite drop_0 in *. set_solver.
Qed.

Lemma last_index_byte_None c s : last_index_byte c s = None ↔ c ∉ s.
Proof.
  induction s as [|d s IH]; cbn; [set_solver|].
  destruct (last_index_byte c s) as [j|] eqn:E.
  - apply last_index_byte_Some in E as [E _]. apply list_elem_of_lookup_2 in E. set_solver.
  - case_decide; set_solver.
Qed.

Lemma split_on_not_nil sep s : split_on sep s ≠ [].
Proof. destruct s as [|c s]; cbn; [done|]. case_decide; [done|]. by case_match. Qed.

Lemma join_split sep s : join_on sep (split_on sep s) = s.
Proof.
  induction s as [|c s IH]; cbn; [done|].
  pose proof (split_on_not_nil sep s) as Hn.
  case_decide; [subst|]; destruct (split_on sep s) as [|x [|y l]]; cbn in *; congruence.
Qed.

Lemma run_length_le P s : run_length P s ≤ length s.
Proof. induction s; cbn; [lia|]. case_match; lia. Qed.

Lemma run_length_app P s t :
  Forall (λ c, P c = true) s → (∀ c, head t = Some c → P c = false) →
  run_length P (s ++ t) = length s.
Proof.
  induction 1 as [|c s Hc _ IH]; intros Ht; cbn.
  - destruct t; cbn in *; [done|]. by rewrite (Ht _ eq_refl).
  - by rewrite Hc, IH.
Qed.

Lemma run_length_take P s : Forall (λ c, P c = true) (take (run_length P s) s).
Proof. induction s; cbn; [done|]. case_match; cbn; constructor; done. Qed.

Lemma run_length_stop P s c : s !! run_length P s = Some c → P c = false.
Proof. induction s; cbn; [done|]. case_match; cbn; [done|]. congruence. Qed.

Lemma trim_left_suffix P s : ∃ k, trim_left P s = drop k s.
Proof.
  induction s as [|c s [k IH]]; cbn; [by exists 0|].
  case_match; [by exists (S k) | by exists 0].
Qed.

Lemma trim_left_head P s c : head (trim_left P s) = Some c → P c = false.
Proof. induction s; cbn; [done|]. case_match; cbn; [done | congruence]. Qed.

Lemma trim_left_id P s : (∀ c, head s = Some c → P c = false) → trim_left P s = s.
Proof. destruct s as [|c s]; cbn; [done|]. intros H. by rewrite (H _ eq_refl). Qed.

Lemma trim_right_prefix P s : ∃ k, trim_right P s = take k s.
Proof.
  induction s as [|c s [k IH]]; cbn; [by exists 0|].
  rewrite IH. destruct (take k s) eqn:E.
  - case_match; [by exists 0 | by exists 1].
  - exists (S k). cbn. by rewrite E.
Qed.

Lemma trim_right_last P s c : last (trim_right P s) = Some c → P c = false.
Proof.
  induction s as [|d s IH]; cbn; [done|].
  destruct (trim_right P s); [case_match; cbn; [done | intros [= <-]; done]|].
  rewrite last_cons_cons. exact IH.
Qed.

Lemma trim_right_clean P s : Forall (λ c, P c = false) s → trim_right P s = s.
Proof.
  induction 1 as [|c s Hc _ IH]; cbn; [done|]. rewrite IH. destruct s; [by rewrite Hc|done].
Qed.

Lemma slice_full s : slice 0 (length s) s = s.
Proof. unfold slice. by rewrite drop_0, Nat.sub_0_r, firstn_all. Qed.

Lemma split_on_index sep s :
  split_on sep s = match index_byte sep s with
                   | Some i => take i s :: split_on sep (drop (S i) s)
                   | None => [s]
                   end.
Proof.
  induction s as [|c s IH]; cbn; [done|]. case_decide; [by rewrite drop_0|]. rewrite IH.
  by destruct (index_byte sep s).
Qed.
