(* ===== verification/Decimal.v ===== *)
(** * Decimal numbers

    The standard library's decimal writing and reading of integers, [strconv.Itoa]
    and [strconv.Atoi], and that they are inverse. *)

From S2P Require Import Prelude.

(** ** Writing *)

(** [strconv.Itoa]. *)
Fixpoint digits_loop (fuel : nat) (n : Z) (acc : bytes) : bytes :=
  match fuel with
  | 0 => acc
  | S fuel' =>
    let acc := byte_of (code "0" + n mod 10) :: acc in
    if (n <? 10)%Z then acc else digits_loop fuel' (n / 10) acc
  end.
Definition Itoa (z : Z) : bytes :=
  if (z <? 0)%Z then "-"%char :: digits_loop 20 (- z) [] else digits_loop 20 z [].

(** ** Reading *)

Inductive num_error : Type := ErrSyntax | ErrRange.

Definition max_uint64 : Z := 2 ^ 64 - 1.

(** [strconv.ParseUint] in base 10: the digits after those that make [n]. *)
Fixpoint ParseUint_loop (n : Z) (s : bytes) : result num_error Z :=
  match s with
  | [] => Ok n
  | c :: s' =>
    if negb (is_digit c) then Err ErrSyntax
    else if (max_uint64 / 10 + 1 <=? n)%Z then Err ErrRange
    else let n1 := (n * 10 + (code c - code "0"))%Z in
         if (max_uint64 <? n1)%Z then Err ErrRange else ParseUint_loop n1 s'
  end.

(** [strconv.Atoi]. *)
Definition Atoi (s : bytes) : result num_error Z :=
  let '(neg, digits) := match s with
                        | "-"%char :: s' => (true, s')
                        | "+"%char :: s' => (false, s')
                        | _ => (false, s)
                        end in
  match digits with
  | [] => Err ErrSyntax
  | _ =>
    match ParseUint_loop 0 digits with
    | Err e => Err e
    | Ok un => if (if neg : bool then 2 ^ 63 <? un else 2 ^ 63 <=? un)%Z then Err ErrRange
               else Ok (if neg then (- un)%Z else un)
    end
  end.

Definition decimal (s : bytes) : Z := foldl (λ n c, 10 * n + (code c - code "0"))%Z 0%Z s.

(** ** Round trips *)

(** The decimal writing of a number reads back. *)
Lemma decimal_snoc s c : decimal (s ++ [c]) = (10 * decimal s + (code c - code "0"))%Z.
Proof. unfold decimal. by rewrite foldl_app. Qed.

Lemma digits_loop_spec fuel : ∀ n acc, (0 <= n < 10 ^ Z.of_nat (S fuel))%Z →
  ∃ d, digits_loop (S fuel) n acc = d ++ acc ∧ d ≠ [] ∧ forallb is_digit d = true ∧ decimal d = n.
Proof.
  assert (∀ n, (0 <= n)%Z → let c := byte_of (code "0" + n mod 10) in
            is_digit c = true ∧ (code c - code "0" = n mod 10)%Z) as Hc.
  { intros n Hn c. assert (code c = 48 + n mod 10)%Z as Hcode.
    { unfold c. rewrite code_byte_of. change (code "0") with 48%Z.
      pose proof (Z.mod_pos_bound n 10). apply Z.mod_small. lia. }
    change (code "0") with 48%Z. pose proof (Z.mod_pos_bound n 10). split; [|lia].
    apply between_spec. change (code "0") with 48%Z. change (code "9") with 57%Z. lia. }
  induction fuel as [|fuel IH]; intros n acc Hn; cbn [digits_loop]; destruct (Hc n) as [Hd Hv]; [lia| |lia|].
  - exists [byte_of (code "0" + n mod 10)]. rewrite Z.mod_small in * by lia.
    split_and!; [by destruct (_ <? _)%Z|done|by cbn; rewrite Hd|]. cbn. lia.
  - destruct (n <? 10)%Z eqn:E.
    + apply Z.ltb_lt in E. exists [byte_of (code "0" + n mod 10)]. rewrite Z.mod_small in * by lia.
      split_and!; [done|done|by cbn; rewrite Hd|]. cbn. lia.
    + apply Z.ltb_ge in E.
      destruct (IH (n / 10)%Z (byte_of (code "0" + n mod 10) :: acc)) as (d & Hl & Hne & Hf & Hval).
      { split; [apply Z.div_pos; lia|]. apply Z.div_lt_upper_bound; [lia|].
        rewrite Nat2Z.inj_succ, Z.pow_succ_r in Hn by lia. lia. }
      exists (d ++ [byte_of (code "0" + n mod 10)]). rewrite <-app_assoc, forallb_app, decimal_snoc.
      split_and!; [exact Hl|by destruct d|cbn; by rewrite Hf, Hd|].
      rewrite Hval, Hv. pose proof (Z.div_mod n 10). lia.
Qed.

Lemma Itoa_spec n : (0 <= n < 10 ^ 20)%Z →
  Itoa n ≠ [] ∧ forallb is_digit (Itoa n) = true ∧ decimal (Itoa n) = n.
Proof.
  intros Hn. unfold Itoa. rewrite (proj2 (Z.ltb_ge n 0)) by lia.
  destruct (digits_loop_spec 19 n []) as (d & -> & H); [exact Hn|]. by rewrite app_nil_r.
Qed.

Lemma length_digits_loop fuel : ∀ n acc, length (digits_loop fuel n acc) ≤ fuel + length acc.
Proof.
  induction fuel as [|fuel IH]; intros n acc; cbn [digits_loop]; [done|].
  destruct (n <? 10)%Z; [cbn; lia|]. etrans; [apply IH|]. cbn. lia.
Qed.

Lemma length_Itoa z : length (Itoa z) ≤ 21.
Proof.
  unfold Itoa. destruct (z <? 0)%Z; cbn [length];
    [pose proof (length_digits_loop 20 (- z) [])|pose proof (length_digits_loop 20 z [])]; cbn [length] in *; lia.
Qed.

Lemma is_digit_value c : is_digit c = true → (0 <= code c - code "0" <= 9)%Z.
Proof. intros [H1 H2]%between_spec. change (code "0") with 48%Z in *. change (code "9") with 57%Z in *. lia. Qed.

(** Digits read as the number they write, as far as int64 goes. *)
Lemma ParseUint_decimal s : ∀ n, forallb is_digit s = true → (0 <= n)%Z →
  (foldl (λ n c, 10 * n + (code c - code "0")) n s <= 2 ^ 63)%Z →
  ParseUint_loop n s = Ok (foldl (λ n c, 10 * n + (code c - code "0"))%Z n s).
Proof.
  induction s as [|c s IH]; intros n Hs Hn Hle; [done|]. cbn [forallb foldl] in Hs, Hle |- *.
  apply andb_true_iff in Hs as [Hc Hs]. pose proof (is_digit_value c Hc) as Hv.
  set (n1 := (10 * n + (code c - code "0"))%Z) in *.
  assert (n1 <= 2 ^ 63)%Z as Hn1.
  { etrans; [|exact Hle]. assert (0 <= n1)%Z as H0 by (unfold n1; lia). clear -Hs H0.
    revert H0. generalize n1. induction s as [|d s IH]; intros m H0; cbn; [done|].
    cbn in Hs. apply andb_true_iff in Hs as [Hd Hs]. pose proof (is_digit_value d Hd).
    etrans; [|apply IH; [exact Hs|lia]]. lia. }
  cbn [ParseUint_loop]. rewrite Hc. cbn [negb]. change (max_uint64 / 10 + 1)%Z with 1844674407370955162%Z.
  destruct (Z.leb_spec 1844674407370955162 n); [unfold n1 in Hn1; lia|].
  replace (n * 10 + (code c - code "0"))%Z with n1 by (unfold n1; lia).
  destruct (Z.ltb_spec max_uint64 n1); [unfold max_uint64 in *; lia|].
  apply IH; [exact Hs|unfold n1; lia|exact Hle].
Qed.

Lemma Atoi_digits (neg : bool) s : s ≠ [] → forallb is_digit s = true →
  (decimal s <= if neg then 2 ^ 63 else max_int64)%Z →
  Atoi (if neg then "-"%char :: s else s) = Ok (if neg then (- decimal s)%Z else decimal s).
Proof.
  intros Hne Hs Hle. assert (ParseUint_loop 0 s = Ok (decimal s)) as Hp.
  { apply ParseUint_decimal; [done..|]. fold (decimal s). unfold max_int64 in Hle. destruct neg; lia. }
  assert (∀ b : bool, match s with [] => Err ErrSyntax | _ :: _ =>
      match ParseUint_loop 0 s with
      | Err e => Err e
      | Ok un => if (if b : bool then 2 ^ 63 <? un else 2 ^ 63 <=? un)%Z then Err ErrRange
                 else Ok (if b then (- un)%Z else un)
      end end = (if (if b : bool then 2 ^ 63 <? decimal s else 2 ^ 63 <=? decimal s)%Z then Err ErrRange
                 else Ok (if b then (- decimal s)%Z else decimal s))) as Hm.
  { intros b. rewrite Hp. by destruct s. }
  destruct neg.
  - unfold Atoi. cbv iota beta. rewrite (Hm true). by destruct (Z.ltb_spec (2 ^ 63) (decimal s)); [lia|].
  - assert (Atoi s = if (2 ^ 63 <=? decimal s)%Z then Err ErrRange else Ok (decimal s)) as ->.
    { rewrite <-(Hm false). destruct s as [|c s]; [done|]. cbn in Hs. apply andb_true_iff in Hs as [Hc _].
      unfold Atoi. destruct c as [[] [] [] [] [] [] [] []]; try discriminate Hc; reflexivity. }
    unfold max_int64 in Hle. by destruct (Z.leb_spec (2 ^ 63) (decimal s)); [lia|].
Qed.

(** What Itoa writes of an int64, Atoi reads. *)
Lemma Atoi_Itoa z : int64_range z → Atoi (Itoa z) = Ok z.
Proof.
  intros [Hlo Hhi]. unfold min_int64, max_int64 in *. unfold Itoa. destruct (Z.ltb_spec z 0).
  - destruct (digits_loop_spec 19 (- z) []) as (d & -> & Hne & Hd & Hv); [lia|]. rewrite app_nil_r.
    rewrite (Atoi_digits true d Hne Hd) by lia. f_equal. lia.
  - destruct (digits_loop_spec 19 z []) as (d & -> & Hne & Hd & Hv); [lia|]. rewrite app_nil_r.
    rewrite (Atoi_digits false d Hne Hd) by (unfold max_int64; lia). by rewrite Hv.
Qed.
