(* ===== verification/Pattern.v ===== *)
(** * Route patterns

    [src/internal/router/pattern.go]: splitting a route pattern into literal,
    parameter and wildcard segments, and rejecting every pattern that is
    malformed, ambiguous or unable to match a normalised request path. *)

From S2P Require Import Prelude Bytes.

Inductive segKind : Type := segStatic | segParam | segWildcard.

#[export] Instance segKind_eq_dec : EqDecision segKind.
Proof. solve_decision. Defined.

Record segment : Type := Segment { seg_kind : segKind; seg_text : bytes }.

#[export] Instance segment_eq_dec : EqDecision segment.
Proof. solve_decision. Defined.

(** The errors of the package, one constructor per message. [ErrDuplicate] and
    the two conflicts are the tree's. *)
Inductive route_error : Type :=
| ErrDuplicate
| ErrEmptyPath
| ErrNoLeadingSlash (pattern : bytes)
| ErrEmptySegment (pattern collapsed : bytes)
| ErrDotSegment (pattern : bytes)
| ErrPercentEncoded (pattern : bytes) (decoded : option bytes)
| ErrEmptyParamName (pattern : bytes)
| ErrBadParamName (pattern name : bytes)
| ErrEmptyWildcardName (pattern : bytes)
| ErrWildcardNotLast (pattern : bytes)
| ErrBadWildcardName (pattern name : bytes)
| ErrNameTwice (pattern name : bytes)
| ErrParamConflict (pattern name registered : bytes)
| ErrWildcardConflict (pattern name registered : bytes).

#[export] Instance route_error_eq_dec : EqDecision route_error.
Proof. solve_decision. Defined.

(** ** Normalisation *)

Definition isHex (b : ascii) : bool :=
  between "0" "9" b || between "a" "f" b || between "A" "F" b.

Fixpoint hasPercentEscape (s : bytes) : bool :=
  match s with
  | c :: ((x :: y :: _) as s') =>
    (bool_decide (c = "%"%char) && isHex x && isHex y) || hasPercentEscape s'
  | _ => false
  end.

Fixpoint collapseSlashes (s : bytes) : bytes :=
  match s with
  | [] => []
  | c :: s' =>
    if bool_decide (c = "/"%char) && bool_decide (head s' = Some "/"%char)
    then collapseSlashes s'
    else c :: collapseSlashes s'
  end.

(** [url.PathUnescape]: every [%XX] is decoded; an incomplete escape is an
    error. *)
Definition unhex (c : ascii) : Z :=
  if between "0" "9" c then code c - code "0"
  else if between "a" "f" c then code c - code "a" + 10
  else if between "A" "F" c then code c - code "A" + 10
  else 0.

Fixpoint pathUnescape (s : bytes) : option bytes :=
  match s with
  | [] => Some []
  | c :: s' =>
    if decide (c = "%"%char) then
      match s' with
      | x :: y :: s'' =>
        if isHex x && isHex y
        then cons (byte_of (unhex x * 16 + unhex y)) <$> pathUnescape s''
        else None
      | _ => None
      end
    else cons c <$> pathUnescape s'
  end.

Definition checkNormalised (pattern : bytes) : option route_error :=
  if contains (bs "//") pattern then
    Some (ErrEmptySegment pattern (collapseSlashes pattern))
  else if existsb (λ seg, bool_decide (seg = bs ".") || bool_decide (seg = bs ".."))
                  (split_on "/" pattern) then
    Some (ErrDotSegment pattern)
  else if hasPercentEscape pattern then
    match pathUnescape pattern with
    | Some decoded =>
      if decide (decoded = pattern) then Some (ErrPercentEncoded pattern None)
      else Some (ErrPercentEncoded pattern (Some decoded))
    | None => Some (ErrPercentEncoded pattern None)
    end
  else None.

(** ** Names *)

Definition not_slash (c : ascii) : bool := negb (bool_decide (c = "/"%char)).

(** The name starting at [i] and the index just past it. *)
Definition scanName (pattern : bytes) (i : nat) : bytes * nat :=
  let n := run_length not_slash (drop i pattern) in
  (slice i (i + n) pattern, i + n).

Definition isValidParamName (name : bytes) : bool :=
  forallb (λ c, is_lower c || is_upper c || is_digit c || bool_decide (c = "_"%char)) name.

(** ** The parser *)

Definition is_marker (c : ascii) : bool :=
  bool_decide (c = ":"%char) || bool_decide (c = "*"%char).

(** One marker [c] at [i] whose name is [name], ending at [next]: the segment
    it adds, or the error. *)
Definition parse_marker (pattern : bytes) (c : ascii) (name : bytes) (next : nat)
    : result route_error segment :=
  if decide (c = ":"%char) then
    if decide (name = []) then Err (ErrEmptyParamName pattern)
    else if negb (isValidParamName name) then Err (ErrBadParamName pattern name)
    else Ok (Segment segParam name)
  else
    if decide (name = []) then Err (ErrEmptyWildcardName pattern)
    else if negb (bool_decide (next = length pattern)) then Err (ErrWildcardNotLast pattern)
    else if negb (isValidParamName name) then Err (ErrBadWildcardName pattern name)
    else Ok (Segment segWildcard name).

(** The loop of [parsePattern] at index [i]. The index grows at every
    iteration, so [length pattern] iterations are enough; when the fuel is
    spent the index is past the end. *)
Fixpoint parse_loop (pattern : bytes) (fuel i start : nat)
    (segs : list segment) (names : list bytes) : result route_error (list segment) :=
  match fuel, pattern !! i with
  | S fuel', Some c =>
    if negb (is_marker c) then parse_loop pattern fuel' (S i) start segs names
    else
      let segs := segs ++ [Segment segStatic (slice start i pattern)] in
      let '(name, next) := scanName pattern (S i) in
      seg ← parse_marker pattern c name next;
      if decide (name ∈ names) then Err (ErrNameTwice pattern name)
      else parse_loop pattern fuel' next next (segs ++ [seg]) (names ++ [name])
  | _, _ =>
    Ok (if decide (start < length pattern)
        then segs ++ [Segment segStatic (drop start pattern)] else segs)
  end.

Definition parsePattern (pattern : bytes) : result route_error (list segment) :=
  match pattern with
  | [] => Err ErrEmptyPath
  | c :: _ =>
    if negb (bool_decide (c = "/"%char)) then Err (ErrNoLeadingSlash pattern)
    else match checkNormalised pattern with
         | Some e => Err e
         | None => parse_loop pattern (length pattern) 0 0 [] []
         end
  end.

(** ** The grammar

    What [parsePattern] promises, stated without the loop: the segments render
    back to the pattern, literal and capturing segments alternate starting with
    a literal that begins with a slash, names are valid and distinct, and a
    wildcard ends the pattern. *)

Definition render_seg (s : segment) : bytes :=
  match seg_kind s with
  | segStatic => seg_text s
  | segParam => ":"%char :: seg_text s
  | segWildcard => "*"%char :: seg_text s
  end.

Definition render (segs : list segment) : bytes := concat (map render_seg segs).

Definition static_ok (t : bytes) : bool :=
  bool_decide (head t = Some "/"%char) && bool_decide (":"%char ∉ t) && bool_decide ("*"%char ∉ t).

Definition name_ok (n : bytes) : bool :=
  negb (bool_decide (n = [])) && forallb (λ c, is_alnum c || bool_decide (c = "_"%char)) n.

(** The segments after the names already used. *)
Fixpoint wf_segs (segs : list segment) (used : list bytes) : bool :=
  match segs with
  | [] => true
  | [Segment segStatic t] => static_ok t
  | [Segment segStatic t; Segment segWildcard n] =>
    static_ok t && name_ok n && negb (bool_decide (n ∈ used))
  | Segment segStatic t :: Segment segParam n :: rest =>
    static_ok t && name_ok n && negb (bool_decide (n ∈ used)) && wf_segs rest (used ++ [n])
  | _ => false
  end.

(** The names a parsed pattern captures, in order. *)
Definition seg_names (segs : list segment) : list bytes :=
  map seg_text (filter (λ s, seg_kind s ≠ segStatic) segs).

(** ** Lemmas on the loop *)

Lemma not_slash_false c : not_slash c = false ↔ c = "/"%char.
Proof.
  unfold not_slash. rewrite negb_false_iff, bool_decide_eq_true. done.
Qed.

Lemma parse_loop_exit pattern fuel i start segs names :
  length pattern <= i →
  parse_loop pattern fuel i start segs names =
  Ok (if decide (start < length pattern)
      then segs ++ [Segment segStatic (drop start pattern)] else segs).
Proof. intros Hi. destruct fuel; cbn; [done|]. by rewrite lookup_ge_None_2. Qed.

(** A run of [k] bytes without a marker is skipped. *)
Lemma parse_loop_skip pattern k fuel i start segs names :
  Forall (λ c, is_marker c = false) (take k (drop i pattern)) →
  i + k <= length pattern →
  parse_loop pattern (k + fuel) i start segs names =
  parse_loop pattern fuel (i + k) start segs names.
Proof.
  revert i. induction k as [|k IH]; intros i Hrun Hk; cbn; [by rewrite Nat.add_0_r|].
  destruct (lookup_lt_is_Some_2 pattern i) as [c Hc]; [lia|].
  rewrite Hc. rewrite (drop_S _ _ _ Hc) in Hrun. cbn in Hrun.
  apply Forall_cons in Hrun as [-> Hrun]. cbn.
  rewrite IH by (done || lia). f_equal. lia.
Qed.

(** Splitting the text from [start] at its first marker. *)
Lemma first_marker pattern start :
  start <= length pattern →
  ∃ k, start + k <= length pattern ∧
    Forall (λ c, is_marker c = false) (take k (drop start pattern)) ∧
    (start + k = length pattern ∨
     ∃ c, pattern !! (start + k) = Some c ∧ is_marker c = true).
Proof.
  intros Hs. set (P := λ c, negb (is_marker c)).
  exists (run_length P (drop start pattern)).
  pose proof (run_length_le P (drop start pattern)) as Hle. rewrite length_drop in Hle.
  split_and!; [lia| |].
  - eapply Forall_impl; [apply (run_length_take P)|].
    unfold P. intros c. cbn. rewrite negb_true_iff. done.
  - destruct (pattern !! (start + run_length P (drop start pattern))) as [c|] eqn:E.
    + right. exists c. split; [done|]. rewrite <-lookup_drop in E.
      apply run_length_stop in E. unfold P in E. by apply negb_false_iff in E.
    + left. apply lookup_ge_None in E. lia.
Qed.

Lemma scanName_spec pattern i name next :
  scanName pattern i = (name, next) → i <= length pattern →
  i <= next <= length pattern ∧ name = take (next - i) (drop i pattern) ∧
  Forall (λ c, not_slash c = true) name ∧
  (drop next pattern = [] ∨ head (drop next pattern) = Some "/"%char).
Proof.
  unfold scanName, slice. set (n := run_length not_slash (drop i pattern)).
  intros [= <- <-] Hi.
  pose proof (run_length_le not_slash (drop i pattern)) as Hle.
  rewrite length_drop in Hle. fold n in Hle. replace (i + n - i) with n by lia.
  split_and!; [lia | lia | done | apply run_length_take |].
  destruct (drop (i + n) pattern) as [|c l] eqn:E; [by left | right].
  rewrite <-drop_drop in E. cbn. f_equal. apply not_slash_false.
  apply (run_length_stop _ (drop i pattern)). fold n.
  assert (drop n (drop i pattern) !! 0 = Some c) as Hl by by rewrite E.
  rewrite lookup_drop, Nat.add_0_r in Hl. done.
Qed.

(** Scanning a name that is followed by a slash or nothing. *)
Lemma scanName_app pattern i name rest :
  drop i pattern = name ++ rest →
  Forall (λ c, not_slash c = true) name →
  (rest = [] ∨ head rest = Some "/"%char) →
  scanName pattern i = (name, i + length name).
Proof.
  intros Hd Hn Hr. unfold scanName, slice. rewrite Hd.
  rewrite run_length_app; [|done|].
  - replace (i + length name - i) with (length name) by lia. by rewrite take_app_length.
  - intros c Hc. apply not_slash_false. destruct Hr as [->|Hr]; [done | congruence].
Qed.

Lemma marker_cases c : is_marker c = true → c = ":"%char ∨ c = "*"%char.
Proof. unfold is_marker. intros H. to_prop. destruct H; to_prop; auto. Qed.

Lemma name_ok_valid name : name_ok name = negb (bool_decide (name = [])) && isValidParamName name.
Proof. done. Qed.

Lemma parse_marker_Ok pattern c name next seg :
  is_marker c = true →
  parse_marker pattern c name next = Ok seg ↔
  name_ok name = true ∧
  ((c = ":"%char ∧ seg = Segment segParam name) ∨
   (c = "*"%char ∧ next = length pattern ∧ seg = Segment segWildcard name)).
Proof.
  intros Hc. unfold parse_marker. rewrite name_ok_valid, andb_true_iff, negb_true_iff, bool_decide_eq_false.
  apply marker_cases in Hc as [-> | ->]; cbn;
    (repeat case_decide); (repeat case_bool_decide); destruct (isValidParamName name);
    cbn; naive_solver.
Qed.

Lemma name_ok_chars name : name_ok name = true → Forall (λ c, not_slash c = true) name.
Proof.
  rewrite name_ok_valid. unfold isValidParamName. intros H. to_prop.
  apply Is_true_true in H0. apply forallb_True in H0.
  eapply Forall_impl; [done|]. intros c Hc. cbn in Hc. apply Is_true_true in Hc.
  unfold not_slash. rewrite negb_true_iff, bool_decide_eq_false. intros ->. by vm_compute in Hc.
Qed.

Lemma static_ok_spec t :
  static_ok t = true ↔ head t = Some "/"%char ∧ Forall (λ c, is_marker c = false) t.
Proof.
  unfold static_ok. rewrite !andb_true_iff, !bool_decide_eq_true, Forall_forall.
  assert (∀ c, is_marker c = false ↔ c ≠ ":"%char ∧ c ≠ "*"%char) as Hm.
  { intros c. unfold is_marker. rewrite orb_false_iff, !bool_decide_eq_false. done. }
  setoid_rewrite Hm. split.
  - intros [[? H1] H2]. split; [done|]. intros c Hc. split; by intros ->.
  - intros [? H]. split_and!; [done|intros Hc; by destruct (H _ Hc)|intros Hc; by destruct (H _ Hc)].
Qed.

Lemma wf_segs_render_nil segs used :
  wf_segs segs used = true → render segs = [] → segs = [].
Proof.
  destruct segs as [|[k t] rest]; [done|]. unfold render. cbn. intros Hwf Hr.
  apply app_eq_nil in Hr as [Hr _]. destruct k; [|done..]. cbn in Hr. subst t.
  destruct rest as [|[[] n] rest]; cbn in Hwf; [done|done| |]; try (destruct rest); done.
Qed.

Lemma render_cons s segs : render (s :: segs) = render_seg s ++ render segs.
Proof. done. Qed.

Lemma render_app segs1 segs2 : render (segs1 ++ segs2) = render segs1 ++ render segs2.
Proof. unfold render. by rewrite map_app, concat_app. Qed.

(** The text from [start] to a marker at [start + k] is a valid literal. *)
Lemma static_run pattern start k c :
  head (drop start pattern) = Some "/"%char →
  pattern !! (start + k) = Some c → is_marker c = true →
  Forall (λ c, is_marker c = false) (take k (drop start pattern)) →
  static_ok (take k (drop start pattern)) = true.
Proof.
  intros Hh Hc Hm Hrun. apply static_ok_spec. split; [|done].
  destruct k as [|k].
  - rewrite Nat.add_0_r in Hc. rewrite (drop_S _ _ _ Hc) in Hh. cbn in Hh.
    injection Hh as ->. by vm_compute in Hm.
  - destruct (drop start pattern); done.
Qed.

(** One iteration at a marker. *)
Lemma parse_loop_marker pattern fuel i start segs names c :
  pattern !! i = Some c → is_marker c = true →
  parse_loop pattern (S fuel) i start segs names =
  (let '(name, next) := scanName pattern (S i) in
   seg ← parse_marker pattern c name next;
   if decide (name ∈ names) then Err (ErrNameTwice pattern name)
   else parse_loop pattern fuel next next
          ((segs ++ [Segment segStatic (slice start i pattern)]) ++ [seg]) (names ++ [name])).
Proof. intros Hc Hm. cbn. by rewrite Hc, Hm. Qed.

Lemma slice_run pattern start k : slice start (start + k) pattern = take k (drop start pattern).
Proof. unfold slice. by replace (start + k - start) with k by lia. Qed.

Lemma drop_marker (pattern : bytes) start k c :
  pattern !! (start + k) = Some c →
  drop start pattern = take k (drop start pattern) ++ c :: drop (S (start + k)) pattern.
Proof.
  intros Hc. rewrite <-(take_drop k (drop start pattern)) at 1.
  by rewrite drop_drop, (drop_S _ _ _ Hc).
Qed.

(** Text that is empty or starts with a slash, before the end of the pattern. *)
Lemma slash_start (pattern : bytes) start :
  drop start pattern = [] ∨ head (drop start pattern) = Some "/"%char →
  start < length pattern → head (drop start pattern) = Some "/"%char.
Proof.
  intros [H|H] Hs; [|done]. apply (f_equal length) in H. rewrite length_drop in H.
  cbn in H. lia.
Qed.

Lemma drop_scanned (pattern name : bytes) i next :
  i <= next → name = take (next - i) (drop i pattern) →
  drop i pattern = name ++ drop next pattern.
Proof.
  intros Hi ->. rewrite <-(take_drop (next - i) (drop i pattern)) at 1.
  rewrite drop_drop. by replace (i + (next - i)) with next by lia.
Qed.

Lemma parse_loop_sound pattern fuel start segs names out :
  start <= length pattern → length pattern - start <= fuel →
  (drop start pattern = [] ∨ head (drop start pattern) = Some "/"%char) →
  parse_loop pattern fuel start start segs names = Ok out →
  ∃ segs2, out = segs ++ segs2 ∧ render segs2 = drop start pattern ∧
    wf_segs segs2 names = true.
Proof.
  remember (length pattern - start) as n eqn:Hn.
  revert fuel start segs names out Hn.
  induction n as [n IH] using lt_wf_ind; intros fuel start segs names out Hn Hle Hf Hh Hp.
  destruct (first_marker pattern start Hle) as (k & Hk & Hrun & Hend).
  replace fuel with (k + (fuel - k)) in Hp by lia.
  rewrite parse_loop_skip in Hp by done.
  destruct Hend as [Hend | (c & Hc & Hm)].
  - rewrite parse_loop_exit in Hp by lia. injection Hp as <-. case_decide as Hs.
    + apply slash_start in Hh; [|done]. eexists; split; [done|]. split; [by unfold render; cbn; rewrite app_nil_r|].
      apply static_ok_spec. split; [done|].
      rewrite <-(firstn_all (drop start pattern)).
      by replace (length (drop start pattern)) with k by (rewrite length_drop; lia).
    + exists []. rewrite app_nil_r, drop_ge by lia. done.
  - assert (start + k < length pattern) as Hlt by (by eapply lookup_lt_Some).
    apply slash_start in Hh; [|lia].
    replace (fuel - k) with (S (fuel - k - 1)) in Hp by lia.
    rewrite (parse_loop_marker _ _ _ _ _ _ _ Hc Hm) in Hp.
    destruct (scanName pattern (S (start + k))) as [name next] eqn:Hscan.
    apply scanName_spec in Hscan as (Hnext & Hname & Hns & Hrest); [|lia].
    apply result_bind_Ok in Hp as (seg & Hseg & Hp). case_decide as Hin; [done|].
    apply parse_marker_Ok in Hseg as [Hok Hseg]; [|done].
    apply (IH (length pattern - next)) in Hp as (segs2 & -> & Hr & Hwf); [|lia..|done].
    exists (Segment segStatic (take k (drop start pattern)) :: seg :: segs2).
    rewrite <-!app_assoc, slice_run. split; [done|].
    rewrite !render_cons, Hr.
    pose proof (drop_scanned _ _ (S (start + k)) next ltac:(lia) Hname) as Hd.
    pose proof (static_run _ _ _ _ Hh Hc Hm Hrun) as Hst.
    rewrite (drop_marker _ _ _ _ Hc), take_app_length' by (rewrite length_take, length_drop; lia).
    rewrite Hd. destruct Hseg as [[-> ->] | (-> & Hlast & ->)]; cbn; (split; [done|]).
    + rewrite Hst, Hok, Hwf. by rewrite bool_decide_eq_false_2.
    + rewrite Hlast, drop_ge in Hr by lia.
      apply (wf_segs_render_nil _ _ Hwf) in Hr as ->.
      rewrite Hst, Hok. by rewrite bool_decide_eq_false_2.
Qed.

Lemma wf_segs_head segs used :
  wf_segs segs used = true → render segs = [] ∨ head (render segs) = Some "/"%char.
Proof.
  destruct segs as [|[[] t] rest]; cbn; [by left| |done..]. intros Hwf. right.
  assert (static_ok t = true) as Hst.
  { destruct rest as [|[[] n] [|]]; cbn in Hwf; to_prop; done. }
  apply static_ok_spec in Hst as [Hh _]. unfold render. cbn. by destruct t.
Qed.

(** One whole iteration over a literal, a marker and a name. *)
Lemma parse_loop_step pattern fuel start segs names t c name rest :
  drop start pattern = t ++ c :: name ++ rest →
  static_ok t = true → is_marker c = true → name_ok name = true →
  (rest = [] ∨ head rest = Some "/"%char) →
  start + length t + length name < length pattern ∧
  drop (S (start + length t + length name)) pattern = rest ∧
  parse_loop pattern (S (length t) + fuel) start start segs names =
  (seg ← parse_marker pattern c name (S (start + length t + length name));
   if decide (name ∈ names) then Err (ErrNameTwice pattern name)
   else parse_loop pattern fuel (S (start + length t + length name))
          (S (start + length t + length name))
          ((segs ++ [Segment segStatic t]) ++ [seg]) (names ++ [name])).
Proof.
  intros Hd Hst Hm Hn Hr. apply static_ok_spec in Hst as [_ Hrun].
  pose proof (f_equal length Hd) as Hlen. rewrite length_drop, length_app in Hlen.
  cbn in Hlen. rewrite length_app in Hlen.
  assert (drop (S (start + length t)) pattern = name ++ rest) as Hd'.
  { replace (S (start + length t)) with (start + (length t + 1)) by lia.
    rewrite <-drop_drop, Hd, <-drop_drop, drop_app_length. done. }
  split_and!; [lia| |].
  { replace (S (start + length t + length name)) with (S (start + length t) + length name) by lia.
    by rewrite <-drop_drop, Hd', drop_app_length. }
  replace (S (length t) + fuel) with (length t + S fuel) by lia.
  rewrite parse_loop_skip; [|by rewrite Hd, take_app_length|lia].
  assert (pattern !! (start + length t) = Some c) as Hc.
  { rewrite <-lookup_drop, Hd. by rewrite lookup_app_r, Nat.sub_diag. }
  rewrite (parse_loop_marker _ _ _ _ _ _ _ Hc Hm).
  rewrite (scanName_app _ _ name rest) by (done || by apply name_ok_chars).
  by rewrite slice_run, Hd, take_app_length.
Qed.

Lemma parse_loop_complete pattern segs2 : ∀ fuel start segs names,
  start <= length pattern → length pattern - start <= fuel →
  render segs2 = drop start pattern → wf_segs segs2 names = true →
  parse_loop pattern fuel start start segs names = Ok (segs ++ segs2).
Proof.
  remember (length segs2) as n eqn:Hn. revert segs2 Hn.
  induction n as [n IH] using lt_wf_ind; intros segs2 Hn fuel start segs names Hle Hf Hr Hwf.
  pose proof (f_equal length Hr) as Hlen. rewrite length_drop in Hlen.
  destruct segs2 as [|[[] t] [|[k name] rest]]; [| | |done..].
  - cbn in Hlen. rewrite parse_loop_exit by lia. rewrite decide_False by lia.
    by rewrite app_nil_r.
  - cbn in Hwf. unfold render in Hr, Hlen. cbn in Hr, Hlen. rewrite app_nil_r in Hr, Hlen.
    apply static_ok_spec in Hwf as [Hh Hrun].
    assert (t ≠ []) by (by destruct t).
    assert (0 < length t) by (by destruct t; [|cbn; lia]).
    replace fuel with (length t + (fuel - length t)) by lia.
    rewrite parse_loop_skip; [|by rewrite <-Hr, firstn_all|lia].
    rewrite parse_loop_exit by lia. rewrite decide_True by lia. by rewrite Hr.
  - assert (∃ c, is_marker c = true ∧ name_ok name = true ∧ static_ok t = true ∧
      (name ∉ names) ∧ render_seg (Segment k name) = c :: name ∧
      wf_segs rest (names ++ [name]) = true ∧
      ((c = ":"%char ∧ k = segParam) ∨ (c = "*"%char ∧ k = segWildcard ∧ rest = [])))
      as (c & Hm & Hok & Hst & Hin & Hrs & Hwf' & Hk).
    { destruct k; [done| |]; [exists ":"%char | exists "*"%char; destruct rest; [|done]];
        cbn in Hwf; to_prop; split_and!; try done; auto. }
    rewrite !render_cons, Hrs in Hr. cbn in Hr.
    edestruct (parse_loop_step pattern (fuel - S (length t)) start segs names t c name)
      as (Hlt & Hd & Heq); [done..|by eapply wf_segs_head|].
    replace (S (length t) + (fuel - S (length t))) with fuel in Heq by lia.
    rewrite Heq. clear Heq.
    erewrite (proj2 (parse_marker_Ok _ _ _ _ (Segment k name) Hm)).
    2:{ split; [done|]. destruct Hk as [[-> ->]|(-> & -> & ->)]; [by left|right].
        split; [done|]. split; [|done]. unfold render in Hd. cbn in Hd.
        apply (f_equal length) in Hd. rewrite length_drop in Hd. cbn in Hd. lia. }
    cbn. rewrite decide_False by done.
    rewrite (IH (length rest) ltac:(cbn in Hn; lia) rest eq_refl); [by rewrite <-!app_assoc|lia|lia|by rewrite Hd|done].
Qed.

Lemma contains_slashes s :
  contains (bs "//") s = true ↔ ∃ i, s !! i = Some "/"%char ∧ s !! S i = Some "/"%char.
Proof.
  induction s as [|c s IH]; cbn -[has_prefix]; [split; [done | by intros (i & ? & _)]|].
  rewrite orb_true_iff, IH. unfold has_prefix. rewrite bool_decide_eq_true. split.
  - intros [H|(i & ? & ?)]; [|by exists (S i)]. exists 0. destruct s as [|d s]; cbn in *; naive_solver.
  - intros ([|i] & Hi & Hi'); [left|right; eauto]. destruct s as [|d s]; cbn in *; naive_solver.
Qed.

Lemma hasPercentEscape_spec s :
  hasPercentEscape s = true ↔
  ∃ i x y, s !! i = Some "%"%char ∧ s !! S i = Some x ∧ s !! S (S i) = Some y ∧
    isHex x = true ∧ isHex y = true.
Proof.
  induction s as [|c [|x [|y s]] IH]; [split; [done | intros ([] & ? & ? & ? & ?); done]| | |].
  1,2: split; [done | intros ([|[|[]]] & ? & ? & ? & ? & ? & _); done].
  cbn -[isHex]. cbn -[isHex] in IH. rewrite orb_true_iff, IH. clear IH.
  rewrite !andb_true_iff, bool_decide_eq_true. split.
  - intros [[[-> Hx] Hy]|(i & u & v & H)]; [exists 0; eauto 10 | exists (S i); eauto].
  - intros ([|i] & u & v & H1 & H2 & H3 & Hx & Hy); [left|right; exists i; eauto 10].
    cbn in *. naive_solver.
Qed.

(** A pattern passes [checkNormalised] exactly when no rewriting that the
    transport applies to request paths could change it. *)
Lemma checkNormalised_None pattern :
  checkNormalised pattern = None ↔
  (¬ ∃ i, pattern !! i = Some "/"%char ∧ pattern !! S i = Some "/"%char) ∧
  (bs "." ∉ split_on "/" pattern) ∧ (bs ".." ∉ split_on "/" pattern) ∧
  ¬ ∃ i x y, pattern !! i = Some "%"%char ∧ pattern !! S i = Some x ∧
     pattern !! S (S i) = Some y ∧ isHex x = true ∧ isHex y = true.
Proof.
  unfold checkNormalised. rewrite <-contains_slashes, <-hasPercentEscape_spec.
  assert (existsb (λ seg, bool_decide (seg = bs ".") || bool_decide (seg = bs ".."))
    (split_on "/" pattern) = true ↔
    bs "." ∈ split_on "/" pattern ∨ bs ".." ∈ split_on "/" pattern) as Hdot.
  { rewrite existsb_exists. setoid_rewrite orb_true_iff. setoid_rewrite bool_decide_eq_true.
    setoid_rewrite <-list_elem_of_In. naive_solver. }
  destruct (contains _ _); [naive_solver|].
  destruct (existsb _ _); [naive_solver|].
  destruct (hasPercentEscape _); [|naive_solver].
  case_match; [case_decide|]; naive_solver.
Qed.

Lemma parsePattern_sound pattern segs :
  parsePattern pattern = Ok segs →
  render segs = pattern ∧ segs ≠ [] ∧ wf_segs segs [] = true ∧ checkNormalised pattern = None.
Proof.
  unfold parsePattern. destruct pattern as [|c p] eqn:Hp; [done|]. rewrite <-Hp.
  case_bool_decide as Hc; [|done]. cbn [negb].
  destruct (checkNormalised pattern); [done|]. intros H.
  apply parse_loop_sound in H as (segs2 & -> & Hr & Hwf);
    [|lia|lia|right; rewrite Hp; cbn; congruence].
  rewrite drop_0 in Hr. split_and!; [done| |done|done].
  intros E. cbn in E. subst segs2. cbn in Hr. congruence.
Qed.

Lemma parsePattern_complete segs :
  segs ≠ [] → wf_segs segs [] = true → checkNormalised (render segs) = None →
  parsePattern (render segs) = Ok segs.
Proof.
  intros Hne Hwf Hn. unfold parsePattern. rewrite Hn.
  destruct (wf_segs_head _ _ Hwf) as [Hh|Hh]; [by apply (wf_segs_render_nil _ _ Hwf) in Hh|].
  destruct (render segs) as [|c p] eqn:Hp; [done|]. injection Hh as ->.
  rewrite bool_decide_eq_true_2 by done. cbn [negb].
  apply (parse_loop_complete _ segs _ 0 [] []); [lia|cbn; lia|done|done].
Qed.

(** The grammar determines the segments: two parses of one pattern agree, and
    two patterns with the same segments are the same pattern. *)
Lemma parsePattern_render pattern segs : parsePattern pattern = Ok segs → render segs = pattern.
Proof. intros H. by apply parsePattern_sound in H as [? _]. Qed.

(** What the transport would rewrite in a request path, and so never sends: two
    slashes in a row, a segment "." or "..", an escape of two hexadecimal digits. *)
Definition rewritten (path : bytes) : Prop :=
  (∃ p q, path = p ++ bs "//" ++ q) ∨
  (∃ p d q, path = p ++ bs "/" ++ d ++ q ∧ (d = bs "." ∨ d = bs "..") ∧ (q = [] ∨ head q = Some "/"%char)) ∨
  (∃ p x y q, path = p ++ "%"%char :: x :: y :: q ∧
     x ∈ bs "0123456789abcdefABCDEF" ∧ y ∈ bs "0123456789abcdefABCDEF").

Lemma isHex_digits c : isHex c = true ↔ c ∈ bs "0123456789abcdefABCDEF".
Proof.
  split.
  - intros Hc. apply (bool_decide_unpack _). destruct c as [[] [] [] [] [] [] [] []]; vm_compute in Hc |- *; done.
  - revert c. rewrite <-Forall_forall. by repeat constructor.
Qed.

Lemma split_on_cons (c : ascii) s : c ≠ "/"%char →
  ∃ x xs, split_on "/" s = x :: xs ∧ split_on "/" (c :: s) = (c :: x) :: xs.
Proof.
  intros Hc. pose proof (split_on_not_nil "/" s). cbn. rewrite decide_False by done.
  destruct (split_on "/" s) as [|x xs]; [done|]. by exists x, xs.
Qed.

(** The first segment, and those after a slash. *)
Lemma split_on_head d s : head (split_on "/" s) = Some d ↔
  ("/"%char ∉ d) ∧ ∃ q, s = d ++ q ∧ (q = [] ∨ head q = Some "/"%char).
Proof.
  revert d. induction s as [|c s IH]; intros d.
  { cbn. split; [intros [= <-]; split; [set_solver|]; exists []; auto|].
    intros (_ & q & Hq & _). by destruct d. }
  destruct (decide (c = "/"%char)) as [->|Hc].
  { cbn. split; [intros [= <-]; split; [set_solver|]; eexists; split; [reflexivity|by right]|].
    intros (Hd & q & Hq & _). destruct d as [|x d]; [done|]. injection Hq as <- _. set_solver. }
  destruct (split_on_cons c s Hc) as (x & xs & Hs & ->). rewrite Hs in IH. cbn in IH |- *. split.
  - intros [= <-]. destruct (proj1 (IH x) eq_refl) as (Hx & q & -> & Hq). split; [set_solver|]. by exists q.
  - intros (Hd & q & Hq & Hh). destruct d as [|y d].
    { cbn in Hq. subst q. destruct Hh as [|[= ->]]; done. }
    injection Hq as <- Hq. do 2 f_equal. enough (Some x = Some d) by congruence.
    apply IH. split; [set_solver|]. by exists q.
Qed.

Lemma split_on_tail d s : d ∈ tail (split_on "/" s) ↔
  ("/"%char ∉ d) ∧ ∃ p q, s = p ++ bs "/" ++ d ++ q ∧ (q = [] ∨ head q = Some "/"%char).
Proof.
  induction s as [|c s IH].
  { cbn. split; [by intros ?%elem_of_nil|]. intros (_ & p & q & Hs & _). by destruct p. }
  destruct (decide (c = "/"%char)) as [->|Hc].
  - cbn [split_on]. rewrite decide_True by done. cbn [tail].
    assert (d ∈ split_on "/" s ↔ head (split_on "/" s) = Some d ∨ d ∈ tail (split_on "/" s)) as ->.
    { destruct (split_on "/" s) as [|x xs]; cbn; [set_solver|]. rewrite elem_of_cons. naive_solver. }
    rewrite IH, split_on_head. split.
    + intros [(Hd & q & -> & Hq)|(Hd & p & q & -> & Hq)]; (split; [done|]); [by exists [], q|by exists ("/"%char :: p), q].
    + intros (Hd & [|x p] & q & Hs & Hq); injection Hs as Hs; [left|right]; (split; [done|]); [by exists q|by exists p, q].
  - destruct (split_on_cons c s Hc) as (x & xs & Hs & ->). rewrite Hs in IH. cbn [tail] in IH |- *. rewrite IH.
    split; intros (Hd & p & q & Hp & Hq); (split; [done|]).
    + exists (c :: p), q. by rewrite Hp.
    + destruct p as [|y p]; [by injection Hp as ->|]. injection Hp as _ Hp. by exists p, q.
Qed.

Lemma rendered_slash segs : segs ≠ [] → wf_segs segs [] = true → head (render segs) = Some "/"%char.
Proof. intros Hne Hwf. destruct (wf_segs_head _ _ Hwf) as [Hr|Hr]; [|done]. by apply (wf_segs_render_nil _ _ Hwf) in Hr. Qed.

Lemma checkNormalised_spec pattern : head pattern = Some "/"%char →
  checkNormalised pattern = None ↔ ¬ rewritten pattern.
Proof.
  intros Hh. rewrite checkNormalised_None.
  assert ((∃ i, pattern !! i = Some "/"%char ∧ pattern !! S i = Some "/"%char) ↔ ∃ p q, pattern = p ++ bs "//" ++ q) as ->.
  { split.
    - intros (i & H1 & H2). exists (take i pattern), (drop (S (S i)) pattern).
      rewrite <-(take_drop i pattern) at 1. by rewrite (drop_S _ _ _ H1), (drop_S _ _ _ H2).
    - intros (p & q & ->). exists (length p). rewrite !(lookup_app_r p), Nat.sub_diag by lia.
      by replace (S (length p) - length p) with 1 by lia. }
  assert ((∃ i x y, pattern !! i = Some "%"%char ∧ pattern !! S i = Some x ∧ pattern !! S (S i) = Some y ∧
            isHex x = true ∧ isHex y = true) ↔
          ∃ p x y q, pattern = p ++ "%"%char :: x :: y :: q ∧
            x ∈ bs "0123456789abcdefABCDEF" ∧ y ∈ bs "0123456789abcdefABCDEF") as ->.
  { setoid_rewrite isHex_digits. split.
    - intros (i & x & y & H1 & H2 & H3 & Hx & Hy). exists (take i pattern), x, y, (drop (S (S (S i))) pattern).
      split; [|done]. rewrite <-(take_drop i pattern) at 1.
      by rewrite (drop_S _ _ _ H1), (drop_S _ _ _ H2), (drop_S _ _ _ H3).
    - intros (p & x & y & q & -> & Hx & Hy). exists (length p), x, y. rewrite !(lookup_app_r p), Nat.sub_diag by lia.
      by replace (S (length p) - length p) with 1 by lia; replace (S (S (length p)) - length p) with 2 by lia. }
  assert (∀ d, d = bs "." ∨ d = bs ".." → d ∈ split_on "/" pattern ↔
    ∃ p q, pattern = p ++ bs "/" ++ d ++ q ∧ (q = [] ∨ head q = Some "/"%char)) as Hdot.
  { intros d Hd. assert (d ∈ split_on "/" pattern ↔ d ∈ tail (split_on "/" pattern)) as ->.
    - destruct pattern as [|c p]; [done|]. injection Hh as ->. cbn [split_on]. rewrite decide_True by done.
      cbn [tail]. rewrite elem_of_cons. split; [intros [->|?]; [by destruct Hd|done]|by right].
    - rewrite split_on_tail. destruct Hd as [->| ->]; (split; [by intros [_ ?]|intros ?; split; [|done]]);
        by apply (bool_decide_unpack _). }
  pose proof (Hdot _ (or_introl eq_refl)) as ->. pose proof (Hdot _ (or_intror eq_refl)) as ->. unfold rewritten.
  split.
  - intros (H1 & H2 & H3 & H4) [H|[(p & d & q & Hp & [->| ->] & Hq)|H]]; [by apply H1| | |by apply H4].
    + apply H2. by exists p, q.
    + apply H3. by exists p, q.
  - intros H. split_and!; intros Hx; apply H; [by left|right; left..|by right; right];
      destruct Hx as (p & q & Hp & Hq); [by exists p, (bs "."), q; auto|by exists p, (bs ".."), q; auto].
Qed.

(** C4. [parsePattern] accepts exactly the patterns of the grammar, and what it
    returns is the pattern split: rendering the segments gives the pattern back,
    and every well-formed segment list whose rendering no transport would rewrite is
    the parse of its own rendering. *)
Theorem parsePattern_iff pattern segs :
  parsePattern pattern = Ok segs ↔
  render segs = pattern ∧ segs ≠ [] ∧ wf_segs segs [] = true ∧ ¬ rewritten pattern.
Proof.
  split.
  - intros (Hr & Hne & Hwf & Hn)%parsePattern_sound. split_and!; [done..|].
    apply checkNormalised_spec; [|done]. rewrite <-Hr. by eapply rendered_slash.
  - intros (<- & Hne & Hwf & Hn). apply parsePattern_complete; [done..|].
    apply checkNormalised_spec; [|done]. by eapply rendered_slash.
Qed.
