(* ===== verification/Slice.v ===== *)
(** * Growable slices with a backing array

    Two pooled slices of the source keep their backing array from one request to
    the next: [router.Params.slots] and [Ctx.store]. What a later request can
    reach is decided by what truncation leaves in the array, so the array is part
    of the model: a slice is the whole array, as long as the slice's capacity,
    and the length of the part in use. *)

From S2P Require Import Prelude.

Record slice (A : Type) : Type := Slice { arr : list A; used : nat }.
Arguments Slice {A} arr used.
Arguments arr {A} s.
Arguments used {A} s.

(** How much spare room [append] leaves when it grows an array of a given
    capacity. The language fixes no number, so it is a parameter. *)
Class AppendGrowth : Type := append_room : nat → nat.

Section slice.
Context {A : Type} `{GoZero A} `{AppendGrowth}.
Implicit Types (s : slice A) (x : A).

(** The elements [s[0:len(s)]]. *)
Definition live s : list A := take (used s) (arr s).

(** [cap(s)]. *)
Definition slice_cap s : nat := length (arr s).

(** [make([]A, 0, capacity)]. *)
Definition make_slice (capacity : nat) : slice A := Slice (replicate capacity zero) 0.

(** [append(s, x)]: in place when there is room, otherwise into a new array. *)
Definition append_slice s x : slice A :=
  if decide (used s < slice_cap s) then Slice (<[used s := x]> (arr s)) (S (used s))
  else Slice (live s ++ x :: replicate (append_room (slice_cap s)) zero) (S (used s)).

(** [clear(s[n:]); s = s[:n]]. [clear] zeroes [s[n:len(s)]]; [s[n:]] panics
    when [n] is past the length, which no caller can reach. *)
Definition truncate_slice (n : nat) s : slice A :=
  Slice (take n (arr s) ++ replicate (used s - n) zero ++ drop (used s) (arr s)) n.

(** [s[i].f = v] for an index below the length. *)
Definition update_slice (i : nat) (f : A → A) s : slice A := Slice (alter f i (arr s)) (used s).

(** The length is within the capacity, and no slot past the length keeps a
    value: nothing an earlier request stored is reachable from the array. *)
Definition slice_ok s : Prop :=
  used s <= slice_cap s ∧ Forall (eq zero) (drop (used s) (arr s)).

Lemma length_live s : slice_ok s → length (live s) = used s.
Proof. intros [? _]. unfold live, slice_cap in *. rewrite length_take. lia. Qed.

Lemma make_slice_ok n : slice_ok (make_slice n) ∧ live (make_slice n) = [].
Proof.
  split; [split; cbn; [lia|]|done]. rewrite drop_0. by apply Forall_replicate_eq.
Qed.

Lemma append_slice_ok s x : slice_ok s → slice_ok (append_slice s x).
Proof.
  intros [Hu Hz]. unfold append_slice, slice_ok, slice_cap in *.
  case_decide; cbn; split.
  - rewrite length_insert. lia.
  - rewrite drop_insert_lt by lia. by rewrite <-Nat.add_1_r, <-drop_drop; apply Forall_drop.
  - unfold live. rewrite length_app, length_take. cbn. lia.
  - rewrite drop_app_ge; unfold live; rewrite length_take; [|lia].
    replace (S (used s) - _) with 1 by lia. cbn. rewrite drop_0. by apply Forall_replicate_eq.
Qed.

Lemma live_append s x : slice_ok s → live (append_slice s x) = live s ++ [x].
Proof.
  intros [Hu Hz]. unfold append_slice, live, slice_cap in *. case_decide; cbn [arr used].
  - erewrite take_S_r; [|by apply list_lookup_insert_eq]. by rewrite take_insert_ge.
  - rewrite take_app_ge; rewrite length_take; [|lia].
    replace (S (used s) - _) with 1 by lia. by rewrite firstn_all2 by (rewrite ?length_take; lia).
Qed.

Lemma used_append s x : used (append_slice s x) = S (used s).
Proof. unfold append_slice. by case_decide. Qed.

Lemma truncate_slice_ok n s : slice_ok s → n <= used s → slice_ok (truncate_slice n s).
Proof.
  intros [Hu Hz] Hn. unfold truncate_slice, slice_ok, slice_cap in *. cbn.
  rewrite !length_app, length_take, length_replicate, length_drop. split; [lia|].
  rewrite drop_app_length' by (rewrite length_take; lia).
  apply Forall_app. split; [by apply Forall_replicate_eq | done].
Qed.

Lemma live_truncate n s : slice_ok s → n <= used s → live (truncate_slice n s) = take n (live s).
Proof.
  intros [Hu Hz] Hn. unfold truncate_slice, live, slice_cap in *. cbn.
  rewrite take_app_length' by (rewrite length_take; lia).
  rewrite take_take. f_equal. lia.
Qed.

Lemma truncate_cap n s : slice_ok s → n <= used s → slice_cap (truncate_slice n s) = slice_cap s.
Proof.
  intros [Hu Hz] Hn. unfold truncate_slice, slice_cap in *. cbn.
  rewrite !length_app, length_take, length_replicate, length_drop. lia.
Qed.

(** Truncating to nothing leaves an array of zeroes. *)
Lemma truncate_zero s :
  slice_ok s → arr (truncate_slice 0 s) = replicate (slice_cap s) zero.
Proof.
  intros [Hu Hz]. unfold truncate_slice, slice_cap in *. cbn.
  rewrite Nat.sub_0_r, <-(replicate_as_Forall_2 zero _ _ eq_refl Hz).
  rewrite length_drop, <-replicate_add, take_0. cbn. f_equal. lia.
Qed.

Lemma update_slice_ok i f s : slice_ok s → i < used s → slice_ok (update_slice i f s).
Proof.
  intros [Hu Hz] Hi. unfold update_slice, slice_ok, slice_cap in *. cbn.
  rewrite length_alter. split; [done|]. by rewrite drop_alter_lt.
Qed.

Lemma live_update i f s : i < used s → live (update_slice i f s) = alter f i (live s).
Proof.
  intros Hi. unfold update_slice, live. cbn. by apply take_alter_lt.
Qed.
End slice.

#[export] Hint Resolve append_slice_ok truncate_slice_ok update_slice_ok : rice.

Arguments live : simpl never.
Arguments slice_cap : simpl never.
Arguments make_slice : simpl never.
Arguments append_slice : simpl never.
Arguments truncate_slice : simpl never.
Arguments update_slice : simpl never.
Arguments slice_ok : simpl never.
