(* ===== verification/Params.v ===== *)
(** * Captured route parameters

    [src/internal/router/params.go]: the parameters one lookup captures, kept in
    a slice that outlives the request inside a pooled context. *)

From S2P Require Import Prelude Slice.

(** [Value] is a view into the request path; the model keeps the bytes seen. *)
Record Param : Type := mkParam { Key : bytes; Value : bytes }.

#[export] Instance Param_eq_dec : EqDecision Param.
Proof. solve_decision. Defined.
#[export] Instance zero_Param : GoZero Param := mkParam zero zero.

Record Params : Type := mkParams { slots : slice Param }.

Section params.
Context `{AppendGrowth}.
Implicit Types (p : Params) (name value : bytes).

Definition MakeParams (capacity : nat) : Params := mkParams (make_slice capacity).

Definition Cap p : nat := slice_cap (slots p).

Definition Len p : nat := used (slots p).

Definition truncate p (n : nat) : Params := mkParams (truncate_slice n (slots p)).

Definition Reset p : Params := truncate p 0.

Definition add p name value : Params := mkParams (append_slice (slots p) (mkParam name value)).

(** The index of the first capture of [name]. *)
Fixpoint find_key (name : bytes) (l : list Param) : option nat :=
  match l with
  | [] => None
  | q :: l' => if decide (Key q = name) then Some 0 else S <$> find_key name l'
  end.

Definition Set_ p name value : Params :=
  match find_key name (live (slots p)) with
  | Some i => mkParams (update_slice i (λ q, mkParam (Key q) value) (slots p))
  | None => add p name value
  end.

Definition Get p name : bytes :=
  match find_key name (live (slots p)) with
  | Some i => match live (slots p) !! i with Some q => Value q | None => [] end
  | None => []
  end.

(** [At] panics out of range: [None]. *)
Definition At p (i : nat) : option Param :=
  if decide (i < Len p) then live (slots p) !! i else None.

(** The captures in order. *)
Definition captures p : list (bytes * bytes) := map (λ q, (Key q, Value q)) (live (slots p)).

Definition params_ok p : Prop := slice_ok (slots p).

(** ** Lemmas *)

Lemma MakeParams_ok n : params_ok (MakeParams n) ∧ captures (MakeParams n) = [].
Proof.
  destruct (make_slice_ok (A := Param) n) as [H1 H2]. split; [exact H1|].
  unfold captures, MakeParams. cbn [slots]. by rewrite H2.
Qed.

Lemma add_ok p name value : params_ok p → params_ok (add p name value).
Proof. unfold params_ok. cbn. auto with rice. Qed.

Lemma captures_add p name value :
  params_ok p → captures (add p name value) = captures p ++ [(name, value)].
Proof. intros Hp. unfold captures. cbn. by rewrite live_append, map_app. Qed.

Lemma Len_add p name value : Len (add p name value) = S (Len p).
Proof. apply used_append. Qed.

Lemma length_captures p : params_ok p → length (captures p) = Len p.
Proof. intros Hp. unfold captures. rewrite length_map. by apply length_live. Qed.

Lemma truncate_ok p n : params_ok p → n <= Len p → params_ok (truncate p n).
Proof. unfold params_ok. cbn. intros. by apply truncate_slice_ok. Qed.

Lemma captures_truncate p n :
  params_ok p → n <= Len p → captures (truncate p n) = take n (captures p).
Proof.
  intros Hp Hn. unfold captures. cbn. rewrite live_truncate by done. by rewrite firstn_map.
Qed.

(** A capture that is rolled back leaves the captures as they were. *)
Lemma truncate_add p p' name value :
  params_ok p → params_ok p' → captures p' = captures (add p name value) →
  captures (truncate p' (Len p)) = captures p ∧ params_ok (truncate p' (Len p)).
Proof.
  intros Hp Hp' Hc.
  assert (Len p <= Len p').
  { rewrite <-!length_captures, Hc, captures_add, length_app by done. lia. }
  split; [|by apply truncate_ok].
  rewrite captures_truncate, Hc, captures_add by done.
  by rewrite <-(length_captures p), take_app_length.
Qed.

Lemma find_key_Some name (l : list Param) i :
  find_key name l = Some i →
  ∃ q, l !! i = Some q ∧ Key q = name ∧ Forall (λ r, Key r ≠ name) (take i l).
Proof.
  revert i. induction l as [|r l IH]; intros i; cbn; [done|].
  case_decide as Hr; [intros [= <-]; eauto|].
  intros (j & Hj & ->)%fmap_Some. apply IH in Hj as (q & ? & ? & ?).
  exists q. cbn. auto.
Qed.

Lemma find_key_None name (l : list Param) :
  find_key name l = None ↔ Forall (λ r, Key r ≠ name) l.
Proof.
  induction l as [|r l IH]; cbn; [done|].
  case_decide; [split; [done | by intros [? ?]%Forall_cons]|].
  rewrite fmap_None, IH, Forall_cons. naive_solver.
Qed.

Lemma find_key_alter name name' v (l : list Param) i :
  find_key name' (alter (λ q, mkParam (Key q) v) i l) = find_key name' l.
Proof.
  revert i. induction l as [|r l IH]; intros [|i]; cbn; try done.
  by rewrite IH.
Qed.

Lemma find_key_snoc name name' v (l : list Param) :
  find_key name l = None →
  find_key name' (l ++ [mkParam name v]) =
  if decide (name' = name) then Some (length l) else find_key name' l.
Proof.
  induction l as [|r l IH]; cbn; [by repeat case_decide|].
  destruct (decide (Key r = name)) as [|Hr]; [intros [=]|]. intros Hn%fmap_None. rewrite (IH Hn). clear IH.
  destruct (decide (Key r = name')), (decide (name' = name)); by subst.
Qed.

Lemma Set_ok p name value : params_ok p → params_ok (Set_ p name value).
Proof.
  unfold Set_. intros Hp. destruct (find_key _ _) as [i|] eqn:E; [|by apply add_ok].
  apply find_key_Some in E as (q & Hq & _). apply lookup_lt_Some in Hq.
  rewrite length_live in Hq by done. by apply update_slice_ok.
Qed.
End params.

#[export] Hint Resolve add_ok truncate_ok Set_ok : rice.

Section properties.
Context `{AppendGrowth}.

(** [Set] then [Get] is a map update: the value just set is read back and
    every other name reads as before, whatever was captured already. *)
Theorem Get_Set p name name' value (Hp : params_ok p) :
  Get (Set_ p name value) name' = if decide (name' = name) then value else Get p name'.
Proof.
  unfold Get, Set_. destruct (find_key name (live (slots p))) as [i|] eqn:E; cbn [slots].
  - pose proof E as (q & Hq & Hk & _)%find_key_Some.
    assert (i < used (slots p)) as Hi.
    { apply lookup_lt_Some in Hq. by rewrite length_live in Hq. }
    rewrite live_update by done. rewrite find_key_alter by exact name.
    case_decide as Hn; [subst name'|].
    + rewrite E, list_lookup_alter, decide_True, Hq by done. done.
    + destruct (find_key name' (live (slots p))) as [j|] eqn:E'; [|done].
      apply find_key_Some in E' as (q' & Hq' & Hk' & _).
      rewrite list_lookup_alter_ne; [done|]. intros ->. congruence.
  - cbn [add slots]. rewrite live_append by done. rewrite find_key_snoc by done.
    case_decide; [by rewrite lookup_app_r, Nat.sub_diag|].
    destruct (find_key name' (live (slots p))) as [j|] eqn:E'; [|done].
    apply find_key_Some in E' as (q' & Hq' & _). by erewrite lookup_app_l_Some, Hq'.
Qed.

(** [Reset] leaves nothing behind: whatever a request captured, every slot
    of the backing array is zero afterwards and the capacity is kept. *)
Theorem Reset_leaves_nothing p (Hp : params_ok p) :
  arr (slots (Reset p)) = replicate (Cap p) zero ∧ Len (Reset p) = 0 ∧ params_ok (Reset p).
Proof.
  split_and!; [by apply truncate_zero | done | apply truncate_slice_ok; [done | lia]].
Qed.
End properties.

(** Witnesses: two captures in a [Params] made for one, so [append] grows it. *)
Definition two_room : AppendGrowth := λ _, 2.
Definition sample_params : Params :=
  @add two_room (@add two_room (MakeParams 1) (bs "id") (bs "42")) (bs "repo") (bs "rice").

Lemma Get_Set_witness :
  Get (@Set_ two_room sample_params (bs "id") (bs "7")) (bs "repo") = bs "rice".
Proof.
  rewrite (@Get_Set two_room); [reflexivity|].
  apply add_ok, add_ok, MakeParams_ok.
Defined.

Lemma Reset_leaves_nothing_witness :
  arr (slots (Reset sample_params)) = replicate 4 zero ∧ Len (Reset sample_params) = 0 ∧
  params_ok (Reset sample_params).
Proof.
  apply (Reset_leaves_nothing sample_params). apply add_ok, add_ok, MakeParams_ok.
Defined.
