(* ===== verification/Tree.v ===== *)
(** * The radix tree

    [src/internal/router/tree.go], statement by statement. A [*node] that the
    code reaches from the root and writes through is modelled by rebuilding the
    path to it: [insertStatic] takes the rest of the insertion as a function on
    the node it returns, and puts the result back where the pointer was. The tree
    is never shared, so this is the same mutation. *)

From S2P Require Import Prelude Bytes Pattern Slice Params.

Section tree.
Context {H : Type} `{GoZero H} `{AppendGrowth}.

Inductive node : Type := Node {
  prefix : bytes;
  handler : H;
  hasHandler : bool;
  static : list node;
  param : option node;
  wildcard : option node;
  name : bytes;
}.

Record tree : Type := mkTree { root : option node; n_routes : nat }.

Definition len (t : tree) : nat := n_routes t.

(** [&node[H]{}], [&node[H]{prefix: text}] and [&node[H]{name: text}]. *)
Definition emptyNode : node := Node [] zero false [] None None [].
Definition leafNode (text : bytes) : node := Node text zero false [] None None [].
Definition namedNode (text : bytes) : node := Node [] zero false [] None None text.

(** Assignments to one field through a pointer. *)
Definition set_static (n : node) (l : list node) : node :=
  Node (prefix n) (handler n) (hasHandler n) l (param n) (wildcard n) (name n).
Definition set_param (n : node) (p : node) : node :=
  Node (prefix n) (handler n) (hasHandler n) (static n) (Some p) (wildcard n) (name n).
Definition set_wildcard (n : node) (w : node) : node :=
  Node (prefix n) (handler n) (hasHandler n) (static n) (param n) (Some w) (name n).
Definition set_handler (n : node) (h : H) : node :=
  Node (prefix n) h true (static n) (param n) (wildcard n) (name n).

(** The loop of [staticChild]: the first child whose prefix begins with [b] is
    passed to [k]; [d] is the answer when there is none. A child with an empty
    prefix, which would be an index out of range in Go, is excluded by the
    invariant [wf_node]. *)
Definition with_child {R} (b : ascii) (k : node → R) (d : R) : list node → R :=
  fix scan l :=
    match l with
    | [] => d
    | c :: l' => if decide (head (prefix c) = Some b) then k c else scan l'
    end.

Definition staticChild (n : node) (b : ascii) : option node :=
  with_child b Some None (static n).

Fixpoint commonPrefixLen (a b : bytes) : nat :=
  match a, b with
  | x :: a', y :: b' => if decide (x = y) then S (commonPrefixLen a' b') else 0
  | _, _ => 0
  end.

(** The split of [insertStatic]: the child keeps the shared head of its prefix
    and a new node takes the tail with everything hanging off it. *)
Definition split_node (child : node) (cp : nat) : node :=
  let tail := Node (drop cp (prefix child)) (handler child) (hasHandler child)
                   (static child) (param child) (wildcard child) [] in
  Node (take cp (prefix child)) zero false [tail] None None (name child).

(** Rewriting the child [staticChild] finds, in place. *)
Fixpoint alter_child {R} (b : ascii) (f : node → node * R) (l : list node)
    : option (list node * R) :=
  match l with
  | [] => None
  | c :: l' =>
    if decide (head (prefix c) = Some b) then
      let '(c', r) := f c in Some (c' :: l', r)
    else
      match alter_child b f l' with
      | Some (l'', r) => Some (c :: l'', r)
      | None => None
      end
  end.

(** [insertStatic], followed by [k] on the node it returns. Each iteration
    consumes at least one byte of [text], the byte it selected the child with,
    so [length text] iterations are enough: see [insertStatic_fuel]. *)
Fixpoint insertStatic_loop {R} (fuel : nat) (cur : node) (text : bytes)
    (k : node → node * R) : node * R :=
  match fuel, text with
  | S fuel', b :: _ =>
    match alter_child b (λ child,
            let cp := commonPrefixLen (prefix child) text in
            let child := if decide (cp < length (prefix child))
                         then split_node child cp else child in
            insertStatic_loop fuel' child (drop cp text) k) (static cur) with
    | Some (l, r) => (set_static cur l, r)
    | None =>
      let '(leaf, r) := k (leafNode text) in
      (set_static cur (static cur ++ [leaf]), r)
    end
  | _, _ => k cur
  end.

Definition insertStatic {R} (cur : node) (text : bytes) (k : node → node * R) : node * R :=
  insertStatic_loop (length text) cur text k.

(** The loop of [insert] over the segments, from the cursor [cur]. *)
Fixpoint insert_segs (pattern : bytes) (segs : list segment) (h : H) (cur : node)
    : node * option route_error :=
  match segs with
  | [] => if hasHandler cur then (cur, Some ErrDuplicate) else (set_handler cur h, None)
  | Segment segStatic text :: rest => insertStatic cur text (insert_segs pattern rest h)
  | Segment segParam text :: rest =>
    match param cur with
    | None =>
      let '(p, e) := insert_segs pattern rest h (namedNode text) in (set_param cur p, e)
    | Some p =>
      if decide (name p ≠ text) then (cur, Some (ErrParamConflict pattern text (name p)))
      else let '(p', e) := insert_segs pattern rest h p in (set_param cur p', e)
    end
  | Segment segWildcard text :: rest =>
    match wildcard cur with
    | None =>
      let '(w, e) := insert_segs pattern rest h (namedNode text) in (set_wildcard cur w, e)
    | Some w =>
      if decide (name w ≠ text) then (cur, Some (ErrWildcardConflict pattern text (name w)))
      else let '(w', e) := insert_segs pattern rest h w in (set_wildcard cur w', e)
    end
  end.

Definition insert (t : tree) (pattern : bytes) (segs : list segment) (h : H)
    : tree * option route_error :=
  let root := default emptyNode (root t) in
  let '(root', e) := insert_segs pattern segs h root in
  (mkTree (Some root') (match e with None => S (n_routes t) | Some _ => n_routes t end), e).

(** What [lookup] does at a child once its part of the path is consumed. *)
Definition arrive (recur : bytes → Params → option H * Params) (c : node)
    (rest : bytes) (params : Params) : option H * Params :=
  match rest with
  | [] => (if hasHandler c then Some (handler c) else None, params)
  | _ :: _ => recur rest params
  end.

(** The three attempts of [lookup], in order, each falling through to the next
    when it fails. *)
Fixpoint lookup_node (n : node) (path : bytes) (params : Params) : option H * Params :=
  match path with
  | [] => (None, params)
  | b :: _ =>
    match
      with_child b (λ child,
        if decide (take (length (prefix child)) path = prefix child) then
          arrive (lookup_node child) child (drop (length (prefix child)) path) params
        else (None, params)) (None, params) (static n)
    with
    | (Some h, params) => (Some h, params)
    | (None, params) =>
      match
        match param n with
        | Some p =>
          let i := run_length not_slash path in
          if decide (0 < i) then
            let saved := Len params in
            match arrive (lookup_node p) p (drop i path) (add params (name p) (take i path)) with
            | (Some h, params) => (Some h, params)
            | (None, params) => (None, truncate params saved)
            end
          else (None, params)
        | None => (None, params)
        end
      with
      | (Some h, params) => (Some h, params)
      | (None, params) =>
        match wildcard n with
        | Some w =>
          let saved := Len params in
          let params := add params (name w) path in
          if hasHandler w then (Some (handler w), params)
          else (None, truncate params saved)
        | None => (None, params)
        end
      end
    end
  end.

Definition lookup (t : tree) (path : bytes) (params : Params) : option H * Params :=
  match root t with
  | None => (None, params)
  | Some r => lookup_node r path params
  end.
End tree.

Arguments node H : clear implicits.
Arguments tree H : clear implicits.
