(* ===== verification/TreeSpec.v ===== *)
(** * What the radix tree stores

    The contract of [Tree.insert]: the tree is a map from token sequences (one
    token per literal byte, one per parameter, one per wildcard) to handlers, an
    accepted insertion adds exactly one entry, and a rejected one changes
    nothing. *)

From S2P Require Import Prelude Bytes Pattern Slice Params Tree.

(** ** Tokens *)

Inductive tok : Type :=
| TLit (b : ascii)
| TPar (name : bytes)
| TWild (name : bytes).

#[export] Instance tok_eq_dec : EqDecision tok.
Proof. solve_decision. Defined.

Definition lits (t : bytes) : list tok := map TLit t.

Definition seg_toks (s : segment) : list tok :=
  match seg_kind s with
  | segStatic => lits (seg_text s)
  | segParam => [TPar (seg_text s)]
  | segWildcard => [TWild (seg_text s)]
  end.

Definition toks (segs : list segment) : list tok := concat (map seg_toks segs).

(** Removing a literal prefix from a token sequence. *)
Fixpoint strip (p : bytes) (ts : list tok) : option (list tok) :=
  match p, ts with
  | [], _ => Some ts
  | b :: p', TLit c :: ts' => if decide (b = c) then strip p' ts' else None
  | _, _ => None
  end.

Section spec.
Context {H : Type} `{GoZero H} `{AppendGrowth}.
Implicit Types (n m c p w : node H) (ts us : list tok) (h : H).

(** The handler registered below [n] at a token sequence. *)
Fixpoint get (n : node H) (ts : list tok) : option H :=
  match ts with
  | [] => if hasHandler n then Some (handler n) else None
  | TLit b :: _ =>
    with_child b (λ c, match strip (prefix c) ts with
                       | Some ts' => get c ts'
                       | None => None
                       end) None (static n)
  | TPar x :: ts' =>
    match param n with
    | Some p => if decide (name p = x) then get p ts' else None
    | None => None
    end
  | TWild x :: ts' =>
    match wildcard n with
    | Some w => if decide (name w = x) then get w ts' else None
    | None => None
    end
  end.

(** The map [get] with one more entry. *)
Definition upd (g : list tok → option H) us h ts : option H :=
  if decide (ts = us) then Some h else g ts.

Definition alive n : Prop := ∃ ts h, get n ts = Some h.

(** The invariant of [insertStatic]: static children have non-empty prefixes
    with distinct first bytes, and no branch is without a route below it. *)
Inductive wf_node : node H → Prop :=
| wf_node_intro n :
  Forall wf_node (static n) →
  NoDup ((λ c, head (prefix c)) <$> static n) →
  Forall (λ c, prefix c ≠ [] ∧ alive c) (static n) →
  (∀ p, param n = Some p → wf_node p ∧ alive p) →
  (∀ w, wildcard n = Some w → wf_node w ∧ alive w) →
  wf_node n.

(** The pattern being inserted, which an error quotes. *)
Context (pattern : bytes).

(** Why an insertion of [us] below [n] is refused. *)
Definition refused n us (e : route_error) : Prop :=
  match e with
  | ErrDuplicate => ∃ h, get n us = Some h
  | ErrParamConflict p x reg =>
    p = pattern ∧ reg ≠ x ∧ ∃ us1 us2 ts h, us = us1 ++ TPar x :: us2 ∧ get n (us1 ++ TPar reg :: ts) = Some h
  | ErrWildcardConflict p x reg =>
    p = pattern ∧ reg ≠ x ∧ ∃ us1 us2 ts h, us = us1 ++ TWild x :: us2 ∧ get n (us1 ++ TWild reg :: ts) = Some h
  | _ => False
  end.

(** The contract of a piece of the insertion working on the node [n]: it adds
    the entry [us], or refuses and leaves every entry as it was. *)
Definition inserted us h n (r : node H * option route_error) : Prop :=
  let '(n', e) := r in
  prefix n' = prefix n ∧ name n' = name n ∧ wf_node n' ∧
  match e with
  | None => get n us = None ∧ ∀ ts, get n' ts = upd (get n) us h ts
  | Some e => refused n us e ∧ ∀ ts, get n' ts = get n ts
  end.

(** ** Children *)

Lemma with_child_spec {R} b (k : node H → R) d l :
  with_child b k d l = match with_child b Some None l with Some c => k c | None => d end.
Proof. induction l as [|c l IH]; cbn; [done|]. by case_decide. Qed.

Lemma with_child_Some b l c :
  with_child b Some None l = Some c → c ∈ l ∧ head (prefix c) = Some b.
Proof.
  induction l as [|d l IH]; cbn; [done|]. case_decide; [intros [= ->]; set_solver|].
  intros ?%IH. set_solver.
Qed.

Lemma with_child_None b l :
  with_child b Some None l = None → ∀ c, c ∈ l → head (prefix c) ≠ Some b.
Proof.
  induction l as [|d l IH]; cbn; [set_solver|]. case_decide; [done|]. set_solver.
Qed.

Lemma with_child_elem b l c :
  NoDup ((λ c, head (prefix c)) <$> l) → c ∈ l → head (prefix c) = Some b →
  with_child b Some None l = Some c.
Proof.
  induction l as [|d l IH]; cbn; [set_solver|].
  intros [Hd Hl]%NoDup_cons [->|Hc]%elem_of_cons Hb; [by rewrite decide_True|].
  rewrite decide_False; [by apply IH|]. intros Hdb. apply Hd.
  apply list_elem_of_fmap. exists c. by rewrite Hdb, Hb.
Qed.

Lemma alter_child_Some {R} b (f : node H → node H * R) l l' r :
  alter_child b f l = Some (l', r) →
  ∃ l1 c l2, l = l1 ++ c :: l2 ∧ head (prefix c) = Some b ∧
    l' = l1 ++ (f c).1 :: l2 ∧ r = (f c).2 ∧ Forall (λ d, head (prefix d) ≠ Some b) l1.
Proof.
  revert l'. induction l as [|c l IH]; intros l'; cbn; [done|]. case_decide as Hc.
  - destruct (f c) as [c' r'] eqn:E. intros [= <- <-]. exists [], c, l. by rewrite E.
  - destruct (alter_child b f l) as [[l'' r']|]; [|done]. intros [= <- <-].
    destruct (IH _ eq_refl) as (l1 & d & l2 & -> & ? & -> & ? & ?).
    exists (c :: l1), d, l2. split_and!; try done. by constructor.
Qed.

Lemma alter_child_None {R} b (f : node H → node H * R) l :
  alter_child b f l = None → Forall (λ d, head (prefix d) ≠ Some b) l.
Proof.
  induction l as [|c l IH]; cbn; [done|]. case_decide; [by destruct (f c)|].
  destruct (alter_child b f l) as [[]|]; [done|]. constructor; auto.
Qed.

Lemma with_child_skip {R} b (k : node H → R) d l1 l2 :
  Forall (λ c, head (prefix c) ≠ Some b) l1 →
  with_child b k d (l1 ++ l2) = with_child b k d l2.
Proof. induction 1; cbn; [done|]. by rewrite decide_False. Qed.

(** Replacing a child by one with the same first byte is invisible to a search
    for another byte. *)
Lemma with_child_replace {R} b b' (k : node H → R) d l1 c c' l2 :
  head (prefix c) = Some b → head (prefix c') = Some b → b' ≠ b →
  with_child b' k d (l1 ++ c' :: l2) = with_child b' k d (l1 ++ c :: l2).
Proof.
  intros Hc Hc' Hb. induction l1 as [|e l1 IH]; cbn.
  - rewrite Hc, Hc'. rewrite !decide_False by congruence. done.
  - case_decide; done.
Qed.

(** ** Tokens and prefixes *)

Lemma strip_Some q ts ts' : strip q ts = Some ts' ↔ ts = lits q ++ ts'.
Proof.
  revert ts. induction q as [|b q IH]; intros ts; cbn; [naive_solver|].
  destruct ts as [|[c|x|x] ts]; cbn; [naive_solver..| |naive_solver|naive_solver].
  case_decide; [subst; rewrite IH|]; naive_solver.
Qed.

Lemma strip_lits q ts : strip q (lits q ++ ts) = Some ts.
Proof. by apply strip_Some. Qed.

Lemma lits_app s t : lits (s ++ t) = lits s ++ lits t.
Proof. apply map_app. Qed.

Lemma strip_app q q' ts : strip (q ++ q') ts = strip q ts ≫= strip q'.
Proof.
  revert ts. induction q as [|b q IH]; intros ts; cbn; [done|].
  destruct ts as [|[c|x|x] ts]; cbn; try done. case_decide; [apply IH | done].
Qed.

Lemma toks_cons s segs : toks (s :: segs) = seg_toks s ++ toks segs.
Proof. done. Qed.

Lemma commonPrefixLen_take q t : take (commonPrefixLen q t) q = take (commonPrefixLen q t) t.
Proof.
  revert t. induction q as [|x q IH]; intros [|y t]; cbn; try done.
  case_decide; cbn; [by subst; rewrite IH | done].
Qed.

Lemma commonPrefixLen_le q t : commonPrefixLen q t <= length q ∧ commonPrefixLen q t <= length t.
Proof.
  revert t. induction q as [|x q IH]; intros [|y t]; cbn; try lia.
  case_decide; cbn; [specialize (IH t); lia | lia].
Qed.

Lemma commonPrefixLen_pos q t b :
  head q = Some b → head t = Some b → 0 < commonPrefixLen q t.
Proof. destruct q, t; cbn; try done. intros [= ->] [= ->]. rewrite decide_True by done. lia. Qed.

(** The entries of a child, seen from its parent. *)
Definition get_child c ts : option H :=
  match strip (prefix c) ts with Some ts' => get c ts' | None => None end.

Lemma get_lit n b ts :
  get n (TLit b :: ts) =
  match staticChild n b with Some c => get_child c (TLit b :: ts) | None => None end.
Proof. destruct n. exact (with_child_spec b _ None _). Qed.

Lemma get_child_alive c : prefix c ≠ [] → alive c →
  ∃ b ts h, head (prefix c) = Some b ∧ get_child c (TLit b :: ts) = Some h.
Proof.
  intros Hp (ts & h & Hg). destruct (prefix c) as [|b q] eqn:E; [done|].
  exists b, (lits q ++ ts), h. split; [done|].
  unfold get_child. rewrite E. change (TLit b :: lits q ++ ts) with (lits (b :: q) ++ ts).
  by rewrite strip_lits.
Qed.

(** Splitting a child changes nothing its parent can see. *)
Lemma get_split c cp ts :
  0 < cp → cp < length (prefix c) →
  get_child (split_node c cp) ts = get_child c ts.
Proof.
  intros Hpos Hlt. unfold get_child. cbn [split_node prefix].
  rewrite <-(take_drop cp (prefix c)) at 2. rewrite strip_app.
  destruct (strip (take cp (prefix c)) ts) as [ts'|]; cbn [mbind option_bind]; [|done].
  destruct (drop cp (prefix c)) as [|d q] eqn:E.
  { apply (f_equal length) in E. rewrite length_drop in E. cbn in E. lia. }
  destruct ts' as [|[b|x|x] ts']; [done| |done|done].
  rewrite get_lit. unfold staticChild. cbn [split_node static with_child]. rewrite E. cbn [head].
  case_decide as Hb; [|cbn; rewrite decide_False by naive_solver; done].
  injection Hb as ->. unfold get_child. cbn [prefix].
  destruct (strip (b :: q) (TLit b :: ts')) as [us|]; [|done].
  destruct c, us as [|[e|x|x] us]; reflexivity.
Qed.

(** ** Rebuilding a node around one child *)

Lemma wf_node_inv n :
  wf_node n →
  Forall wf_node (static n) ∧ NoDup ((λ c, head (prefix c)) <$> static n) ∧
  Forall (λ c, prefix c ≠ [] ∧ alive c) (static n) ∧
  (∀ p, param n = Some p → wf_node p ∧ alive p) ∧
  (∀ w, wildcard n = Some w → wf_node w ∧ alive w).
Proof. by intros []. Qed.

Lemma wf_static_elem n c : wf_node n → c ∈ static n → wf_node c ∧ prefix c ≠ [] ∧ alive c.
Proof.
  intros (Hs & _ & Hp & _)%wf_node_inv Hc.
  rewrite Forall_forall in Hs. rewrite Forall_forall in Hp. naive_solver.
Qed.

Lemma set_static_wf n l :
  wf_node n → Forall wf_node l → NoDup ((λ c, head (prefix c)) <$> l) →
  Forall (λ c, prefix c ≠ [] ∧ alive c) l → wf_node (set_static n l).
Proof. intros (_ & _ & _ & ? & ?)%wf_node_inv. intros. by constructor. Qed.

Lemma get_set_static n l ts :
  get (set_static n l) ts =
  match ts with
  | TLit b :: _ =>
    match with_child b Some None l with Some c => get_child c ts | None => None end
  | _ => get n ts
  end.
Proof.
  destruct n, ts as [|[b|x|x] ts]; try reflexivity. by rewrite get_lit.
Qed.

(** Replacing the child selected by the first byte of [us]. *)
Lemma get_replace_child n l1 c c' l2 b us h :
  static n = l1 ++ c :: l2 → Forall (λ d, head (prefix d) ≠ Some b) l1 →
  head (prefix c) = Some b → head (prefix c') = Some b →
  (∀ ts, get_child c' ts = upd (get_child c) (TLit b :: us) h ts) →
  ∀ ts, get (set_static n (l1 ++ c' :: l2)) ts = upd (get n) (TLit b :: us) h ts.
Proof.
  intros Hn Hl1 Hb Hb' Hc ts. rewrite get_set_static. unfold upd.
  destruct ts as [|[d|x|x] ts]; try (by rewrite decide_False).
  rewrite get_lit. unfold staticChild. rewrite Hn. destruct (decide (d = b)) as [->|Hd].
  - rewrite !with_child_skip by done. cbn.
    rewrite (decide_True _ _ Hb), (decide_True _ _ Hb'). apply Hc.
  - rewrite (with_child_replace b d Some None l1 c c' l2) by done.
    rewrite decide_False by congruence. done.
Qed.

Lemma get_replace_child_same n l1 c c' l2 b :
  static n = l1 ++ c :: l2 → Forall (λ d, head (prefix d) ≠ Some b) l1 →
  head (prefix c) = Some b → head (prefix c') = Some b →
  (∀ ts, get_child c' ts = get_child c ts) →
  ∀ ts, get (set_static n (l1 ++ c' :: l2)) ts = get n ts.
Proof.
  intros Hn Hl1 Hb Hb' Hc ts. rewrite get_set_static.
  destruct ts as [|[d|x|x] ts]; try done.
  rewrite get_lit. unfold staticChild. rewrite Hn. destruct (decide (d = b)) as [->|Hd].
  - rewrite !with_child_skip by done. cbn.
    rewrite (decide_True _ _ Hb), (decide_True _ _ Hb'). apply Hc.
  - by rewrite (with_child_replace b d Some None l1 c c' l2).
Qed.

Lemma replace_child_wf n l1 c c' l2 :
  wf_node n → static n = l1 ++ c :: l2 → head (prefix c') = head (prefix c) →
  wf_node c' → alive c' → wf_node (set_static n (l1 ++ c' :: l2)).
Proof.
  intros Hwf Hn Hh Hc' Ha. pose proof (wf_node_inv _ Hwf) as (Hs & Hnd & Hp & _).
  rewrite Hn in Hs, Hnd, Hp.
  rewrite Forall_app, Forall_cons in Hs. rewrite Forall_app, Forall_cons in Hp.
  rewrite fmap_app, fmap_cons in Hnd.
  apply set_static_wf; [done| | |].
  - rewrite Forall_app, Forall_cons. naive_solver.
  - rewrite fmap_app, fmap_cons, Hh. done.
  - rewrite Forall_app, Forall_cons. split_and!; try naive_solver.
    destruct Hp as (_ & [Hpc _] & _). by destruct (prefix c), (prefix c').
Qed.

Lemma alive_upd n us h (g : list tok → option H) : (∀ ts, get n ts = upd g us h ts) → alive n.
Proof. intros Hg. exists us, h. rewrite Hg. unfold upd. by rewrite decide_True. Qed.

Lemma alive_same n m : (∀ ts, get n ts = get m ts) → alive m → alive n.
Proof. intros Hg (ts & h & Hm). exists ts, h. by rewrite Hg. Qed.

(** ** One insertion *)

Lemma strip_upd q (g : list tok → option H) us h ts :
  match strip q ts with Some ts' => upd g us h ts' | None => None end =
  upd (λ ts, match strip q ts with Some ts' => g ts' | None => None end) (lits q ++ us) h ts.
Proof.
  unfold upd. destruct (strip q ts) as [ts'|] eqn:E.
  - apply strip_Some in E as ->. destruct (decide (ts' = us)) as [->|Hne].
    + by rewrite decide_True.
    + rewrite decide_False; [done|]. by intros ?%(inj (app _)).
  - rewrite decide_False; [done|]. intros ->. by rewrite strip_lits in E.
Qed.

Lemma get_child_upd c c' us h :
  prefix c' = prefix c → (∀ ts, get c' ts = upd (get c) us h ts) →
  ∀ ts, get_child c' ts = upd (get_child c) (lits (prefix c) ++ us) h ts.
Proof.
  intros Hp Hg ts. unfold get_child at 1. rewrite Hp.
  unfold get_child. rewrite <-strip_upd. destruct (strip _ _); [apply Hg | done].
Qed.

Lemma get_child_same c c' :
  prefix c' = prefix c → (∀ ts, get c' ts = get c ts) →
  ∀ ts, get_child c' ts = get_child c ts.
Proof. intros Hp Hg ts. unfold get_child. rewrite Hp. by destruct (strip _ _). Qed.

(** A refusal below [m] is a refusal at [n] when [m] sits at [q] below [n]. *)
Lemma refused_lift n m q us e :
  (∀ ts, get n (q ++ ts) = get m ts) → refused m us e → refused n (q ++ us) e.
Proof.
  intros Hg. destruct e; cbn; try done.
  - intros [h Hh]. exists h. by rewrite Hg.
  - intros (? & ? & us1 & us2 & ts & h & -> & Hh). split; [done|]. split; [done|].
    exists (q ++ us1), us2, ts, h. rewrite <-!app_assoc, Hg. done.
  - intros (? & ? & us1 & us2 & ts & h & -> & Hh). split; [done|]. split; [done|].
    exists (q ++ us1), us2, ts, h. rewrite <-!app_assoc, Hg. done.
Qed.

Lemma refused_empty n us e : (∀ ts, get n ts = None) → ¬ refused n us e.
Proof. intros Hg. destruct e; cbn; try tauto; naive_solver congruence. Qed.

Lemma fresh_wf n :
  static n = [] → param n = None → wildcard n = None → wf_node n.
Proof.
  intros Hs Hp Hw. constructor; rewrite ?Hs, ?Hp, ?Hw; [constructor..|done|done].
Qed.

Lemma get_leafNode text ts : get (leafNode (H := H) text) ts = None.
Proof. by destruct ts as [|[]]. Qed.

Lemma get_namedNode text ts : get (namedNode (H := H) text) ts = None.
Proof. by destruct ts as [|[]]. Qed.

(** A fresh node cannot refuse: the rest of the insertion only creates. *)
Lemma inserted_fresh us h n r :
  (∀ ts, get n ts = None) → inserted us h n r →
  r.2 = None ∧ prefix r.1 = prefix n ∧ name r.1 = name n ∧ wf_node r.1 ∧
  ∀ ts, get r.1 ts = upd (get n) us h ts.
Proof.
  intros Hn. destruct r as [n' [e|]]; cbn; intros (? & ? & ? & Hr).
  - by destruct (refused_empty n us e Hn), Hr.
  - naive_solver.
Qed.

Lemma split_wf c cp :
  wf_node c → alive c → 0 < cp → cp < length (prefix c) →
  wf_node (split_node c cp) ∧ alive (split_node c cp).
Proof.
  intros Hwf Ha Hpos Hlt.
  assert (prefix c ≠ []) as Hne by (by destruct (prefix c); [cbn in Hlt; lia|]).
  pose proof (get_child_alive c Hne Ha) as (b & ts & h & _ & Hg).
  assert (alive (split_node c cp)) as Has.
  { rewrite <-(get_split c cp) in Hg by done. unfold get_child in Hg.
    destruct (strip _ _) as [ts'|]; [|done]. by exists ts', h. }
  split; [|done]. apply wf_node_inv in Hwf as (Hs & Hnd & Hp & Hpa & Hw).
  constructor; cbn; [|apply NoDup_singleton| |done|done].
  - constructor; [by constructor | constructor].
  - constructor; [|constructor]. cbn. split.
    + intros E. apply (f_equal length) in E. rewrite length_drop in E. cbn in E. lia.
    + destruct Ha as (us & h' & Hh). exists us, h'. rewrite <-Hh.
      destruct c, us as [|[]]; reflexivity.
Qed.

(** The node [insertStatic] moves to: the child, split if it shares only part
    of its prefix with the text. *)
Lemma shared_head c b text :
  wf_node c → alive c → head (prefix c) = Some b →
  let cp := commonPrefixLen (prefix c) (b :: text) in
  let c0 := if decide (cp < length (prefix c)) then split_node c cp else c in
  0 < cp ∧ cp <= S (length text) ∧ wf_node c0 ∧ alive c0 ∧ prefix c0 = take cp (b :: text) ∧
  ∀ ts, get_child c0 ts = get_child c ts.
Proof.
  intros Hwc Hac Hb cp c0.
  assert (0 < cp) as Hpos by (by eapply commonPrefixLen_pos).
  pose proof (commonPrefixLen_le (prefix c) (b :: text)) as [Hle1 Hle2]. fold cp in Hle1, Hle2.
  pose proof (commonPrefixLen_take (prefix c) (b :: text)) as Htk. fold cp in Htk.
  split; [done|]. split; [done|]. unfold c0. case_decide.
  - destruct (split_wf c cp) as [? ?]; [done..|]. split_and!; try done.
    intros. by apply get_split.
  - split_and!; try done. by rewrite <-Htk, firstn_all2 by lia.
Qed.

(** The entries below the child at its own prefix, seen from the parent. *)
Lemma get_at_child n l1 c c0 l2 b ts :
  static n = l1 ++ c :: l2 → Forall (λ d, head (prefix d) ≠ Some b) l1 →
  head (prefix c) = Some b → head (prefix c0) = Some b →
  (∀ ts, get_child c0 ts = get_child c ts) →
  get n (lits (prefix c0) ++ ts) = get c0 ts.
Proof.
  intros Hs Hl1 Hb Hb0 Hg. destruct (prefix c0) as [|d q] eqn:E; [done|].
  injection Hb0 as ->. cbn [lits map app]. rewrite get_lit. unfold staticChild.
  rewrite Hs, with_child_skip by done. cbn. rewrite (decide_True _ _ Hb), <-Hg.
  unfold get_child. rewrite E. change (TLit b :: map TLit q ++ ts) with (lits (b :: q) ++ ts).
  by rewrite strip_lits.
Qed.

(** The new leaf of [insertStatic]. *)
Lemma inserted_leaf n b text us h (k : node H → node H * option route_error) :
  wf_node n → Forall (λ d, head (prefix d) ≠ Some b) (static n) →
  (∀ m, wf_node m → inserted us h m (k m)) →
  inserted (lits (b :: text) ++ us) h n
    (let '(leaf, r) := k (leafNode (b :: text)) in (set_static n (static n ++ [leaf]), r)).
Proof.
  intros Hwf Hb Hk.
  pose proof (Hk (leafNode (b :: text)) (fresh_wf (leafNode (b :: text)) eq_refl eq_refl eq_refl)) as Hleaf.
  apply inserted_fresh in Hleaf as (He & Hp & _ & Hwl & Hg); [|apply get_leafNode].
  destruct (k (leafNode (b :: text))) as [leaf e]. cbn in He, Hp, Hwl, Hg. subst e.
  pose proof (wf_node_inv _ Hwf) as (Hs & Hnd & Hpr & _).
  assert (∀ ts, get n (TLit b :: ts) = None) as Hnone.
  { intros ts. rewrite get_lit. unfold staticChild.
    rewrite <-(app_nil_r (static n)), with_child_skip by done. done. }
  split; [reflexivity|]. split; [reflexivity|]. split; [|split; [apply Hnone|]].
  - apply set_static_wf; [done|rewrite Forall_app; eauto| |].
    + rewrite fmap_app. apply NoDup_app. split_and!; [done| |apply NoDup_singleton].
      intros x (d & -> & Hd)%list_elem_of_fmap Hx%list_elem_of_singleton.
      rewrite Hp in Hx. rewrite Forall_forall in Hb. by apply (Hb d).
    + rewrite Forall_app, Forall_singleton, Hp. split_and!; [done|done|].
      by eapply alive_upd.
  - intros ts. rewrite get_set_static. unfold upd at 1.
    destruct ts as [|[d|x|x] ts]; try (by rewrite decide_False).
    destruct (decide (d = b)) as [->|Hd].
    + rewrite with_child_skip by done. cbn. rewrite Hp. cbn. rewrite decide_True by done.
      rewrite Hnone. unfold get_child. rewrite Hp.
      change (TLit b :: lits text ++ us) with (lits (b :: text) ++ us).
      transitivity (match strip (b :: text) (TLit b :: ts) with
                    | Some ts' => upd (get (leafNode (b :: text))) us h ts' | None => None end).
      { destruct (strip _ _); [apply Hg | done]. }
      rewrite strip_upd. unfold upd. change (lits (b :: text) ++ us) with (TLit b :: map TLit text ++ us). case_decide; [done|].
      destruct (strip _ _); [apply get_leafNode | done].
    + rewrite decide_False by (cbn; congruence). rewrite get_lit. unfold staticChild.
      clear -Hp Hd. induction (static n) as [|c l IH]; cbn; [|by case_decide].
      rewrite Hp, decide_False; [done|]. cbn. congruence.
Qed.

Lemma insertStatic_loop_inserted us h (k : node H → node H * option route_error) :
  (∀ m, wf_node m → inserted us h m (k m)) →
  ∀ fuel cur text, length text <= fuel → wf_node cur →
  inserted (lits text ++ us) h cur (insertStatic_loop fuel cur text k).
Proof.
  intros Hk. induction fuel as [|fuel IH]; intros cur [|b text] Hf Hwf;
    [by apply Hk|cbn in Hf; lia|by apply Hk|].
  cbn -[inserted lits]. destruct (alter_child _ _ _) as [[l e]|] eqn:Ha.
  2:{ apply alter_child_None in Ha. by apply inserted_leaf. }
  apply alter_child_Some in Ha as (l1 & c & l2 & Hs & Hb & -> & -> & Hl1).
  destruct (wf_static_elem cur c Hwf) as (Hwc & Hpc & Hac); [rewrite Hs; set_solver|].
  cbv zeta. set (cp := commonPrefixLen (prefix c) (b :: text)).
  set (c0 := if decide (cp < length (prefix c)) then split_node c cp else c).
  destruct (shared_head c b text Hwc Hac Hb) as (Hpos & Hle & Hw0 & Ha0 & Hp0 & Hg0).
  fold cp c0 in Hpos, Hle, Hw0, Ha0, Hp0, Hg0.
  specialize (IH c0 (drop cp (b :: text))). rewrite length_drop in IH.
  specialize (IH ltac:(cbn in Hf |- *; lia) Hw0).
  destruct (insertStatic_loop fuel c0 _ k) as [c' e]. destruct IH as (Hp' & _ & Hw' & IH).
  assert (head (prefix c0) = Some b) as Hb0 by (rewrite Hp0; by destruct cp; [lia|]).
  assert (head (prefix c') = Some b) as Hb' by (by rewrite Hp').
  assert (lits (b :: text) ++ us = lits (prefix c0) ++ lits (drop cp (b :: text)) ++ us) as Hus.
  { by rewrite app_assoc, <-lits_app, Hp0, take_drop. }
  cbn [fst snd]. split_and!; [done|done| |].
  { eapply replace_child_wf; [done..|by rewrite Hb, Hb'|done|].
    destruct e; [eapply alive_same; [apply IH|done] | eapply alive_upd; apply IH]. }
  destruct e as [e|].
  - destruct IH as [Hr IH]. split.
    + rewrite Hus. eapply refused_lift; [|done]. intros ts. by eapply get_at_child.
    + eapply get_replace_child_same; [done..|]. intros ts. rewrite <-Hg0.
      by apply get_child_same.
  - destruct IH as [Hn IH]. split.
    + rewrite Hus, <-Hn. by eapply get_at_child.
    + eapply (get_replace_child cur l1 c c' l2 b (lits text ++ us)); [done..|].
      intros ts. change (TLit b :: lits text ++ us) with (lits (b :: text) ++ us).
      rewrite Hus, (get_child_upd c0 c' _ h Hp' IH). unfold upd.
      case_decide; [done | apply Hg0].
Qed.

(** ** Parameters, wildcards and whole insertions *)

Lemma inserted_param n q p e x us h :
  wf_node n → name q = x →
  (param n = Some q ∨ (param n = None ∧ ∀ ts, get q ts = None)) →
  inserted us h q (p, e) → inserted (TPar x :: us) h n (set_param n p, e).
Proof.
  intros Hwf Hx Hq (Hp & Hname & Hwp & He).
  assert (∀ ts, get n (TPar x :: ts) = get q ts) as Hg.
  { intros ts. destruct n; cbn in *. destruct Hq as [->|[-> Hq]]; [|by rewrite Hq].
    by rewrite decide_True. }
  assert (∀ t ts, t ≠ TPar x → get (set_param n p) (t :: ts) = get n (t :: ts)) as Ho.
  { intros [b|y|y] ts Hy; destruct n; cbn in *; try done.
    rewrite decide_False by congruence.
    destruct Hq as [->|[-> _]]; [by rewrite decide_False by congruence | done]. }
  assert (∀ ts, get (set_param n p) (TPar x :: ts) = get p ts) as Hs.
  { intros ts. destruct n; cbn. by rewrite decide_True by congruence. }
  destruct (wf_node_inv _ Hwf) as (H2 & H3 & H4 & H5 & H6).
  split; [done|]. split; [done|]. split.
  - constructor; [done..| |done]. cbn. intros ? [= <-]. split; [done|]. destruct e.
    + eapply alive_same; [apply He|]. destruct Hq as [Hq|[_ Hq]]; [naive_solver|].
      destruct He as [He _]. by apply refused_empty in He.
    + eapply alive_upd, He.
  - destruct e as [e|]; destruct He as [Hr He].
    + split; [by apply (refused_lift n q [TPar x])|]. intros [|t ts]; [by destruct n|].
      destruct (decide (t = TPar x)) as [->|]; [by rewrite Hs, He, Hg | by apply Ho].
    + split; [by rewrite Hg|]. intros [|t ts]; [by destruct n|]. unfold upd.
      destruct (decide (t = TPar x)) as [->|].
      * rewrite Hs, He, Hg. unfold upd. repeat case_decide; naive_solver.
      * rewrite decide_False by congruence. by apply Ho.
Qed.

Lemma inserted_wildcard n q w e x us h :
  wf_node n → name q = x →
  (wildcard n = Some q ∨ (wildcard n = None ∧ ∀ ts, get q ts = None)) →
  inserted us h q (w, e) → inserted (TWild x :: us) h n (set_wildcard n w, e).
Proof.
  intros Hwf Hx Hq (Hp & Hname & Hwp & He).
  assert (∀ ts, get n (TWild x :: ts) = get q ts) as Hg.
  { intros ts. destruct n; cbn in *. destruct Hq as [->|[-> Hq]]; [|by rewrite Hq].
    by rewrite decide_True. }
  assert (∀ t ts, t ≠ TWild x → get (set_wildcard n w) (t :: ts) = get n (t :: ts)) as Ho.
  { intros [b|y|y] ts Hy; destruct n; cbn in *; try done.
    rewrite decide_False by congruence.
    destruct Hq as [->|[-> _]]; [by rewrite decide_False by congruence | done]. }
  assert (∀ ts, get (set_wildcard n w) (TWild x :: ts) = get w ts) as Hs.
  { intros ts. destruct n; cbn. by rewrite decide_True by congruence. }
  destruct (wf_node_inv _ Hwf) as (H2 & H3 & H4 & H5 & H6).
  split; [done|]. split; [done|]. split.
  - constructor; [done..|]. cbn. intros ? [= <-]. split; [done|]. destruct e.
    + eapply alive_same; [apply He|]. destruct Hq as [Hq|[_ Hq]]; [naive_solver|].
      destruct He as [He _]. by apply refused_empty in He.
    + eapply alive_upd, He.
  - destruct e as [e|]; destruct He as [Hr He].
    + split; [by apply (refused_lift n q [TWild x])|]. intros [|t ts]; [by destruct n|].
      destruct (decide (t = TWild x)) as [->|]; [by rewrite Hs, He, Hg | by apply Ho].
    + split; [by rewrite Hg|]. intros [|t ts]; [by destruct n|]. unfold upd.
      destruct (decide (t = TWild x)) as [->|].
      * rewrite Hs, He, Hg. unfold upd. repeat case_decide; naive_solver.
      * rewrite decide_False by congruence. by apply Ho.
Qed.

(** A registered route below a live child with another name refuses. *)
Lemma conflict_param n p x :
  wf_node n → param n = Some p → name p ≠ x →
  ∃ ts h, get n (TPar (name p) :: ts) = Some h.
Proof.
  intros (_ & _ & _ & Hp & _)%wf_node_inv Hn _.
  destruct (Hp _ Hn) as [_ (ts & h & Hh)]. exists ts, h.
  destruct n; cbn in *. subst. by rewrite decide_True.
Qed.

Lemma conflict_wildcard n w x :
  wf_node n → wildcard n = Some w → name w ≠ x →
  ∃ ts h, get n (TWild (name w) :: ts) = Some h.
Proof.
  intros (_ & _ & _ & _ & Hw)%wf_node_inv Hn _.
  destruct (Hw _ Hn) as [_ (ts & h & Hh)]. exists ts, h.
  destruct n; cbn in *. subst. by rewrite decide_True.
Qed.

Lemma insert_segs_inserted segs h : ∀ cur,
  wf_node cur → inserted (toks segs) h cur (insert_segs pattern segs h cur).
Proof.
  induction segs as [|[[] text] rest IH]; intros cur Hwf; cbn [insert_segs].
  - destruct (hasHandler cur) eqn:Eh.
    + split_and!; try done. exists (handler cur). destruct cur; cbn in *. by rewrite Eh.
    + split; [done|]. split; [done|]. split; [|split].
      * destruct (wf_node_inv _ Hwf) as (? & ? & ? & ? & ?). by constructor.
      * destruct cur; cbn in *. by rewrite Eh.
      * intros [|t ts]; unfold upd; [by rewrite decide_True | rewrite decide_False by done].
        destruct cur, t; reflexivity.
  - rewrite toks_cons. by apply insertStatic_loop_inserted.
  - destruct (param cur) as [p|] eqn:Ep.
    + case_decide as Hn.
      * destruct (conflict_param cur p text Hwf Ep Hn) as (ts & h' & Hg).
        split; [done|]. split; [done|]. split; [done|]. split; [|done].
        split; [done|]. split; [done|]. exists [], (toks rest), ts, h'. by rewrite toks_cons.
      * pose proof (wf_node_inv _ Hwf) as (_ & _ & _ & Hp & _).
        specialize (IH p (proj1 (Hp p Ep))). destruct (insert_segs _ _ _ p) as [p' e].
        eapply (inserted_param cur p); [done|done|by left|done].
    + specialize (IH (namedNode text) (fresh_wf (namedNode text) eq_refl eq_refl eq_refl)).
      destruct (insert_segs _ _ _ (namedNode text)) as [p' e].
      eapply (inserted_param cur (namedNode text)); [done|done|right; split; [done|]|done].
      apply get_namedNode.
  - destruct (wildcard cur) as [w|] eqn:Ew.
    + case_decide as Hn.
      * destruct (conflict_wildcard cur w text Hwf Ew Hn) as (ts & h' & Hg).
        split; [done|]. split; [done|]. split; [done|]. split; [|done].
        split; [done|]. split; [done|]. exists [], (toks rest), ts, h'. by rewrite toks_cons.
      * pose proof (wf_node_inv _ Hwf) as (_ & _ & _ & _ & Hw).
        specialize (IH w (proj1 (Hw w Ew))). destruct (insert_segs _ _ _ w) as [w' e].
        eapply (inserted_wildcard cur w); [done|done|by left|done].
    + specialize (IH (namedNode text) (fresh_wf (namedNode text) eq_refl eq_refl eq_refl)).
      destruct (insert_segs _ _ _ (namedNode text)) as [w' e].
      eapply (inserted_wildcard cur (namedNode text)); [done|done|right; split; [done|]|done].
      apply get_namedNode.
Qed.

(** ** Whole trees *)

Definition tree_get (t : tree H) ts : option H :=
  match root t with Some r => get r ts | None => None end.

Definition wf_tree (t : tree H) : Prop := ∀ r, root t = Some r → wf_node r.

(** [refused] for a tree. *)
Definition tree_refused (t : tree H) us e : Prop :=
  match root t with Some r => refused r us e | None => False end.

Lemma tree_get_root t ts : tree_get t ts = get (default emptyNode (root t)) ts.
Proof. unfold tree_get. destruct (root t); [done|]. by destruct ts as [|[]]. Qed.

Lemma wf_root t : wf_tree t → wf_node (default emptyNode (root t)).
Proof.
  unfold wf_tree. destruct (root t); cbn; [eauto|]. intros _. by apply fresh_wf.
Qed.

(** What [insert] does to a well-formed tree. *)
Lemma insert_spec t segs h :
  wf_tree t →
  let '(t', e) := insert t pattern segs h in
  wf_tree t' ∧
  match e with
  | None => tree_get t (toks segs) = None ∧ len t' = S (len t) ∧
            ∀ ts, tree_get t' ts = upd (tree_get t) (toks segs) h ts
  | Some e => tree_refused t (toks segs) e ∧ len t' = len t ∧
              ∀ ts, tree_get t' ts = tree_get t ts
  end.
Proof.
  intros Hwf. pose proof (insert_segs_inserted segs h _ (wf_root t Hwf)) as Hi.
  unfold insert. destruct (insert_segs _ _ _ _) as [r e]. destruct Hi as (_ & _ & Hr & Hi).
  split; [by intros ? [= <-]|]. destruct e as [e|]; destruct Hi as [Hc Hg].
  - split_and!; [|done|].
    + unfold tree_refused. destruct (root t); [done|]. destruct (refused_empty emptyNode (toks segs) e); [by intros [|[]]|done].
    + intros ts. rewrite (tree_get_root t). apply Hg.
  - split_and!; [by rewrite tree_get_root|done|].
    intros ts. unfold upd. rewrite (tree_get_root t). apply Hg.
Qed.

End spec.

Section markers.
Context {H : Type} `{GoZero H} `{AppendGrowth}.
Implicit Types (n m c p w : node H) (ts us : list tok) (h : H).

(** ** Fuel *)

Lemma alter_child_ext {R} b (f g : node H → node H * R) l :
  (∀ c, head (prefix c) = Some b → f c = g c) → alter_child b f l = alter_child b g l.
Proof.
  intros Hfg. induction l as [|c l IH]; cbn; [done|]. case_decide; [by rewrite Hfg|].
  by rewrite IH.
Qed.

Lemma insertStatic_loop_fuel {R} (k : node H → node H * R) fuel : ∀ fuel' cur text,
  length text <= fuel → length text <= fuel' →
  insertStatic_loop fuel cur text k = insertStatic_loop fuel' cur text k.
Proof.
  induction fuel as [|fuel IH]; intros fuel' cur text Hl1 Hl2.
  - destruct text; [by destruct fuel' | cbn in Hl1; lia].
  - destruct text as [|b text]; [by destruct fuel'|].
    destruct fuel' as [|fuel']; [cbn in Hl2; lia|]. cbn [insertStatic_loop].
    erewrite alter_child_ext; [reflexivity|]. intros c Hb. cbv zeta.
    pose proof (commonPrefixLen_pos (prefix c) (b :: text) b Hb eq_refl).
    apply IH; rewrite length_drop; cbn in *; lia.
Qed.

(** The loop of [insertStatic], without fuel. *)
Lemma insertStatic_unfold {R} (cur : node H) text (k : node H → node H * R) :
  insertStatic cur text k =
  match text with
  | [] => k cur
  | b :: _ =>
    match alter_child b (λ child,
            let cp := commonPrefixLen (prefix child) text in
            let child := if decide (cp < length (prefix child))
                         then split_node child cp else child in
            insertStatic child (drop cp text) k) (static cur) with
    | Some (l, r) => (set_static cur l, r)
    | None =>
      let '(leaf, r) := k (leafNode text) in
      (set_static cur (static cur ++ [leaf]), r)
    end
  end.
Proof.
  destruct text as [|b text]; [done|]. unfold insertStatic at 1. cbn [length insertStatic_loop].
  erewrite alter_child_ext; [reflexivity|]. intros c Hb. cbv zeta.
  pose proof (commonPrefixLen_pos (prefix c) (b :: text) b Hb eq_refl).
  apply insertStatic_loop_fuel; rewrite ?length_drop; cbn; lia.
Qed.

(** Two routes that share everything before a parameter, or a wildcard, name it
    alike. *)
Lemma strip_marker q us t ts r :
  (∀ b, t ≠ TLit b) → strip q (us ++ t :: ts) = Some r →
  ∃ us', us = lits q ++ us' ∧ r = us' ++ t :: ts.
Proof.
  intros Ht. revert us. induction q as [|b q IH]; intros us; cbn; [naive_solver|].
  destruct us as [|[c|x|x] us]; cbn; try done.
  - destruct t; [by destruct (Ht b0)|done|done].
  - case_decide; [|done]. subst. intros (us' & -> & ->)%IH. by exists us'.
Qed.

Definition marker_name (t : tok) : option bytes :=
  match t with TLit _ => None | TPar x => Some x | TWild x => Some x end.

Definition same_marker (t t' : tok) : Prop :=
  match t, t' with TPar _, TPar _ | TWild _, TWild _ => True | _, _ => False end.

Lemma get_marker_unique k : ∀ n us t t' ts ts',
  length us <= k → same_marker t t' →
  get n (us ++ t :: ts) ≠ None → get n (us ++ t' :: ts') ≠ None → t = t'.
Proof.
  induction k as [|k IH]; intros n us t t' ts ts' Hk Ht.
  { destruct us; [|cbn in Hk; lia]. destruct n, t, t'; try done; cbn.
    - destruct param; [|done]. repeat case_decide; naive_solver.
    - destruct wildcard; [|done]. repeat case_decide; naive_solver. }
  destruct us as [|u us].
  { apply (IH n []); [cbn; lia | done]. }
  cbn in Hk. destruct u as [b|x|x]; cbn [app].
  - rewrite !get_lit. destruct (staticChild n b) as [c|] eqn:Ec; [|done].
    unfold get_child. intros Hg Hg'.
    change (TLit b :: us ++ t :: ts) with ((TLit b :: us) ++ t :: ts) in Hg.
    change (TLit b :: us ++ t' :: ts') with ((TLit b :: us) ++ t' :: ts') in Hg'.
    destruct (strip _ (_ ++ t :: ts)) as [r|] eqn:E; [|done].
    destruct (strip _ (_ ++ t' :: ts')) as [r'|] eqn:E'; [|done].
    apply strip_marker in E as (u & Hu & ->); [|by destruct t, t'].
    apply strip_marker in E' as (u' & Hu' & ->); [|by destruct t, t'].
    rewrite Hu in Hu'. apply (inj (app _)) in Hu' as <-.
    eapply IH; [|done..]. apply with_child_Some in Ec as [_ Hh].
    destruct (prefix c); [done|]. injection Hu as _ ->. rewrite length_app in Hk. lia.
  - destruct n; cbn. destruct param as [p|]; [|done]. case_decide; [|done]. apply IH; [lia|done].
  - destruct n; cbn. destruct wildcard as [w|]; [|done]. case_decide; [|done]. apply IH; [lia|done].
Qed.

Lemma tree_marker_unique (t : tree H) us u u' ts ts' :
  same_marker u u' → tree_get t (us ++ u :: ts) ≠ None →
  tree_get t (us ++ u' :: ts') ≠ None → u = u'.
Proof.
  rewrite !tree_get_root. intros Hm Hg Hg2. by eapply (get_marker_unique (length us) _ us u u' ts ts').
Qed.
End markers.
