(* ===== verification/TreeLookup.v ===== *)
(** * What a lookup answers

    A reference semantics of routing: when a registered token sequence matches a
    path, what it captures, and which of several matches wins. [lookup] finds the
    winner whenever anything matches, leaves the captures alone when nothing
    does, and never depends on the shape of the tree. *)

From S2P Require Import Prelude Bytes Pattern Slice Params Tree TreeSpec.

(** ** The reference semantics *)

(** The captures of a match: a parameter takes a whole non-empty path segment, a
    wildcard takes a non-empty remainder and ends the pattern. *)
Fixpoint tmatch (ts : list tok) (path : bytes) : option (list (bytes * bytes)) :=
  match ts with
  | [] => match path with [] => Some [] | _ => None end
  | TLit b :: ts' =>
    match path with
    | c :: path' => if decide (c = b) then tmatch ts' path' else None
    | [] => None
    end
  | TPar x :: ts' =>
    let i := run_length not_slash path in
    if decide (0 < i) then cons (x, take i path) <$> tmatch ts' (drop i path) else None
  | TWild x :: ts' =>
    match path, ts' with
    | _ :: _, [] => Some [(x, path)]
    | _, _ => None
    end
  end.

(** Static before parameter before wildcard. *)
Definition rank (t : tok) : nat :=
  match t with TLit _ => 0 | TPar _ => 1 | TWild _ => 2 end.

(** [ts] wins over [us]: at the first difference it has the better kind. *)
Definition before (ts us : list tok) : Prop :=
  ∃ q t u ts' us', ts = q ++ t :: ts' ∧ us = q ++ u :: us' ∧ rank t < rank u.

(** [ts] is the best match of [path] among the entries of [g]. *)
Definition best {H} (g : list tok → option H) (path : bytes) (ts : list tok) (h : H)
    (caps : list (bytes * bytes)) : Prop :=
  g ts = Some h ∧ tmatch ts path = Some caps ∧
  ∀ us, g us ≠ None → tmatch us path ≠ None → us = ts ∨ before ts us.

(** ** Lemmas on the semantics *)

Lemma tmatch_lits q ts path :
  tmatch (lits q ++ ts) path =
  if decide (take (length q) path = q) then tmatch ts (drop (length q) path) else None.
Proof.
  revert path. induction q as [|b q IH]; intros path; cbn; [by rewrite drop_0|].
  destruct path as [|c path]; cbn; [done|].
  case_decide as Hc.
  - subst. rewrite IH. apply decide_ext. split; congruence.
  - rewrite decide_False; [done|]. intros [= -> _]. done.
Qed.

Lemma tmatch_empty ts : tmatch ts [] ≠ None → ts = [].
Proof. by destruct ts as [|[]]. Qed.

Lemma tmatch_nonempty ts path caps : tmatch ts path = Some caps → path ≠ [] → ts ≠ [].
Proof. by destruct ts, path. Qed.

Lemma before_app q ts us : before ts us → before (q ++ ts) (q ++ us).
Proof.
  intros (q' & t & u & ts' & us' & -> & -> & Hr).
  exists (q ++ q'), t, u, ts', us'. by rewrite <-!app_assoc.
Qed.

Lemma before_head t u ts us : rank t < rank u → before (t :: ts) (u :: us).
Proof. intros. by exists [], t, u, ts, us. Qed.

Lemma before_asym ts us : before ts us → ¬ before us ts.
Proof.
  intros (q & t & u & ts' & us' & -> & -> & Hr) (q' & t' & u' & ts2 & us2 & E1 & E2 & Hr').
  revert q' E1 E2. induction q as [|x q IH]; intros [|x' q'] E1 E2; simplify_eq/=; try lia.
  by eapply IH.
Qed.

(** There is at most one best match, so it does not depend on how the entries are
    stored. *)
Lemma best_unique {H} (g g' : list tok → option H) path ts h caps ts' h' caps' :
  (∀ ts, g ts = g' ts) → best g path ts h caps → best g' path ts' h' caps' →
  ts = ts' ∧ h = h' ∧ caps = caps'.
Proof.
  intros Hg (Hh & Hm & Hb) (Hh' & Hm' & Hb').
  assert (ts = ts') as <-.
  { destruct (Hb ts') as [|Hlt]; [by rewrite Hg, Hh'|by rewrite Hm'|done|].
    destruct (Hb' ts) as [|Hgt]; [by rewrite <-Hg, Hh|by rewrite Hm|done|].
    by destruct (before_asym _ _ Hlt). }
  rewrite Hg in Hh. split_and!; [done|congruence..].
Qed.

Section lookup.
Context {H : Type} `{GoZero H} `{AppendGrowth}.
Implicit Types (n c p w : node H) (ts us : list tok) (h : H).

(** The contract of a search below a node: the best match with its captures
    appended, or no match and the captures as they were. *)
Definition found (g : list tok → option H) path params (r : option H * Params) : Prop :=
  params_ok r.2 ∧
  match r.1 with
  | Some h => ∃ ts caps, best g path ts h caps ∧ captures r.2 = captures params ++ caps
  | None => captures r.2 = captures params ∧ ∀ ts, g ts ≠ None → tmatch ts path = None
  end.

(** The best match below [c] is the best match at [n], when [c] sits at [q]
    below [n] and every match at [n] goes through [c] or comes later. *)
Lemma best_lift (g g' : list tok → option H) path rest q caps0 ts h caps :
  (∀ ts, g (q ++ ts) = g' ts) →
  (∀ ts, tmatch (q ++ ts) path = app caps0 <$> tmatch ts rest) →
  (∀ us, g us ≠ None → tmatch us path ≠ None →
         (∃ us', us = q ++ us') ∨ ∀ ts, before (q ++ ts) us) →
  best g' rest ts h caps → best g path (q ++ ts) h (caps0 ++ caps).
Proof.
  intros Hg Hm Hothers (Hh & Hc & Hb). split_and!.
  - by rewrite Hg.
  - by rewrite Hm, Hc.
  - intros us Hus Hmu. destruct (Hothers us Hus Hmu) as [[us' ->]|]; [|by right].
    rewrite Hg in Hus. rewrite Hm in Hmu.
    destruct (Hb us') as [->|]; [done|by intros E; rewrite E in Hmu|by left|right; by apply before_app].
Qed.

Lemma arrive_found (recur : bytes → Params → option H * Params) c rest params :
  params_ok params → (rest ≠ [] → found (get c) rest params (recur rest params)) →
  found (get c) rest params (arrive recur c rest params).
Proof.
  intros Hp Hr. destruct rest as [|b rest]; [|by apply Hr].
  cbn. split; [done|]. cbn. destruct (hasHandler c) eqn:Eh.
  - exists [], []. split; [|by rewrite app_nil_r]. split_and!; [|done|].
    + destruct c; cbn in *. by rewrite Eh.
    + intros us _ Hus%tmatch_empty. by left.
  - split; [done|]. intros ts Hts. destruct (tmatch ts []) eqn:E; [|done].
    assert (ts = []) as -> by (apply tmatch_empty; by rewrite E).
    destruct c; cbn in *. by rewrite Eh in Hts.
Qed.

(** A later attempt, after one that found nothing. *)
Lemma found_miss g path params params' r :
  captures params' = captures params → found g path params' r → found g path params r.
Proof. intros Hc. unfold found. by rewrite Hc. Qed.

(** Only the entries decide what is found. *)
Lemma found_unique g g' path params o o' :
  (∀ ts, g ts = g' ts) → found g path params o → found g' path params o' →
  o.1 = o'.1 ∧ captures o.2 = captures o'.2.
Proof.
  intros Hg [_ Hf] [_ Hf']. destruct o as [[h|] ps], o' as [[h'|] ps']; cbn [fst snd] in *.
  - destruct Hf as (ts & caps & Hb & ->), Hf' as (ts' & caps' & Hb' & ->).
    by destruct (best_unique g g' _ _ _ _ _ _ _ Hg Hb Hb') as (-> & -> & ->).
  - destruct Hf as (ts & caps & (Hh & Hm & _) & _), Hf' as [_ Hn].
    rewrite Hn in Hm; [done|]. by rewrite <-Hg, Hh.
  - destruct Hf' as (ts & caps & (Hh & Hm & _) & _), Hf as [_ Hn].
    rewrite Hn in Hm; [done|]. by rewrite Hg, Hh.
  - destruct Hf as [-> _], Hf' as [-> _]. done.
Qed.

(** The first attempt of [lookup]: the static child. *)
Definition try_static n b path params : option H * Params :=
  with_child b (λ child,
    if decide (take (length (prefix child)) path = prefix child) then
      arrive (lookup_node child) child (drop (length (prefix child)) path) params
    else (None, params)) (None, params) (static n).

(** The second: the parameter child. *)
Definition try_param n path params : option H * Params :=
  match param n with
  | Some p =>
    let i := run_length not_slash path in
    if decide (0 < i) then
      let saved := Len params in
      match arrive (lookup_node p) p (drop i path) (add params (name p) (take i path)) with
      | (Some h, params) => (Some h, params)
      | (None, params) => (None, truncate params saved)
      end
    else (None, params)
  | None => (None, params)
  end.

(** The third: the wildcard child. *)
Definition try_wildcard n path params : option H * Params :=
  match wildcard n with
  | Some w =>
    let saved := Len params in
    let params := add params (name w) path in
    if hasHandler w then (Some (handler w), params)
    else (None, truncate params saved)
  | None => (None, params)
  end.

Lemma lookup_node_eq n b path params :
  lookup_node n (b :: path) params =
  match try_static n b (b :: path) params with
  | (Some h, params) => (Some h, params)
  | (None, params) =>
    match try_param n (b :: path) params with
    | (Some h, params) => (Some h, params)
    | (None, params) => try_wildcard n (b :: path) params
    end
  end.
Proof. by destruct n. Qed.

(** The contract of one attempt, responsible for the entries whose first token
    has rank [k]; entries of a smaller rank are known not to match. *)
Definition attempted (k : nat) n path params (r : option H * Params) : Prop :=
  params_ok r.2 ∧
  match r.1 with
  | Some h => ∃ t ts caps, rank t = k ∧ get n (t :: ts) = Some h ∧
      tmatch (t :: ts) path = Some caps ∧ captures r.2 = captures params ++ caps ∧
      ∀ u us, rank u = k → get n (u :: us) ≠ None → tmatch (u :: us) path ≠ None →
              u :: us = t :: ts ∨ before (t :: ts) (u :: us)
  | None => captures r.2 = captures params ∧
      ∀ t ts, rank t = k → get n (t :: ts) ≠ None → tmatch (t :: ts) path = None
  end.

(** Three attempts in a row answer for every entry. *)
Lemma attempts_found n b path params r0 r1 r2 :
  attempted 0 n (b :: path) params r0 →
  (∀ ps, captures ps = captures params → params_ok ps → attempted 1 n (b :: path) ps (r1 ps)) →
  (∀ ps, captures ps = captures params → params_ok ps → attempted 2 n (b :: path) ps (r2 ps)) →
  found (get n) (b :: path) params
    (match r0 with
     | (Some h, ps) => (Some h, ps)
     | (None, ps) => match r1 ps with
                     | (Some h, ps) => (Some h, ps)
                     | (None, ps) => r2 ps
                     end
     end).
Proof.
  assert (∀ u, rank u = 0 ∨ rank u = 1 ∨ rank u = 2) as Hrank by (intros []; cbn; lia).
  intros [Hok0 A0] A1 A2. destruct r0 as [[h|] ps0]; cbn [fst snd] in *.
  { destruct A0 as (t & ts & caps & Ht & Hg & Hm & Hc & Hb). split; [done|].
    exists (t :: ts), caps. split; [|done]. split_and!; [done..|].
    intros [|u us] Hu Hmu; [done|]. destruct (decide (rank u = 0)); [by apply Hb|].
    right. apply before_head. lia. }
  destruct A0 as [Hc0 N0]. specialize (A1 ps0 Hc0 Hok0) as [Hok1 A1].
  destruct (r1 ps0) as [[h|] ps1]; cbn [fst snd] in *.
  { destruct A1 as (t & ts & caps & Ht & Hg & Hm & Hc & Hb). split; [done|].
    exists (t :: ts), caps. split; [|cbn [snd]; congruence]. split_and!; [done..|].
    intros [|u us] Hu Hmu; [done|]. destruct (Hrank u) as [?|[?|?]]; [|by apply Hb|].
    - by rewrite N0 in Hmu.
    - right. apply before_head. lia. }
  destruct A1 as [Hc1 N1]. rewrite Hc0 in Hc1. specialize (A2 ps1 Hc1 Hok1) as [Hok2 A2].
  split; [done|]. destruct (r2 ps1) as [[h|] ps2]; cbn [fst snd] in *.
  - destruct A2 as (t & ts & caps & Ht & Hg & Hm & Hc & Hb).
    exists (t :: ts), caps. split; [|congruence]. split_and!; [done..|].
    intros [|u us] Hu Hmu; [done|]. destruct (Hrank u) as [?|[?|?]]; [| |by apply Hb].
    + by rewrite N0 in Hmu.
    + by rewrite N1 in Hmu.
  - destruct A2 as [Hc2 N2]. split; [congruence|].
    intros [|t ts] Hts; [done|]. destruct (Hrank t) as [?|[?|?]]; auto.
Qed.

Lemma try_static_attempted n b path params :
  wf_node n → params_ok params →
  (∀ c rest ps, c ∈ static n → wf_node c → length rest <= length path → rest ≠ [] →
     params_ok ps → found (get c) rest ps (lookup_node c rest ps)) →
  attempted 0 n (b :: path) params (try_static n b (b :: path) params).
Proof.
  intros Hwf Hp IH. unfold try_static. rewrite with_child_spec.
  assert (∀ t ts, rank t = 0 → get n (t :: ts) ≠ None → tmatch (t :: ts) (b :: path) ≠ None →
          ∃ c, staticChild n b = Some c ∧ get_child c (t :: ts) ≠ None) as Hall.
  { intros [d|x|x] ts; cbn [rank]; [|done..]. intros _. rewrite get_lit. cbn.
    case_decide; [|done]. subst d. destruct (staticChild n b) as [c|]; [|done]. eauto. }
  fold (staticChild n b). destruct (staticChild n b) as [c|] eqn:Ec; cbn [fst snd].
  2:{ split; [done|]. split; [done|]. intros t ts Ht Hg.
      destruct (tmatch (t :: ts) (b :: path)) eqn:E; [|done].
      destruct (Hall t ts Ht Hg) as (c & [=] & _). by rewrite E. }
  pose proof Ec as [Hin Hb]%with_child_Some.
  destruct (wf_static_elem n c Hwf Hin) as (Hwc & Hne & _).
  assert (∀ ts, get n (lits (prefix c) ++ ts) = get c ts) as Hgc.
  { intros ts. destruct (prefix c) as [|d q] eqn:E; [done|]. injection Hb as ->.
    cbn [lits map app]. rewrite get_lit, Ec. unfold get_child. rewrite E.
    change (TLit b :: map TLit q ++ ts) with (lits (b :: q) ++ ts). by rewrite strip_lits. }
  assert (∀ t ts, rank t = 0 → get n (t :: ts) ≠ None → tmatch (t :: ts) (b :: path) ≠ None →
          ∃ us, t :: ts = lits (prefix c) ++ us) as Hvia.
  { intros t ts Ht Hg Hm. destruct (Hall t ts Ht Hg Hm) as (? & [= <-] & Hc).
    unfold get_child in Hc. destruct (strip _ _) as [us|] eqn:Es; [|done].
    exists us. by apply strip_Some. }
  case_decide as Htk.
  2:{ split; [done|]. split; [done|]. intros t ts Ht Hg.
      destruct (tmatch (t :: ts) (b :: path)) eqn:E; [|done].
      destruct (Hvia t ts Ht Hg) as [us Hus]; [by rewrite E|].
      rewrite Hus, tmatch_lits, decide_False in E by done. done. }
  destruct (arrive_found (lookup_node c) c (drop (length (prefix c)) (b :: path)) params Hp)
    as [Hok Hf].
  { intros Hr. apply IH; try done. rewrite length_drop.
    destruct (prefix c); cbn; [done|lia]. }
  split; [done|]. destruct (arrive _ _ _ _) as [[h|] ps]; cbn [fst snd] in *.
  - destruct Hf as (ts & caps & (Hg & Hm & Hbest) & Hcap).
    assert (∀ us, tmatch (lits (prefix c) ++ us) (b :: path) =
                  tmatch us (drop (length (prefix c)) (b :: path))) as Hml.
    { intros us. by rewrite tmatch_lits, decide_True. }
    destruct (prefix c) as [|d q] eqn:E; [done|]. injection Hb as ->.
    exists (TLit b), (lits q ++ ts), caps. split; [done|].
    change (TLit b :: lits q ++ ts) with (lits (b :: q) ++ ts).
    rewrite Hgc, Hml. split_and!; try done.
    intros u us Hu Hgu Hmu. destruct (Hvia u us Hu Hgu Hmu) as [us' Hus].
    rewrite Hus in *. rewrite Hgc in Hgu. rewrite Hml in Hmu.
    destruct (Hbest us' Hgu Hmu) as [->|]; [by left | right; by apply before_app].
  - destruct Hf as [Hc Hn]. split; [done|]. intros t ts Ht Hg.
    destruct (tmatch (t :: ts) (b :: path)) eqn:E; [|done].
    destruct (Hvia t ts Ht Hg) as [us Hus]; [by rewrite E|].
    rewrite Hus in *. rewrite Hgc in Hg. rewrite tmatch_lits, decide_True in E by done.
    by rewrite (Hn us Hg) in E.
Qed.

Lemma get_par n x ts :
  get n (TPar x :: ts) =
  match param n with Some p => if decide (name p = x) then get p ts else None | None => None end.
Proof. by destruct n. Qed.

Lemma get_wild n x ts :
  get n (TWild x :: ts) =
  match wildcard n with Some w => if decide (name w = x) then get w ts else None | None => None end.
Proof. by destruct n. Qed.

Lemma try_param_attempted n b path params :
  wf_node n → params_ok params →
  (∀ p rest ps, param n = Some p → wf_node p → length rest <= length path → rest ≠ [] →
     params_ok ps → found (get p) rest ps (lookup_node p rest ps)) →
  attempted 1 n (b :: path) params (try_param n (b :: path) params).
Proof.
  intros Hwf Hp IH. unfold try_param, attempted. cbv zeta.
  destruct (param n) as [p|] eqn:Ep.
  2:{ split; [done|]. split; [done|]. intros [|x|] ts; cbn [rank]; [done| |done].
      by rewrite get_par, Ep. }
  set (i := run_length not_slash (b :: path)). case_decide as Hi.
  2:{ split; [done|]. split; [done|]. intros [|x|] ts; cbn [rank]; [done| |done].
      intros _ _. cbn [tmatch]. fold i. by rewrite decide_False. }
  pose proof (wf_node_inv _ Hwf) as (_ & _ & _ & Hwp & _). destruct (Hwp p Ep) as [Hwfp _].
  assert (∀ ts, tmatch (TPar (name p) :: ts) (b :: path) =
                cons (name p, take i (b :: path)) <$> tmatch ts (drop i (b :: path))) as Hm.
  { intros ts. cbn [tmatch]. fold i. by rewrite decide_True. }
  pose proof (add_ok params (name p) (take i (b :: path)) Hp) as Hadd.
  destruct (arrive_found (lookup_node p) p (drop i (b :: path)) _ Hadd) as [Hok Hf].
  { intros Hr. apply IH; try done. rewrite length_drop. cbn [length]. lia. }
  destruct (arrive _ _ _ _) as [[h|] ps]; cbn [fst snd] in *.
  - split; [done|]. destruct Hf as (ts & caps & (Hg & Hc & Hb) & Hcap).
    exists (TPar (name p)), ts, ((name p, take i (b :: path)) :: caps).
    split; [done|]. rewrite get_par, Ep, decide_True, Hm, Hc by done.
    split_and!; [done|done|by rewrite Hcap, captures_add, <-app_assoc|].
    intros [|x|] us; cbn [rank]; [done| |done]. intros _. rewrite get_par, Ep.
    case_decide; [subst x|done]. rewrite Hm. intros Hgu Hmu.
    destruct (Hb us Hgu) as [->|]; [by intros E; rewrite E in Hmu|by left|].
    right. by apply (before_app [_]).
  - destruct Hf as [Hc Hn]. destruct (truncate_add params ps _ _ Hp Hok Hc) as [Hc' Hok'].
    split; [done|]. split; [done|]. intros [|x|] ts; cbn [rank]; [done| |done].
    intros _. rewrite get_par, Ep. case_decide; [subst x|done].
    intros Hg. by rewrite Hm, Hn.
Qed.

Lemma try_wildcard_attempted n b path params :
  params_ok params → attempted 2 n (b :: path) params (try_wildcard n (b :: path) params).
Proof.
  intros Hp. unfold try_wildcard, attempted. destruct (wildcard n) as [w|] eqn:Ew.
  2:{ split; [done|]. split; [done|]. intros [| |x] ts; cbn [rank]; [done..|].
      by rewrite get_wild, Ew. }
  pose proof (add_ok params (name w) (b :: path) Hp) as Hadd. cbv zeta.
  assert (get w [] = if hasHandler w then Some (handler w) else None) as Hw by (by destruct w).
  destruct (hasHandler w) eqn:Eh; cbn [fst snd].
  - split; [done|]. exists (TWild (name w)), [], [(name w, b :: path)].
    rewrite get_wild, Ew, decide_True, captures_add by done. split_and!; try done.
    intros [| |x] [|t us]; cbn [rank]; try done. rewrite get_wild, Ew.
    case_decide; [subst; by left|done].
  - destruct (truncate_add params _ _ _ Hp Hadd eq_refl) as [Hc Hok].
    split; [done|]. split; [done|]. intros [| |x] [|t ts]; cbn [rank]; try done.
    rewrite get_wild, Ew. case_decide; [|done]. by rewrite Hw.
Qed.

(** [lookup_node] meets its contract, and since every call is on a shorter path
    the recursion is as deep as the path at most. *)
Lemma lookup_node_found k : ∀ n path params,
  length path <= k → wf_node n → path ≠ [] → params_ok params →
  found (get n) path params (lookup_node n path params).
Proof.
  induction k as [|k IH]; intros n [|b path] params Hk Hwf Hne Hp; try done; cbn in Hk; [lia|].
  rewrite lookup_node_eq.
  apply (attempts_found n b path params _ (λ ps, try_param n (b :: path) ps)
                        (λ ps, try_wildcard n (b :: path) ps)).
  - apply try_static_attempted; [done..|]. intros. apply IH; [lia|done..].
  - intros ps Hc Hok. apply try_param_attempted; [done..|]. intros. apply IH; [lia|done..].
  - intros ps Hc Hok. by apply try_wildcard_attempted.
Qed.

Lemma lookup_found (t : tree H) path params :
  wf_tree t → path ≠ [] → params_ok params →
  found (tree_get t) path params (lookup t path params).
Proof.
  intros Hwf Hne Hp. unfold lookup, tree_get, wf_tree in *. destruct (root t) as [r|].
  - apply (lookup_node_found (length path)); auto.
  - split; [done|]. by split.
Qed.
End lookup.

(** ** Capacity

    A search never holds more captures than some registered route has
    parameters, so parameter storage sized from [MaxParams] never grows. *)

Fixpoint tok_params (ts : list tok) : nat :=
  match ts with
  | [] => 0
  | TLit _ :: ts' => tok_params ts'
  | _ :: ts' => S (tok_params ts')
  end.

Lemma tok_params_lits q ts : tok_params (lits q ++ ts) = tok_params ts.
Proof. by induction q. Qed.

Lemma tok_params_captures ts path caps : tmatch ts path = Some caps → length caps = tok_params ts.
Proof.
  revert path caps. induction ts as [|[b|x|x] ts IH]; intros path caps; cbn.
  - destruct path; [by intros [= <-]|done].
  - destruct path; [done|]. case_decide; [|done]. apply IH.
  - case_decide; [|done]. intros (l & Hl & ->)%fmap_Some. cbn. f_equal. by eapply IH.
  - destruct path, ts; try done. by intros [= <-].
Qed.

Section capacity.
Context {H : Type} `{GoZero H} `{AppendGrowth}.
Implicit Types (n c p w : node H) (ts us : list tok) (h : H).

Lemma Cap_add params x v : Len params < Cap params → Cap (add params x v) = Cap params.
Proof.
  unfold Len, Cap, add, append_slice, slice_cap. cbn. intros Hlt.
  rewrite decide_True by done. apply length_insert.
Qed.

Lemma Len_same params ps :
  params_ok params → params_ok ps → captures ps = captures params → Len ps = Len params.
Proof. intros Hp Hs E. by rewrite <-!length_captures, E. Qed.

(** The parameters still needed below a node. *)
Definition needs n (room : nat) : Prop := ∀ ts, get n ts ≠ None → tok_params ts <= room.

Lemma needs_static n c room : wf_node n → c ∈ static n → needs n room → needs c room.
Proof.
  intros Hwf Hc Hn ts Hts. destruct (wf_static_elem n c Hwf Hc) as (_ & Hp & _).
  pose proof (wf_node_inv _ Hwf) as (_ & Hnd & _).
  destruct (prefix c) as [|b q] eqn:E; [done|].
  rewrite <-(tok_params_lits (b :: q)). apply Hn. cbn [lits map app]. rewrite get_lit.
  unfold staticChild. rewrite (with_child_elem b _ c Hnd Hc) by (by rewrite E).
  unfold get_child. rewrite E. change (TLit b :: map TLit q ++ ts) with (lits (b :: q) ++ ts).
  by rewrite strip_lits.
Qed.

Lemma needs_param n p room :
  wf_node n → param n = Some p → needs n room → ∃ room', room = S room' ∧ needs p room'.
Proof.
  intros Hwf Hp Hn. pose proof (wf_node_inv _ Hwf) as (_ & _ & _ & Hwp & _).
  assert (∀ ts, get p ts ≠ None → S (tok_params ts) <= room) as Hs.
  { intros ts Hts. apply (Hn (TPar (name p) :: ts)). by rewrite get_par, Hp, decide_True. }
  destruct (Hwp p Hp) as [_ (us & h & Hu)].
  pose proof (Hs us) as Hus. rewrite Hu in Hus. specialize (Hus ltac:(done)).
  destruct room as [|room]; [lia|]. exists room. split; [done|].
  intros ts Hts%Hs. lia.
Qed.

Lemma needs_wildcard n w room : wf_node n → wildcard n = Some w → needs n room → 0 < room.
Proof.
  intros Hwf Hw Hn. pose proof (wf_node_inv _ Hwf) as (_ & _ & _ & _ & Hww).
  destruct (Hww w Hw) as [_ (us & h & Hu)].
  pose proof (Hn (TWild (name w) :: us)) as Hus. rewrite get_wild, Hw, decide_True, Hu in Hus by done.
  specialize (Hus ltac:(done)). cbn in Hus. lia.
Qed.

Lemma truncate_Cap params k : params_ok params → k <= Len params → Cap (truncate params k) = Cap params.
Proof. intros. by apply truncate_cap. Qed.

Definition keeps (rec : bytes → Params → option H * Params) room path params : Prop :=
  path ≠ [] → params_ok params → Len params + room <= Cap params →
  Cap (rec path params).2 = Cap params.

Lemma arrive_keeps rec c room path params :
  keeps rec room path params → params_ok params → Len params + room <= Cap params →
  Cap (arrive rec c path params).2 = Cap params.
Proof. intros Hk Hp Hr. destruct path; [done|]. by apply Hk. Qed.

Lemma lookup_node_keeps k : ∀ n path params room,
  length path <= k → wf_node n → needs n room → keeps (lookup_node n) room path params.
Proof.
  induction k as [|k IH]; intros n [|b path] params room Hk Hwf Hn Hne Hp Hroom; try done;
    cbn in Hk; [lia|].
  rewrite lookup_node_eq.
  assert (∀ c rest ps, length rest <= length path → wf_node c → rest ≠ [] → params_ok ps →
            found (get c) rest ps (lookup_node c rest ps)) as Hfound.
  { intros. apply (lookup_node_found (length rest)); auto. }
  assert (Cap (try_static n b (b :: path) params).2 = Cap params) as H0s.
  { unfold try_static. rewrite with_child_spec.
    destruct (with_child _ _ _ _) as [c|] eqn:Ec; [|done]. case_decide; [|done].
    apply with_child_Some in Ec as [Hc Hb].
    destruct (wf_static_elem n c Hwf Hc) as (Hwc & Hpc & _).
    apply (arrive_keeps _ _ room); [|done..]. apply IH; [|done|by apply (needs_static n)].
    rewrite length_drop. destruct (prefix c); cbn; [done|lia]. }
  pose proof (try_static_attempted n b path params Hwf Hp) as [Hok0 A0]; [eauto|].
  destruct (try_static n b (b :: path) params) as [[h|] ps0]; cbn [fst snd] in *; [done|].
  destruct A0 as [Hc0 _]. pose proof (Len_same params ps0 Hp Hok0 Hc0) as Hl0.
  assert (Cap (try_param n (b :: path) ps0).2 = Cap ps0) as H1p.
  { unfold try_param. destruct (param n) as [p|] eqn:Ep; [|done]. cbv zeta.
    case_decide as Hi; [|done].
    destruct (needs_param n p room Hwf Ep Hn) as (room' & -> & Hnp).
    pose proof (wf_node_inv _ Hwf) as (_ & _ & _ & Hwp & _). destruct (Hwp p Ep) as [Hwfp _].
    set (i := run_length not_slash (b :: path)) in *.
    pose proof (add_ok ps0 (name p) (take i (b :: path)) Hok0) as Hadd.
    pose proof (Cap_add ps0 (name p) (take i (b :: path)) ltac:(lia)) as Hca.
    pose proof (Len_add ps0 (name p) (take i (b :: path))) as Hla.
    assert (length (drop i (b :: path)) <= length path) as Hdl
      by (rewrite length_drop; cbn [length]; lia).
    pose proof (arrive_keeps (lookup_node p) p room' (drop i (b :: path))
                  (add ps0 (name p) (take i (b :: path)))) as Hk1.
    rewrite Hca in Hk1. specialize (Hk1 ltac:(apply IH; [lia|done..]) Hadd ltac:(lia)).
    destruct (arrive_found (lookup_node p) p (drop i (b :: path)) _ Hadd) as [Hok Hf];
      [by auto|].
    destruct (arrive _ _ _ _) as [[h|] ps]; cbn [fst snd] in *; [done|].
    destruct Hf as [Hc _]. rewrite truncate_Cap; [done..|].
    rewrite (Len_same _ _ Hadd Hok Hc). lia. }
  pose proof (try_param_attempted n b path ps0 Hwf Hok0) as [Hok1 A1]; [eauto|].
  destruct (try_param n (b :: path) ps0) as [[h|] ps1]; cbn [fst snd] in *; [congruence|].
  destruct A1 as [Hc1 _]. pose proof (Len_same ps0 ps1 Hok0 Hok1 Hc1) as Hl1.
  unfold try_wildcard. destruct (wildcard n) as [w|] eqn:Ew; [|cbn; congruence].
  pose proof (needs_wildcard n w room Hwf Ew Hn). cbv zeta.
  pose proof (Cap_add ps1 (name w) (b :: path) ltac:(lia)) as Hca.
  pose proof (Len_add ps1 (name w) (b :: path)) as Hla.
  destruct (hasHandler w); cbn [snd]; [congruence|].
  rewrite truncate_Cap; [congruence|by apply add_ok|lia].
Qed.
End capacity.
