(* ===== verification/Router.v ===== *)
(** * The router

    [src/internal/router/router.go]: the exported [Tree], which parses a pattern,
    inserts it and keeps the largest parameter count. Its specification is a flat
    routing table: the list of accepted patterns with their handlers, in
    registration order. *)

From S2P Require Import Prelude Bytes Pattern Slice Params Tree TreeSpec TreeLookup.

Section router.
Context {H : Type} `{GoZero H} `{AppendGrowth}.

Record Tree : Type := mkRTree { t : tree H; maxParams : nat }.

(** The zero value, ready to use. *)
Definition newTree : Tree := mkRTree (mkTree None 0) 0.

Definition count_params (segs : list segment) : nat :=
  length (filter (λ s, seg_kind s ≠ segStatic) segs).

Definition Insert (r : Tree) (pattern : bytes) (h : H) : Tree * option route_error :=
  match parsePattern pattern with
  | Err err => (r, Some err)
  | Ok segs =>
    match insert (t r) pattern segs h with
    | (t', Some err) => (mkRTree t' (maxParams r), Some err)
    | (t', None) => (mkRTree t' (Nat.max (maxParams r) (count_params segs)), None)
    end
  end.

Definition MaxParams (r : Tree) : nat := maxParams r.

Definition Lookup (r : Tree) (path : bytes) (params : Params) : option H * Params :=
  lookup (t r) path params.

Definition Len (r : Tree) : nat := len (t r).

(** ** The routing table *)

Definition table : Type := list (bytes * H).

(** The first pair of markers of one kind and different names at one place of
    two patterns that agree before it. *)
Fixpoint clash (us vs : list tok) : option (tok * tok) :=
  match us, vs with
  | u :: us', v :: vs' =>
    if decide (u = v) then clash us' vs'
    else match u, v with
         | TPar _, TPar _ | TWild _, TWild _ => Some (u, v)
         | _, _ => None
         end
  | _, _ => None
  end.

Definition conflict_error (pattern : bytes) (u v : tok) : route_error :=
  match u, v with
  | TPar x, TPar reg => ErrParamConflict pattern x reg
  | TWild x, TWild reg => ErrWildcardConflict pattern x reg
  | _, _ => ErrDuplicate
  end.

(** Why one registered pattern [vs] refuses the new pattern [us]. *)
Definition refusal_by (pattern : bytes) (us vs : list tok) : option route_error :=
  if decide (us = vs) then Some ErrDuplicate
  else (λ uv, conflict_error pattern uv.1 uv.2) <$> clash us vs.

Fixpoint first_refusal (pattern : bytes) (us : list tok) (log : table) : option route_error :=
  match log with
  | [] => None
  | (p, _) :: log' =>
    match parsePattern p with
    | Ok segs =>
      match refusal_by pattern us (toks segs) with
      | Some e => Some e
      | None => first_refusal pattern us log'
      end
    | Err _ => first_refusal pattern us log'
    end
  end.

(** Registering in the table. *)
Definition table_insert (log : table) (pattern : bytes) (h : H) : table * option route_error :=
  match parsePattern pattern with
  | Err e => (log, Some e)
  | Ok segs =>
    match first_refusal pattern (toks segs) log with
    | Some e => (log, Some e)
    | None => (log ++ [(pattern, h)], None)
    end
  end.

Definition pattern_params (pattern : bytes) : nat :=
  match parsePattern pattern with Ok segs => count_params segs | Err _ => 0 end.

Definition table_params (log : table) : nat :=
  foldr (λ e n, Nat.max (pattern_params e.1) n) 0 log.

(** The handler the table holds for a token sequence. *)
Definition entry (log : table) (ts : list tok) (h : H) : Prop :=
  ∃ pattern segs, (pattern, h) ∈ log ∧ parsePattern pattern = Ok segs ∧ toks segs = ts.

(** Looking up in the table: every pattern is tried, and of two that match the
    one that wins at the first difference is kept. *)
Fixpoint wins (ts us : list tok) : bool :=
  match ts, us with
  | x :: ts', y :: us' => if decide (x = y) then wins ts' us' else bool_decide (rank x < rank y)
  | _, _ => false
  end.

Fixpoint table_lookup (log : table) (path : bytes)
    : option (list tok * H * list (bytes * bytes)) :=
  match log with
  | [] => None
  | (p, h) :: log' =>
    match parsePattern p with
    | Err _ => table_lookup log' path
    | Ok segs =>
      match tmatch (toks segs) path, table_lookup log' path with
      | None, r => r
      | Some caps, None => Some (toks segs, h, caps)
      | Some caps, Some r =>
        if wins r.1.1 (toks segs) then Some r else Some (toks segs, h, caps)
      end
    end
  end.

(** A tree that holds what the table holds. *)
Record represents (r : Tree) (log : table) : Prop := {
  rep_wf : wf_tree (t r);
  rep_get : ∀ ts h, tree_get (t r) ts = Some h ↔ entry log ts h;
  rep_len : Len r = length log;
  rep_params : maxParams r = table_params log;
  rep_nodup : NoDup log.*1;
}.

(** ** Lemmas *)

Lemma newTree_represents : represents newTree [].
Proof.
  split; try done; [|constructor]. intros ts h. split; [done|].
  intros (? & ? & ?%elem_of_nil & _). done.
Qed.

(** A token sequence spells its pattern. *)
Definition render_tok (x : tok) : bytes :=
  match x with TLit b => [b] | TPar n => ":"%char :: n | TWild n => "*"%char :: n end.

Lemma render_toks segs : concat (map render_tok (toks segs)) = render segs.
Proof.
  unfold render. induction segs as [|[[] x] segs IH]; [done|..];
    rewrite toks_cons, map_app, concat_app, IH; cbn [map concat]; f_equal; cbn.
  - induction x as [|b x IHx]; [done|]. cbn. by rewrite IHx.
  - by rewrite app_nil_r.
  - by rewrite app_nil_r.
Qed.

Lemma toks_inj p q segs segs' :
  parsePattern p = Ok segs → parsePattern q = Ok segs' → toks segs = toks segs' → p = q.
Proof.
  intros Hp%parsePattern_render Hq%parsePattern_render E.
  by rewrite <-Hp, <-Hq, <-!render_toks, E.
Qed.

Lemma clash_Some us vs u v :
  clash us vs = Some (u, v) →
  ∃ q us' vs', us = q ++ u :: us' ∧ vs = q ++ v :: vs' ∧ same_marker u v ∧ u ≠ v.
Proof.
  revert vs. induction us as [|x us IH]; intros [|y vs]; cbn; try done.
  case_decide as Hxy.
  - intros (q & us' & vs' & -> & -> & ?)%IH. subst. by exists (y :: q), us', vs'.
  - intros E. exists [], us, vs. by destruct x, y; simplify_eq.
Qed.

Lemma clash_app q u v us vs :
  same_marker u v → u ≠ v → clash (q ++ u :: us) (q ++ v :: vs) = Some (u, v).
Proof.
  intros Hs Hne. induction q as [|x q IH]; cbn.
  - rewrite decide_False by done. by destruct u, v.
  - by rewrite decide_True.
Qed.

(** A refusal names its cause: the same route, or the first clash. *)
Lemma tree_refused_cause pattern (tr : tree H) us e :
  tree_refused pattern tr us e →
  ∃ vs, tree_get tr vs ≠ None ∧ refusal_by pattern us vs = Some e.
Proof.
  unfold tree_refused, tree_get, refusal_by. destruct (root tr) as [r|]; [|done].
  destruct e; cbn; try done.
  - intros [h Hh]. exists us. by rewrite Hh, decide_True.
  - intros (-> & Hne & us1 & us2 & ts & h & -> & Hh).
    exists (us1 ++ TPar registered :: ts). rewrite Hh. split; [done|].
    rewrite decide_False by naive_solver. by rewrite clash_app by (exact I || congruence).
  - intros (-> & Hne & us1 & us2 & ts & h & -> & Hh).
    exists (us1 ++ TWild registered :: ts). rewrite Hh. split; [done|].
    rewrite decide_False by naive_solver. by rewrite clash_app by (exact I || congruence).
Qed.

Lemma refusal_by_cases pattern us vs e :
  refusal_by pattern us vs = Some e →
  (us = vs ∧ e = ErrDuplicate) ∨
  ∃ q u v us' vs', us = q ++ u :: us' ∧ vs = q ++ v :: vs' ∧ same_marker u v ∧ u ≠ v ∧
                   e = conflict_error pattern u v.
Proof.
  unfold refusal_by. case_decide; [intros [= <-]; by left|].
  intros ([u v] & Hc & ->)%fmap_Some.
  apply clash_Some in Hc as (q & us' & vs' & ? & ? & ? & ?). right. by exists q, u, v, us', vs'.
Qed.

(** Every route that refuses a pattern refuses it for the same reason. *)
Lemma cause_unique pattern (tr : tree H) us vs vs' e e' :
  tree_get tr vs ≠ None → tree_get tr vs' ≠ None →
  refusal_by pattern us vs = Some e → refusal_by pattern us vs' = Some e' → e = e'.
Proof.
  intros Hg Hg' [[<- ->]|(q & u & v & us1 & vs1 & -> & -> & Hs & Hne & ->)]%refusal_by_cases
    [[E ->]|(q' & u' & v' & us2 & vs2 & E & -> & Hs' & Hne' & ->)]%refusal_by_cases.
  - done.
  - subst us. by destruct Hne'; eapply (tree_marker_unique tr q').
  - subst vs'. by destruct Hne; eapply (tree_marker_unique tr q).
  - destruct (app_cons_cases _ _ _ _ _ _ E) as [(-> & -> & ->)|[[w ->]|[w ->]]].
    + f_equal. eapply (tree_marker_unique tr q'); [|done..]. by destruct u', v, v'.
    + destruct Hne. rewrite <-app_assoc in Hg'. by eapply (tree_marker_unique tr q).
    + destruct Hne'. rewrite <-app_assoc in Hg. by eapply (tree_marker_unique tr q').
Qed.

Lemma first_refusal_Some pattern us log e :
  first_refusal pattern us log = Some e →
  ∃ vs h, entry log vs h ∧ refusal_by pattern us vs = Some e.
Proof.
  induction log as [|[p h] log IH]; cbn; [done|].
  assert (first_refusal pattern us log = Some e →
          ∃ vs h', entry ((p, h) :: log) vs h' ∧ refusal_by pattern us vs = Some e) as Hrec.
  { intros (vs & h' & (p' & segs & Hin & Hp & Ht) & Hr)%IH. exists vs, h'. split; [|done].
    exists p', segs. split; [by right|done]. }
  destruct (parsePattern p) as [segs|] eqn:Ep; [|done].
  destruct (refusal_by _ _ _) eqn:Er; [|done]. intros [= ->].
  exists (toks segs), h. split; [|done]. exists p, segs. split; [by left|done].
Qed.

Lemma first_refusal_None pattern us log :
  first_refusal pattern us log = None →
  ∀ vs h, entry log vs h → refusal_by pattern us vs = None.
Proof.
  intros Hn vs h (p & segs & Hin & Hp & <-).
  induction log as [|[p' h'] log IH]; [by apply elem_of_nil in Hin|].
  apply elem_of_cons in Hin as [[= <- <-]|Hin].
  - cbn in Hn. rewrite Hp in Hn. by destruct (refusal_by _ _ _).
  - apply IH; [|done]. cbn in Hn. destruct (parsePattern p'); [|done].
    by destruct (refusal_by _ _ (toks _)).
Qed.

Lemma entry_snoc log pattern h segs ts h' :
  parsePattern pattern = Ok segs →
  entry (log ++ [(pattern, h)]) ts h' ↔ entry log ts h' ∨ (ts = toks segs ∧ h' = h).
Proof.
  intros Hp. unfold entry. setoid_rewrite elem_of_app. setoid_rewrite list_elem_of_singleton.
  naive_solver congruence.
Qed.

Lemma table_params_snoc log pattern h :
  table_params (log ++ [(pattern, h)]) = Nat.max (table_params log) (pattern_params pattern).
Proof. unfold table_params. induction log; cbn; lia. Qed.

Lemma count_params_toks segs : count_params segs = tok_params (toks segs).
Proof.
  induction segs as [|[[] x] segs IH]; [done|..]; rewrite toks_cons; unfold count_params in *;
    rewrite filter_cons.
  - rewrite decide_False by (cbn; tauto). rewrite IH. symmetry. apply tok_params_lits.
  - rewrite decide_True by done. cbn [length]. by rewrite IH.
  - rewrite decide_True by done. cbn [length]. by rewrite IH.
Qed.

Lemma table_params_max log p h segs :
  (p, h) ∈ log → parsePattern p = Ok segs → tok_params (toks segs) <= table_params log.
Proof.
  intros Hin Hp. rewrite <-count_params_toks. unfold table_params.
  induction log as [|[p' h'] log IH]; [by apply elem_of_nil in Hin|]. cbn.
  apply elem_of_cons in Hin as [[= <- <-]|Hin%IH]; [|lia].
  unfold pattern_params. rewrite Hp. lia.
Qed.

(** One insertion, against the table. *)
Lemma Insert_table r log pattern h :
  represents r log →
  (Insert r pattern h).2 = (table_insert log pattern h).2 ∧
  represents (Insert r pattern h).1 (table_insert log pattern h).1.
Proof.
  intros Hrep. unfold Insert, table_insert.
  destruct (parsePattern pattern) as [segs|e] eqn:Ep; [|done].
  pose proof (insert_spec pattern (t r) segs h (rep_wf _ _ Hrep)) as Hi.
  destruct (insert (t r) pattern segs h) as [t' [e|]]; destruct Hi as (Hwf & Hc & Hl & Hg).
  - apply tree_refused_cause in Hc as (vs & Hvs & Hr).
    destruct (tree_get (t r) vs) as [hv|] eqn:Ev; [|done].
    pose proof Ev as He%(rep_get _ _ Hrep).
    assert (represents (mkRTree t' (maxParams r)) log) as Hrep'.
    { destruct Hrep as [? Hg0 ? ? ?]. split; cbn; try done; [|unfold Len in *; cbn in *; congruence].
      intros ts h'. by rewrite Hg, Hg0. }
    destruct (first_refusal pattern (toks segs) log) as [e'|] eqn:Ef; cbn; split; try done.
    + apply first_refusal_Some in Ef as (vs' & h' & He' & Hr').
      apply (rep_get _ _ Hrep) in He'. f_equal.
      eapply (cause_unique pattern (t r)); [by rewrite Ev|by erewrite He'|done..].
    + by rewrite (first_refusal_None _ _ _ Ef _ _ He) in Hr.
    + by rewrite (first_refusal_None _ _ _ Ef _ _ He) in Hr.
  - assert (first_refusal pattern (toks segs) log = None) as ->.
    { destruct (first_refusal _ _ _) as [e'|] eqn:Ef; [|done].
      apply first_refusal_Some in Ef as (vs & h' & He & Hr).
      apply (rep_get _ _ Hrep) in He.
      apply refusal_by_cases in Hr as [[<- ->]|(q & u & v & us & vs' & Eu & -> & Hs & Hne & ->)].
      - congruence.
      - destruct Hne. eapply (tree_marker_unique t' q); [done| |]; rewrite Hg; unfold upd.
        + by rewrite <-Eu, decide_True.
        + rewrite He. by case_decide. }
    cbn. split; [done|]. split; cbn; [done| | | |].
    + intros ts h'. rewrite Hg, (entry_snoc _ _ _ segs) by done. unfold upd.
      rewrite <-(rep_get _ _ Hrep). case_decide; [subst|naive_solver].
      rewrite Hc. naive_solver.
    + unfold Len in *. cbn. rewrite Hl, length_app. cbn.
      pose proof (rep_len _ _ Hrep) as Hlen. unfold Len in Hlen. lia.
    + rewrite table_params_snoc, (rep_params _ _ Hrep).
      unfold pattern_params. by rewrite Ep.
    + rewrite fmap_app. apply NoDup_app. split_and!; [apply Hrep| |apply NoDup_singleton].
      intros p ([p' h'] & -> & Hin)%list_elem_of_fmap Hp%list_elem_of_singleton. cbn in Hp.
      subst p'. assert (entry log (toks segs) h') as He by (by exists pattern, segs).
      apply (rep_get _ _ Hrep) in He. congruence.
Qed.

Lemma wins_spec ts us : wins ts us = true ↔ before ts us.
Proof.
  revert us. induction ts as [|x ts IH]; intros [|y us]; cbn.
  1-3: split; [done|]; intros (q & t & u & ts' & us' & E1 & E2 & _); by destruct q.
  case_decide as Hxy.
  - subst y. rewrite IH. split.
    + apply (before_app [x]).
    + intros (q & t & u & ts' & us' & E1 & E2 & Hr). destruct q as [|z q]; simplify_eq/=; [lia|].
      by exists q, t, u, ts', us'.
  - rewrite bool_decide_eq_true. split; [apply before_head|].
    intros (q & t & u & ts' & us' & E1 & E2 & Hr). by destruct q; simplify_eq/=.
Qed.

Lemma table_lookup_None log path :
  table_lookup log path = None ↔ ∀ ts h, entry log ts h → tmatch ts path = None.
Proof.
  induction log as [|[p h] log IH]; cbn.
  { split; [|done]. intros _ ts h (? & ? & ?%elem_of_nil & _). done. }
  assert (∀ ts h', entry ((p, h) :: log) ts h' ↔
            (∃ segs, parsePattern p = Ok segs ∧ ts = toks segs ∧ h' = h) ∨ entry log ts h') as He.
  { intros ts h'. unfold entry. setoid_rewrite elem_of_cons. naive_solver. }
  setoid_rewrite He. destruct (parsePattern p) as [segs|]; [|rewrite IH; naive_solver].
  destruct (tmatch (toks segs) path) eqn:Em.
  - destruct (table_lookup log path); [case_match|]; split; try done;
      intros Hn; rewrite (Hn (toks segs) h) in Em; naive_solver.
  - rewrite IH. naive_solver.
Qed.

Lemma table_lookup_Some log path ts h caps :
  table_lookup log path = Some (ts, h, caps) → entry log ts h ∧ tmatch ts path = Some caps.
Proof.
  revert ts h caps. induction log as [|[p h'] log IH]; intros ts h caps; cbn; [done|].
  assert (entry log ts h → entry ((p, h') :: log) ts h) as Hw.
  { intros (q & segs & ? & ? & ?). exists q, segs. split; [by right|done]. }
  destruct (parsePattern p) as [segs|] eqn:Ep; [|naive_solver].
  assert (entry ((p, h') :: log) (toks segs) h') as Hh.
  { exists p, segs. split; [by left|done]. }
  destruct (tmatch (toks segs) path) eqn:Em; [|naive_solver].
  destruct (table_lookup log path) as [r|]; [case_match|]; naive_solver.
Qed.

(** The winner of a table is what the scan keeps. *)
Lemma table_lookup_best log path ts h caps :
  NoDup log.*1 → entry log ts h → tmatch ts path = Some caps →
  (∀ us h', entry log us h' → tmatch us path ≠ None → us = ts ∨ before ts us) →
  table_lookup log path = Some (ts, h, caps).
Proof.
  intros Hnd (q & segs & Hin & Hq & <-) Hm.
  induction log as [|[p h'] log IH]; [by apply elem_of_nil in Hin|]. intros Hb. cbn in *.
  apply NoDup_cons in Hnd as [Hp Hnd].
  assert (∀ us h', entry log us h' → tmatch us path ≠ None →
                   us = toks segs ∨ before (toks segs) us) as Hb'.
  { intros us h0 (x & sx & ? & ? & ?). apply (Hb us h0). exists x, sx. split; [by right|done]. }
  apply elem_of_cons in Hin as [[= <- <-]|Hin].
  - rewrite Hq, Hm. destruct (table_lookup log path) as [[[us h1] c1]|] eqn:E; [|done].
    cbn. destruct (wins us (toks segs)) eqn:Ew; [|done]. apply wins_spec in Ew.
    apply table_lookup_Some in E as [He Hus].
    destruct (Hb' us h1 He) as [->|Hlt]; [by rewrite Hus| |by destruct (before_asym _ _ Hlt)].
    destruct He as (x & sx & Hx & Hpx & Et). destruct Hp.
    apply list_elem_of_fmap. exists (x, h1). split; [|done]. cbn. by eapply toks_inj.
  - rewrite (IH Hnd Hin Hb'). destruct (parsePattern p) as [sp|] eqn:Ep; [|done].
    destruct (tmatch (toks sp) path) eqn:Em; [|done]. cbn.
    destruct (Hb (toks sp) h') as [E|Hlt]; [|by rewrite Em| |].
    + exists p, sp. split; [by left|done].
    + destruct Hp. apply list_elem_of_fmap. exists (q, h). split; [|done].
      by eapply (toks_inj p q).
    + apply wins_spec in Hlt. by rewrite Hlt.
Qed.

Lemma found_table r log path params o :
  represents r log → found (tree_get (t r)) path params o →
  o.1 = (λ x, x.1.2) <$> table_lookup log path ∧
  captures o.2 = captures params ++ from_option snd [] (table_lookup log path).
Proof.
  intros Hrep [_ Hf]. destruct o as [[h|] ps]; cbn in *.
  - destruct Hf as (ts & caps & (Hg & Hm & Hb) & ->).
    rewrite (table_lookup_best log path ts h caps); [done|apply Hrep|by apply Hrep|done|].
    intros us h' He%(rep_get _ _ Hrep). apply Hb. by rewrite He.
  - destruct Hf as [-> Hn].
    assert (table_lookup log path = None) as ->; [|by rewrite app_nil_r].
    apply table_lookup_None. intros ts h He%(rep_get _ _ Hrep). apply Hn. by rewrite He.
Qed.
End router.


(** ** Reverse routing *)

(** The path a pattern stands for once its parameters have values: a parameter
    takes a non-empty segment, a wildcard any non-empty remainder. *)
Fixpoint expand (segs : list segment) (values : list bytes) : option bytes :=
  match segs, values with
  | [], [] => Some []
  | Segment segStatic t :: rest, _ => app t <$> expand rest values
  | Segment segParam _ :: rest, v :: values' =>
    if decide (v ≠ [] ∧ forallb not_slash v = true) then app v <$> expand rest values' else None
  | [Segment segWildcard _], [v] => if decide (v ≠ []) then Some v else None
  | _, _ => None
  end.

Lemma not_slash_forallb v : forallb not_slash v = true ↔ Forall (λ c, not_slash c = true) v.
Proof. by rewrite forallb_forall, Forall_forall; setoid_rewrite list_elem_of_In. Qed.

(** A maximal run of bytes other than a slash, followed by a slash or by nothing. *)
Lemma run_length_segment v path :
  v ≠ [] → forallb not_slash v = true → path = [] ∨ head path = Some "/"%char →
  run_length not_slash (v ++ path) = length v.
Proof.
  intros _ Hv Hp. apply run_length_app; [by apply not_slash_forallb|].
  intros c Hc. apply not_slash_false. destruct Hp as [->|Hp]; [done|congruence].
Qed.

Lemma expand_head segs used values path :
  wf_segs segs used = true → expand segs values = Some path →
  path = [] ∨ head path = Some "/"%char.
Proof.
  intros Hwf. destruct segs as [|[[] t] rest]; cbn.
  - destruct values; [|done]. intros [= <-]. by left.
  - intros (r & _ & ->)%fmap_Some. right.
    assert (static_ok t = true) as Hst.
    { destruct rest as [|[[] n] [|]]; cbn in Hwf; to_prop; done. }
    apply static_ok_spec in Hst as [Hh _]. by destruct t.
  - done.
  - by destruct rest, used.
Qed.

Lemma tmatch_param x ts v path :
  v ≠ [] → forallb not_slash v = true → path = [] ∨ head path = Some "/"%char →
  tmatch (TPar x :: ts) (v ++ path) = cons (x, v) <$> tmatch ts path.
Proof.
  intros Hne Hv Hp. cbn. rewrite run_length_segment by done.
  rewrite decide_True by (by destruct v; [|cbn; lia]).
  by rewrite take_app_length, drop_app_length.
Qed.

Lemma tmatch_static t segs path :
  tmatch (toks (Segment segStatic t :: segs)) path =
  if decide (take (length t) path = t) then tmatch (toks segs) (drop (length t) path) else None.
Proof. rewrite toks_cons. apply tmatch_lits. Qed.

(** The pieces of a well-formed pattern: a literal, or a literal and a
    parameter before the rest, or a literal and the final wildcard. *)
Lemma wf_segs_cases segs used :
  wf_segs segs used = true →
  segs = [] ∨ (∃ t, segs = [Segment segStatic t]) ∨
  (∃ t n, segs = [Segment segStatic t; Segment segWildcard n]) ∨
  (∃ t n rest, segs = Segment segStatic t :: Segment segParam n :: rest ∧
               wf_segs rest (used ++ [n]) = true).
Proof.
  destruct segs as [|[[] t] [|[[] n] rest]]; cbn; try done; eauto 6.
  - intros Hwf. to_prop. eauto 9.
  - destruct rest; [|done]. eauto 6.
Qed.

Lemma match_expand segs : ∀ used values path,
  wf_segs segs used = true → expand segs values = Some path →
  tmatch (toks segs) path = Some (zip (seg_names segs) values).
Proof.
  induction segs as [segs IH] using (induction_ltof1 _ length). intros used values path Hwf.
  destruct (wf_segs_cases _ _ Hwf) as [->|[[t ->]|[(t & n & ->)|(t & n & rest & -> & Hr)]]].
  - destruct values; [|done]. by intros [= <-].
  - cbn [expand]. intros (r & Hr & ->)%fmap_Some. destruct values; [|done]. injection Hr as <-.
    by rewrite tmatch_static, take_app_length, decide_True, drop_app_length.
  - cbn [expand]. intros (r & Hr & ->)%fmap_Some. destruct values as [|v []]; try done.
    case_decide as Hv; [|done]. injection Hr as <-.
    rewrite tmatch_static, take_app_length, decide_True, drop_app_length by done. by destruct v.
  - cbn [expand]. intros (r & Hx & ->)%fmap_Some. destruct values as [|v values]; [done|].
    case_decide as Hv; [|done]. destruct Hv as [Hne Hv].
    apply fmap_Some in Hx as (p & Hp & ->).
    rewrite tmatch_static, take_app_length, decide_True, drop_app_length by done.
    rewrite toks_cons. change (seg_toks (Segment segParam n) ++ toks rest) with (TPar n :: toks rest).
    rewrite tmatch_param by (done || by eapply expand_head).
    by rewrite (IH rest ltac:(unfold ltof; cbn; lia) _ _ _ Hr Hp).
Qed.

Lemma take_eq_drop {A} (l path : list A) :
  take (length l) path = l → l ++ drop (length l) path = path.
Proof. intros Hl. rewrite <-Hl at 1. apply take_drop. Qed.

Lemma expand_match segs : ∀ used path caps,
  wf_segs segs used = true → tmatch (toks segs) path = Some caps →
  caps.*1 = seg_names segs ∧ expand segs caps.*2 = Some path.
Proof.
  induction segs as [segs IH] using (induction_ltof1 _ length). intros used path caps Hwf.
  destruct (wf_segs_cases _ _ Hwf) as [->|[[t ->]|[(t & n & ->)|(t & n & rest & -> & Hr)]]].
  - destruct path; [|done]. by intros [= <-].
  - rewrite tmatch_static. case_decide as Ht; [|done]. cbn.
    destruct (drop (length t) path) eqn:E; [|done]. intros [= <-]. split; [done|].
    apply take_eq_drop in Ht. rewrite E in Ht. cbn. by rewrite Ht.
  - rewrite tmatch_static. case_decide as Ht; [|done]. cbn.
    destruct (drop (length t) path) as [|b q] eqn:E; [done|]. intros [= <-]. split; [done|].
    apply take_eq_drop in Ht. rewrite E in Ht. cbn [expand fmap list_fmap snd].
    rewrite decide_True by done. cbn. by rewrite Ht.
  - rewrite tmatch_static. case_decide as Ht; [|done].
    set (path' := drop (length t) path).
    rewrite toks_cons. change (seg_toks (Segment segParam n) ++ toks rest) with (TPar n :: toks rest).
    cbn [tmatch]. set (i := run_length not_slash path').
    case_decide as Hi; [|done]. intros (caps' & Hc & ->)%fmap_Some.
    destruct (IH rest ltac:(unfold ltof; cbn; lia) _ _ _ Hr Hc) as [Hn He].
    pose proof (run_length_take not_slash path') as Hrun. fold i in Hrun.
    pose proof (run_length_le not_slash path') as Hle. fold i in Hle.
    split; [cbn; by rewrite Hn|]. cbn [expand fmap list_fmap fst snd]. rewrite decide_True, He.
    + apply take_eq_drop in Ht. fold path' in Ht. cbn [fmap option_fmap option_map].
      by rewrite take_drop, Ht.
    + split; [|by apply not_slash_forallb]. intros E. apply (f_equal length) in E.
      rewrite length_take in E. cbn in E. lia.
Qed.

Arguments Tree H : clear implicits.
Arguments table H : clear implicits.

(** ** Properties *)

Section properties.
Context {H : Type} `{GoZero H} `{AppendGrowth}.

(** Registering a sequence of routes, collecting what each call returns. *)
Fixpoint Insert_all (r : Tree H) (regs : list (bytes * H)) : Tree H * list (option route_error) :=
  match regs with
  | [] => (r, [])
  | (p, h) :: regs' =>
    let '(r', e) := Insert r p h in
    let '(r'', es) := Insert_all r' regs' in (r'', e :: es)
  end.

Fixpoint table_insert_all (log : table H) (regs : list (bytes * H))
    : table H * list (option route_error) :=
  match regs with
  | [] => (log, [])
  | (p, h) :: regs' =>
    let '(log', e) := table_insert log p h in
    let '(log'', es) := table_insert_all log' regs' in (log'', e :: es)
  end.

Lemma Insert_all_table r log regs :
  represents r log →
  (Insert_all r regs).2 = (table_insert_all log regs).2 ∧
  represents (Insert_all r regs).1 (table_insert_all log regs).1.
Proof.
  revert r log. induction regs as [|[p h] regs IH]; intros r log Hrep; cbn; [done|].
  pose proof (Insert_table r log p h Hrep) as [He Hr].
  destruct (Insert r p h) as [r' e], (table_insert log p h) as [log' e']. cbn in He, Hr.
  specialize (IH r' log' Hr) as [Hes Hr'].
  destruct (Insert_all r' regs), (table_insert_all log' regs). cbn in *. by subst.
Qed.

(** C2. The router implements the routing table: starting from the zero value,
    every sequence of registrations gets from [Insert] exactly the answers the
    table gives (accepted, malformed, duplicate, or which name clashes with
    which), and the tree ends up holding exactly the accepted routes, their
    number and their largest parameter count. *)
Theorem Insert_refines_table (regs : list (bytes * H)) :
  (Insert_all newTree regs).2 = (table_insert_all [] regs).2 ∧
  represents (Insert_all newTree regs).1 (table_insert_all [] regs).1.
Proof. apply Insert_all_table, newTree_represents. Qed.

(** C3. Lookup finds the winner: it returns the handler of the registered
    pattern that matches the path and beats every other match by static before
    parameter before wildcard at the first difference, appends exactly that
    pattern's captures, and reports a miss, leaving the captures as they were,
    exactly when no registered pattern matches. *)
Theorem Lookup_table r (log : table H) path params
    (Hrep : represents r log) (Hpath : path ≠ []) (Hp : params_ok params) :
  (Lookup r path params).1 = (λ x, x.1.2) <$> table_lookup log path ∧
  captures (Lookup r path params).2 =
    captures params ++ from_option snd [] (table_lookup log path) ∧
  params_ok (Lookup r path params).2.
Proof.
  pose proof (lookup_found (t r) path params (rep_wf _ _ Hrep) Hpath Hp) as Hf.
  destruct (found_table r log path params _ Hrep Hf) as [Hh Hc].
  split_and!; [done|done|apply Hf].
Qed.

(** C5. Registration order does not matter: two routers holding the same routes
    answer every lookup alike, however each was built up. *)
Theorem Lookup_order_independent r1 r2 (log1 log2 : table H) path params
    (Hr1 : represents r1 log1) (Hr2 : represents r2 log2)
    (Hperm : Permutation log1 log2) (Hpath : path ≠ []) (Hp : params_ok params) :
  (Lookup r1 path params).1 = (Lookup r2 path params).1 ∧
  captures (Lookup r1 path params).2 = captures (Lookup r2 path params).2.
Proof.
  pose proof (lookup_found (t r1) path params (rep_wf _ _ Hr1) Hpath Hp) as Hf1.
  pose proof (lookup_found (t r2) path params (rep_wf _ _ Hr2) Hpath Hp) as Hf2.
  eapply found_unique; [|exact Hf1|exact Hf2]. intros ts.
  apply option_eq. intros h. rewrite (rep_get _ _ Hr1), (rep_get _ _ Hr2).
  unfold entry. by setoid_rewrite Hperm.
Qed.

(** Parameter storage made with room for [MaxParams] captures never grows:
    whatever a lookup tries on the way, the backing array stays the one the
    pooled context came with, and a match captures at most [MaxParams]. *)
Theorem Lookup_keeps_capacity r (log : table H) path params
    (Hrep : represents r log) (Hpath : path ≠ []) (Hp : params_ok params)
    (Hroom : Params.Len params + MaxParams r <= Cap params) :
  Cap (Lookup r path params).2 = Cap params ∧
  Params.Len (Lookup r path params).2 <= Params.Len params + MaxParams r.
Proof.
  assert (∀ ts, tree_get (t r) ts ≠ None → tok_params ts <= MaxParams r) as Hneeds.
  { intros ts Hts. destruct (tree_get (t r) ts) as [h|] eqn:E; [|done].
    apply (rep_get _ _ Hrep) in E as (p & segs & Hin & Hps & <-).
    unfold MaxParams. rewrite (rep_params _ _ Hrep). by eapply table_params_max. }
  pose proof (lookup_found (t r) path params (rep_wf _ _ Hrep) Hpath Hp) as [Hok Hf].
  unfold Lookup in *. split.
  - unfold lookup. pose proof (rep_wf _ _ Hrep) as Hwf. unfold wf_tree, tree_get in *.
    destruct (root (t r)) as [n|]; [|done].
    by apply (lookup_node_keeps (length path) n path params (MaxParams r)); auto.
  - rewrite <-!length_captures by done.
    destruct (lookup (t r) path params) as [[h|] ps]; cbn [fst snd] in *.
    + destruct Hf as (ts & caps & (Hg & Hm & _) & ->). rewrite length_app.
      rewrite (tok_params_captures _ _ _ Hm). specialize (Hneeds ts). rewrite Hg in Hneeds.
      specialize (Hneeds ltac:(done)). lia.
    + destruct Hf as [-> _]. lia.
Qed.
End properties.

Section reverse.
Context {H : Type} `{GoZero H} `{AppendGrowth}.

(** A registered route stands for a path: its pattern with the values filled in. *)
Definition stands_for (log : list (bytes * H)) (pattern : bytes) (h : H) (names values : list bytes) (path : bytes) : Prop :=
  ∃ segs, (pattern, h) ∈ log ∧ parsePattern pattern = Ok segs ∧ names = seg_names segs ∧
    expand segs values = Some path.

Lemma entry_stands_for (log : list (bytes * H)) ts h path caps : entry log ts h → tmatch ts path = Some caps →
  ∃ pattern, stands_for log pattern h caps.*1 caps.*2 path.
Proof.
  intros (pattern & segs & Hin & Hp & <-) Hm. pose proof Hp as (_ & _ & Hwf & _)%parsePattern_sound.
  destruct (expand_match _ _ _ _ Hwf Hm) as [Hn He]. by exists pattern, segs.
Qed.

Lemma stands_for_match (log : list (bytes * H)) pattern h names values path :
  stands_for log pattern h names values path →
  ∃ ts, entry log ts h ∧ tmatch ts path = Some (zip names values).
Proof.
  intros (segs & Hin & Hp & -> & He). pose proof Hp as (_ & _ & Hwf & _)%parsePattern_sound.
  exists (toks segs). split; [by exists pattern, segs|]. by eapply match_expand.
Qed.

(** C6. Reverse routing and lookup are inverse. Whatever Lookup finds is the handler of
    a registered pattern that, filled in with the values captured, is the path; and it
    misses exactly when no registered pattern can be filled in to the path. A path made
    by filling in one pattern, and by no other, is found with that pattern's handler
    and captures exactly the values filled in, under its names. *)
Theorem Lookup_inverts_expand r (log : table H) path params
    (Hrep : represents r log) (Hpath : path ≠ []) (Hp : params_ok params) :
  let '(o, params') := Lookup r path params in
  match o with
  | Some h => ∃ pattern caps, stands_for log pattern h caps.*1 caps.*2 path ∧ captures params' = captures params ++ caps
  | None => captures params' = captures params ∧ ∀ pattern h names values, ¬ stands_for log pattern h names values path
  end ∧
  ∀ pattern h names values, stands_for log pattern h names values path →
    (∀ pattern' h' names' values', stands_for log pattern' h' names' values' path → pattern' = pattern) →
    o = Some h ∧ captures params' = captures params ++ zip names values.
Proof.
  pose proof (lookup_found (t r) path params (rep_wf _ _ Hrep) Hpath Hp) as Hf.
  destruct (found_table r log path params _ Hrep Hf) as [Hh Hc]. unfold Lookup.
  destruct (lookup (t r) path params) as [o params']. cbn [fst snd] in Hh, Hc. clear Hf.
  destruct (table_lookup log path) as [[[ts h] caps]|] eqn:El; cbn in Hh, Hc; subst o.
  - apply table_lookup_Some in El as [He Hm]. destruct (entry_stands_for log ts h path caps He Hm) as [pattern Hs].
    split; [by exists pattern, caps|]. intros pattern' h' names values Hs' Huniq.
    pose proof (Huniq _ _ _ _ Hs) as ->. destruct Hs as (segs & Hin & Hps & Hn & Hx).
    destruct Hs' as (segs' & Hin' & Hps' & -> & Hx'). rewrite Hps in Hps'. injection Hps' as <-.
    pose proof Hps as (_ & _ & Hwf & _)%parsePattern_sound.
    pose proof (match_expand _ _ _ _ Hwf Hx) as Hm1. rewrite (match_expand _ _ _ _ Hwf Hx') in Hm1.
    injection Hm1 as Hz. rewrite Hc, Hz, <-Hn. split.
    + f_equal. pose proof (rep_nodup _ _ Hrep) as Hnd.
      apply list_elem_of_lookup in Hin as [i Hi]. apply list_elem_of_lookup in Hin' as [j Hj].
      assert (log.*1 !! i = Some pattern') as Hi1 by (by rewrite list_lookup_fmap, Hi).
      assert (log.*1 !! j = Some pattern') as Hj1 by (by rewrite list_lookup_fmap, Hj).
      pose proof (NoDup_lookup _ _ _ _ Hnd Hi1 Hj1) as ->. congruence.
    + f_equal. clear. induction caps as [|[x v] caps IH]; cbn; [done|]. by rewrite <-IH.
  - rewrite app_nil_r in Hc.
    assert (∀ pattern h names values, ¬ stands_for log pattern h names values path) as Hno.
    { intros pattern h names values (ts & He & Hm)%stands_for_match.
      rewrite table_lookup_None in El. by rewrite (El ts h He) in Hm. }
    split; [done|]. intros pattern h names values Hs. by destruct (Hno _ _ _ _ Hs).
Qed.
End reverse.

(** Witnesses: a small API, registered in two orders. *)
Definition sample_routes : list (bytes * nat) :=
  [(bs "/", 0); (bs "/users/:id", 1); (bs "/users/me", 2); (bs "/files/*path", 3);
   (bs "/users/:id/repos/:repo", 4)].

Definition sample_router : Tree nat := (@Insert_all nat _ newTree sample_routes).1.
Definition sample_reversed : Tree nat := (@Insert_all nat _ newTree (rev sample_routes)).1.

Lemma sample_represents : represents sample_router sample_routes.
Proof.
  pose proof (proj2 (Insert_all_table newTree [] sample_routes newTree_represents)) as Hr.
  vm_compute (table_insert_all _ _).1 in Hr. exact Hr.
Qed.

Lemma sample_reversed_represents : represents sample_reversed (rev sample_routes).
Proof.
  pose proof (proj2 (Insert_all_table newTree [] (rev sample_routes) newTree_represents)) as Hr.
  vm_compute (table_insert_all _ _).1 in Hr. exact Hr.
Qed.

Lemma Lookup_table_witness :
  (@Lookup nat two_room sample_router (bs "/users/42/repos/rice") (MakeParams 2)).1 = Some 4 ∧
  captures (@Lookup nat two_room sample_router (bs "/users/42/repos/rice") (MakeParams 2)).2 =
    [(bs "id", bs "42"); (bs "repo", bs "rice")].
Proof.
  destruct (@Lookup_table nat two_room sample_router sample_routes
              (bs "/users/42/repos/rice") (MakeParams 2)) as (Hh & Hc & _).
  - apply sample_represents.
  - discriminate.
  - apply MakeParams_ok.
  - rewrite Hh, Hc. split; vm_compute; reflexivity.
Defined.

Lemma Lookup_order_independent_witness :
  (@Lookup nat two_room sample_router (bs "/users/me") (MakeParams 2)).1 =
  (@Lookup nat two_room sample_reversed (bs "/users/me") (MakeParams 2)).1.
Proof.
  apply (@Lookup_order_independent nat two_room sample_router sample_reversed
           sample_routes (rev sample_routes) (bs "/users/me") (MakeParams 2)).
  - apply sample_represents.
  - apply sample_reversed_represents.
  - apply Permutation_rev.
  - discriminate.
  - apply MakeParams_ok.
Defined.

Lemma Lookup_keeps_capacity_witness :
  Cap (@Lookup nat two_room sample_router (bs "/users/42/stars") (MakeParams 2)).2 = 2.
Proof.
  destruct (@Lookup_keeps_capacity nat two_room sample_router sample_routes
              (bs "/users/42/stars") (MakeParams 2)) as [Hcap _].
  - apply sample_represents.
  - discriminate.
  - apply MakeParams_ok.
  - vm_compute. lia.
  - exact Hcap.
Defined.

Lemma Lookup_inverts_expand_witness :
  (@Lookup nat two_room sample_router (bs "/files/a/b") (MakeParams 2)).1 = Some 3 ∧
  captures (@Lookup nat two_room sample_router (bs "/files/a/b") (MakeParams 2)).2 = [(bs "path", bs "a/b")].
Proof.
  pose proof (@Lookup_inverts_expand nat two_room sample_router sample_routes (bs "/files/a/b") (MakeParams 2)
    sample_represents ltac:(discriminate) (proj1 (MakeParams_ok 2))) as Hl.
  destruct (Lookup sample_router (bs "/files/a/b") (MakeParams 2)) as [o ps]. destruct Hl as [_ Hl].
  refine (Hl (bs "/files/*path") 3 [bs "path"] [bs "a/b"] _ _).
  - exists [Segment segStatic (bs "/files/"); Segment segWildcard (bs "path")].
    split; [right; right; right; left|repeat split].
  - intros pattern h names values (segs & Hin & Hps & _ & Hx).
    pose proof Hps as (_ & _ & Hwf & _)%parsePattern_sound.
    apply (match_expand segs [] values _ Hwf) in Hx. clear Hwf.
    repeat (apply elem_of_cons in Hin as [Hin|Hin]); [..|by apply elem_of_nil in Hin]; injection Hin as -> ->;
      try reflexivity; vm_compute in Hps; injection Hps as <-; discriminate Hx.
Defined.
