(* ===== verification/Accept.v ===== *)
(** * Content negotiation

    [src/ctx_accept.go]: the parsing of Accept lines, qualities in thousandths,
    the choice of an offer and the Vary header that goes with it. The header
    lines are what [fasthttp] hands over, a list of byte strings. *)

From S2P Require Import Prelude Bytes.

Definition isStar (b : bytes) : bool := bool_decide (b = bs "*").

Definition trimOWS (b : bytes) : bytes := trim isOWS b.

(** ASCII case folding, one byte. *)
Definition fold_ascii (c : ascii) : ascii := if is_upper c then byte_of (code c + 32) else c.

Fixpoint fold_eq (b s : bytes) : bool :=
  match b, s with
  | [], [] => true
  | x :: b', y :: s' => bool_decide (fold_ascii x = fold_ascii y) && fold_eq b' s'
  | _, _ => false
  end.

Definition equalFoldASCII (b s : bytes) : bool :=
  bool_decide (length b = length s) && fold_eq b s.

Definition is_media_char (c : ascii) : bool :=
  is_alnum c || match index_byte c (bs "!#$%&'+-.^_`|~") with Some _ => true | None => false end.

Definition isMediaToken (s : bytes) : bool :=
  negb (bool_decide (s = [])) && forallb is_media_char s.

(** The two panics of [splitOffer], with the offer their message quotes. *)
Inductive offer_panic : Type :=
| OfferWildcard (offer : bytes)
| OfferNotMediaType (offer : bytes).

Definition splitOffer (offer : bytes) : outcome offer_panic (bytes * bytes) :=
  let mt := match index_byte ";" offer with Some i => take i offer | None => offer end in
  let mt := trimOWS mt in
  let '(typ, sub) := match index_byte "/" mt with
                     | Some i => (take i mt, drop (S i) mt)
                     | None => ([], [])
                     end in
  if isStar typ || isStar sub then Panic (OfferWildcard offer)
  else if negb (isMediaToken typ) || negb (isMediaToken sub) then Panic (OfferNotMediaType offer)
  else Ret (typ, sub).

(** The loop of [nextItem] from one position on: what is left of the item, and
    the rest after the separator. *)
Fixpoint nextItem_loop (sep : ascii) (quoted : bool) (s : bytes) : bytes * bytes :=
  match s with
  | [] => ([], [])
  | c :: s' =>
    if quoted && bool_decide (c = "\"%char) then
      match s' with
      | [] => ([c], [])
      | d :: s'' => let '(item, rest) := nextItem_loop sep quoted s'' in (c :: d :: item, rest)
      end
    else if bool_decide (c = "034"%char) then
      let '(item, rest) := nextItem_loop sep (negb quoted) s' in (c :: item, rest)
    else if negb quoted && bool_decide (c = sep) then ([], s')
    else let '(item, rest) := nextItem_loop sep quoted s' in (c :: item, rest)
  end.

Definition nextItem (s : bytes) (sep : ascii) : bytes * bytes := nextItem_loop sep false s.

(** [for rest := s; len(rest) > 0; { item, rest = nextItem(rest, sep); ... }]:
    the items in order. A call on a non-empty string leaves a shorter rest, so
    [length s] rounds are enough. *)
Fixpoint items_loop (fuel : nat) (sep : ascii) (s : bytes) : list bytes :=
  match fuel, s with
  | S fuel', _ :: _ => let '(item, rest) := nextItem s sep in item :: items_loop fuel' sep rest
  | _, _ => []
  end.

Definition items (sep : ascii) (s : bytes) : list bytes := items_loop (length s) sep s.

(** [parseFraction] from the weight [mul] on. *)
Fixpoint parseFraction_loop (d : bytes) (q mul : Z) : option Z :=
  match d with
  | [] => Some q
  | c :: d' =>
    if is_digit c then parseFraction_loop d' (q + (code c - code "0") * mul) (Z.quot mul 10)
    else None
  end.

Definition parseFraction (d : bytes) : option Z := parseFraction_loop d 0 100.

(** [parseQ], with [None] for an invalid qvalue. *)
Definition parseQ (b : bytes) : option Z :=
  match b with
  | [] => None
  | c :: b' =>
    if decide (5 < length b) then None
    else if bool_decide (c = "."%char) then
      if bool_decide (length b = 1) || bool_decide (4 < length b) then None
      else parseFraction b'
    else if bool_decide (1 < length b) && negb (bool_decide (head b' = Some "."%char)) then None
    else if bool_decide (c = "0"%char) then parseFraction (drop (Nat.min 2 (length b)) b)
    else if bool_decide (c = "1"%char) then
      if forallb (λ d, bool_decide (d = "0"%char)) (drop (Nat.min 2 (length b)) b)
      then Some 1000%Z else None
    else None
  end.

(** The parameter loop of [matchRange]: [None] when some q is not a qvalue. *)
Fixpoint range_q (params : list bytes) (q : Z) : option Z :=
  match params with
  | [] => Some q
  | p :: params' =>
    match index_byte "=" p with
    | None => range_q params' q
    | Some eq =>
      let name := trimOWS (take eq p) in
      if bool_decide (name = bs "q") || bool_decide (name = bs "Q") then
        match parseQ (trimOWS (drop (S eq) p)) with
        | None => None
        | Some v => range_q params' v
        end
      else range_q params' q
    end
  end.

(** How specifically a media range names [typ/sub]: 3, 2, 1, or no match. *)
Definition range_spec (rt rs typ sub : bytes) : option nat :=
  if isStar rt && isStar rs then Some 1
  else if isStar rt then None
  else if negb (equalFoldASCII rt typ) then None
  else if isStar rs then Some 2
  else if equalFoldASCII rs sub then Some 3
  else None.

(** [matchRange]: quality and specificity. *)
Definition matchRange (elem typ sub : bytes) : option (Z * nat) :=
  let '(r, params) := nextItem elem ";" in
  let r := trimOWS r in
  match index_byte "/" r with
  | None => None
  | Some i =>
    if bool_decide (i = 0) || bool_decide (i = length r - 1) then None
    else
      spec ← range_spec (take i r) (drop (S i) r) typ sub;
      q ← range_q (items ";" params) 1000;
      Some (q, spec)
  end.

(** The two loops of [offerQuality]: [inl] is the early return. *)
Fixpoint quality_items (elems : list bytes) (typ sub : bytes) (q : Z) (spec : nat)
    : Z + Z * nat :=
  match elems with
  | [] => inr (q, spec)
  | elem :: elems' =>
    match matchRange elem typ sub with
    | Some (eq, es) =>
      if decide (spec < es) then
        if decide (es = 3) then inl eq else quality_items elems' typ sub eq es
      else quality_items elems' typ sub q spec
    | None => quality_items elems' typ sub q spec
    end
  end.

Fixpoint quality_lines (accepts : list bytes) (typ sub : bytes) (q : Z) (spec : nat) : Z :=
  match accepts with
  | [] => q
  | line :: accepts' =>
    match quality_items (items "," line) typ sub q spec with
    | inl eq => eq
    | inr (q', spec') => quality_lines accepts' typ sub q' spec'
    end
  end.

Definition offerQuality (accepts : list bytes) (typ sub : bytes) : Z :=
  quality_lines accepts typ sub 0 0.

(** The first loop of [negotiate]. *)
Definition accept_present (accepts : list bytes) : bool :=
  existsb (λ line, negb (bool_decide (trimOWS line = []))) accepts.

Fixpoint negotiate_loop (present : bool) (accepts : list bytes) (i : nat) (offers : list bytes)
    (best : bytes) (bestQ : Z) : outcome offer_panic bytes :=
  match offers with
  | [] => Ret best
  | offer :: offers' =>
    match splitOffer offer with
    | Panic p => Panic p
    | Ret (typ, sub) =>
      if negb present then
        negotiate_loop present accepts (S i) offers' (if decide (i = 0) then offer else best) bestQ
      else if (bestQ =? 1000)%Z then negotiate_loop present accepts (S i) offers' best bestQ
      else
        let q := offerQuality accepts typ sub in
        if (bestQ <? q)%Z then negotiate_loop present accepts (S i) offers' offer q
        else negotiate_loop present accepts (S i) offers' best bestQ
    end
  end.

Definition negotiate (accepts offers : list bytes) : outcome offer_panic bytes :=
  negotiate_loop (accept_present accepts) accepts 0 offers [] 0.

(** [addVaryAccept] on the response's Vary lines. *)
Definition lists_accept (line : bytes) : bool :=
  existsb (λ tok, isStar (trimOWS tok) || equalFoldASCII (trimOWS tok) (bs "Accept"))
    (items "," line).

Definition addVaryAccept (vary : list bytes) : list bytes :=
  if existsb lists_accept vary then vary else vary ++ [bs "Accept"].

Definition Accepts (accepts vary offers : list bytes) : outcome offer_panic (bytes * list bytes) :=
  match negotiate accepts offers with
  | Panic p => Panic p
  | Ret best => Ret (best, addVaryAccept vary)
  end.

(** ** Items *)

Lemma nextItem_loop_length sep k : ∀ quoted s,
  length s <= k → length (nextItem_loop sep quoted s).2 <= pred (length s).
Proof.
  induction k as [|k IH]; intros quoted [|c s] Hk; cbn in Hk; try lia; [cbn; lia..|]. cbn.
  assert (∀ q, length (nextItem_loop sep q s).2 <= length s) as Hrec.
  { intros q. pose proof (IH q s ltac:(lia)). lia. }
  case_match.
  - destruct s as [|d s]; cbn; [lia|]. pose proof (IH quoted s ltac:(cbn in *; lia)).
    destruct (nextItem_loop sep quoted s). cbn in *. lia.
  - case_match; [|case_match; [cbn; lia|]].
    + specialize (Hrec (negb quoted)). by destruct (nextItem_loop sep (negb quoted) s).
    + specialize (Hrec quoted). by destruct (nextItem_loop sep quoted s).
Qed.

Lemma nextItem_shorter s sep : s ≠ [] → length (nextItem s sep).2 < length s.
Proof.
  intros Hs. pose proof (nextItem_loop_length sep (length s) false s ltac:(lia)).
  unfold nextItem. destruct s; [done|]. cbn in *. lia.
Qed.

Lemma items_loop_fuel sep fuel : ∀ fuel' s,
  length s <= fuel → length s <= fuel' → items_loop fuel sep s = items_loop fuel' sep s.
Proof.
  induction fuel as [|fuel IH]; intros [|fuel'] [|c s] Hf Hf'; cbn in Hf, Hf'; try lia; try done.
  cbn [items_loop]. pose proof (nextItem_shorter (c :: s) sep) as Hs.
  destruct (nextItem (c :: s) sep) as [item rest]. cbn in Hs. specialize (Hs ltac:(done)).
  f_equal. apply IH; lia.
Qed.

(** The loop over the items, without fuel. *)
Lemma items_unfold sep s :
  items sep s = match s with
                | [] => []
                | _ => (nextItem s sep).1 :: items sep (nextItem s sep).2
                end.
Proof.
  destruct s as [|c s]; [done|]. unfold items at 1. cbn [length items_loop].
  pose proof (nextItem_shorter (c :: s) sep ltac:(done)) as Hs. cbn [length] in Hs.
  destruct (nextItem (c :: s) sep) as [item rest]. cbn [fst snd] in *.
  f_equal. apply items_loop_fuel; lia.
Qed.

(** ** Qualities *)

Lemma code_digit c : is_digit c = true → (0 <= code c - code "0" <= 9)%Z.
Proof. unfold is_digit. rewrite between_spec. change (code "0") with 48%Z. change (code "9") with 57%Z. lia. Qed.

Lemma parseFraction_loop_range d : ∀ q mul v,
  (0 <= mul)%Z → length d <= 3 → parseFraction_loop d q mul = Some v →
  (q <= v <= q + 9 * (mul + Z.quot mul 10 + Z.quot (Z.quot mul 10) 10))%Z.
Proof.
  assert (∀ m, 0 <= m → 0 <= Z.quot m 10)%Z as Hq by (intros; apply Z.quot_pos; lia).
  intros q mul v Hm Hl. pose proof (Hq _ Hm) as Hm1. pose proof (Hq _ Hm1) as Hm2.
  destruct d as [|a [|b [|c [|]]]]; cbn in Hl |- *; try lia;
    repeat (case_match; [|done]); intros [= <-];
    repeat match goal with H : is_digit _ = true |- _ => apply code_digit in H end; nia.
Qed.

Lemma parseFraction_range d v :
  length d <= 3 → parseFraction d = Some v → (0 <= v <= 999)%Z.
Proof.
  intros Hl Hv. apply (parseFraction_loop_range d 0 100 v) in Hv; [|lia|done].
  change (Z.quot 100 10) with 10%Z in Hv. change (Z.quot 10 10) with 1%Z in Hv. lia.
Qed.

Lemma parseQ_range b v : parseQ b = Some v → (0 <= v <= 1000)%Z.
Proof.
  unfold parseQ. destruct b as [|c b]; [done|]. case_decide as Hlen; [done|].
  cbn [length] in *. case_bool_decide as Hdot.
  - case_match eqn:Hl; [done|]. to_prop. intros Hv. apply parseFraction_range in Hv; lia.
  - destruct (bool_decide (1 < _) && _); [done|].
    destruct (bool_decide (c = "0"%char)); [|destruct (bool_decide (c = "1"%char)); [|done]].
    + intros Hv. apply parseFraction_range in Hv; [lia|]. rewrite length_drop. cbn [length]. lia.
    + case_match; [|done]. intros [= <-]. lia.
Qed.

Lemma range_q_range params : ∀ q v,
  (0 <= q <= 1000)%Z → range_q params q = Some v → (0 <= v <= 1000)%Z.
Proof.
  induction params as [|p params IH]; intros q v Hq; cbn; [by intros [= <-]|].
  destruct (index_byte "=" p) as [eq|]; [|by apply IH]. case_match; [|by apply IH].
  destruct (parseQ _) as [w|] eqn:E; [|done]. apply IH. by eapply parseQ_range.
Qed.

Lemma matchRange_range elem typ sub q spec :
  matchRange elem typ sub = Some (q, spec) → (0 <= q <= 1000)%Z ∧ 1 <= spec <= 3.
Proof.
  unfold matchRange. destruct (nextItem elem ";") as [r params].
  destruct (index_byte "/" _) as [i|]; [|done]. case_match; [done|].
  intros (s & Hs & (w & Hw & [= <- <-])%bind_Some)%bind_Some. split.
  - eapply range_q_range, Hw. lia.
  - unfold range_spec in Hs. repeat (case_match; simplify_eq); lia.
Qed.

(** ** The quality of an offer *)

(** The ranges of the request that match an offer, in the order they are sent. *)
Definition matching (accepts : list bytes) (typ sub : bytes) : list (Z * nat) :=
  omap (λ elem, matchRange elem typ sub) (concat (map (items ",") accepts)).

(** The first of a given specificity. *)
Fixpoint first_spec (k : nat) (rs : list (Z * nat)) : option Z :=
  match rs with
  | [] => None
  | (q, s) :: rs' => if decide (s = k) then Some q else first_spec k rs'
  end.

(** RFC 9110: the most specific range decides, the first of equals. *)
Definition quality_ref (rs : list (Z * nat)) : Z :=
  match first_spec 3 rs, first_spec 2 rs, first_spec 1 rs with
  | Some q, _, _ => q
  | None, Some q, _ => q
  | None, None, Some q => q
  | None, None, None => 0
  end.

Definition finish (r : Z + Z * nat) : Z := match r with inl q => q | inr (q, _) => q end.

Lemma quality_items_app l1 l2 typ sub q spec :
  quality_items (l1 ++ l2) typ sub q spec =
  match quality_items l1 typ sub q spec with
  | inl q => inl q
  | inr (q, spec) => quality_items l2 typ sub q spec
  end.
Proof.
  revert q spec. induction l1 as [|e l1 IH]; intros q spec; cbn; [done|].
  destruct (matchRange e typ sub) as [[]|]; [|apply IH].
  repeat case_decide; try done; apply IH.
Qed.

Lemma quality_lines_items accepts typ sub q spec :
  quality_lines accepts typ sub q spec =
  finish (quality_items (concat (map (items ",") accepts)) typ sub q spec).
Proof.
  revert q spec. induction accepts as [|line accepts IH]; intros q spec; cbn; [done|].
  rewrite quality_items_app. destruct (quality_items (items "," line) typ sub q spec) as [|[]];
    [done | apply IH].
Qed.

(** The running maximum of [offerQuality]. *)
Lemma quality_items_ref elems typ sub : ∀ q spec, spec <= 2 →
  let rs := omap (λ elem, matchRange elem typ sub) elems in
  finish (quality_items elems typ sub q spec) =
  match first_spec 3 rs, first_spec 2 rs, first_spec 1 rs with
  | Some q3, _, _ => q3
  | None, Some q2, _ => if decide (spec < 2) then q2 else q
  | None, None, Some q1 => if decide (spec < 1) then q1 else q
  | None, None, None => q
  end.
Proof.
  induction elems as [|e elems IH]; intros q spec Hspec; cbn; [done|].
  destruct (matchRange e typ sub) as [[eq es]|] eqn:Em; [|by apply IH].
  apply matchRange_range in Em as [_ Hes]. cbn in IH |- *.
  destruct es as [|[|[|[|es]]]]; try lia; cbn;
    repeat case_decide; try lia; try done; rewrite IH by lia;
    repeat case_match; try done; try lia.
Qed.

Lemma offerQuality_range accepts typ sub : (0 <= offerQuality accepts typ sub <= 1000)%Z.
Proof.
  unfold offerQuality. rewrite quality_lines_items. generalize (concat (map (items ",") accepts)).
  intros l. assert (∀ q spec, 0 <= q <= 1000 → 0 <= finish (quality_items l typ sub q spec) <= 1000)%Z
    as Hl; [|by apply Hl].
  induction l as [|e l IH]; intros q spec Hq; cbn; [done|].
  destruct (matchRange e typ sub) as [[eq es]|] eqn:Em; [|by apply IH].
  apply matchRange_range in Em as [Heq _]. repeat case_decide; [done|by apply IH..].
Qed.

(** ** Choosing an offer *)

(** The first offer that is not a concrete media type, as [splitOffer] reports it. *)
Fixpoint bad_offer (offers : list bytes) : option offer_panic :=
  match offers with
  | [] => None
  | o :: offers' => match splitOffer o with Panic p => Some p | Ret _ => bad_offer offers' end
  end.

(** The quality the request gives an offer. *)
Definition quality (accepts : list bytes) (offer : bytes) : Z :=
  match splitOffer offer with
  | Ret (typ, sub) => quality_ref (matching accepts typ sub)
  | Panic _ => 0
  end.

(** [o] is the best of the offers: acceptable, better than every offer before it
    and at least as good as every offer after it. *)
Definition best_offer (quality : bytes → Z) (offers : list bytes) (o : bytes) : Prop :=
  ∃ l1 l2, offers = l1 ++ o :: l2 ∧ (0 < quality o)%Z ∧
    Forall (λ p, quality p < quality o)%Z l1 ∧ Forall (λ p, quality p <= quality o)%Z l2.

(** The offer the loop has settled on after [seen]. *)
Definition settled (quality : bytes → Z) (seen : list bytes) (best : bytes) (bestQ : Z) : Prop :=
  (best = [] ∧ bestQ = 0%Z ∧ Forall (λ p, quality p <= 0)%Z seen) ∨
  (best_offer quality seen best ∧ bestQ = quality best).

Lemma settled_better f seen best bestQ o :
  settled f seen best bestQ → (bestQ < f o)%Z → settled f (seen ++ [o]) o (f o).
Proof.
  intros [(-> & -> & Hs)|[(l1 & l2 & -> & Hpos & Hl1 & Hl2) ->]] Hlt; right; (split; [|done]).
  - exists seen, []. split_and!; [done|done| |constructor]. eapply Forall_impl; [done|]. cbn. lia.
  - exists (l1 ++ best :: l2), []. split_and!; [done|lia| |constructor].
    apply Forall_app. split; [|constructor; [done|]]; (eapply Forall_impl; [done|]); cbn; lia.
Qed.

Lemma settled_worse f seen best bestQ o :
  settled f seen best bestQ → (f o <= bestQ)%Z → settled f (seen ++ [o]) best bestQ.
Proof.
  intros [(-> & -> & Hs)|[(l1 & l2 & -> & Hpos & Hl1 & Hl2) ->]] Hle; [left|right].
  - split_and!; [done..|]. apply Forall_app. by rewrite Forall_singleton.
  - split; [|done]. exists l1, (l2 ++ [o]). rewrite <-app_assoc. split_and!; [done..|].
    apply Forall_app. by rewrite Forall_singleton.
Qed.

Lemma offerQuality_ref accepts typ sub :
  offerQuality accepts typ sub = quality_ref (matching accepts typ sub).
Proof.
  unfold offerQuality. rewrite quality_lines_items, quality_items_ref by lia.
  unfold quality_ref, matching. by repeat case_match.
Qed.

Lemma quality_le accepts o : (quality accepts o <= 1000)%Z.
Proof.
  unfold quality. destruct (splitOffer o) as [[typ sub]|]; [|lia].
  rewrite <-offerQuality_ref. apply offerQuality_range.
Qed.

Lemma negotiate_loop_present accepts offers : ∀ i seen best bestQ,
  settled (quality accepts) seen best bestQ → bad_offer offers = None →
  ∃ best' bestQ', negotiate_loop true accepts i offers best bestQ = Ret best' ∧
                  settled (quality accepts) (seen ++ offers) best' bestQ'.
Proof.
  induction offers as [|o offers IH]; intros i seen best bestQ Hs Hbad; cbn.
  { exists best, bestQ. by rewrite app_nil_r. }
  cbn in Hbad. destruct (splitOffer o) as [[typ sub]|] eqn:Eo; [|done]. cbn.
  assert (quality accepts o = offerQuality accepts typ sub) as Hq.
  { unfold quality. by rewrite Eo, offerQuality_ref. }
  rewrite (cons_middle o seen offers), app_assoc. pose proof (quality_le accepts o).
  case_match; [|case_match]; to_prop; apply IH; try done.
  - apply (settled_worse _ _ _ _ _ Hs). lia.
  - rewrite <-Hq. apply (settled_better _ _ _ _ _ Hs). lia.
  - apply (settled_worse _ _ _ _ _ Hs). lia.
Qed.

Lemma negotiate_loop_absent accepts offers : ∀ i best bestQ,
  bad_offer offers = None →
  negotiate_loop false accepts i offers best bestQ =
  Ret (if decide (i = 0) then default best (head offers) else best).
Proof.
  induction offers as [|o offers IH]; intros i best bestQ Hbad; cbn; [by case_decide|].
  cbn in Hbad. destruct (splitOffer o) as [[]|]; [|done]. cbn. rewrite IH by done. cbn.
  by case_decide.
Qed.

Lemma negotiate_loop_bad present accepts offers p : ∀ i best bestQ,
  bad_offer offers = Some p → negotiate_loop present accepts i offers best bestQ = Panic p.
Proof.
  induction offers as [|o offers IH]; intros i best bestQ; cbn; [done|].
  destruct (splitOffer o) as [[]|]; [|by intros [= ->]].
  intros Hb. repeat case_match; by apply IH.
Qed.

(** ** Vary *)

Lemma addVaryAccept_lists vary : existsb lists_accept (addVaryAccept vary) = true.
Proof.
  unfold addVaryAccept. destruct (existsb lists_accept vary) eqn:E; [done|].
  rewrite existsb_app. apply orb_true_intro. right. reflexivity.
Qed.

(** ** Properties *)

(** C14. [negotiate] returns the offer with the highest quality, the earlier of
    equals, or nothing when no offer is acceptable; without an Accept header it
    returns the first offer. Every offer is validated in every case, so a bad one
    panics, the first of them, even when the request never needed it. *)
Theorem negotiate_best accepts offers :
  match bad_offer offers with
  | Some p => negotiate accepts offers = Panic p
  | None =>
    if accept_present accepts then
      ∃ o, negotiate accepts offers = Ret o ∧
        ((o = [] ∧ Forall (λ p, quality accepts p <= 0)%Z offers) ∨
         best_offer (quality accepts) offers o)
    else negotiate accepts offers = Ret (default [] (head offers))
  end.
Proof.
  unfold negotiate. destruct (bad_offer offers) as [p|] eqn:Hbad.
  { by apply negotiate_loop_bad. }
  destruct (accept_present accepts); [|by apply negotiate_loop_absent].
  destruct (negotiate_loop_present accepts offers 0 [] [] 0) as (o & q & -> & Hs); [|done|].
  - left. split_and!; [done..|constructor].
  - exists o. split; [done|]. destruct Hs as [(? & _ & ?)|[? _]]; [by left | by right].
Qed.

(** The decimal writing of a quality in thousandths. *)
Definition render_q (q : Z) : bytes :=
  let digit k := byte_of (code "0" + Z.quot q k mod 10) in
  if (q =? 1000)%Z then bs "1.000" else bs "0." ++ [digit 100%Z; digit 10%Z; digit 1%Z].

(** Every quality from 0 to 1000 thousandths has a qvalue that [parseQ] reads
    back as itself, and whatever [parseQ] accepts is in that range. *)
Theorem parseQ_roundtrip :
  (∀ q, 0 <= q <= 1000 → parseQ (render_q q) = Some q)%Z ∧
  (∀ b v, parseQ b = Some v → 0 <= v <= 1000)%Z.
Proof.
  split; [|apply parseQ_range]. intros q Hq.
  assert (Forall (λ q, parseQ (render_q q) = Some q) (seqZ 0 1001)) as Hall.
  { apply (bool_decide_unpack _). vm_compute. exact I. }
  rewrite Forall_forall in Hall. apply Hall, elem_of_seqZ. lia.
Qed.

(** After [Accepts] the Vary header names Accept, lines written before are
    kept, and asking again adds nothing. *)
Theorem addVaryAccept_once vary :
  existsb lists_accept (addVaryAccept vary) = true ∧
  addVaryAccept (addVaryAccept vary) = addVaryAccept vary ∧
  vary `prefix_of` addVaryAccept vary.
Proof.
  split; [apply addVaryAccept_lists|]. split.
  - unfold addVaryAccept at 1. by rewrite addVaryAccept_lists.
  - unfold addVaryAccept. case_match; [done|]. by apply prefix_app_r.
Qed.

Lemma parseQ_roundtrip_witness : parseQ (render_q 250) = Some 250%Z.
Proof. apply (proj1 parseQ_roundtrip 250%Z). lia. Defined.
