(* ===== verification/AcceptSpec.v ===== *)
(** * What an Accept header says

    RFC 9110's reading of the header, written without the parser of
    [src/ctx_accept.go]: where a list is cut, which media range names an offer and
    how specifically, what a weight is worth. [Accept.v]'s [items], [matchRange]
    and [parseQ] are proved to compute exactly that, and [offerQuality] to answer
    the weight of the first of the most specific ranges. *)

From S2P Require Import Prelude Bytes Accept.

(** ** Lists with quoted strings *)

(** Where a reader of the header stands: outside a quoted string, inside one, or
    behind a backslash inside one. *)
Inductive place := Plain | Quoted | Escaped.

Definition next_place (st : place) (c : ascii) : place :=
  match st with
  | Plain => if decide (c = "034"%char) then Quoted else Plain
  | Quoted => if decide (c = "034"%char) then Plain
              else if decide (c = "\"%char) then Escaped else Quoted
  | Escaped => Quoted
  end.

Definition place_after (st : place) (p : bytes) : place := fold_left next_place p st.

(** No separator of [p] is outside a quoted string, reading from [st] on. *)
Definition whole (sep : ascii) (st : place) (p : bytes) : Prop :=
  ∀ p1 p2, p = p1 ++ sep :: p2 → place_after st p1 ≠ Plain.

(** The pieces between the separators outside quoted strings; an empty last piece
    does not count. *)
Inductive cut_at (sep : ascii) : bytes → list bytes → Prop :=
| cut_nothing : cut_at sep [] []
| cut_last p : p ≠ [] → whole sep Plain p → cut_at sep p [p]
| cut_piece p s ps :
    whole sep Plain p → place_after Plain p = Plain → cut_at sep s ps →
    cut_at sep (p ++ sep :: s) (p :: ps).

(** ** Media ranges and weights *)

Definition blank (c : ascii) : Prop := c = " "%char ∨ c = "009"%char.

(** [s] is [m] with spaces and tabs around it. *)
Definition padded (s m : bytes) : Prop :=
  ∃ l r, s = l ++ m ++ r ∧ Forall blank l ∧ Forall blank r.

(** Equal but for the case of ASCII letters. *)
Definition same_letter (a b : ascii) : Prop :=
  a = b ∨ (is_upper a = true ∧ code b = (code a + 32)%Z)
        ∨ (is_upper b = true ∧ code a = (code b + 32)%Z).

Definition same_word (s t : bytes) : Prop := Forall2 same_letter s t.

(** The media range names the media type [typ/sub], and how specifically. *)
Inductive names (typ sub : bytes) : bytes → nat → Prop :=
| names_any : names typ sub (bs "*/*") 1
| names_type t : same_word t typ → names typ sub (t ++ bs "/*") 2
| names_exactly t s :
    same_word t typ → same_word s sub → names typ sub (t ++ "/"%char :: s) 3.

(** The [i]-th decimal of a fraction. *)
Definition decimal (ds : bytes) (i : nat) : Z :=
  match ds !! i with Some c => code c - code "0" | None => 0 end.

Definition thousandths (ds : bytes) : Z :=
  (100 * decimal ds 0 + 10 * decimal ds 1 + decimal ds 2)%Z.

(** A qvalue, in thousandths: at most three decimals, and at most one. The form
    without a leading zero is not RFC 9110's but what clients send. *)
Inductive qvalue : bytes → Z → Prop :=
| qvalue_zero : qvalue (bs "0") 0
| qvalue_below ds :
    Forall (λ c, is_digit c = true) ds → length ds <= 3 → qvalue (bs "0." ++ ds) (thousandths ds)
| qvalue_point ds :
    Forall (λ c, is_digit c = true) ds → 1 <= length ds <= 3 →
    qvalue ("."%char :: ds) (thousandths ds)
| qvalue_one : qvalue (bs "1") 1000
| qvalue_ones ds :
    Forall (λ c, c = "0"%char) ds → length ds <= 3 → qvalue (bs "1." ++ ds) 1000.

(** The parameter is a weight, written [x]. *)
Definition is_weight (p x : bytes) : Prop :=
  ∃ n, p = n ++ "="%char :: x ∧ ("="%char ∉ n) ∧ (padded n (bs "q") ∨ padded n (bs "Q")).

(** What the parameters of a range weigh it: every weight has to be a qvalue, the
    last one counts, 1 without any. Other parameters are passed over. *)
Inductive weight : list bytes → Z → Prop :=
| weight_none : weight [] 1000
| weight_other ps p q : weight ps q → (∀ x, ¬ is_weight p x) → weight (ps ++ [p]) q
| weight_said ps p x m q0 q :
    weight ps q0 → is_weight p x → padded x m → qvalue m q → weight (ps ++ [p]) q.

(** An element of the header reads as a range that names [typ/sub] with
    specificity [k] and weighs [q] thousandths. *)
Definition reads (typ sub elem : bytes) (q : Z) (k : nat) : Prop :=
  ∃ r m ps, cut_at ";" elem (r :: ps) ∧ padded r m ∧ names typ sub m k ∧ weight ps q.

(** A type or subtype an offer can have: not empty, and without the characters a
    range or its parameters are written with. *)
Definition concrete (w : bytes) : Prop :=
  w ≠ [] ∧ ("/"%char ∉ w) ∧ ("*"%char ∉ w) ∧ Forall (λ c, ¬ blank c) w.

(** ** Cutting *)

Section cut.
Context (sep : ascii) (sep_plain : sep ≠ "034"%char ∧ sep ≠ "\"%char).

Lemma whole_nil st : whole sep st [].
Proof. by intros [|] ?. Qed.

Lemma whole_cons st c p :
  whole sep st (c :: p) ↔ (c = sep → st ≠ Plain) ∧ whole sep (next_place st c) p.
Proof.
  split.
  - intros H. split; [intros ->; by apply (H [] p)|].
    intros p1 p2 ->. by apply (H (c :: p1) p2).
  - intros [Hc Hp] [|d p1] p2; cbn; intros [= -> ->]; [by apply Hc|]. by apply (Hp p1 p2).
Qed.

Lemma nextItem_loop_cut k : ∀ (quoted : bool) s, length s <= k →
  let st := if quoted then Quoted else Plain in
  let '(item, rest) := nextItem_loop sep quoted s in
  whole sep st item ∧
  ((rest = [] ∧ s = item) ∨ (s = item ++ sep :: rest ∧ place_after st item = Plain)).
Proof.
  destruct sep_plain as [Hq Hb]. induction k as [|k IH]; intros quoted [|c s] Hk; cbn in Hk; try lia;
    [cbn; split; [apply whole_nil | by left]..|]. cbn [nextItem_loop].
  destruct (quoted && bool_decide (c = "\"%char)) eqn:E1.
  - to_prop. subst. destruct s as [|d s]; cbn [nextItem_loop].
    { split; [|by left]. apply whole_cons. split; [done|apply whole_nil]. }
    specialize (IH true s ltac:(cbn in *; lia)). cbn in IH.
    destruct (nextItem_loop sep true s) as [item rest]. destruct IH as [Hw Hs]. split.
    + apply whole_cons. split; [done|]. by apply whole_cons.
    + destruct Hs as [[-> ->]|[-> Hp]]; [by left | by right].
  - destruct (bool_decide (c = "034"%char)) eqn:E2; to_prop.
    + subst. specialize (IH (negb quoted) s ltac:(lia)). cbn in IH.
      destruct (nextItem_loop sep (negb quoted) s) as [item rest]. destruct IH as [Hw Hs].
      assert (next_place (if quoted then Quoted else Plain) "034" = if negb quoted then Quoted else Plain)
        as Hn by by destruct quoted.
      split.
      * apply whole_cons. split; [by intros <-|]. by rewrite Hn.
      * cbn [place_after fold_left]. rewrite Hn.
        destruct Hs as [[-> ->]|[-> Hp]]; [by left | by right].
    + destruct (negb quoted && bool_decide (c = sep)) eqn:E3.
      * apply andb_prop in E3 as [E3 ->%bool_decide_eq_true]. split; [apply whole_nil|right]. by destruct quoted.
      * specialize (IH quoted s ltac:(lia)). cbn in IH.
        destruct (nextItem_loop sep quoted s) as [item rest]. destruct IH as [Hw Hs].
        assert (next_place (if quoted then Quoted else Plain) c = if quoted then Quoted else Plain)
          as Hn.
        { destruct quoted; cbn; rewrite decide_False by done; [|done].
          rewrite decide_False; [done|]. by destruct E1 as [|?%bool_decide_eq_false]. }
        split.
        -- apply whole_cons. rewrite Hn. split; [|done]. intros ->.
           destruct quoted; [done|]. by apply bool_decide_eq_false in E3.
        -- cbn [place_after fold_left]. rewrite Hn.
           destruct Hs as [[-> ->]|[-> Hp]]; [by left | by right].
Qed.

Lemma items_cut s : cut_at sep s (items sep s).
Proof.
  induction s as [s IH] using (induction_ltof1 _ length). unfold ltof in IH.
  rewrite items_unfold. destruct s as [|c s]; [constructor|].
  pose proof (nextItem_shorter (c :: s) sep ltac:(done)) as Hs.
  pose proof (nextItem_loop_cut _ false (c :: s) (Nat.le_refl _)) as Hn. unfold nextItem in *.
  destruct (nextItem_loop sep false (c :: s)) as [item rest]. cbn [fst snd] in *.
  destruct Hn as [Hw [[-> <-]|[-> Hp]]].
  - rewrite items_unfold. by apply cut_last.
  - apply cut_piece; [done..|]. by apply IH.
Qed.

Lemma cut_first p1 p2 s1 s2 :
  whole sep Plain p1 → whole sep Plain p2 →
  place_after Plain p1 = Plain → place_after Plain p2 = Plain →
  p1 ++ sep :: s1 = p2 ++ sep :: s2 → p1 = p2 ∧ s1 = s2.
Proof.
  intros H1 H2 E1 E2 [l [[-> Hl]|[-> Hl]]]%app_eq_app; destruct l as [|c l]; cbn in Hl;
    simplify_eq; rewrite ?app_nil_r; try done.
  - by destruct (H1 p2 l).
  - by destruct (H2 p1 l).
Qed.

Lemma cut_at_functional s ps1 : cut_at sep s ps1 → ∀ ps2, cut_at sep s ps2 → ps1 = ps2.
Proof.
  induction 1 as [|p Hne Hp|p s ps Hp Hpl Hc IH]; intros ps2; inversion 1; subst; try done.
  - by destruct p.
  - by destruct (Hp p0 s).
  - by destruct p.
  - match goal with H : whole sep Plain (p ++ _) |- _ => by destruct (H p s) end.
  - match goal with H : _ = _ ++ _ |- _ => apply cut_first in H as [-> ->]; [|done..] end.
    f_equal. by apply IH.
Qed.

Lemma cut_items s ps : cut_at sep s ps ↔ ps = items sep s.
Proof.
  split; [|intros ->; apply items_cut]. intros H. apply (cut_at_functional _ _ H), items_cut.
Qed.
End cut.

(** ** Trimming *)

Lemma isOWS_blank c : isOWS c = true ↔ blank c.
Proof. unfold isOWS, blank. by rewrite orb_true_iff, !bool_decide_eq_true. Qed.

Lemma isOWS_not_blank c : isOWS c = false ↔ ¬ blank c.
Proof. rewrite <-isOWS_blank. by destruct (isOWS c). Qed.

(** No space or tab at either end. *)
Definition tight (m : bytes) : Prop :=
  ∀ c, head m = Some c ∨ last m = Some c → ¬ blank c.

Lemma trim_left_app (P : ascii → bool) l s :
  Forall (λ c, P c = true) l → trim_left P (l ++ s) = trim_left P s.
Proof. induction 1 as [|c l Hc _ IH]; cbn; [done|]. by rewrite Hc. Qed.

Lemma trim_right_app (P : ascii → bool) s r :
  Forall (λ c, P c = true) r → trim_right P (s ++ r) = trim_right P s.
Proof.
  intros Hr. induction s as [|c s IH]; cbn; [|by rewrite IH].
  induction Hr as [|c r Hc _ IH]; cbn; [done|]. by rewrite IH, Hc.
Qed.

Lemma trim_right_id (P : ascii → bool) s :
  (∀ c, last s = Some c → P c = false) → trim_right P s = s.
Proof.
  induction s as [|c [|d s] IH]; intros Hs; [done| |].
  - cbn. by rewrite (Hs c).
  - change (trim_right P (c :: d :: s)) with
      (match trim_right P (d :: s) with [] => if P c then [] else [c] | r => c :: r end).
    by rewrite IH by (intros e He; by apply Hs).
Qed.

Lemma trim_left_split (P : ascii → bool) s :
  ∃ l, s = l ++ trim_left P s ∧ Forall (λ c, P c = true) l.
Proof.
  induction s as [|c s (l & Hs & Hl)]; cbn; [by exists []|]. destruct (P c) eqn:Hc.
  - exists (c :: l). split; [cbn; by f_equal | by constructor].
  - by exists [].
Qed.

Lemma trim_right_split (P : ascii → bool) s :
  ∃ r, s = trim_right P s ++ r ∧ Forall (λ c, P c = true) r.
Proof.
  induction s as [|c s (r & Hs & Hr)]; cbn; [by exists []|].
  destruct (trim_right P s) as [|d t]; cbn in Hs; subst.
  - destruct (P c) eqn:Hc; [exists (c :: r) | exists r]; cbn; (split; [done|]); [by constructor|done].
  - by exists r.
Qed.

Lemma blanks l : Forall blank l ↔ Forall (λ c, isOWS c = true) l.
Proof. apply Forall_iff. intros c. by rewrite isOWS_blank. Qed.

Lemma padded_trim s : padded s (trimOWS s).
Proof.
  unfold trimOWS, trim. destruct (trim_left_split isOWS s) as (l & Hl & Hbl).
  destruct (trim_right_split isOWS (trim_left isOWS s)) as (r & Hr & Hbr).
  exists l, r. rewrite <-Hr, !blanks. done.
Qed.

Lemma trim_padded s m : padded s m → tight m → trimOWS s = m.
Proof.
  intros (l & r & -> & Hl%blanks & Hr%blanks) Hm. unfold trimOWS, trim.
  rewrite trim_left_app by done. destruct m as [|c m].
  { cbn. clear -Hr. rewrite <-(app_nil_r r), trim_left_app by done. done. }
  rewrite trim_left_id.
  - rewrite trim_right_app by done. apply trim_right_id. intros d Hd.
    apply isOWS_not_blank, Hm. by right.
  - intros d [= <-]. apply isOWS_not_blank, Hm. by left.
Qed.

Lemma tight_all m : Forall (λ c, ¬ blank c) m → tight m.
Proof.
  rewrite Forall_forall. intros H c [Hc|Hc]; apply H.
  - by apply head_Some_elem_of.
  - by apply last_Some_elem_of.
Qed.

Lemma padded_is s m : tight m → padded s m ↔ trimOWS s = m.
Proof. intros Hm. split; [by intros; apply trim_padded | intros <-; apply padded_trim]. Qed.

(** ** Words *)

Lemma fold_ascii_same a b : fold_ascii a = fold_ascii b ↔ same_letter a b.
Proof.
  unfold same_letter, fold_ascii.
  assert (∀ c, is_upper c = true → code (byte_of (code c + 32)) = (code c + 32)%Z ∧
               ∀ d, byte_of (code c + 32) = d → is_upper d = false) as Hup.
  { intros c Hc. unfold is_upper in *. rewrite between_spec in Hc.
    change (code "A") with 65%Z in Hc. change (code "Z") with 90%Z in Hc.
    assert (code (byte_of (code c + 32)) = code c + 32)%Z as Hb.
    { rewrite code_byte_of. apply Z.mod_small. lia. }
    split; [done|]. intros d <-. apply not_true_iff_false. rewrite between_spec, Hb.
    change (code "A") with 65%Z. change (code "Z") with 90%Z. lia. }
  destruct (is_upper a) eqn:Ha, (is_upper b) eqn:Hb.
  - destruct (Hup a Ha) as [Ea Na], (Hup b Hb) as [Eb Nb]. split.
    + intros E. left. apply code_inj. apply (f_equal code) in E. lia.
    + intros [->|[[_ E]|[_ E]]]; [done|..].
      * specialize (Na b). rewrite <-E, byte_of_code in Na. specialize (Na eq_refl). congruence.
      * specialize (Nb a). rewrite <-E, byte_of_code in Nb. specialize (Nb eq_refl). congruence.
  - destruct (Hup a Ha) as [Ea Na]. split.
    + intros <-. right. left. done.
    + intros [->|[[_ E]|[E _]]]; [congruence| |done]. by rewrite <-E, byte_of_code.
  - destruct (Hup b Hb) as [Eb Nb]. split.
    + intros ->. right. right. done.
    + intros [->|[[E _]|[_ E]]]; [congruence|done|]. by rewrite <-E, byte_of_code.
  - split; [by left|]. by intros [->|[[E _]|[E _]]].
Qed.

Lemma equalFold_same s t : equalFoldASCII s t = true ↔ same_word s t.
Proof.
  unfold equalFoldASCII, same_word. rewrite andb_true_iff, bool_decide_eq_true. split.
  - intros [Hl Hf]. revert t Hl Hf. induction s as [|x s IH]; intros [|y t]; cbn; try done.
    intros [= Hl] [Hx%bool_decide_eq_true Hf]%andb_true_iff.
    constructor; [by apply fold_ascii_same | by apply IH].
  - intros H. split; [by eapply Forall2_length|].
    induction H as [|x y s t Hxy H IH]; cbn; [done|].
    apply andb_true_iff. split; [|done]. by apply bool_decide_eq_true, fold_ascii_same.
Qed.

Lemma same_letter_other a b : is_alnum a = false → same_letter a b → a = b.
Proof.
  unfold is_alnum. intros Ha [|[[Hu _]|[Hu E]]]; [done|by rewrite Hu, orb_true_r in Ha|].
  exfalso. assert (is_lower a = true) as Hl; [|by rewrite Hl in Ha].
  unfold is_upper, is_lower in *. rewrite between_spec in *.
  change (code "A") with 65%Z in *. change (code "Z") with 90%Z in *.
  change (code "a") with 97%Z in *. change (code "z") with 122%Z in *. lia.
Qed.

Lemma same_word_avoids t w c :
  same_word t w → is_alnum c = false → c ∉ w → c ∉ t.
Proof.
  induction 1 as [|a b t w Hab _ IH]; intros Hc Hw; [done|].
  apply not_elem_of_cons in Hw as [Hcb Hw]. apply not_elem_of_cons. split; [|by apply IH].
  intros <-. by apply same_letter_other in Hab.
Qed.

Lemma same_word_tight t w : same_word t w → Forall (λ c, ¬ blank c) w → Forall (λ c, ¬ blank c) t.
Proof.
  induction 1 as [|a b t w Hab _ IH]; inversion 1; subst; constructor; [|by apply IH].
  intros Ha. assert (a = b) as ->; [|done]. apply same_letter_other; [|done].
  by destruct Ha as [-> | ->].
Qed.

Lemma index_byte_mid c t s : c ∉ t → index_byte c (t ++ c :: s) = Some (length t).
Proof.
  intros Ht. apply index_byte_Some. rewrite list_lookup_middle, take_app_length by done. done.
Qed.

Lemma index_byte_cut c s i :
  index_byte c s = Some i → s = take i s ++ c :: drop (S i) s ∧ c ∉ take i s.
Proof.
  rewrite index_byte_Some. intros [Hi Hn]. split; [|done]. by rewrite take_drop_middle.
Qed.

Lemma isStar_is b : isStar b = true ↔ b = bs "*".
Proof. apply bool_decide_eq_true. Qed.

Section names.
Context (typ sub : bytes) (Htyp : concrete typ) (Hsub : concrete sub).

Lemma names_tight m k : names typ sub m k → tight m.
Proof.
  destruct Htyp as (_ & _ & _ & Ht), Hsub as (_ & _ & _ & Hs).
  assert (∀ c, is_alnum c = false → c ≠ " "%char → c ≠ "009"%char → ¬ blank c) as Hc
    by (intros c _ ? ? [?|?]; done).
  intros Hn. apply tight_all. destruct Hn as [|t H|t s H1 H2].
  - repeat constructor; by apply Hc.
  - apply Forall_app. split; [by eapply same_word_tight|]. repeat constructor; by apply Hc.
  - apply Forall_app. split; [by eapply same_word_tight|].
    constructor; [by apply Hc | by eapply same_word_tight].
Qed.

Definition media_spec (m : bytes) : option nat :=
  match index_byte "/" m with
  | None => None
  | Some i =>
    if bool_decide (i = 0) || bool_decide (i = length m - 1) then None
    else range_spec (take i m) (drop (S i) m) typ sub
  end.

Lemma media_spec_mid t s :
  "/"%char ∉ t → t ≠ [] → s ≠ [] →
  media_spec (t ++ "/"%char :: s) = range_spec t s typ sub.
Proof.
  intros Hn Ht Hs. unfold media_spec. rewrite index_byte_mid by done.
  rewrite !bool_decide_eq_false_2.
  - cbn [orb]. rewrite take_app_length. f_equal.
    by rewrite cons_middle, app_assoc, drop_app_length' by (rewrite length_app; cbn; lia).
  - rewrite length_app. cbn. destruct s; cbn; [done|lia].
  - by destruct t.
Qed.

Lemma same_word_not_star t w : concrete w → same_word t w → t ≠ [] ∧ isStar t = false ∧ "/"%char ∉ t.
Proof.
  intros (Hne & Hsl & Hst & _) H. pose proof (same_word_avoids _ _ "*" H eq_refl Hst) as Hn.
  split_and!.
  - intros ->. by inversion H; subst.
  - apply bool_decide_eq_false. intros ->. apply Hn. by left.
  - by eapply same_word_avoids.
Qed.

Lemma media_spec_names m k : media_spec m = Some k ↔ names typ sub m k.
Proof.
  split.
  - unfold media_spec. destruct (index_byte "/" m) as [i|] eqn:Hi; [|done].
    destruct (_ || _); [done|]. apply index_byte_cut in Hi as [Hm _].
    revert Hm. generalize (take i m), (drop (S i) m). intros t s ->. unfold range_spec.
    destruct (isStar t && isStar s) eqn:E.
    { apply andb_true_iff in E as [->%isStar_is ->%isStar_is].  intros [= <-]. constructor. }
    destruct (isStar t); [done|]. destruct (equalFoldASCII t typ) eqn:Et; cbn [negb]; [|done].
    apply equalFold_same in Et. destruct (isStar s) eqn:Es.
    { apply isStar_is in Es as ->. intros [= <-]. by constructor. }
    destruct (equalFoldASCII s sub) eqn:Eq; [|done]. intros [= <-].
    constructor; [done|by apply equalFold_same].
  - intros [|t H|t s H1 H2].
    + reflexivity.
    + destruct (same_word_not_star t typ Htyp H) as (Hne & Hst & Hsl).
      change (bs "/*") with ("/"%char :: bs "*"). rewrite media_spec_mid by done.
      unfold range_spec. rewrite Hst. cbn [andb].
      apply equalFold_same in H. rewrite H. reflexivity.
    + destruct (same_word_not_star t typ Htyp H1) as (Hne & Hst & Hsl).
      destruct (same_word_not_star s sub Hsub H2) as (Hne2 & Hst2 & _).
      rewrite media_spec_mid by done. unfold range_spec. rewrite Hst, Hst2. cbn [andb].
      apply equalFold_same in H1, H2. rewrite H1, H2. reflexivity.
Qed.
End names.

(** ** Weights *)

Lemma digits_frac d : Forall (λ c, is_digit c = true) d → length d <= 3 →
  parseFraction d = Some (thousandths d).
Proof.
  intros H Hl. unfold parseFraction, thousandths, decimal.
  destruct d as [|a [|b [|c [|]]]]; cbn in Hl; try lia;
    rewrite ?Forall_cons in H; destruct_and?;
    unfold lookup; cbn -[code is_digit Z.quot];
    repeat match goal with Hd : is_digit _ = true |- _ => rewrite Hd; clear Hd end;
    change (Z.quot 100 10) with 10%Z; change (Z.quot 10 10) with 1%Z; f_equal; lia.
Qed.

Lemma frac_digits d v : parseFraction d = Some v → Forall (λ c, is_digit c = true) d.
Proof.
  unfold parseFraction. generalize 0%Z at 1, 100%Z. induction d as [|c d IH]; intros q mul; [by constructor|].
  cbn. destruct (is_digit c) eqn:Hc; [|done]. intros H. constructor; [done|]. by eapply IH.
Qed.

Lemma parseQ_point ds : 1 <= length ds <= 3 → parseQ ("."%char :: ds) = parseFraction ds.
Proof.
  intros Hl. unfold parseQ. cbn [length]. rewrite decide_False by lia.
  rewrite (bool_decide_eq_true_2 ("."%char = _)) by done.
  by rewrite !bool_decide_eq_false_2 by lia.
Qed.

Lemma parseQ_lead c ds : c ≠ "."%char → length ds <= 3 →
  parseQ (c :: "."%char :: ds) =
  if bool_decide (c = "0"%char) then parseFraction ds
  else if bool_decide (c = "1"%char) then
    if forallb (λ d, bool_decide (d = "0"%char)) ds then Some 1000%Z else None
  else None.
Proof.
  intros Hc Hl. unfold parseQ. cbn [length]. rewrite decide_False by lia.
  rewrite (bool_decide_eq_false_2 (c = "."%char)) by done.
  rewrite (bool_decide_eq_true_2 (head _ = _)) by done. cbn [negb]. rewrite andb_false_r.
  reflexivity.
Qed.

Lemma parseQ_qvalue b v : parseQ b = Some v ↔ qvalue b v.
Proof.
  split.
  - unfold parseQ. destruct b as [|c b]; [done|]. case_decide as Hl; [done|]. cbn [length] in *.
    destruct (bool_decide (c = "."%char)) eqn:Hdot.
    { apply bool_decide_eq_true in Hdot as ->. destruct (_ || _) eqn:E; [done|]. to_prop.
      intros Hp. pose proof (frac_digits _ _ Hp) as Hd.
      rewrite digits_frac in Hp by (done || lia). injection Hp as <-. constructor; [done|lia]. }
    destruct b as [|d b].
    { cbn. destruct (bool_decide (c = "0"%char)) eqn:E0; to_prop.
      - subst. intros [= <-]. constructor.
      - destruct (bool_decide (c = "1"%char)) eqn:E1; to_prop; [|done].
        subst. intros [= <-]. constructor. }
    rewrite (bool_decide_eq_true_2 (1 < _)) by (cbn; lia). cbn [andb head].
    destruct (bool_decide (Some d = _)) eqn:E; cbn [negb]; [|done].
    apply bool_decide_eq_true in E as [= ->]. cbn [length Nat.min drop] in *.
    destruct (bool_decide (c = "0"%char)) eqn:E0.
    + apply bool_decide_eq_true in E0 as ->. intros Hp. pose proof (frac_digits _ _ Hp) as Hd.
      assert (length b <= 3) as Hb by (cbn [length] in Hl; lia).
      rewrite digits_frac in Hp by done. injection Hp as <-. by apply (qvalue_below b).
    + destruct (bool_decide (c = "1"%char)) eqn:E1; [|done].
      apply bool_decide_eq_true in E1 as ->. destruct (forallb _ _) eqn:Ef; [|done].
      intros [= <-]. apply (qvalue_ones b); [|cbn [length] in Hl; lia].
      rewrite forallb_forall in Ef. apply Forall_forall. intros d Hd.
      apply list_elem_of_In, Ef in Hd. by apply bool_decide_eq_true in Hd.
  - intros [|ds Hd Hl|ds Hd Hl| |ds Hd Hl].
    + reflexivity.
    + change (bs "0." ++ ds) with ("0"%char :: "."%char :: ds).
      rewrite parseQ_lead by done. by apply digits_frac.
    + rewrite parseQ_point by done. apply digits_frac; [done|lia].
    + reflexivity.
    + change (bs "1." ++ ds) with ("1"%char :: "."%char :: ds). rewrite parseQ_lead by done.
      cbn [bool_decide]. assert (forallb (λ d, bool_decide (d = "0"%char)) ds = true) as ->; [|done].
      apply forallb_forall. intros d Hd'. apply bool_decide_eq_true.
      rewrite Forall_forall in Hd. by apply Hd, list_elem_of_In.
Qed.

Lemma digit_not_blank c : is_digit c = true → ¬ blank c.
Proof. by intros H [-> | ->]. Qed.

Lemma qvalue_tight b v : qvalue b v → tight b.
Proof.
  assert (∀ ds, Forall (λ c, is_digit c = true) ds → Forall (λ c, ¬ blank c) ds) as Hds
    by (intros ds H; eapply Forall_impl, digit_not_blank; exact H).
  intros Hq. apply tight_all. destruct Hq as [|ds Hd Hl|ds Hd Hl| |ds Hd Hl];
    rewrite ?Forall_app; cbn; rewrite ?Forall_cons, ?Forall_nil.
  - split; [by intros [|]|done].
  - split_and!; try (by intros [|]); [done|]. by apply Hds.
  - split; [by intros [|]|]. by apply Hds.
  - split; [by intros [|]|done].
  - split_and!; try (by intros [|]); [done|]. apply Hds. eapply Forall_impl; [done|]. by intros ? ->.
Qed.

Lemma is_weight_iff p x :
  is_weight p x ↔ ∃ i, index_byte "=" p = Some i ∧ x = drop (S i) p ∧
    (trimOWS (take i p) = bs "q" ∨ trimOWS (take i p) = bs "Q").
Proof.
  assert (∀ c, ¬ blank c → ∀ s, padded s [c] ↔ trimOWS s = [c]) as Hp.
  { intros c Hc s. apply padded_is, tight_all. by constructor. }
  unfold is_weight. split.
  - intros (n & -> & Hn & Hq). exists (length n). rewrite index_byte_mid, take_app_length by done.
    split; [done|]. split.
    + by rewrite cons_middle, app_assoc, drop_app_length' by (rewrite length_app; cbn; lia).
    + destruct Hq as [Hq|Hq]; apply Hp in Hq; [by left|by intros [|]|by right|by intros [|]].
  - intros (i & Hi & -> & Hq). apply index_byte_cut in Hi as [Hi Hn].
    exists (take i p). split; [done|]. split; [done|].
    destruct Hq as [Hq|Hq]; apply Hp in Hq; [by left|by intros [|]|by right|by intros [|]].
Qed.

Lemma range_q_app ps1 ps2 q : range_q (ps1 ++ ps2) q = range_q ps1 q ≫= range_q ps2.
Proof.
  revert q. induction ps1 as [|p ps1 IH]; intros q; cbn; [done|].
  repeat case_match; try apply IH; done.
Qed.

Lemma weight_range ps : ∀ q, weight ps q ↔ range_q ps 1000 = Some q.
Proof.
  assert (∀ q0 p q, range_q [p] q0 = Some q ↔
    ((∀ x, ¬ is_weight p x) ∧ q = q0) ∨ ∃ x m, is_weight p x ∧ padded x m ∧ qvalue m q) as Hone.
  { intros q0 p q. cbn [range_q]. cbv zeta. setoid_rewrite is_weight_iff.
    destruct (index_byte "=" p) as [i|].
    2:{ split; [intros [= <-]; left; split; [intros x (i & [=] & _)|done]|].
        intros [[_ ->]|(x & m & (i & [=] & _) & _)]. done. }
    destruct (bool_decide (trimOWS (take i p) = bs "q") || bool_decide (trimOWS (take i p) = bs "Q")) eqn:E.
    - assert (trimOWS (take i p) = bs "q" ∨ trimOWS (take i p) = bs "Q") as Hn.
      { apply orb_true_iff in E. rewrite !bool_decide_eq_true in E. done. }
      destruct (parseQ (trimOWS (drop (S i) p))) as [v|] eqn:Ev.
      + split.
        * intros [= <-]. right. exists (drop (S i) p), (trimOWS (drop (S i) p)).
          split; [by exists i|]. split; [apply padded_trim|by apply parseQ_qvalue].
        * intros [[Hno _]|(x & m & (i' & [= <-] & -> & _) & Hm & Hv)]; [by destruct (Hno (drop (S i) p)); exists i|].
          pose proof (qvalue_tight _ _ Hv) as Ht. apply padded_is in Hm; [|done]. subst.
          apply parseQ_qvalue in Hv. congruence.
      + split; [done|].
        intros [[Hno _]|(x & m & (i' & [= <-] & -> & _) & Hm & Hv)]; [by destruct (Hno (drop (S i) p)); exists i|].
        pose proof (qvalue_tight _ _ Hv) as Ht. apply padded_is in Hm; [|done]. subst.
        apply parseQ_qvalue in Hv. congruence.
    - apply orb_false_iff in E. rewrite !bool_decide_eq_false in E. destruct E as [E1 E2].
      split; [intros [= <-]; left; split; [|done]; by intros x (i' & [= <-] & _ & [?|?])|].
      intros [[_ ->]|(x & m & (i' & [= <-] & _ & [?|?]) & _)]; done. }
  induction ps as [|p ps IH] using rev_ind; intros q.
  { split; [|intros [= <-]; constructor]. inversion 1; [done|by destruct ps..]. }
  rewrite range_q_app, bind_Some. setoid_rewrite <-IH. setoid_rewrite Hone. split.
  - inversion 1 as [E|ps' p' q' Hw Hn E|ps' p' x m q0 q' Hw Hx Hm Hv E]; subst; [by destruct ps| |];
      apply app_inj_tail in E as [-> ->].
    + exists q. split; [done|]. by left.
    + exists q0. split; [done|]. right. by exists x, m.
  - intros (q0 & Hw & [[Hn ->]|(x & m & Hx & Hm & Hv)]); [by constructor | by econstructor].
Qed.

(** ** Elements *)

Lemma matchRange_reads typ sub elem q k :
  concrete typ → concrete sub →
  matchRange elem typ sub = Some (q, k) ↔ reads typ sub elem q k.
Proof.
  intros Ht Hs. unfold reads. assert (∀ ps, cut_at ";" elem ps ↔ ps = items ";" elem) as Hc by by intros; apply cut_items.
  setoid_rewrite Hc. clear Hc. rewrite items_unfold.
  transitivity (media_spec typ sub (trimOWS (nextItem elem ";").1) = Some k ∧
                range_q (items ";" (nextItem elem ";").2) 1000 = Some q).
  { unfold matchRange, media_spec. destruct (nextItem elem ";") as [r params]. cbn [fst snd].
    destruct (index_byte "/" (trimOWS r)) as [i|]; [|split; [intros [=]|intros [[=] _]]].
    destruct (_ || _); [by split; [|intros [? _]]|]. destruct (range_spec _ _ typ sub) as [k'|]; cbn;
      [|split; [intros [=]|intros [[=] _]]].
    destruct (range_q _ 1000) as [q'|]; cbn; [|split; [intros [=]|intros [_ [=]]]].
    split; [by intros [= <- <-]|by intros [[= <-] [= <-]]]. }
  rewrite media_spec_names, <-weight_range by done. split.
  - intros [Hn Hw]. exists (nextItem elem ";").1, (trimOWS (nextItem elem ";").1), (items ";" (nextItem elem ";").2).
    split_and!; [|apply padded_trim|done..]. destruct elem; [|done].
    cbn in Hn. apply media_spec_names in Hn; done.
  - intros (r & m & ps & Hc & Hp & Hn & Hw).
    apply padded_is in Hp; [|by apply (names_tight typ sub Ht Hs m k)]. subst m.
    destruct elem as [|c elem]; [done|]. injection Hc as -> ->. done.
Qed.

Lemma omap_split {A B} (f : A → option B) l l1 y l2 :
  omap f l = l1 ++ y :: l2 →
  ∃ a x b, l = a ++ x :: b ∧ f x = Some y ∧ omap f a = l1 ∧ omap f b = l2.
Proof.
  revert l1. induction l as [|x l IH]; intros l1; cbn; [by destruct l1|].
  destruct (f x) as [z|] eqn:Ez.
  - destruct l1 as [|z' l1]; cbn; intros [= -> H].
    + by exists [], x, l.
    + apply IH in H as (a & x' & b & -> & Hx & <- & <-). exists (x :: a), x', b.
      cbn. by rewrite Ez.
  - intros (a & x' & b & -> & Hx & <- & <-)%IH. exists (x :: a), x', b. cbn. by rewrite Ez.
Qed.

Lemma first_spec_Some k rs q :
  first_spec k rs = Some q →
  ∃ l1 l2, rs = l1 ++ (q, k) :: l2 ∧ Forall (λ p, p.2 ≠ k) l1.
Proof.
  induction rs as [|[q' s] rs IH]; cbn; [done|]. case_decide; subst.
  - intros [= ->]. by exists [], rs.
  - intros (l1 & l2 & -> & Hl1)%IH. exists ((q', s) :: l1), l2. split; [done|]. by constructor.
Qed.

Lemma first_spec_None k rs : first_spec k rs = None → Forall (λ p, p.2 ≠ k) rs.
Proof. induction rs as [|[q' s] rs IH]; cbn; [constructor|]. case_decide; [done|]. by constructor; auto. Qed.

(** The range [quality_ref] goes by. *)
Lemma quality_ref_first rs :
  Forall (λ p, 1 <= p.2 <= 3) rs →
  (rs = [] ∧ quality_ref rs = 0%Z) ∨
  ∃ l1 k l2, rs = l1 ++ (quality_ref rs, k) :: l2 ∧
             Forall (λ p, p.2 < k) l1 ∧ Forall (λ p, p.2 <= k) l2.
Proof.
  intros Hr.
  assert (∀ k q, first_spec k rs = Some q → Forall (λ p, p.2 <= k) rs →
    ∃ l1 k l2, rs = l1 ++ (q, k) :: l2 ∧ Forall (λ p, p.2 < k) l1 ∧ Forall (λ p, p.2 <= k) l2)
    as Hk.
  { intros k q (l1 & l2 & -> & H1)%first_spec_Some Ha. exists l1, k, l2. split; [done|].
    apply Forall_app in Ha as [Ha1 [_ Ha2]%Forall_cons]. split; [|done].
    eapply Forall_impl; [apply Forall_and; split; [exact H1|exact Ha1]|]. cbn. lia. }
  assert (∀ k, Forall (λ p, p.2 <= S k) rs → first_spec (S k) rs = None → Forall (λ p, p.2 <= k) rs)
    as Hdown.
  { intros k Ha Hn%first_spec_None. eapply Forall_impl; [apply Forall_and; split; [exact Ha|exact Hn]|].
    cbn. lia. }
  assert (Forall (λ p, p.2 <= 3) rs) as H3 by (eapply Forall_impl; [done|]; cbn; lia).
  unfold quality_ref.
  destruct (first_spec 3 rs) as [q3|] eqn:E3; [right; by apply (Hk 3)|].
  apply Hdown in E3 as H2; [|done].
  destruct (first_spec 2 rs) as [q2|] eqn:E2; [right; by apply (Hk 2)|].
  apply Hdown in E2 as H1; [|done].
  destruct (first_spec 1 rs) as [q1|] eqn:E1; [right; by apply (Hk 1)|].
  left. split; [|done]. destruct rs as [|[q s] rs]; [done|]. exfalso.
  apply Hdown in E1; [|done]. inversion_clear E1. inversion_clear Hr. cbn in *. lia.
Qed.

Lemma cut_lines accepts liness :
  Forall2 (cut_at ",") accepts liness → map (items ",") accepts = liness.
Proof. induction 1 as [|s ps accepts liness H _ IH]; cbn; [done|]. rewrite IH. f_equal. symmetry. by apply cut_items. Qed.

(** C15. The quality of an offer is RFC 9110's, with media type parameters passed
    over: cut every line of the header at its commas, and of the elements that
    name the offer's media type (as [*/*], by its type, or exactly, whatever the
    case) and whose weights are all qvalues, the first of the most specific ones
    gives it its weight; without any it is 0. It is between 0 and 1000
    thousandths. *)
Theorem offerQuality_most_specific accepts liness typ sub :
  concrete typ → concrete sub → Forall2 (cut_at ",") accepts liness →
  (0 <= offerQuality accepts typ sub <= 1000)%Z ∧
  (((∀ e q k, e ∈ concat liness → ¬ reads typ sub e q k) ∧ offerQuality accepts typ sub = 0%Z) ∨
   ∃ before e k after,
     concat liness = before ++ e :: after ∧
     reads typ sub e (offerQuality accepts typ sub) k ∧
     (∀ e' q k', e' ∈ before → reads typ sub e' q k' → k' < k) ∧
     (∀ e' q k', e' ∈ after → reads typ sub e' q k' → k' <= k)).
Proof.
  intros Ht Hs Hl%cut_lines. split; [apply offerQuality_range|].
  rewrite offerQuality_ref. unfold matching. rewrite Hl. clear Hl.
  assert (∀ l (P : Z * nat → Prop) e q k, Forall P (omap (λ elem, matchRange elem typ sub) l) →
    e ∈ l → reads typ sub e q k → P (q, k)) as Hin.
  { intros l P e q k HP He Hr%matchRange_reads; [|done..]. rewrite Forall_forall in HP.
    apply HP, list_elem_of_omap. by exists e. }
  destruct (quality_ref_first (omap (λ elem, matchRange elem typ sub) (concat liness)))
    as [[Hnil ->]|(l1 & k & l2 & Hsplit & H1 & H2)].
  - apply Forall_forall. intros [q k] (e & _ & He)%list_elem_of_omap.
    by apply matchRange_range in He as [_ He].
  - left. split; [|done]. intros e q k He Hr.
    apply (Hin (concat liness) (λ _, False) e q k); [|done..]. rewrite Hnil. constructor.
  - right. apply omap_split in Hsplit as (a & e & b & -> & He & <- & <-).
    exists a, e, k, b. split; [done|]. split; [by apply matchRange_reads|].
    split; intros e' q k' He' Hr.
    + exact (Hin a _ e' q k' H1 He' Hr).
    + exact (Hin b _ e' q k' H2 He' Hr).
Qed.

(** Two header lines, one with a separator inside a quoted string. *)
Definition quoted_lines : list bytes :=
  [bs "*/*;q=0.1, TEXT/*;v=" ++ "034"%char :: bs "a,b" ++ "034"%char :: bs ";q=.25"; bs "image/png"].

(** There [TEXT/*] decides over the less specific [*/*], and the element for
    another type plays no part. *)
Lemma offerQuality_most_specific_witness :
  ∃ e k, reads (bs "text") (bs "html") e
           (offerQuality quoted_lines (bs "text") (bs "html")) k.
Proof.
  destruct (offerQuality_most_specific quoted_lines (map (items ",") quoted_lines)
              (bs "text") (bs "html")) as [_ [[_ H]|(b & e & k & a & _ & H & _)]].
  - split_and!; [done|apply index_byte_None; reflexivity..|]. repeat constructor; by intros [|].
  - split_and!; [done|apply index_byte_None; reflexivity..|]. repeat constructor; by intros [|].
  - apply Forall2_fmap_r, Forall_Forall2_diag, Forall_forall. intros line _. by apply items_cut.
  - exfalso. vm_compute in H. done.
  - exists e, k. exact H.
Defined.
