(* ===== verification/Fasthttp.v ===== *)
(** * The server library

    [rice] is built on [github.com/valyala/fasthttp], whose code is not part of
    the repository. Its request context is an interface here: the operations the
    source calls on it, and the laws the source relies on, which are its
    documented behaviour. The file ends with an instance, so that no law is
    vacuous. *)

From S2P Require Import Prelude Bytes.

(** What a request and its response consist of, as far as the source looks. *)
Class Fasthttp : Type := {
  RequestCtx : Type;
  (* the request *)
  req_Method : RequestCtx → bytes;
  req_Path : RequestCtx → bytes;
  IsHead : RequestCtx → bool;
  req_Query : bytes → RequestCtx → bytes;
  req_Header : bytes → RequestCtx → list bytes;
  PostBody : RequestCtx → bytes;
  RemoteIP : RequestCtx → bytes;
  (* the response *)
  StatusCode : RequestCtx → Z;
  SetStatusCode : Z → RequestCtx → RequestCtx;
  ContentType : RequestCtx → bytes;
  SetContentType : bytes → RequestCtx → RequestCtx;
  Body : RequestCtx → bytes;
  SetBody : bytes → RequestCtx → RequestCtx;
  ResetBody : RequestCtx → RequestCtx;
  Header : bytes → RequestCtx → list bytes;
  SetHeader : bytes → bytes → RequestCtx → RequestCtx;
  AddHeader : bytes → bytes → RequestCtx → RequestCtx;
  ConnectionClose : RequestCtx → bool;
  SetConnectionClose : RequestCtx → RequestCtx;
  (* a streamed body: whether a stream writer is installed *)
  IsBodyStream : RequestCtx → bool;
  SetBodyStreamWriter : RequestCtx → RequestCtx;
  (* the reason phrase of a status *)
  StatusMessage : Z → bytes;
}.

(** The laws. [StatusCode] answers 200 for a zero status, and [ContentType] the default
    for an empty one, hence the guards. *)
Class FasthttpLaws (F : Fasthttp) : Prop := {
  status_set : ∀ c r, c ≠ 0%Z → StatusCode (SetStatusCode c r) = c;
  status_content : ∀ v r, StatusCode (SetContentType v r) = StatusCode r;
  status_body : ∀ b r, StatusCode (SetBody b r) = StatusCode r;
  status_reset : ∀ r, StatusCode (ResetBody r) = StatusCode r;
  content_set : ∀ v r, v ≠ [] → ContentType (SetContentType v r) = v;
  content_body : ∀ b r, ContentType (SetBody b r) = ContentType r;
  body_set : ∀ b r, Body (SetBody b r) = b;
  body_content : ∀ v r, Body (SetContentType v r) = Body r;
  body_reset : ∀ r, Body (ResetBody r) = [];
  stream_set : ∀ r, IsBodyStream (SetBodyStreamWriter r) = true;
  stream_body : ∀ b r, IsBodyStream (SetBody b r) = false;
  close_set : ∀ r, ConnectionClose (SetConnectionClose r) = true;
  close_status : ∀ c r, ConnectionClose (SetStatusCode c r) = ConnectionClose r;
  close_content : ∀ v r, ConnectionClose (SetContentType v r) = ConnectionClose r;
  close_body : ∀ b r, ConnectionClose (SetBody b r) = ConnectionClose r;
  path_close : ∀ r, req_Path (SetConnectionClose r) = req_Path r;
  method_close : ∀ r, req_Method (SetConnectionClose r) = req_Method r;
}.

(** ** An instance *)

Record request := mkRequest {
  rq_method : bytes; rq_path : bytes; rq_status : Z; rq_content : bytes; rq_body : bytes;
  rq_headers : list (bytes * bytes); rq_close : bool; rq_stream : bool;
  rq_sent : list (bytes * bytes);
}.

Definition new_request (method path : bytes) : request :=
  mkRequest method path 0 [] [] [] false false [].

#[export] Instance plain_fasthttp : Fasthttp := {
  RequestCtx := request;
  req_Method := rq_method;
  req_Path := rq_path;
  req_Query _ _ := [];
  req_Header name r := omap (λ kv, if decide (kv.1 = name) then Some kv.2 else None) (rq_sent r);
  PostBody _ := [];
  RemoteIP _ := [];
  IsHead r := bool_decide (rq_method r = bs "HEAD");
  StatusCode r := if decide (rq_status r = 0%Z) then 200%Z else rq_status r;
  SetStatusCode c r := mkRequest (rq_method r) (rq_path r) c (rq_content r) (rq_body r)
                         (rq_headers r) (rq_close r) (rq_stream r) (rq_sent r);
  ContentType := rq_content;
  SetContentType v r := mkRequest (rq_method r) (rq_path r) (rq_status r) v (rq_body r)
                          (rq_headers r) (rq_close r) (rq_stream r) (rq_sent r);
  Body := rq_body;
  SetBody b r := mkRequest (rq_method r) (rq_path r) (rq_status r) (rq_content r) b
                   (rq_headers r) (rq_close r) false (rq_sent r);
  ResetBody r := mkRequest (rq_method r) (rq_path r) (rq_status r) (rq_content r) []
                   (rq_headers r) (rq_close r) false (rq_sent r);
  Header name r := omap (λ kv, if decide (kv.1 = name) then Some kv.2 else None) (rq_headers r);
  SetHeader name v r :=
    mkRequest (rq_method r) (rq_path r) (rq_status r) (rq_content r) (rq_body r)
      (filter (λ kv, kv.1 ≠ name) (rq_headers r) ++ [(name, v)]) (rq_close r) (rq_stream r) (rq_sent r);
  AddHeader name v r :=
    mkRequest (rq_method r) (rq_path r) (rq_status r) (rq_content r) (rq_body r)
      (rq_headers r ++ [(name, v)]) (rq_close r) (rq_stream r) (rq_sent r);
  ConnectionClose := rq_close;
  SetConnectionClose r := mkRequest (rq_method r) (rq_path r) (rq_status r) (rq_content r)
                            (rq_body r) (rq_headers r) true (rq_stream r) (rq_sent r);
  IsBodyStream := rq_stream;
  SetBodyStreamWriter r := mkRequest (rq_method r) (rq_path r) (rq_status r) (rq_content r) []
                             (rq_headers r) (rq_close r) true (rq_sent r);
  StatusMessage c :=
    if decide (c = 404%Z) then bs "Not Found"
    else if decide (c = 500%Z) then bs "Internal Server Error" else bs "Unknown Status Code";
}.

#[export] Instance plain_fasthttp_laws : FasthttpLaws plain_fasthttp.
Proof.
  split; try reflexivity. intros c r Hc. cbn. by rewrite decide_False.
Qed.
