(* ===== verification/Errors.v ===== *)
(** * Errors and the default error handler

    [src/errors.go]: the error values the funnel knows, [errors.As] over a chain,
    and the response each kind of failure gets. *)

From S2P Require Import Prelude Bytes Decimal Fasthttp.

(** Values a program can put in an interface: panicked values, stored values. *)
Class Any : Type := { any : Type; Sprint : any → bytes }.

Section errors.
Context `{HA : Any} `{F : Fasthttp}.

(** What can be passed to [panic]: a string, an error, or any other value. *)
Inductive panic_value (E : Type) : Type :=
| PanicString (s : bytes)
| PanicWith (e : E)
| PanicValue (v : any).
Arguments PanicString {E} s.
Arguments PanicWith {E} e.
Arguments PanicValue {E} v.

(** Error values: the two types of the package, and what the standard library
    builds around them, [fmt.Errorf] with %w, [errors.Join], and a plain error. *)
Inductive err : Type :=
| HTTPError (Code : Z) (Message : bytes) (Err : option err)
| PanicError (Value : panic_value err) (Stack : bytes)
| WrapError (text : bytes) (e : err)
| JoinError (es : list err)
| PlainError (text : bytes).

Definition ErrNotFound : err := HTTPError 404 (bs "Not Found") None.
Definition ErrNotAcceptable : err := HTTPError 406 (bs "Not Acceptable") None.

Definition NewHTTPError (code : Z) (msg : bytes) : err := HTTPError code msg None.

Definition validStatus (code : Z) : Z :=
  if (code <? 100)%Z || (599 <? code)%Z then 500 else code.

(** The [Error] methods. *)
Fixpoint Error (e : err) : bytes :=
  match e with
  | HTTPError c m cause =>
    let c := validStatus c in
    let m := if bool_decide (m = []) then StatusMessage c else m in
    Itoa c ++ bs ": " ++ m ++ match cause with Some e' => bs ": " ++ Error e' | None => [] end
  | PanicError v _ =>
    bs "panic: " ++ match v with
                    | PanicString s => s
                    | PanicWith e' => Error e'
                    | PanicValue x => Sprint x
                    end
  | WrapError text _ => text
  | JoinError es => join_on "010" (map Error es)
  | PlainError text => text
  end.

(** [Unwrap], for the one-error form. *)
Definition Unwrap (e : err) : option err :=
  match e with
  | HTTPError _ _ cause => cause
  | PanicError (PanicWith e') _ => Some e'
  | PanicError _ _ => None
  | WrapError _ e' => Some e'
  | JoinError _ | PlainError _ => None
  end.

(** The errors [errors.As] and [errors.Is] visit, in their order: the error
    itself, then what it unwraps to, a joined error's parts left to right. *)
Fixpoint walk (e : err) : list err :=
  e :: match e with
       | HTTPError _ _ (Some e') => walk e'
       | PanicError (PanicWith e') _ => walk e'
       | WrapError _ e' => walk e'
       | JoinError es => concat (map walk es)
       | _ => []
       end.

(** [errors.As] for one of the two types. *)
Definition is_panic (e : err) : bool := match e with PanicError _ _ => true | _ => false end.
Definition is_http (e : err) : bool := match e with HTTPError _ _ _ => true | _ => false end.

Definition errors_As (P : err → bool) (e : err) : option err := head (filter P (walk e)).

(** [respond]. *)
Definition respond (code : Z) (msg : bytes) (r : RequestCtx) : RequestCtx :=
  let code := validStatus code in
  let msg := if bool_decide (msg = []) then StatusMessage code else msg in
  SetBody msg (SetContentType (bs "text/plain; charset=utf-8") (SetStatusCode code r)).

Definition respondPanic (r : RequestCtx) : RequestCtx :=
  respond 500 (bs "Internal Server Error") r.

(** [DefaultErrorHandler], with its fast path. *)
Definition default_walk (e : err) (r : RequestCtx) : RequestCtx :=
  match errors_As is_panic e with
  | Some _ => respondPanic r
  | None =>
    match errors_As is_http e with
    | Some (HTTPError code msg _) => respond code msg r
    | _ => respond 500 (bs "Internal Server Error") r
    end
  end.

Definition DefaultErrorHandler (e : err) (r : RequestCtx) : RequestCtx :=
  match e with
  | PanicError _ _ => respondPanic r
  | HTTPError code msg None => respond code msg r
  | _ => default_walk e r
  end.

(** ** Lemmas *)

Lemma validStatus_range code : (100 <= validStatus code <= 599)%Z.
Proof.
  unfold validStatus. destruct (_ || _) eqn:E; [lia|]. apply orb_false_iff in E as [? ?]. lia.
Qed.

Lemma validStatus_id code : (100 <= code <= 599)%Z → validStatus code = code.
Proof.
  intros ?. unfold validStatus. destruct (_ || _) eqn:E; [|done].
  apply orb_true_iff in E as []; lia.
Qed.

(** The fast path answers as the walk does. *)
Lemma DefaultErrorHandler_walk e r : DefaultErrorHandler e r = default_walk e r.
Proof. destruct e as [c m [e'|]|v st|t e'|es|t]; reflexivity. Qed.

Lemma errors_As_Some P e e' : errors_As P e = Some e' → e' ∈ walk e ∧ P e' = true.
Proof.
  unfold errors_As. intros Hh. assert (e' ∈ filter P (walk e)) as Hin.
  { destruct (filter P (walk e)); [done|]. injection Hh as ->. by left. }
  apply list_elem_of_filter in Hin as [Hp Hin]. split; [done|]. by apply Is_true_true.
Qed.

Lemma errors_As_None P e : errors_As P e = None → ∀ e', e' ∈ walk e → P e' = false.
Proof.
  unfold errors_As. intros Hh e' Hin. destruct (P e') eqn:E; [|done].
  assert (e' ∈ filter P (walk e)) as Hf
    by (apply list_elem_of_filter; split; [by apply Is_true_true|done]).
  destruct (filter P (walk e)); [by apply elem_of_nil in Hf|done].
Qed.
End errors.

(** ** Properties *)

Section properties.
Context `{HA : Any} `{F : Fasthttp}.

(** The status an HTTPError's code becomes: what is not a status is a 500. *)
Definition coerced (c : Z) : Z := if decide (100 <= c <= 599)%Z then c else 500.

Lemma validStatus_coerced c : validStatus c = coerced c.
Proof.
  unfold coerced. destruct (decide _) as [Hc|Hc]; [by apply validStatus_id|].
  unfold validStatus. destruct (Z.ltb_spec c 100); [done|]. destruct (Z.ltb_spec 599 c); [done|lia].
Qed.

(** C12. What a failure answers: a recovered panic anywhere in the chain is a
    generic 500, whatever wraps it or is wrapped by it; otherwise the first
    HTTPError of the chain answers with its own code when that is from 100 to 599
    and 500 when it is not, and with its message or the status text; anything else
    is a generic 500. The fast path never disagrees with the walk, the response
    discards a stream, and it is always plain text. *)
Theorem DefaultErrorHandler_answers {L : FasthttpLaws F} e r :
  let r' := DefaultErrorHandler e r in
  let generic := StatusCode r' = 500%Z ∧ Body r' = bs "Internal Server Error" in
  ContentType r' = bs "text/plain; charset=utf-8" ∧ IsBodyStream r' = false ∧
  ((∃ e', e' ∈ walk e ∧ is_panic e' = true) → generic) ∧
  ((∀ e', e' ∈ walk e → is_panic e' = false) →
   (∀ l1 c m cause l2, walk e = l1 ++ HTTPError c m cause :: l2 → (∀ e', e' ∈ l1 → is_http e' = false) →
    StatusCode r' = coerced c ∧ Body r' = (if decide (m = []) then StatusMessage (coerced c) else m)) ∧
   ((∀ e', e' ∈ walk e → is_http e' = false) → generic)).
Proof.
  intros r' generic.
  assert (∀ c m r, StatusCode (respond c m r) = coerced c ∧
            Body (respond c m r) = (if decide (m = []) then StatusMessage (coerced c) else m) ∧
            ContentType (respond c m r) = bs "text/plain; charset=utf-8" ∧
            IsBodyStream (respond c m r) = false) as Hresp.
  { intros c m r0. unfold respond. pose proof (validStatus_range c).
    rewrite status_body, status_content, status_set, body_set, content_body, content_set, stream_body by (done || lia).
    rewrite validStatus_coerced. split_and!; try done. case_bool_decide; by case_decide. }
  assert (∃ c m, r' = respond c m r) as (c & m & Hr).
  { unfold r'. rewrite DefaultErrorHandler_walk. unfold default_walk, respondPanic.
    destruct (errors_As is_panic e); [eauto|].
    destruct (errors_As is_http e) as [[]|]; eauto. }
  destruct (Hresp c m r) as (_ & _ & Hct & Hst). rewrite <-Hr in Hct, Hst.
  split; [done|]. split; [done|]. clear Hr Hct Hst c m.
  destruct (Hresp 500%Z (bs "Internal Server Error") r) as (Hs & Hb & _).
  unfold generic, r'. rewrite DefaultErrorHandler_walk. unfold default_walk, respondPanic. split.
  - intros (e' & Hin & He'). destruct (errors_As is_panic e) eqn:Ep; [by rewrite Hs, Hb|].
    pose proof (errors_As_None is_panic e Ep e' Hin). congruence.
  - intros Hn. destruct (errors_As is_panic e) as [p|] eqn:Ep.
    { apply errors_As_Some in Ep as [Hin Hp]. by rewrite (Hn p Hin) in Hp. }
    split.
    + intros l1 c m cause l2 Hw Hl1. unfold errors_As.
      assert (head (filter is_http (walk e)) = Some (HTTPError c m cause)) as ->.
      { rewrite Hw. clear Hw. induction l1 as [|x l1 IH]; [done|]. cbn [Datatypes.app].
        rewrite filter_cons, decide_False by (rewrite (Hl1 x ltac:(by left)); by intros []).
        apply IH. intros y Hy. apply Hl1. by right. }
      destruct (Hresp c m r) as (? & ? & _). by split.
    + intros Hno. destruct (errors_As is_http e) as [x|] eqn:Ex; [|by rewrite Hs, Hb].
      apply errors_As_Some in Ex as [Hin Hp]. by rewrite (Hno x Hin) in Hp.
Qed.

(** What is logged matches what is sent: an [HTTPError] without a cause
    renders as the status and the body of the response it produces. *)
Theorem Error_matches_response {L : FasthttpLaws F} c m r :
  let r' := DefaultErrorHandler (NewHTTPError c m) r in
  Error (NewHTTPError c m) = Itoa (StatusCode r') ++ bs ": " ++ Body r'.
Proof.
  cbn. unfold respond. pose proof (validStatus_range c).
  rewrite status_body, status_content, status_set, body_set by lia.
  by rewrite app_nil_r.
Qed.
End properties.

(** Witnesses, on a panic that carried an HTTPError. *)
Definition any_unit : Any := {| any := unit; Sprint _ := [] |}.

Lemma DefaultErrorHandler_answers_witness :
  StatusCode (DefaultErrorHandler (HA := any_unit) (F := plain_fasthttp)
    (WrapError (bs "oops") (PanicError (PanicWith _ (NewHTTPError 400 (bs "bad"))) []))
    (new_request [] [])) = 500%Z.
Proof.
  pose proof (DefaultErrorHandler_answers (HA := any_unit) (F := plain_fasthttp)
    (WrapError (bs "oops") (PanicError (PanicWith _ (NewHTTPError 400 (bs "bad"))) []))
    (new_request [] [])) as (_ & _ & Hp & _).
  apply Hp. eexists. split; [right; left|reflexivity].
Defined.

Lemma Error_matches_response_witness :
  Error (HA := any_unit) (F := plain_fasthttp) (NewHTTPError 0 []) = bs "500: Internal Server Error".
Proof.
  pose proof (Error_matches_response (HA := any_unit) (F := plain_fasthttp) 0 [] (new_request [] [])) as Hx.
  cbv zeta in Hx. rewrite Hx. reflexivity.
Defined.

Arguments PanicString {_ E} s.
Arguments PanicWith {_ E} e.
Arguments PanicValue {_ E} v.
