(* ===== verification/Ctx.v ===== *)
(** * The request context

    [src/ctx.go], [ctx_param.go], [ctx_response.go], [ctx_store.go], the poison of
    [poison_debug.go], and the registration half of [stream.go] and [sse.go]: the
    state of one borrowed [Ctx], and every exported method as a computation on it
    that may panic. *)

From S2P Require Import Prelude Bytes Slice Params Accept Fasthttp Errors.

(** Things a [Ctx] only stores and hands back: a [context.Context] and the
    callback of a stream. *)
Class Stored : Type := { context : Type; StreamFn : Type }.

(** Whether the build has the [ricedebug] tag. *)
Class Build : Type := ricedebug : bool.

Section ctx.
Context `{HA : Any} `{F : Fasthttp} `{HG : AppendGrowth} `{HS : Stored} `{HB : Build}.

(** One entry of the store: a key is the address of its [keyID], a value is an
    interface, nil or not. *)
Record entry : Type := mkEntry { key : nat; val : option any }.

#[export] Instance zero_entry : GoZero entry := mkEntry 0 None.

(** [fctx] and [app] are pointers: whether they are set. *)
Record Ctx : Type := mkCtx {
  poisoned : bool;
  fctx : bool;
  app : bool;
  ctx : option context;
  params : Params;
  store : slice entry;
  handled : bool;
  streamFn : option StreamFn;
  streamHeartbeat : Z;
  streamSet : bool;
  route : bytes;
}.

Definition storeCapacity : nat := 4.

(** [newCtx]. *)
Definition newCtx (maxParams : nat) : Ctx :=
  mkCtx false false false None (MakeParams maxParams) (make_slice storeCapacity)
        false None 0 false [].

Definition resetStore (s : slice entry) : slice entry := truncate_slice 0 s.

(** [reset]: [bound] is whether it binds, or unbinds with nil pointers. *)
Definition reset (bound : bool) (c : Ctx) : Ctx :=
  mkCtx (poisoned c) bound bound None (Reset (params c)) (resetStore (store c))
        false None 0 false [].

(** [poison.mark], a no-op outside the debug build. *)
Definition mark (c : Ctx) : Ctx :=
  mkCtx (ricedebug || poisoned c) (fctx c) (app c) (ctx c) (params c) (store c) (handled c)
        (streamFn c) (streamHeartbeat c) (streamSet c) (route c).

(** ** One request in flight

    The [Ctx], the fasthttp context it points to, and, for the theorems only, the
    errors given to the App's ErrorHandler so far. *)
Record St : Type := mkSt { the : Ctx; rc : RequestCtx; funnel : list err }.

Definition M (A : Type) : Type := go St (panic_value err) A.

Definition get_ctx : M Ctx := the <$> go_get.
Definition put_ctx (f : Ctx → Ctx) : M unit := go_modify (λ s, mkSt (f (the s)) (rc s) (funnel s)).
Definition put_rc (f : RequestCtx → RequestCtx) : M unit :=
  go_modify (λ s, mkSt (the s) (f (rc s)) (funnel s)).

Definition set_ctx (v : option context) (c : Ctx) : Ctx :=
  mkCtx (poisoned c) (fctx c) (app c) v (params c) (store c) (handled c) (streamFn c)
        (streamHeartbeat c) (streamSet c) (route c).
Definition set_params (p : Params) (c : Ctx) : Ctx :=
  mkCtx (poisoned c) (fctx c) (app c) (ctx c) p (store c) (handled c) (streamFn c)
        (streamHeartbeat c) (streamSet c) (route c).
Definition set_store (l : slice entry) (c : Ctx) : Ctx :=
  mkCtx (poisoned c) (fctx c) (app c) (ctx c) (params c) l (handled c) (streamFn c)
        (streamHeartbeat c) (streamSet c) (route c).
Definition set_handled (c : Ctx) : Ctx :=
  mkCtx (poisoned c) (fctx c) (app c) (ctx c) (params c) (store c) true (streamFn c)
        (streamHeartbeat c) (streamSet c) (route c).
Definition set_streamSet (c : Ctx) : Ctx :=
  mkCtx (poisoned c) (fctx c) (app c) (ctx c) (params c) (store c) (handled c) (streamFn c)
        (streamHeartbeat c) true (route c).
Definition set_stream (fn : StreamFn) (hb : Z) (c : Ctx) : Ctx :=
  mkCtx (poisoned c) (fctx c) (app c) (ctx c) (params c) (store c) (handled c) (Some fn)
        hb (streamSet c) (route c).
Definition set_route (p : bytes) (c : Ctx) : Ctx :=
  mkCtx (poisoned c) (fctx c) (app c) (ctx c) (params c) (store c) (handled c) (streamFn c)
        (streamHeartbeat c) (streamSet c) p.

Definition errUseAfterRelease : bytes :=
  bs "rice: *Ctx used after its handler returned; see the borrow contract in the package documentation".

(** [poison.check]. *)
Definition check : M unit :=
  c ← get_ctx; go_panic_if (ricedebug && poisoned c) (PanicString errUseAfterRelease).

(** Following [c.fctx], which is nil once the Ctx is released. *)
Definition nil_deref : panic_value err :=
  PanicWith (PlainError (bs "runtime error: invalid memory address or nil pointer dereference")).

Definition deref {A} (f : RequestCtx → A * RequestCtx) : M A := λ s,
  if fctx (the s)
  then let '(a, r) := f (rc s) in (Ret a, mkSt (the s) r (funnel s))
  else (Panic nil_deref, s).

(** Anything a handler does with the fasthttp context, checked first: the shape of
    every accessor and of everything reached through [RequestCtx]. *)
Definition with_fctx {A} (f : RequestCtx → A * RequestCtx) : M A := check;; deref f.

Definition reading {A} (f : RequestCtx → A) : M A := with_fctx (λ r, (f r, r)).
Definition writing (f : RequestCtx → RequestCtx) : M unit := with_fctx (λ r, (tt, f r)).

(** ** Accessors *)

Definition Method : M bytes := reading req_Method.
Definition Path : M bytes := reading req_Path.
Definition Query (name : bytes) : M bytes := reading (req_Query name).
Definition PeekHeader (name : bytes) : M bytes :=
  reading (λ r, default [] (head (req_Header name r))).
Definition ReqBody : M bytes := reading PostBody.
Definition ClientIP : M bytes := reading RemoteIP.
Definition Route : M bytes := check;; route <$> get_ctx.

Definition Param (name : bytes) : M bytes := check;; (λ c, Get (params c) name) <$> get_ctx.
Definition ParamString (name : bytes) : M bytes :=
  check;; (λ c, Get (params c) name) <$> get_ctx.

(** [Context] falls back to the App's base context. *)
Definition Context_ (baseCtx : context) : M context :=
  check;; (λ c, default baseCtx (ctx c)) <$> get_ctx.

Definition SetContext (v : option context) : M unit :=
  check;;
  match v with
  | None => go_panic (PanicString (bs "rice: SetContext: context is nil"))
  | Some _ => put_ctx (set_ctx v)
  end.

(** ** Responses *)

Definition MIMETextPlainUTF8 : bytes := bs "text/plain; charset=utf-8".
Definition MIMEApplicationJSON : bytes := bs "application/json".

Definition Status (code : Z) : M unit := writing (SetStatusCode code).
Definition SetHeader_ (k v : bytes) : M unit := writing (SetHeader k v).
Definition SetContentType_ (v : bytes) : M unit := writing (SetContentType v).

Definition String_ (code : Z) (body : bytes) : M (option err) :=
  writing (λ r, SetBody body (SetContentType MIMETextPlainUTF8 (SetStatusCode code r)));; mret None.

Definition Bytes_ (code : Z) (body : bytes) : M (option err) :=
  writing (λ r, SetBody body (SetStatusCode code r));; mret None.

Definition NoContent (code : Z) : M (option err) :=
  writing (λ r, SetContentType [] (ResetBody (SetStatusCode code r)));; mret None.

(** [JSON]: [encoded] is what [json.Marshal] returns for the value. *)
Definition JSON (code : Z) (encoded : result err bytes) : M (option err) :=
  check;;
  match encoded with
  | Err e => mret (Some e)
  | Ok b => deref (λ r, (tt, SetBody b (SetContentType MIMEApplicationJSON (SetStatusCode code r))));;
            mret None
  end.

(** [Accepts]: the negotiation of [Accept.v] and the Vary line it adds. A bad
    offer panics before the header is written. *)
Definition offer_message (p : offer_panic) : bytes :=
  match p with
  | OfferWildcard o => bs "rice: Accepts offer " ++ "034"%char :: o ++ "034"%char ::
      bs " is a wildcard; offer the media types the handler produces"
  | OfferNotMediaType o => bs "rice: Accepts offer " ++ "034"%char :: o ++ "034"%char ::
      bs " is not a media type of the form type/subtype"
  end.

Definition Accepts_ (offers : list bytes) : M bytes :=
  accepts ← reading (req_Header (bs "Accept"));
  match negotiate accepts offers with
  | Panic p => go_panic (PanicString (offer_message p))
  | Ret best =>
    deref (λ r, (tt, if existsb lists_accept (Header (bs "Vary") r) then r
                     else AddHeader (bs "Vary") (bs "Accept") r));;
    mret best
  end.

(** ** The store *)

(** [set] and [get]: the scan over the live entries. *)
Fixpoint find_entry (id : nat) (l : list entry) : option nat :=
  match l with
  | [] => None
  | e :: l' => if decide (key e = id) then Some 0 else S <$> find_entry id l'
  end.

Definition set_entry (id : nat) (v : option any) (l : slice entry) : slice entry :=
  match find_entry id (live l) with
  | Some i => update_slice i (λ e, mkEntry (key e) v) l
  | None => append_slice l (mkEntry id v)
  end.

Definition get_entry (id : nat) (l : slice entry) : option (option any) :=
  match find_entry id (live l) with
  | Some i => val <$> live l !! i
  | None => None
  end.

(** A type a key can be made for: how its values are boxed into an interface, and
    the type assertion that takes them out again. Boxing gives a nil interface
    only for a nil of an interface type, which is the zero value. *)
Class Boxed (T : Type) `{GoZero T} : Type := {
  box : T → option any;
  unbox : any → option T;
  unbox_box : ∀ v x, box v = Some x → unbox x = Some v;
  box_nil : ∀ v, box v = None → v = zero;
}.

(** A key's identity: the address [NewKey] allocated, and a name for people. *)
Record keyID : Type := mkKeyID { addr : nat; name : bytes }.

(** [Key]: [None] is the zero Key, which no [NewKey] made. *)
Record Key (T : Type) : Type := mkKey { id : option keyID }.
Arguments mkKey {T} id.
Arguments id {T} k.

Definition mustBeMade {T} (k : Key T) : M nat :=
  match id k with
  | None => go_panic (PanicString (bs "rice: Key used without NewKey; create keys with rice.NewKey"))
  | Some i => mret (addr i)
  end.

(** [NewKey]: [fresh] is the address the allocation returns. *)
Definition NewKey {T} (fresh : nat) (name : bytes) : outcome (panic_value err) (Key T) :=
  if bool_decide (name = []) then Panic (PanicString (bs "rice: NewKey: name must not be empty"))
  else Ret (mkKey (Some (mkKeyID fresh name))).

Definition Key_String {T} (k : Key T) : bytes :=
  match id k with None => [] | Some i => name i end.

Definition Key_Set `{Boxed T} (k : Key T) (v : T) : M unit :=
  check;; i ← mustBeMade k; put_ctx (λ c, set_store (set_entry i (box v) (store c)) c).

(** The value read back, and whether there was one; a value of another type would
    panic in the type assertion. *)
Definition assertion_panic : panic_value err :=
  PanicWith (PlainError (bs "interface conversion")).

Definition Key_Get `{Boxed T} (k : Key T) : M (T * bool) :=
  check;; i ← mustBeMade k; c ← get_ctx;
  match get_entry i (store c) with
  | None => mret (zero, false)
  | Some None => mret (zero, true)
  | Some (Some x) =>
    match unbox x with Some v => mret (v, true) | None => go_panic assertion_panic end
  end.

(** ** Streams: what the handler records *)

Definition registerStream (heartbeat : Z) (fn : option StreamFn) : M unit :=
  match fn with
  | None => go_panic (PanicString (bs "rice: Stream or SSE callback is nil"))
  | Some f =>
    c ← get_ctx;
    go_panic_if (streamSet c) (PanicString (bs "rice: Stream or SSE called twice for one request"));;
    put_ctx set_streamSet;;
    head ← deref (λ r, (IsHead r, r));
    if head : bool then mret tt else put_ctx (set_stream f heartbeat)
  end.

Definition Stream (fn : option StreamFn) : M (option err) :=
  check;; registerStream 0 fn;; mret None.

(** [wrap] is the closure that hands the callback an [SSE] around its [Stream]. *)
Definition SSE {SSEFn} (wrap : SSEFn → StreamFn) (heartbeat : Z) (fn : option SSEFn) : M (option err) :=
  check;;
  go_panic_if (heartbeat <? 0)%Z (PanicString (bs "rice: SSE heartbeat is negative; use 0 to disable it"));;
  match fn with
  | None => go_panic (PanicString (bs "rice: Stream or SSE callback is nil"))
  | Some f =>
    deref (λ r, (tt, SetHeader (bs "Cache-Control") (bs "no-cache")
                       (SetContentType (bs "text/event-stream") r)));;
    registerStream heartbeat (Some (wrap f));; mret None
  end.

(** ** The store as a map *)

Lemma find_entry_lt i es j : find_entry i es = Some j → j < length es.
Proof.
  revert j. induction es as [|e es IH]; intros j; cbn; [done|].
  case_decide; [intros [= <-]; lia|]. intros (k & Hk & ->)%fmap_Some.
  specialize (IH k Hk). lia.
Qed.

Lemma live_set_entry i v l : slice_ok l →
  live (set_entry i v l) =
  match find_entry i (live l) with
  | Some j => alter (λ e, mkEntry (key e) v) j (live l)
  | None => live l ++ [mkEntry i v]
  end.
Proof.
  intros Hl. unfold set_entry. destruct (find_entry i (live l)) as [j|] eqn:E; [|by apply live_append].
  apply live_update. rewrite <-length_live by done. by eapply find_entry_lt.
Qed.

Lemma set_entry_ok i v l : slice_ok l → slice_ok (set_entry i v l).
Proof.
  intros Hl. unfold set_entry. destruct (find_entry i (live l)) as [j|] eqn:E; [|auto with rice].
  apply update_slice_ok; [done|]. rewrite <-length_live by done. by eapply find_entry_lt.
Qed.

Fixpoint assoc (i : nat) (es : list entry) : option (option any) :=
  match es with
  | [] => None
  | e :: es' => if decide (key e = i) then Some (val e) else assoc i es'
  end.

Lemma get_entry_assoc i l : get_entry i l = assoc i (live l).
Proof.
  unfold get_entry. induction (live l) as [|e es IH]; cbn; [done|].
  case_decide; [done|]. rewrite <-IH. by destruct (find_entry i es).
Qed.

Lemma assoc_set i j v es :
  assoc j (match find_entry i es with
           | Some k => alter (λ e, mkEntry (key e) v) k es
           | None => es ++ [mkEntry i v]
           end) = if decide (j = i) then Some v else assoc j es.
Proof.
  induction es as [|e es IH]; cbn; [by repeat case_decide|].
  destruct (decide (key e = i)) as [Hi|Hi]; cbn.
  - repeat case_decide; congruence.
  - destruct (find_entry i es) as [k|]; cbn in *; rewrite IH; repeat case_decide; congruence.
Qed.

Lemma get_set_entry i j v l : slice_ok l →
  get_entry j (set_entry i v l) = if decide (j = i) then Some v else get_entry j l.
Proof. intros Hl. rewrite !get_entry_assoc, live_set_entry by done. apply assoc_set. Qed.

Lemma get_ctx_run s : get_ctx s = (Ret (the s), s).
Proof. reflexivity. Qed.

Lemma check_pass s : poisoned (the s) = false → check s = (Ret tt, s).
Proof.
  intros Hp. unfold check, mbind, go_bind, get_ctx, fmap, go_fmap, mbind, go_bind, go_get. cbn.
  by rewrite Hp, andb_false_r.
Qed.

(** C13. The store is a map from keys to values: a value read back under the key it
    was stored under is that value, present, also when it is a nil of an interface
    type; and storing under one key changes no other, whatever their types and
    names, because identity is [NewKey]'s. *)
Theorem Key_Get_Set `{Boxed T} `{Boxed T'} (k : Key T) (k' : Key T') i j v s
    (Hp : poisoned (the s) = false) (Hok : slice_ok (store (the s)))
    (Hk : id k = Some i) (Hk' : id k' = Some j) :
  let s' := (Key_Set k v s).2 in
  (Key_Set k v s).1 = Ret tt ∧ Key_Get k s' = (Ret (v, true), s') ∧
  (addr j ≠ addr i → (Key_Get k' s').1 = (Key_Get k' s).1).
Proof.
  set (s0 := mkSt (set_store (set_entry (addr i) (box v) (store (the s))) (the s)) (rc s) (funnel s)).
  assert (Key_Set k v s = (Ret tt, s0)) as Hset.
  { unfold Key_Set, mustBeMade. rewrite Hk. unfold mbind, go_bind. by rewrite check_pass. }
  assert (∀ {U} {Z : GoZero U} {B : Boxed U} (q : Key U) x t, id q = Some x → poisoned (the t) = false →
    Key_Get q t = match get_entry (addr x) (store (the t)) with
                  | None => (Ret (zero, false), t)
                  | Some None => (Ret (zero, true), t)
                  | Some (Some y) =>
                    (match unbox y with Some w => mret (w, true) | None => go_panic assertion_panic end) t
                  end) as Hget.
  { intros U Z B q x t Hq Ht. unfold Key_Get, mustBeMade. rewrite Hq. unfold mbind, go_bind.
    rewrite check_pass by done. cbn -[get_ctx get_entry]. rewrite get_ctx_run. by destruct (get_entry _ _) as [[]|]. }
  intros s'. unfold s'. rewrite Hset. cbn [snd fst]. split; [done|]. split.
  - rewrite (Hget _ _ _ k i s0 Hk Hp). cbn [s0 the set_store store].
    rewrite get_set_entry, decide_True by done. destruct (box v) as [x|] eqn:Ex.
    + by rewrite (unbox_box v x Ex).
    + by rewrite (box_nil v Ex).
  - intros Hne. rewrite (Hget _ _ _ k' j s0 Hk' Hp), (Hget _ _ _ k' j s Hk' Hp).
    cbn [s0 the set_store store]. rewrite get_set_entry, decide_False by done.
    destruct (get_entry _ _) as [[y|]|]; [|done|done]. by destruct (unbox y).
Qed.
End ctx.

Arguments mkKey {T} id.
Arguments id {T} k.

(** A witness: two keys for numbers in a store that holds numbers. *)
Definition any_nat : Any := {| any := nat; Sprint _ := [] |}.

#[export] Instance boxed_nat : @Boxed any_nat nat zero_nat.
Proof. by refine (@Build_Boxed any_nat nat _ Some Some _ _); [intros v x [= ->]|]. Defined.

Definition sample_state : @St any_nat plain_fasthttp {| context := unit; StreamFn := unit |} :=
  mkSt (newCtx 1) (new_request [] []) [].

Lemma Key_Get_Set_witness :
  let s' := (@Key_Set any_nat plain_fasthttp two_room _ false _ _ boxed_nat
               (mkKey (Some (mkKeyID 1 (bs "user")))) 42 sample_state).2 in
  @Key_Get any_nat plain_fasthttp _ false _ _ boxed_nat (mkKey (Some (mkKeyID 1 (bs "user")))) s' =
  (Ret (42, true), s').
Proof.
  apply (@Key_Get_Set any_nat plain_fasthttp two_room _ false _ _ boxed_nat _ _ boxed_nat
           (mkKey (Some (mkKeyID 1 (bs "user")))) (mkKey (Some (mkKeyID 2 (bs "user"))))
           (mkKeyID 1 (bs "user")) (mkKeyID 2 (bs "user")) 42 sample_state).
  - reflexivity.
  - apply (make_slice_ok (A := entry) storeCapacity).
  - reflexivity.
  - reflexivity.
Defined.
