(* ===== verification/Handler.v ===== *)
(** * Handlers

    A handler, a middleware and an ErrorHandler are the user's code; what they can
    do to a request is call the exported methods of [Ctx], panic and recover. So a
    handler is a program over those calls, of any shape, and the file gives it its
    meaning on the state of [Ctx.v]. Everything a handler reads from elsewhere is
    already in the program: another input is another program. *)

From S2P Require Import Prelude Bytes Slice Params Accept Fasthttp Errors Ctx.

Section handler.
Context `{HA : Any} `{F : Fasthttp} `{HG : AppendGrowth} `{HS : Stored} `{HB : Build}.

(** The exported methods of [Ctx] and [Key]. [AFctx] is every accessor and every
    response method that only touches the fasthttp context, and whatever else is
    done through [RequestCtx]. *)
Inductive api : Type → Type :=
| AFctx {A} (f : RequestCtx → A * RequestCtx) : api A
| AParam (name : bytes) : api bytes
| ARoute : api bytes
| AContext (baseCtx : context) : api context
| ASetContext (v : option context) : api unit
| AAccepts (offers : list bytes) : api bytes
| AJSON (code : Z) (encoded : result err bytes) : api (option err)
| AKeySet {T} {Z : GoZero T} {B : Boxed T} (k : Key T) (v : T) : api unit
| AKeyGet {T} {Z : GoZero T} {B : Boxed T} (k : Key T) : api (T * bool)
| AStream (fn : option StreamFn) : api (option err)
| ASSE (heartbeat : Z) (fn : option StreamFn) : api (option err).

Definition exec {A} (op : api A) : M A :=
  match op with
  | AFctx f => with_fctx f
  | AParam name => Param name
  | ARoute => Route
  | AContext baseCtx => Context_ baseCtx
  | ASetContext v => SetContext v
  | AAccepts offers => Accepts_ offers
  | AJSON code encoded => JSON code encoded
  | AKeySet k v => Key_Set k v
  | AKeyGet k => Key_Get k
  | AStream fn => Stream fn
  | ASSE heartbeat fn => SSE (λ f, f) heartbeat fn
  end.

Inductive prog : Type → Type :=
| Done {A} (a : A) : prog A
| Seq {A B} (p : prog A) (k : A → prog B) : prog B
| Call {A} (op : api A) : prog A
| HandleError (e : option err) : prog unit
| PanicNow {A} (v : panic_value err) : prog A
| Guard {A} (p : prog A) (h : panic_value err → prog A) : prog A.

(** [rice.Handler], [rice.Middleware] and [rice.ErrorHandler]. *)
Definition Handler : Type := prog (option err).
Definition Middleware : Type := Handler → Handler.
Definition ErrorHandler : Type := err → prog unit.

(** [internal/chain]: [Compile] folds backwards, so the first is outermost. *)
Fixpoint Compile_loop (i : nat) (h : Handler) (mws : list Middleware) : Handler :=
  match i with
  | 0 => h
  | S i' => Compile_loop i' (match mws !! i' with Some mw => mw h | None => h end) mws
  end.
Definition Compile (h : Handler) (mws : list Middleware) : Handler :=
  Compile_loop (length mws) h mws.

(** [DefaultErrorHandler] as a program. *)
Definition default_handler : ErrorHandler := λ e, Call (AFctx (λ r, (tt, DefaultErrorHandler e r))).

(** The meaning of a program, given what [HandleError] does with an error the
    first time it is called: [settle]. *)
Fixpoint run_with (settle : err → M unit) {A} (p : prog A) : M A :=
  match p with
  | Done a => mret a
  | Seq p k => run_with settle p ≫= λ a, run_with settle (k a)
  | Call op => exec op
  | HandleError e =>
    check;; c ← get_ctx;
    match e with
    | None => mret tt
    | Some e => if handled c then mret tt else put_ctx set_handled;; settle e
    end
  | PanicNow v => go_panic v
  | Guard p h => go_recover (run_with settle p) (λ v, run_with settle (h v))
  end.

(** [respond] through [c.fctx]. *)
Definition respond_ctx (code : Z) (msg : bytes) : M unit := deref (λ r, (tt, respond code msg r)).

(** [callErrorHandler]: [body] runs the App's ErrorHandler. *)
Definition callErrorHandler (body : err → M unit) (e : err) : M unit :=
  go_modify (λ s, mkSt (the s) (rc s) (funnel s ++ [e]));;
  go_recover (body e) (λ _, respond_ctx 500 (bs "Internal Server Error")).

(** An ErrorHandler may itself call [HandleError], which runs the ErrorHandler
    again: [depth] bounds that nesting. It is never deeper than one, because the
    request is settled by then: see [run_depth]. *)
Fixpoint run (depth : nat) (eh : ErrorHandler) {A} (p : prog A) : M A :=
  run_with (match depth with
            | 0 => λ _, mret tt
            | S depth' => callErrorHandler (λ e, run depth' eh (eh e))
            end) p.

(** The App's ErrorHandler, called on a settled request. *)
Definition call_funnel (eh : ErrorHandler) : err → M unit :=
  callErrorHandler (λ e, run 0 eh (eh e)).

Definition run_handler (eh : ErrorHandler) {A} (p : prog A) : M A := run_with (call_funnel eh) p.

(** ** What a program cannot do *)

(** A relation between the state before and after that every method and the
    ErrorHandler respect is respected by every program. *)
Definition respects (R : St → St → Prop) {A} (m : M A) : Prop := ∀ s, R s (m s).2.

Lemma respects_ret R {A} (a : A) : (∀ s, R s s) → respects R (mret a).
Proof. intros HR s. apply HR. Qed.

Lemma respects_bind (R : St → St → Prop) {A B} (m : M A) (f : A → M B) :
  (∀ s1 s2 s3, R s1 s2 → R s2 s3 → R s1 s3) →
  respects R m → (∀ a, respects R (f a)) → respects R (m ≫= f).
Proof.
  intros Ht Hm Hf s. pose proof (Hm s) as H1. unfold mbind, go_bind.
  destruct (m s) as [[a|v] s']; [|done]. eapply Ht; [done|]. apply Hf.
Qed.

Lemma respects_recover (R : St → St → Prop) {A} (m : M A) h :
  (∀ s1 s2 s3, R s1 s2 → R s2 s3 → R s1 s3) →
  respects R m → (∀ v, respects R (h v)) → respects R (go_recover m h).
Proof.
  intros Ht Hm Hh s. pose proof (Hm s) as H1. unfold go_recover.
  destruct (m s) as [[a|v] s']; [done|]. eapply Ht; [done|]. apply Hh.
Qed.

(** What a method of [Ctx] leaves alone. *)
Record frame (s s' : St) : Prop := {
  fr_poisoned : poisoned (the s') = poisoned (the s);
  fr_fctx : fctx (the s') = fctx (the s);
  fr_app : app (the s') = app (the s);
  fr_params : params (the s') = params (the s);
  fr_route : route (the s') = route (the s);
  fr_handled : handled (the s') = handled (the s);
  fr_funnel : funnel s' = funnel s;
  fr_store : slice_ok (store (the s)) → slice_ok (store (the s'));
}.

Lemma frame_refl s : frame s s.
Proof. by split. Qed.

Lemma frame_trans s1 s2 s3 : frame s1 s2 → frame s2 s3 → frame s1 s3.
Proof. intros [] []. split; try congruence. auto. Qed.

Lemma frame_ret {A} (a : A) : respects frame (mret a).
Proof. apply respects_ret, frame_refl. Qed.

Lemma frame_bind {A B} (m : M A) (f : A → M B) :
  respects frame m → (∀ a, respects frame (f a)) → respects frame (m ≫= f).
Proof. apply respects_bind, frame_trans. Qed.

Lemma frame_recover {A} (m : M A) h :
  respects frame m → (∀ v, respects frame (h v)) → respects frame (go_recover m h).
Proof. apply respects_recover, frame_trans. Qed.

Lemma frame_panic {A} v : respects frame (go_panic v : M A).
Proof. intros s. apply frame_refl. Qed.

Lemma frame_panic_if b v : respects frame (go_panic_if b v).
Proof. destruct b; [apply frame_panic | apply frame_ret]. Qed.

Lemma frame_get_ctx : respects frame get_ctx.
Proof. intros s. apply frame_refl. Qed.

Lemma frame_check : respects frame check.
Proof. apply frame_bind; [apply frame_get_ctx|]. intros c. apply frame_panic_if. Qed.

Lemma frame_deref {A} (f : RequestCtx → A * RequestCtx) : respects frame (deref f).
Proof.
  intros s. unfold deref. destruct (fctx (the s)); [|apply frame_refl].
  destruct (f (rc s)). by split.
Qed.

Lemma frame_put_ctx f :
  (∀ s, frame s (mkSt (f (the s)) (rc s) (funnel s))) → respects frame (put_ctx f).
Proof. intros Hf s. apply Hf. Qed.

Lemma frame_fmap {A B} (m : M A) (f : A → B) : respects frame m → respects frame (f <$> m).
Proof. intros Hm. apply frame_bind; [done|]. intros a. apply frame_ret. Qed.
End handler.

#[export] Hint Resolve frame_ret frame_panic frame_panic_if frame_get_ctx frame_check frame_deref
  frame_fmap : rice.

(** Discharges [respects frame] for a method built from the primitives. *)
Ltac frame_solve :=
  repeat (apply frame_bind; [auto with rice|intros]);
  auto with rice.

Section programs.
Context `{HA : Any} `{F : Fasthttp} `{HG : AppendGrowth} `{HS : Stored} `{HB : Build}.

Lemma frame_registerStream hb fn : respects frame (registerStream hb fn).
Proof.
  unfold registerStream. destruct fn; [|auto with rice].
  apply frame_bind; [auto with rice|intros c]. apply frame_bind; [auto with rice|intros _].
  apply frame_bind; [apply frame_put_ctx; by split|intros _].
  apply frame_bind; [auto with rice|intros []]; [auto with rice|].
  apply frame_put_ctx. by split.
Qed.

Lemma exec_frame {A} (op : api A) : respects frame (exec op).
Proof.
  destruct op; cbn.
  - unfold with_fctx. frame_solve.
  - unfold Param. frame_solve.
  - unfold Route. frame_solve.
  - unfold Context_. frame_solve.
  - unfold SetContext. apply frame_bind; [auto with rice|intros _].
    destruct v; [apply frame_put_ctx; by split | auto with rice].
  - unfold Accepts_, reading, with_fctx. apply frame_bind; [frame_solve|intros accepts].
    destruct (negotiate _ _); frame_solve.
  - unfold JSON. apply frame_bind; [auto with rice|intros _]. destruct encoded; frame_solve.
  - unfold Key_Set. apply frame_bind; [auto with rice|intros _].
    apply frame_bind; [unfold mustBeMade; destruct (id k); auto with rice|intros i].
    apply frame_put_ctx. split; try done. cbn. apply set_entry_ok.
  - unfold Key_Get. apply frame_bind; [auto with rice|intros _].
    apply frame_bind; [unfold mustBeMade; destruct (id k); auto with rice|intros i].
    apply frame_bind; [auto with rice|intros c].
    repeat case_match; auto with rice.
  - unfold Stream. apply frame_bind; [auto with rice|intros _].
    apply frame_bind; [apply frame_registerStream|auto with rice].
  - unfold SSE. apply frame_bind; [auto with rice|intros _].
    apply frame_bind; [auto with rice|intros _]. destruct fn; [|auto with rice].
    apply frame_bind; [auto with rice|intros _].
    apply frame_bind; [apply frame_registerStream|auto with rice].
Qed.

(** On a settled request a program's [HandleError] does nothing, so it changes no
    more than the methods do, and what settling would do is irrelevant. *)
Lemma run_settled f g {A} (p : prog A) : ∀ s,
  handled (the s) = true → run_with f p s = run_with g p s ∧ frame s (run_with f p s).2.
Proof.
  induction p as [A a|A B p IHp k IHk|A op|e|A v|A p IHp h IHh]; intros s Hs; cbn.
  - split; [done|apply frame_refl].
  - unfold mbind, go_bind. destruct (IHp s Hs) as [<- Hfr].
    destruct (run_with f p s) as [[a|v] s']; [|done]. cbn in Hfr.
    destruct (IHk a s') as [<- Hfr']; [by rewrite (fr_handled _ _ Hfr)|].
    split; [done|]. by eapply frame_trans.
  - split; [done|apply exec_frame].
  - unfold mbind, go_bind. pose proof (frame_check s) as Hc.
    destruct (check s) as [[u|v] s'] eqn:Ec; [|done]. cbn in Hc |- *.
    destruct e; [|done]. rewrite get_ctx_run. cbn.
    by rewrite (fr_handled _ _ Hc), Hs.
  - split; [done|apply frame_refl].
  - unfold go_recover. destruct (IHp s Hs) as [<- Hfr].
    destruct (run_with f p s) as [[a|v] s']; [done|]. cbn in Hfr.
    destruct (IHh v s') as [<- Hfr']; [by rewrite (fr_handled _ _ Hfr)|].
    split; [done|]. by eapply frame_trans.
Qed.

(** What settles an error matters only on requests just settled. *)
Lemma run_with_ext f g {A} (p : prog A) : ∀ s,
  (∀ e s, handled (the s) = true → f e s = g e s) → run_with f p s = run_with g p s.
Proof.
  intros s Hfg. revert s.
  induction p as [A a|A B p IHp k IHk|A op|e|A v|A p IHp h IHh]; intros s; cbn; try done.
  - unfold mbind, go_bind. rewrite IHp. destruct (run_with g p s) as [[a|v] s']; [apply IHk|done].
  - unfold mbind, go_bind. destruct (check s) as [[u|v] s']; [|done].
    rewrite get_ctx_run. cbn.
    destruct e as [e|]; [|done]. destruct (handled (the s')); [done|]. by apply Hfg.
  - unfold go_recover. rewrite IHp. destruct (run_with g p s) as [[a|v] s']; [done|apply IHh].
Qed.

(** The nesting of ErrorHandlers is never deeper than one. *)
Lemma run_depth n eh {A} (p : prog A) s : run (S n) eh p s = run_handler eh p s.
Proof.
  unfold run_handler. cbn [run]. apply run_with_ext. intros e s' Hs'.
  unfold call_funnel, callErrorHandler, mbind, go_bind, go_modify, go_recover.
  assert (∀ n, run n eh (eh e) (mkSt (the s') (rc s') (funnel s' ++ [e])) =
               run 0 eh (eh e) (mkSt (the s') (rc s') (funnel s' ++ [e]))) as Hn.
  { intros []; [done|]. by apply run_settled. }
  by rewrite (Hn n).
Qed.

(** The ErrorHandler runs on a settled request: it returns, whatever it does. *)
Lemma call_funnel_spec eh e s :
  handled (the s) = true → fctx (the s) = true →
  (call_funnel eh e s).1 = Ret tt ∧
  frame (mkSt (the s) (rc s) (funnel s ++ [e])) (call_funnel eh e s).2.
Proof.
  intros Hh Hf. unfold call_funnel, callErrorHandler, mbind, go_bind, go_modify, go_recover.
  set (s1 := mkSt (the s) (rc s) (funnel s ++ [e])).
  destruct (run_settled (λ _, mret tt) (λ _, mret tt) (eh e) s1) as [_ Hfr]; [done|].
  cbn [run]. destruct (run_with _ (eh e) s1) as [[[]|v] s'] eqn:Er; [done|]. cbn in Hfr.
  unfold respond_ctx, deref. rewrite (fr_fctx _ _ Hfr). cbn. rewrite Hf. split; [done|].
  eapply frame_trans; [done|]. by split.
Qed.

(** What a handler does to its request: it settles it at most once. *)
Record settles (s s' : St) : Prop := {
  se_poisoned : poisoned (the s') = poisoned (the s);
  se_fctx : fctx (the s') = fctx (the s);
  se_app : app (the s') = app (the s);
  se_params : params (the s') = params (the s);
  se_route : route (the s') = route (the s);
  se_store : slice_ok (store (the s)) → slice_ok (store (the s'));
  se_done : handled (the s) = true → handled (the s') = true ∧ funnel s' = funnel s;
  se_once : handled (the s) = false →
    (handled (the s') = false ∧ funnel s' = funnel s) ∨
    (handled (the s') = true ∧ ∃ e, funnel s' = funnel s ++ [e]);
}.

Lemma settles_frame s s' : frame s s' → settles s s'.
Proof. intros []. split; try done; [by intros <-|]. intros Hh. left. by rewrite <-Hh. Qed.

Lemma settles_trans s1 s2 s3 : settles s1 s2 → settles s2 s3 → settles s1 s3.
Proof.
  intros [? ? ? ? ? ? Hd1 Ho1] [? ? ? ? ? ? Hd2 Ho2]. split; try congruence; [auto| |].
  - intros [Hh Hf]%Hd1. apply Hd2 in Hh as [? ?]. split; congruence.
  - intros [[Hh Hf]|(Hh & e & Hf)]%Ho1.
    + apply Ho2 in Hh as [[? ?]|(? & e & ?)]; [left|right]; rewrite <-Hf; eauto.
    + apply Hd2 in Hh as [? ?]. right. split; [done|]. exists e. congruence.
Qed.

Lemma run_settles eh {A} (p : prog A) : ∀ s, fctx (the s) = true →
  settles s (run_handler eh p s).2.
Proof.
  unfold run_handler.
  induction p as [A a|A B p IHp k IHk|A op|e|A v|A p IHp h IHh]; intros s Hs; cbn.
  - apply settles_frame, frame_refl.
  - unfold mbind, go_bind. specialize (IHp s Hs).
    destruct (run_with _ p s) as [[a|v] s']; [|done]. cbn in IHp |- *.
    eapply settles_trans; [done|]. apply IHk. by rewrite (se_fctx _ _ IHp).
  - apply settles_frame, exec_frame.
  - unfold mbind at 1, go_bind at 1. pose proof (frame_check s) as Hc.
    destruct (check s) as [[u|v] s1]; [|by apply settles_frame]. cbn [fst snd] in Hc |- *.
    eapply settles_trans; [by apply settles_frame|]. clear u.
    unfold mbind at 1, go_bind at 1.
    rewrite get_ctx_run. cbn.
    destruct e as [e|]; [|apply settles_frame, frame_refl].
    destruct (handled (the s1)) eqn:Eh; [apply settles_frame, frame_refl|].
    set (s2 := mkSt (set_handled (the s1)) (rc s1) (funnel s1)).
    destruct (call_funnel_spec eh e s2) as [_ Hfr]; [done|cbn; by rewrite (fr_fctx _ _ Hc)|].
    unfold mbind, go_bind, put_ctx, go_modify. fold s2. destruct Hfr. cbn in *.
    split; try done; [congruence|]. intros _. right. split; [done|]. by exists e.
  - apply settles_frame, frame_refl.
  - unfold go_recover. specialize (IHp s Hs).
    destruct (run_with _ p s) as [[a|v] s']; [done|]. cbn in IHp |- *.
    eapply settles_trans; [done|]. apply IHh. by rewrite (se_fctx _ _ IHp).
Qed.
End programs.
