(* ===== verification/Isolation.v ===== *)
(** * Requests do not see each other

    Two contexts from the pool differ in what their backing arrays look like and
    in nothing else. No program can tell them apart: every method of [Ctx] gives
    the same answer on both and leaves them indistinguishable. *)

From S2P Require Import Prelude Bytes Slice Params Accept Fasthttp Errors Ctx Handler.

Section isolation.
Context `{HA : Any} `{F : Fasthttp} `{HG : AppendGrowth} `{HS : Stored} `{HB : Build}.

(** Equal but for the backing arrays. *)
Record csim (c1 c2 : Ctx) : Prop := {
  cs_poisoned : poisoned c1 = poisoned c2;
  cs_fctx : fctx c1 = fctx c2;
  cs_app : app c1 = app c2;
  cs_ctx : ctx c1 = ctx c2;
  cs_params1 : params_ok (params c1);
  cs_params2 : params_ok (params c2);
  cs_params : live (slots (params c1)) = live (slots (params c2));
  cs_store1 : slice_ok (store c1);
  cs_store2 : slice_ok (store c2);
  cs_store : live (store c1) = live (store c2);
  cs_handled : handled c1 = handled c2;
  cs_streamFn : streamFn c1 = streamFn c2;
  cs_heartbeat : streamHeartbeat c1 = streamHeartbeat c2;
  cs_streamSet : streamSet c1 = streamSet c2;
  cs_route : route c1 = route c2;
}.

Record sim (s1 s2 : St) : Prop := {
  sim_ctx : csim (the s1) (the s2);
  sim_rc : rc s1 = rc s2;
  sim_funnel : funnel s1 = funnel s2;
}.

(** Two computations that answer alike on states that look alike. *)
Definition alike {A} (m1 m2 : M A) : Prop := ∀ s1 s2,
  sim s1 s2 → (m1 s1).1 = (m2 s2).1 ∧ sim (m1 s1).2 (m2 s2).2.

Lemma alike_ret {A} (a : A) : alike (mret a) (mret a).
Proof. by intros s1 s2. Qed.

Lemma alike_panic {A} v : alike (go_panic v : M A) (go_panic v).
Proof. by intros s1 s2. Qed.

Lemma alike_panic_if b v : alike (go_panic_if b v) (go_panic_if b v).
Proof. destruct b; [apply alike_panic | apply alike_ret]. Qed.

Lemma alike_bind {A B} (m1 m2 : M A) (f1 f2 : A → M B) :
  alike m1 m2 → (∀ a, alike (f1 a) (f2 a)) → alike (m1 ≫= f1) (m2 ≫= f2).
Proof.
  intros Hm Hf s1 s2 Hs. destruct (Hm s1 s2 Hs) as [Ho Hs']. unfold mbind, go_bind.
  destruct (m1 s1) as [[a|v] s1'], (m2 s2) as [[a'|v'] s2']; cbn in *; simplify_eq; [|done].
  by apply Hf.
Qed.

Lemma alike_recover {A} (m1 m2 : M A) h1 h2 :
  alike m1 m2 → (∀ v, alike (h1 v) (h2 v)) → alike (go_recover m1 h1) (go_recover m2 h2).
Proof.
  intros Hm Hh s1 s2 Hs. destruct (Hm s1 s2 Hs) as [Ho Hs']. unfold go_recover.
  destruct (m1 s1) as [[a|v] s1'], (m2 s2) as [[a'|v'] s2']; cbn in *; simplify_eq; [done|].
  by apply Hh.
Qed.

Lemma alike_get_ctx {A} (f1 f2 : Ctx → M A) :
  (∀ c1 c2, csim c1 c2 → alike (f1 c1) (f2 c2)) → alike (get_ctx ≫= f1) (get_ctx ≫= f2).
Proof. intros Hf s1 s2 Hs. by apply (Hf (the s1) (the s2) (sim_ctx _ _ Hs)). Qed.

Lemma alike_read {A} (f : Ctx → A) :
  (∀ c1 c2, csim c1 c2 → f c1 = f c2) → alike (f <$> get_ctx) (f <$> get_ctx).
Proof.
  intros Hf s1 s2 Hs. split; [|done]. change (Ret (E := panic_value err) (f (the s1)) = Ret (f (the s2))).
  f_equal. apply Hf, Hs.
Qed.

Lemma alike_check : alike check check.
Proof.
  apply alike_get_ctx. intros c1 c2 Hc. rewrite (cs_poisoned _ _ Hc). apply alike_panic_if.
Qed.

Lemma alike_deref {A} (f : RequestCtx → A * RequestCtx) : alike (deref f) (deref f).
Proof.
  intros s1 s2 [Hc Hr Hf]. unfold deref. rewrite (cs_fctx _ _ Hc), Hr.
  destruct (fctx (the s2)); [|by split]. by destruct (f (rc s2)).
Qed.

Lemma alike_put_ctx f :
  (∀ c1 c2, csim c1 c2 → csim (f c1) (f c2)) → alike (put_ctx f) (put_ctx f).
Proof. intros Hf s1 s2 [Hc Hr Hn]. split; [done|]. split; [by apply Hf|done|done]. Qed.
End isolation.

#[export] Hint Resolve alike_ret alike_panic alike_panic_if alike_check alike_deref : rice.

Section programs.
Context `{HA : Any} `{F : Fasthttp} `{HG : AppendGrowth} `{HS : Stored} `{HB : Build}.

Lemma Get_live p1 p2 x : live (slots p1) = live (slots p2) → Get p1 x = Get p2 x.
Proof. intros Hl. unfold Get. by rewrite Hl. Qed.

Lemma csim_set_entry i v c1 c2 :
  csim c1 c2 → csim (set_store (set_entry i v (store c1)) c1) (set_store (set_entry i v (store c2)) c2).
Proof.
  intros []. split; try done; cbn.
  - by apply set_entry_ok.
  - by apply set_entry_ok.
  - rewrite !live_set_entry by done. by rewrite cs_store0.
Qed.

Lemma alike_registerStream hb fn : alike (registerStream hb fn) (registerStream hb fn).
Proof.
  unfold registerStream. destruct fn as [f|]; [|auto with rice].
  apply alike_get_ctx. intros c1 c2 Hc. rewrite (cs_streamSet _ _ Hc).
  apply alike_bind; [auto with rice|intros _].
  apply alike_bind; [apply alike_put_ctx; intros ? ? []; by split|intros _].
  apply alike_bind; [auto with rice|intros []]; [auto with rice|].
  apply alike_put_ctx. intros ? ? []. by split.
Qed.

Lemma exec_alike {A} (op : api A) : alike (exec op) (exec op).
Proof.
  destruct op; cbn.
  - unfold with_fctx. apply alike_bind; auto with rice.
  - unfold Param. apply alike_bind; [auto with rice|intros _]. apply alike_read.
    intros c1 c2 Hc. apply Get_live, Hc.
  - unfold Route. apply alike_bind; [auto with rice|intros _]. apply alike_read. by intros ? ? [].
  - unfold Context_. apply alike_bind; [auto with rice|intros _]. apply alike_read.
    intros c1 c2 Hc. by rewrite (cs_ctx _ _ Hc).
  - unfold SetContext. apply alike_bind; [auto with rice|intros _].
    destruct v; [|auto with rice]. apply alike_put_ctx. intros ? ? []. by split.
  - unfold Accepts_, reading, with_fctx.
    apply alike_bind; [apply alike_bind; auto with rice|intros accepts].
    destruct (negotiate _ _); [|auto with rice]. apply alike_bind; auto with rice.
  - unfold JSON. apply alike_bind; [auto with rice|intros _].
    destruct encoded; [|auto with rice]. apply alike_bind; auto with rice.
  - unfold Key_Set. apply alike_bind; [auto with rice|intros _].
    apply alike_bind; [unfold mustBeMade; destruct (id k); auto with rice|intros i].
    apply alike_put_ctx. intros. by apply csim_set_entry.
  - unfold Key_Get. apply alike_bind; [auto with rice|intros _].
    apply alike_bind; [unfold mustBeMade; destruct (id k); auto with rice|intros i].
    apply alike_get_ctx. intros c1 c2 Hc. unfold get_entry. rewrite (cs_store _ _ Hc).
    repeat case_match; auto with rice.
  - unfold Stream. apply alike_bind; [auto with rice|intros _].
    apply alike_bind; [apply alike_registerStream|auto with rice].
  - unfold SSE. apply alike_bind; [auto with rice|intros _].
    apply alike_bind; [auto with rice|intros _]. destruct fn; [|auto with rice].
    apply alike_bind; [auto with rice|intros _].
    apply alike_bind; [apply alike_registerStream|auto with rice].
Qed.

Lemma run_with_alike f {A} (p : prog A) :
  (∀ e, alike (f e) (f e)) → alike (run_with f p) (run_with f p).
Proof.
  intros Hf. induction p as [A a|A B p IHp k IHk|A op|e|A v|A p IHp h IHh]; cbn.
  - apply alike_ret.
  - by apply alike_bind.
  - apply exec_alike.
  - apply alike_bind; [auto with rice|intros _]. apply alike_get_ctx. intros c1 c2 Hc.
    rewrite (cs_handled _ _ Hc). destruct e; [|auto with rice].
    destruct (handled c2); [auto with rice|].
    apply alike_bind; [|done]. apply alike_put_ctx. intros ? ? []. by split.
  - apply alike_panic.
  - by apply alike_recover.
Qed.

Lemma call_funnel_alike eh e : alike (call_funnel eh e) (call_funnel eh e).
Proof.
  unfold call_funnel, callErrorHandler. apply alike_bind.
  - intros s1 s2 [Hc Hr Hf]. split; [done|]. split; [done|done|]. cbn. by rewrite Hf.
  - intros _. apply alike_recover.
    + apply run_with_alike. intros e'. apply alike_ret.
    + intros v. apply alike_deref.
Qed.

Lemma run_handler_alike eh {A} (p : prog A) : alike (run_handler eh p) (run_handler eh p).
Proof. apply run_with_alike, call_funnel_alike. Qed.
End programs.
