(* ===== verification/App.v ===== *)
(** * Registration and Build

    [src/app.go], [route.go], [group.go], [method.go] and [build.go]: what an App
    records while routes, groups and middleware are registered, every guard of
    every registration call, and the compilation [Build] does. Groups are shared:
    a route keeps a reference to its group, and middleware added to the group
    later still reaches it, so the groups of an App are a heap. *)

From S2P Require Import Prelude Bytes Pattern Slice Params Tree TreeSpec TreeLookup Router Accept Fasthttp Errors Ctx Handler.

Section app.
Context `{HA : Any} `{F : Fasthttp} `{HG : AppendGrowth} `{HS : Stored} `{HB : Build}.

(** ** Methods *)

Definition mGET : nat := 0.
Definition mPOST : nat := 1.
Definition mPUT : nat := 2.
Definition mPATCH : nat := 3.
Definition mDELETE : nat := 4.
Definition mHEAD : nat := 5.
Definition mOPTIONS : nat := 6.
Definition methodCount : nat := 7.

Definition methodIndex (m : bytes) : option nat :=
  match length m with
  | 3 => if decide (m = bs "GET") then Some mGET
         else if decide (m = bs "PUT") then Some mPUT else None
  | 4 => if decide (m = bs "POST") then Some mPOST
         else if decide (m = bs "HEAD") then Some mHEAD else None
  | 5 => if decide (m = bs "PATCH") then Some mPATCH else None
  | 6 => if decide (m = bs "DELETE") then Some mDELETE else None
  | 7 => if decide (m = bs "OPTIONS") then Some mOPTIONS else None
  | _ => None
  end.

(** ** State *)

Record routeEntry : Type := mkEntry { h : option Handler; pattern : bytes }.

#[export] Instance zero_routeEntry : GoZero routeEntry := mkEntry None [].

Record Group : Type := mkGroup { parent : option nat; g_prefix : bytes; g_mws : list Middleware }.

Record route : Type := mkRoute {
  r_method : bytes; r_path : bytes; r_h : Handler; r_group : option nat; r_mws : list Middleware;
}.

Record App : Type := mkApp {
  trees : list (Router.Tree routeEntry);
  rare : gmap bytes (Router.Tree routeEntry);
  mws : list Middleware;
  groups : list Group;
  routes : list route;
  buildDone : bool;
  built : bool;
  errorHandler : ErrorHandler;
  miss : Handler;
  maxParams : nat;
}.

Definition notFound : Handler := Done (Some ErrNotFound).

Definition New (eh : ErrorHandler) : App :=
  mkApp (replicate methodCount newTree) ∅ [] [] [] false false eh notFound 0.

(** The panics of this part of the package, with what their messages quote. *)
Inductive reg_panic : Type :=
| NilMiddleware (i : nat)
| AfterBuild
| EmptyMethod (path : bytes)
| NotUppercase (method path : bytes)
| NilHandler (method path : bytes)
| AlreadyRegistered (path method : bytes)
| BadRoute (e : route_error)
| PrefixNoSlash (prefix : bytes)
| PrefixTrailingSlash (prefix trimmed : bytes)
| EmptyGroupPath
| GroupPathNoSlash (path prefix : bytes)
| BuildFailed (e : route_error) (method path : bytes).

Definition R (A : Type) : Type := go App reg_panic A.

(** Field updates. *)
Definition set_trees (l : list (Router.Tree routeEntry)) (a : App) : App :=
  mkApp l (rare a) (mws a) (groups a) (routes a) (buildDone a) (built a) (errorHandler a) (miss a) (maxParams a).
Definition set_rare (m : gmap bytes (Router.Tree routeEntry)) (a : App) : App :=
  mkApp (trees a) m (mws a) (groups a) (routes a) (buildDone a) (built a) (errorHandler a) (miss a) (maxParams a).
Definition set_mws (l : list Middleware) (a : App) : App :=
  mkApp (trees a) (rare a) l (groups a) (routes a) (buildDone a) (built a) (errorHandler a) (miss a) (maxParams a).
Definition set_groups (l : list Group) (a : App) : App :=
  mkApp (trees a) (rare a) (mws a) l (routes a) (buildDone a) (built a) (errorHandler a) (miss a) (maxParams a).
Definition set_routes (l : list route) (n : nat) (a : App) : App :=
  mkApp (trees a) (rare a) (mws a) (groups a) l (buildDone a) (built a) (errorHandler a) (miss a) n.
Definition set_buildDone (a : App) : App :=
  mkApp (trees a) (rare a) (mws a) (groups a) (routes a) true (built a) (errorHandler a) (miss a) (maxParams a).
Definition set_built (m : Handler) (a : App) : App :=
  mkApp (trees a) (rare a) (mws a) (groups a) (routes a) (buildDone a) true (errorHandler a) m (maxParams a).

(** ** Trees *)

(** The tree [lookupEntry] reads for a method; an absent one matches nothing. *)
Definition tree_of (a : App) (method : bytes) : Router.Tree routeEntry :=
  match methodIndex method with
  | Some i => default newTree (trees a !! i)
  | None => default newTree (rare a !! method)
  end.

(** [treeFor] followed by a write through the pointer it returns: an uncommon verb
    gets its tree even when the write then fails. *)
Definition set_tree (method : bytes) (t : Router.Tree routeEntry) (a : App) : App :=
  match methodIndex method with
  | Some i => set_trees (<[i := t]> (trees a)) a
  | None => set_rare (<[method := t]> (rare a)) a
  end.

Definition treeFor_Insert (method path : bytes) (e : routeEntry) : R (option route_error) := λ a,
  let '(t, res) := Router.Insert (tree_of a method) path e in (Ret res, set_tree method t a).

Definition lookupEntry (a : App) (method path : bytes) (params : Params)
    : option routeEntry * Params :=
  match methodIndex method with
  | Some i =>
    match trees a !! i with Some t => Router.Lookup t path params | None => (None, params) end
  | None =>
    match rare a !! method with Some t => Router.Lookup t path params | None => (None, params) end
  end.

Definition lookup (a : App) (method path : bytes) (params : Params) : option Handler * Params :=
  let '(e, params) := lookupEntry a method path params in (e ≫= h, params).

(** ** Registration *)

(** [checkMiddleware], which leaves the non-nil middleware. *)
Fixpoint checkMiddleware (i : nat) (l : list (option Middleware)) : R (list Middleware) :=
  match l with
  | [] => mret []
  | None :: _ => go_panic (NilMiddleware i)
  | Some mw :: l' => rest ← checkMiddleware (S i) l'; mret (mw :: rest)
  end.

Definition hasLowercaseByte (s : bytes) : bool := existsb is_lower s.

Definition guard_built : R unit := a ← go_get; go_panic_if (built a) AfterBuild.

Definition register (method path : bytes) (handler : option Handler) (g : option nat)
    (mw : list (option Middleware)) : R unit :=
  mw ← checkMiddleware 0 mw;
  guard_built;;
  go_panic_if (bool_decide (method = [])) (EmptyMethod path);;
  go_panic_if (hasLowercaseByte method) (NotUppercase method path);;
  match handler with
  | None => go_panic (NilHandler method path)
  | Some hd =>
    res ← treeFor_Insert method path (mkEntry (Some hd) path);
    match res with
    | Some ErrDuplicate => go_panic (AlreadyRegistered path method)
    | Some e => go_panic (BadRoute e)
    | None =>
      go_modify (λ a, set_routes (routes a ++ [mkRoute method path hd g mw])
                        (Nat.max (maxParams a) (MaxParams (tree_of a method))) a)
    end
  end.

Definition Handle (method path : bytes) (hd : option Handler) mw : R unit :=
  register method path hd None mw.
Definition GET (path : bytes) (hd : option Handler) mw : R unit := register (bs "GET") path hd None mw.
Definition POST (path : bytes) (hd : option Handler) mw : R unit := register (bs "POST") path hd None mw.
Definition PUT (path : bytes) (hd : option Handler) mw : R unit := register (bs "PUT") path hd None mw.
Definition PATCH (path : bytes) (hd : option Handler) mw : R unit := register (bs "PATCH") path hd None mw.
Definition DELETE (path : bytes) (hd : option Handler) mw : R unit := register (bs "DELETE") path hd None mw.
Definition HEAD (path : bytes) (hd : option Handler) mw : R unit := register (bs "HEAD") path hd None mw.
Definition OPTIONS (path : bytes) (hd : option Handler) mw : R unit := register (bs "OPTIONS") path hd None mw.

Definition Use (mw : list (option Middleware)) : R unit :=
  mw ← checkMiddleware 0 mw; guard_built;; go_modify (λ a, set_mws (mws a ++ mw) a).

(** ** Groups *)

Definition checkGroupPrefix (prefix : bytes) : R unit :=
  match prefix with
  | [] => mret tt
  | c :: _ =>
    go_panic_if (negb (bool_decide (c = "/"%char))) (PrefixNoSlash prefix);;
    go_panic_if (bool_decide (last prefix = Some "/"%char))
      (PrefixTrailingSlash prefix (trim_right (λ c, bool_decide (c = "/"%char)) prefix))
  end.

Definition checkGroupPath (prefix path : bytes) : R unit :=
  match path with
  | [] => go_panic_if (bool_decide (prefix = [])) EmptyGroupPath
  | c :: _ => go_panic_if (negb (bool_decide (c = "/"%char))) (GroupPathNoSlash path prefix)
  end.

(** A new group is a new cell of the heap. *)
Definition new_group (g : Group) : R nat := λ a,
  (Ret (length (groups a)), set_groups (groups a ++ [g]) a).

Definition App_Group (prefix : bytes) (mw : list (option Middleware)) : R nat :=
  checkGroupPrefix prefix;; mw ← checkMiddleware 0 mw; guard_built;;
  new_group (mkGroup None prefix mw).

Definition group (a : App) (g : nat) : Group := default (mkGroup None [] []) (groups a !! g).

Definition Group_Group (g : nat) (prefix : bytes) (mw : list (option Middleware)) : R nat :=
  checkGroupPrefix prefix;; mw ← checkMiddleware 0 mw; guard_built;;
  a ← go_get; new_group (mkGroup (Some g) (g_prefix (group a g) ++ prefix) mw).

Definition Group_Use (g : nat) (mw : list (option Middleware)) : R unit :=
  mw ← checkMiddleware 0 mw; guard_built;;
  go_modify (λ a, set_groups
    (alter (λ x, mkGroup (parent x) (g_prefix x) (g_mws x ++ mw)) g (groups a)) a).

Definition Group_Handle (g : nat) (method path : bytes) (hd : option Handler) mw : R unit :=
  a ← go_get;
  checkGroupPath (g_prefix (group a g)) path;;
  register method (g_prefix (group a g) ++ path) hd (Some g) mw.

Definition Group_GET g path hd mw : R unit := Group_Handle g (bs "GET") path hd mw.
Definition Group_POST g path hd mw : R unit := Group_Handle g (bs "POST") path hd mw.
Definition Group_PUT g path hd mw : R unit := Group_Handle g (bs "PUT") path hd mw.
Definition Group_PATCH g path hd mw : R unit := Group_Handle g (bs "PATCH") path hd mw.
Definition Group_DELETE g path hd mw : R unit := Group_Handle g (bs "DELETE") path hd mw.
Definition Group_HEAD g path hd mw : R unit := Group_Handle g (bs "HEAD") path hd mw.
Definition Group_OPTIONS g path hd mw : R unit := Group_Handle g (bs "OPTIONS") path hd mw.

(** ** Build *)

(** [groupChain]: the walk up, then reversed. A parent is older than its child, so
    the walk is no longer than the heap. *)
Fixpoint group_walk (fuel : nat) (gs : list Group) (g : option nat) : list Group :=
  match fuel, g with
  | S fuel', Some i =>
    match gs !! i with Some x => x :: group_walk fuel' gs (parent x) | None => [] end
  | _, _ => []
  end.

Definition groupChain (gs : list Group) (g : option nat) : list Group :=
  rev (group_walk (S (length gs)) gs g).

Definition middlewareFor (a : App) (r : route) : list Middleware :=
  mws a ++ concat (map g_mws (groupChain (groups a) (r_group r))) ++ r_mws r.

(** The entry [build] installs for a route. *)
Definition compiled (a : App) (r : route) : routeEntry :=
  mkEntry (Some (Compile (r_h r) (middlewareFor a r))) (r_path r).

(** The loop over the routes. *)
Fixpoint build_routes (rs : list route) : R unit :=
  match rs with
  | [] => mret tt
  | r :: rs' =>
    a ← go_get;
    res ← treeFor_Insert (r_method r) (r_path r) (compiled a r);
    match res with
    | Some e => go_panic (BuildFailed e (r_method r) (r_path r))
    | None => build_routes rs'
    end
  end.

Definition build : R unit :=
  go_modify (set_trees (replicate methodCount newTree));;
  go_modify (set_rare ∅);;
  a ← go_get;
  build_routes (routes a);;
  go_modify (λ a, set_built (Compile notFound (mws a)) a).

(** [buildOnce.Do]: the body runs at most once, whether or not it panics. *)
Definition Build_ : R unit :=
  a ← go_get;
  if buildDone a then mret tt else go_modify set_buildDone;; build.
End app.
