(* ===== verification/AppSpec.v ===== *)
(** * What registration guarantees

    The state invariant of registration, the proof that [Build] repeats it without
    failing, and what the built App answers. *)

From S2P Require Import Prelude Bytes Pattern Slice Params Tree TreeSpec TreeLookup Router Accept Fasthttp Errors Ctx Handler App.

(** ** Tables that were accepted entry by entry *)

Section accepted.
Context {E : Type} `{GoZero E} `{AppendGrowth}.
Implicit Types (log : table E).

Inductive accepted : table E → Prop :=
| accepted_nil : accepted []
| accepted_snoc log p e :
  accepted log → (table_insert log p e).2 = None → accepted (log ++ [(p, e)]).

(** Refusals only look at patterns. *)
Lemma first_refusal_patterns pattern us log log' :
  log.*1 = log'.*1 → first_refusal pattern us log = first_refusal pattern us log'.
Proof.
  revert log'. induction log as [|[p e] log IH]; intros [|[p' e'] log']; cbn; try done.
  intros [= <- Hl]. rewrite (IH log' Hl). done.
Qed.

Lemma table_insert_patterns log log' p e e' :
  log.*1 = log'.*1 → (table_insert log p e).2 = (table_insert log' p e').2.
Proof.
  intros Hl. unfold table_insert. destruct (parsePattern p) as [segs|]; [|done].
  rewrite (first_refusal_patterns _ _ log log' Hl). by destruct (first_refusal _ _ _).
Qed.

Lemma accepted_patterns log log' : accepted log → log.*1 = log'.*1 → accepted log'.
Proof.
  intros Ha. revert log'. induction Ha as [|log p e Ha IH Hi]; intros log' Hl.
  { destruct log'; [constructor|done]. }
  destruct (decide (log' = [])) as [->|Hne]; [by destruct log|].
  destruct (exists_last Hne) as (l & [p' e'] & ->).
  rewrite !fmap_app in Hl. cbn in Hl. apply app_inj_tail in Hl as [Hl <-].
  constructor; [by apply IH|]. by rewrite <-(table_insert_patterns log l p e e').
Qed.

Lemma accepted_prefix log1 p e log2 :
  accepted (log1 ++ (p, e) :: log2) → (table_insert log1 p e).2 = None.
Proof.
  induction log2 as [|x log2 IH] using rev_ind; intros Ha.
  - inversion Ha as [Hn|log p' e' Ha' Hi Heq].
    + by destruct log1.
    + by apply app_inj_tail in Heq as [-> [= -> ->]].
  - rewrite app_comm_cons, app_assoc in Ha. inversion Ha as [Hn|log p' e' Ha' Hi Heq].
    + by destruct (log1 ++ _).
    + apply app_inj_tail in Heq as [-> _]. by apply IH.
Qed.

Lemma table_insert_None log p e :
  (table_insert log p e).2 = None → (table_insert log p e).1 = log ++ [(p, e)].
Proof.
  unfold table_insert. destruct (parsePattern p); [|done]. by destruct (first_refusal _ _ _).
Qed.

Lemma table_insert_Some log p e err :
  (table_insert log p e).2 = Some err → (table_insert log p e).1 = log.
Proof.
  unfold table_insert. destruct (parsePattern p); [|done]. by destruct (first_refusal _ _ _).
Qed.
End accepted.

Section spec.
Context `{HA : Any} `{F : Fasthttp} `{HG : AppendGrowth} `{HS : Stored} `{HB : Build}.

(** ** The tree of a method *)

Lemma methodIndex_spec m i :
  methodIndex m = Some i →
  i < methodCount ∧
  [bs "GET"; bs "POST"; bs "PUT"; bs "PATCH"; bs "DELETE"; bs "HEAD"; bs "OPTIONS"] !! i = Some m.
Proof.
  unfold methodIndex. destruct (length m) as [|[|[|[|[|[|[|[|n]]]]]]]]; try done;
    repeat case_decide; try done; intros [= <-]; subst; split; try done; unfold methodCount;
    vm_compute; lia.
Qed.

Lemma methodIndex_inj m m' i : methodIndex m = Some i → methodIndex m' = Some i → m = m'.
Proof. intros [_ H1]%methodIndex_spec [_ H2]%methodIndex_spec. congruence. Qed.

Lemma tree_of_set_tree a m t m' :
  length (trees a) = methodCount →
  tree_of (set_tree m t a) m' = if decide (m' = m) then t else tree_of a m'.
Proof.
  intros Hlen. unfold tree_of, set_tree.
  destruct (methodIndex m) as [i|] eqn:Em, (methodIndex m') as [j|] eqn:Em'; cbn [trees rare set_trees set_rare].
  - destruct (methodIndex_spec m i Em) as [Hi _]. case_decide as Hm.
    + subst. rewrite Em in Em'. injection Em' as ->.
      rewrite list_lookup_insert_eq by lia. done.
    + rewrite list_lookup_insert_ne; [done|]. intros ->. by apply Hm, (methodIndex_inj _ _ j).
  - rewrite decide_False by congruence. done.
  - rewrite decide_False by congruence. done.
  - case_decide; [subst; by rewrite lookup_insert_eq|by rewrite lookup_insert_ne].
Qed.

Lemma length_set_tree a m t : length (trees (set_tree m t a)) = length (trees a).
Proof. unfold set_tree. destruct (methodIndex m); [apply length_insert|done]. Qed.

Lemma lookupEntry_tree a m path params :
  lookupEntry a m path params = Router.Lookup (tree_of a m) path params.
Proof.
  unfold lookupEntry, tree_of. destruct (methodIndex m) as [i|].
  - by destruct (trees a !! i).
  - by destruct (rare a !! m).
Qed.

(** ** The routes of a method *)

Definition route_table (f : route → routeEntry) (rs : list route) (m : bytes) : table routeEntry :=
  map (λ r, (r_path r, f r)) (filter (λ r, r_method r = m) rs).

Definition raw (r : route) : routeEntry := App.mkEntry (Some (r_h r)) (r_path r).

Lemma route_table_snoc f rs r m :
  route_table f (rs ++ [r]) m =
  if decide (r_method r = m) then route_table f rs m ++ [(r_path r, f r)] else route_table f rs m.
Proof.
  unfold route_table. rewrite filter_app, filter_cons, filter_nil.
  case_decide; [by rewrite map_app|by rewrite app_nil_r].
Qed.

Lemma route_table_patterns f g rs m : (route_table f rs m).*1 = (route_table g rs m).*1.
Proof. unfold route_table. by rewrite <-!list_fmap_compose. Qed.

(** The registration-time trees hold the routes recorded so far. *)
Record reg_ok (a : App) : Prop := {
  rg_length : length (trees a) = methodCount;
  rg_trees : built a = false → ∀ m, represents (tree_of a m) (route_table raw (routes a) m);
  rg_accepted : ∀ m, accepted (route_table raw (routes a) m);
  rg_room : ∀ m, table_params (route_table raw (routes a) m) <= maxParams a;
}.

Lemma New_ok eh : reg_ok (New eh).
Proof.
  split; [done| |intros m; constructor|intros m; cbn; lia].
  intros _ m. unfold tree_of, New. cbn [trees rare].
  replace (match methodIndex m with Some i => _ | None => _ end) with (newTree (H := routeEntry));
    [apply newTree_represents|].
  destruct (methodIndex m) as [i|] eqn:E; [|by rewrite lookup_empty].
  apply methodIndex_spec in E as [Hi _]. by rewrite lookup_replicate_2.
Qed.

(** ** Registration keeps the invariant *)

Definition keeps {A} (P : App → Prop) (m : R A) : Prop := ∀ a, P a → P (m a).2.

Lemma keeps_bind {A B} P (m : R A) (f : A → R B) :
  keeps P m → (∀ x, keeps P (f x)) → keeps P (m ≫= f).
Proof.
  intros Hm Hf a Ha. specialize (Hm a Ha). unfold mbind, go_bind.
  destruct (m a) as [[x|v] a']; [by apply Hf|done].
Qed.

Lemma keeps_same {A} P (m : R A) : (∀ a, (m a).2 = a) → keeps P m.
Proof. intros Hm a Ha. by rewrite Hm. Qed.

Lemma checkMiddleware_same i l a : (checkMiddleware i l a).2 = a.
Proof.
  revert i. induction l as [|[mw|] l IH]; intros i; cbn; [done| |done].
  unfold mbind, go_bind. specialize (IH (S i)).
  by destruct (checkMiddleware (S i) l a) as [[]].
Qed.

Lemma guard_same a : (guard_built a).2 = a.
Proof. unfold guard_built, mbind, go_bind, go_get. by destruct (built a). Qed.

Lemma panic_if_same b v (a : App) : (go_panic_if b v a : outcome reg_panic unit * App).2 = a.
Proof. by destruct b. Qed.

Lemma treeFor_Insert_spec a m path e log :
  length (trees a) = methodCount → represents (tree_of a m) log →
  ∃ t, treeFor_Insert m path e a = (Ret (table_insert log path e).2, set_tree m t a) ∧
       represents t (table_insert log path e).1.
Proof.
  intros Hlen Hrep. destruct (Insert_table _ _ path e Hrep) as [He Ht].
  unfold treeFor_Insert. destruct (Router.Insert (tree_of a m) path e) as [t res].
  exists t. cbn in He, Ht. by rewrite He.
Qed.

Lemma set_tree_fields m t a :
  routes (set_tree m t a) = routes a ∧ built (set_tree m t a) = built a ∧
  mws (set_tree m t a) = mws a ∧ groups (set_tree m t a) = groups a ∧
  maxParams (set_tree m t a) = maxParams a.
Proof. unfold set_tree. by destruct (methodIndex m). Qed.

(** The guards of [register], as one condition. *)
Definition register_guard (a : App) (method path : bytes) (handler : option Handler)
    (mw : list (option Middleware)) : option (Handler * list Middleware) :=
  match (checkMiddleware 0 mw a).1, handler with
  | Ret mws, Some hd =>
    if built a || bool_decide (method = []) || hasLowercaseByte method then None else Some (hd, mws)
  | _, _ => None
  end.

(** [register], on an App that satisfies the invariant: either some guard panics
    and nothing changes, or the pattern is refused as the table refuses it and the
    routes do not change, or the route is recorded and its tree holds it. *)
Lemma register_spec a method path handler g mw :
  reg_ok a →
  match register_guard a method path handler mw with
  | None => ∃ v, register method path handler g mw a = (Panic v, a)
  | Some (hd, mws') =>
    let e := App.mkEntry (Some hd) path in
    let log := route_table raw (routes a) method in
    ∃ t, represents t (table_insert log path e).1 ∧
    match (table_insert log path e).2 with
    | Some ErrDuplicate =>
      register method path handler g mw a = (Panic (AlreadyRegistered path method), set_tree method t a)
    | Some err => register method path handler g mw a = (Panic (BadRoute err), set_tree method t a)
    | None => ∃ n, maxParams a <= n ∧ MaxParams t <= n ∧ register method path handler g mw a =
        (Ret tt, set_routes (routes a ++ [mkRoute method path hd g mws']) n (set_tree method t a))
    end
  end.
Proof.
  intros [Hlen Htrees _ _]. unfold register_guard, register, mbind, go_bind.
  pose proof (checkMiddleware_same 0 mw a) as Hs.
  destruct (checkMiddleware 0 mw a) as [[mws'|v] a'] eqn:Em; cbn in Hs; subst a'; cbn [fst];
    [|by exists v].
  unfold guard_built, mbind, go_bind, go_get.
  destruct (built a) eqn:Eb; [destruct handler; by exists AfterBuild|]. cbn [orb go_panic_if].
  unfold mret, go_ret.
  case_bool_decide as Hm; [destruct handler; by exists (EmptyMethod path)|]. cbn [orb go_panic_if].
  unfold mret, go_ret.
  destruct (hasLowercaseByte method) eqn:El; [destruct handler; by exists (NotUppercase method path)|].
  cbn [go_panic_if]. unfold mret, go_ret.
  destruct handler as [hd|]; [|by exists (NilHandler method path)].
  destruct (treeFor_Insert_spec a method path (App.mkEntry (Some hd) path) _ Hlen (Htrees eq_refl method))
    as (t & Hi & Ht).
  exists t. split; [done|]. rewrite Hi.
  pose proof (set_tree_fields method t a) as (Hr & _ & _ & _ & Hmax).
  destruct (table_insert _ _ _).2 as [[]|]; try done.
  eexists. split; [|split; [|unfold go_modify; by rewrite Hr]]; rewrite Hmax; [lia|].
  rewrite tree_of_set_tree, decide_True by done. lia.
Qed.

Lemma register_keeps method path handler g mw : keeps reg_ok (register method path handler g mw).
Proof.
  intros a Ha. pose proof (register_spec a method path handler g mw Ha) as Hreg.
  destruct (register_guard a method path handler mw) as [[hd mws']|] eqn:Eg.
  2:{ destruct Hreg as [v ->]. done. }
  destruct Hreg as (t & Ht & Hreg). destruct Ha as [Hlen Htrees Hacc Hroom].
  assert (built a = false) as Hb.
  { unfold register_guard in Eg. destruct (checkMiddleware 0 mw a).1, handler, (built a); done. }
  assert (table_insert (route_table raw (routes a) method) path (App.mkEntry (Some hd) path) =
          table_insert (route_table raw (routes a) method) path (App.mkEntry (Some hd) path)) as Ei by done.
  destruct (table_insert _ path _).2 as [err|] eqn:Ee in Hreg.
  - apply table_insert_Some in Ee. rewrite Ee in Ht.
    assert (reg_ok (set_tree method t a)) as Hok.
    { pose proof (set_tree_fields method t a) as (Hr & Hbt & _ & _ & Hmax). split.
      - by rewrite length_set_tree.
      - intros _ m. rewrite Hr, tree_of_set_tree by done. case_decide; [by subst|by apply Htrees].
      - intros m. rewrite Hr. apply Hacc.
      - intros m. rewrite Hr, Hmax. apply Hroom. }
    destruct err; rewrite Hreg; done.
  - pose proof (table_insert_None _ _ _ Ee) as Ei'. rewrite Ei' in Ht.
    destruct Hreg as (n & Hn1 & Hn2 & ->). cbn [snd].
    split; cbn [routes set_routes trees built maxParams].
    + by rewrite length_set_tree.
    + intros _ m. rewrite route_table_snoc. cbn [r_method r_path].
      change (tree_of (set_routes _ n (set_tree method t a)) m) with (tree_of (set_tree method t a) m).
      rewrite tree_of_set_tree by done.
      destruct (decide (m = method)) as [->|Hm]; [by rewrite decide_True|].
      rewrite decide_False by congruence. by apply Htrees.
    + intros m. rewrite route_table_snoc. cbn [r_method r_path].
      case_decide; [subst m|apply Hacc]. by constructor.
    + intros m. rewrite route_table_snoc. cbn [r_method r_path].
      case_decide; [subst m|specialize (Hroom m); lia].
      unfold MaxParams in Hn2. rewrite (rep_params _ _ Ht) in Hn2. exact Hn2.
Qed.

Lemma reg_ok_fields a a' :
  trees a' = trees a → rare a' = rare a → routes a' = routes a → built a' = built a →
  maxParams a' = maxParams a → reg_ok a → reg_ok a'.
Proof.
  intros Ht Hr Hs Hb Hm [Hlen Htrees Hacc Hroom]. split; rewrite ?Ht, ?Hs, ?Hb, ?Hm.
  - exact Hlen.
  - intros Hbuilt m. unfold tree_of. rewrite Ht, Hr. exact (Htrees Hbuilt m).
  - exact Hacc.
  - exact Hroom.
Qed.

Lemma modify_keeps (f : App → App) :
  (∀ a, trees (f a) = trees a ∧ rare (f a) = rare a ∧ routes (f a) = routes a ∧ built (f a) = built a ∧
        maxParams (f a) = maxParams a) →
  keeps reg_ok (go_modify f : R unit).
Proof. intros Hf a Ha. destruct (Hf a) as (? & ? & ? & ? & ?). by apply (reg_ok_fields a). Qed.

Lemma checkPrefix_same prefix a : (checkGroupPrefix prefix a).2 = a.
Proof.
  unfold checkGroupPrefix. destruct prefix as [|c p]; [done|]. unfold mbind, go_bind.
  by repeat (case_bool_decide; cbn).
Qed.

Lemma checkPath_same prefix path a : (checkGroupPath prefix path a).2 = a.
Proof. unfold checkGroupPath. destruct path; by case_bool_decide. Qed.

(** ** Build *)

(** Installing compiled routes, after those already installed. *)
Lemma build_routes_spec fa todo : ∀ done a,
  length (trees a) = methodCount →
  (∀ r, compiled a r = compiled fa r) →
  (∀ m, represents (tree_of a m) (route_table (compiled fa) done m)) →
  (∀ m, accepted (route_table (compiled fa) (done ++ todo) m)) →
  ∃ a', build_routes todo a = (Ret tt, a') ∧ length (trees a') = methodCount ∧
    (∀ m, represents (tree_of a' m) (route_table (compiled fa) (done ++ todo) m)) ∧
    routes a' = routes a ∧ mws a' = mws a ∧ groups a' = groups a ∧ maxParams a' = maxParams a ∧
    errorHandler a' = errorHandler a ∧ built a' = built a.
Proof.
  induction todo as [|r todo IH]; intros done a Hlen Hc Hrep Hacc; cbn [build_routes].
  { exists a. rewrite app_nil_r. split_and!; try reflexivity; assumption. }
  unfold mbind, go_bind, go_get. rewrite Hc.
  destruct (treeFor_Insert_spec a (r_method r) (r_path r) (compiled fa r) _ Hlen (Hrep (r_method r)))
    as (t & -> & Ht).
  pose proof (Hacc (r_method r)) as Hr.
  rewrite cons_middle, app_assoc in Hr.
  assert ((table_insert (route_table (compiled fa) done (r_method r)) (r_path r) (compiled fa r)).2
          = None) as Hn.
  { unfold route_table in Hr. rewrite !filter_app, !map_app, <-app_assoc in Hr.
    rewrite filter_cons, decide_True in Hr by reflexivity.
    eapply accepted_prefix. exact Hr. }
  rewrite Hn. pose proof (table_insert_None _ _ _ Hn) as Hi. rewrite Hi in Ht.
  destruct (IH (done ++ [r]) (set_tree (r_method r) t a)) as (a' & Hb & Hl & Hrep' & Hrest).
  - by rewrite length_set_tree.
  - intros r'. rewrite <-Hc. unfold compiled, middlewareFor.
    pose proof (set_tree_fields (r_method r) t a) as (_ & _ & -> & -> & _). reflexivity.
  - intros m. rewrite tree_of_set_tree, route_table_snoc by exact Hlen.
    destruct (decide (m = r_method r)) as [->|Hm].
    + rewrite decide_True by reflexivity. exact Ht.
    + rewrite decide_False by congruence. apply Hrep.
  - intros m. rewrite <-app_assoc. apply Hacc.
  - exists a'. rewrite <-app_assoc in Hrep'. split_and!; try assumption.
    + destruct Hrest as (-> & _). apply set_tree_fields.
    + destruct Hrest as (_ & -> & _). apply set_tree_fields.
    + destruct Hrest as (_ & _ & -> & _). apply set_tree_fields.
    + destruct Hrest as (_ & _ & _ & -> & _). unfold set_tree. by destruct (methodIndex _).
    + destruct Hrest as (_ & _ & _ & _ & -> & _). unfold set_tree. by destruct (methodIndex _).
    + destruct Hrest as (_ & _ & _ & _ & _ & ->). apply set_tree_fields.
Qed.

(** [build] never panics: it repeats insertions that succeeded, on trees that only
    differ in the handlers, and the App then serves the compiled routes. *)
Lemma build_spec a :
  reg_ok a →
  ∃ a', build a = (Ret tt, a') ∧ built a' = true ∧ miss a' = Compile notFound (mws a) ∧
    (∀ m, represents (tree_of a' m) (route_table (compiled a) (routes a) m)) ∧
    routes a' = routes a ∧ maxParams a' = maxParams a ∧ errorHandler a' = errorHandler a ∧
    length (trees a') = methodCount.
Proof.
  intros [Hlen _ Hacc _]. unfold build, mbind, go_bind, go_modify, go_get.
  set (a0 := set_rare ∅ (set_trees (replicate methodCount newTree) a)).
  destruct (build_routes_spec a (routes a) [] a0) as (a' & Hb & Hl & Hrep & Hr & Hm & Hg & Hmp & He & _).
  - reflexivity.
  - reflexivity.
  - intros m. cbn. pose proof (rg_trees _ (New_ok (errorHandler a)) eq_refl m) as Hnew. exact Hnew.
  - intros m. apply (accepted_patterns (route_table raw (routes a) m)); [apply Hacc|].
    apply route_table_patterns.
  - change (routes a0) with (routes a). rewrite Hb.
    eexists. split; [reflexivity|]. cbn. rewrite Hm. split_and!; try reflexivity; assumption.
Qed.

(** ** Sequences of registration calls *)

Inductive reg_op : Type :=
| OHandle (method path : bytes) (hd : option Handler) (mw : list (option Middleware))
| OUse (mw : list (option Middleware))
| OGroup (prefix : bytes) (mw : list (option Middleware))
| OSubGroup (g : nat) (prefix : bytes) (mw : list (option Middleware))
| OGroupUse (g : nat) (mw : list (option Middleware))
| OGroupHandle (g : nat) (method path : bytes) (hd : option Handler) (mw : list (option Middleware)).

(** A call through a group that does not exist is not a call at all. *)
Definition on_group (g : nat) (m : R unit) : R unit :=
  a ← go_get; if decide (g < length (groups a)) then m else mret tt.

Definition run_op (op : reg_op) : R unit :=
  match op with
  | OHandle method path hd mw => Handle method path hd mw
  | OUse mw => Use mw
  | OGroup prefix mw => App_Group prefix mw;; mret tt
  | OSubGroup g prefix mw => on_group g (Group_Group g prefix mw;; mret tt)
  | OGroupUse g mw => on_group g (Group_Use g mw)
  | OGroupHandle g method path hd mw => on_group g (Group_Handle g method path hd mw)
  end.

(** A call that panics leaves what it had written; the next one goes on. *)
Definition run_ops (ops : list reg_op) (a : App) : App := foldl (λ a op, (run_op op a).2) a ops.

Lemma mw_keeps {A} (f : list Middleware → R A) mw :
  (∀ l, keeps reg_ok (f l)) → keeps reg_ok (l ← checkMiddleware 0 mw; guard_built;; f l).
Proof.
  intros Hf. apply keeps_bind; [apply keeps_same, checkMiddleware_same|intros l].
  apply keeps_bind; [apply keeps_same, guard_same|intros _]. apply Hf.
Qed.

Lemma on_group_keeps P g m : keeps P m → keeps P (on_group g m).
Proof. intros Hm a Ha. unfold on_group, mbind, go_bind, go_get. case_decide; [by apply Hm|done]. Qed.

Lemma run_op_keeps op : keeps reg_ok (run_op op).
Proof.
  destruct op; cbn [run_op]; try apply on_group_keeps.
  - apply register_keeps.
  - apply mw_keeps. intros l. by apply modify_keeps.
  - apply keeps_bind; [|intros n; by apply keeps_same].
    apply keeps_bind; [apply keeps_same, checkPrefix_same|intros _].
    apply mw_keeps. intros l a. by apply reg_ok_fields.
  - apply keeps_bind; [|intros n; by apply keeps_same].
    apply keeps_bind; [apply keeps_same, checkPrefix_same|intros _].
    apply mw_keeps. intros l a. by apply reg_ok_fields.
  - apply mw_keeps. intros l. by apply modify_keeps.
  - intros a Ha. unfold Group_Handle, mbind, go_bind, go_get.
    pose proof (checkPath_same (g_prefix (group a g)) path a) as Hp.
    destruct (checkGroupPath _ path a) as [[u|v] a']; cbn in Hp; subst a'; [|done].
    by apply register_keeps.
Qed.

Lemma run_ops_ok ops eh : reg_ok (run_ops ops (New eh)).
Proof.
  assert (∀ a, reg_ok a → reg_ok (run_ops ops a)) as Hall; [|apply Hall, New_ok].
  unfold run_ops. induction ops as [|op ops IH]; intros a Ha; [done|]. cbn.
  apply IH. by apply run_op_keeps.
Qed.

Lemma run_ops_unbuilt ops eh :
  buildDone (run_ops ops (New eh)) = false ∧ built (run_ops ops (New eh)) = false.
Proof.
  assert (∀ op, keeps (λ a, buildDone a = false ∧ built a = false) (run_op op)) as Hop.
  { intros op. set (P := λ a, buildDone a = false ∧ built a = false).
    assert (∀ {A} (f : list Middleware → R A) mw, (∀ l, keeps P (f l)) →
            keeps P (l ← checkMiddleware 0 mw; guard_built;; f l)) as Hmw.
    { intros A f mw Hf. apply keeps_bind; [apply keeps_same, checkMiddleware_same|intros l].
      apply keeps_bind; [apply keeps_same, guard_same|intros _]. apply Hf. }
    assert (∀ method path hd g mw, keeps P (register method path hd g mw)) as Hreg.
    { intros. apply Hmw. intros l. do 2 (apply keeps_bind; [apply keeps_same, panic_if_same|intros _]).
      destruct hd as [hd|]; [|by apply keeps_same]. apply keeps_bind.
      - intros a Ha. unfold treeFor_Insert. destruct (Router.Insert _ _ _). cbn.
        unfold set_tree. by destruct (methodIndex method).
      - intros res a Ha. by destruct res as [[]|]. }
    destruct op; cbn [run_op]; try apply on_group_keeps; [apply Hreg|..].
    - apply Hmw. by intros l a.
    - apply keeps_bind; [|intros n; by apply keeps_same].
      apply keeps_bind; [apply keeps_same, checkPrefix_same|intros _]. apply Hmw. by intros l a.
    - apply keeps_bind; [|intros n; by apply keeps_same].
      apply keeps_bind; [apply keeps_same, checkPrefix_same|intros _]. apply Hmw. by intros l a.
    - apply Hmw. by intros l a.
    - apply keeps_bind; [by intros a|intros a].
      apply keeps_bind; [apply keeps_same, checkPath_same|intros _]. apply Hreg. }
  unfold run_ops. assert (buildDone (New eh) = false ∧ built (New eh) = false) as H0 by done. revert H0.
  generalize (New eh). induction ops as [|op ops IH]; intros a Ha; [done|]. cbn. by apply IH, Hop.
Qed.

Lemma run_ops_buildDone ops eh : buildDone (run_ops ops (New eh)) = false.
Proof. apply run_ops_unbuilt. Qed.

Lemma checkMiddleware_ok i l (a : App) : checkMiddleware i (map Some l) a = (Ret l, a).
Proof.
  revert i. induction l as [|mw l IH]; intros i; [done|].
  cbn [map checkMiddleware]. unfold mbind, go_bind. by rewrite IH.
Qed.

Lemma checked_bind {A} (f : list Middleware → R A) l a :
  (l ← checkMiddleware 0 (map Some l); f l) a = f l a.
Proof. unfold mbind, go_bind. by rewrite checkMiddleware_ok. Qed.

(** ** Chains *)

Lemma Compile_loop_foldr hd (mws0 : list Middleware) : ∀ i, i <= length mws0 →
  Compile_loop i hd mws0 = foldr (λ mw x, mw x) hd (take i mws0).
Proof.
  unfold Middleware in *. intros i. revert hd.
  induction i as [|i IH]; intros hd Hi; [by rewrite take_0|].
  change (Compile_loop (S i) hd mws0) with
    (Compile_loop i (match mws0 !! i with Some mw => mw hd | None => hd end) mws0).
  destruct (mws0 !! i) as [mw|] eqn:Hmw; [|apply lookup_ge_None_1 in Hmw; lia].
  rewrite IH by lia. by rewrite (take_S_r _ _ _ Hmw), foldr_app.
Qed.

Lemma Compile_foldr hd mws0 : Compile hd mws0 = foldr (λ mw x, mw x) hd mws0.
Proof. unfold Compile. rewrite Compile_loop_foldr by lia. by rewrite firstn_all. Qed.

(** Parents are older than their children. *)
Definition heap_ok (gs : list Group) : Prop :=
  ∀ i g p, gs !! i = Some g → parent g = Some p → p < i.

Lemma group_walk_fuel gs : heap_ok gs → ∀ fuel fuel' i,
  i < fuel → i < fuel' → group_walk fuel gs (Some i) = group_walk fuel' gs (Some i).
Proof.
  intros Hh. induction fuel as [|fuel IH]; intros [|fuel'] i Hi Hi'; try lia. cbn.
  destruct (gs !! i) as [g|] eqn:Eg; [|done]. f_equal.
  destruct (parent g) as [p|] eqn:Ep; [|by destruct fuel, fuel'].
  specialize (Hh i g p Eg Ep). apply IH; lia.
Qed.

Lemma groupChain_cons gs i g :
  heap_ok gs → gs !! i = Some g → groupChain gs (Some i) = groupChain gs (parent g) ++ [g].
Proof.
  intros Hh Hg. unfold groupChain at 1. cbn [group_walk]. rewrite Hg. cbn [rev]. f_equal.
  unfold groupChain. f_equal. destruct (parent g) as [p|] eqn:Ep; [|by destruct (length gs)].
  pose proof (Hh i g p Hg Ep). apply lookup_lt_Some in Hg. by apply group_walk_fuel; [|lia..].
Qed.

Definition heap_keeps {A} (m : R A) : Prop :=
  ∀ a, heap_ok (groups a) → heap_ok (groups (m a).2).

Lemma heap_ok_snoc gs g : heap_ok gs → (∀ p, parent g = Some p → p < length gs) → heap_ok (gs ++ [g]).
Proof.
  intros Hh Hg i x p Hi Hp. apply lookup_app_Some in Hi as [Hi|[Hge Hi]]; [by eapply Hh|].
  apply list_lookup_singleton_Some in Hi as [Hz <-]. specialize (Hg p Hp). lia.
Qed.

Lemma heap_ok_alter gs f i :
  (∀ g, parent (f g) = parent g) → heap_ok gs → heap_ok (alter f i gs).
Proof.
  intros Hf Hh j g p Hj Hp. destruct (decide (i = j)) as [->|Hne].
  - rewrite list_lookup_alter, decide_True in Hj by done.
    apply fmap_Some in Hj as (x & Hx & ->). rewrite Hf in Hp. by eapply Hh.
  - rewrite list_lookup_alter_ne in Hj by done. by eapply Hh.
Qed.

(** The fields registration leaves alone, and the group heap. *)
Definition heap_inv (a : App) : Prop := heap_ok (groups a).

Lemma register_groups method path hd g mw a :
  groups (register method path hd g mw a).2 = groups a.
Proof.
  unfold register, mbind, go_bind. pose proof (checkMiddleware_same 0 mw a) as Hs.
  destruct (checkMiddleware 0 mw a) as [[l|v] a']; cbn in Hs; subst a'; [|done].
  pose proof (guard_same a) as Hs. destruct (guard_built a) as [[u|v] a']; cbn in Hs; subst a'; [|done].
  pose proof (panic_if_same (bool_decide (method = [])) (EmptyMethod path) a) as Hs.
  destruct (go_panic_if _ _ a) as [[[]|v] a']; cbn in Hs; subst a'; [|done].
  pose proof (panic_if_same (hasLowercaseByte method) (NotUppercase method path) a) as Hs.
  destruct (go_panic_if _ _ a) as [[[]|v] a']; cbn in Hs; subst a'; [|done].
  destruct hd as [hd|]; [|done]. unfold treeFor_Insert.
  destruct (Router.Insert _ _ _) as [t res]. pose proof (set_tree_fields method t a) as (_ & _ & _ & Hg & _).
  destruct res as [[]|]; cbn; done.
Qed.

Lemma run_op_heap op : keeps heap_inv (run_op op).
Proof.
  assert (∀ {A} (f : list Middleware → R A) mw, (∀ l, keeps heap_inv (f l)) →
            keeps heap_inv (l ← checkMiddleware 0 mw; guard_built;; f l)) as Hmw.
  { intros A f mw Hf. apply keeps_bind; [apply keeps_same, checkMiddleware_same|intros l].
    apply keeps_bind; [apply keeps_same, guard_same|intros _]. apply Hf. }
  assert (∀ g m, (∀ a, g < length (groups a) → heap_inv a → heap_inv (m a).2) →
            keeps heap_inv (on_group g m)) as Hg.
  { intros g m Hm a Ha. unfold on_group, mbind, go_bind, go_get.
    case_decide; [by apply Hm|done]. }
  destruct op; cbn [run_op].
  - intros a Ha. unfold heap_inv, Handle. by rewrite register_groups.
  - apply Hmw. intros l a Ha. exact Ha.
  - apply keeps_bind; [|intros n; by apply keeps_same].
    apply keeps_bind; [apply keeps_same, checkPrefix_same|intros _].
    apply Hmw. intros l a Ha. by apply heap_ok_snoc.
  - apply Hg. intros a Hlt Ha. revert a Hlt Ha.
    intros a Hlt Ha. unfold Group_Group, mbind, go_bind.
    pose proof (checkPrefix_same prefix a) as Hs.
    destruct (checkGroupPrefix prefix a) as [[u|v] a']; cbn in Hs; subst a'; [|done].
    pose proof (checkMiddleware_same 0 mw a) as Hs.
    destruct (checkMiddleware 0 mw a) as [[l|v] a']; cbn in Hs; subst a'; [|done].
    pose proof (guard_same a) as Hs.
    destruct (guard_built a) as [[u'|v] a']; cbn in Hs; subst a'; [|done].
    cbn. apply heap_ok_snoc; [done|]. by intros p [= <-].
  - apply Hg. intros a _ Ha. revert a Ha. apply Hmw. intros l a Ha. by apply heap_ok_alter.
  - apply Hg. intros a _ Ha. unfold Group_Handle, mbind, go_bind, go_get.
    pose proof (checkPath_same (g_prefix (group a g)) path a) as Hs.
    destruct (checkGroupPath _ path a) as [[u|v] a']; cbn in Hs; subst a'; [|done].
    unfold heap_inv. by rewrite register_groups.
Qed.

Lemma run_ops_heap ops eh : heap_ok (groups (run_ops ops (New eh))).
Proof.
  assert (∀ a, heap_inv a → heap_inv (run_ops ops a)) as Hall.
  { unfold run_ops. induction ops as [|op ops IH]; intros a Ha; [done|]. cbn.
    apply IH. by apply run_op_heap. }
  apply Hall. intros i g p Hi. done.
Qed.

Lemma groupChain_prefix gs gs' : heap_ok gs → ∀ i,
  (∀ j, j <= i → gs' !! j = gs !! j) → length gs' = length gs →
  groupChain gs' (Some i) = groupChain gs (Some i).
Proof.
  intros Hh i Hsame Hlen. unfold groupChain. rewrite Hlen. f_equal.
  generalize (S (length gs)). intros fuel. revert i Hsame.
  induction fuel as [|fuel IH]; intros i Hsame; [done|]. cbn [group_walk].
  rewrite Hsame by lia. destruct (gs !! i) as [g|] eqn:Eg; [|done]. f_equal.
  destruct (parent g) as [p|] eqn:Ep; [|by destruct fuel].
  specialize (Hh i g p Eg Ep). apply IH. intros j Hj. apply Hsame. lia.
Qed.
(** What [Build] leaves after a sequence of registration calls. *)
Lemma build_answers eh ops :
  let a := run_ops ops (New eh) in
  ∃ a', Build_ a = (Ret tt, a') ∧ built a' = true ∧ miss a' = Compile notFound (mws a) ∧
  errorHandler a' = errorHandler a ∧ maxParams a' = maxParams a ∧
  ∀ method path params, path ≠ [] → params_ok params →
    let found := table_lookup (route_table (compiled a) (routes a) method) path in
    (lookupEntry a' method path params).1 = (λ x, x.1.2) <$> found ∧
    captures (lookupEntry a' method path params).2 =
      captures params ++ from_option snd [] found.
Proof.
  intros a. pose proof (run_ops_ok ops eh) as Hok. fold a in Hok.
  assert (buildDone a = false) as Hd by apply run_ops_buildDone.
  assert (reg_ok (set_buildDone a)) as Hok' by (by apply (reg_ok_fields a)).
  destruct (build_spec _ Hok') as (a' & Hb & Hbuilt & Hmiss & Hrep & _ & Hmp & Heh & _).
  exists a'. unfold Build_, mbind, go_bind, go_get, go_modify. rewrite Hd.
  split_and!; [exact Hb|done..|]. intros method path params Hpath Hp.
  rewrite lookupEntry_tree. specialize (Hrep method).
  pose proof (lookup_found _ path params (rep_wf _ _ Hrep) Hpath Hp) as Hf.
  apply (found_table _ _ path params _ Hrep Hf).
Qed.
End spec.

(** ** Properties *)

Section properties.
Context `{HA : Any} `{F : Fasthttp} `{HG : AppendGrowth} `{HS : Stored} `{HB : Build}.

(** C10. An App under construction is well-formed after any sequence of registration
    calls, also when some of them panicked half-way: every method's tree holds
    exactly the routes recorded for it, with no pattern twice, as many as it counts;
    no tree needs more room than [maxParams]; and a group's parent is older than the
    group, so walking up ends. *)
Theorem registration_wf eh ops :
  let a := run_ops ops (New eh) in
  length (trees a) = methodCount ∧ built a = false ∧
  (∀ m, let log := route_table raw (routes a) m in
    represents (tree_of a m) log ∧ NoDup log.*1 ∧ Len (tree_of a m) = length log ∧
    MaxParams (tree_of a m) <= maxParams a) ∧
  (∀ i g p, groups a !! i = Some g → parent g = Some p → p < i).
Proof.
  intros a. destruct (run_ops_ok ops eh) as [Hlen Htrees _ Hroom]. fold a in Hlen, Htrees, Hroom.
  destruct (run_ops_unbuilt ops eh) as [_ Hb]. fold a in Hb. split; [done|]. split; [done|]. split.
  - intros m log. specialize (Htrees Hb m). specialize (Hroom m). fold log in Htrees, Hroom.
    split; [done|]. split; [apply Htrees|]. split; [apply Htrees|].
    unfold MaxParams. by rewrite (rep_params _ _ Htrees).
  - intros i g p. apply (run_ops_heap ops eh).
Qed.

(** [Build] never panics, and the App it leaves answers like the table of its
    routes: after any sequence of registration calls, some of which may have
    panicked, a request's method and path select the route that wins among the
    routes recorded for that method, with its handler compiled inside the
    middleware that wraps it, and nothing when none matches. *)
Theorem Build_serves eh ops :
  let a := run_ops ops (New eh) in
  ∃ a', Build_ a = (Ret tt, a') ∧ built a' = true ∧ miss a' = Compile notFound (mws a) ∧
  ∀ method path params, path ≠ [] → params_ok params →
    let found := table_lookup (route_table (compiled a) (routes a) method) path in
    (lookupEntry a' method path params).1 = (λ x, x.1.2) <$> found ∧
    captures (lookupEntry a' method path params).2 =
      captures params ++ from_option snd [] found.
Proof.
  destruct (build_answers eh ops) as (a' & Hb & Hbuilt & Hmiss & _ & _ & Hl). by exists a'.
Qed.

(** C11. Middleware runs outside in: a compiled chain applies the first middleware
    outermost, and the chain of a route in a group is the application's
    middleware, then each group's from the outermost in, then the route's own. *)
Theorem middleware_order eh ops r i g hd :
  let a := run_ops ops (New eh) in
  groups a !! i = Some g → r_group r = Some i →
  middlewareFor a r =
    mws a ++ concat (map g_mws (groupChain (groups a) (parent g))) ++ g_mws g ++ r_mws r ∧
  Compile hd (middlewareFor a r) = foldr (λ mw next, mw next) hd (middlewareFor a r).
Proof.
  intros a Hg Hr. split; [|apply Compile_foldr]. unfold middlewareFor. rewrite Hr.
  pose proof (run_ops_heap ops eh) as Hh. fold a in Hh.
  rewrite (groupChain_cons _ i g Hh Hg).
  rewrite map_app, concat_app. cbn. by rewrite app_nil_r, <-app_assoc.
Qed.

(** Middleware added late still wraps: a group given middleware after a route
    was registered on it, or on a group inside it, wraps that route all the same,
    as its own group's last middleware. *)
Theorem late_group_middleware eh ops r i g l :
  let a := run_ops ops (New eh) in
  groups a !! i = Some g → built a = false → r_group r = Some i →
  let a' := (Group_Use i (map Some l) a).2 in
  middlewareFor a' r =
    mws a ++ concat (map g_mws (groupChain (groups a) (parent g))) ++ (g_mws g ++ l) ++ r_mws r.
Proof.
  intros a Hg Hb Hr a'. pose proof (run_ops_heap ops eh) as Hh. fold a in Hh.
  assert (a' = set_groups (alter (λ x, mkGroup (parent x) (g_prefix x) (g_mws x ++ l)) i (groups a)) a)
    as Ha'.
  { unfold a', Group_Use. rewrite (checked_bind _ _ a). unfold guard_built, mbind, go_bind, go_get.
    by rewrite Hb. }
  unfold middlewareFor. rewrite Hr, Ha'. cbn [mws groups set_groups].
  set (f := λ x, mkGroup (parent x) (g_prefix x) (g_mws x ++ l)).
  assert (heap_ok (alter f i (groups a))) as Hh' by (by apply heap_ok_alter).
  assert (alter f i (groups a) !! i = Some (f g)) as Hf.
  { by rewrite list_lookup_alter, decide_True, Hg. }
  rewrite (groupChain_cons _ i (f g) Hh' Hf), map_app, concat_app. cbn [f parent map concat g_mws].
  rewrite app_nil_r, <-app_assoc. do 4 f_equal.
  destruct (parent g) as [p|] eqn:Ep; [|done].
  apply groupChain_prefix; [done| |apply length_alter].
  intros j Hj. pose proof (Hh i g p Hg Ep). by rewrite list_lookup_alter_ne by lia.
Qed.

(** Once built, an App is frozen: no registration call changes anything. *)
Theorem built_is_frozen op a (Hb : built a = true) : (run_op op a).2 = a.
Proof.
  assert (∀ {A} (f : list Middleware → R A) mw,
            ((l ← checkMiddleware 0 mw; guard_built;; f l) a).2 = a) as Hmw.
  { intros A f mw. unfold mbind, go_bind. pose proof (checkMiddleware_same 0 mw a) as Hs.
    destruct (checkMiddleware 0 mw a) as [[l|v] a']; cbn in Hs; subst a'; [|done].
    unfold guard_built, mbind, go_bind, go_get. by rewrite Hb. }
  assert (∀ method path hd g mw, (register method path hd g mw a).2 = a) as Hreg by (intros; apply Hmw).
  assert (∀ {A B} (m : R A) (f : A → R B), (m a).2 = a → (∀ x, (f x a).2 = a) →
            ((m ≫= f) a).2 = a) as Hbind.
  { intros A B m f Hm Hf. unfold mbind, go_bind. destruct (m a) as [[x|v] a'] eqn:E; cbn in Hm;
      subst a'; [apply Hf|done]. }
  assert (∀ g m, (m a).2 = a → (on_group g m a).2 = a) as Hon.
  { intros g m Hm. unfold on_group, mbind, go_bind, go_get. by case_decide. }
  destruct op; cbn [run_op]; [apply Hreg|apply Hmw|apply Hbind; [|done]|apply Hon, Hbind; [|done]
    |apply Hon, Hmw|apply Hon].
  - apply Hbind; [apply checkPrefix_same|intros _; apply Hmw].
  - apply Hbind; [apply checkPrefix_same|intros _; apply Hmw].
  - apply (Hbind _ _ go_get); [done|]. intros b. apply Hbind; [apply checkPath_same|intros _; apply Hreg].
Qed.
End properties.

(** Witnesses: an App with a panicking route, a streaming one, one that settles
    and then fails, and nested groups, under the plain interface instance. *)
Module Sample.
#[export] Existing Instance any_nat.
#[export] Instance stored : Stored := {| context := unit; StreamFn := nat |}.
#[export] Instance growth : AppendGrowth := two_room.
#[export] Instance release_build : Build := false.

Definition settling : Handler :=
  Seq (HandleError (Some (NewHTTPError 400 (bs "bad")))) (λ _, Done (Some ErrNotFound)).

(** A middleware that sets a header before the handler. *)
Definition tagging : Middleware := λ next,
  Seq (Call (AFctx (λ r, (tt, SetHeader (bs "X") (bs "1") r)))) (λ _, next).

Definition ops : list reg_op :=
  [OHandle (bs "GET") (bs "/boom") (Some (Seq (Call (AStream (Some 7))) (λ _, PanicNow (PanicString (bs "boom"))))) [];
   OHandle (bs "GET") (bs "/stream/:id") (Some (Call (AStream (Some 7)))) [];
   OHandle (bs "POST") (bs "/settle") (Some settling) [];
   OGroup (bs "/api") [Some tagging];
   OSubGroup 0 (bs "/v1") [Some tagging; Some tagging];
   OGroupHandle 1 (bs "GET") (bs "/users/:id") (Some notFound) [Some tagging]].


(** A request in a handler's hands, with one header. *)
Definition requesting (name value : bytes) : St :=
  mkSt (reset true (newCtx 1))
    (mkRequest (bs "GET") (bs "/") 0 [] [] [] false false [(name, value)]) [].

Definition sample_group_route : route := mkRoute (bs "GET") (bs "/api/v1/users/:id") notFound (Some 1) [tagging].
End Sample.

Import Sample.

Lemma Build_serves_witness :
  ∃ a', Build_ (run_ops ops (New default_handler)) = (Ret tt, a') ∧
    pattern <$> (lookupEntry a' (bs "GET") (bs "/stream/9") (MakeParams 1)).1 = Some (bs "/stream/:id").
Proof.
  destruct (Build_serves default_handler ops) as (a' & Hb & _ & _ & Hl).
  exists a'. split; [exact Hb|].
  destruct (Hl (bs "GET") (bs "/stream/9") (MakeParams 1)) as [-> _].
  - discriminate.
  - apply MakeParams_ok.
  - vm_compute. reflexivity.
Defined.

Lemma middleware_order_witness :
  middlewareFor (run_ops ops (New default_handler)) sample_group_route =
  [tagging; tagging; tagging; tagging].
Proof.
  destruct (middleware_order default_handler ops sample_group_route 1
              (mkGroup (Some 0) (bs "/api/v1") [tagging; tagging]) notFound) as [Hm _].
  - reflexivity.
  - reflexivity.
  - rewrite Hm. reflexivity.
Defined.

Lemma late_group_middleware_witness :
  middlewareFor (Group_Use 0 (map Some [tagging]) (run_ops ops (New default_handler))).2
    (mkRoute (bs "GET") (bs "/api/x") notFound (Some 0) []) = [tagging; tagging].
Proof.
  rewrite (late_group_middleware default_handler ops
             (mkRoute (bs "GET") (bs "/api/x") notFound (Some 0) []) 0
             (mkGroup None (bs "/api") [tagging]) [tagging]).
  - reflexivity.
  - reflexivity.
  - reflexivity.
  - reflexivity.
Defined.

Lemma built_is_frozen_witness :
  let a := (Build_ (run_ops ops (New default_handler))).2 in
  (run_op (OUse [Some tagging]) a).2 = a.
Proof. intros a. apply (built_is_frozen (OUse [Some tagging]) a). vm_compute. reflexivity. Defined.
