(* ===== verification/Dispatch.v ===== *)
(** * Dispatch

    [App.handle] and the pool: one request in, one response out. The file models
    the whole of [handle] with its deferred closure, the acquire and release of
    [src/pool.go], and a server in which requests overlap. *)

From S2P Require Import Prelude Bytes Pattern Slice Params Tree TreeSpec TreeLookup Router Accept Fasthttp Errors Ctx Handler Isolation App AppSpec.

Section dispatch.
Context `{HA : Any} `{F : Fasthttp} `{HG : AppendGrowth} `{HS : Stored} `{HB : Build}.

(** [acquire], on a context from the pool. *)
Definition acquire (c0 : Ctx) (r : RequestCtx) : St := mkSt (reset true c0) r [].

(** [release]: what goes back to the pool, or stays out of it in a debug build. *)
Definition release (c : Ctx) : Ctx := mark (reset false c).

Definition poolReuse : bool := negb ricedebug.

(** Calling a nil function value. *)
Definition call_nil : panic_value err := nil_deref.

(** The part of [handle] after the deferred closure is set up. *)
Definition route_request (a : App) : M (option Handler) := λ s,
  let '(e, ps) := lookupEntry a (req_Method (rc s)) (req_Path (rc s)) (params (the s)) in
  let hd := match e with Some e => h e | None => Some (miss a) end in
  (Ret hd, mkSt (set_route (pattern (default zero e)) (set_params ps (the s))) (rc s) (funnel s)).

Definition serve (a : App) : M (option err) :=
  hd ← route_request a;
  match hd with
  | None => go_panic call_nil
  | Some hd => run_handler (errorHandler a) hd
  end.

Definition body (a : App) : M unit :=
  res ← serve a;
  c ← get_ctx;
  match res with
  | Some e => if handled c then mret tt else put_ctx set_handled;; call_funnel (errorHandler a) e
  | None => mret tt
  end.

(** The recovery of the deferred closure. [stack] is what [debug.Stack] returns. *)
Definition recovered (a : App) (stack : bytes) (m : M unit) : M unit :=
  go_recover m (λ v, put_ctx set_handled;; call_funnel (errorHandler a) (PanicError v stack)).

(** What one request leaves behind: whether [handle] itself panicked, the context
    for the pool, the response, the stream it started with its heartbeat, and the
    errors the ErrorHandler was given. *)
Record handled_request : Type := mkHandled {
  hr_outcome : outcome (panic_value err) unit;
  hr_ctx : Ctx;
  hr_response : RequestCtx;
  hr_stream : option (StreamFn * Z);
  hr_errors : list err;
}.

Definition handle (a : App) (stack : bytes) (draining : bool) (c0 : Ctx) (r : RequestCtx)
    : handled_request :=
  let r := if draining then SetConnectionClose r else r in
  let '(o, s) := recovered a stack (body a) (acquire c0 r) in
  let c := the s in
  let stream := match streamFn c with
                | Some fn => if handled c then None else Some (fn, streamHeartbeat c)
                | None => None
                end in
  mkHandled o (release c) (match stream with Some _ => SetBodyStreamWriter (rc s) | None => rc s end)
    stream (funnel s).

(** ** Well-formed inputs *)

Definition app_ok (a : App) : Prop := ∀ m, wf_tree (Router.t (tree_of a m)).

Definition ctx_ok (c : Ctx) : Prop := params_ok (params c) ∧ slice_ok (store c).

(** A context in the pool: nothing of any request is left in it. *)
Record clean (c : Ctx) : Prop := {
  cl_fctx : fctx c = false;
  cl_app : app c = false;
  cl_ctx : ctx c = None;
  cl_handled : handled c = false;
  cl_streamFn : streamFn c = None;
  cl_streamSet : streamSet c = false;
  cl_route : Ctx.route c = [];
  cl_params : arr (slots (params c)) = replicate (Cap (params c)) zero;
  cl_params_used : used (slots (params c)) = 0;
  cl_store : arr (store c) = replicate (slice_cap (store c)) zero;
  cl_store_used : used (store c) = 0;
}.

Lemma newCtx_ok n : ctx_ok (newCtx n).
Proof. split; [apply MakeParams_ok|]. apply (make_slice_ok (A := entry) storeCapacity). Qed.

Lemma reset_ok b c : ctx_ok c → ctx_ok (reset b c).
Proof.
  intros [Hp Hs]. split; cbn.
  - apply truncate_ok; [done|lia].
  - apply truncate_slice_ok; [done|lia].
Qed.

Lemma release_clean c : ctx_ok c → clean (release c) ∧ ctx_ok (release c).
Proof.
  intros [Hp Hs]. split; [|by apply (reset_ok false c)].
  split; try reflexivity; cbn.
  - unfold Cap, Reset, truncate. cbn. rewrite truncate_cap by (done || lia). by apply truncate_zero.
  - unfold resetStore. rewrite truncate_cap by (done || lia). by apply truncate_zero.
Qed.

Lemma lookupEntry_ok a m path ps : app_ok a → params_ok ps → params_ok (lookupEntry a m path ps).2.
Proof.
  intros Ha Hp. rewrite lookupEntry_tree. destruct (decide (path = [])) as [->|Hne].
  - unfold Router.Lookup, Tree.lookup. destruct (root _) as [n|]; [|done]. by destruct n.
  - by apply (lookup_found _ path ps (Ha m) Hne Hp).
Qed.

(** A reset context looks like any other reset context. *)
Lemma reset_csim c1 c2 : ctx_ok c1 → ctx_ok c2 → poisoned c1 = poisoned c2 →
  csim (reset true c1) (reset true c2).
Proof.
  intros H1 H2 Hp. destruct (reset_ok true _ H1), (reset_ok true _ H2).
  destruct H1 as [Hp1 Hs1], H2 as [Hp2 Hs2].
  split; try done; cbn; unfold Reset, truncate, resetStore; cbn;
    by rewrite !live_truncate by (done || lia).
Qed.

Lemma Lookup_alike (t : Router.Tree routeEntry) path p1 p2 :
  wf_tree (Router.t t) → params_ok p1 → params_ok p2 → captures p1 = captures p2 →
  (Router.Lookup t path p1).1 = (Router.Lookup t path p2).1 ∧
  captures (Router.Lookup t path p1).2 = captures (Router.Lookup t path p2).2.
Proof.
  intros Hwf H1 H2 Hc. destruct (decide (path = [])) as [->|Hne].
  - unfold Router.Lookup, Tree.lookup. destruct (root _) as [n|]; [|done]. by destruct n.
  - apply (found_unique (tree_get (Router.t t)) (tree_get (Router.t t)) path p2);
      [done| |by apply lookup_found].
    apply (found_miss _ _ p2 p1); [exact Hc|]. by apply lookup_found.
Qed.

Lemma captures_live p1 p2 : live (slots p1) = live (slots p2) ↔ captures p1 = captures p2.
Proof.
  unfold captures. split; [by intros ->|]. intros Hc.
  revert Hc. generalize (live (slots p1)) (live (slots p2)). intros l1.
  induction l1 as [|[] l1 IH]; intros [|[] l2]; cbn; try done.
  intros [= -> -> Hl]. f_equal. by apply IH.
Qed.

Lemma route_request_alike a : app_ok a → alike (route_request a) (route_request a).
Proof.
  intros Ha s1 s2 [Hc Hr Hf]. unfold route_request. rewrite Hr, !lookupEntry_tree.
  pose proof (Ha (req_Method (rc s2))) as Hwf.
  destruct (Lookup_alike (tree_of a (req_Method (rc s2))) (req_Path (rc s2))
              (params (the s1)) (params (the s2)) Hwf) as [Ho Hcap];
    [apply Hc|apply Hc|apply captures_live, Hc|].
  pose proof (lookupEntry_ok a (req_Method (rc s2)) (req_Path (rc s2)) _ Ha (cs_params1 _ _ Hc)) as Hk1.
  pose proof (lookupEntry_ok a (req_Method (rc s2)) (req_Path (rc s2)) _ Ha (cs_params2 _ _ Hc)) as Hk2.
  rewrite lookupEntry_tree in Hk1, Hk2.
  destruct (Router.Lookup _ _ (params (the s1))) as [e1 ps1], (Router.Lookup _ _ (params (the s2))) as [e2 ps2].
  cbn in Ho, Hcap, Hk1, Hk2. subst e2. split; [done|]. split; [|done|done]. cbn.
  split; cbn; try apply Hc; try done. by apply captures_live.
Qed.

Lemma body_alike a : app_ok a → alike (body a) (body a).
Proof.
  intros Ha. apply alike_bind.
  - apply alike_bind; [by apply route_request_alike|intros [hd|]]; [|auto with rice].
    apply run_handler_alike.
  - intros res. apply alike_get_ctx. intros c1 c2 Hc. rewrite (cs_handled _ _ Hc).
    destruct res as [e|]; [|auto with rice]. destruct (handled c2); [auto with rice|].
    apply alike_bind; [apply alike_put_ctx; intros ? ? []; by split|intros _]. apply call_funnel_alike.
Qed.

Lemma handle_alike a stack draining c1 c2 r :
  app_ok a → ctx_ok c1 → ctx_ok c2 → poisoned c1 = poisoned c2 →
  let x1 := handle a stack draining c1 r in
  let x2 := handle a stack draining c2 r in
  hr_outcome x1 = hr_outcome x2 ∧ hr_response x1 = hr_response x2 ∧
  hr_stream x1 = hr_stream x2 ∧ hr_errors x1 = hr_errors x2.
Proof.
  intros Ha H1 H2 Hp. unfold handle.
  set (r' := if draining then SetConnectionClose r else r).
  assert (alike (recovered a stack (body a)) (recovered a stack (body a))) as Hal.
  { apply alike_recover; [by apply body_alike|intros v]. apply alike_bind.
    - apply alike_put_ctx. intros ? ? []. by split.
    - intros _. apply call_funnel_alike. }
  assert (sim (acquire c1 r') (acquire c2 r')) as Hs.
  { split; [by apply reset_csim|done|done]. }
  destruct (Hal _ _ Hs) as [Ho Hs'].
  destruct (recovered _ _ _ (acquire c1 r')) as [o1 s1], (recovered _ _ _ (acquire c2 r')) as [o2 s2].
  cbn in Ho, Hs'. destruct Hs' as [Hc Hr Hf]. cbn.
  rewrite (cs_streamFn _ _ Hc), (cs_handled _ _ Hc), (cs_heartbeat _ _ Hc), Hr. done.
Qed.

(** ** One request *)

(** What the handler of a request left, however it ended. *)
Record served (s : St) : Prop := {
  sv_fctx : fctx (the s) = true;
  sv_poisoned : poisoned (the s) = false;
  sv_ok : ctx_ok (the s);
  sv_funnel : funnel s = if handled (the s) then match funnel s with [e] => [e] | _ => [] end else [];
  sv_settled : handled (the s) = true → ∃ e, funnel s = [e];
}.

Lemma serve_served a c0 r :
  app_ok a → ctx_ok c0 → poisoned c0 = false → served (serve a (acquire c0 r)).2.
Proof.
  intros Ha Hc0 Hp. unfold serve, mbind, go_bind, route_request.
  pose proof (lookupEntry_ok a (req_Method r) (req_Path r) (Reset (params c0)) Ha
                (proj1 (reset_ok true c0 Hc0))) as Hps.
  cbn [acquire rc the params reset funnel].
  destruct (lookupEntry a _ _ _) as [e ps]. cbn [snd] in Hps.
  set (s1 := mkSt _ r []).
  assert (served s1 ∧ fctx (the s1) = true ∧ handled (the s1) = false) as (Hs1 & Hf1 & Hh1).
  { split; [|done]. split; try done. split; [done|]. apply (reset_ok true c0 Hc0). }
  destruct (match e with Some e => h e | None => Some (miss a) end) as [hd|]; [|done].
  pose proof (run_settles (errorHandler a) hd s1 Hf1) as Hse.
  destruct Hs1 as [_ Hp1 [Hpo Hso] _ _].
  set (s2 := (run_handler (errorHandler a) hd s1).2) in *. destruct Hse.
  specialize (se_once Hh1). change (funnel s1) with (@nil err) in se_once. cbn [app] in se_once.
  split.
  - congruence.
  - congruence.
  - split; [by rewrite se_params|by apply se_store].
  - destruct se_once as [[-> ->]|(-> & x & ->)]; done.
  - destruct se_once as [[Hn _]|(_ & x & Hx)]; [congruence|]. intros _. by exists x.
Qed.

Lemma call_funnel_default e s :
  poisoned (the s) = false → fctx (the s) = true →
  call_funnel default_handler e s =
  (Ret tt, mkSt (the s) (DefaultErrorHandler e (rc s)) (funnel s ++ [e])).
Proof.
  intros Hp Hf. unfold call_funnel, callErrorHandler, mbind, go_bind, go_modify, go_recover.
  cbn [run run_with default_handler exec]. unfold with_fctx, check, mbind, go_bind.
  rewrite !get_ctx_run. cbn [the].
  rewrite Hp, andb_false_r. unfold go_panic_if, mret, go_ret, deref. cbn [the]. by rewrite Hf.
Qed.

Definition settle (s : St) : St := mkSt (set_handled (the s)) (rc s) (funnel s).

Lemma recovered_panic a stack s0 v s :
  serve a s0 = (Panic v, s) →
  recovered a stack (body a) s0 = call_funnel (errorHandler a) (PanicError v stack) (settle s).
Proof. intros E. unfold recovered, body, go_recover, mbind, go_bind. by rewrite E. Qed.

Lemma recovered_settled a stack s0 res s :
  serve a s0 = (Ret res, s) → res = None ∨ handled (the s) = true →
  recovered a stack (body a) s0 = (Ret tt, s).
Proof.
  intros E Hs. unfold recovered, body, go_recover, mbind, go_bind. rewrite E, get_ctx_run. cbn [fst].
  destruct res; [|done]. destruct Hs as [Hs| ->]; done.
Qed.

Lemma recovered_error a stack s0 e s s' :
  serve a s0 = (Ret (Some e), s) → handled (the s) = false →
  call_funnel (errorHandler a) e (settle s) = (Ret tt, s') →
  recovered a stack (body a) s0 = (Ret tt, s').
Proof.
  intros E Hs Hc. unfold recovered, body, go_recover, mbind, go_bind. rewrite E, get_ctx_run.
  rewrite Hs. unfold put_ctx, go_modify. unfold settle in Hc. by rewrite Hc.
Qed.

(** Everything [handle] does after the handler, in one equation. *)
Lemma handle_spec a stack (draining : bool) c0 r :
  app_ok a → ctx_ok c0 → poisoned c0 = false →
  let r' := if draining then SetConnectionClose r else r in
  let x := handle a stack draining c0 r in
  let '(o, s) := serve a (acquire c0 r') in
  hr_outcome x = Ret tt ∧ clean (hr_ctx x) ∧ ctx_ok (hr_ctx x) ∧
  poisoned (hr_ctx x) = ricedebug ∧
  match o with
  | Panic v => hr_errors x = funnel s ++ [PanicError v stack] ∧ hr_stream x = None ∧
      hr_response x = rc (call_funnel (errorHandler a) (PanicError v stack)
                            (settle s)).2
  | Ret (Some e) =>
    if handled (the s) then hr_errors x = funnel s ∧ hr_stream x = None ∧ hr_response x = rc s
    else hr_errors x = [e] ∧ hr_stream x = None ∧
      hr_response x = rc (call_funnel (errorHandler a) e
                            (settle s)).2
  | Ret None => hr_errors x = funnel s ∧
      hr_stream x = (if handled (the s) then None
                     else fn ← streamFn (the s); Some (fn, streamHeartbeat (the s))) ∧
      hr_response x = (match hr_stream x with Some _ => SetBodyStreamWriter (rc s) | None => rc s end)
  end.
Proof.
  intros Ha Hc0 Hp r' x. pose proof (serve_served a c0 r' Ha Hc0 Hp) as Hsv.
  unfold x, handle. fold r'. destruct (serve a (acquire c0 r')) as [o s] eqn:Es. cbn [snd] in Hsv.
  assert (∀ e, ∃ s'', call_funnel (errorHandler a) e (settle s) = (Ret tt, s'') ∧
    handled (the s'') = true ∧ funnel s'' = funnel s ++ [e] ∧ ctx_ok (the s'') ∧
    poisoned (the s'') = false) as Hcall.
  { intros e. destruct (call_funnel_spec (errorHandler a) e (settle s)) as [Ho Hfr];
      [done|apply Hsv|].
    destruct (call_funnel _ e (settle s)) as [o' s'']. cbn in Ho, Hfr. subst o'. exists s''.
    destruct Hfr, Hsv as [_ Hpo [Hok1 Hok2] _ _]. cbn in *.
    split_and!; [done..| |congruence]. split; [by rewrite fr_params|by apply fr_store]. }
  assert (∀ s', ctx_ok (the s') → poisoned (the s') = false →
            clean (release (the s')) ∧ ctx_ok (release (the s')) ∧
            poisoned (release (the s')) = ricedebug) as Hrel.
  { intros s' Hok Hpo. destruct (release_clean _ Hok). split_and!; try done. cbn.
    by rewrite Hpo, orb_false_r. }
  destruct (Hrel s) as (Hc1 & Hc2 & Hc3); [apply Hsv|apply Hsv|].
  destruct o as [[e|]|v].
  - destruct (handled (the s)) eqn:Hh.
    + rewrite (recovered_settled _ _ _ _ _ Es) by (by right). cbn. rewrite Hh.
      destruct (streamFn (the s)); done.
    + destruct (Hcall e) as (s'' & Hcf & Hh' & Hfu & Hok & Hpo).
      rewrite (recovered_error _ _ _ _ _ _ Es Hh Hcf), Hcf.
      destruct (Hrel s'' Hok Hpo) as (? & ? & ?). cbn.
      rewrite Hh', Hfu, (sv_funnel _ Hsv), Hh. destruct (streamFn (the s'')); done.
  - rewrite (recovered_settled _ _ _ _ _ Es) by (by left). cbn.
    destruct (streamFn (the s)), (handled (the s)); done.
  - destruct (Hcall (PanicError v stack)) as (s'' & Hcf & Hh' & Hfu & Hok & Hpo).
    rewrite (recovered_panic _ _ _ _ _ Es), Hcf.
    destruct (Hrel s'' Hok Hpo) as (? & ? & ?). cbn. rewrite Hh', Hfu.
    destruct (streamFn (the s'')); done.
Qed.

Lemma built_app_ok eh ops : app_ok (Build_ (run_ops ops (New eh))).2.
Proof.
  pose proof (run_ops_ok ops eh) as Hok. set (a := run_ops ops (New eh)) in *.
  assert (buildDone a = false) as Hd by apply run_ops_buildDone.
  assert (reg_ok (set_buildDone a)) as Hok' by (by apply (reg_ok_fields a)).
  destruct (build_spec _ Hok') as (a' & Hb & _ & _ & Hrep & _).
  unfold Build_, mbind, go_bind, go_get, go_modify. rewrite Hd, Hb. intros m. apply (Hrep m).
Qed.

(** ** A server

    Requests overlap: between the start and the end of one, others start and end.
    A request holds its context alone, from the moment it takes it out of the pool
    to the moment it is released. [pick] is which pooled context [sync.Pool] hands
    out; when it has none to hand out a new one is made. *)

Inductive event : Type :=
| Begin (id pick : nat) (draining : bool) (r : RequestCtx)
| Finish (id : nat).

Record server : Type := mkServer {
  pool : list Ctx;
  flight : gmap nat (Ctx * (bool * RequestCtx));
  responses : list ((bool * RequestCtx) * handled_request);
}.

Definition idle : server := mkServer [] ∅ [].

Definition server_step (a : App) (stack : bytes) (sv : server) (ev : event) : server :=
  match ev with
  | Begin id pick draining r =>
    match flight sv !! id with
    | Some _ => sv
    | None =>
      match pool sv !! pick with
      | Some c => mkServer (delete pick (pool sv)) (<[id := (c, (draining, r))]> (flight sv)) (responses sv)
      | None => mkServer (pool sv) (<[id := (newCtx (maxParams a), (draining, r))]> (flight sv)) (responses sv)
      end
    end
  | Finish id =>
    match flight sv !! id with
    | None => sv
    | Some (c, (draining, r)) =>
      let x := handle a stack draining c r in
      mkServer (if poolReuse then hr_ctx x :: pool sv else pool sv) (delete id (flight sv))
        (responses sv ++ [((draining, r), x)])
    end
  end.

Definition run_server (a : App) (stack : bytes) (evs : list event) : server :=
  foldl (server_step a stack) idle evs.

(** What the outside sees of a request. *)
Definition visible (x : handled_request) :=
  (hr_outcome x, hr_response x, hr_stream x, hr_errors x).

(** The same request on a context of its own. *)
Definition alone (a : App) (stack : bytes) (q : bool * RequestCtx) : handled_request :=
  handle a stack q.1 (newCtx (maxParams a)) q.2.

Definition usable (c : Ctx) : Prop := ctx_ok c ∧ poisoned c = false.

Record server_ok (a : App) (stack : bytes) (sv : server) : Prop := {
  so_pool : Forall (λ c, usable c ∧ clean c) (pool sv);
  so_flight : map_Forall (λ _ x, usable x.1) (flight sv);
  so_responses : Forall (λ y, visible y.2 = visible (alone a stack y.1)) (responses sv);
}.

Lemma server_step_ok a stack sv ev : app_ok a → server_ok a stack sv → server_ok a stack (server_step a stack sv ev).
Proof.
  intros Ha [Hp Hf Hr]. destruct ev as [id pick draining r|id]; cbn.
  - destruct (flight sv !! id); [done|]. destruct (pool sv !! pick) as [c|] eqn:Ep.
    + split; cbn; [by apply Forall_delete| |done].
      apply map_Forall_insert_2; [|done]. by apply (Forall_lookup_1 _ _ _ _ Hp) in Ep as [? _].
    + split; cbn; [done| |done]. apply map_Forall_insert_2; [|done].
      split; [apply newCtx_ok|done].
  - destruct (flight sv !! id) as [[c [draining r]]|] eqn:Ef; [|done].
    destruct (Hf id _ Ef) as [Hc Hpo]. cbn in Hc, Hpo.
    pose proof (handle_spec a stack draining c r Ha Hc Hpo) as Hspec. cbv zeta in Hspec.
    destruct (serve a _) as [o s]. destruct Hspec as (_ & Hcl & Hok & Hpo' & _).
    split; cbn.
    + unfold poolReuse. destruct ricedebug eqn:Eb; [done|]. cbn. constructor; [|done].
      split; [|done]. split; [done|by rewrite Hpo'].
    + by apply map_Forall_delete.
    + apply Forall_app. split; [done|]. apply Forall_singleton. unfold visible, alone. cbn [fst snd].
      destruct (handle_alike a stack draining c (newCtx (maxParams a)) r Ha Hc (newCtx_ok _) Hpo)
        as (-> & -> & -> & ->). done.
Qed.

Lemma run_server_ok a stack evs : app_ok a → server_ok a stack (run_server a stack evs).
Proof.
  intros Ha. unfold run_server.
  assert (server_ok a stack idle) as Hidle by (split; [constructor|apply map_Forall_empty|constructor]).
  revert Hidle. generalize idle. induction evs as [|ev evs IH]; intros sv Hsv; [done|].
  cbn. by apply IH, server_step_ok.
Qed.
(** ** Parameter storage *)

(** Every tree holds some routing table, and needs no more room than contexts are
    made with. *)
Definition roomy (a : App) : Prop :=
  ∀ m, (∃ log, represents (tree_of a m) log) ∧ MaxParams (tree_of a m) <= maxParams a.

Lemma table_params_patterns {H H'} (l : table H) (l' : table H') : l.*1 = l'.*1 → table_params l = table_params l'.
Proof.
  unfold table_params. revert l'. induction l as [|[p h] l IH]; intros [|[p' h'] l']; cbn; try done.
  intros [= -> Hl]. by rewrite (IH l').
Qed.

Lemma built_roomy eh ops : roomy (Build_ (run_ops ops (New eh))).2.
Proof.
  pose proof (run_ops_ok ops eh) as Hok. set (a := run_ops ops (New eh)) in *.
  assert (buildDone a = false) as Hd by apply run_ops_buildDone.
  assert (reg_ok (set_buildDone a)) as Hok' by (by apply (reg_ok_fields a)).
  destruct (build_spec _ Hok') as (a' & Hb & _ & _ & Hrep & _ & Hm & _).
  unfold Build_, mbind, go_bind, go_get, go_modify. rewrite Hd, Hb. cbn [snd]. intros m.
  split; [by eexists|]. unfold MaxParams. rewrite (rep_params _ _ (Hrep m)), Hm.
  rewrite (table_params_patterns _ (route_table raw (routes (set_buildDone a)) m)) by apply route_table_patterns.
  apply (rg_room _ Hok').
Qed.

Lemma lookupEntry_cap a m path ps : app_ok a → roomy a → params_ok ps → Params.Len ps = 0 →
  Cap ps = maxParams a → Cap (lookupEntry a m path ps).2 = maxParams a.
Proof.
  intros Ha Hr Hp Hl Hc. rewrite lookupEntry_tree. destruct (decide (path = [])) as [->|Hne].
  - unfold Router.Lookup, Tree.lookup. destruct (root _) as [n|]; [|done]. by destruct n.
  - destruct (Hr m) as [[log Hrep] Hm].
    destruct (Lookup_keeps_capacity (tree_of a m) log path ps Hrep Hne Hp) as [-> _]; [lia|done].
Qed.

Lemma serve_params a s : fctx (the s) = true →
  params (the (serve a s).2) = (lookupEntry a (req_Method (rc s)) (req_Path (rc s)) (params (the s))).2.
Proof.
  intros Hf. unfold serve, mbind, go_bind, route_request. destruct (lookupEntry a _ _ _) as [e ps].
  destruct (match e with Some e => h e | None => Some (miss a) end) as [hd|]; [|done].
  set (s1 := mkSt _ (rc s) _). pose proof (run_settles (errorHandler a) hd s1 Hf) as Hse.
  by rewrite (se_params _ _ Hse).
Qed.

Lemma call_funnel_params eh e s : fctx (the s) = true → handled (the s) = true →
  params (the (call_funnel eh e s).2) = params (the s).
Proof. intros Hf Hh. destruct (call_funnel_spec eh e s Hh Hf) as [_ Hfr]. by rewrite (fr_params _ _ Hfr). Qed.

Lemma handle_cap a stack draining c0 r : app_ok a → roomy a → usable c0 → Cap (params c0) = maxParams a →
  Cap (params (hr_ctx (handle a stack draining c0 r))) = maxParams a.
Proof.
  intros Ha Hr [Hok Hp] Hc. set (r' := if draining then SetConnectionClose r else r).
  pose proof (serve_params a (acquire c0 r') eq_refl) as Hs.
  pose proof (serve_served a c0 r' Ha Hok Hp) as Hv.
  destruct (serve a (acquire c0 r')) as [o s] eqn:Es. cbn [snd] in Hs, Hv.
  assert (params (the (recovered a stack (body a) (acquire c0 r')).2) = params (the s)) as Hps.
  { destruct o as [[e|]|v].
    - destruct (handled (the s)) eqn:Hh; [by rewrite (recovered_settled _ _ _ _ _ Es) by (by right)|].
      destruct (call_funnel_spec (errorHandler a) e (settle s)) as [Ho _]; [done|apply Hv|].
      destruct (call_funnel (errorHandler a) e (settle s)) as [o' s'] eqn:Ec. cbn in Ho. subst o'.
      rewrite (recovered_error _ _ _ _ _ _ Es Hh Ec). cbn [snd].
      pose proof (call_funnel_params (errorHandler a) e (settle s) (sv_fctx _ Hv) eq_refl) as Hcp.
      by rewrite Ec in Hcp.
    - by rewrite (recovered_settled _ _ _ _ _ Es) by (by left).
    - rewrite (recovered_panic _ _ _ _ _ Es).
      exact (call_funnel_params _ _ (settle s) (sv_fctx _ Hv) eq_refl). }
  destruct (reset_ok true c0 Hok) as [Hpo _].
  assert (Cap (params (the s)) = maxParams a) as Hcap.
  { rewrite Hs. apply lookupEntry_cap; [done..|]. cbn. unfold Cap, Reset, truncate. cbn.
    rewrite truncate_cap by (apply Hok || lia). exact Hc. }
  assert (params_ok (params (the s))) as Hpos by apply (sv_ok _ Hv).
  unfold handle. fold r'. destruct (recovered a stack (body a) (acquire c0 r')) as [o' s'].
  cbn [snd] in Hps. cbn. unfold Cap, Reset, truncate. cbn. rewrite Hps.
  rewrite truncate_cap by (exact Hpos || lia). exact Hcap.
Qed.
End dispatch.

(** ** Properties *)

Section properties.
Context `{HA : Any} `{F : Fasthttp} `{HG : AppendGrowth} `{HS : Stored} `{HB : Build}.

Lemma server_step_cap a stack sv ev : app_ok a → roomy a → server_ok a stack sv →
  Forall (λ c, Cap (params c) = maxParams a) (pool sv) →
  map_Forall (λ _ x, Cap (params x.1) = maxParams a) (flight sv) →
  Forall (λ y, Cap (params (hr_ctx y.2)) = maxParams a) (responses sv) →
  let sv' := server_step a stack sv ev in
  Forall (λ c, Cap (params c) = maxParams a) (pool sv') ∧
  map_Forall (λ _ x, Cap (params x.1) = maxParams a) (flight sv') ∧
  Forall (λ y, Cap (params (hr_ctx y.2)) = maxParams a) (responses sv').
Proof.
  intros Ha Hr [_ Hu _] Hp Hf Hres. destruct ev as [id pick draining r|id]; cbn.
  - destruct (flight sv !! id); [done|]. destruct (pool sv !! pick) as [c|] eqn:Ep; cbn.
    + split_and!; [by apply Forall_delete| |done]. apply map_Forall_insert_2; [|done].
      exact (Forall_lookup_1 _ _ _ _ Hp Ep).
    + split_and!; [done| |done]. apply map_Forall_insert_2; [|done]. cbn.
      unfold Cap, slice_cap, MakeParams, make_slice. cbn. by rewrite length_replicate.
  - destruct (flight sv !! id) as [[c [draining r]]|] eqn:Ef; [|done].
    pose proof (handle_cap a stack draining c r Ha Hr (Hu id _ Ef) (Hf id _ Ef)) as Hx. cbn.
    split_and!.
    + destruct poolReuse; [by constructor|done].
    + by apply map_Forall_delete.
    + apply Forall_app. split; [done|]. by apply Forall_singleton.
Qed.

(** C8. Parameter storage never grows: after any sequence of registrations and
    Build, contexts are made with room for [maxParams] captures, and however
    requests overlap, match, miss, fail or panic, every context has exactly that
    room when its request ends and every time it goes back to the pool. *)
Theorem params_never_grow eh ops stack evs :
  let a := (Build_ (run_ops ops (New eh))).2 in
  let sv := run_server a stack evs in
  Forall (λ c, Cap (params c) = maxParams a) (pool sv) ∧
  Forall (λ y, Cap (params (hr_ctx y.2)) = maxParams a) (responses sv).
Proof.
  intros a. pose proof (built_app_ok eh ops) as Ha. pose proof (built_roomy eh ops) as Hr. fold a in Ha, Hr.
  assert (∀ sv, server_ok a stack sv → Forall (λ c, Cap (params c) = maxParams a) (pool sv) →
    map_Forall (λ _ x, Cap (params x.1) = maxParams a) (flight sv) →
    Forall (λ y, Cap (params (hr_ctx y.2)) = maxParams a) (responses sv) →
    let sv' := foldl (server_step a stack) sv evs in
    Forall (λ c, Cap (params c) = maxParams a) (pool sv') ∧
    Forall (λ y, Cap (params (hr_ctx y.2)) = maxParams a) (responses sv')) as Hall.
  { induction evs as [|ev evs IH]; intros sv Hok Hp Hf Hres; [done|]. cbn.
    destruct (server_step_cap a stack sv ev Ha Hr Hok Hp Hf Hres) as (? & ? & ?).
    by apply IH; [apply server_step_ok|..]. }
  apply Hall; [|constructor|apply map_Forall_empty|constructor].
  split; [constructor|apply map_Forall_empty|constructor].
Qed.

(** C7. Requests are isolated: however requests overlap and whichever pooled
    contexts they are given, each one gets the response, starts the stream and
    reaches the ErrorHandler exactly as it would alone on a new context; and every
    context in the pool is empty, with every slot of its backing arrays zeroed, so
    nothing of a finished request is reachable from it. *)
Theorem server_isolation a stack evs (Ha : app_ok a) :
  let sv := run_server a stack evs in
  Forall (λ y, visible y.2 = visible (alone a stack y.1)) (responses sv) ∧
  Forall clean (pool sv).
Proof.
  destruct (run_server_ok a stack evs Ha) as [Hp _ Hr]. split; [exact Hr|].
  eapply Forall_impl; [exact Hp|]. by intros c [_ ?].
Qed.

(** C9. A request is settled once. Whatever the handler does, [handle] itself
    returns; the ErrorHandler is given nothing, or one error, or, when the handler
    panics after settling, that error and then the panic; a panic always reaches
    it, an error returned by an unsettled handler always does, and an error
    returned after settling never does. *)
Theorem handle_settles_once a stack (draining : bool) c0 r (Ha : app_ok a) (Hc : ctx_ok c0)
    (Hp : poisoned c0 = false) :
  let r' := if draining then SetConnectionClose r else r in
  let x := handle a stack draining c0 r in
  let o := (serve a (acquire c0 r')).1 in
  let s := (serve a (acquire c0 r')).2 in
  hr_outcome x = Ret tt ∧
  (if handled (the s) then ∃ e, funnel s = [e] else funnel s = []) ∧
  hr_errors x = match o with
                | Panic v => funnel s ++ [PanicError v stack]
                | Ret (Some e) => if handled (the s) then funnel s else [e]
                | Ret None => funnel s
                end.
Proof.
  pose proof (handle_spec a stack draining c0 r Ha Hc Hp) as Hs. cbv zeta in Hs |- *.
  pose proof (serve_served a c0 (if draining then SetConnectionClose r else r) Ha Hc Hp) as Hv.
  destruct (serve a _) as [o s]. cbn [fst snd] in *. destruct Hs as (Ho & _ & _ & _ & Hs).
  split; [exact Ho|]. split.
  - pose proof (sv_funnel _ Hv) as Hf. pose proof (sv_settled _ Hv) as He.
    destruct (handled (the s)); [by apply He|exact Hf].
  - destruct o as [[e|]|v]; [|by destruct Hs as (-> & _)..].
    destruct (handled (the s)); by destruct Hs as (-> & _).
Qed.

(** With the default ErrorHandler every panic is a generic 500, even after the
    handler wrote a response, settled the request or registered a stream; the
    stream does not start, and the last error the ErrorHandler is given is the
    panic. *)
Theorem panic_is_500 {L : FasthttpLaws F} a stack (draining : bool) c0 r v
    (Ha : app_ok a) (Hc : ctx_ok c0) (Hp : poisoned c0 = false)
    (Heh : errorHandler a = default_handler) :
  let r' := if draining then SetConnectionClose r else r in
  let x := handle a stack draining c0 r in
  (serve a (acquire c0 r')).1 = Panic v →
  StatusCode (hr_response x) = 500%Z ∧ Body (hr_response x) = bs "Internal Server Error" ∧
  hr_stream x = None ∧ last (hr_errors x) = Some (PanicError v stack).
Proof.
  pose proof (handle_spec a stack draining c0 r Ha Hc Hp) as Hs. cbv zeta in Hs |- *.
  pose proof (serve_served a c0 (if draining then SetConnectionClose r else r) Ha Hc Hp) as Hv.
  destruct (serve a _) as [o s]. cbn [snd fst] in *. intros ->.
  destruct Hs as (_ & _ & _ & _ & He & Hst & Hr). rewrite Heh in Hr.
  rewrite call_funnel_default in Hr by apply Hv. rewrite Hr, He, last_snoc. split_and!; try done.
  - cbn. unfold respondPanic, respond. by rewrite status_body, status_content, status_set.
  - cbn. unfold respondPanic, respond. by rewrite body_set.
Qed.

(** A stream starts only when nothing answered the request: the handler
    returned no error, it was not settled and did not panic, and it registered the
    callback itself; the callback runs after the context was released. *)
Theorem stream_starts_unanswered a stack (draining : bool) c0 r fn hb
    (Ha : app_ok a) (Hc : ctx_ok c0) (Hp : poisoned c0 = false) :
  let r' := if draining then SetConnectionClose r else r in
  let x := handle a stack draining c0 r in
  hr_stream x = Some (fn, hb) →
  let o := (serve a (acquire c0 r')).1 in
  let s := (serve a (acquire c0 r')).2 in
  o = Ret None ∧ handled (the s) = false ∧ hr_errors x = [] ∧
  streamFn (the s) = Some fn ∧ streamHeartbeat (the s) = hb ∧
  streamFn (hr_ctx x) = None ∧ fctx (hr_ctx x) = false ∧ poisoned (hr_ctx x) = ricedebug.
Proof.
  pose proof (handle_spec a stack draining c0 r Ha Hc Hp) as Hs. cbv zeta in Hs |- *.
  pose proof (serve_served a c0 (if draining then SetConnectionClose r else r) Ha Hc Hp) as Hv.
  destruct (serve a _) as [o s]. cbn [snd fst] in *. intros Hst.
  destruct Hs as (_ & Hcl & _ & Hpo & Hs). destruct o as [[e|]|v].
  - destruct (handled (the s)); destruct Hs as (_ & Hn & _); congruence.
  - destruct Hs as (He & Hn & _). rewrite Hn in Hst.
    pose proof (sv_funnel _ Hv) as Hf. destruct (handled (the s)); [done|].
    apply bind_Some in Hst as (f & Hf' & [= -> ->]).
    split_and!; try done; [congruence|apply Hcl|apply Hcl].
  - destruct Hs as (_ & Hn & _). congruence.
Qed.

(** In the debug build every use of a released context panics with the
    borrow-contract message and does nothing else. *)
Theorem use_after_release {A} (op : api A) c r l (Hd : ricedebug = true) :
  let s := mkSt (release c) r l in exec op s = (Panic (PanicString errUseAfterRelease), s).
Proof.
  intros s. assert (check s = (Panic (PanicString errUseAfterRelease), s)) as Hcheck.
  { unfold check, mbind, go_bind. rewrite get_ctx_run. unfold s, release, mark.
    cbn. by rewrite !Hd. }
  assert (∀ {B C} (m : M B) (f : B → M C), m s = (Panic (PanicString errUseAfterRelease), s) →
            (m ≫= f) s = (Panic (PanicString errUseAfterRelease), s)) as Hb.
  { intros B C m f Hm. unfold mbind, go_bind. by rewrite Hm. }
  destruct op; cbn [exec]; try by apply Hb. by apply Hb, Hb.
Qed.
End properties.

(** Witnesses: the sample App of [AppSpec.v], built. *)
Import Sample.

Definition sample : App := (Build_ (run_ops ops (New default_handler))).2.

Lemma sample_ok : app_ok sample.
Proof. apply built_app_ok. Qed.

Lemma server_isolation_witness :
  let evs := [Begin 0 0 false (new_request (bs "GET") (bs "/boom"));
              Begin 1 0 false (new_request (bs "POST") (bs "/settle"));
              Finish 0; Begin 2 0 true (new_request (bs "GET") (bs "/stream/9")); Finish 1; Finish 2] in
  let sv := run_server sample [] evs in
  length (responses sv) = 3 ∧
  Forall (λ y, visible y.2 = visible (alone sample [] y.1)) (responses sv) ∧ Forall clean (pool sv).
Proof.
  intros evs sv. split; [vm_compute; reflexivity|].
  apply (server_isolation sample [] evs). apply sample_ok.
Defined.

Lemma handle_settles_once_witness :
  hr_errors (handle sample [] false (newCtx 1) (new_request (bs "POST") (bs "/settle"))) =
  [NewHTTPError 400 (bs "bad")].
Proof.
  pose proof (handle_settles_once sample [] false (newCtx 1) (new_request (bs "POST") (bs "/settle"))
                sample_ok (newCtx_ok 1) eq_refl) as Hx.
  cbv zeta in Hx. destruct Hx as (_ & _ & Hx). rewrite Hx. vm_compute. reflexivity.
Defined.

Lemma panic_is_500_witness :
  StatusCode (hr_response (handle sample [] true (newCtx 1) (new_request (bs "GET") (bs "/boom")))) = 500%Z.
Proof.
  apply (panic_is_500 sample [] true (newCtx 1) (new_request (bs "GET") (bs "/boom"))
           (PanicString (bs "boom"))).
  - apply sample_ok.
  - apply newCtx_ok.
  - reflexivity.
  - vm_compute. reflexivity.
  - vm_compute. reflexivity.
Defined.

Lemma stream_starts_unanswered_witness :
  let x := handle sample [] false (newCtx 1) (new_request (bs "GET") (bs "/stream/9")) in
  hr_stream x = Some (7, 0%Z) ∧ hr_errors x = [].
Proof.
  intros x. assert (hr_stream x = Some (7, 0%Z)) as Hst by (vm_compute; reflexivity).
  split; [exact Hst|].
  pose proof (stream_starts_unanswered sample [] false (newCtx 1)
                (new_request (bs "GET") (bs "/stream/9")) 7 0 sample_ok (newCtx_ok 1) eq_refl) as Hx.
  cbv zeta in Hx. unfold x in Hst. specialize (Hx Hst). apply Hx.
Defined.

Lemma use_after_release_witness :
  let s : @St any_nat plain_fasthttp stored :=
    mkSt (release (HB := true) (newCtx 1)) (new_request [] []) [] in
  @exec any_nat plain_fasthttp growth stored true _ (AParam (bs "id")) s =
  (Panic (PanicString errUseAfterRelease), s).
Proof.
  apply (@use_after_release any_nat plain_fasthttp growth stored true). reflexivity.
Defined.
