(* ===== verification/Reference.v ===== *)
(** * The framework against a reference

    What a program that registers routes and serves requests may expect, with no
    trees, pools, deferred closures or recycled storage: a list of the routes
    registered, the pattern that wins, the middleware folded around the handler, a
    new context, and one rule for what comes of the handler's result. The theorem is
    that registration, [Build] and the server of [Dispatch.v] together refine it. *)

From S2P Require Import Prelude Bytes Pattern Slice Params Tree TreeSpec TreeLookup Router Accept Fasthttp Errors Ctx Handler Isolation App AppSpec Dispatch.

Section reference.
Context `{HA : Any} `{F : Fasthttp} `{HG : AppendGrowth} `{HS : Stored} `{HB : Build}.

(** ** The reference *)

(** The routes registered for a method, under their patterns. *)
Definition routes_of (a : App) (method : bytes) : table App.route :=
  map (λ rt, (r_path rt, rt)) (filter (λ rt, r_method rt = method) (routes a)).

Definition wrapped (mws : list Middleware) (hd : Handler) : Handler := foldr (λ mw next, mw next) hd mws.

(** The handler a request gets, with the route it sees and its parameters. *)
Definition choose (a : App) (r : RequestCtx) : Handler * bytes * list (bytes * bytes) :=
  match table_lookup (routes_of a (req_Method r)) (req_Path r) with
  | Some (_, rt, caps) => (wrapped (middlewareFor a rt) (r_h rt), r_path rt, caps)
  | None => (wrapped (mws a) notFound, [], [])
  end.

(** A context that holds the captures and nothing else. *)
Definition brand_new (route : bytes) (caps : list (bytes * bytes)) : Ctx :=
  mkCtx false true true None (mkParams (Slice (map (λ x, mkParam x.1 x.2) caps) (length caps)))
    (Slice [] 0) false None 0 false route.

(** What comes of a handler's result. *)
Definition conclude (eh : ErrorHandler) (stack : bytes) (x : outcome (panic_value err) (option err) * St)
    : outcome (panic_value err) unit * RequestCtx * option (StreamFn * Z) * list err :=
  let '(o, s) := x in
  let tell e := rc (call_funnel eh e (settle s)).2 in
  match o with
  | Panic v => (Ret tt, tell (PanicError v stack), None, funnel s ++ [PanicError v stack])
  | Ret (Some e) =>
    if handled (the s) then (Ret tt, rc s, None, funnel s) else (Ret tt, tell e, None, [e])
  | Ret None =>
    match (if handled (the s) then None else streamFn (the s)) with
    | Some fn => (Ret tt, SetBodyStreamWriter (rc s), Some (fn, streamHeartbeat (the s)), funnel s)
    | None => (Ret tt, rc s, None, funnel s)
    end
  end.

Definition reference (a : App) (stack : bytes) (q : bool * RequestCtx) :=
  let r := if q.1 then SetConnectionClose q.2 else q.2 in
  let '(hd, route, caps) := choose a r in
  conclude (errorHandler a) stack
    (run_handler (errorHandler a) hd (mkSt (brand_new route caps) r [])).

(** ** Lemmas *)

Lemma table_lookup_map {H H'} (f : H → H') (log : table H) path :
  table_lookup (map (λ e, (e.1, f e.2)) log) path =
  (λ x, (x.1.1, f x.1.2, x.2)) <$> table_lookup log path.
Proof.
  induction log as [|[p h] log IH]; [done|]. cbn. rewrite IH.
  destruct (parsePattern p) as [segs|]; [|done]. destruct (tmatch (toks segs) path) as [caps|]; [|done].
  destruct (table_lookup log path) as [[[ts h'] caps']|]; [|done]. cbn. by destruct (wins ts (toks segs)).
Qed.

Lemma route_table_routes a m :
  route_table (compiled a) (routes a) m = map (λ e, (e.1, compiled a e.2)) (routes_of a m).
Proof. unfold route_table, routes_of. by rewrite map_map. Qed.

Lemma brand_new_captures caps : captures (mkParams (Slice (map (λ x, mkParam x.1 x.2) caps) (length caps))) = caps.
Proof.
  unfold captures, live. cbn. rewrite take_ge by (by rewrite length_map). rewrite map_map.
  rewrite <-(map_id caps) at 2. apply map_ext. by intros [].
Qed.

Lemma brand_new_ok route caps : ctx_ok (brand_new route caps).
Proof.
  split; (split; cbn; [rewrite ?length_map; unfold slice_cap; cbn; rewrite ?length_map; lia|]); [|constructor].
  rewrite drop_ge by (by rewrite length_map). constructor.
Qed.

(** A context a lookup filled looks like a brand new one. *)
Lemma routed_csim n ps route caps : params_ok ps → captures ps = caps →
  csim (set_route route (set_params ps (reset true (newCtx n)))) (brand_new route caps).
Proof.
  intros Hp Hc. destruct (reset_ok true _ (newCtx_ok n)) as [_ Hs]. destruct (brand_new_ok route caps).
  split; try done; cbn.
  apply (proj2 (captures_live ps (params (brand_new route caps)))).
  rewrite Hc. symmetry. apply brand_new_captures.
Qed.

(** Behind the lookup, the handler runs as on the brand new context. *)
Lemma serve_reference eh ops n r :
  let a := run_ops ops (New eh) in
  let a' := (Build_ a).2 in
  req_Path r ≠ [] →
  let '(hd, route, caps) := choose a r in
  let x := serve a' (acquire (newCtx n) r) in
  let y := run_handler (errorHandler a) hd (mkSt (brand_new route caps) r []) in
  x.1 = y.1 ∧ sim x.2 y.2.
Proof.
  intros a a' Hp. destruct (build_answers eh ops) as (b & Hb & _ & Hmiss & Heh & _ & Hl).
  fold a in Hb, Hmiss, Heh, Hl.
  assert (a' = b) as Hab by (unfold a'; by rewrite Hb). clearbody a'. subst a'.
  pose proof (built_app_ok eh ops) as Hok. fold a in Hok. rewrite Hb in Hok. cbn in Hok.
  set (ps0 := Reset (params (newCtx n))).
  assert (params_ok ps0) as Hps0 by apply (reset_ok true _ (newCtx_ok n)).
  assert (captures ps0 = []) as Hc0 by (apply captures_truncate; [apply MakeParams_ok|lia]).
  destruct (Hl (req_Method r) (req_Path r) ps0 Hp Hps0) as [He Hc].
  pose proof (lookupEntry_ok b (req_Method r) (req_Path r) ps0 Hok Hps0) as Hps.
  rewrite route_table_routes, table_lookup_map in He, Hc. rewrite Hc0 in Hc.
  unfold serve, mbind, go_bind, route_request, acquire. cbn [rc the params reset funnel]. fold ps0.
  destruct (lookupEntry b _ _ ps0) as [e ps]. cbn [fst snd] in He, Hc, Hps. subst e.
  rewrite Heh. unfold choose.
  destruct (table_lookup (routes_of a (req_Method r)) (req_Path r)) as [[[ts rt] caps]|]; cbn.
  - rewrite Compile_foldr. apply (run_handler_alike (errorHandler a)).
    split; [|done..]. by apply routed_csim.
  - rewrite Hmiss, Compile_foldr. apply (run_handler_alike (errorHandler a)).
    split; [|done..]. by apply routed_csim.
Qed.

(** The rule looks only at what such contexts share. *)
Lemma conclude_sim eh stack o s1 s2 : sim s1 s2 → conclude eh stack (o, s1) = conclude eh stack (o, s2).
Proof.
  intros Hs. pose proof Hs as [Hc Hr Hf].
  assert (∀ e, rc (call_funnel eh e (settle s1)).2 = rc (call_funnel eh e (settle s2)).2) as Htell.
  { intros e. apply (call_funnel_alike eh e). split; [|done|done]. by destruct Hc; split. }
  destruct o as [[e|]|v]; unfold conclude; cbv zeta beta iota;
    by rewrite ?(cs_handled _ _ Hc), ?(cs_streamFn _ _ Hc), ?(cs_heartbeat _ _ Hc), ?Hr, ?Hf, ?Htell.
Qed.

(** [handle] follows the rule. *)
Lemma handle_concludes a stack (draining : bool) c r : app_ok a → ctx_ok c → poisoned c = false →
  visible (handle a stack draining c r) =
  conclude (errorHandler a) stack (serve a (acquire c (if draining then SetConnectionClose r else r))).
Proof.
  intros Ha Hc Hp. pose proof (handle_spec a stack draining c r Ha Hc Hp) as Hs. cbv zeta in Hs.
  unfold visible. destruct (serve a _) as [[[e|]|v] s]; destruct Hs as (-> & _ & _ & _ & Hs); cbn.
  - destruct (handled (the s)); by destruct Hs as (-> & -> & ->).
  - destruct Hs as (-> & Hst & ->). rewrite Hst.
    destruct (handled (the s)); [done|]. by destruct (streamFn (the s)).
  - by destruct Hs as (-> & -> & ->).
Qed.
End reference.

(** ** Properties *)

Section properties.
Context `{HA : Any} `{F : Fasthttp} `{HG : AppendGrowth} `{HS : Stored} `{HB : Build}.
Context {L : FasthttpLaws F}.

(** C1. The framework refines its reference: after any sequence of registration calls,
    some of which may have panicked, and Build, however requests overlap and
    whichever pooled contexts they are given, every request with a path is answered
    as the reference answers it: the winning route's handler inside its middleware
    runs on a brand new context with the captures, a route miss runs the
    application's middleware around the 404, an unsettled error and a panic go to
    the ErrorHandler, and a stream starts only on an unanswered request. *)
Theorem server_refines_reference eh ops stack evs :
  let a := run_ops ops (New eh) in
  Forall (λ y, req_Path y.1.2 ≠ [] → visible y.2 = reference a stack y.1)
    (responses (run_server (Build_ a).2 stack evs)).
Proof.
  intros a. pose proof (built_app_ok eh ops) as Hok. fold a in Hok.
  eapply Forall_impl; [apply (so_responses _ _ _ (run_server_ok _ stack evs Hok))|].
  intros [[draining r] x] Hx Hp. cbn [fst snd] in *. rewrite Hx. unfold alone, reference. cbn [fst snd].
  rewrite handle_concludes by (done || apply newCtx_ok).
  set (r' := if draining then SetConnectionClose r else r).
  assert (req_Path r' ≠ []) as Hp' by (unfold r'; destruct draining; by rewrite ?path_close).
  pose proof (serve_reference eh ops (maxParams (Build_ a).2) r' Hp') as Hs. fold a in Hs.
  assert (errorHandler (Build_ a).2 = errorHandler a) as ->.
  { destruct (build_answers eh ops) as (b & Hb & _ & _ & Heh & _). fold a in Hb. by rewrite Hb. }
  destruct (choose a r') as [[hd route] caps]. destruct Hs as [Ho Hsim].
  destruct (serve _ _) as [o s1], (run_handler _ _ _) as [o' s2]. cbn in Ho, Hsim. subst o'.
  by apply conclude_sim.
Qed.
End properties.

(** Witness: a stream, a request that settles itself and a miss, overlapping, on the
    sample App. *)
Import Sample.

Lemma server_refines_reference_witness :
  let a := run_ops ops (New default_handler) in
  let evs := [Begin 0 0 true (new_request (bs "GET") (bs "/stream/9"));
              Begin 1 0 false (new_request (bs "POST") (bs "/settle")); Finish 1;
              Begin 2 0 false (new_request (bs "GET") (bs "/none")); Finish 0; Finish 2] in
  let answers := responses (run_server (Build_ a).2 [] evs) in
  length answers = 3 ∧ Forall (λ y, visible y.2 = reference a [] y.1) answers.
Proof.
  intros a evs answers. split; [vm_compute; reflexivity|].
  pose proof (server_refines_reference default_handler ops [] evs) as Hr.
  assert (Forall (λ y, req_Path y.1.2 ≠ []) answers) as Hp.
  { unfold answers. apply (bool_decide_unpack _). vm_compute. exact I. }
  apply Forall_forall. intros y Hy.
  exact (proj1 (Forall_forall _ _) Hr y Hy (proj1 (Forall_forall _ _) Hp y Hy)).
Defined.
