(* ===== verification/Options.v ===== *)
(** * Options and the transport

    [src/app.go]: the [Option]s an App is made with, what [New] gives the fasthttp
    server, and [transportError], which answers the requests fasthttp could not
    read. *)

From S2P Require Import Prelude Bytes Pattern Slice Params Tree TreeSpec TreeLookup Router Accept Fasthttp Errors Ctx Handler App.

Section options.
Context `{HA : Any} `{F : Fasthttp} `{HG : AppendGrowth} `{HS : Stored} `{HB : Build}.

(** The fields of [fasthttp.Server] that [New] and the options set, durations in
    nanoseconds; zero is fasthttp's default. *)
Record server : Type := mkServer {
  ReadTimeout : Z;
  WriteTimeout : Z;
  IdleTimeout : Z;
  MaxRequestBodySize : Z;
  Name : bytes;
}.

(** The fields of an App an [Option] can touch. *)
Record settings : Type := mkSettings {
  st_errorHandler : ErrorHandler;
  srv : server;
  st_drainDelay : Z;
}.

Definition Option_ : Type := settings → settings.

Definition set_srv (f : server → server) : Option_ := λ a,
  mkSettings (st_errorHandler a) (f (srv a)) (st_drainDelay a).

(** ** The options *)

Definition WithErrorHandler (h : option ErrorHandler) : outcome bytes Option_ :=
  match h with
  | None => Panic (bs "rice: WithErrorHandler: handler is nil")
  | Some h => Ret (λ a, mkSettings h (srv a) (st_drainDelay a))
  end.

Definition WithReadTimeout (d : Z) : outcome bytes Option_ :=
  if (d <? 0)%Z then Panic (bs "rice: WithReadTimeout: duration is negative")
  else Ret (set_srv (λ s, mkServer d (WriteTimeout s) (IdleTimeout s) (MaxRequestBodySize s) (Name s))).

Definition WithWriteTimeout (d : Z) : outcome bytes Option_ :=
  if (d <? 0)%Z then Panic (bs "rice: WithWriteTimeout: duration is negative")
  else Ret (set_srv (λ s, mkServer (ReadTimeout s) d (IdleTimeout s) (MaxRequestBodySize s) (Name s))).

Definition WithIdleTimeout (d : Z) : outcome bytes Option_ :=
  if (d <? 0)%Z then Panic (bs "rice: WithIdleTimeout: duration is negative")
  else Ret (set_srv (λ s, mkServer (ReadTimeout s) (WriteTimeout s) d (MaxRequestBodySize s) (Name s))).

Definition WithMaxBodySize (n : Z) : outcome bytes Option_ :=
  if (n <=? 0)%Z then Panic (bs "rice: WithMaxBodySize: size must be positive")
  else Ret (set_srv (λ s, mkServer (ReadTimeout s) (WriteTimeout s) (IdleTimeout s) n (Name s))).

Definition WithDrainDelay (d : Z) : outcome bytes Option_ :=
  if (d <? 0)%Z then Panic (bs "rice: WithDrainDelay: duration is negative")
  else Ret (λ a, mkSettings (st_errorHandler a) (srv a) d).

(** [New]: the defaults, then the options in order. *)
Definition default_settings : settings := mkSettings default_handler (mkServer 0 0 0 0 (bs "rice")) 0.

Definition configure (opts : list Option_) : settings := foldl (λ a o, o a) default_settings opts.

Definition New_with (opts : list Option_) : App * settings :=
  let s := configure opts in (New (st_errorHandler s), s).

(** ** Option calls

    An argument list [rice.New(rice.WithX(x), ...)]: Go evaluates the calls in
    order, so the first bad one panics before [New] runs. *)
Inductive option_call : Type :=
| CErrorHandler (h : option ErrorHandler)
| CReadTimeout (d : Z)
| CWriteTimeout (d : Z)
| CIdleTimeout (d : Z)
| CMaxBodySize (n : Z)
| CDrainDelay (d : Z).

Definition option_of (c : option_call) : outcome bytes Option_ :=
  match c with
  | CErrorHandler h => WithErrorHandler h
  | CReadTimeout d => WithReadTimeout d
  | CWriteTimeout d => WithWriteTimeout d
  | CIdleTimeout d => WithIdleTimeout d
  | CMaxBodySize n => WithMaxBodySize n
  | CDrainDelay d => WithDrainDelay d
  end.

Fixpoint options_of (l : list option_call) : outcome bytes (list Option_) :=
  match l with
  | [] => Ret []
  | c :: l' =>
    match option_of c with
    | Panic v => Panic v
    | Ret o => match options_of l' with Panic v => Panic v | Ret os => Ret (o :: os) end
    end
  end.

Definition New_call (l : list option_call) : outcome bytes (App * settings) :=
  match options_of l with Panic v => Panic v | Ret os => Ret (New_with os) end.

(** ** Requests fasthttp could not read

    The errors fasthttp and the standard library hand over: its sentinel and its
    type for a header that does not fit, [net.OpError] with its [Timeout] method's
    answer, errors that wrap others, and everything else. *)
Inductive transport_err : Type :=
| ErrBodyTooLarge
| ErrSmallBuffer
| OpError (Timeout : bool) (Err : option transport_err)
| Wrapped (e : transport_err)
| Joined (es : list transport_err)
| Other.

(** The errors [errors.Is] and [errors.As] visit, in order. *)
Fixpoint visited (e : transport_err) : list transport_err :=
  e :: match e with
       | OpError _ (Some e') => visited e'
       | Wrapped e' => visited e'
       | Joined es => concat (map visited es)
       | _ => []
       end.

Definition is_too_large (e : transport_err) : bool := match e with ErrBodyTooLarge => true | _ => false end.
Definition is_small_buffer (e : transport_err) : bool := match e with ErrSmallBuffer => true | _ => false end.
Definition is_op (e : transport_err) : bool := match e with OpError _ _ => true | _ => false end.

Definition Is (P : transport_err → bool) (e : transport_err) : bool := existsb P (visited e).
Definition As_ (P : transport_err → bool) (e : transport_err) : option transport_err :=
  List.find P (visited e).

(** [errors.As(err, &netErr) && netErr.Timeout()]. *)
Definition timed_out (e : transport_err) : bool :=
  match As_ is_op e with Some (OpError t _) => t | _ => false end.

(** [transportError]: [ctx_Error] is fasthttp's [RequestCtx.Error]. *)
Definition transportError (ctx_Error : bytes → Z → RequestCtx → RequestCtx) (e : transport_err)
    (ctx : RequestCtx) : RequestCtx :=
  if Is is_too_large e then ctx_Error (bs "Request Entity Too Large") 413%Z ctx
  else match As_ is_small_buffer e with
       | Some _ => ctx_Error (bs "Too big request header") 431%Z ctx
       | None =>
         if timed_out e then ctx_Error (bs "Request timeout") 408%Z ctx
         else ctx_Error (bs "Error when parsing request") 400%Z ctx
       end.

(** ** What the options promise *)

(** A call whose argument the guard accepts. *)
Definition valid (c : option_call) : bool :=
  match c with
  | CErrorHandler h => bool_decide (is_Some h)
  | CReadTimeout d | CWriteTimeout d | CIdleTimeout d | CDrainDelay d => (0 <=? d)%Z
  | CMaxBodySize n => (0 <? n)%Z
  end.

(** The argument a call gives to each setting. *)
Definition to_errorHandler (c : option_call) : option ErrorHandler :=
  match c with CErrorHandler h => h | _ => None end.
Definition to_ReadTimeout (c : option_call) : option Z :=
  match c with CReadTimeout d => Some d | _ => None end.
Definition to_WriteTimeout (c : option_call) : option Z :=
  match c with CWriteTimeout d => Some d | _ => None end.
Definition to_IdleTimeout (c : option_call) : option Z :=
  match c with CIdleTimeout d => Some d | _ => None end.
Definition to_MaxBodySize (c : option_call) : option Z :=
  match c with CMaxBodySize n => Some n | _ => None end.
Definition to_DrainDelay (c : option_call) : option Z :=
  match c with CDrainDelay d => Some d | _ => None end.

(** The last argument given to a setting, or its default. *)
Definition given {V} (to : option_call → option V) (l : list option_call) (dflt : V) : V :=
  default dflt (last (omap to l)).

Lemma option_of_valid c : valid c = true ↔ ∃ o, option_of c = Ret o.
Proof.
  destruct c as [[h|]|d|d|d|n|d]; cbn;
    unfold WithReadTimeout, WithWriteTimeout, WithIdleTimeout, WithMaxBodySize, WithDrainDelay;
    try (case_match; to_prop; rewrite ?Z.leb_le, ?Z.ltb_lt; split; [intros|intros [? [=]]|intros|intros [? [=]]];
         try lia; by eexists).
  - split; [by eexists|done].
  - by split; [|intros [? ?]].
Qed.

Lemma options_of_Ret l os : options_of l = Ret os → Forall2 (λ c o, option_of c = Ret o) l os.
Proof.
  revert os. induction l as [|c l IH]; intros os; cbn; [by intros [= <-]|].
  destruct (option_of c) as [o|v] eqn:Ec; [|done].
  destruct (options_of l) as [os'|v]; [|done]. intros [= <-]. constructor; auto.
Qed.

Lemma options_of_Panic l v : options_of l = Panic v →
  ∃ l1 c l2, l = l1 ++ c :: l2 ∧ Forall (λ c, valid c = true) l1 ∧ option_of c = Panic v.
Proof.
  induction l as [|c l IH]; cbn; [done|]. destruct (option_of c) as [o|v'] eqn:Ec.
  - destruct (options_of l) as [os|v']; [done|]. intros [= ->]. destruct IH as (l1 & c' & l2 & -> & Hl & Hc); [done|].
    exists (c :: l1), c', l2. split; [done|]. split; [|done]. constructor; [|done].
    apply option_of_valid. by eexists.
  - intros [= ->]. by exists [], c, l.
Qed.

(** A field an option either sets to its argument or leaves alone holds the last
    argument given. *)
Lemma configured {V} (field : settings → V) (to : option_call → option V) l os :
  (∀ c o a, option_of c = Ret o → field (o a) = default (field a) (to c)) →
  Forall2 (λ c o, option_of c = Ret o) l os →
  ∀ a, field (foldl (λ a o, o a) a os) = given to l (field a).
Proof.
  intros Hf Hl. induction Hl as [|c o l os Hc _ IH]; intros a; [done|].
  cbn [foldl]. rewrite IH, (Hf c o a Hc). unfold given. cbn [omap list_omap].
  destruct (to c) as [v|]; [|done]. rewrite last_cons. by destruct (last (omap to l)).
Qed.

Lemma given_bound (to : option_call → option Z) l b :
  (∀ c v, valid c = true → to c = Some v → (b <= v)%Z) → Forall (λ c, valid c = true) l →
  ∀ dflt, (b <= dflt)%Z → (b <= given to l dflt)%Z.
Proof.
  intros Hto Hl dflt Hd. unfold given. destruct (last (omap to l)) as [v|] eqn:Ev; [|done]. cbn.
  apply last_Some_elem_of, list_elem_of_omap in Ev as (c & Hin & Hc).
  rewrite Forall_forall in Hl. by eapply Hto; [apply Hl|].
Qed.
End options.

Lemma Is_spec P e : Is P e = true ↔ ∃ x, x ∈ visited e ∧ P x = true.
Proof. unfold Is. rewrite existsb_exists. by setoid_rewrite list_elem_of_In. Qed.

(** [errors.As] finds the first. *)
Lemma As_spec P e :
  match As_ P e with
  | Some x => ∃ l1 l2, visited e = l1 ++ x :: l2 ∧ (∀ y, y ∈ l1 → P y = false) ∧ P x = true
  | None => ∀ x, x ∈ visited e → P x = false
  end.
Proof.
  unfold As_. induction (visited e) as [|y l IH]; cbn; [by intros ? ?%not_elem_of_nil|].
  destruct (P y) eqn:Ey.
  - exists [], l. split_and!; [done|by intros ? ?%not_elem_of_nil|done].
  - destruct (List.find P l) as [x|].
    + destruct IH as (l1 & l2 & -> & Hl & Hx). exists (y :: l1), l2. split_and!; [done| |done].
      intros z [->|Hz]%elem_of_cons; auto.
    + intros z [->|Hz]%elem_of_cons; auto.
Qed.

Lemma timed_out_spec e :
  timed_out e = true ↔ ∃ l1 x l2, visited e = l1 ++ OpError true x :: l2 ∧ ∀ b y, OpError b y ∉ l1.
Proof.
  unfold timed_out. split.
  - pose proof (As_spec is_op e) as Hs. destruct (As_ is_op e) as [[| |b y| | |]|]; try done.
    destruct Hs as (l1 & l2 & Hv & Hn & _). intros ->. exists l1, y, l2. split; [done|].
    intros b y' Hin. by apply Hn in Hin.
  - intros (l1 & x & l2 & Hv & Hn). unfold As_. rewrite Hv. clear Hv.
    induction l1 as [|z l1 IH]; [done|]. cbn. destruct z as [| |b y| | |]; cbn;
      try (apply IH; intros b' y' Hin; apply (Hn b' y'); by right).
    destruct (Hn b y). by left.
Qed.

(** Discharges [configured]'s premise for a field of [settings]. *)
Ltac option_field :=
  intros [[?|]|?|?|?|?|?] ? ?; cbn;
  unfold WithReadTimeout, WithWriteTimeout, WithIdleTimeout, WithMaxBodySize, WithDrainDelay;
  repeat case_match; by intros [= <-].

(** ** Properties *)

Section properties.
Context `{HA : Any} `{F : Fasthttp} `{HG : AppendGrowth} `{HS : Stored} `{HB : Build}.

(** [New] with options either panics at the first argument a guard rejects,
    and then nothing was made, or every argument was acceptable and the App has,
    for each setting, the last value given or the default: no duration is negative
    and a body limit is positive unless it is fasthttp's own. *)
Theorem New_settings (l : list option_call) :
  match New_call l with
  | Panic v => ∃ l1 c l2, l = l1 ++ c :: l2 ∧ Forall (λ c, valid c = true) l1 ∧ valid c = false ∧
      option_of c = Panic v
  | Ret (a, s) =>
      Forall (λ c, valid c = true) l ∧
      a = New (given to_errorHandler l default_handler) ∧
      s = mkSettings (given to_errorHandler l default_handler)
            (mkServer (given to_ReadTimeout l 0%Z) (given to_WriteTimeout l 0%Z) (given to_IdleTimeout l 0%Z)
               (given to_MaxBodySize l 0%Z) (bs "rice"))
            (given to_DrainDelay l 0%Z) ∧
      (0 <= ReadTimeout (srv s) ∧ 0 <= WriteTimeout (srv s) ∧ 0 <= IdleTimeout (srv s) ∧
       0 <= MaxRequestBodySize (srv s) ∧ 0 <= st_drainDelay s)%Z
  end.
Proof.
  unfold New_call. destruct (options_of l) as [os|v] eqn:Eo.
  2: { destruct (options_of_Panic _ _ Eo) as (l1 & c & l2 & -> & Hl & Hc). exists l1, c, l2.
       split_and!; [done..| |done]. apply not_true_iff_false. rewrite option_of_valid.
       intros [o Ho]. by rewrite Ho in Hc. }
  apply options_of_Ret in Eo.
  assert (Forall (λ c, valid c = true) l) as Hv.
  { clear -Eo. induction Eo; constructor; [|done]. apply option_of_valid. by eexists. }
  unfold New_with, configure.
  assert (foldl (λ a o, o a) default_settings os =
    mkSettings (given to_errorHandler l default_handler)
      (mkServer (given to_ReadTimeout l 0%Z) (given to_WriteTimeout l 0%Z) (given to_IdleTimeout l 0%Z)
         (given to_MaxBodySize l 0%Z) (bs "rice"))
      (given to_DrainDelay l 0%Z)) as ->.
  { pose proof (configured st_errorHandler to_errorHandler l os) as H1.
    pose proof (configured (λ a, ReadTimeout (srv a)) to_ReadTimeout l os) as H2.
    pose proof (configured (λ a, WriteTimeout (srv a)) to_WriteTimeout l os) as H3.
    pose proof (configured (λ a, IdleTimeout (srv a)) to_IdleTimeout l os) as H4.
    pose proof (configured (λ a, MaxRequestBodySize (srv a)) to_MaxBodySize l os) as H5.
    pose proof (configured st_drainDelay to_DrainDelay l os) as H6.
    pose proof (configured (λ a, Name (srv a)) (λ _, None) l os) as H7.
    specialize (H1 ltac:(option_field) Eo default_settings).
    specialize (H2 ltac:(option_field) Eo default_settings).
    specialize (H3 ltac:(option_field) Eo default_settings).
    specialize (H4 ltac:(option_field) Eo default_settings).
    specialize (H5 ltac:(option_field) Eo default_settings).
    specialize (H6 ltac:(option_field) Eo default_settings).
    specialize (H7 ltac:(option_field) Eo default_settings).
    destruct (foldl _ _ _) as [eh [] dd]. cbn in *. unfold given in H7.
    replace (omap (λ _, None) l) with (@nil bytes) in H7 by (clear; by induction l). by subst. }
  split; [done|]. split; [done|]. split; [done|]. cbn.
  split_and!; (apply given_bound; [|done|lia]); intros [] v Hc [= <-]; cbn in Hc; to_prop; lia.
Qed.

(** C38. Which failure of fasthttp's gets which answer: a body over the limit
    anywhere in the error is a 413, then a header that does not fit a 431, then a
    read the first network error calls a timeout a 408, and only the rest a 400.
    Nothing else is done to the request. *)
Theorem transportError_answers ctx_Error e ctx :
  ∃ msg code, transportError ctx_Error e ctx = ctx_Error msg code ctx ∧
    (code = 413%Z ↔ ErrBodyTooLarge ∈ visited e) ∧
    (code = 431%Z ↔ (ErrBodyTooLarge ∉ visited e) ∧ ErrSmallBuffer ∈ visited e) ∧
    (code = 408%Z ↔ (ErrBodyTooLarge ∉ visited e) ∧ (ErrSmallBuffer ∉ visited e) ∧
       ∃ l1 x l2, visited e = l1 ++ OpError true x :: l2 ∧ ∀ b y, OpError b y ∉ l1) ∧
    code ∈ [413; 431; 408; 400]%Z.
Proof.
  setoid_rewrite <-timed_out_spec. unfold transportError.
  assert (Is is_too_large e = true ↔ ErrBodyTooLarge ∈ visited e) as H1.
  { rewrite Is_spec. split; [by intros ([] & Hin & Hx)|by exists ErrBodyTooLarge]. }
  assert (is_Some (As_ is_small_buffer e) ↔ ErrSmallBuffer ∈ visited e) as H2.
  { pose proof (As_spec is_small_buffer e) as Hs. destruct (As_ is_small_buffer e) as [x|].
    - destruct Hs as (l1 & l2 & -> & _ & Hx). split; [|by eexists]. destruct x; set_solver.
    - split; [by intros [? ?]|]. intros Hin. by apply Hs in Hin. }
  destruct (Is is_too_large e); [|destruct (As_ is_small_buffer e); [|destruct (timed_out e)]];
    (eexists _, _; split; [done|]); rewrite <-H1, <-H2; rewrite ?is_Some_alt; set_solver by (done || lia).
Qed.
End properties.
