(* ===== verification/Static.v ===== *)
(** * Static files

    [src/static.go]: what surrounds fasthttp's file handler. The file handler
    itself, and the headers of a response as a whole, belong to fasthttp and are
    parameters. *)

From S2P Require Import Prelude Bytes Pattern Slice Params Router Fasthttp Errors Ctx Handler App.

(** ** Paths *)

(** [hasDotDotSegment]: the loop over the segments. Each round drops at least the
    segment's slash, so as many rounds as bytes are enough. *)
Fixpoint hasDotDotSegment_loop (fuel : nat) (p : bytes) : bool :=
  match fuel, p with
  | S fuel', _ :: _ =>
    let '(seg, rest) := match index_byte "/" p with
                        | Some i => (take i p, drop (S i) p)
                        | None => (p, [])
                        end in
    if bool_decide (seg = bs "..") then true else hasDotDotSegment_loop fuel' rest
  | _, _ => false
  end.

Definition hasDotDotSegment (p : bytes) : bool := hasDotDotSegment_loop (length p) p.

(** [url.URL.EscapedPath] for a path without a [RawPath]: everything but letters,
    digits and the bytes RFC 3986 lets a path carry is percent-encoded. *)
Definition path_safe (c : ascii) : bool := is_alnum c || bool_decide (c ∈ bs "-_.~$&+,/:;=@").

Definition upperhex (z : Z) : ascii := nth (Z.to_nat z) (bs "0123456789ABCDEF") "0"%char.

Definition escape_byte (c : ascii) : bytes :=
  if path_safe c then [c]
  else ["%"%char; upperhex (code c / 16); upperhex (code c mod 16)].

Definition EscapedPath (path : bytes) : bytes :=
  if bool_decide (path = bs "*") then bs "*" else concat (map escape_byte path).

Definition is_slash (c : ascii) : bool := bool_decide (c = "/"%char) || bool_decide (c = "\"%char).

(** The Location of [writeDirRedirect], from the path and the query string. *)
Definition redirect_location (path query : bytes) : bytes :=
  let p := trim_left is_slash (EscapedPath path) in
  let loc := if bool_decide (p = []) then bs "/" else "/"%char :: p ++ bs "/" in
  if bool_decide (query = []) then loc else loc ++ "?"%char :: query.

(** ** Responses *)

(** What the file needs from fasthttp besides [Fasthttp]: the query string, and a
    response's headers taken and put back as a whole. [CopyTo] carries the status
    with the headers, which is why the source sets it again. *)
Class FasthttpFS `{F : Fasthttp} : Type := {
  QueryString : RequestCtx → bytes;
  Headers : Type;
  headers_of : RequestCtx → Headers;
  HeaderLen : RequestCtx → nat;
  CopyTo : Headers → Z → RequestCtx → RequestCtx;
}.

Class FasthttpFSLaws `{FS : FasthttpFS} : Prop := {
  headers_copy : ∀ h code r, headers_of (CopyTo h code r) = h;
  headers_status : ∀ code r, headers_of (SetStatusCode code r) = headers_of r;
}.

#[export] Instance plain_files : FasthttpFS := {
  QueryString _ := [];
  Headers := list (bytes * bytes);
  headers_of := rq_headers;
  HeaderLen r := length (rq_headers r) + if decide (rq_content r = []) then 0 else 1;
  CopyTo h c r := mkRequest (rq_method r) (rq_path r) c (rq_content r) (rq_body r) h
                    (rq_close r) (rq_stream r) (rq_sent r);
}.

#[export] Instance plain_files_laws : FasthttpFSLaws.
Proof. by split. Qed.

Section static.
Context `{HA : Any} `{F : Fasthttp} `{HG : AppendGrowth} `{HS : Stored} `{HB : Build} `{FS : !FasthttpFS}.

Definition writeDirRedirect (r : RequestCtx) : RequestCtx :=
  let loc := redirect_location (req_Path r) (QueryString r) in
  SetStatusCode 301 (SetHeader (bs "Location") loc (ResetBody r)).

Definition errStaticNotBuilt : err :=
  PlainError (bs "rice: a Static route was dispatched before Build").

(** [staticResult]: the status fasthttp's handler wrote decides. *)
Definition staticResult (r : RequestCtx) : option err * RequestCtx :=
  let code := StatusCode r in
  if (code =? 302)%Z then (None, writeDirRedirect r)
  else if (code =? 404)%Z || (code =? 403)%Z then (Some ErrNotFound, r)
  else if (400 <=? code)%Z then (Some (NewHTTPError code []), r)
  else (None, r).

(** [hasHeaders]: [Len] counts the Content-Type. *)
Definition hasHeaders (r : RequestCtx) : bool :=
  let n := HeaderLen r in
  bool_decide (0 < if bool_decide (ContentType r = []) then n else n - 1).

(** [staticEntry]: the file handler is nil until [build]. *)
Record staticEntry : Type := mkStatic { prefix : bytes; h : option (RequestCtx → RequestCtx) }.

(** The part of [serve] around the file handler. *)
Definition serve_file (file : RequestCtx → RequestCtx) (r : RequestCtx) : RequestCtx :=
  let r' := file r in
  if hasHeaders r then
    let code := StatusCode r' in
    if (code <? 200)%Z || (300 <=? code)%Z
    then SetStatusCode code (CopyTo (headers_of r) (StatusCode r) r') else r'
  else r'.

Definition refused_path (p : bytes) : bool :=
  match index_byte "000" p with Some _ => true | None => hasDotDotSegment p end.

Definition serve_entry (e : staticEntry) (r : RequestCtx) : option err * RequestCtx :=
  match h e with
  | None => (Some errStaticNotBuilt, r)
  | Some file =>
    if refused_path (req_Path r) then (Some ErrNotFound, r) else staticResult (serve_file file r)
  end.

(** [e.serve]: the entry is the one [build] left, which no request changes. *)
Definition serve_handler (e : staticEntry) : Handler := Call (AFctx (serve_entry e)).

Definition redirectToDir : Handler := Call (AFctx (λ r, (None, writeDirRedirect r))).

(** [static]: three patterns for each of two methods, two for an empty prefix. The
    nil check of the file system comes first. *)
Inductive static_panic : Type :=
| NilFS (prefix : bytes)
| Reg (p : reg_panic).

Definition static (prefix : bytes) (e : option staticEntry) (g : option nat)
    (mw : list (option Middleware)) : go App static_panic unit :=
  match e with
  | None => go_panic (NilFS prefix)
  | Some e => λ a,
    let m : R unit :=
      let reg method :=
        (if bool_decide (prefix = []) then mret tt
         else register method prefix (Some redirectToDir) g mw);;
        register method (prefix ++ bs "/") (Some (serve_handler e)) g mw;;
        register method (prefix ++ bs "/*filepath") (Some (serve_handler e)) g mw in
      reg (bs "GET");; reg (bs "HEAD") in
    match m a with
    | (Ret u, a') => (Ret u, a')
    | (Panic p, a') => (Panic (Reg p), a')
    end
  end.

Definition App_Static (prefix : bytes) (e : option staticEntry) (mw : list (option Middleware))
    : go App static_panic unit := λ a,
  match checkGroupPrefix prefix a with
  | (Panic p, a') => (Panic (Reg p), a')
  | (Ret _, a') => static prefix e None mw a'
  end.

Definition Group_Static (g : nat) (prefix : bytes) (e : option staticEntry)
    (mw : list (option Middleware)) : go App static_panic unit := λ a,
  match checkGroupPrefix prefix a with
  | (Panic p, a') => (Panic (Reg p), a')
  | (Ret _, a') => static (g_prefix (group a g) ++ prefix) e (Some g) mw a'
  end.
End static.

(** ** Lemmas *)

Lemma hasDotDot_loop fuel : ∀ p, length p <= fuel →
  hasDotDotSegment_loop fuel p = true ↔ bs ".." ∈ split_on "/" p.
Proof.
  induction fuel as [|fuel IH]; intros [|c p] Hf; cbn [length] in Hf; try lia;
    try (split; [done|]; intros Hin; apply list_elem_of_singleton in Hin; done).
  cbn [hasDotDotSegment_loop]. rewrite split_on_index.
  destruct (index_byte "/" (c :: p)) as [i|] eqn:Ei.
  - rewrite elem_of_cons. case_bool_decide as Hseg; [by split; [left|]|].
    rewrite IH by (rewrite length_drop; cbn [length]; lia).
    split; [by right|]. intros [Heq|]; [by destruct Hseg|done].
  - rewrite list_elem_of_singleton. case_bool_decide as Hseg; [done|].
    split; [by destruct fuel|]. intros Heq. by destruct Hseg.
Qed.

Lemma pathUnescape_percent x y rest : isHex x && isHex y = true →
  pathUnescape ("%"%char :: x :: y :: rest) =
  cons (byte_of (unhex x * 16 + unhex y)) <$> pathUnescape rest.
Proof. intros Hh. cbn. by rewrite Hh. Qed.

Lemma escape_byte_spec c rest :
  pathUnescape (escape_byte c ++ rest) = cons c <$> pathUnescape rest ∧
  Forall (λ b, path_safe b = true ∨ b = "%"%char) (escape_byte c).
Proof.
  unfold escape_byte. destruct (path_safe c) eqn:Es.
  - split; [|constructor; [by left|constructor]]. cbn. rewrite decide_False; [done|]. by intros ->.
  - assert (∀ z, (0 <= z < 16)%Z → isHex (upperhex z) = true ∧ unhex (upperhex z) = z ∧
              path_safe (upperhex z) = true) as Hhex.
    { intros z Hz. assert (Forall (λ z, isHex (upperhex z) = true ∧ unhex (upperhex z) = z ∧
                                     path_safe (upperhex z) = true) (seqZ 0 16)) as Hall
        by (apply (bool_decide_unpack _); vm_compute; exact I).
      rewrite Forall_forall in Hall. apply Hall, elem_of_seqZ. lia. }
    pose proof (code_range c) as Hc.
    destruct (Hhex (code c / 16)%Z) as (Hh1 & Hu1 & Hs1).
    { split; [apply Z.div_pos; lia|apply Z.div_lt_upper_bound; lia]. }
    destruct (Hhex (code c mod 16)%Z) as (Hh2 & Hu2 & Hs2); [apply Z.mod_pos_bound; lia|].
    split; [|constructor; [by right|constructor; [by left|constructor; [by left|constructor]]]].
    change (_ ++ rest) with ("%"%char :: upperhex (code c / 16) :: upperhex (code c mod 16) :: rest).
    rewrite pathUnescape_percent, Hu1, Hu2 by (by rewrite Hh1, Hh2).
    replace (code c / 16 * 16 + code c mod 16)%Z with (code c) by (pose proof (Z.div_mod (code c) 16); lia).
    by rewrite byte_of_code.
Qed.

Lemma escape_roundtrip p :
  pathUnescape (concat (map escape_byte p)) = Some p ∧
  Forall (λ b, path_safe b = true ∨ b = "%"%char) (concat (map escape_byte p)).
Proof.
  induction p as [|c p [IH1 IH2]]; [done|]. cbn [map concat].
  destruct (escape_byte_spec c (concat (map escape_byte p))) as [Hu Hf].
  split; [by rewrite Hu, IH1|]. by apply Forall_app.
Qed.

Lemma pathUnescape_slash p : pathUnescape ("/"%char :: p) = cons "/"%char <$> pathUnescape p.
Proof. done. Qed.

(** Whatever the path, one slash starts the Location. *)
Lemma redirect_one_slash path query :
  ∃ rest, redirect_location path query = "/"%char :: rest ∧
          ∀ c, head rest = Some c → is_slash c = false.
Proof.
  unfold redirect_location. set (p := trim_left is_slash (EscapedPath path)).
  assert (∀ c, head p = Some c → is_slash c = false) as Hp by (intros c; apply trim_left_head).
  clearbody p. destruct p as [|c p]; case_bool_decide as Hq;
    (eexists; split; [reflexivity|]); intros d; cbn; [done|intros [= <-]; done| |]; intros [= <-]; by apply Hp.
Qed.

(** A normalised path is encoded, and a slash follows. *)
Lemma redirect_encodes c p (Hc : c ≠ "/"%char) :
  let path := "/"%char :: c :: p in
  ∃ e, redirect_location path [] = e ++ bs "/" ∧ pathUnescape e = Some path ∧
       Forall (λ b, path_safe b = true ∨ b = "%"%char) e.
Proof.
  intros path. exists ("/"%char :: concat (map escape_byte (c :: p))).
  destruct (escape_roundtrip (c :: p)) as [Hu Hf].
  assert (trim_left is_slash (EscapedPath path) = concat (map escape_byte (c :: p))) as Ht.
  { unfold EscapedPath. rewrite bool_decide_eq_false_2 by done.
    change (concat (map escape_byte path)) with ("/"%char :: concat (map escape_byte (c :: p))).
    cbn [trim_left]. change (is_slash "/") with true. cbv iota. apply trim_left_id. cbn [map concat].
    unfold escape_byte at 1. intros d. destruct (path_safe c) eqn:Es; cbn; intros [= <-]; [|done].
    unfold is_slash. rewrite bool_decide_eq_false_2 by done. cbn.
    apply bool_decide_eq_false_2. by intros ->. }
  unfold redirect_location. rewrite Ht. rewrite (bool_decide_eq_true_2 ([] = [])) by done.
  split_and!.
  - rewrite bool_decide_eq_false_2; [done|]. cbn [map concat]. unfold escape_byte at 1.
    by destruct (path_safe c).
  - rewrite pathUnescape_slash, Hu. done.
  - constructor; [by left|done].
Qed.

(** ** Properties *)

(** C40. The redirect of a directory stays on the site and names the directory. Whatever
    the path and the query, the Location is a single slash followed by something that
    is neither a slash nor a backslash, so a browser never takes it for another host.
    For a normalised path it is the percent-encoding of the path and a slash, which
    decodes back to the path and carries no byte a header line could not, and then the
    query as it came. *)
Theorem redirect_stays path query :
  (∃ rest, redirect_location path query = "/"%char :: rest ∧
           ∀ c, head rest = Some c → is_slash c = false) ∧
  (∀ c p, path = "/"%char :: c :: p → c ≠ "/"%char →
   ∃ e, redirect_location path query = e ++ bs "/" ++ (if decide (query = []) then [] else bs "?" ++ query) ∧
     pathUnescape e = Some path ∧ Forall (λ b, path_safe b = true ∨ b = "%"%char) e).
Proof.
  split; [apply redirect_one_slash|]. intros c p -> Hc. destruct (redirect_encodes c p Hc) as (e & He & Hu & Hs).
  exists e. split; [|done]. unfold redirect_location in He |- *.
  rewrite (bool_decide_eq_true_2 ([] = [])) in He by done. destruct (decide (query = [])) as [->|Hq].
  - rewrite (bool_decide_eq_true_2 ([] = [])) by done. by rewrite app_nil_r.
  - rewrite (bool_decide_eq_false_2 (query = [])) by done. rewrite He. by rewrite <-app_assoc.
Qed.

(** [hasDotDotSegment] says whether one of the path's segments is "..". *)
Theorem hasDotDotSegment_iff p : hasDotDotSegment p = true ↔ bs ".." ∈ split_on "/" p.
Proof. by apply hasDotDot_loop. Qed.

(** Headers set before the file handler survive every response it resets: on a
    response that is not a 2xx they are put back and the status is the file
    handler's; a 2xx is left as the file handler wrote it. *)
Theorem serve_keeps_headers `{F : Fasthttp} {FS : FasthttpFS} {L : FasthttpLaws F}
    {LS : FasthttpFSLaws} file r
    (Hh : hasHeaders r = true) (Hc : StatusCode (file r) ≠ 0%Z) :
  let r' := serve_file file r in
  StatusCode r' = StatusCode (file r) ∧
  ((200 <= StatusCode (file r) < 300)%Z → r' = file r) ∧
  (¬ (200 <= StatusCode (file r) < 300)%Z → headers_of r' = headers_of r).
Proof.
  unfold serve_file. rewrite Hh. case_match eqn:Ecode.
  - split; [by rewrite status_set|]. split.
    + intros ?. apply orb_true_iff in Ecode as []; to_prop; lia.
    + intros _. by rewrite headers_status, headers_copy.
  - apply orb_false_iff in Ecode as [? ?]. to_prop. split_and!; [done|done|lia].
Qed.

Lemma serve_keeps_headers_witness :
  let file := SetStatusCode 304 in
  let r := SetHeader (bs "Vary") (bs "Accept") (new_request (bs "GET") (bs "/a")) in
  headers_of (serve_file file r) = [(bs "Vary", bs "Accept")].
Proof.
  intros file r. destruct (serve_keeps_headers file r) as (_ & _ & Hk); [reflexivity|done|].
  rewrite Hk; [reflexivity|]. vm_compute. intros [_ [=]].
Defined.
