(* ===== verification/StaticLife.v ===== *)
(** * The file handlers of Static

    [src/static.go] and the end of [build.go]: what [build] configures fasthttp's
    file handler with, above all the rewriting of the request's path, and when the
    handlers' cache goroutines start and stop. *)

From S2P Require Import Prelude Bytes Pattern Slice Params Tree TreeSpec TreeLookup Router.

(** ** The path a file handler sees *)

(** A slice expression out of range. *)
Inductive slice_panic : Type := SliceBounds (from len : nat).

(** [PathRewrite]: [fctx.Path()[n:]] with [n] the prefix's length. *)
Definition PathRewrite (prefix path : bytes) : outcome slice_panic bytes :=
  let n := length prefix in
  if decide (n <= length path) then Ret (drop n path) else Panic (SliceBounds n (length path)).

(** The pattern [static] registers for the files below a prefix. *)
Definition files_pattern (prefix : bytes) : bytes := prefix ++ bs "/*filepath".

(** ** Where the wildcard of a pattern is *)

Lemma name_no_star n : name_ok n = true → "*"%char ∉ n.
Proof.
  unfold name_ok, isValidParamName. intros Hn Hin. to_prop. rewrite forallb_forall in *.
  match goal with H : ∀ x, In x n → _ |- _ => specialize (H _ (proj1 (list_elem_of_In _ _) Hin)); discriminate H end.
Qed.

Lemma static_no_star t : static_ok t = true → "*"%char ∉ t.
Proof.
  unfold static_ok. intros Ht. by to_prop.
Qed.

(** A star that is not in a first part is in the rest. *)
Lemma star_later (a b l n : bytes) : a ++ b = l ++ "*"%char :: n → "*"%char ∉ a →
  ∃ p, l = a ++ p ∧ b = p ++ "*"%char :: n.
Proof.
  revert l. induction a as [|c a IH]; intros l Heq Hn; [by exists l|].
  destruct l as [|d l]; cbn in Heq; injection Heq as -> Heq; [destruct Hn; by left|].
  destruct (IH l Heq) as (p & -> & ->); [intros ?; apply Hn; by right|]. by exists p.
Qed.

Lemma star_unique (a b n m : bytes) : a ++ "*"%char :: n = b ++ "*"%char :: m →
  "*"%char ∉ n → "*"%char ∉ m → a = b ∧ n = m.
Proof.
  intros Heq Hn Hm. destruct (app_cons_cases _ _ _ _ _ _ Heq) as [(-> & _ & ->)|[[w ->]|[w ->]]]; [done|..];
    rewrite <-app_assoc in Heq; apply app_inv_head in Heq; injection Heq as Heq; subst; set_solver.
Qed.

(** A pattern that ends in a star and a name ends in that wildcard. *)
Lemma ends_in_wildcard segs : ∀ used p n, wf_segs segs used = true →
  render segs = p ++ "*"%char :: n → "*"%char ∉ n →
  ∃ init t, segs = init ++ [Segment segStatic t; Segment segWildcard n] ∧ p = render init ++ t.
Proof.
  induction segs as [segs IH] using (induction_ltof1 _ length). intros used p n Hwf Hr Hn.
  destruct (wf_segs_cases _ _ Hwf) as [->|[[t ->]|[(t & m & ->)|(t & m & rest & -> & Hrest)]]].
  - by destruct p.
  - cbn in Hwf, Hr. unfold render in Hr. cbn in Hr. rewrite app_nil_r in Hr.
    destruct (static_no_star t Hwf). rewrite Hr. set_solver.
  - cbn in Hwf. apply andb_true_iff in Hwf as [Hwf _]. apply andb_true_iff in Hwf as [Ht Hm].
    unfold render in Hr. cbn in Hr. rewrite app_nil_r in Hr.
    destruct (star_unique _ _ _ _ Hr (name_no_star m Hm) Hn) as [-> ->]. by exists [], p.
  - assert (static_ok t = true ∧ name_ok m = true) as [Ht Hm].
    { cbn in Hwf. destruct rest; to_prop; done. }
    assert (render (Segment segStatic t :: Segment segParam m :: rest) = (t ++ ":"%char :: m) ++ render rest) as Hr'.
    { unfold render. cbn. by rewrite <-app_assoc. }
    rewrite Hr' in Hr. apply star_later in Hr as (q & -> & Hq).
    2: { rewrite not_elem_of_app, not_elem_of_cons.
         split; [by apply static_no_star|split; [done|by apply name_no_star]]. }
    destruct (IH rest ltac:(unfold ltof; cbn; lia) _ q n Hrest Hq Hn) as (init & t' & -> & ->).
    exists (Segment segStatic t :: Segment segParam m :: init), t'. split; [done|].
    unfold render. cbn. rewrite <-!app_assoc. cbn [app]. by rewrite <-app_assoc.
Qed.

(** ** Lengths *)

(** Values two bytes longer than the names they are for. *)
Definition long_values (segs : list segment) : list bytes :=
  map (λ n, replicate (length n + 2) "a"%char) (seg_names segs).

Lemma seg_names_cons s segs :
  seg_names (s :: segs) =
  match seg_kind s with segStatic => seg_names segs | _ => seg_text s :: seg_names segs end.
Proof. unfold seg_names. rewrite filter_cons. by case_decide; destruct (seg_kind s). Qed.

Lemma seg_names_app l l' : seg_names (l ++ l') = seg_names l ++ seg_names l'.
Proof. unfold seg_names. by rewrite filter_app, map_app. Qed.

Lemma expand_long segs : ∀ used, wf_segs segs used = true →
  ∃ path, expand segs (long_values segs) = Some path ∧
    length path = length (render segs) + length (seg_names segs).
Proof.
  induction segs as [segs IH] using (induction_ltof1 _ length). intros used Hwf.
  assert (∀ k, forallb not_slash (replicate k "a"%char) = true) as Hns by (intros k; by induction k).
  assert (∀ n : bytes, replicate (length n + 2) "a"%char ≠ []) as Hne by (intros n; rewrite Nat.add_comm; done).
  destruct (wf_segs_cases _ _ Hwf) as [->|[[t ->]|[(t & m & ->)|(t & m & rest & -> & Hrest)]]].
  - by exists [].
  - exists (t ++ []). split; [done|]. rewrite seg_names_cons. unfold render. cbn. lia.
  - exists (t ++ replicate (length m + 2) "a"%char). split.
    + unfold long_values. rewrite !seg_names_cons. cbn -[replicate]. by rewrite decide_True by apply Hne.
    + rewrite !seg_names_cons. unfold render. cbn. rewrite app_nil_r, !length_app, length_replicate. cbn. lia.
  - destruct (IH rest ltac:(unfold ltof; cbn; lia) _ Hrest) as (path & He & Hl).
    exists (t ++ replicate (length m + 2) "a"%char ++ path). split.
    + unfold long_values in *. rewrite !seg_names_cons. cbn -[replicate].
      rewrite decide_True by (split; [apply Hne|apply Hns]). by rewrite He.
    + rewrite !seg_names_cons. cbn. unfold render in *. cbn. rewrite !length_app, length_replicate. cbn.
      rewrite !length_app. lia.
Qed.

(** ** Cache goroutines

    A built entry has a goroutine that ends when its [stop] channel is closed:
    [None] is a nil channel, [Some closed] one that [build] made. *)

Record statics_state : Type := mkStatics {
  stops : list (option bool);
  staticStopped : bool;
  st_built : bool;          (* buildOnce has run *)
  st_shut : bool;           (* shutdownOnce has run *)
}.

Definition no_statics : statics_state := mkStatics [] false false false.

Inductive static_life_panic : Type := StaticAfterBuild | CloseOfClosed.

Definition L (A : Type) : Type := go statics_state static_life_panic A.

(** [static]'s last line; its registrations panic after Build. *)
Definition add_static : L unit := λ s,
  if st_built s then (Panic StaticAfterBuild, s)
  else (Ret tt, mkStatics (stops s ++ [None]) (staticStopped s) (st_built s) (st_shut s)).

(** The entries' part of [App.build], inside [buildOnce]. *)
Definition build_statics : L unit := λ s,
  if st_built s then (Ret tt, s)
  else (Ret tt, mkStatics (if staticStopped s then stops s else map (λ _ : option bool, Some false) (stops s))
                  (staticStopped s) true (st_shut s)).

(** [stopStatic]: closing a closed channel panics, and leaves the later ones. *)
Fixpoint close_all (l : list (option bool)) : outcome static_life_panic unit * list (option bool) :=
  match l with
  | [] => (Ret tt, [])
  | None :: l' => let '(r, l'') := close_all l' in (r, None :: l'')
  | Some false :: l' => let '(r, l'') := close_all l' in (r, Some true :: l'')
  | Some true :: _ => (Panic CloseOfClosed, l)
  end.

Definition stopStatic : L unit := λ s,
  let '(r, l) := close_all (stops s) in (r, mkStatics l true (st_built s) (st_shut s)).

(** [runShutdown]'s call of it, inside [shutdownOnce]. *)
Definition shutdown_statics : L unit := λ s,
  if st_shut s then (Ret tt, s)
  else stopStatic (mkStatics (stops s) (staticStopped s) (st_built s) true).

Inductive static_event : Type := EvStatic | EvBuild | EvShutdown.

Definition static_step (e : static_event) : L unit :=
  match e with EvStatic => add_static | EvBuild => build_statics | EvShutdown => shutdown_statics end.

(** The goroutines running. *)
Definition running_caches (s : statics_state) : nat := length (filter (λ c : option bool, c = Some false) (stops s)).

(** What holds between the events. *)
Record statics_ok (s : statics_state) : Prop := {
  so_stopped : staticStopped s = st_shut s;
  so_shut : st_shut s = true → Forall (λ c : option bool, c ≠ Some false) (stops s);
  so_open : st_shut s = false → Forall (λ c : option bool, c = (if st_built s then Some false else None)) (stops s);
}.

Lemma close_all_open (b : bool) l : Forall (λ c : option bool, c = (if b then Some false else None)) l →
  close_all l = (Ret tt, map (λ _ : option bool, if b then Some true else None) l).
Proof. destruct b; induction 1 as [|c l -> _ IH]; [done| |done|]; cbn; by rewrite IH. Qed.

Lemma stopStatic_panic s p s' : stopStatic s = (Panic p, s') → p = CloseOfClosed.
Proof.
  unfold stopStatic. destruct (close_all (stops s)) as [r l] eqn:E. intros [= -> _].
  revert l E. induction (stops s) as [|[[]|] cs IH]; cbn; intros l; [done|by intros [= <- _]|..];
    (destruct (close_all cs) as [r' l']; intros [= -> _]; by eapply IH).
Qed.

Lemma static_step_ok e s : statics_ok s →
  statics_ok (static_step e s).2 ∧ (static_step e s).1 ≠ Panic CloseOfClosed.
Proof.
  intros Hok. pose proof Hok as [Hst Hsh Hop]. destruct e; cbn.
  - unfold add_static. destruct (st_built s) eqn:Eb; [done|].
    split; [|done]. split; cbn; [done|..]; intros Hs; rewrite ?Eb in *; apply Forall_app;
      (split; [by auto|by repeat constructor]).
  - unfold build_statics. destruct (st_built s) eqn:Eb; [done|].
    split; [|done]. rewrite Hst. destruct (st_shut s) eqn:Es; split; cbn; try done; intros _.
    by apply Forall_map, Forall_true.
  - unfold shutdown_statics. destruct (st_shut s) eqn:Es; [done|].
    unfold stopStatic. cbn. rewrite (close_all_open (st_built s)) by auto. split; [|done].
    split; cbn; [done| |done]. intros _. apply Forall_map, Forall_true. by destruct (st_built s).
Qed.

Lemma static_flags e s :
  st_shut (static_step e s).2 = (st_shut s || match e with EvShutdown => true | _ => false end) ∧
  st_built (static_step e s).2 = (st_built s || match e with EvBuild => true | _ => false end).
Proof.
  destruct e; cbn; unfold add_static, build_statics, shutdown_statics, stopStatic;
    repeat case_match; cbn; rewrite ?orb_true_r, ?orb_false_r; by split.
Qed.

Lemma running_none (l : list (option bool)) : Forall (λ c : option bool, c ≠ Some false) l →
  length (filter (λ c : option bool, c = Some false) l) = 0.
Proof. induction 1 as [|c l Hc _ IH]; [done|]. by rewrite filter_cons, decide_False. Qed.

Lemma running_all (l : list (option bool)) : Forall (λ c : option bool, c = Some false) l →
  length (filter (λ c : option bool, c = Some false) l) = length l.
Proof. induction 1 as [|c l Hc _ IH]; [done|]. rewrite filter_cons, decide_True by done. cbn. by rewrite IH. Qed.

#[export] Instance static_event_eq_dec : EqDecision static_event.
Proof. solve_decision. Defined.

Lemma bool_decide_elem_of_cons {A} `{EqDecision A} (x y : A) l :
  bool_decide (x ∈ y :: l) = (bool_decide (x = y) || bool_decide (x ∈ l)).
Proof.
  rewrite <-bool_decide_or. apply bool_decide_ext. by rewrite elem_of_cons.
Qed.

Lemma statics_run evs : ∀ s, statics_ok s →
  let s' := foldl (λ s e, (static_step e s).2) s evs in
  statics_ok s' ∧ st_shut s' = (st_shut s || bool_decide (EvShutdown ∈ evs)) ∧
  st_built s' = (st_built s || bool_decide (EvBuild ∈ evs)).
Proof.
  induction evs as [|e evs IH]; intros s Hs; cbn [foldl].
  { rewrite !bool_decide_eq_false_2 by apply not_elem_of_nil. by rewrite !orb_false_r. }
  destruct (static_step_ok e s Hs) as [Hok _]. destruct (IH _ Hok) as (Hr & Hsh & Hb).
  destruct (static_flags e s) as [Hf1 Hf2]. split; [done|]. rewrite Hsh, Hb, Hf1, Hf2, <-!orb_assoc, !bool_decide_elem_of_cons.
  by destruct e.
Qed.

(** ** Properties *)

(** Whatever the order of Static calls, Builds and Shutdowns, no channel is closed
    twice; before the first Shutdown the entries of a built App have a cache
    goroutine each and others none, and from the first Shutdown on none runs, however
    often Build is called. *)
Theorem static_goroutines evs :
  let s := foldl (λ s e, (static_step e s).2) no_statics evs in
  (∀ e, (static_step e s).1 ≠ Panic CloseOfClosed) ∧
  running_caches s = (if st_built s && negb (st_shut s) then length (stops s) else 0) ∧
  st_shut s = bool_decide (EvShutdown ∈ evs) ∧ st_built s = bool_decide (EvBuild ∈ evs).
Proof.
  intros s. destruct (statics_run evs no_statics) as (Hok & Hsh & Hb);
    [split; cbn; try done; by constructor|]. fold s in Hok, Hsh, Hb. split; [intros e; by apply static_step_ok|].
  split; [|done]. unfold running_caches. destruct Hok as [_ H1 H2]. destruct (st_shut s) eqn:Es.
  - rewrite andb_false_r. by apply running_none, H1.
  - specialize (H2 eq_refl). destruct (st_built s); cbn [andb negb].
    + by apply running_all.
    + apply running_none. eapply Forall_impl; [exact H2|]. by intros ? ->.
Qed.

(** C39. A file handler gets the path below the prefix, a slash and what the
    wildcard captured, on every path its pattern matches, exactly when the prefix has
    no parameter: for any other prefix the cut is made at the pattern's length, and on
    some path the handler is asked for another file. *)
Theorem PathRewrite_right_iff prefix segs (Hp : parsePattern (files_pattern prefix) = Ok segs) :
  (∀ path caps v, tmatch (toks segs) path = Some caps → last caps = Some (bs "filepath", v) →
     PathRewrite prefix path = Ret ("/"%char :: v)) ↔ seg_names segs = [bs "filepath"].
Proof.
  apply parsePattern_sound in Hp as (Hr & _ & Hwf & _). unfold files_pattern in Hr.
  assert (render segs = (prefix ++ bs "/") ++ "*"%char :: bs "filepath") as Hr'
    by (rewrite Hr, <-app_assoc; done).
  destruct (ends_in_wildcard segs [] _ (bs "filepath") Hwf Hr') as (init & t & Hs & Ht);
    [apply (bool_decide_unpack _); vm_compute; exact I|].
  assert (length (render segs) = length prefix + 10) as Hlen by (rewrite Hr, length_app; done).
  assert (seg_names segs = seg_names init ++ [bs "filepath"]) as Hn by (by rewrite Hs, seg_names_app).
  split.
  - intros Hall. destruct (expand_long segs [] Hwf) as (path & He & Hl).
    pose proof (match_expand segs [] _ path Hwf He) as Hm.
    specialize (Hall path _ (replicate 10 "a"%char) Hm).
    rewrite Hn in Hm, Hall. unfold long_values in Hall. rewrite Hn in Hall.
    rewrite map_app in Hall. cbn [map] in Hall.
    rewrite zip_with_app in Hall by (by rewrite length_map). cbn [zip_with] in Hall.
    rewrite last_snoc in Hall. specialize (Hall eq_refl).
    unfold PathRewrite in Hall. case_decide; [|done].
    injection Hall as Hd. apply (f_equal length) in Hd. rewrite length_drop, Hl, Hlen, Hn, length_app in Hd.
    cbn in Hd. rewrite Hn. destruct (seg_names init); [done|cbn in Hd; lia].
  - intros Hone path caps v Hm Hlast. rewrite Hn in Hone.
    assert (seg_names init = []) as Hi by (destruct (seg_names init) as [|? [|]]; done).
    destruct (wf_segs_cases _ _ Hwf) as [H|[[t' H]|[(t' & m & H)|(t' & m & rest & H & _)]]];
      rewrite H in Hs; try (by destruct init as [|? [|? []]]).
    + assert (init = [] ∧ t' = t ∧ m = bs "filepath") as (-> & -> & ->).
      { destruct init as [|? [|? [|? []]]]; cbn in Hs; try done. by injection Hs as -> ->. }
      cbn in Ht. rewrite H in Hwf, Hm. pose proof (expand_match _ _ _ _ Hwf Hm) as [Hcn He].
      destruct caps as [|[x w] [|]]; try done. cbn in Hlast. injection Hlast as -> ->.
      cbn in He. case_decide; [|done]. injection He as <-. subst t. unfold PathRewrite.
      rewrite <-app_assoc, decide_True by (rewrite length_app; lia). by rewrite drop_app_length.
    + exfalso. rewrite H in Hn. rewrite !seg_names_cons in Hn. cbn in Hn. rewrite Hi in Hn.
      injection Hn as _ Hn. destruct init as [|? [|s0 init]]; cbn in Hs; simplify_eq/=.
Qed.

(** Witnesses: a plain prefix, and a tenant's files. *)
Lemma PathRewrite_right_iff_witness :
  PathRewrite (bs "/assets") (bs "/assets/css/a.css") = Ret (bs "/css/a.css") ∧
  ¬ (∀ path caps v, tmatch (toks [Segment segStatic (bs "/t/"); Segment segParam (bs "id");
       Segment segStatic (bs "/f/"); Segment segWildcard (bs "filepath")]) path = Some caps →
     last caps = Some (bs "filepath", v) → PathRewrite (bs "/t/:id/f") path = Ret ("/"%char :: v)).
Proof.
  split.
  - apply (proj2 (PathRewrite_right_iff (bs "/assets")
             [Segment segStatic (bs "/assets/"); Segment segWildcard (bs "filepath")] eq_refl) eq_refl
             _ [(bs "filepath", bs "css/a.css")]); reflexivity.
  - intros Hall. pose proof (proj1 (PathRewrite_right_iff (bs "/t/:id/f") _ eq_refl) Hall) as Hn.
    discriminate Hn.
Defined.
