(* ===== verification/Hooks.v ===== *)
(** * Lifecycle hooks

    [src/lifecycle.go]: registering OnStart and OnShutdown hooks, running each kind,
    and the two channels [runShutdown] closes, with hooks that return errors, panic
    and act on a world of the application's own. [Lifecycle.v] has the calls that
    overlap; here one runs from its start to its end. *)

From S2P Require Import Prelude Bytes StaticLife.

Section hooks.
(** What hooks act on, their errors, what they panic with, and a [context.Context]. *)
Context {W E P C : Type}.

Abbreviation start_hook := (W → outcome P (option E) * W).
Abbreviation shutdown_hook := (C → W → outcome P (option E) * W).

(** The fields of App that live here. [hooksStarted] and [shutdownDone] say whether
    the channel is closed; the flags of [buildOnce] and [shutdownOnce] are those of
    [statics]. *)
Record lifecycle : Type := mkLife {
  onStart : list start_hook;
  onShutdown : list shutdown_hook;
  statics : statics_state;
  hooksStarted : bool;
  shutdownDone : bool;
  world : W;
}.

Definition new_life (w : W) : lifecycle := mkLife [] [] no_statics false false w.

Inductive life_panic : Type :=
| PanicText (text : bytes)
| StaticPanic (p : static_life_panic)
| CloseOfClosedChannel
| HookPanic (p : P).

Definition Lf (A : Type) : Type := go lifecycle life_panic A.

Definition set_statics (st : statics_state) (s : lifecycle) : lifecycle :=
  mkLife (onStart s) (onShutdown s) st (hooksStarted s) (shutdownDone s) (world s).
Definition set_world (w : W) (s : lifecycle) : lifecycle :=
  mkLife (onStart s) (onShutdown s) (statics s) (hooksStarted s) (shutdownDone s) w.

(** A call of [StaticLife]'s, and a call of a hook. *)
Definition on_statics (m : L unit) : Lf unit := λ s,
  let '(o, st) := m (statics s) in
  (match o with Ret u => Ret u | Panic p => Panic (StaticPanic p) end, set_statics st s).

Definition wrap_panic {A} (o : outcome P A) : outcome life_panic A :=
  match o with Ret a => Ret a | Panic p => Panic (HookPanic p) end.

Definition call (h : start_hook) : Lf (option E) := λ s,
  let '(o, w) := h (world s) in (wrap_panic o, set_world w s).

(** ** Registration *)

Definition OnStart (fn : option start_hook) : Lf unit := λ s,
  match fn with
  | None => (Panic (PanicText (bs "rice: OnStart: hook is nil")), s)
  | Some fn =>
    if st_built (statics s)
    then (Panic (PanicText (bs "rice: cannot call OnStart after Build; hooks must be registered before serving begins")), s)
    else (Ret tt, mkLife (onStart s ++ [fn]) (onShutdown s) (statics s) (hooksStarted s) (shutdownDone s) (world s))
  end.

Definition OnShutdown (fn : option shutdown_hook) : Lf unit := λ s,
  match fn with
  | None => (Panic (PanicText (bs "rice: OnShutdown: hook is nil")), s)
  | Some fn =>
    if st_built (statics s)
    then (Panic (PanicText (bs "rice: cannot call OnShutdown after Build; hooks must be registered before serving begins")), s)
    else (Ret tt, mkLife (onStart s) (onShutdown s ++ [fn]) (statics s) (hooksStarted s) (shutdownDone s) (world s))
  end.

(** ** Running them *)

Fixpoint runStart_loop (hs : list start_hook) : Lf (option E) :=
  match hs with
  | [] => mret None
  | fn :: hs' =>
    err ← call fn;
    match err with
    | Some e => mret (Some e)
    | None => runStart_loop hs'
    end
  end.

Definition runStart : Lf (option E) := λ s, runStart_loop (onStart s) s.

(** The loop of [runShutdown], from index [i - 1] down to 0. *)
Fixpoint runShutdown_loop (ctx : C) (i : nat) (errs : list E) : Lf (list E) :=
  match i with
  | 0 => mret errs
  | S i' => λ s,
    match onShutdown s !! i' with
    | Some fn =>
      (err ← call (fn ctx);
       runShutdown_loop ctx i' (match err with Some e => errs ++ [e] | None => errs end)) s
    | None => (Ret errs, s)
    end
  end.

Definition all_hooks (ctx : C) : Lf (list E) := λ s, runShutdown_loop ctx (length (onShutdown s)) [] s.

Definition close_hooksStarted : Lf unit := λ s,
  if hooksStarted s then (Panic CloseOfClosedChannel, s)
  else (Ret tt, mkLife (onStart s) (onShutdown s) (statics s) true (shutdownDone s) (world s)).

Definition close_shutdownDone : Lf unit := λ s,
  if shutdownDone s then (Panic CloseOfClosedChannel, s)
  else (Ret tt, mkLife (onStart s) (onShutdown s) (statics s) (hooksStarted s) true (world s)).

(** [shutdownOnce] is spent even by a body that panics. *)
Definition enter_once (st : statics_state) : statics_state :=
  mkStatics (stops st) (staticStopped st) (st_built st) true.

Definition runShutdown (ctx : C) : Lf (list E) := λ s,
  if st_shut (statics s) then (Ret [], s)
  else
    go_defer
      (on_statics stopStatic;;
       close_hooksStarted;;
       all_hooks ctx)
      close_shutdownDone (set_statics (enter_once (statics s)) s).

(** ** A life *)

Inductive life_event : Type :=
| LOnStart (fn : option start_hook)
| LOnShutdown (fn : option shutdown_hook)
| LStatic
| LBuild
| LRunStart
| LRunShutdown (ctx : C).

Definition life_step (e : life_event) (s : lifecycle) : lifecycle :=
  match e with
  | LOnStart fn => (OnStart fn s).2
  | LOnShutdown fn => (OnShutdown fn s).2
  | LStatic => (on_statics add_static s).2
  | LBuild => (on_statics build_statics s).2
  | LRunStart => (runStart s).2
  | LRunShutdown ctx => (runShutdown ctx s).2
  end.

Definition life (evs : list life_event) (s : lifecycle) : lifecycle := foldl (λ s e, life_step e s) s evs.

(** ** What it comes to *)

(** Hooks run one after another until one panics, and the errors they returned. *)
Fixpoint run_each (hs : list start_hook) (w : W) : outcome P (list E) * W :=
  match hs with
  | [] => (Ret [], w)
  | h :: hs' =>
    match h w with
    | (Panic p, w1) => (Panic p, w1)
    | (Ret e, w1) =>
      match run_each hs' w1 with
      | (Panic p, w2) => (Panic p, w2)
      | (Ret es, w2) => (Ret (option_list e ++ es), w2)
      end
    end
  end.

(** The OnShutdown hooks registered before the first Build, in order. *)
Fixpoint accepted (evs : list life_event) : list shutdown_hook :=
  match evs with
  | [] | LBuild :: _ => []
  | LOnShutdown (Some fn) :: evs' => fn :: accepted evs'
  | _ :: evs' => accepted evs'
  end.

Definition is_shutdown (e : life_event) : bool := match e with LRunShutdown _ => true | _ => false end.

(** ** Lemmas *)

Lemma Lf_step {A B} (m : Lf A) (f : A → Lf B) s a s' :
  m s = (Ret a, s') → (m ≫= f) s = f a s'.
Proof. apply go_bind_ret. Qed.

Lemma runShutdown_loop_run ctx i : ∀ errs s, i <= length (onShutdown s) →
  runShutdown_loop ctx i errs s =
  match run_each (map (λ h : shutdown_hook, h ctx) (rev (take i (onShutdown s)))) (world s) with
  | (Ret es, w) => (Ret (errs ++ es), set_world w s)
  | (Panic p, w) => (Panic (HookPanic p), set_world w s)
  end.
Proof.
  induction i as [|i IH]; intros errs s Hi; cbn [runShutdown_loop].
  - rewrite take_0. cbn [rev map run_each]. rewrite app_nil_r. by destruct s.
  - cbv beta. destruct (onShutdown s !! i) as [h|] eqn:Hh; [|apply lookup_ge_None in Hh; lia].
    rewrite (take_S_r _ _ _ Hh), rev_unit. cbn. unfold call, mbind, go_bind.
    destruct (h ctx (world s)) as [[e|p] w]; cbn [wrap_panic]; [|done].
    rewrite IH by (cbn; lia). cbn.
    destruct (run_each _ w) as [[es|p] w2]; [|done]. destruct e; by rewrite <-?app_assoc.
Qed.

Lemma all_hooks_run ctx s :
  all_hooks ctx s =
  match run_each (map (λ h : shutdown_hook, h ctx) (rev (onShutdown s))) (world s) with
  | (Ret es, w) => (Ret es, set_world w s)
  | (Panic p, w) => (Panic (HookPanic p), set_world w s)
  end.
Proof. unfold all_hooks. rewrite runShutdown_loop_run by done. by rewrite firstn_all. Qed.

(** What holds between the events of a life. *)
Record life_ok (s : lifecycle) : Prop := {
  lo_statics : statics_ok (statics s);
  lo_started : hooksStarted s = st_shut (statics s);
  lo_done : shutdownDone s = st_shut (statics s);
}.

(** [stopStatic] on a life, once. *)
Lemma stopStatic_once s : life_ok s → st_shut (statics s) = false →
  ∃ st, statics_ok st ∧ st_shut st = true ∧ st_built st = st_built (statics s) ∧
    stopStatic (enter_once (statics s)) = (Ret tt, st).
Proof.
  intros [Hok _ _] Hs. destruct (static_step_ok EvShutdown _ Hok) as [Hok' Hp].
  destruct (static_flags EvShutdown (statics s)) as [H1 H2].
  revert Hok' Hp H1 H2. cbn. unfold shutdown_statics. rewrite Hs. fold (enter_once (statics s)).
  destruct (stopStatic (enter_once (statics s))) as [[[]|p] st] eqn:E0; cbn; intros Hok' Hp H1 H2.
  - exists st. rewrite orb_false_r in H2. done.
  - destruct Hp. f_equal. by apply (stopStatic_panic _ _ _ E0).
Qed.

(** The first [runShutdown], whatever the hooks do. *)
Lemma runShutdown_first ctx s : life_ok s → st_shut (statics s) = false →
  ∃ st, statics_ok st ∧ st_shut st = true ∧ st_built st = st_built (statics s) ∧
    let r := run_each (map (λ h : shutdown_hook, h ctx) (rev (onShutdown s))) (world s) in
    runShutdown ctx s = (wrap_panic r.1, mkLife (onStart s) (onShutdown s) st true true r.2).
Proof.
  intros Hok Hs. destruct (stopStatic_once s Hok Hs) as (st & Hst & Hsh & Hb & Hstop).
  exists st. split_and!; [done..|]. destruct Hok as [_ Hst1 Hdone]. rewrite Hs in Hst1, Hdone.
  unfold runShutdown. rewrite Hs. unfold go_defer.
  erewrite Lf_step by (unfold on_statics; cbn; by rewrite Hstop).
  erewrite Lf_step by (unfold close_hooksStarted; cbn; by rewrite Hst1).
  rewrite all_hooks_run. cbn.
  destruct (run_each _ (world s)) as [[es|p] w]; unfold close_shutdownDone; cbn; by rewrite Hdone.
Qed.

Lemma runStart_loop_frame hs : ∀ s, ∃ w, (runStart_loop hs s).2 = set_world w s.
Proof.
  induction hs as [|h hs IH]; intros s; [exists (world s); by destruct s|].
  cbn [runStart_loop]. unfold mbind, go_bind, call.
  destruct (h (world s)) as [[[e|]|p] w]; cbn; [by exists w| |by exists w].
  destruct (IH (set_world w s)) as [w' Hw]. exists w'. by rewrite Hw.
Qed.

Lemma life_step_ok e s : life_ok s → life_ok (life_step e s).
Proof.
  intros Hok. pose proof Hok as [Hst Hs Hd]. destruct e as [[fn|]|[fn|]| | | |ctx]; cbn; try done.
  - destruct (st_built (statics s)); [done|by split].
  - destruct (st_built (statics s)); [done|by split].
  - destruct (static_step_ok EvStatic _ Hst) as [Hst' _]. destruct (static_flags EvStatic (statics s)) as [Hf _].
    rewrite orb_false_r in Hf. revert Hst' Hf. unfold on_statics. cbn.
    destruct (add_static (statics s)) as [o st]. cbn. intros Hst' Hf. split; cbn; congruence.
  - destruct (static_step_ok EvBuild _ Hst) as [Hst' _]. destruct (static_flags EvBuild (statics s)) as [Hf _].
    rewrite orb_false_r in Hf. revert Hst' Hf. unfold on_statics. cbn.
    destruct (build_statics (statics s)) as [o st]. cbn. intros Hst' Hf. split; cbn; congruence.
  - unfold runStart. destruct (runStart_loop_frame (onStart s) s) as [w ->]. by split.
  - destruct (st_shut (statics s)) eqn:Es.
    + unfold runShutdown. by rewrite Es.
    + destruct (runShutdown_first ctx s Hok Es) as (st & Hst' & Hsh & _ & ->). by split; cbn.
Qed.

Definition is_build (e : life_event) : bool := match e with LBuild => true | _ => false end.

Definition new_hooks (s : lifecycle) (e : life_event) : list shutdown_hook :=
  match e with LOnShutdown (Some fn) => if st_built (statics s) then [] else [fn] | _ => [] end.

Lemma life_step_flags e s : life_ok s →
  st_shut (statics (life_step e s)) = (st_shut (statics s) || is_shutdown e) ∧
  st_built (statics (life_step e s)) = (st_built (statics s) || is_build e) ∧
  onShutdown (life_step e s) = onShutdown s ++ new_hooks s e.
Proof.
  intros Hok. destruct e as [[fn|]|[fn|]| | | |ctx]; cbn [is_shutdown is_build new_hooks];
    rewrite ?orb_false_r, ?orb_true_r, ?app_nil_r; cbn [life_step].
  - unfold OnStart. destruct (st_built (statics s)) eqn:Eb; cbn; by rewrite ?Eb.
  - done.
  - unfold OnShutdown. destruct (st_built (statics s)) eqn:Eb; cbn; by rewrite ?Eb, ?app_nil_r.
  - done.
  - destruct (static_flags EvStatic (statics s)) as [H1 H2]. rewrite orb_false_r in H1, H2.
    revert H1 H2. unfold on_statics. cbn. by destruct (add_static (statics s)).
  - destruct (static_flags EvBuild (statics s)) as [H1 H2]. rewrite orb_false_r in H1. rewrite orb_true_r in H2.
    revert H1 H2. unfold on_statics. cbn. by destruct (build_statics (statics s)).
  - unfold runStart. by destruct (runStart_loop_frame (onStart s) s) as [w ->].
  - destruct (st_shut (statics s)) eqn:Es.
    + unfold runShutdown. by rewrite Es.
    + by destruct (runShutdown_first ctx s Hok Es) as (st & _ & Hsh & Hb & ->).
Qed.

Lemma life_run evs : ∀ s, life_ok s →
  life_ok (life evs s) ∧
  st_shut (statics (life evs s)) = (st_shut (statics s) || existsb is_shutdown evs) ∧
  onShutdown (life evs s) = onShutdown s ++ (if st_built (statics s) then [] else accepted evs).
Proof.
  induction evs as [|e evs IH]; intros s Hok; cbn [life foldl existsb].
  { rewrite orb_false_r. split_and!; [done..|]. destruct (st_built (statics s)); by rewrite app_nil_r. }
  destruct (life_step_flags e s Hok) as (H1 & H2 & H3).
  destruct (IH _ (life_step_ok e s Hok)) as (Hl & Hs & Hh). unfold life in *.
  split_and!; [done|by rewrite Hs, H1, orb_assoc|].
  rewrite Hh, H3, H2, <-app_assoc. f_equal.
  destruct e as [|[fn|]| | | |]; cbn; destruct (st_built (statics s)); done.
Qed.

Lemma new_life_ok w : life_ok (new_life w).
Proof. split; [|done..]. split; cbn; [done|done|intros _; constructor]. Qed.

(** A shut down App runs no cache. *)
Lemma shut_no_caches st : statics_ok st → st_shut st = true → running_caches st = 0.
Proof. intros [_ H _] Hs. by apply running_none, H. Qed.

(** ** Properties *)

(** C29. Whatever is registered, built, started and shut down in whatever order, the
    first runShutdown runs the OnShutdown hooks registered before Build, in reverse
    order, up to one that panics, and returns their errors in the order they ran;
    the later ones run nothing. After either, also when a hook panicked, both
    channels are closed, each exactly once, and no cache goroutine runs. *)
Theorem runShutdown_once evs w ctx :
  let s := life evs (new_life w) in
  let '(o, s') := runShutdown ctx s in
  (if existsb is_shutdown evs then o = Ret [] ∧ s' = s
   else let r := run_each (map (λ h : shutdown_hook, h ctx) (rev (accepted evs))) (world s) in
        o = wrap_panic r.1 ∧ world s' = r.2) ∧
  hooksStarted s' = true ∧ shutdownDone s' = true ∧ running_caches (statics s') = 0.
Proof.
  intros s. destruct (life_run evs _ (new_life_ok w)) as (Hok & Hs & Hh). fold s in Hok, Hs, Hh. cbn in Hs, Hh.
  destruct (existsb is_shutdown evs) eqn:Ee.
  - unfold runShutdown. rewrite Hs. destruct Hok as [Hst H1 H2]. rewrite Hs in H1, H2.
    split_and!; [done..|]. by apply shut_no_caches.
  - destruct (runShutdown_first ctx s Hok Hs) as (st & Hst & Hsh & _ & ->). rewrite <-Hh.
    split_and!; [done..|]. by apply shut_no_caches.
Qed.

(** runStart stops at the first OnStart hook that fails or panics, with its error or
    panic, after the ones before it; it returns nil exactly when all have run. *)
Theorem runStart_stops s :
  let '(o, s') := runStart s in
  (o = Ret None ∧ run_each (onStart s) (world s) = (Ret [], world s')) ∨
  ∃ pre h post w, onStart s = pre ++ h :: post ∧ run_each pre (world s) = (Ret [], w) ∧
    ((∃ e, h w = (Ret (Some e), world s') ∧ o = Ret (Some e)) ∨
     (∃ p, h w = (Panic p, world s') ∧ o = Panic (HookPanic p))).
Proof.
  unfold runStart. set (hs := onStart s). clearbody hs. revert s.
  induction hs as [|h hs IH]; intros s; cbn [runStart_loop]; [by left|].
  unfold mbind, go_bind, call. destruct (h (world s)) as [[[e|]|p] w] eqn:Eh; cbn [wrap_panic].
  - right. exists [], h, hs, (world s). cbn. split_and!; [done..|]. left. by exists e.
  - specialize (IH (set_world w s)). cbn in IH.
    destruct (runStart_loop hs (set_world w s)) as [o s'].
    destruct IH as [[-> Hr]|(pre & h' & post & w' & -> & Hr & Hx)]; [left|right].
    + cbn. by rewrite Eh, Hr.
    + exists (h :: pre), h', post, w'. cbn. by rewrite Eh, Hr.
  - right. exists [], h, hs, (world s). cbn. split_and!; [done..|]. right. by exists p.
Qed.
End hooks.

(** Three hooks that write down their number, one of which fails and one panics. *)
Definition log_hook (n : nat) (o : outcome nat (option nat)) : nat → list nat → outcome nat (option nat) * list nat :=
  λ _ w, (o, w ++ [n]).

Example hooks_sample :
  let evs := [LOnShutdown (Some (log_hook 1 (Ret None))); LOnShutdown (Some (log_hook 2 (Panic 7)));
              LStatic; LOnShutdown (Some (log_hook 3 (Ret (Some 9)))); LBuild;
              LOnShutdown (Some (log_hook 4 (Ret None)))] in
  let '(o, s) := runShutdown 0 (life evs (new_life [])) in
  o = Panic (HookPanic 7) ∧ world s = [3; 2] ∧ shutdownDone s = true ∧
  runShutdown 0 s = (Ret [], s).
Proof. by vm_compute. Qed.
