(* ===== verification/Bufio.v ===== *)
(** * Buffered writers

    The part of Go's [bufio.Writer] that [src/stream.go] and [src/sse.go] write
    through: a buffer in front of a connection, and an error that sticks. The
    connection itself is fasthttp's and is a parameter. *)

From S2P Require Import Prelude Bytes.

(** The [io.Writer] under the buffer. [writes_strings] is whether it has a
    [WriteString] of its own, which then writes what [Write] would. *)
Class IOWriter : Type := {
  conn : Type;
  io_error : Type;
  io_write : bytes → conn → (nat * option io_error) * conn;
  writes_strings : bool;
}.

(** The contract of [io.Writer]: at most the bytes given, and an error when fewer. *)
Class IOWriterLaws `{W : IOWriter} : Prop := {
  io_write_le p c : (io_write p c).1.1 <= length p;
  io_write_short p c : (io_write p c).1.1 < length p → is_Some (io_write p c).1.2;
}.

(** A connection that takes a number of bytes and is then gone. *)
#[export] Instance closing_conn : IOWriter := {
  conn := nat;
  io_error := unit;
  io_write p room :=
    if decide (length p <= room) then ((length p, None), room - length p) else ((room, Some tt), 0);
  writes_strings := false;
}.

#[export] Instance closing_conn_laws : IOWriterLaws.
Proof. split; intros p c; cbn; case_decide; cbn; try lia; done. Qed.

Section bufio.
Context `{W : IOWriter}.

Inductive write_error : Type :=
| ErrShortWrite
| IOError (e : io_error).

(** [sent] is what the connection has taken so far; Go keeps no such field. *)
Record Writer : Type := mkWriter {
  size : nat;
  buf : bytes;
  werr : option write_error;
  wr : conn;
  sent : bytes;
}.

Definition NewWriter (size : nat) (c : conn) : Writer := mkWriter size [] None c [].

Definition Available (b : Writer) : nat := size b - length (buf b).

Definition set_buf (p : bytes) (b : Writer) : Writer := mkWriter (size b) p (werr b) (wr b) (sent b).

(** One call of the connection's [Write]. *)
Definition send (p : bytes) (b : Writer) : (nat * option io_error) * Writer :=
  let r := io_write p (wr b) in
  (r.1, mkWriter (size b) (buf b) (werr b) r.2 (sent b ++ take r.1.1 p)).

Definition bufio_Flush (b : Writer) : option write_error * Writer :=
  match werr b with
  | Some e => (Some e, b)
  | None =>
    if decide (buf b = []) then (None, b)
    else
      let r := send (buf b) b in
      let err := match r.1.2 with
                 | Some e => Some (IOError e)
                 | None => if decide (r.1.1 < length (buf b)) then Some ErrShortWrite else None
                 end in
      match err with
      | Some e => (Some e, mkWriter (size b) (drop r.1.1 (buf b)) (Some e) (wr r.2) (sent r.2))
      | None => (None, set_buf [] r.2)
      end
  end.

(** The loop of [Write] and [WriteString]. [direct] is whether a large write may
    go past an empty buffer. Each round empties a buffer or finishes, so as many
    rounds as bytes and two more are enough. *)
Fixpoint write_loop (fuel : nat) (direct : bool) (nn : nat) (p : bytes) (b : Writer)
    : nat * bytes * Writer :=
  match fuel, werr b with
  | S fuel', None =>
    if decide (Available b < length p) then
      if direct && bool_decide (buf b = []) then
        let r := send p b in
        let b' := mkWriter (size b) (buf b) (IOError <$> r.1.2) (wr r.2) (sent r.2) in
        write_loop fuel' direct (nn + r.1.1) (drop r.1.1 p) b'
      else
        let n := Available b in
        let b' := (bufio_Flush (set_buf (buf b ++ take n p) b)).2 in
        write_loop fuel' direct (nn + n) (drop n p) b'
    else (nn, p, b)
  | _, _ => (nn, p, b)
  end.

Definition write (direct : bool) (p : bytes) (b : Writer) : (nat * option write_error) * Writer :=
  let '(nn, p', b') := write_loop (S (S (length p))) direct 0 p b in
  match werr b' with
  | Some e => ((nn, Some e), b')
  | None => ((nn + length p', None), set_buf (buf b' ++ p') b')
  end.

Definition bufio_Write : bytes → Writer → (nat * option write_error) * Writer := write true.
Definition bufio_WriteString : bytes → Writer → (nat * option write_error) * Writer :=
  write writes_strings.

Definition bufio_WriteByte (c : ascii) (b : Writer) : option write_error * Writer :=
  match werr b with
  | Some e => (Some e, b)
  | None =>
    if decide (Available b <= 0) then
      match bufio_Flush b with
      | (Some e, b') => (Some e, b')
      | (None, b') => (None, set_buf (buf b' ++ [c]) b')
      end
    else (None, set_buf (buf b ++ [c]) b)
  end.

(** ** What a write does to the bytes

    [extends q b b']: going from [b] to [b'] the bytes [q] were handed over. Without
    an error they are all sent or buffered, in order; with one, what was sent is
    still a prefix of what should have been. *)
Definition out (b : Writer) : bytes := sent b ++ buf b.

Record extends (q : bytes) (b b' : Writer) : Prop := {
  ext_size : size b' = size b;
  ext_sticky : is_Some (werr b) → b' = b;
  ext_grows : sent b `prefix_of` sent b';
  ext_prefix : sent b' `prefix_of` out b ++ q;
  ext_all : werr b' = None → out b' = out b ++ q;
}.

Lemma extends_refl b : extends [] b b.
Proof. split; [done|done|done| |]; unfold out; rewrite ?app_nil_r; [by apply prefix_app_r|done]. Qed.

Lemma extends_trans q1 q2 b1 b2 b3 :
  extends q1 b1 b2 → extends q2 b2 b3 → extends (q1 ++ q2) b1 b3.
Proof.
  intros [Hz1 Hs1 Hg1 Hp1 Ha1] [Hz2 Hs2 Hg2 Hp2 Ha2].
  destruct (werr b2) as [e|] eqn:E2.
  - assert (b3 = b2) as -> by (apply Hs2; eauto).
    split; [done|done|done| |congruence]. rewrite app_assoc. by apply prefix_app_r.
  - rewrite Ha1 in Hp2, Ha2 by done.
    split; [congruence| |by etrans|by rewrite app_assoc|rewrite app_assoc; by apply Ha2].
    intros He. assert (b2 = b1) as -> by auto. rewrite E2 in He. by destruct He.
Qed.
End bufio.

(** A small buffer in front of a connection, for concrete runs. *)
Definition sample_writer : Writer (W := closing_conn) := NewWriter (W := closing_conn) 8 100.

#[global] Arguments send : simpl never.

Section laws.
Context `{W : IOWriter} {L : IOWriterLaws}.

Lemma send_extends p b :
  let r := send p b in
  r.1.1 <= length p ∧ (r.1.2 = None → r.1.1 = length p) ∧ sent r.2 = sent b ++ take r.1.1 p ∧
  buf r.2 = buf b ∧ size r.2 = size b ∧ werr r.2 = werr b.
Proof.
  intros r. pose proof (io_write_le p (wr b)) as Hl. split_and!; [exact Hl| |done..].
  intros Hn. destruct (decide (r.1.1 < length p)) as [Hs|]; [|subst r; unfold send in *; cbn in *; lia].
  destruct (io_write_short _ _ Hs) as [e He]. subst r. unfold send in *. cbn in *. congruence.
Qed.

Lemma Flush_extends b : extends [] b (bufio_Flush b).2.
Proof.
  unfold bufio_Flush. destruct (werr b) as [e|] eqn:Ee; [apply extends_refl|].
  case_decide as Hb; [apply extends_refl|].
  destruct (send_extends (buf b) b) as (Hle & Hall & Hsent & Hbuf & Hz & He).
  destruct (send (buf b) b) as [[n err] b1] eqn:Es. cbn [fst snd] in *.
  destruct err as [e|]; [|rewrite decide_False by (rewrite Hall by done; lia)];
    (split; cbn; [done|rewrite Ee; by intros []|rewrite Hsent; by apply prefix_app_r| |]);
    unfold out; cbn; rewrite Hsent, ?app_nil_r; try done.
  - apply prefix_app. exists (drop n (buf b)). by rewrite take_drop.
  - by rewrite Hall, firstn_all.
  - intros _. by rewrite Hall, firstn_all.
Qed.

Lemma Flush_empties b : werr (bufio_Flush b).2 = None → buf (bufio_Flush b).2 = [].
Proof.
  unfold bufio_Flush. destruct (werr b) eqn:Ee; cbn; [congruence|]. case_decide; [done|].
  destruct (send (buf b) b).1.2; cbn; [done|]. by case_decide; cbn; rewrite ?Ee.
Qed.

Lemma Flush_error b : (bufio_Flush b).1 = werr (bufio_Flush b).2.
Proof.
  unfold bufio_Flush. destruct (werr b) eqn:Ee; cbn; [done|]. case_decide; [done|].
  destruct (send (buf b) b).1.2; cbn; [done|]. by case_decide; cbn; rewrite ?Ee.
Qed.

(** Putting bytes that fit behind the buffer. *)
Lemma set_buf_extends p b : werr b = None → extends p b (set_buf (buf b ++ p) b).
Proof.
  intros He. split; cbn; [done|rewrite He; by intros []|done| |].
  - unfold out. rewrite <-app_assoc. by apply prefix_app_r.
  - intros _. unfold out. cbn. by rewrite app_assoc.
Qed.

(** The loop hands over what it consumed, and with a buffer of any size it stops
    because the rest fits or because an error stuck. *)
Lemma write_loop_extends fuel direct : ∀ nn p b, 0 < size b →
  (werr b = None → length p + (if decide (buf b = []) then 0 else 1) < fuel) →
  let r := write_loop fuel direct nn p b in
  ∃ q, p = q ++ r.1.2 ∧ extends q b r.2 ∧
       r.1.1 = nn + length q ∧
       (werr r.2 = None → length (r.1.2) <= Available r.2).
Proof.
  induction fuel as [|fuel IH]; intros nn p b Hsz Hf; cbn.
  { exists []. split_and!; [done|apply extends_refl|cbn; lia|].
    intros He. specialize (Hf He). lia. }
  destruct (werr b) as [e|] eqn:Ee.
  { exists []. cbn. split_and!; [done|apply extends_refl|lia|congruence]. }
  specialize (Hf eq_refl). destruct (decide (Available b < length p)) as [Hav|Hav]; cbn.
  2:{ exists []. cbn. split_and!; [done|apply extends_refl|lia|lia]. }
  destruct (direct && bool_decide (buf b = [])) eqn:Ed.
  - apply andb_true_iff in Ed as [_ Eb]. apply bool_decide_eq_true in Eb.
    destruct (send_extends p b) as (Hle & Hall & Hsent & _).
    destruct (send p b) as [[n err] b1] eqn:Es. cbn [fst snd] in *.
    set (b2 := mkWriter _ _ _ _ _).
    assert (extends (take n p) b b2) as Hext.
    { split; cbn; [done|rewrite Ee; by intros []|rewrite Hsent; by apply prefix_app_r| |];
        unfold out; cbn; rewrite Eb, Hsent, !app_nil_r; done. }
    destruct (IH (nn + n) (drop n p) b2) as (q & Hq & Hx & Hn & Hfit); [done| |].
    { intros He. cbn in He. destruct err; [done|]. rewrite Hall, length_drop by done.
      cbn [buf b2]. rewrite decide_True in Hf |- * by done. lia. }
    exists (take n p ++ q). split_and!.
    + by rewrite <-app_assoc, <-Hq, take_drop.
    + by eapply extends_trans.
    + rewrite Hn, length_app, length_take. lia.
    + exact Hfit.
  - set (n := Available b). set (b1 := set_buf _ b).
    assert (extends (take n p) b b1) as Hext1 by by apply set_buf_extends.
    pose proof (Flush_extends b1) as Hext2. pose proof (extends_trans _ _ _ _ _ Hext1 Hext2) as Hext.
    rewrite app_nil_r in Hext.
    destruct (IH (nn + n) (drop n p) (bufio_Flush b1).2) as (q & Hq & Hx & Hn & Hfit).
    + by rewrite (ext_size _ _ _ Hext).
    + intros He. rewrite (Flush_empties b1 He). rewrite decide_True, length_drop by done.
      destruct (decide (buf b = [])) as [Hb|Hb]; subst n; unfold Available in *;
        [rewrite Hb in *; cbn in *|]; lia.
    + exists (take n p ++ q). split_and!.
      * by rewrite <-app_assoc, <-Hq, take_drop.
      * by eapply extends_trans.
      * rewrite Hn, length_app, length_take. subst n. lia.
      * exact Hfit.
Qed.

Lemma write_extends direct p b : 0 < size b → extends p b (write direct p b).2.
Proof.
  intros Hsz. unfold write.
  destruct (write_loop_extends (S (S (length p))) direct 0 p b Hsz) as (q & Hq & Hext & _ & _).
  { intros _. case_decide; lia. }
  destruct (write_loop _ _ _ _ _) as [[nn p'] b']. cbn [fst snd] in *.
  destruct (werr b') as [e|] eqn:Ee; cbn.
  - destruct Hext as [H1 H2 H3 H4 H5]. split; [done|done|done| |congruence].
    rewrite Hq, app_assoc. by apply prefix_app_r.
  - rewrite Hq. eapply extends_trans; [exact Hext|by apply set_buf_extends].
Qed.

Lemma write_result direct p b : 0 < size b →
  (write direct p b).1.2 = werr (write direct p b).2 ∧
  ((write direct p b).1.2 = None → (write direct p b).1.1 = length p).
Proof.
  intros Hsz. unfold write.
  destruct (write_loop_extends (S (S (length p))) direct 0 p b Hsz) as (q & Hq & _ & Hn & _).
  { intros _. case_decide; lia. }
  destruct (write_loop _ _ _ _ _) as [[nn p'] b']. cbn [fst snd] in *.
  destruct (werr b') as [e|] eqn:Ee; cbn; [done|].
  split; [done|]. intros _. rewrite Hq, length_app. lia.
Qed.

Lemma WriteByte_extends c b : extends [c] b (bufio_WriteByte c b).2.
Proof.
  unfold bufio_WriteByte. destruct (werr b) as [e|] eqn:Ee; cbn.
  { split; [done|done|done| |congruence]. unfold out. rewrite <-app_assoc. by apply prefix_app_r. }
  case_decide; cbn; [|by apply set_buf_extends].
  pose proof (Flush_extends b) as Hx. pose proof (Flush_error b) as He.
  destruct (bufio_Flush b) as [[e|] b'] eqn:Ef; cbn [fst snd] in *.
  - destruct Hx as [H1 H2 H3 H4 H5]. split; [done|done|done| |congruence].
    rewrite app_nil_r in H4. by apply prefix_app_r.
  - change [c] with ([] ++ [c]). eapply extends_trans; [exact Hx|by apply set_buf_extends].
Qed.
End laws.
