(* ===== verification/Stream.v ===== *)
(** * Streamed bodies

    [src/stream.go] and the sending half of [src/sse.go]: the [Stream] a callback
    writes to, the [SSE] around it, and the goroutines that share one Stream. *)

From S2P Require Import Prelude Bytes Decimal Fasthttp Errors Bufio.

Section stream.
Context `{W : IOWriter}.

Inductive stream_error : Type :=
| errStreamClosed
| errInvalidEvent
| WriteError (e : write_error).

(** The context is only ever asked whether it is cancelled; the mutex makes every
    method one step. *)
Record Stream : Type := mkStream { w : Writer; cancelled : bool; done : bool }.

Definition set_w (b : Writer) (s : Stream) : Stream := mkStream b (cancelled s) (done s).
Definition cancel (s : Stream) : Stream := mkStream (w s) true (done s).

Definition fail (e : option write_error) (s : Stream) : option stream_error * Stream :=
  match e with
  | Some e => (Some (WriteError e), cancel s)
  | None => (None, s)
  end.

Definition write_method (wr : Writer → (nat * option write_error) * Writer) (s : Stream)
    : (nat * option stream_error) * Stream :=
  if done s then ((0, Some errStreamClosed), s)
  else
    let r := wr (w s) in
    let f := fail r.1.2 (set_w r.2 s) in
    ((r.1.1, f.1), f.2).

Definition Stream_Write (p : bytes) : Stream → (nat * option stream_error) * Stream :=
  write_method (bufio_Write p).
Definition Stream_WriteString (p : bytes) : Stream → (nat * option stream_error) * Stream :=
  write_method (bufio_WriteString p).

Definition Stream_Flush (s : Stream) : option stream_error * Stream :=
  if done s then (Some errStreamClosed, s)
  else let r := bufio_Flush (w s) in fail r.1 (set_w r.2 s).

(** One tick of the heartbeat: whether its goroutine goes on, and the Stream. It
    does not look at [done]. *)
Definition heartbeat_text : bytes := ":"%char :: "010"%char :: ["010"%char].

Definition beat (s : Stream) : bool * Stream :=
  let r := bufio_Flush (bufio_WriteString heartbeat_text (w s)).2 in
  match r.1 with
  | Some _ => (false, cancel (set_w r.2 s))
  | None => (true, set_w r.2 s)
  end.

(** ** Events *)

Record Event : Type := mkEvent { ID : bytes; EventName : bytes; Data : bytes; Retry : Z }.

Definition is_line_end (c : ascii) : bool :=
  bool_decide (c = "013"%char) || bool_decide (c = "010"%char).

Definition invalid_event (ev : Event) : bool :=
  match index_any (λ c, is_line_end c || bool_decide (c = "000"%char)) (ID ev) with
  | Some _ => true
  | None => match index_any is_line_end (EventName ev) with Some _ => true | None => false end
  end.

(** The loop over the lines of [Data]. Each round drops a line end, so as many
    rounds as bytes and one more are enough. *)
Fixpoint data_loop (fuel : nat) (data : bytes) : list bytes :=
  match fuel with
  | 0 => []
  | S fuel' =>
    match index_any is_line_end data with
    | None => [data]
    | Some i =>
      let j := if bool_decide (data !! i = Some "013"%char) && bool_decide (data !! S i = Some "010"%char)
               then S i else i in
      take i data :: data_loop fuel' (drop (S j) data)
    end
  end.

Definition data_lines (data : bytes) : list bytes := data_loop (S (length data)) data.

(** [time.Duration.Milliseconds]. *)
Definition Milliseconds (d : Z) : Z := Z.quot d 1000000.

(** What [Send] writes, call by call: a [WriteString] or a [WriteByte] each. *)
Inductive piece : Type :=
| PString (p : bytes)
| PByte (c : ascii).

Definition newline : ascii := "010"%char.

Definition send_pieces (ev : Event) : list piece :=
  (if bool_decide (ID ev = []) then []
   else [PString (bs "id: "); PString (ID ev); PByte newline]) ++
  (if bool_decide (EventName ev = []) then []
   else [PString (bs "event: "); PString (EventName ev); PByte newline]) ++
  (let ms := Milliseconds (Retry ev) in
   if (0 <? ms)%Z then PString (bs "retry: ") :: map PByte (Itoa ms) ++ [PByte newline] else []) ++
  concat (map (λ line, [PString (bs "data: "); PString line; PByte newline]) (data_lines (Data ev))) ++
  [PByte newline].

Definition write_piece (x : piece) (b : Writer) : Writer :=
  match x with
  | PString p => (bufio_WriteString p b).2
  | PByte c => (bufio_WriteByte c b).2
  end.

Definition write_pieces (l : list piece) (b : Writer) : Writer :=
  foldl (λ b x, write_piece x b) b l.

Definition SSE_Send (ev : Event) (s : Stream) : option stream_error * Stream :=
  if invalid_event ev then (Some errInvalidEvent, s)
  else if done s then (Some errStreamClosed, s)
  else
    let r := bufio_Flush (write_pieces (send_pieces ev) (w s)) in
    fail r.1 (set_w r.2 s).

(** ** One stream and its goroutines

    [startStream]: the callback runs with the Stream, the heartbeat beside it, and
    Shutdown may cancel the parent context at any time. A callback may have handed
    the Stream to goroutines that outlive it, so calls may come at any time, also
    after the Stream is retired. *)
Inductive call : Type :=
| CWrite (p : bytes)
| CWriteString (p : bytes)
| CFlush
| CSend (ev : Event).

Definition exec (o : call) (s : Stream) : option stream_error * Stream :=
  match o with
  | CWrite p => ((Stream_Write p s).1.2, (Stream_Write p s).2)
  | CWriteString p => ((Stream_WriteString p s).1.2, (Stream_WriteString p s).2)
  | CFlush => Stream_Flush s
  | CSend ev => SSE_Send ev s
  end.

(** How the callback ends. An error value stands for itself. *)
Inductive fn_end : Type :=
| FnNil
| FnError (text : bytes)
| FnPanic (text : bytes).

(** [beating]: the heartbeat goroutine runs; [returned]: the callback has ended. *)
Record running : Type := mkRunning {
  st : Stream;
  beating : bool;
  returned : bool;
  logged : list fn_end;
}.

Definition startStream (heartbeat : Z) (b : Writer) (parent_cancelled : bool) : running :=
  mkRunning (mkStream b parent_cancelled false) (0 <? heartbeat)%Z false [].

Inductive action : Type :=
| Call (o : call)
| Shutdown
| Tick
| Stop
| Return (e : fn_end)
| Retire.

(** What a goroutine can do next, [None] when it cannot: the heartbeat's two
    [select] cases, the callback's end with the first deferred call, and the last
    flush, which waits for the heartbeat. *)
Definition act (a : action) (r : running) : option running :=
  match a with
  | Call o => Some (mkRunning (exec o (st r)).2 (beating r) (returned r) (logged r))
  | Shutdown => Some (mkRunning (cancel (st r)) (beating r) (returned r) (logged r))
  | Tick =>
    if beating r
    then let t := beat (st r) in Some (mkRunning t.2 t.1 (returned r) (logged r))
    else None
  | Stop =>
    if beating r && cancelled (st r)
    then Some (mkRunning (st r) false (returned r) (logged r)) else None
  | Return e =>
    if returned r then None
    else
      let log := match e with
                 | FnNil => []
                 | FnError _ => if cancelled (st r) then [] else [e]
                 | FnPanic _ => [e]
                 end in
      Some (mkRunning (cancel (st r)) (beating r) true (logged r ++ log))
  | Retire =>
    if returned r && negb (beating r) && negb (done (st r))
    then
      let s := st r in
      Some (mkRunning (mkStream (bufio_Flush (w s)).2 (cancelled s) true)
              (beating r) (returned r) (logged r))
    else None
  end.

Fixpoint acts (l : list action) (r : running) : option running :=
  match l with
  | [] => Some r
  | a :: l' => act a r ≫= acts l'
  end.

(** The frames the actions hand to the writer, in order: what [Send] writes for
    each event it accepts, and the heartbeat's comments. *)
Inductive frame : Type :=
| FEvent (ev : Event)
| FBeat.

Definition piece_bytes (x : piece) : bytes :=
  match x with PString p => p | PByte c => [c] end.

Definition frame_bytes (f : frame) : bytes :=
  match f with
  | FEvent ev => concat (map piece_bytes (send_pieces ev))
  | FBeat => heartbeat_text
  end.

Definition act_frames (a : action) (r : running) : list frame :=
  match a with
  | Call (CSend ev) => if invalid_event ev || done (st r) then [] else [FEvent ev]
  | Tick => if beating r then [FBeat] else []
  | _ => []
  end.

Fixpoint frames (l : list action) (r : running) : list frame :=
  match l with
  | [] => []
  | a :: l' => act_frames a r ++ match act a r with Some r' => frames l' r' | None => [] end
  end.

(** An event stream's callback has no Stream, only [Send]. *)
Definition sse_action (a : action) : bool :=
  match a with
  | Call (CSend _) => true
  | Call _ => false
  | _ => true
  end.
End stream.

(** ** Lemmas *)

Section laws.
Context `{W : IOWriter} {L : IOWriterLaws}.

Lemma fail_w e s : w (fail e s).2 = w s ∧ done (fail e s).2 = done s.
Proof. by destruct e. Qed.

Lemma write_pieces_extends l : ∀ b, 0 < size b →
  extends (concat (map piece_bytes l)) b (write_pieces l b).
Proof.
  induction l as [|x l IH]; intros b Hb; cbn [write_pieces foldl map concat]; [apply extends_refl|].
  assert (extends (piece_bytes x) b (write_piece x b)) as Hx.
  { destruct x; [exact (write_extends writes_strings _ _ Hb)|apply WriteByte_extends]. }
  eapply extends_trans; [exact Hx|]. apply IH. by rewrite (ext_size _ _ _ Hx).
Qed.

Lemma Send_extends ev s : invalid_event ev = false → done s = false → 0 < size (w s) →
  extends (frame_bytes (FEvent ev)) (w s) (w (SSE_Send ev s).2) ∧
  ((SSE_Send ev s).1 = None → werr (w (SSE_Send ev s).2) = None ∧ buf (w (SSE_Send ev s).2) = []).
Proof.
  intros Hi Hd Hs. unfold SSE_Send. rewrite Hi, Hd.
  set (b := write_pieces _ _). pose proof (Flush_error b) as He.
  pose proof (Flush_empties b) as Hb. pose proof (Flush_extends b) as Hx.
  destruct (fail_w (bufio_Flush b).1 (set_w (bufio_Flush b).2 s)) as [-> _]. cbn [w set_w].
  split.
  - rewrite <-(app_nil_r (frame_bytes _)). eapply extends_trans; [by apply write_pieces_extends|exact Hx].
  - intros Hn. assert (werr (bufio_Flush b).2 = None) by (rewrite <-He; by destruct (bufio_Flush b).1).
    auto.
Qed.

Lemma beat_extends s : 0 < size (w s) → extends heartbeat_text (w s) (w (beat s).2).
Proof.
  intros Hs. unfold beat. set (b := (bufio_WriteString _ _).2).
  assert (extends heartbeat_text (w s) (bufio_Flush b).2) as Hx.
  { rewrite <-(app_nil_r heartbeat_text).
    eapply extends_trans; [exact (write_extends writes_strings _ _ Hs)|apply Flush_extends]. }
  destruct (bufio_Flush b).1; exact Hx.
Qed.

(** One step of a stream hands over the frames of its action. *)
Lemma act_extends a r r' : sse_action a = true → 0 < size (w (st r)) → act a r = Some r' →
  extends (concat (map frame_bytes (act_frames a r))) (w (st r)) (w (st r')).
Proof.
  intros Ha Hs. destruct a as [o| | | |e|]; cbn [act act_frames].
  - destruct o as [| | |ev]; try discriminate Ha. intros [= <-]. cbn [st exec].
    destruct (invalid_event ev || done (st r)) eqn:Ei; cbn [map concat].
    + unfold SSE_Send. destruct (invalid_event ev); [apply extends_refl|].
      cbn in Ei. rewrite Ei. apply extends_refl.
    + rewrite app_nil_r. apply orb_false_iff in Ei as [? ?]. by apply Send_extends.
  - intros [= <-]. apply extends_refl.
  - destruct (beating r); [|done]. intros [= <-]. cbn [map concat st]. rewrite app_nil_r.
    by apply beat_extends.
  - destruct (_ && _); [|done]. intros [= <-]. apply extends_refl.
  - destruct (returned r); [done|]. intros [= <-]. apply extends_refl.
  - destruct (_ && _); [|done]. intros [= <-]. apply Flush_extends.
Qed.

Lemma acts_extends l : ∀ r r', forallb sse_action l = true → 0 < size (w (st r)) →
  acts l r = Some r' →
  extends (concat (map frame_bytes (frames l r))) (w (st r)) (w (st r')).
Proof.
  induction l as [|a l IH]; intros r r' Ha Hs; cbn [acts frames map concat].
  { intros [= <-]. apply extends_refl. }
  cbn in Ha. apply andb_true_iff in Ha as [Ha Hl].
  destruct (act a r) as [r1|] eqn:E1; [|done]. cbn. intros Hr.
  pose proof (act_extends a r r1 Ha Hs E1) as Hx.
  rewrite map_app, concat_app. eapply extends_trans; [exact Hx|].
  apply IH; [done| |done]. by rewrite (ext_size _ _ _ Hx).
Qed.

(** The invariant of a stream's goroutines. *)
Record stream_ok (r : running) : Prop := {
  ok_returned : returned r = true → cancelled (st r) = true;
  ok_done : done (st r) = true → returned r = true ∧ beating r = false;
  ok_flushed : done (st r) = true → werr (w (st r)) = None → buf (w (st r)) = [];
}.

Lemma exec_keeps o s : done (exec o s).2 = done s ∧
  (cancelled s = true → cancelled (exec o s).2 = true) ∧
  (done s = true → (exec o s).2 = s ∧ is_Some (exec o s).1).
Proof.
  assert (∀ e s', done (fail e s').2 = done s' ∧ (cancelled s' = true → cancelled (fail e s').2 = true))
    as Hf by by intros [].
  destruct o; cbn [exec]; unfold Stream_Write, Stream_WriteString, write_method, Stream_Flush, SSE_Send;
    [| | |destruct (invalid_event ev); [done|]]; (destruct (done s) eqn:Ed; [by split_and!; eauto|]);
    cbn [fst snd]; (split_and!; [rewrite (proj1 (Hf _ _)); exact Ed|intros Hc; refine (proj2 (Hf _ (set_w _ s)) Hc)|done]).
Qed.

Lemma act_ok a r r' : stream_ok r → act a r = Some r' → stream_ok r'.
Proof.
  intros [Hc Hd Hb]. destruct a as [o| | | |e|]; cbn [act].
  - intros [= <-]. destruct (exec_keeps o (st r)) as (He & Hk & Hs).
    split; cbn; [auto|by rewrite He|]. rewrite He. intros Hdone.
    destruct (Hs Hdone) as [-> _]. by apply Hb.
  - intros [= <-]. by split.
  - destruct (beating r) eqn:Eb; [|done]. intros [= <-].
    assert (done (beat (st r)).2 = done (st r) ∧
            (cancelled (st r) = true → cancelled (beat (st r)).2 = true)) as [He Hk]
      by (unfold beat; destruct (bufio_Flush _).1; cbn; auto).
    split; cbn; [auto| |]; rewrite He; intros Hdone; by destruct (Hd Hdone).
  - destruct (_ && _); [|done]. intros [= <-]. split; cbn; [done| |done]. intros Hdone. by destruct (Hd Hdone).
  - destruct (returned r); [done|]. intros [= <-]. split; cbn; [done| |done]. intros Hdone. by destruct (Hd Hdone).
  - destruct (returned r && negb (beating r) && negb (done (st r))) eqn:E; [|done].
    apply andb_true_iff in E as [E _]. apply andb_true_iff in E as [E1 E2].
    apply negb_true_iff in E2. intros [= <-]. split; cbn; [auto|done|]. intros _. apply Flush_empties.
Qed.

Lemma acts_ok l : ∀ r r', stream_ok r → acts l r = Some r' → stream_ok r'.
Proof.
  induction l as [|a l IH]; intros r r' Hok; cbn; [by intros [= <-]|].
  destruct (act a r) as [r1|] eqn:E; [|done]. intros Hr. eapply IH; [|exact Hr]. by eapply act_ok.
Qed.

Lemma started_ok hb b c : stream_ok (startStream hb b c).
Proof. by split. Qed.

(** Nothing touches the writer of a retired stream. *)
Lemma acts_retired l : ∀ r r', stream_ok r → done (st r) = true → acts l r = Some r' →
  w (st r') = w (st r) ∧ done (st r') = true.
Proof.
  induction l as [|a l IH]; intros r r' Hok Hd; cbn [acts]; [by intros [= <-]|].
  destruct (act a r) as [r1|] eqn:E; [|done]. intros Hr.
  assert (w (st r1) = w (st r) ∧ done (st r1) = true) as [<- Hd1].
  { destruct (ok_done _ Hok Hd) as [Hret Hbeat].
    destruct a as [o| | | |e|]; cbn [act] in E; rewrite ?Hbeat, ?Hret, ?Hd in E; cbn in E; try done;
      simplify_eq; cbn; try done.
    destruct (exec_keeps o (st r)) as (_ & _ & Hk). by destruct (Hk Hd) as [-> _]. }
  eapply IH; [by eapply act_ok|done|done].
Qed.
End laws.

(** ** Properties *)

(** C17. A retired Stream is dead: once rice has made the last flush, no call of a
    goroutine the callback left behind and no heartbeat writes to the buffer
    fasthttp may have given to another response, whatever the order; every call
    answers an error. *)
Theorem stream_retired `{W : IOWriter} {L : IOWriterLaws} hb b c l r l' r'
    (Hr : acts l (startStream hb b c) = Some r) (Hd : done (st r) = true)
    (Hr' : acts l' r = Some r') :
  w (st r') = w (st r) ∧ done (st r') = true ∧ cancelled (st r') = true ∧
  ∀ o, is_Some (exec o (st r')).1 ∧ (exec o (st r')).2 = st r'.
Proof.
  assert (stream_ok r) as Hok by (eapply acts_ok; [apply started_ok|exact Hr]).
  destruct (acts_retired l' r r' Hok Hd Hr') as [Hw Hd'].
  assert (stream_ok r') as Hok' by (by eapply acts_ok).
  split_and!; [done|done|apply Hok', Hok', Hd'|].
  intros o. destruct (exec_keeps o (st r')) as (_ & _ & Hk). by destruct (Hk Hd').
Qed.

Lemma stream_retired_witness :
  let s := startStream 5 sample_writer false in
  let l := [Call (CWrite (bs "abc")); Tick; Return FnNil; Stop; Retire] in
  match acts l s with
  | Some r => w (st r) = w (st r) ∧ sent (w (st r)) = bs "abc" ++ heartbeat_text ∧
              is_Some (exec (CWrite (bs "x")) (st r)).1
  | None => False
  end.
Proof.
  intros s l. destruct (acts l s) as [r|] eqn:E; [|by vm_compute in E].
  assert (r = default r (acts l s)) as Hr by by rewrite E.
  assert (done (st r) = true) as Hd by (rewrite Hr; subst s l; vm_compute; reflexivity).
  destruct (stream_retired 5 sample_writer false l r [] r E Hd eq_refl) as (Hw & _ & _ & Hx).
  split_and!; [exact Hw| |apply Hx]. rewrite Hr. subst s l. vm_compute. reflexivity.
Defined.

(** C18. A stream ends: from any state after the callback returned, whatever is still
    running, at most two steps of rice's own goroutines retire it, and then
    everything that was buffered has been sent unless the connection failed. *)
Theorem stream_ends `{W : IOWriter} {L : IOWriterLaws} hb b c l r
    (Hr : acts l (startStream hb b c) = Some r) (Hret : returned r = true)
    (Hd : done (st r) = false) :
  ∃ l' r', l' ∈ [[Retire]; [Stop; Retire]] ∧ acts l' r = Some r' ∧ done (st r') = true ∧
           beating r' = false ∧ (werr (w (st r')) = None → sent (w (st r')) = out (w (st r))).
Proof.
  assert (stream_ok r) as Hok by (eapply acts_ok; [apply started_ok|exact Hr]).
  pose proof (ok_returned _ Hok Hret) as Hc.
  exists (if beating r then [Stop; Retire] else [Retire]).
  exists (mkRunning (mkStream (bufio_Flush (w (st r))).2 true true) false true (logged r)).
  split; [destruct (beating r); set_solver|].
  split; [destruct (beating r) eqn:Eb; cbn; rewrite ?Eb, ?Hc, ?Hret; cbn; rewrite ?Hd, ?Hc; cbn;
          rewrite ?Eb; reflexivity|].
  split_and!; [reflexivity|reflexivity|]. cbn [st w]. intros He.
  pose proof (ext_all _ _ _ (Flush_extends (w (st r))) He) as Ho.
  rewrite app_nil_r in Ho. rewrite <-Ho. unfold out. by rewrite (Flush_empties _ He), app_nil_r.
Qed.

Lemma stream_ends_witness :
  let s := startStream 5 sample_writer false in
  let l := [Call (CWrite (bs "abc")); Return FnNil] in
  match acts l s with
  | Some r => ∃ l' r', acts l' r = Some r' ∧ done (st r') = true
  | None => False
  end.
Proof.
  intros s l. destruct (acts l s) as [r|] eqn:E; [|by vm_compute in E].
  assert (r = default r (acts l s)) as Hr by by rewrite E.
  destruct (stream_ends 5 sample_writer false l r E) as (l' & r' & _ & Hl & Hd & _);
    [rewrite Hr; subst s l; vm_compute; reflexivity..|].
  exists l', r'. split; [exact Hl|exact Hd].
Defined.
