(* ===== verification/Sse.v ===== *)
(** * Server-sent events

    What a browser makes of the bytes of an event stream: the specification of
    [SSE.Send] in [src/sse.go] and of the heartbeat in [src/stream.go]. *)

From S2P Require Import Prelude Bytes Decimal Fasthttp Errors Bufio Stream.

(** ** The client

    The interpretation of an event stream by the HTML standard, byte by byte: a
    line ends at CR, LF or CRLF. *)
Record message : Type := mkMessage { m_type : bytes; m_data : bytes; m_id : bytes }.

Record client : Type := mkClient {
  c_skip : bool;            (* an LF now belongs to the CR before it *)
  c_line : bytes;           (* the unfinished line *)
  c_data : bytes;
  c_type : bytes;
  c_id : bytes;
  c_retry : option Z;       (* the reconnection time the server asked for *)
  c_out : list message;     (* the events dispatched *)
}.

Definition new_client : client := mkClient false [] [] [] [] None [].

Definition process_field (field value : bytes) (c : client) : client :=
  if bool_decide (field = bs "event") then
    mkClient (c_skip c) (c_line c) (c_data c) value (c_id c) (c_retry c) (c_out c)
  else if bool_decide (field = bs "data") then
    mkClient (c_skip c) (c_line c) (c_data c ++ value ++ [newline]) (c_type c) (c_id c) (c_retry c) (c_out c)
  else if bool_decide (field = bs "id") then
    match index_byte "000" value with
    | Some _ => c
    | None => mkClient (c_skip c) (c_line c) (c_data c) (c_type c) value (c_retry c) (c_out c)
    end
  else if bool_decide (field = bs "retry") then
    if negb (bool_decide (value = [])) && forallb is_digit value
    then mkClient (c_skip c) (c_line c) (c_data c) (c_type c) (c_id c) (Some (decimal value)) (c_out c)
    else c
  else c.

Definition dispatch (c : client) : client :=
  if bool_decide (c_data c = []) then
    mkClient (c_skip c) (c_line c) [] [] (c_id c) (c_retry c) (c_out c)
  else
    let data := take (length (c_data c) - 1) (c_data c) in
    mkClient (c_skip c) (c_line c) [] [] (c_id c) (c_retry c)
             (c_out c ++ [mkMessage (c_type c) data (c_id c)]).

Definition strip_space (v : bytes) : bytes :=
  match v with c :: v' => if decide (c = " "%char) then v' else v | [] => [] end.

Definition process_line (line : bytes) (c : client) : client :=
  match line with
  | [] => dispatch c
  | _ =>
    match index_byte ":" line with
    | Some 0 => c
    | Some i => process_field (take i line) (strip_space (drop (S i) line)) c
    | None => process_field line [] c
    end
  end.

Definition set_line (skip : bool) (line : bytes) (c : client) : client :=
  mkClient skip line (c_data c) (c_type c) (c_id c) (c_retry c) (c_out c).

Definition feed (c : client) (b : ascii) : client :=
  if c_skip c && bool_decide (b = newline) then set_line false (c_line c) c
  else if is_line_end b then
    process_line (c_line c) (set_line (bool_decide (b = "013"%char)) [] c)
  else set_line false (c_line c ++ [b]) c.

Definition receive (s : bytes) : client := foldl feed new_client s.

(** ** What the client should get *)

(** The data of an event, with every CRLF and CR as one LF. *)
Fixpoint normalise (s : bytes) : bytes :=
  match s with
  | [] => []
  | c :: s' =>
    if decide (c = "013"%char) then
      match s' with
      | d :: s'' => if decide (d = newline) then newline :: normalise s'' else newline :: normalise s'
      | [] => [newline]
      end
    else c :: normalise s'
  end.

Definition expect (c : client) (f : frame) : client :=
  match f with
  | FBeat => c
  | FEvent ev =>
    let id := if bool_decide (ID ev = []) then c_id c else ID ev in
    let ms := Milliseconds (Retry ev) in
    mkClient (c_skip c) (c_line c) (c_data c) (c_type c) id
             (if (0 <? ms)%Z then Some ms else c_retry c)
             (c_out c ++ [mkMessage (EventName ev) (normalise (Data ev)) id])
  end.

Definition expected (fs : list frame) : client := foldl expect new_client fs.

(** An event for concrete runs. *)
Definition sample_event : Event := mkEvent [] (bs "tick") (bs "a" ++ ["013"%char] ++ bs "b") 1500000000.

(** ** Lemmas *)

Lemma index_any_None P s : index_any P s = None ↔ Forall (λ c, P c = false) s.
Proof.
  induction s as [|c s IH]; cbn; [done|]. rewrite Forall_cons.
  destruct (P c); [naive_solver|]. rewrite fmap_None, IH. naive_solver.
Qed.

Lemma index_any_Some P s i : index_any P s = Some i →
  Forall (λ c, P c = false) (take i s) ∧ ∃ c, s !! i = Some c ∧ P c = true.
Proof.
  revert i. induction s as [|c s IH]; intros i; cbn; [done|].
  destruct (P c) eqn:E.
  - intros [= <-]. split; [constructor|by exists c].
  - intros (j & Hj & ->)%fmap_Some. destruct (IH j Hj) as [? ?]. cbn. by split; [constructor|].
Qed.

(** A line without a line end, then LF. *)
Lemma feed_line line c : Forall (λ b, is_line_end b = false) line →
  foldl feed c line = match line with [] => c | _ => set_line false (c_line c ++ line) c end.
Proof.
  intros Hl. revert c. induction Hl as [|b line Hb Hl IH]; intros c; [done|]. cbn [foldl].
  assert (feed c b = set_line false (c_line c ++ [b]) c) as ->.
  { unfold feed. rewrite Hb. rewrite (bool_decide_eq_false_2 (b = newline)), andb_false_r; [done|].
    intros ->. done. }
  rewrite IH. destruct line; [done|]. unfold set_line. cbn. by rewrite <-app_assoc.
Qed.

Definition idle (c : client) : Prop := c_skip c = false ∧ c_line c = [].

Lemma receive_line line c : idle c → Forall (λ b, is_line_end b = false) line →
  foldl feed c (line ++ [newline]) = process_line line (set_line false [] c).
Proof.
  intros [Hs Hl] Hf. rewrite foldl_app, (feed_line line) by done. cbn [foldl].
  assert (∀ c', c_skip c' = false → feed c' newline = process_line (c_line c') (set_line false [] c'))
    as Hn by (intros c' Hc'; unfold feed; by rewrite Hc').
  destruct line as [|b line]; rewrite Hn by done; [by rewrite Hl|]. cbn [c_line set_line]. by rewrite Hl.
Qed.

Lemma idle_set c : idle c → set_line false [] c = c.
Proof. destruct c. by intros [[= ->] [= ->]]. Qed.

(** One field of a frame: what the line does to an idle client. *)
Lemma receive_field name value c : idle c → name ≠ [] →
  Forall (λ b, is_line_end b = false ∧ b ≠ ":"%char) name →
  Forall (λ b, is_line_end b = false) value →
  foldl feed c (name ++ ":"%char :: " "%char :: value ++ [newline]) =
  process_field name value c.
Proof.
  intros Hc Hne Hn Hv.
  replace (name ++ _) with ((name ++ ":"%char :: " "%char :: value) ++ [newline]) by
    (rewrite <-app_assoc; done).
  rewrite receive_line, idle_set; [|done|done|].
  2:{ apply Forall_app. split; [eapply Forall_impl; [exact Hn|by intros ? []]|by repeat constructor]. }
  unfold process_line. destruct (name ++ _) as [|b l] eqn:E; [by destruct name|]. rewrite <-E.
  assert (index_byte ":" (name ++ ":"%char :: " "%char :: value) = Some (length name)) as ->.
  { apply index_byte_Some. rewrite list_lookup_middle, take_app_length by done. split; [done|].
    intros Hin. rewrite Forall_forall in Hn. by destruct (Hn _ Hin). }
  destruct (length name) eqn:El; [by destruct name|]. rewrite <-El.
  rewrite take_app_length. rewrite (cons_middle ":"%char name), app_assoc.
  rewrite drop_app_length' by (rewrite length_app; cbn; lia). done.
Qed.

(** The data lines of an event: [normalise] is what the lines say, joined. *)
Lemma normalise_clean s : Forall (λ b, is_line_end b = false) s → normalise s = s.
Proof.
  induction 1 as [|b s Hb _ IH]; [done|]. cbn. rewrite decide_False, IH; [done|]. by intros ->.
Qed.

Lemma normalise_app s t : Forall (λ b, is_line_end b = false) s → normalise (s ++ t) = s ++ normalise t.
Proof.
  induction 1 as [|b s Hb _ IH]; [done|]. cbn. rewrite decide_False, IH; [done|]. by intros ->.
Qed.

Lemma data_loop_spec fuel : ∀ data, length data < fuel →
  Forall (Forall (λ b, is_line_end b = false)) (data_loop fuel data) ∧
  data_loop fuel data ≠ [] ∧
  concat (map (λ line, line ++ [newline]) (data_loop fuel data)) = normalise data ++ [newline].
Proof.
  induction fuel as [|fuel IH]; intros data Hf; [lia|]. cbn [data_loop].
  destruct (index_any is_line_end data) as [i|] eqn:Ei.
  2:{ apply index_any_None in Ei. split_and!; [by repeat constructor|done|].
      cbn. by rewrite app_nil_r, normalise_clean. }
  apply index_any_Some in Ei as [Hclean (b & Hb & Hend)].
  set (j := if _ && _ then S i else i).
  pose proof (lookup_lt_Some _ _ _ Hb) as Hlt.
  destruct (IH (drop (S j) data)) as (Hl & Hne & Hcat).
  { rewrite length_drop. unfold j. destruct (_ && _); lia. }
  split_and!; [by constructor|done|]. cbn [map concat]. rewrite Hcat, <-!app_assoc.
  rewrite <-(take_drop_middle data i b Hb) at 3. rewrite normalise_app by done. rewrite <-app_assoc. f_equal.
  rewrite (app_assoc [newline]). f_equal. cbn [app].
  unfold is_line_end in Hend. apply orb_true_iff in Hend as [Hend|Hend]; apply bool_decide_eq_true in Hend as ->.
  - unfold j. rewrite Hb, bool_decide_eq_true_2 by done. cbn [andb normalise].
    rewrite decide_True by done.
    destruct (drop (S i) data) as [|d t] eqn:Ed.
    + assert (data !! S i = None) as -> by (apply lookup_ge_None; apply (f_equal length) in Ed;
        rewrite length_drop in Ed; cbn in Ed; lia).
      rewrite bool_decide_eq_false_2 by done. by rewrite Ed.
    + assert (data !! S i = Some d) as Hd.
      { rewrite <-(Nat.add_0_r (S i)), <-lookup_drop, Ed. done. }
      rewrite Hd. case_bool_decide as Hdn.
      * simplify_eq. rewrite decide_True by done.
        replace (drop (S (S i)) data) with (drop 1 (drop (S i) data)) by (rewrite drop_drop; f_equal; lia).
        by rewrite Ed.
      * rewrite decide_False by (intros ->; done). by rewrite Ed.
  - unfold j. rewrite Hb, bool_decide_eq_false_2 by (intros [=]). cbn [andb normalise].
    by rewrite decide_False by (intros [=]).
Qed.

(** A client between two frames. *)
Definition boundary (c : client) : Prop := idle c ∧ c_data c = [] ∧ c_type c = [].

Definition field_line (name value : bytes) : bytes :=
  name ++ ":"%char :: " "%char :: value ++ [newline].

Lemma frame_bytes_event ev :
  frame_bytes (FEvent ev) =
  (if bool_decide (ID ev = []) then [] else field_line (bs "id") (ID ev)) ++
  (if bool_decide (EventName ev = []) then [] else field_line (bs "event") (EventName ev)) ++
  (if (0 <? Milliseconds (Retry ev))%Z then field_line (bs "retry") (Itoa (Milliseconds (Retry ev))) else []) ++
  concat (map (field_line (bs "data")) (data_lines (Data ev))) ++ [newline].
Proof.
  assert (∀ s, concat (map piece_bytes (map PByte s)) = s) as Hp
    by (induction s as [|b s IH]; cbn; [done|by rewrite IH]).
  unfold frame_bytes, send_pieces. rewrite !map_app, !concat_app. f_equal; [|f_equal; [|f_equal; [|f_equal]]].
  - by case_bool_decide; cbn; rewrite ?app_nil_r.
  - by case_bool_decide; cbn; rewrite ?app_nil_r.
  - destruct (0 <? _)%Z; [|done]. cbn [map concat piece_bytes]. by rewrite map_app, concat_app, Hp.
  - induction (data_lines (Data ev)) as [|l ls IH]; [done|].
    cbn [map concat app piece_bytes]. rewrite IH. unfold field_line. cbn. by rewrite <-app_assoc.
Qed.

Lemma receive_data lines : ∀ c, idle c → Forall (Forall (λ b, is_line_end b = false)) lines →
  foldl feed c (concat (map (field_line (bs "data")) lines)) =
  mkClient (c_skip c) (c_line c) (c_data c ++ concat (map (λ line, line ++ [newline]) lines))
    (c_type c) (c_id c) (c_retry c) (c_out c).
Proof.
  induction lines as [|l ls IH]; intros c Hc Hf; cbn [map concat].
  { destruct c. by rewrite app_nil_r. }
  apply Forall_cons in Hf as [Hl Hls]. rewrite foldl_app. 
  change (field_line (bs "data") l) with (bs "data" ++ ":"%char :: " "%char :: l ++ [newline]).
  rewrite receive_field; [|done|done|repeat constructor; discriminate|done].
  rewrite IH; [|exact Hc|exact Hls].
  change (process_field (bs "data") l c) with
    (mkClient (c_skip c) (c_line c) (c_data c ++ l ++ [newline]) (c_type c) (c_id c) (c_retry c) (c_out c)).
  cbn [c_skip c_line c_data c_type c_id c_retry c_out]. by rewrite <-!app_assoc.
Qed.

Lemma process_retry v c : v ≠ [] → forallb is_digit v = true →
  process_field (bs "retry") v c =
  mkClient (c_skip c) (c_line c) (c_data c) (c_type c) (c_id c) (Some (decimal v)) (c_out c).
Proof.
  intros Hne Hd. transitivity (if negb (bool_decide (v = [])) && forallb is_digit v
    then mkClient (c_skip c) (c_line c) (c_data c) (c_type c) (c_id c) (Some (decimal v)) (c_out c) else c);
    [reflexivity|].
  by rewrite Hd, bool_decide_eq_false_2.
Qed.

Lemma invalid_event_false ev : invalid_event ev = false →
  Forall (λ b, is_line_end b = false) (ID ev) ∧ ("000"%char ∉ ID ev) ∧
  Forall (λ b, is_line_end b = false) (EventName ev).
Proof.
  unfold invalid_event. destruct (index_any _ (ID ev)) eqn:Ei; [done|].
  destruct (index_any _ (EventName ev)) eqn:En; [done|]. intros _.
  apply index_any_None in Ei, En. split_and!; [| |exact En].
  - eapply Forall_impl; [exact Ei|]. intros b Hb. by apply orb_false_iff in Hb as [? ?].
  - intros Hin. rewrite Forall_forall in Ei. by specialize (Ei _ Hin).
Qed.

Lemma receive_event ev c : boundary c → invalid_event ev = false → int64_range (Retry ev) →
  foldl feed c (frame_bytes (FEvent ev)) = expect c (FEvent ev).
Proof.
  intros (Hc & Hd & Ht) Hv Hr. apply invalid_event_false in Hv as (Hid & Hnul & Hev).
  rewrite frame_bytes_event, !foldl_app.
  set (ms := Milliseconds (Retry ev)).
  set (c1 := if bool_decide (ID ev = []) then c else process_field (bs "id") (ID ev) c).
  assert (foldl feed c (if bool_decide (ID ev = []) then [] else field_line (bs "id") (ID ev)) = c1) as ->.
  { unfold c1. case_bool_decide; [done|]. apply receive_field; try done. repeat constructor; discriminate. }
  assert (c1 = mkClient (c_skip c) (c_line c) [] [] (if bool_decide (ID ev = []) then c_id c else ID ev)
            (c_retry c) (c_out c)) as ->.
  { unfold c1. case_bool_decide; [destruct c; cbn in *; by subst|].
    unfold process_field. cbn. rewrite (proj2 (index_byte_None _ _) Hnul). by rewrite Hd, Ht. }
  set (id := if bool_decide (ID ev = []) then c_id c else ID ev).
  set (c1 := mkClient _ _ [] [] id _ _).
  assert (foldl feed c1 (if bool_decide (EventName ev = []) then [] else field_line (bs "event") (EventName ev)) =
          mkClient (c_skip c) (c_line c) [] (EventName ev) id (c_retry c) (c_out c)) as ->.
  { case_bool_decide as He; [by rewrite He|]. unfold field_line.
    rewrite receive_field; [done|done|done|repeat constructor; discriminate|done]. }
  clear c1. set (c2 := mkClient _ _ [] _ _ _ _).
  assert (foldl feed c2 (if (0 <? ms)%Z then field_line (bs "retry") (Itoa ms) else []) =
          mkClient (c_skip c) (c_line c) [] (EventName ev) id
            (if (0 <? ms)%Z then Some ms else c_retry c) (c_out c)) as ->.
  { destruct (0 <? ms)%Z eqn:Ems; [|done]. apply Z.ltb_lt in Ems.
    assert (ms < 10 ^ 20)%Z as Hlt.
    { unfold ms, Milliseconds. destruct Hr as [_ Hr]. unfold max_int64 in Hr.
      destruct (decide (0 <= Retry ev)%Z).
      - rewrite Z.quot_div_nonneg by lia. apply Z.div_lt_upper_bound; lia.
      - pose proof (Z.quot_le_mono (Retry ev) 0 1000000). rewrite Z.quot_0_l in *; lia. }
    destruct (Itoa_spec ms) as (Hne & Hdig & Hval); [lia|]. unfold field_line.
    rewrite receive_field; [|done|done|repeat constructor; discriminate|].
    - rewrite process_retry, Hval by done. done.
    - rewrite forallb_forall in Hdig. apply Forall_forall. intros b Hin.
      apply list_elem_of_In, Hdig in Hin. destruct (is_line_end b) eqn:E; [|done].
      apply orb_true_iff in E as [E|E]; apply bool_decide_eq_true in E as ->; discriminate Hin. }
  clear c2. destruct (data_loop_spec (S (length (Data ev))) (Data ev)) as (Hlines & _ & Hcat); [lia|].
  fold (data_lines (Data ev)) in *.
  rewrite receive_data by done. cbn [c_skip c_line c_data c_type c_id c_retry c_out].
  rewrite Hcat. cbn [app]. destruct Hc as [Hs Hl]. rewrite Hs, Hl.
  cbn [foldl]. unfold feed.
  cbn [c_skip c_line andb]. change (is_line_end newline) with true. cbv iota.
  cbn [process_line]. unfold dispatch. cbn [c_data set_line].
  rewrite bool_decide_eq_false_2 by (by destruct (normalise (Data ev))).
  rewrite length_app, Nat.add_sub, take_app_length. unfold expect. fold id ms.
  rewrite Hs, Hl, Hd, Ht. cbn [set_line c_skip c_line c_out c_id c_type c_retry]. reflexivity.
Qed.

(** Whole frames: the client understands each as it was meant. *)
Definition frame_ok (f : frame) : Prop :=
  match f with FBeat => True | FEvent ev => invalid_event ev = false ∧ int64_range (Retry ev) end.

Lemma receive_frames fs : ∀ c, boundary c → Forall frame_ok fs →
  foldl feed c (concat (map frame_bytes fs)) = foldl expect c fs.
Proof.
  induction fs as [|f fs IH]; intros c Hc Hf; [done|]. apply Forall_cons in Hf as [Hf Hfs].
  cbn [map concat]. rewrite foldl_app. cbn [foldl].
  assert (foldl feed c (frame_bytes f) = expect c f) as ->.
  { destruct f as [ev|]; [by apply receive_event; destruct Hf|].
    destruct c. by destruct Hc as ([[= ->] [= ->]] & [= ->] & [= ->]). }
  apply IH; [|done]. by destruct f.
Qed.

(** What was dispatched is never taken back. *)
Lemma feed_grows s : ∀ c, c_out c `prefix_of` c_out (foldl feed c s).
Proof.
  induction s as [|b s IH]; intros c; [done|]. cbn [foldl]. etrans; [|apply IH].
  unfold feed. case_match; [done|]. case_match; [|done].
  unfold process_line, dispatch, process_field. cbn.
  repeat (case_match; cbn; try done). by apply prefix_app_r.
Qed.

Lemma frames_ok `{W : IOWriter} l : ∀ r,
  Forall (λ a, ∀ ev, a = Call (CSend ev) → int64_range (Retry ev)) l →
  Forall frame_ok (frames l r).
Proof.
  induction l as [|a l IH]; intros r Hl; [constructor|]. apply Forall_cons in Hl as [Ha Hl].
  cbn [frames]. apply Forall_app. split.
  - destruct a as [[]| | | | |]; cbn; try constructor; [|by destruct (beating r); repeat constructor].
    destruct (invalid_event ev || done (st r)) eqn:E; constructor; [|constructor].
    apply orb_false_iff in E as [? _]. split; [done|]. by apply Ha.
  - destruct (act a r); [by apply IH|constructor].
Qed.

(** The start of an event stream: an empty buffer over a sound connection. *)
Definition fresh `{W : IOWriter} (b : Writer) : Prop :=
  0 < size b ∧ buf b = [] ∧ werr b = None ∧ sent b = [].

(** ** Properties *)

(** C16. What a browser gets from an event stream: however [Send], the heartbeat,
    Shutdown and the end of the callback interleave, and wherever the connection
    breaks, the events it dispatches are a prefix of the accepted events in order,
    each with its own name, ID and normalised data; and when the stream was retired
    with no write error it got them all, with the last reconnection time. *)
Theorem sse_delivery `{W : IOWriter} {L : IOWriterLaws} hb b c l r
    (Hl : forallb sse_action l = true) (Hb : fresh b)
    (Hev : Forall (λ a, ∀ ev, a = Call (CSend ev) → int64_range (Retry ev)) l)
    (Hr : acts l (startStream hb b c) = Some r) :
  let got := receive (sent (w (st r))) in
  let meant := expected (frames l (startStream hb b c)) in
  c_out got `prefix_of` c_out meant ∧
  (done (st r) = true → werr (w (st r)) = None → got = meant).
Proof.
  intros got meant. destruct Hb as (Hsize & Hbuf & Herr & Hsent).
  pose proof (acts_extends l (startStream hb b c) r Hl Hsize Hr) as [_ _ _ Hp Ha].
  unfold out in *. cbn [startStream st w] in Hp, Ha. rewrite Hsent, Hbuf in Hp, Ha. cbn [app] in Hp, Ha.
  set (fs := frames l _) in *.
  assert (receive (concat (map frame_bytes fs)) = meant) as Hm
    by (apply receive_frames; [done|by apply frames_ok]).
  split.
  - rewrite <-Hm. destruct Hp as [rest ->]. unfold receive. rewrite foldl_app. apply feed_grows.
  - intros Hd Hn. assert (stream_ok r) as Hok by (eapply acts_ok; [apply started_ok|exact Hr]).
    specialize (Ha Hn). rewrite (ok_flushed _ Hok Hd Hn), app_nil_r in Ha. unfold got. by rewrite Ha.
Qed.

Lemma sse_delivery_witness :
  let l := [Tick; Call (CSend sample_event); Return FnNil; Stop; Retire] in
  let r := default (startStream 5 sample_writer false) (acts l (startStream 5 sample_writer false)) in
  c_out (receive (sent (w (st r)))) =
  [mkMessage (bs "tick") (bs "a" ++ [newline] ++ bs "b") []].
Proof.
  intros l r.
  destruct (sse_delivery 5 sample_writer false l r) as [_ Hall].
  - reflexivity.
  - unfold fresh. cbn. split_and!; [lia|done..].
  - subst l. clear r. repeat (apply Forall_cons; split; [|try apply Forall_nil]); try done;
      intros ev Heq; try discriminate Heq. injection Heq as <-. vm_compute. split; intros [=].
  - vm_compute. reflexivity.
  - rewrite Hall; vm_compute; reflexivity.
Defined.

(** A [Send] that returns nil has delivered: everything accepted so far has
    reached the connection and a browser has dispatched it, this event last. *)
Theorem send_delivers `{W : IOWriter} {L : IOWriterLaws} hb b c l r ev
    (Hl : forallb sse_action l = true) (Hb : fresh b)
    (Hev : Forall (λ a, ∀ ev, a = Call (CSend ev) → int64_range (Retry ev)) l)
    (Hret : int64_range (Retry ev))
    (Hr : acts l (startStream hb b c) = Some r) (Hok : (SSE_Send ev (st r)).1 = None) :
  receive (sent (w (SSE_Send ev (st r)).2)) =
  expect (expected (frames l (startStream hb b c))) (FEvent ev).
Proof.
  assert (invalid_event ev = false ∧ done (st r) = false) as [Hi Hd].
  { unfold SSE_Send in Hok. destruct (invalid_event ev); [done|]. by destruct (done (st r)). }
  destruct Hb as (Hsize & Hbuf & Herr & Hsent).
  pose proof (acts_extends l (startStream hb b c) r Hl Hsize Hr) as Hx.
  destruct (Send_extends ev (st r) Hi Hd) as [Hsend Hflushed].
  { rewrite (ext_size _ _ _ Hx). exact Hsize. }
  destruct (Hflushed Hok) as [Hn He]. pose proof (extends_trans _ _ _ _ _ Hx Hsend) as [_ _ _ _ Ha].
  specialize (Ha Hn). unfold out in Ha. rewrite He, app_nil_r in Ha.
  cbn [startStream st w] in Ha. rewrite Hsent, Hbuf in Ha. cbn [app] in Ha. rewrite Ha.
  set (fs := frames _ _).
  assert (Forall frame_ok fs) as Hfs by (by apply frames_ok).
  replace (concat (map frame_bytes fs) ++ frame_bytes (FEvent ev))
    with (concat (map frame_bytes (fs ++ [FEvent ev]))) by (rewrite map_app, concat_app; cbn [map concat]; by rewrite app_nil_r).
  unfold receive. rewrite receive_frames; [by rewrite foldl_app|done|].
  apply Forall_app. split; [exact Hfs|]. apply Forall_cons. split; [by split|apply Forall_nil; exact I].
Qed.

Lemma send_delivers_witness :
  let s := startStream 0 sample_writer false in
  c_out (receive (sent (w (SSE_Send sample_event (st s)).2))) =
  [mkMessage (bs "tick") (bs "a" ++ [newline] ++ bs "b") []].
Proof.
  intros s.
  rewrite (send_delivers 0 sample_writer false [] s sample_event); [reflexivity|reflexivity| |constructor| |reflexivity|].
  - unfold fresh. cbn. split_and!; [lia|done..].
  - vm_compute. split; intros [=].
  - vm_compute. reflexivity.
Defined.
