(* ===== verification/Lifecycle.v ===== *)
(** * The life of an App

    [src/server.go], [lifecycle.go], [conns.go]: [Serve], [Shutdown] and
    [RunContext] calls that overlap, the hooks, and the connections. Every call is
    a thread, and a step of a thread is what the code does between two points
    where another goroutine can be seen: a critical section, an atomic, one hook,
    one [Close]. fasthttp's server and the hooks are the environment: what they
    return is an input of the step. *)

From S2P Require Import Prelude.

Section life.
Context {E : Type}.

(** ** State *)

Record config : Type := mkConfig {
  onStart : list nat;
  onShutdown : list nat;
  drainDelay : Z;
}.

(** What [mu], [connMu], the atomics, the two [Once]s and the channels guard. A
    listener and a connection are numbers; [closed_lns] and [closed_conns] are
    those rice has called [Close] on. [hooks_run] is ghost: the OnShutdown hooks
    in the order they ran. *)
Record shared : Type := mkShared {
  closed : bool;
  serving : bool;
  ln : option nat;
  ready : bool;
  closed_lns : gset nat;
  drained : bool;                 (* drainOnce has run *)
  draining : bool;
  drainEnd : option Z;
  conns : gset nat;
  forceClosed : bool;
  closed_conns : gset nat;
  baseCancelled : bool;
  streamsCancelled : bool;
  sem : bool;                     (* shutdownSem is taken *)
  onceRun : bool;                 (* shutdownOnce has been entered *)
  staticStopped : bool;
  hooksStarted : bool;
  shutdownDone : bool;
  hooks_run : list nat;
  now : Z;
}.

Definition new_shared : shared :=
  mkShared false false None false ∅ false false None ∅ false ∅ false false false false false
           false false [] 0.

Inductive serve_error : Type :=
| ErrAlreadyServing
| HookFailed (e : E)
| ServeFailed (e : E).

(** Where a [Serve] call is. *)
Inductive serve_pc : Type :=
| SStart
| SHooks (rest : list nat)
| SPublish
| SListen
| SUnready (e : option serve_error)    (* the deferred function's two steps *)
| SUnserve (e : option serve_error)
| SReturned (e : option serve_error).

(** [ShutdownTimeout] wraps ErrShutdownTimeout; [ShutdownFailed] is any other
    error of fasthttp's. *)
Inductive shutdown_error : Type := ShutdownTimeout | ShutdownFailed.

(** What [ShutdownWithContext] can return. *)
Inductive srv_result : Type := SrvNil | SrvCtx | SrvClosed | SrvOther.

(** Where a [Shutdown] call is. [turn] is whether it holds the semaphore. *)
Inductive shut_pc : Type :=
| HStart
| HCancelStreams
| HDrain
| HWait
| HTurn
| HTurn2
| HSrv1
| HCloseLn (n : nat)
| HSrv2
| HCheck (ctx_err failed : bool)
| HForce (turn : bool)
| HCancelBase (turn : bool) (rest : list nat)
| HClose (turn : bool) (rest : list nat)
| HOnce (e : option shutdown_error)
| HHook (e : option shutdown_error) (rest : list nat) (errs : list E)
| HRelease (e : option shutdown_error) (errs : list E)
| HReturned (turn : bool) (e : option shutdown_error) (errs : list E).

(** Where a [RunContext] call is, after its bind: [s] is its Serve goroutine, [u]
    its own Shutdown call. *)
Inductive run_result : Type :=
| RunNil
| RunServe (e : serve_error)
| RunShutdown (e : option shutdown_error) (errs : list E) (s : option serve_error).

Inductive run_pc : Type :=
| RSelect (s : nat)
| RElsewhere
| RShutElsewhere (u : nat)
| RShut (s u : nat)
| RAwait (r : run_result)
| RAwaitHooks (r : run_result)
| RReturned (r : run_result).

(** A thread with its locals; [ended] is whether its ctx is done. *)
Inductive thread : Type :=
| TServe (l : nat) (pc : serve_pc)
| TShutdown (ended : bool) (l : option nat) (pc : shut_pc)
| TRun (ended : bool) (pc : run_pc).

Record world : Type := mkWorld { sh : shared; threads : gmap nat thread }.

(** ** Operations *)

Definition set_closed (s : shared) : shared :=
  mkShared true (serving s) (ln s) (ready s) (closed_lns s) (drained s) (draining s) (drainEnd s)
    (conns s) (forceClosed s) (closed_conns s) (baseCancelled s) (streamsCancelled s) (sem s)
    (onceRun s) (staticStopped s) (hooksStarted s) (shutdownDone s) (hooks_run s) (now s).

Definition set_serving (b : bool) (s : shared) : shared :=
  mkShared (closed s) b (ln s) (ready s) (closed_lns s) (drained s) (draining s) (drainEnd s)
    (conns s) (forceClosed s) (closed_conns s) (baseCancelled s) (streamsCancelled s) (sem s)
    (onceRun s) (staticStopped s) (hooksStarted s) (shutdownDone s) (hooks_run s) (now s).

Definition publish (l : nat) (s : shared) : shared :=
  mkShared (closed s) (serving s) (Some l) true (closed_lns s) (drained s) (draining s) (drainEnd s)
    (conns s) (forceClosed s) (closed_conns s) (baseCancelled s) (streamsCancelled s) (sem s)
    (onceRun s) (staticStopped s) (hooksStarted s) (shutdownDone s) (hooks_run s) (now s).

Definition unready (s : shared) : shared :=
  mkShared (closed s) (serving s) (ln s) false (closed_lns s) (drained s) (draining s) (drainEnd s)
    (conns s) (forceClosed s) (closed_conns s) (baseCancelled s) (streamsCancelled s) (sem s)
    (onceRun s) (staticStopped s) (hooksStarted s) (shutdownDone s) (hooks_run s) (now s).

Definition close_ln (l : nat) (s : shared) : shared :=
  mkShared (closed s) (serving s) (ln s) (ready s) ({[l]} ∪ closed_lns s) (drained s) (draining s)
    (drainEnd s) (conns s) (forceClosed s) (closed_conns s) (baseCancelled s) (streamsCancelled s)
    (sem s) (onceRun s) (staticStopped s) (hooksStarted s) (shutdownDone s) (hooks_run s) (now s).

(** [drain]'s [drainOnce]. *)
Definition start_drain (c : config) (s : shared) : shared :=
  if drained s then s
  else
    let until := if ready s && (0 <? drainDelay c)%Z then Some (now s + drainDelay c)%Z else drainEnd s in
    mkShared (closed s) (serving s) (ln s) false (closed_lns s) true true until
      (conns s) (forceClosed s) (closed_conns s) (baseCancelled s) (streamsCancelled s) (sem s)
      (onceRun s) (staticStopped s) (hooksStarted s) (shutdownDone s) (hooks_run s) (now s).

Definition cancel_streams (s : shared) : shared :=
  mkShared (closed s) (serving s) (ln s) (ready s) (closed_lns s) (drained s) (draining s) (drainEnd s)
    (conns s) (forceClosed s) (closed_conns s) (baseCancelled s) true (sem s)
    (onceRun s) (staticStopped s) (hooksStarted s) (shutdownDone s) (hooks_run s) (now s).

Definition set_sem (b : bool) (s : shared) : shared :=
  mkShared (closed s) (serving s) (ln s) (ready s) (closed_lns s) (drained s) (draining s) (drainEnd s)
    (conns s) (forceClosed s) (closed_conns s) (baseCancelled s) (streamsCancelled s) b
    (onceRun s) (staticStopped s) (hooksStarted s) (shutdownDone s) (hooks_run s) (now s).

(** [closeConns], in its three parts; [streamCtx] is a child of [baseCtx]. *)
Definition force (s : shared) : shared :=
  mkShared (closed s) (serving s) (ln s) (ready s) (closed_lns s) (drained s) (draining s) (drainEnd s)
    (conns s) true (closed_conns s) (baseCancelled s) (streamsCancelled s) (sem s)
    (onceRun s) (staticStopped s) (hooksStarted s) (shutdownDone s) (hooks_run s) (now s).

Definition cancel_base (s : shared) : shared :=
  mkShared (closed s) (serving s) (ln s) (ready s) (closed_lns s) (drained s) (draining s) (drainEnd s)
    (conns s) (forceClosed s) (closed_conns s) true true (sem s)
    (onceRun s) (staticStopped s) (hooksStarted s) (shutdownDone s) (hooks_run s) (now s).

Definition close_conn (c : nat) (s : shared) : shared :=
  mkShared (closed s) (serving s) (ln s) (ready s) (closed_lns s) (drained s) (draining s) (drainEnd s)
    (conns s) (forceClosed s) ({[c]} ∪ closed_conns s) (baseCancelled s) (streamsCancelled s) (sem s)
    (onceRun s) (staticStopped s) (hooksStarted s) (shutdownDone s) (hooks_run s) (now s).

Definition set_conns (cs : gset nat) (s : shared) : shared :=
  mkShared (closed s) (serving s) (ln s) (ready s) (closed_lns s) (drained s) (draining s) (drainEnd s)
    cs (forceClosed s) (closed_conns s) (baseCancelled s) (streamsCancelled s) (sem s)
    (onceRun s) (staticStopped s) (hooksStarted s) (shutdownDone s) (hooks_run s) (now s).

(** [connState]. The connection it closes is its caller's, so the [Close] after the
    critical section belongs to the step. *)
Inductive conn_event : Type := StateNew | StateActive | StateIdle | StateClosed | StateHijacked.

Definition connState (c : nat) (e : conn_event) (s : shared) : shared :=
  match e with
  | StateNew => if forceClosed s then close_conn c s else set_conns ({[c]} ∪ conns s) s
  | StateClosed | StateHijacked => set_conns (conns s ∖ {[c]}) s
  | StateActive | StateIdle => s
  end.

(** [runShutdown]'s [shutdownOnce] up to the first hook, one hook, and its end. *)
Definition start_hooks (s : shared) : shared :=
  mkShared (closed s) (serving s) (ln s) (ready s) (closed_lns s) (drained s) (draining s) (drainEnd s)
    (conns s) (forceClosed s) (closed_conns s) (baseCancelled s) (streamsCancelled s) (sem s)
    true true true (shutdownDone s) (hooks_run s) (now s).

Definition run_hook (h : nat) (s : shared) : shared :=
  mkShared (closed s) (serving s) (ln s) (ready s) (closed_lns s) (drained s) (draining s) (drainEnd s)
    (conns s) (forceClosed s) (closed_conns s) (baseCancelled s) (streamsCancelled s) (sem s)
    (onceRun s) (staticStopped s) (hooksStarted s) (shutdownDone s) (hooks_run s ++ [h]) (now s).

Definition end_hooks (s : shared) : shared :=
  mkShared (closed s) (serving s) (ln s) (ready s) (closed_lns s) (drained s) (draining s) (drainEnd s)
    (conns s) (forceClosed s) (closed_conns s) (baseCancelled s) (streamsCancelled s) (sem s)
    (onceRun s) (staticStopped s) (hooksStarted s) true (hooks_run s) (now s).

Definition advance (d : Z) (s : shared) : shared :=
  mkShared (closed s) (serving s) (ln s) (ready s) (closed_lns s) (drained s) (draining s) (drainEnd s)
    (conns s) (forceClosed s) (closed_conns s) (baseCancelled s) (streamsCancelled s) (sem s)
    (onceRun s) (staticStopped s) (hooksStarted s) (shutdownDone s) (hooks_run s) (now s + d).

(** [shutdownWithin]'s timeout: saturated, not wrapped. *)
Definition shutdownWithin_total (drainDelay grace : Z) : Z :=
  let total := add64 drainDelay grace in
  if (total <? grace)%Z then max_int64 else total.

(** ** Steps *)

(** What the environment decides in a step: nothing, which ready case a [select]
    takes, what a hook or fasthttp returned, or the number of a new call. *)
Inductive input : Type :=
| IGo
| IGiveUp
| IHook (e : option E)
| ISrv (r : srv_result)
| IServe (e : option E)
| ISpawn (u : nat).

(** One step of [Serve] on listener [l]; [None] when it cannot be taken. *)
Definition serve_step (c : config) (i : input) (l : nat) (pc : serve_pc) (s : shared)
    : option (serve_pc * shared) :=
  match pc, i with
  | SStart, IGo =>
    if closed s then Some (SReturned None, close_ln l s)
    else if serving s then Some (SReturned (Some ErrAlreadyServing), close_ln l s)
    else Some (SHooks (onStart c), set_serving true s)
  | SHooks [], IGo => Some (SPublish, s)
  | SHooks (h :: rest), IHook None => Some (SHooks rest, s)
  | SHooks (h :: rest), IHook (Some e) => Some (SUnready (Some (HookFailed e)), close_ln l s)
  | SPublish, IGo =>
    if closed s then Some (SUnready None, close_ln l s) else Some (SListen, publish l s)
  | SListen, IServe e => Some (SUnready (ServeFailed <$> e), s)
  | SUnready e, IGo => Some (SUnserve e, unready s)
  | SUnserve e, IGo => Some (SReturned e, set_serving false s)
  | _, _ => None
  end.

(** One step of [Shutdown] with its ctx and the listener it read. *)
Definition shut_step (c : config) (i : input) (ended : bool) (l : option nat) (pc : shut_pc) (s : shared)
    : option (option nat * shut_pc * shared) :=
  match pc, i with
  | HStart, IGo => Some (ln s, HCancelStreams, set_closed s)
  | HCancelStreams, IGo => Some (l, HDrain, cancel_streams s)
  | HDrain, IGo => Some (l, HWait, start_drain c s)
  | HWait, IGo =>
    match drainEnd s with
    | Some t => if (t <=? now s)%Z || ended then Some (l, HTurn, s) else None
    | None => Some (l, HTurn, s)
    end
  | HTurn, IGo => if sem s then Some (l, HTurn2, s) else Some (l, HSrv1, set_sem true s)
  | HTurn2, IGo => if sem s then None else Some (l, HSrv1, set_sem true s)
  | HTurn2, IGiveUp => if ended then Some (l, HForce false, s) else None
  | HSrv1, ISrv r =>
    match r, l with
    | SrvCtx, _ => if ended then Some (l, HCheck true true, s) else None
    | SrvOther, _ => Some (l, HCheck false true, s)
    | _, Some n => Some (l, HCloseLn n, s)
    | _, None => Some (l, HCheck false false, s)
    end
  | HCloseLn n, IGo => Some (l, HSrv2, close_ln n s)
  | HSrv2, ISrv r =>
    match r with
    | SrvCtx => if ended then Some (l, HCheck true true, s) else None
    | _ => Some (l, HCheck false false, s)
    end
  | HCheck ctx_err failed, IGo =>
    Some (l, if ctx_err then HForce true else HOnce (if failed then Some ShutdownFailed else None), s)
  | HForce turn, IGo => Some (l, HCancelBase turn (elements (conns s)), force s)
  | HCancelBase turn rest, IGo => Some (l, HClose turn rest, cancel_base s)
  | HClose turn (x :: rest), IGo => Some (l, HClose turn rest, close_conn x s)
  | HClose true [], IGo => Some (l, HOnce (Some ShutdownTimeout), s)
  | HClose false [], IGo => Some (l, HReturned false (Some ShutdownTimeout) [], s)
  | HOnce e, IGo =>
    if onceRun s then Some (l, HRelease e [], s)
    else Some (l, HHook e (rev (onShutdown c)) [], start_hooks s)
  | HHook e (h :: rest) errs, IHook x =>
    Some (l, HHook e rest (match x with Some x => errs ++ [x] | None => errs end), run_hook h s)
  | HHook e [] errs, IGo => Some (l, HRelease e errs, end_hooks s)
  | HRelease e errs, IGo => Some (l, HReturned true e errs, set_sem false s)
  | _, _ => None
  end.

(** What another call has returned. *)
Definition served (ts : gmap nat thread) (t : nat) : option (option serve_error) :=
  match ts !! t with Some (TServe _ (SReturned e)) => Some e | _ => None end.

Definition shut (ts : gmap nat thread) (t : nat) : option (option shutdown_error * list E) :=
  match ts !! t with Some (TShutdown _ _ (HReturned _ e errs)) => Some (e, errs) | _ => None end.

(** [errors.Join] of the two, nil when both are. *)
Definition join_results (e : option shutdown_error) (errs : list E) (x : option serve_error) : run_result :=
  match e, errs, x with None, [], None => RunNil | _, _, _ => RunShutdown e errs x end.

(** One step of [RunContext], and the [Shutdown] call it may start. *)
Definition run_step (i : input) (ended : bool) (pc : run_pc) (ts : gmap nat thread) (s : shared)
    : option (run_pc * option nat) :=
  match pc, i with
  | RSelect t, IGo =>
    match served ts t with
    | Some (Some e) => Some (RAwait (RunServe e), None)
    | Some None => Some (RElsewhere, None)
    | None => None
    end
  | RSelect t, ISpawn u => if ended then Some (RShut t u, Some u) else None
  | RElsewhere, IGo => if shutdownDone s then Some (RReturned RunNil, None) else None
  | RElsewhere, ISpawn u => if ended then Some (RShutElsewhere u, Some u) else None
  | RShutElsewhere u, IGo =>
    match shut ts u with
    | Some r => Some (RAwait (join_results r.1 r.2 None), None)
    | None => None
    end
  | RShut t u, IGo =>
    match shut ts u, served ts t with
    | Some r, Some x => Some (RAwait (join_results r.1 r.2 x), None)
    | _, _ => None
    end
  | RAwait r, IGo => Some (if hooksStarted s then RAwaitHooks r else RReturned r, None)
  | RAwaitHooks r, IGo => if shutdownDone s then Some (RReturned r, None) else None
  | _, _ => None
  end.

(** Everything that can happen: a new call of the program's, a thread's step, a
    connection's event, a ctx that ends, and time. *)
Inductive action : Type :=
| ACallServe (t l : nat)
| ACallShutdown (t : nat)
| ACallRun (t s l : nat)
| AStep (t : nat) (i : input)
| AConn (x : nat) (e : conn_event)
| AEnd (t : nat)
| AAdvance (d : Z).

Definition fresh (t : nat) (w : world) : bool := bool_decide (threads w !! t = None).

Definition step_thread (c : config) (t : nat) (i : input) (w : world) : option world :=
  match threads w !! t with
  | Some (TServe l pc) =>
    r ← serve_step c i l pc (sh w); Some (mkWorld r.2 (<[t := TServe l r.1]> (threads w)))
  | Some (TShutdown ended l pc) =>
    r ← shut_step c i ended l pc (sh w);
    Some (mkWorld r.2 (<[t := TShutdown ended r.1.1 r.1.2]> (threads w)))
  | Some (TRun ended pc) =>
    r ← run_step i ended pc (threads w) (sh w);
    match r.2 with
    | None => Some (mkWorld (sh w) (<[t := TRun ended r.1]> (threads w)))
    | Some u =>
      if fresh u w
      then Some (mkWorld (sh w) (<[u := TShutdown false None HStart]> (<[t := TRun ended r.1]> (threads w))))
      else None
    end
  | None => None
  end.

Definition act (c : config) (a : action) (w : world) : option world :=
  match a with
  | ACallServe t l =>
    if fresh t w then Some (mkWorld (sh w) (<[t := TServe l SStart]> (threads w))) else None
  | ACallShutdown t =>
    if fresh t w then Some (mkWorld (sh w) (<[t := TShutdown false None HStart]> (threads w))) else None
  | ACallRun t s l =>
    if fresh t w && fresh s w && negb (bool_decide (t = s))
    then Some (mkWorld (sh w) (<[s := TServe l SStart]> (<[t := TRun false (RSelect s)]> (threads w))))
    else None
  | AStep t i => step_thread c t i w
  | AConn x e => Some (mkWorld (connState x e (sh w)) (threads w))
  | AEnd t =>
    match threads w !! t with
    | Some (TShutdown _ l pc) => Some (mkWorld (sh w) (<[t := TShutdown true l pc]> (threads w)))
    | Some (TRun _ pc) => Some (mkWorld (sh w) (<[t := TRun true pc]> (threads w)))
    | _ => None
    end
  | AAdvance d => if (0 <=? d)%Z then Some (mkWorld (advance d (sh w)) (threads w)) else None
  end.

Fixpoint acts (c : config) (l : list action) (w : world) : option world :=
  match l with
  | [] => Some w
  | a :: l' => act c a w ≫= acts c l'
  end.

(** [Run] and [RunContext] up to the call they make on the bound listener; the bind
    is the operating system's. *)
Inductive begun : Type := BindFailed (e : E) | Calls (a : action).

Definition Run (t : nat) (bind : result E nat) : begun :=
  match bind with Err e => BindFailed e | Ok l => Calls (ACallServe t l) end.

Definition RunContext (t s : nat) (grace : Z) (bind : result E nat) : outcome bytes begun :=
  if (grace <? 0)%Z then Panic (bs "rice: RunContext: grace is negative")
  else Ret match bind with Err e => BindFailed e | Ok l => Calls (ACallRun t s l) end.

Definition new_world : world := mkWorld new_shared ∅.

Definition reachable (c : config) (w : world) : Prop := ∃ l, acts c l new_world = Some w.

(** [Ready] and [Addr]. *)
Definition Ready (w : world) : bool := ready (sh w).
Definition Addr (w : world) : option nat := ln (sh w).
End life.

Arguments act : simpl never.

(** ** The invariant

    What a thread knows survives the others' steps: the facts below only grow, and
    the fields of the hooks change only under the semaphore. *)
Section invariant.
Context {E : Type} (c : config).
Local Abbreviation thread := (@thread E).
Local Abbreviation shut_pc := (@shut_pc E).
Local Abbreviation serve_pc := (@serve_pc E).
Local Abbreviation world := (@world E).

Record rely (s s' : shared) : Prop := {
  r_closed : closed s = true → closed s' = true;
  r_drained : drained s = true → drained s' = true ∧ drainEnd s' = drainEnd s;
  r_now : (now s <= now s')%Z;
  r_force : forceClosed s = true → forceClosed s' = true ∧ conns s' ⊆ conns s;
  r_swept : closed_conns s ⊆ closed_conns s';
  r_base : baseCancelled s = true → baseCancelled s' = true;
  r_streams : streamsCancelled s = true → streamsCancelled s' = true;
  r_once : onceRun s = true → onceRun s' = true;
  r_done : shutdownDone s = true → shutdownDone s' = true;
}.

Definition same_hooks (s s' : shared) : Prop :=
  hooks_run s' = hooks_run s ∧ onceRun s' = onceRun s ∧ shutdownDone s' = shutdownDone s.

(** A [Serve] that has claimed the App, and a [Shutdown] that holds the turn. *)
Definition active (pc : serve_pc) : bool :=
  match pc with SStart | SReturned _ => false | _ => true end.

Definition holds (pc : shut_pc) : bool :=
  match pc with
  | HStart | HCancelStreams | HDrain | HWait | HTurn | HTurn2 | HReturned _ _ _ => false
  | HForce turn | HCancelBase turn _ | HClose turn _ => turn
  | _ => true
  end.

Definition past_drain (pc : shut_pc) : bool :=
  match pc with HStart | HCancelStreams | HDrain => false | _ => true end.

Definition past_wait (pc : shut_pc) : bool := past_drain pc && match pc with HWait => false | _ => true end.

(** Every connection tracked is closed or still in the list to close. *)
Definition swept (s : shared) (rest : list nat) : Prop :=
  forceClosed s = true ∧ ∀ x, x ∈ conns s → x ∈ closed_conns s ∨ x ∈ rest.

Definition all_hooks (s : shared) : Prop := hooks_run s = rev (onShutdown c).

(** What a [Shutdown] call knows of its error and of the sweep. *)
Definition error_ok (s : shared) (e : option shutdown_error) : Prop :=
  e = Some ShutdownTimeout → swept s [] ∧ baseCancelled s = true ∧ streamsCancelled s = true.

Definition sweep_ok (s : shared) (pc : shut_pc) : Prop :=
  match pc with
  | HCancelBase _ rest => swept s rest
  | HClose _ rest => swept s rest ∧ baseCancelled s = true ∧ streamsCancelled s = true
  | HOnce e | HHook e _ _ | HRelease e _ | HReturned _ e _ => error_ok s e
  | _ => True
  end.

(** What it knows of the hooks. *)
Definition hooks_ok (s : shared) (pc : shut_pc) : Prop :=
  match pc with
  | HHook _ rest _ =>
    onceRun s = true ∧ shutdownDone s = false ∧ hooks_run s ++ rest = rev (onShutdown c)
  | HRelease _ _ => shutdownDone s = true
  | HReturned true _ _ => shutdownDone s = true
  | HReturned false e _ => e = Some ShutdownTimeout
  | _ => holds pc = true → onceRun s = true → shutdownDone s = true
  end.

Record shut_ok (s : shared) (ended : bool) (pc : shut_pc) : Prop := {
  o_closed : pc ≠ HStart → closed s = true;
  o_drained : past_drain pc = true → drained s = true;
  o_waited : past_wait pc = true → ∀ t, drainEnd s = Some t → (t <= now s)%Z ∨ ended = true;
  o_sweep : sweep_ok s pc;
  o_hooks : hooks_ok s pc;
}.

Definition run_ok (s : shared) (pc : @run_pc E) : Prop :=
  match pc with
  | RAwait RunNil | RAwaitHooks RunNil | RReturned RunNil => shutdownDone s = true
  | _ => True
  end.

Definition thread_ok (s : shared) (th : thread) : Prop :=
  match th with
  | TServe _ _ => True
  | TShutdown ended _ pc => shut_ok s ended pc
  | TRun _ pc => run_ok s pc
  end.

Definition is_active (th : thread) : bool := match th with TServe _ pc => active pc | _ => false end.
Definition is_holder (th : thread) : bool := match th with TShutdown _ _ pc => holds pc | _ => false end.

(** At most one thread of a kind, and only while its flag is set. *)
Definition exclusive (P : thread → bool) (flag : bool) (ts : gmap nat thread) : Prop :=
  ∀ t th, ts !! t = Some th → P th = true →
    flag = true ∧ ∀ t' th', ts !! t' = Some th' → P th' = true → t' = t.

(** The facts about the hooks that need no thread. *)
Record hooks_inv (s : shared) : Prop := {
  h_free : sem s = false → onceRun s = true → shutdownDone s = true;
  h_prefix : hooks_run s `prefix_of` rev (onShutdown c);
  h_fresh : onceRun s = false → hooks_run s = [] ∧ shutdownDone s = false;
  h_all : shutdownDone s = true → all_hooks s;
}.

Definition drain_inv (s : shared) : Prop :=
  drained s = draining s ∧ (drained s = true → ready s = false ∧ closed s = true).

Record inv (w : world) : Prop := {
  v_threads : ∀ t th, threads w !! t = Some th → thread_ok (sh w) th;
  v_serve : exclusive is_active (serving (sh w)) (threads w);
  v_turn : exclusive is_holder (sem (sh w)) (threads w);
  v_drain : drain_inv (sh w);
  v_hooks : hooks_inv (sh w);
}.

(** ** Lemmas *)

Ltac split_drain :=
  match goal with
  | |- context [start_drain _ ?x] => unfold start_drain; destruct (drained x) eqn:?
  | _ => idtac
  end.

Ltac solve_rely :=
  split; cbn; intros; split_and?; first [assumption | reflexivity | congruence | lia | set_solver].

Lemma rely_refl s : rely s s.
Proof. solve_rely. Qed.

Lemma swept_rely s s' rest : rely s s' → swept s rest → swept s' rest.
Proof.
  intros [_ _ _ Hf Hc _ _ _ _] [Hfs Hx]. destruct (Hf Hfs) as [Hf' Hsub]. split; [done|].
  intros x Hin. destruct (Hx x); [set_solver|left; set_solver|by right].
Qed.

Lemma error_rely s s' e : rely s s' → error_ok s e → error_ok s' e.
Proof.
  intros Hr He Ht. destruct (He Ht) as (? & ? & ?).
  split_and!; [by eapply swept_rely|by eapply r_base|by eapply r_streams].
Qed.

Lemma sweep_rely s s' pc : rely s s' → sweep_ok s pc → sweep_ok s' pc.
Proof.
  intros Hr. destruct pc; cbn; try done; try by apply error_rely.
  - by apply swept_rely.
  - intros (? & ? & ?). split_and!; [by eapply swept_rely|by eapply r_base|by eapply r_streams].
Qed.

(** Another thread's step leaves what a Shutdown knows. *)
Lemma shut_rely s s' ended pc : rely s s' → (holds pc = true → same_hooks s s') →
  shut_ok s ended pc → shut_ok s' ended pc.
Proof.
  intros Hr Hh [H1 H2 H3 H4 H5]. split.
  - intros Hpc. by eapply r_closed, H1.
  - intros Hpc. by eapply (r_drained _ _ Hr), H2.
  - intros Hpc t Ht. assert (past_drain pc = true) as Hd by (by apply andb_true_iff in Hpc as []).
    destruct (r_drained _ _ Hr (H2 Hd)) as [_ He]. rewrite He in Ht.
    pose proof (r_now _ _ Hr). destruct (H3 Hpc t Ht); [left; lia|by right].
  - by eapply sweep_rely.
  - destruct pc as [| | | | | | |?| |? ?|turn|turn ?|turn ?| | | |turn ? ?]; cbn in *; try done;
      try (destruct (Hh eq_refl) as (E1 & E2 & E3); rewrite ?E1, ?E2, ?E3; exact H5);
      try (destruct turn; [|exact H5 || (intros [=])]);
      try (destruct (Hh eq_refl) as (E1 & E2 & E3); rewrite ?E1, ?E2, ?E3; exact H5).
    by apply (r_done _ _ Hr).
Qed.

Lemma run_rely s s' pc : rely s s' → run_ok s pc → run_ok s' pc.
Proof. intros Hr. destruct pc as [| | | |[]|[]|[]]; cbn; try done; apply (r_done _ _ Hr). Qed.

Lemma thread_rely s s' th : rely s s' → (is_holder th = true → same_hooks s s') →
  thread_ok s th → thread_ok s' th.
Proof. destruct th; cbn; [done|apply shut_rely|intros; by eapply run_rely]. Qed.

(** Replacing or adding a thread keeps exclusion when the new one has the right. *)
Lemma exclusive_insert P flag flag' ts t th :
  exclusive P flag ts →
  (P th = true → flag' = true ∧
     (∀ t' th', ts !! t' = Some th' → P th' = true → t' = t)) →
  (P th = false → flag' = flag ∨ ∀ t' th', ts !! t' = Some th' → P th' = true → t' = t) →
  exclusive P flag' (<[t := th]> ts).
Proof.
  intros Hex Hin Hout t1 th1 H1 HP1.
  assert (∀ t' th', <[t:=th]> ts !! t' = Some th' → t' = t ∧ th' = th ∨ t' ≠ t ∧ ts !! t' = Some th') as Hl.
  { intros t' th' Hlk. apply lookup_insert_Some in Hlk as [[-> ->]|[? ?]]; auto. }
  destruct (Hl _ _ H1) as [[-> ->]|[Hne Ht1]].
  - destruct (Hin HP1) as [Hf Hu]. split; [done|]. intros t' th' Ht' HP'.
    destruct (Hl _ _ Ht') as [[-> _]|[_ Hlk]]; [done|]. by eapply Hu.
  - destruct (Hex _ _ Ht1 HP1) as [Hf Hu]. destruct (P th) eqn:HPth.
    { destruct (Hin eq_refl) as [_ Hu']. destruct (Hne (Hu' _ _ Ht1 HP1)). }
    destruct (Hout eq_refl) as [->|Hu']; [|destruct (Hne (Hu' _ _ Ht1 HP1))].
    split; [done|]. intros t' th' Ht' HP'. destruct (Hl _ _ Ht') as [[-> ->]|[_ Hlk]]; [congruence|].
    by eapply Hu.
Qed.

(** Every case of a step that can be taken. *)
Ltac step_cases H :=
  repeat match type of H with
         | match ?x with _ => _ end = _ => let Hx := fresh "Hx" in destruct x eqn:Hx; cbn in H
         | Some (_, if ?x then _ else _, _) = _ => let Hx := fresh "Hx" in destruct x eqn:Hx; cbn in H
         end;
  simplify_eq.

Lemma serve_step_rely (i : @input E) l pc s pc' s' : serve_step c i l pc s = Some (pc', s') →
  rely s s' ∧ same_hooks s s' ∧ sem s' = sem s ∧ drained s' = drained s ∧ draining s' = draining s ∧
  closed s' = closed s ∧ (ready s' = true → ready s = true ∨ closed s = false).
Proof.
  intros H. destruct pc, i; cbn in H; step_cases H;
    (split_and!; [solve_rely|done|done|done|done|done|cbn; auto; done]).
Qed.

Lemma serve_step_owner (i : @input E) l pc s pc' s' : serve_step c i l pc s = Some (pc', s') →
  (active pc' = true → serving s' = true ∧ (active pc = true ∨ serving s = false) ∨
                       active pc = true ∧ serving s' = serving s) ∧
  (active pc' = false → serving s' = serving s ∨ active pc = true).
Proof. intros H. destruct pc, i; cbn in H; step_cases H; cbn; auto. Qed.

Lemma shut_step_rely (i : @input E) e l pc s l' pc' s' : shut_step c i e l pc s = Some (l', pc', s') →
  rely s s' ∧ (holds pc = false → same_hooks s s') ∧ serving s' = serving s.
Proof.
  intros H. destruct pc, i; cbn in H; step_cases H;
    split_drain; (split_and!; [solve_rely|done|done]).
Qed.

Lemma shut_step_owner (i : @input E) e l pc s l' pc' s' : shut_step c i e l pc s = Some (l', pc', s') →
  (holds pc' = true → holds pc = true ∧ sem s' = sem s ∨ sem s = false ∧ sem s' = true) ∧
  (holds pc' = false → sem s' = sem s ∨ holds pc = true).
Proof.
  intros H. destruct pc, i; cbn in H; step_cases H;
    split_drain; cbn; split; intros; auto; try congruence.
Qed.

Lemma shut_step_hooks (i : @input E) e l pc s l' pc' s' : shut_step c i e l pc s = Some (l', pc', s') →
  shut_ok s e pc → (holds pc = true → sem s = true) → hooks_inv s → hooks_ok s' pc' ∧ hooks_inv s'.
Proof.
  intros H [_ _ _ _ Ho] Hs [Hf Hp Hn Ha]. destruct pc, i; cbn in H; step_cases H;
    split_drain; cbn in *;
    (split; [|split; cbn]); try assumption; try done; try (intros; intuition congruence);
    try (destruct turn; [auto|done]).
  - destruct (Hn eq_refl) as [Hr Hd]. by rewrite Hr.
  - destruct Ho as (_ & _ & Ho). intros _. unfold all_hooks. cbn. by rewrite <-Ho, app_nil_r.
  - destruct Ho as (? & ? & Ho). by rewrite <-app_assoc.
  - destruct Ho as (_ & _ & Ho). exists l0. by rewrite <-app_assoc.
Qed.

Lemma shut_step_sweep (i : @input E) e l pc s l' pc' s' : shut_step c i e l pc s = Some (l', pc', s') →
  sweep_ok s pc → sweep_ok s' pc'.
Proof.
  intros H Ho. destruct pc, i; cbn in H; step_cases H; cbn in *; try done; try exact Ho.
  - by destruct failed.
  - split; [done|]. intros x Hx. right. by apply elem_of_elements.
  - by intros _.
  - destruct Ho as ([Hf Hs] & Hb). split; [|exact Hb]. split; [done|]. cbn. intros x Hx.
    destruct (Hs x Hx) as [|[->|]%elem_of_cons]; set_solver.
  - by intros _.
  - destruct Ho as ([Hf Hs] & Hb). split; [|exact Hb]. split; [done|]. cbn. intros x Hx.
    destruct (Hs x Hx) as [|[->|]%elem_of_cons]; set_solver.
Qed.

Lemma shut_step_ok (i : @input E) e l pc s l' pc' s' : shut_step c i e l pc s = Some (l', pc', s') →
  shut_ok s e pc → (holds pc = true → sem s = true) → hooks_inv s → shut_ok s' e pc'.
Proof.
  intros H Hok Hs Hh. pose proof (shut_step_rely _ _ _ _ _ _ _ _ H) as (Hr & _ & _).
  split; [| | |eapply shut_step_sweep, Hok; exact H|by eapply shut_step_hooks].
  - intros _. clear -H Hok. destruct Hok as [Hc _ _ _ _].
    destruct pc, i; cbn in H; step_cases H; split_drain; cbn in *; first [done|by apply Hc].
  - clear -H Hok. destruct Hok as [_ Hd _ _ _].
    destruct pc, i; cbn in H; step_cases H; split_drain; cbn in *; first [done|exact Hd].
  - clear -H Hok. destruct Hok as [_ _ Hw _ _].
    destruct pc, i; cbn in H; step_cases H; split_drain; cbn in *; try done; try exact Hw.
    + intros _ t Ht. rewrite Hx in Ht. injection Ht as <-. apply orb_true_iff in Hx0 as [?%Z.leb_le|]; auto.
    + intros _ t Ht. congruence.
Qed.

Lemma shut_step_drain (i : @input E) e l pc s l' pc' s' : shut_step c i e l pc s = Some (l', pc', s') →
  shut_ok s e pc → drain_inv s → drain_inv s'.
Proof.
  intros H [Hc _ _ _ _] [Hd Hr]. destruct pc, i; cbn in H; step_cases H; split_drain; unfold drain_inv; cbn in *;
    try (split; [assumption|]); auto.
  - intros Hdr. by destruct (Hr Hdr).
  - rewrite Heqb. exact (conj Hd Hr).
Qed.

(** One thread replaced or added, and what it did to the shared state. *)
Lemma inv_update w s' t th : inv w →
  rely (sh w) s' →
  (∀ t' th', t' ≠ t → threads w !! t' = Some th' → is_holder th' = true → same_hooks (sh w) s') →
  thread_ok s' th →
  exclusive is_active (serving s') (<[t := th]> (threads w)) →
  exclusive is_holder (sem s') (<[t := th]> (threads w)) →
  drain_inv s' → hooks_inv s' →
  inv (mkWorld s' (<[t := th]> (threads w))).
Proof.
  intros [Hth _ _ _ _] Hr Hh Hok Ha Hs Hd Hk. split; [|done..]. cbn [threads sh].
  intros t' th' Ht'. apply lookup_insert_Some in Ht' as [[-> ->]|[Hne Ht']]; [done|].
  eapply thread_rely; [exact Hr| |by eapply Hth]. intros Hh'. by eapply (Hh t').
Qed.

(** A thread that is neither serving nor holding the turn, before and after. *)
Lemma exclusive_idle (P : thread → bool) flag ts t th : exclusive P flag ts → P th = false →
  exclusive P flag (<[t := th]> ts).
Proof. intros Hex Hp. eapply exclusive_insert; [exact Hex|congruence|by left]. Qed.

Lemma inv_idle w t th : inv w → thread_ok (sh w) th → is_active th = false → is_holder th = false →
  inv (mkWorld (sh w) (<[t := th]> (threads w))).
Proof.
  intros Hi Hok Ha Hh. pose proof Hi as [_ Hs Ht Hd Hk].
  apply inv_update; [done|apply rely_refl|done|done|by apply exclusive_idle|by apply exclusive_idle|done|done].
Qed.

Lemma inv_shared w s' : inv w → rely (sh w) s' → same_hooks (sh w) s' → serving s' = serving (sh w) →
  sem s' = sem (sh w) → drain_inv s' → inv (mkWorld s' (threads w)).
Proof.
  intros [Hth Hs Ht Hd [Hf Hp Hn Ha]] Hr Hh Es Et Hd'. pose proof Hh as (E1 & E2 & E3).
  split; cbn [threads sh]; [|by rewrite Es|by rewrite Et|done|].
  - intros t th Hlk. eapply thread_rely; [exact Hr|done|by eapply Hth].
  - split; unfold all_hooks; rewrite ?Et, ?E1, ?E2, ?E3; done.
Qed.

Lemma start_ok s : shut_ok s false HStart.
Proof. split; done. Qed.

Lemma shut_clean w u : inv w → shut (threads w) u = Some (None, []) → shutdownDone (sh w) = true.
Proof.
  intros Hi. unfold shut. destruct (threads w !! u) as [[|ended l []|]|] eqn:Et; try done.
  intros [= -> ->]. destruct (v_threads _ Hi _ _ Et) as [_ _ _ _ Ho]. cbn in Ho.
  by destruct turn.
Qed.

Lemma run_step_ok (i : @input E) ended pc w pc' sp : inv w →
  run_step i ended pc (threads w) (sh w) = Some (pc', sp) → run_ok (sh w) pc → run_ok (sh w) pc'.
Proof.
  intros Hi H Hok.
  assert (∀ u r x, shut (threads w) u = Some r → run_ok (sh w) (RAwait (join_results r.1 r.2 x))) as Hj.
  { intros u [e errs] x Hu. cbn. destruct e, errs, x; try done. by eapply shut_clean. }
  destruct pc, i; cbn in H; step_cases H; cbn in *; try done; try (by eapply (Hj _ _ _ Hx)).
  by destruct (hooksStarted (sh w)).
Qed.

Lemma shut_thread_inv (i : @input E) w t ended l pc l' pc' s' : inv w →
  threads w !! t = Some (TShutdown ended l pc) →
  shut_step c i ended l pc (sh w) = Some (l', pc', s') →
  inv (mkWorld s' (<[t := TShutdown ended l' pc']> (threads w))).
Proof.
  intros Hi Ht H. pose proof Hi as [Hth Hs Htn Hd Hk].
  pose proof (Hth _ _ Ht) as Hok. cbn in Hok.
  assert (holds pc = true → sem (sh w) = true) as Hsem by (intros Hp; by destruct (Htn _ _ Ht Hp)).
  destruct (shut_step_rely _ _ _ _ _ _ _ _ H) as (Hr & Hsame & Hserv).
  destruct (shut_step_owner _ _ _ _ _ _ _ _ H) as [Hown1 Hown2].
  apply inv_update; [done|done| | | | | |].
  - intros t' th' Hne Ht' Hh. apply Hsame. destruct (holds pc) eqn:Ep; [|done].
    destruct (Htn _ _ Ht Ep) as [_ Hu]. by destruct (Hne (Hu _ _ Ht' Hh)).
  - by eapply shut_step_ok.
  - eapply exclusive_insert; [exact Hs|done|]. intros _. by left.
  - eapply exclusive_insert; [exact Htn| |]; cbn.
    + intros Hp. destruct (Hown1 Hp) as [[Hold Heq]|[Hfree Heq]].
      * destruct (Htn _ _ Ht Hold) as [Hf Hu]. by rewrite Heq.
      * split; [done|]. intros t' th' Ht' Hh. destruct (Htn _ _ Ht' Hh). congruence.
    + intros Hp. destruct (Hown2 Hp) as [Heq|Hold]; [by left|right].
      by destruct (Htn _ _ Ht Hold) as [_ Hu].
  - by eapply shut_step_drain.
  - by eapply shut_step_hooks.
Qed.

Lemma serve_thread_inv (i : @input E) w t l pc pc' s' : inv w →
  threads w !! t = Some (TServe l pc) → serve_step c i l pc (sh w) = Some (pc', s') →
  inv (mkWorld s' (<[t := TServe l pc']> (threads w))).
Proof.
  intros Hi Ht H. pose proof Hi as [Hth Hs Htn [Hd Hd'] [Hf Hp Hn Ha]].
  destruct (serve_step_rely _ _ _ _ _ _ H) as (Hr & (E1 & E2 & E3) & E4 & E5 & E6 & E7 & Hready).
  destruct (serve_step_owner _ _ _ _ _ _ H) as [Hown1 Hown2].
  apply inv_update; [done|done|done|done| | | |].
  - eapply exclusive_insert; [exact Hs| |]; cbn.
    + intros Hact. destruct (Hown1 Hact) as [[Heq [Hold|Hfree]]|[Hold Heq]].
      * split; [done|]. by destruct (Hs _ _ Ht Hold).
      * split; [done|]. intros t' th' Ht' Hh. destruct (Hs _ _ Ht' Hh). congruence.
      * rewrite Heq. by apply (Hs _ _ Ht).
    + intros Hact. destruct (Hown2 Hact) as [Heq|Hold]; [by left|right].
      by destruct (Hs _ _ Ht Hold).
  - eapply exclusive_insert; [exact Htn|done|]. intros _. by left.
  - split; [congruence|]. rewrite E5, E7. intros Hdr. destruct (Hd' Hdr) as [Hr0 Hc0].
    split; [|done]. destruct (ready s') eqn:Er; [|done]. destruct (Hready eq_refl); congruence.
  - split; unfold all_hooks; rewrite ?E1, ?E2, ?E3, ?E4; done.
Qed.

Lemma run_thread_inv (i : @input E) w t ended pc w' : inv w →
  threads w !! t = Some (TRun ended pc) → step_thread c t i w = Some w' → inv w'.
Proof.
  intros Hi Ht. unfold step_thread. rewrite Ht.
  destruct (run_step i ended pc _ _) as [[pc' sp]|] eqn:Est; [|done]. cbn.
  pose proof (run_step_ok _ _ _ _ _ _ Hi Est (v_threads _ Hi _ _ Ht)) as Hok.
  assert (inv (mkWorld (sh w) (<[t := TRun ended pc']> (threads w)))) as Hi' by by apply inv_idle.
  destruct sp as [u|]; [|by intros [= <-]]. destruct (fresh u w); [|done]. intros [= <-].
  exact (inv_idle _ u (TShutdown false None HStart) Hi' (start_ok (sh w)) eq_refl eq_refl).
Qed.

Lemma act_inv a w w' : inv w → act c a w = Some w' → inv w'.
Proof.
  intros Hi. pose proof Hi as [Hth Hs Htn Hd Hk]. destruct a as [t l|t|t s l|t i|x e|t|d]; cbn [act].
  - unfold act. destruct (fresh t w); [|done]. intros [= <-]. by apply inv_idle.
  - unfold act. destruct (fresh t w); [|done]. intros [= <-]. apply inv_idle; [done|apply start_ok|done|done].
  - unfold act. destruct (_ && _); [|done]. intros [= <-].
    assert (inv (mkWorld (sh w) (<[t := TRun false (RSelect s)]> (threads w)))) as Hi' by by apply inv_idle.
    by apply (inv_idle _ s _ Hi').
  - unfold act. destruct (threads w !! t) as [[l pc|ended l pc|ended pc]|] eqn:Et.
    + unfold step_thread. rewrite Et. destruct (serve_step c i l pc (sh w)) as [[pc' s']|] eqn:Est; [|done].
      cbn. intros [= <-]. by eapply serve_thread_inv.
    + unfold step_thread. rewrite Et.
      destruct (shut_step c i ended l pc (sh w)) as [[[l' pc'] s']|] eqn:Est; [|done].
      cbn. intros [= <-]. by eapply shut_thread_inv.
    + by eapply run_thread_inv.
    + unfold step_thread. by rewrite Et.
  - unfold act. intros [= <-]. assert (drain_inv (connState x e (sh w))) as Hd'
      by (destruct e; cbn; try done; by destruct (forceClosed (sh w))).
    destruct e; try (by destruct w); cbn in *;
      try destruct (forceClosed (sh w)) eqn:Ef; apply inv_shared; try done; solve_rely.
  - unfold act. destruct (threads w !! t) as [[l pc|ended l pc|ended pc]|] eqn:Et; try done; intros [= <-].
    + apply inv_update; [done|apply rely_refl|done| | | |done|done].
      * destruct (Hth _ _ Et) as [H1 H2 H3 H4 H5]. split; [done|done| |done|done].
        intros _ ? _. by right.
      * by apply exclusive_idle.
      * eapply exclusive_insert; [exact Htn| |by left]. intros Hp. exact (Htn _ _ Et Hp).
    + apply inv_idle; [done|exact (Hth _ _ Et)|done|done].
  - unfold act. destruct (0 <=? d)%Z eqn:Ed; [|done]. apply Z.leb_le in Ed. intros [= <-].
    apply inv_shared; try done. solve_rely.
Qed.

Lemma acts_inv l : ∀ w w', inv w → acts c l w = Some w' → inv w'.
Proof.
  induction l as [|a l IH]; intros w w' Hi; cbn; [by intros [= <-]|].
  destruct (act c a w) as [w1|] eqn:Est; [|done]. intros Hw. eapply IH; [|exact Hw]. by eapply act_inv.
Qed.

Lemma new_inv : inv new_world.
Proof.
  split; cbn; try done; try (by intros t th [=]).
  split; cbn; try done. apply prefix_nil.
Qed.

Lemma reachable_inv w : reachable c w → inv w.
Proof. intros [l Hl]. eapply acts_inv; [apply new_inv|exact Hl]. Qed.

(** What only grows does so over any run. *)
Lemma act_rely a (w w' : world) : act c a w = Some w' → rely (sh w) (sh w').
Proof.
  destruct a as [t l|t|t s l|t i|x e|t|d]; unfold act.
  - destruct (fresh t w); [|done]. intros [= <-]. apply rely_refl.
  - destruct (fresh t w); [|done]. intros [= <-]. apply rely_refl.
  - destruct (_ && _); [|done]. intros [= <-]. apply rely_refl.
  - unfold step_thread. destruct (threads w !! t) as [[l pc|ended l pc|ended pc]|]; [| | |done].
    + destruct (serve_step c i l pc (sh w)) as [[pc' s']|] eqn:Est; [|done]. cbn. intros [= <-].
      by apply (serve_step_rely _ _ _ _ _ _ Est).
    + destruct (shut_step c i ended l pc (sh w)) as [[[l' pc'] s']|] eqn:Est; [|done]. cbn. intros [= <-].
      by apply (shut_step_rely _ _ _ _ _ _ _ _ Est).
    + destruct (run_step i ended pc _ _) as [[pc' [u|]]|]; [| |done]; cbn; [destruct (fresh u w); [|done]|];
        intros [= <-]; apply rely_refl.
  - intros [= <-]. destruct e; cbn; try destruct (forceClosed (sh w)) eqn:Ef; solve_rely.
  - destruct (threads w !! t) as [[l pc|ended l pc|ended pc]|]; try done; intros [= <-]; apply rely_refl.
  - destruct (0 <=? d)%Z eqn:Ed; [|done]. apply Z.leb_le in Ed. intros [= <-]. solve_rely.
Qed.

Lemma rely_trans s1 s2 s3 : rely s1 s2 → rely s2 s3 → rely s1 s3.
Proof.
  intros [A1 A2 A3 A4 A5 A6 A7 A8 A9] [B1 B2 B3 B4 B5 B6 B7 B8 B9].
  split; [by auto| |lia| |by etrans|by auto|by auto|by auto|by auto].
  - intros Hd. destruct (A2 Hd) as [Hd2 He2]. destruct (B2 Hd2) as [Hd3 He3]. split; congruence.
  - intros Hf. destruct (A4 Hf) as [Hf2 Hc2]. destruct (B4 Hf2) as [Hf3 Hc3]. split; [done|by etrans].
Qed.

Lemma acts_rely l : ∀ (w : world) w', acts c l w = Some w' → rely (sh w) (sh w').
Proof.
  induction l as [|a l IH]; intros w w'; cbn; [intros [= <-]; apply rely_refl|].
  destruct (act c a w) as [w1|] eqn:Est; [|done]. intros Hw.
  eapply rely_trans; [by eapply act_rely|by eapply IH].
Qed.

(** Once closed, no Serve starts to accept. *)
Definition listens (w : world) (t l : nat) : Prop := threads w !! t = Some (TServe l SListen).

Lemma act_listens a (w w' : world) t l : act c a w = Some w' → closed (sh w) = true → listens w' t l → listens w t l.
Proof.
  unfold listens. destruct a as [t' l'|t'|t' s' l'|t' i|x e|t'|d]; unfold act.
  - destruct (fresh t' w); [|done]. intros [= <-] _; cbn [threads]; intros [[_ [=]]|[_ ?]]%lookup_insert_Some. done.
  - destruct (fresh t' w); [|done]. intros [= <-] _; cbn [threads]; intros [[_ [=]]|[_ ?]]%lookup_insert_Some. done.
  - destruct (_ && _); [|done].
    intros [= <-] _; cbn [threads]; intros [[_ [=]]|[_ [[_ [=]]|[_ ?]]%lookup_insert_Some]]%lookup_insert_Some. done.
  - unfold step_thread. destruct (threads w !! t') as [[l' pc|ended l' pc|ended pc]|]; [| | |done].
    + destruct (serve_step c i l' pc (sh w)) as [[pc' s']|] eqn:Est; [|done]. cbn.
      intros [= <-] Hc; cbn [threads]; intros [[-> [= -> ->]]|[_ ?]]%lookup_insert_Some; [|done].
      destruct pc, i; cbn in Est; rewrite ?Hc in Est; step_cases Est.
    + destruct (shut_step c i ended l' pc (sh w)) as [[[l'' pc'] s']|]; [|done]. cbn.
      intros [= <-] _; cbn [threads]; intros [[_ [=]]|[_ ?]]%lookup_insert_Some. done.
    + destruct (run_step i ended pc _ _) as [[pc' [u|]]|]; [| |done]; cbn; [destruct (fresh u w); [|done]|].
      * intros [= <-] _; cbn [threads]; intros [[_ [=]]|[_ [[_ [=]]|[_ ?]]%lookup_insert_Some]]%lookup_insert_Some. done.
      * intros [= <-] _; cbn [threads]; intros [[_ [=]]|[_ ?]]%lookup_insert_Some. done.
  - by intros [= <-].
  - destruct (threads w !! t') as [[l' pc|ended l' pc|ended pc]|]; try done;
      intros [= <-] _; cbn [threads]; intros [[_ [=]]|[_ ?]]%lookup_insert_Some; done.
  - destruct (0 <=? d)%Z; [|done]. by intros [= <-].
Qed.

Lemma acts_listens ls : ∀ (w : world) w' t l, acts c ls w = Some w' → closed (sh w) = true → listens w' t l → listens w t l.
Proof.
  induction ls as [|a ls IH]; intros w w' t l; cbn; [by intros [= <-]|].
  destruct (act c a w) as [w1|] eqn:Est; [|done]. intros Hw Hc Hl.
  eapply act_listens; [exact Est|done|]. eapply IH; [exact Hw| |exact Hl].
  by apply (r_closed _ _ (act_rely _ _ _ Est)).
Qed.

(** How many steps a [Shutdown] has left when nothing makes it wait. *)
Definition rank (pc : shut_pc) (s : shared) : nat :=
  let n := length (elements (conns s)) in
  let m := length (onShutdown c) in
  match pc with
  | HStart => 20 + n + m | HCancelStreams => 19 + n + m | HDrain => 18 + n + m | HWait => 17 + n + m
  | HTurn => 16 + n + m | HTurn2 => 15 + n + m | HSrv1 => 14 + n + m | HCloseLn _ => 13 + n + m
  | HSrv2 => 12 + n + m | HCheck _ _ => 11 + n + m | HForce _ => 10 + n + m
  | HCancelBase _ rest => 9 + length rest + m | HClose _ rest => 8 + length rest + m
  | HOnce _ => 7 + m | HHook _ rest _ => 2 + length rest | HRelease _ _ => 1 | HReturned _ _ _ => 0
  end.

Definition returned (pc : shut_pc) : bool := match pc with HReturned _ _ _ => true | _ => false end.

Lemma shut_progress l pc s : returned pc = false →
  ∃ i l' pc' s', shut_step c i true l pc s = Some (l', pc', s') ∧ rank pc' s' < rank pc s.
Proof.
  intros Hr.
  destruct pc as [| | | | | | |n| |x f|turn|turn rest|turn rest|e|e [|h rest] errs|e errs|]; [..|done].
  - exists IGo. do 3 eexists. split; [reflexivity|]. cbn. lia.
  - exists IGo. do 3 eexists. split; [reflexivity|]. cbn. lia.
  - exists IGo. do 3 eexists. split; [reflexivity|]. unfold start_drain. destruct (drained s); cbn; lia.
  - exists IGo, l, HTurn, s. split; [|cbn; lia]. cbn. destruct (drainEnd s); [|done]. by rewrite orb_true_r.
  - exists IGo. cbn. destruct (sem s); do 3 eexists; (split; [reflexivity|]); cbn; lia.
  - exists IGiveUp. do 3 eexists. split; [reflexivity|]. cbn. lia.
  - exists (ISrv SrvCtx). do 3 eexists. split; [reflexivity|]. cbn. lia.
  - exists IGo. do 3 eexists. split; [reflexivity|]. cbn. lia.
  - exists (ISrv SrvCtx). do 3 eexists. split; [reflexivity|]. cbn. lia.
  - exists IGo. do 3 eexists. split; [reflexivity|]. destruct x; cbn; lia.
  - exists IGo. do 3 eexists. split; [reflexivity|]. cbn. lia.
  - exists IGo. do 3 eexists. split; [reflexivity|]. cbn. lia.
  - exists IGo. destruct rest as [|x rest], turn; do 3 eexists; (split; [reflexivity|]); cbn; lia.
  - exists IGo. cbn. destruct (onceRun s); do 3 eexists; (split; [reflexivity|]); cbn; rewrite ?length_rev; lia.
  - exists IGo. do 3 eexists. split; [reflexivity|]. cbn. lia.
  - exists (IHook None). do 3 eexists. split; [reflexivity|]. cbn. lia.
  - exists IGo. do 3 eexists. split; [reflexivity|]. cbn. lia.
Qed.
End invariant.

(** The step in which a [RunContext] returns is not one in which hooks run. *)
Lemma run_returns {E} c (w w' : @world E) t i ended pc r :
  threads w !! t = Some (TRun ended pc) → (∀ r', pc ≠ RReturned r') →
  act c (AStep t i) w = Some w' → threads w' !! t = Some (TRun ended (RReturned r)) →
  hooksStarted (sh w) = true → shutdownDone (sh w) = true.
Proof.
  intros Ht Hpc Hact Hret Hst. unfold act, step_thread in Hact. rewrite Ht in Hact.
  destruct (run_step i ended pc (threads w) (sh w)) as [[pc' sp]|] eqn:Er; [|done]. cbn in Hact.
  assert (pc' = RReturned r) as ->.
  { destruct sp as [u|].
    - destruct (fresh u w) eqn:Ef; [|done]. injection Hact as <-. cbn in Hret.
      unfold fresh in Ef. apply bool_decide_eq_true in Ef.
      rewrite lookup_insert_ne, lookup_insert_eq in Hret by congruence. congruence.
    - injection Hact as <-. cbn in Hret. rewrite lookup_insert_eq in Hret. congruence. }
  destruct pc, i; cbn in Er; repeat (case_match; simplify_eq/=); done.
Qed.

(** The timeout of [shutdownWithin] is the sum, saturated. *)
Lemma shutdownWithin_total_min d g : (0 <= d <= max_int64)%Z → (0 <= g <= max_int64)%Z →
  shutdownWithin_total d g = Z.min (d + g) max_int64.
Proof.
  unfold shutdownWithin_total, add64, wrap64, max_int64. intros Hd Hg.
  destruct (decide (d + g <= 2 ^ 63 - 1)%Z) as [Hle|Hgt].
  - rewrite Z.mod_small by lia. rewrite (proj2 (Z.ltb_ge _ _)) by lia. lia.
  - assert ((d + g + 2 ^ 63) mod 2 ^ 64 = d + g + 2 ^ 63 - 2 ^ 64)%Z as ->
      by (symmetry; apply (Z.mod_unique _ _ 1); lia).
    rewrite (proj2 (Z.ltb_lt _ _)) by lia. lia.
Qed.

(** A full life for concrete runs: one Serve, one connection, and a Shutdown whose
    ctx ends during the drain. *)
Definition sample_config : config := mkConfig [0] [1; 2] 5.

Definition sample_life : list (@action nat) :=
  [ACallServe 0 7; AStep 0 IGo; AStep 0 (IHook None); AStep 0 IGo; AStep 0 IGo;
   AConn 3 StateNew; ACallShutdown 1] ++ replicate 3 (AStep 1 IGo) ++ [AAdvance 5] ++
  replicate 2 (AStep 1 IGo) ++ [AEnd 1; AStep 1 (ISrv SrvCtx)] ++ replicate 6 (AStep 1 IGo) ++
  [AStep 1 (IHook None); AStep 1 (IHook (Some 9))] ++ replicate 2 (AStep 1 IGo).

(** Its prefixes, and the world after [n] actions. *)
Definition sample_world (n : nat) : @world nat :=
  default new_world (acts sample_config (take n sample_life) new_world).

(** ** Properties *)

(** One server at a time: whatever calls of Serve, Shutdown and RunContext
    overlap, at most one Serve is past its claim on the App, and while the App is
    ready that claim is held. *)
Theorem one_server {E} c (w : @world E) t1 t2 l1 l2 pc1 pc2 (Hw : reachable c w)
    (H1 : threads w !! t1 = Some (TServe l1 pc1)) (H2 : threads w !! t2 = Some (TServe l2 pc2))
    (Ha1 : active pc1 = true) (Ha2 : active pc2 = true) :
  t1 = t2 ∧ serving (sh w) = true.
Proof.
  destruct (v_serve _ _ (reachable_inv _ _ Hw) _ _ H1 Ha1) as [Hs Hu].
  split; [|done]. symmetry. exact (Hu _ _ H2 Ha2).
Qed.

Lemma one_server_witness : (0 : nat) = 0 ∧ serving (sh (sample_world 5)) = true.
Proof.
  apply (one_server sample_config (sample_world 5) 0 0 7 7 SListen SListen);
    [exists (take 5 sample_life)|..]; vm_compute; reflexivity.
Defined.

(** C25. Shutdown is final: once a Shutdown has drained, the App is never ready
    again, every response from then on closes its connection, and no Serve ever
    starts to accept, whatever is called later. *)
Theorem shutdown_is_final {E} c (w w' : @world E) ls t ended l pc (Hw : reachable c w)
    (Ht : threads w !! t = Some (TShutdown ended l pc)) (Hd : past_drain pc = true)
    (Hw' : acts c ls w = Some w') :
  Ready w' = false ∧ draining (sh w') = true ∧ ∀ t' l', listens w' t' l' → listens w t' l'.
Proof.
  pose proof (reachable_inv _ _ Hw) as Hi. pose proof (acts_inv _ _ _ _ Hi Hw') as [_ _ _ [He Hr] _].
  destruct (v_threads _ _ Hi _ _ Ht) as [Hc Hdr _ _ _].
  destruct (r_drained _ _ (acts_rely _ _ _ _ Hw') (Hdr Hd)) as [Hd' _].
  split_and!; [by apply Hr|congruence|]. intros t' l'. eapply acts_listens; [exact Hw'|].
  apply Hc. by intros ->.
Qed.

Lemma shutdown_is_final_witness : Ready (sample_world 25) = false.
Proof.
  refine (proj1 (shutdown_is_final sample_config (sample_world 10) (sample_world 25)
    (drop 10 (take 25 sample_life)) 1 false (Some 7) HWait _ _ eq_refl _));
    [exists (take 10 sample_life)|..]; vm_compute; reflexivity.
Defined.

(** C26. A timed-out Shutdown cut everything off: from its return on, in whatever
    happens later, the handlers' and the streams' contexts are cancelled, every
    connection still tracked has been closed, and one reported now is closed on
    arrival. *)
Theorem timeout_is_final {E} c (w w' : @world E) ls t ended l turn errs (Hw : reachable c w)
    (Ht : threads w !! t = Some (TShutdown ended l (HReturned turn (Some ShutdownTimeout) errs)))
    (Hw' : acts c ls w = Some w') :
  baseCancelled (sh w') = true ∧ streamsCancelled (sh w') = true ∧
  (∀ x, x ∈ conns (sh w') → x ∈ closed_conns (sh w')) ∧
  (∀ x, x ∈ closed_conns (connState x StateNew (sh w')) ∧
        conns (connState x StateNew (sh w')) = conns (sh w')).
Proof.
  destruct (v_threads _ _ (reachable_inv _ _ Hw) _ _ Ht) as [_ _ _ Hs _].
  destruct (error_rely _ _ _ (acts_rely _ _ _ _ Hw') Hs eq_refl) as ([Hf Hx] & Hb & Hst).
  split_and!; [done|done| |].
  - intros x Hin. destruct (Hx x Hin) as [|Hnil]; [done|]. by apply elem_of_nil in Hnil.
  - intros x. cbn. rewrite Hf. cbn. split; [set_solver|done].
Qed.

Lemma timeout_is_final_witness :
  baseCancelled (sh (sample_world 25)) = true ∧ 3 ∈ closed_conns (sh (sample_world 25)).
Proof.
  destruct (timeout_is_final sample_config (sample_world 25) (sample_world 25) []
    1 true (Some 7) true [9]) as (Hb & _ & Hc & _).
  - exists (take 25 sample_life). vm_compute. reflexivity.
  - vm_compute. reflexivity.
  - reflexivity.
  - split; [exact Hb|]. apply Hc. apply (bool_decide_unpack _). vm_compute. exact I.
Defined.

(** C27. The OnShutdown hooks run once, in reverse order: in every state those that
    ran are a prefix of the reversed list, and when a Shutdown that took its turn
    has returned, or a RunContext returned nil, all of them have; and no RunContext
    returns, whatever it returns, while hooks are running. *)
Theorem hooks_once {E} c (w : @world E) (Hw : reachable c w) :
  hooks_run (sh w) `prefix_of` rev (onShutdown c) ∧
  (∀ t ended l e errs, threads w !! t = Some (TShutdown ended l (HReturned true e errs)) →
     hooks_run (sh w) = rev (onShutdown c) ∧ shutdownDone (sh w) = true) ∧
  (∀ t ended, threads w !! t = Some (TRun ended (RReturned RunNil)) →
     hooks_run (sh w) = rev (onShutdown c) ∧ shutdownDone (sh w) = true) ∧
  (∀ t i ended pc r w', threads w !! t = Some (TRun ended pc) → (∀ r', pc ≠ RReturned r') →
     act c (AStep t i) w = Some w' → threads w' !! t = Some (TRun ended (RReturned r)) →
     hooksStarted (sh w) = true → shutdownDone (sh w) = true).
Proof.
  pose proof (reachable_inv _ _ Hw) as [Hth _ _ _ [_ Hp _ Ha]].
  split_and!; [done| | |intros; by eapply run_returns].
  - intros t ended l e errs Ht. destruct (Hth _ _ Ht) as [_ _ _ _ Ho]. cbn in Ho. split; [by apply Ha|done].
  - intros t ended Ht. pose proof (Hth _ _ Ht) as Hr. cbn in Hr. split; [by apply Ha|done].
Qed.

Lemma hooks_once_witness : hooks_run (sh (sample_world 25)) = [2; 1].
Proof.
  destruct (hooks_once sample_config (sample_world 25)) as (_ & Hs & _).
  - exists (take 25 sample_life). vm_compute. reflexivity.
  - destruct (Hs 1 true (Some 7) (Some ShutdownTimeout) [9]) as [Hh _]; [vm_compute; reflexivity|].
    exact Hh.
Defined.

(** The drain delay holds: a Shutdown gets to closing the listener only when the
    moment the first one set has passed, or its own ctx has ended. *)
Theorem drain_waits {E} c (w : @world E) t ended l pc (Hw : reachable c w)
    (Ht : threads w !! t = Some (TShutdown ended l pc)) (Hp : past_wait pc = true) :
  ∀ until, drainEnd (sh w) = Some until → (until <= now (sh w))%Z ∨ ended = true.
Proof.
  destruct (v_threads _ _ (reachable_inv _ _ Hw) _ _ Ht) as [_ _ Hwait _ _]. by apply Hwait.
Qed.

Lemma drain_waits_witness : (5 <= now (sh (sample_world 12)))%Z ∨ false = true.
Proof.
  apply (drain_waits sample_config (sample_world 12) 1 false (Some 7) HTurn);
    [exists (take 12 sample_life)|..]; vm_compute; reflexivity.
Defined.

(** C28. A Shutdown whose ctx has ended waits for no other goroutine: from any state,
    steps of its own alone, with answers fasthttp and the hooks can give, return
    it, however many other Shutdowns hold or want the turn. *)
Theorem shutdown_ends {E} c (w : @world E) t l pc
    (Ht : threads w !! t = Some (TShutdown true l pc)) :
  ∃ ins w', length ins <= rank c pc (sh w) ∧ acts c (map (AStep t) ins) w = Some w' ∧
    ∃ l' turn e errs, threads w' !! t = Some (TShutdown true l' (HReturned turn e errs)).
Proof.
  remember (rank c pc (sh w)) as n eqn:Hn. revert l pc w Hn Ht.
  induction n as [n IH] using lt_wf_ind. intros l pc w -> Ht.
  destruct (returned pc) eqn:Er.
  { exists [], w. destruct pc; try discriminate Er. cbn. split_and!; [lia|done|eauto]. }
  destruct (shut_progress c l pc (sh w) Er) as (i & l' & pc' & s' & Hstep & Hlt).
  set (w1 := mkWorld s' (<[t := TShutdown true l' pc']> (threads w))).
  assert (act c (AStep t i) w = Some w1) as Hact
    by (unfold act, step_thread; by rewrite Ht, Hstep).
  destruct (IH _ Hlt l' pc' w1 eq_refl) as (ins & w' & Hlen & Hrun & Hret);
    [apply lookup_insert_eq|].
  exists (i :: ins), w'. split_and!; [cbn; lia|cbn; rewrite Hact; exact Hrun|exact Hret].
Qed.

Lemma shutdown_ends_witness :
  ∃ ins w', length ins <= 18 ∧ acts sample_config (map (AStep 1) ins) (sample_world 14) = Some w'.
Proof.
  destruct (shutdown_ends sample_config (sample_world 14) 1 (Some 7) HSrv1) as (ins & w' & Hl & Hr & _).
  - vm_compute. reflexivity.
  - exists ins, w'. split; [|exact Hr]. etrans; [exact Hl|]. apply (bool_decide_unpack _). vm_compute. exact I.
Defined.
