(* ===== verification/Middleware.v ===== *)
(** * Middleware

    [src/middleware]: what its middleware share, and [Recover], [Timeout] and
    [RequestID]. A middleware is a program around the next handler; what it reads
    besides the request, such as whether a deadline has passed, is an argument. *)

From S2P Require Import Prelude Bytes Pattern Slice Params Accept Fasthttp Errors Ctx Handler.

Section middleware.
Context `{HA : Any} `{F : Fasthttp} `{HG : AppendGrowth} `{HS : Stored} `{HB : Build}.

(** [c.Header(name)] and [c.SetHeader(k, v)]. *)
Definition peek (name : bytes) : prog bytes :=
  Call (AFctx (λ r, (default [] (head (req_Header name r)), r))).
Definition set_header (k v : bytes) : prog unit := Call (AFctx (λ r, (tt, SetHeader k v r))).
Definition add_header (k v : bytes) : prog unit := Call (AFctx (λ r, (tt, AddHeader k v r))).

(** [Recover]: [stack] is what [debug.Stack] returns. *)
Definition Recover (stack : bytes) : Middleware := λ next,
  Guard next (λ v, Done (Some (PanicError v stack))).

(** [Timeout]: [WithTimeout] derives the context, and [expired] is whether its
    deadline has passed when the chain returns. The deferred [SetContext] runs on a
    panic too. *)
Definition Timeout (WithTimeout : Z → context → context) (baseCtx : context) (expired : bool) (d : Z)
    : outcome bytes Middleware :=
  if (d <=? 0)%Z then Panic (bs "rice: middleware.Timeout: duration must be positive")
  else Ret (λ next : Handler,
    Seq (Call (AContext baseCtx)) (λ prev,
      Seq (Call (ASetContext (Some (WithTimeout d prev)))) (λ _,
        let restore := Call (ASetContext (Some prev)) in
        Guard
          (Seq next (λ e,
             Seq restore (λ _,
               match e with
               | None => Done None
               | Some err =>
                 if negb expired then Done (Some err)
                 else match errors_As is_http err with
                      | Some _ => Done (Some err)
                      | None => Done (Some (HTTPError 503 [] (Some err)))
                      end
               end)))
          (λ v, Seq restore (λ _, PanicNow v))))).

(** [RequestID]: [key] is the package's key and [random] the sixteen bytes. *)
Definition requestIDHeader : bytes := bs "X-Request-Id".

Definition is_id_byte (b : ascii) : bool :=
  is_alnum b || bool_decide (b = "-"%char) || bool_decide (b = "_"%char).

Definition validRequestID (id : bytes) : bool :=
  if bool_decide (id = []) || bool_decide (64 < length id) then false else forallb is_id_byte id.

Definition hex_digit (z : Z) : ascii := nth (Z.to_nat z) (bs "0123456789abcdef") "0"%char.

Definition newRequestID (random : bytes) : bytes :=
  concat (map (λ b, [hex_digit (code b / 16); hex_digit (code b mod 16)]) random).

Definition RequestID `{!Boxed bytes} (key : Key bytes) (random : bytes) : Middleware := λ next,
  Seq (peek requestIDHeader) (λ sent,
    let id := if validRequestID sent then sent else newRequestID random in
    Seq (Call (AKeySet key id)) (λ _,
      Seq (set_header requestIDHeader id) (λ _, next))).

(** ** Lemmas *)

(** A request a handler holds: its Ctx is bound and not poisoned. *)
Definition live_ctx (s : St) : Prop := fctx (the s) = true ∧ ricedebug && poisoned (the s) = false.

Lemma run_seq settle {A B} (p : prog A) (k : A → prog B) s :
  run_with settle (Seq p k) s =
  match run_with settle p s with
  | (Ret a, s') => run_with settle (k a) s'
  | (Panic v, s') => (Panic v, s')
  end.
Proof. reflexivity. Qed.

Lemma check_live s : live_ctx s → check s = (Ret tt, s).
Proof. intros [_ Hp]. unfold check, mbind, go_bind. rewrite get_ctx_run. by rewrite Hp. Qed.

Lemma run_fctx settle {A} (f : RequestCtx → A * RequestCtx) s : live_ctx s →
  run_with settle (Call (AFctx f)) s = (Ret (f (rc s)).1, mkSt (the s) (f (rc s)).2 (funnel s)).
Proof.
  intros Hl. cbn [run_with exec]. unfold with_fctx, mbind, go_bind. rewrite check_live by done.
  unfold deref. rewrite (proj1 Hl). by destruct (f (rc s)).
Qed.

Lemma live_rc s r : live_ctx s → live_ctx (mkSt (the s) r (funnel s)).
Proof. done. Qed.

Lemma run_context settle base s : live_ctx s →
  run_with settle (Call (AContext base)) s = (Ret (default base (ctx (the s))), s).
Proof.
  intros Hl. cbn [run_with exec]. unfold Context_, mbind, go_bind. by rewrite check_live.
Qed.

Lemma run_set_context settle v s : live_ctx s →
  run_with settle (Call (ASetContext (Some v))) s = (Ret tt, mkSt (set_ctx (Some v) (the s)) (rc s) (funnel s)).
Proof. intros Hl. cbn [run_with exec]. unfold SetContext, mbind, go_bind. by rewrite check_live. Qed.

(** [Recover] lets no panic through. *)
Lemma Recover_run stack next eh s :
  run_handler eh (Recover stack next) s =
  match run_handler eh next s with
  | (Ret e, s') => (Ret e, s')
  | (Panic v, s') => (Ret (Some (PanicError v stack)), s')
  end.
Proof.
  unfold run_handler, Recover. cbn [run_with]. unfold go_recover.
  by destruct (run_with _ next s) as [[e|v] s'].
Qed.

(** An id [RequestID] assigns is always one it would keep. *)
Lemma newRequestID_valid random : length random = 16 → validRequestID (newRequestID random) = true.
Proof.
  intros Hl. assert (length (newRequestID random) = 32) as Hlen.
  { unfold newRequestID. revert Hl. do 17 (destruct random as [|? random]; [done|]).
    intros Hl. repeat (destruct random as [|? random]; try discriminate Hl). }
  unfold validRequestID. rewrite Hlen.
  rewrite bool_decide_eq_false_2 by (intros H; by rewrite H in Hlen). cbn [orb].
  rewrite bool_decide_eq_false_2 by lia. unfold newRequestID. clear Hl Hlen.
  induction random as [|b random IH]; [done|]. cbn [map concat]. rewrite forallb_app, IH, andb_true_r.
  assert (∀ z, (0 <= z < 16)%Z → is_id_byte (hex_digit z) = true) as Hhex.
  { assert (Forall (λ z, is_id_byte (hex_digit z) = true) (seqZ 0 16)) as Hall
      by (apply (bool_decide_unpack _); vm_compute; exact I).
    intros z Hz. rewrite Forall_forall in Hall. apply Hall, elem_of_seqZ. lia. }
  pose proof (code_range b). cbn [forallb].
  rewrite !Hhex; [done|apply Z.mod_pos_bound; lia|].
  split; [apply Z.div_pos; lia|apply Z.div_lt_upper_bound; lia].
Qed.
End middleware.
