(* ===== verification/RateLimit.v ===== *)
(** * Rate limiting

    [src/middleware/ratelimit.go] and [memorystore.go]: the limit's parameters, the
    in-memory store with its shards and its sweep, in int64 arithmetic, and the
    GCRA it implements as an abstract specification over the integers.

    A call of [Take] reads the clock and then waits for its shard's lock, so calls are
    listed in the order of their locks, and their readings come in any order. *)

From S2P Require Import Prelude Bytes Decimal Pattern Slice Params Fasthttp Errors Ctx Handler.

(** ** The limit *)

Record Limit : Type := mkLimit { Rate : Z; Per : Z; Burst : Z }.

Definition quarter : Z := quot64 max_int64 4.

(** [params]: the emission interval and the burst, or the message. *)
Definition limit_params (l : Limit) : result bytes (Z * Z) :=
  if (Rate l <=? 0)%Z then Err (bs "Rate must be positive")
  else if (Per l <=? 0)%Z then Err (bs "Per must be positive")
  else if (Burst l <? 0)%Z then Err (bs "Burst may not be negative")
  else
    let interval := quot64 (Per l) (Rate l) in
    if (interval =? 0)%Z then Err (bs "Per / Rate is below one nanosecond")
    else
      let burst := if (Burst l =? 0)%Z then Rate l else Burst l in
      if (quot64 quarter interval <? burst)%Z then Err (bs "Burst * Per / Rate exceeds about 73 years")
      else Ok (interval, burst).

(** ** The store *)

Definition memoryShards : nat := 64.

Record memoryShard : Type := mkShard { tat : gmap bytes Z; lastSweep : Z }.

Record MemoryStore : Type := mkStore { sweepEvery : Z; shards : list memoryShard }.

Definition NewMemoryStore : MemoryStore :=
  mkStore (60 * second) (replicate memoryShards (mkShard ∅ 0)).

(** The sweep of a shard. *)
Definition sweep (every now : Z) (sh : memoryShard) : memoryShard :=
  if (every <=? sub64 now (lastSweep sh))%Z
  then mkShard (filter (λ kv, (now < kv.2)%Z) (tat sh)) now else sh.

(** [Take] after the limit's parameters and the shard are known. *)
Definition take_shard (now : Z) (key : bytes) (interval burst : Z) (sh : memoryShard) : Z * memoryShard :=
  let t := match tat sh !! key with
           | Some t => if (t <? now)%Z then now else t
           | None => now
           end in
  let next := add64 t interval in
  let allowAt := sub64 next (mul64 burst interval) in
  if (now <? allowAt)%Z then (sub64 allowAt now, sh)
  else (0%Z, mkShard (<[key := next]> (tat sh)) (lastSweep sh)).

Section store.
(** [maphash.String] with the store's seed: any function of the key. *)
Variable hash : bytes → nat.

Definition shard_of (key : bytes) : nat := hash key mod memoryShards.

Definition Take (now : Z) (key : bytes) (l : Limit) (s : MemoryStore) : result bytes Z * MemoryStore :=
  match limit_params l with
  | Err msg => (Err (bs "rice: middleware.MemoryStore: " ++ msg), s)
  | Ok (interval, burst) =>
    match shards s !! shard_of key with
    | None => (Ok 0%Z, s)
    | Some sh =>
      let r := take_shard now key interval burst (sweep (sweepEvery s) now sh) in
      (Ok r.1, mkStore (sweepEvery s) (<[shard_of key := r.2]> (shards s)))
    end
  end.

(** A sequence of calls in the order of their locks, each with what it read off the
    clock before. *)
Fixpoint takes (calls : list (Z * bytes * Limit)) (s : MemoryStore) : list (result bytes Z) * MemoryStore :=
  match calls with
  | [] => ([], s)
  | (now, key, l) :: calls' =>
    let r := Take now key l s in
    let rs := takes calls' r.2 in
    (r.1 :: rs.1, rs.2)
  end.
End store.

(** ** The specification: GCRA

    One theoretical arrival time per key over the integers, never forgotten. *)
Definition gcra (now : Z) (key : bytes) (interval burst : Z) (m : gmap bytes Z) : Z * gmap bytes Z :=
  let t := Z.max now (default now (m !! key)) in
  let next := (t + interval)%Z in
  let allowAt := (next - burst * interval)%Z in
  if (now <? allowAt)%Z then ((allowAt - now)%Z, m) else (0%Z, <[key := next]> m).

Fixpoint gcras (calls : list (Z * bytes * Limit)) (m : gmap bytes Z) : list (result bytes Z) :=
  match calls with
  | [] => []
  | (now, key, l) :: calls' =>
    match limit_params l with
    | Err msg => Err (bs "rice: middleware.MemoryStore: " ++ msg) :: gcras calls' m
    | Ok (interval, burst) =>
      let r := gcra now key interval burst m in Ok r.1 :: gcras calls' r.2
    end
  end.

(** ** The middleware *)

(** [retryAfter]. *)
Definition retryAfter (wait : Z) : Z :=
  let s := quot64 wait second in
  let s := if (rem64 wait second =? 0)%Z then s else add64 s 1 in
  Z.max s 1.

(** [net.IP.To4]. *)
Definition To4 (ip : bytes) : option bytes :=
  if decide (length ip = 4) then Some ip
  else if decide (length ip = 16) then
    if bool_decide (take 10 ip = replicate 10 "000"%char) &&
       bool_decide (take 2 (drop 10 ip) = replicate 2 "255"%char)
    then Some (drop 12 ip) else None
  else None.

(** [clientKey]'s 16 bytes. *)
Definition client_key (ip : bytes) : bytes :=
  match To4 ip with
  | Some v4 => replicate 10 "000"%char ++ replicate 2 "255"%char ++ v4
  | None => if decide (length ip = 16) then take 8 ip ++ replicate 8 "000"%char
            else replicate 16 "000"%char
  end.

Section middleware.
Context `{HA : Any} `{F : Fasthttp} `{HG : AppendGrowth} `{HS : Stored} `{HB : Build}.

Definition errTooManyRequests : err := HTTPError 429 (bs "Too Many Requests") None.

Definition clientKey : prog (bytes * option err) := Call (AFctx (λ r, ((client_key (RemoteIP r), None), r))).

(** [RateLimit], with what the Store answers the call. *)
Definition RateLimit (l : Limit) (keyFunc : option (prog (bytes * option err)))
    (take : context → bytes → Z * option err) (baseCtx : context) : outcome bytes Middleware :=
  match limit_params l with
  | Err msg => Panic (bs "rice: middleware.RateLimit: " ++ msg)
  | Ok _ => Ret (λ next : Handler,
    Seq (default clientKey keyFunc) (λ k,
      match k.2 with
      | Some e => Done (Some e)
      | None =>
        Seq (Call (AContext baseCtx)) (λ ctx,
          match (take ctx k.1).2 with
          | Some e => Done (Some e)
          | None =>
            let wait := (take ctx k.1).1 in
            if (0 <? wait)%Z then
              Seq (Call (AFctx (λ r, (tt, SetHeader (bs "Retry-After") (Itoa (retryAfter wait)) r))))
                  (λ _, Done (Some errTooManyRequests))
            else next
          end)
      end))
  end.
End middleware.

(** ** Lemmas *)

Definition limit_ok (interval burst : Z) : Prop :=
  (1 <= interval)%Z ∧ (1 <= burst)%Z ∧ (burst * interval <= 2 ^ 61 - 1)%Z.

Lemma limit_params_ok l interval burst : int64_range (Rate l) → int64_range (Per l) → int64_range (Burst l) →
  limit_params l = Ok (interval, burst) → limit_ok interval burst.
Proof.
  unfold limit_params, int64_range, min_int64, max_int64. intros Hr Hp Hb.
  assert (quarter = 2 ^ 61 - 1)%Z as -> by reflexivity.
  destruct (Rate l <=? 0)%Z eqn:E1; [done|]. destruct (Per l <=? 0)%Z eqn:E2; [done|].
  destruct (Burst l <? 0)%Z eqn:E3; [done|]. to_prop.
  assert (0 <= Z.quot (Per l) (Rate l) <= Per l)%Z as Hq.
  { rewrite Z.quot_div_nonneg by lia. split; [apply Z.div_pos; lia|].
    apply Z.div_le_upper_bound; [lia|]. nia. }
  cbv zeta. assert (quot64 (Per l) (Rate l) = Z.quot (Per l) (Rate l)) as ->
    by (apply wrap64_id; unfold int64_range, min_int64, max_int64; lia).
  set (iv := Z.quot (Per l) (Rate l)) in *. destruct (iv =? 0)%Z eqn:E4; [done|]. to_prop.
  assert (0 <= Z.quot (2 ^ 61 - 1) iv <= 2 ^ 61 - 1)%Z as Hq2.
  { rewrite Z.quot_div_nonneg by lia. split; [apply Z.div_pos; lia|]. apply Z.div_le_upper_bound; nia. }
  assert (quot64 (2 ^ 61 - 1) iv = Z.quot (2 ^ 61 - 1) iv) as ->
    by (apply wrap64_id; unfold int64_range, min_int64, max_int64; lia).
  set (b := if (Burst l =? 0)%Z then Rate l else Burst l).
  assert (1 <= b)%Z as Hb1.
  { unfold b. destruct (Burst l =? 0)%Z eqn:E5; to_prop; lia. }
  destruct (_ <? b)%Z eqn:E6; [done|]. to_prop. intros [= <- <-].
  split_and!; [lia|lia|]. rewrite Z.quot_div_nonneg in E6 by lia.
  etrans; [|apply (Z.mul_div_le (2 ^ 61 - 1) iv); lia]. nia.
Qed.

(** The effective arrival time of a key at a moment: what an expired entry and an
    absent one have in common. *)
Definition eff (now : Z) (o : option Z) : Z := Z.max now (default now o).

Lemma gcra_eff now key iv b m : (gcra now key iv b m).1 =
  (let allowAt := eff now (m !! key) + iv - b * iv in if now <? allowAt then allowAt - now else 0)%Z.
Proof. unfold gcra, eff. cbv zeta. by destruct (_ <? _)%Z. Qed.

Lemma gcra_lookup now key iv b m key' : (gcra now key iv b m).2 !! key' =
  if decide (key' = key ∧ (eff now (m !! key) + iv - b * iv <= now)%Z)
  then Some (eff now (m !! key) + iv)%Z else m !! key'.
Proof.
  unfold gcra, eff. cbv zeta. destruct (_ <? _)%Z eqn:E; cbn; to_prop.
  - rewrite decide_False; [done|]. intros [_ ?]. lia.
  - destruct (decide (key' = key)) as [->|Hne].
    + by rewrite lookup_insert_eq, decide_True.
    + rewrite lookup_insert_ne, decide_False by (intuition congruence). done.
Qed.

(** ** One call, for one key

    What a shard knows of a key is an entry, or nothing, and when it was last
    swept. *)

(** A time the store can hold: a reading and a burst's worth on top. *)
Definition stored_time (t : Z) : Prop := (0 <= t <= 2 ^ 62 + (2 ^ 61 - 1))%Z.

Definition good_shard (sh : memoryShard) : Prop :=
  map_Forall (λ _ t, stored_time t) (tat sh) ∧ (0 <= lastSweep sh <= 2 ^ 62)%Z.

(** A call as Go can make it: a reading of the monotonic clock within 146 years of
    the store's creation, and a limit of machine integers. Nothing relates its
    reading to other calls': [Take] reads the clock before it takes the lock. *)
Definition go_call (c : Z * bytes * Limit) : Prop :=
  (0 <= c.1.1 <= 2 ^ 62)%Z ∧ int64_range (Rate c.2) ∧ int64_range (Per c.2) ∧ int64_range (Burst c.2).

(** What a sweep at [now] leaves of an entry. *)
Definition forget (now : Z) (o : option Z) : option Z :=
  match o with Some t => if decide (now < t)%Z then Some t else None | None => None end.

(** The entry a call finds. *)
Definition found (every now last : Z) (o : option Z) : option Z :=
  if decide (every <= now - last)%Z then forget now o else o.

Definition wait_of (now iv b : Z) (o : option Z) : Z :=
  let allowAt := (eff now o + iv - b * iv)%Z in if (now <? allowAt)%Z then (allowAt - now)%Z else 0%Z.

(** The entry a call leaves behind for its own key. *)
Definition charged (now iv b : Z) (o : option Z) : option Z :=
  if decide (eff now o + iv - b * iv <= now)%Z then Some (eff now o + iv)%Z else o.

Lemma sub64_times a b : (0 <= a <= 2 ^ 62)%Z → (0 <= b <= 2 ^ 62)%Z → sub64 a b = (a - b)%Z.
Proof. intros. apply wrap64_id. unfold int64_range, min_int64, max_int64. lia. Qed.

Lemma sweep_good every now sh : (0 <= now <= 2 ^ 62)%Z → good_shard sh → good_shard (sweep every now sh).
Proof.
  intros Hnow [Hm Hl]. unfold sweep. destruct (_ <=? _)%Z; [|by split]. split; [|done].
  intros k t [Hk _]%map_lookup_filter_Some. by apply (Hm k).
Qed.

Lemma sweep_found every now sh key : (0 <= now <= 2 ^ 62)%Z → good_shard sh →
  tat (sweep every now sh) !! key = found every now (lastSweep sh) (tat sh !! key) ∧
  lastSweep (sweep every now sh) =
    if decide (every <= now - lastSweep sh)%Z then now else lastSweep sh.
Proof.
  intros Hnow [_ Hl]. unfold sweep, found. rewrite sub64_times by done.
  destruct (every <=? now - lastSweep sh)%Z eqn:E; to_prop.
  - rewrite !decide_True by done. cbn. split; [|done]. rewrite map_lookup_filter.
    destruct (tat sh !! key) as [t|]; cbn; [|done]. unfold forget.
    by case_guard.
  - by rewrite !decide_False by lia.
Qed.

Lemma take_shard_spec now key iv b sh : (0 <= now <= 2 ^ 62)%Z → limit_ok iv b → good_shard sh →
  let r := take_shard now key iv b sh in
  r.1 = wait_of now iv b (tat sh !! key) ∧ lastSweep r.2 = lastSweep sh ∧ good_shard r.2 ∧
  ∀ k, tat r.2 !! k = if decide (k = key) then charged now iv b (tat sh !! key) else tat sh !! k.
Proof.
  intros Hnow (Hiv & Hb & Hq) [Hm Hl]. unfold take_shard.
  set (t := match tat sh !! key with Some t => _ | None => _ end).
  assert (t = eff now (tat sh !! key) ∧ (now <= t)%Z ∧ stored_time t) as (Ht & Hr & Hs).
  { unfold t, stored_time, eff. destruct (tat sh !! key) as [u|] eqn:Eu; cbn [from_option Datatypes.id]; [|lia].
    pose proof (Hm _ _ Eu) as Hu. cbn in Hu. unfold stored_time in Hu.
    destruct (u <? now)%Z eqn:E; to_prop; lia. }
  unfold wait_of, charged. rewrite <-Ht. clearbody t. unfold stored_time in Hs.
  assert (1 * iv <= b * iv)%Z as Hle by (apply Z.mul_le_mono_nonneg_r; lia).
  assert (add64 t iv = t + iv)%Z as ->
    by (apply wrap64_id; unfold int64_range, min_int64, max_int64; lia).
  assert (mul64 b iv = b * iv)%Z as ->
    by (apply wrap64_id; unfold int64_range, min_int64, max_int64; lia).
  assert (sub64 (t + iv) (b * iv) = t + iv - b * iv)%Z as ->
    by (apply wrap64_id; unfold int64_range, min_int64, max_int64; lia).
  cbv zeta. destruct (_ <? _)%Z eqn:E; to_prop; cbn [fst snd tat lastSweep].
  - split; [apply wrap64_id; unfold int64_range, min_int64, max_int64; lia|].
    split; [done|]. split; [done|]. intros k. rewrite (decide_False (P := (_ <= _)%Z)) by lia. by case_decide; subst.
  - split; [done|]. split; [done|]. split.
    + split; [|done]. apply map_Forall_insert_2; [unfold stored_time; lia|done].
    + intros k. rewrite (decide_True (P := (_ <= _)%Z)) by lia. case_decide; subst; [by apply lookup_insert_eq|].
      by rewrite lookup_insert_ne.
Qed.

Section store_view.
Variable hash : bytes → nat.

Lemma shard_lt key : shard_of hash key < memoryShards.
Proof. apply Nat.mod_upper_bound. done. Qed.

Record good_store (s : MemoryStore) : Prop := {
  gs_every : sweepEvery s = (60 * second)%Z;
  gs_len : length (shards s) = memoryShards;
  gs_shards : ∀ i sh, shards s !! i = Some sh → good_shard sh;
}.

Definition entry (key : bytes) (s : MemoryStore) : option Z :=
  shards s !! shard_of hash key ≫= λ sh, tat sh !! key.

(** When the shard of [key] was last swept. *)
Definition swept (key : bytes) (s : MemoryStore) : Z :=
  match shards s !! shard_of hash key with Some sh => lastSweep sh | None => 0 end.

Lemma new_good : good_store NewMemoryStore.
Proof.
  split; [done|apply length_replicate|]. intros i sh [-> _]%lookup_replicate.
  split; [apply map_Forall_empty|]. cbn. lia.
Qed.

Lemma new_entry key : entry key NewMemoryStore = None ∧ swept key NewMemoryStore = 0%Z.
Proof.
  unfold entry, swept. pose proof (shard_lt key).
  assert (shards NewMemoryStore !! shard_of hash key = Some (mkShard ∅ 0)) as ->
    by by apply lookup_replicate.
  done.
Qed.

Lemma good_swept key s : good_store s → (0 <= swept key s <= 2 ^ 62)%Z.
Proof.
  intros [_ _ Hs]. unfold swept. destruct (shards s !! _) as [sh|] eqn:E; [|lia]. by destruct (Hs _ _ E).
Qed.

(** The entry of another key after a call: swept, when the call swept its shard. *)
Definition entry_beside (now : Z) (key k : bytes) (s : MemoryStore) : option Z :=
  if decide (shard_of hash k = shard_of hash key) then found (60 * second) now (swept k s) (entry k s)
  else entry k s.

Lemma Take_spec now key l iv b s : good_store s → (0 <= now <= 2 ^ 62)%Z →
  limit_params l = Ok (iv, b) → limit_ok iv b →
  let e := found (60 * second) now (swept key s) (entry key s) in
  let r := Take hash now key l s in
  r.1 = Ok (wait_of now iv b e) ∧ good_store r.2 ∧
  (∀ k, entry k r.2 = if decide (k = key) then charged now iv b e else entry_beside now key k s) ∧
  (∀ k, swept k r.2 = if decide (shard_of hash k = shard_of hash key ∧ 60 * second <= now - swept k s)%Z
                      then now else swept k s).
Proof.
  intros [Hev Hlen Hsh] Hnow Hl Hok. unfold Take. rewrite Hl, Hev.
  destruct (lookup_lt_is_Some_2 (shards s) (shard_of hash key)) as [sh Hsh0];
    [rewrite Hlen; apply shard_lt|]. rewrite Hsh0. pose proof (Hsh _ _ Hsh0) as Hg.
  assert (∀ k, shard_of hash k = shard_of hash key →
    entry k s = tat sh !! k ∧ swept k s = lastSweep sh) as Hview.
  { intros k Hk. unfold entry, swept. by rewrite Hk, Hsh0. }
  destruct (Hview key eq_refl) as [He Hs]. rewrite He, Hs.
  destruct (take_shard_spec now key iv b (sweep (60 * second) now sh) Hnow Hok
              (sweep_good _ _ _ Hnow Hg)) as (Hw & Hls & Hg' & Ht).
  destruct (sweep_found (60 * second) now sh key Hnow Hg) as [Hf Hlast]. rewrite Hf in *.
  cbn [fst snd]. set (r := take_shard now key iv b (sweep (60 * second) now sh)) in *.
  assert (∀ k,
    (<[shard_of hash key:=r.2]> (shards s)) !! shard_of hash k =
    if decide (shard_of hash k = shard_of hash key) then Some r.2 else shards s !! shard_of hash k) as Hlk.
  { intros k. destruct (decide (shard_of hash k = shard_of hash key)) as [Hk|Hk].
    - rewrite Hk, list_lookup_insert_eq; [done|]. rewrite Hlen. apply shard_lt.
    - by rewrite list_lookup_insert_ne by congruence. }
  split; [by rewrite Hw|]. split; [|split].
  - split; cbn; [done|by rewrite length_insert|]. intros i sh2. destruct (decide (i = shard_of hash key)) as [->|Hi].
    + rewrite list_lookup_insert_eq by (rewrite Hlen; apply shard_lt). by intros [= <-].
    + rewrite list_lookup_insert_ne by done. apply Hsh.
  - intros k. unfold entry at 1. cbn [shards]. rewrite (Hlk k). unfold entry_beside.
    destruct (decide (shard_of hash k = shard_of hash key)) as [Hk|Hk].
    + cbn. rewrite Ht. destruct (decide (k = key)); [done|].
      destruct (Hview k Hk) as [-> ->]. by apply sweep_found.
    + rewrite decide_False; [done|]. by intros ->.
  - intros k. unfold swept at 1. cbn [shards]. rewrite (Hlk k).
    destruct (decide (shard_of hash k = shard_of hash key)) as [Hk|Hk].
    + rewrite Hls, Hlast. destruct (Hview k Hk) as [_ ->]. repeat case_decide; intuition.
    + rewrite decide_False by by intros [? _]. done.
Qed.

(** A limit that cannot work changes nothing. *)
Lemma Take_bad now key l msg s : limit_params l = Err msg →
  Take hash now key l s = (Err (bs "rice: middleware.MemoryStore: " ++ msg), s).
Proof. intros Hl. unfold Take. by rewrite Hl. Qed.

Lemma go_limit c iv b : go_call c → limit_params c.2 = Ok (iv, b) → limit_ok iv b.
Proof. intros (_ & ? & ? & ?). by apply limit_params_ok. Qed.

Lemma Take_good c s : go_call c → good_store s → good_store (Take hash c.1.1 c.1.2 c.2 s).2.
Proof.
  intros Hc Hs. destruct (limit_params c.2) as [[iv b]|msg] eqn:El.
  - apply (Take_spec _ _ _ iv b _ Hs); [apply Hc|done|by eapply go_limit].
  - by rewrite (Take_bad _ _ _ msg).
Qed.

Lemma takes_good calls : ∀ s, Forall go_call calls → good_store s → good_store (takes hash calls s).2.
Proof.
  induction calls as [|[[now key] l] calls IH]; intros s Hc Hs; [done|].
  apply Forall_cons in Hc as [Hc Hcs]. cbn [takes snd]. apply IH; [done|].
  by apply (Take_good (now, key, l)).
Qed.

(** ** The refinement *)

(** Two entries a clock from [now0] on cannot tell apart. *)
Definition same_eff (now0 : Z) (o o' : option Z) : Prop := ∀ now, (now0 <= now)%Z → eff now o = eff now o'.

Lemma same_eff_found every now last o o' : (last <= now)%Z → same_eff last o o' →
  same_eff (if decide (every <= now - last)%Z then now else last) (found every now last o) o'.
Proof.
  intros Hle He now' Hle'. unfold found. case_decide; [|by apply He].
  rewrite <-He by lia. unfold forget, eff. destruct o as [t|]; [|done].
  case_decide; cbn [from_option Datatypes.id]; [done|lia].
Qed.

(** The store implements the map of arrival times, for readings that are not older
    than a shard's last sweep. *)
Definition implements (s : MemoryStore) (m : gmap bytes Z) : Prop :=
  ∀ key, same_eff (swept key s) (entry key s) (m !! key).

Lemma new_implements : implements NewMemoryStore ∅.
Proof. intros key. destruct (new_entry key) as [-> _]. by rewrite lookup_empty. Qed.

Lemma same_eff_mono a a' o o' : (a <= a')%Z → same_eff a o o' → same_eff a' o o'.
Proof. intros Hle He now Hn. apply He. lia. Qed.

Lemma Take_implements now key l iv b s m : good_store s → implements s m → (0 <= now <= 2 ^ 62)%Z →
  (swept key s <= now)%Z → limit_params l = Ok (iv, b) → limit_ok iv b →
  (Take hash now key l s).1 = Ok (gcra now key iv b m).1 ∧
  implements (Take hash now key l s).2 (gcra now key iv b m).2.
Proof.
  intros Hs Him Hnow Hsw Hl Hok.
  destruct (Take_spec now key l iv b s Hs Hnow Hl Hok) as (-> & _ & Hent & Hswp).
  assert (∀ k, shard_of hash k = shard_of hash key → swept k s = swept key s) as Hsame
    by (intros k Hk; unfold swept; by rewrite Hk).
  assert (eff now (found (60 * second) now (swept key s) (entry key s)) = eff now (m !! key)) as He.
  { apply (same_eff_found (60 * second) now (swept key s)); [done|apply Him|]. case_decide; lia. }
  split; [unfold wait_of; by rewrite gcra_eff, He|].
  intros k. rewrite Hent, Hswp, gcra_lookup. unfold charged. rewrite He.
  assert (shard_of hash k = shard_of hash key → same_eff
    (if decide (shard_of hash k = shard_of hash key ∧ 60 * second <= now - swept k s)%Z then now else swept k s)
    (found (60 * second) now (swept k s) (entry k s)) (m !! k)) as Hbeside.
  { intros Hk. pose proof (same_eff_found (60 * second) now (swept k s) (entry k s) (m !! k)
      ltac:(rewrite Hsame; done) (Him k)) as Hf.
    eapply same_eff_mono; [|exact Hf]. rewrite (Hsame k Hk). repeat case_decide; intuition lia. }
  destruct (decide (k = key)) as [->|Hne].
  - destruct (decide (eff now (m !! key) + iv - b * iv <= now)%Z) as [Ha|Ha].
    + by rewrite (decide_True _ _ (conj eq_refl Ha)).
    + rewrite (decide_False (P := key = key ∧ _)) by by intros [_ ?]. by apply Hbeside.
  - rewrite (decide_False (P := k = key ∧ _)) by by intros [? _].
    unfold entry_beside. destruct (decide (shard_of hash k = shard_of hash key)) as [Hk|Hk]; [by apply Hbeside|].
    rewrite decide_False by by intros [? _]. apply Him.
Qed.

(** No call carries a reading from before the last sweep of its key's shard. *)
Fixpoint fresh (calls : list (Z * bytes * Limit)) (s : MemoryStore) : Prop :=
  match calls with
  | [] => True
  | (now, key, l) :: calls' => (swept key s <= now)%Z ∧ fresh calls' (Take hash now key l s).2
  end.

Lemma takes_gcras calls : ∀ s m, good_store s → implements s m → Forall go_call calls → fresh calls s →
  (takes hash calls s).1 = gcras calls m.
Proof.
  induction calls as [|[[now key] l] calls IH]; intros s m Hs Him Hc Hf; [done|].
  apply Forall_cons in Hc as [Hc Hcs]. destruct Hf as [Hsw Hf]. cbn [takes gcras].
  pose proof (Take_good _ s Hc Hs) as Hs'. cbn [fst snd] in Hs'.
  destruct (limit_params l) as [[iv b]|msg] eqn:El.
  - destruct (Take_implements now key l iv b s m Hs Him (proj1 Hc) Hsw El (go_limit _ _ _ Hc El)) as [Hr Him'].
    cbn [fst snd]. rewrite Hr. f_equal. by apply IH.
  - rewrite (Take_bad _ _ _ msg) in * by done. cbn [fst snd] in *. f_equal. by apply IH.
Qed.

(** Readings in the order the locks are taken are fresh. *)
Lemma Take_swept_le now key l s k : good_store s → go_call (now, key, l) →
  (swept k (Take hash now key l s).2 <= Z.max (swept k s) now)%Z.
Proof.
  intros Hs Hc. destruct (limit_params l) as [[iv b]|msg] eqn:El.
  - destruct (Take_spec now key l iv b s Hs (proj1 Hc) El (go_limit _ _ _ Hc El)) as (_ & _ & _ & ->).
    case_decide; lia.
  - rewrite (Take_bad _ _ _ msg) by done. cbn. lia.
Qed.

Fixpoint in_order (now0 : Z) (calls : list (Z * bytes * Limit)) : Prop :=
  match calls with
  | [] => True
  | (now, _, _) :: calls' => (now0 <= now)%Z ∧ in_order now calls'
  end.

Lemma in_order_fresh calls : ∀ s now0, good_store s → Forall go_call calls →
  (∀ k, swept k s <= now0)%Z → in_order now0 calls → fresh calls s.
Proof.
  induction calls as [|[[now key] l] calls IH]; intros s now0 Hs Hc H0 Hord; [done|].
  apply Forall_cons in Hc as [Hc Hcs]. destruct Hord as [Hle Hord].
  split; [etrans; [apply H0|done]|].
  apply (IH _ now); [by apply (Take_good (now, key, l))|done| |done].
  intros k. etrans; [by apply Take_swept_le|]. specialize (H0 k). lia.
Qed.
End store_view.

(** How many calls of [key] in a window were admitted. *)
Fixpoint admitted (key : bytes) (from until : Z) (calls : list (Z * bytes * Limit))
    (rs : list (result bytes Z)) : Z :=
  match calls, rs with
  | (now, k, _) :: calls', r :: rs' =>
    let n := admitted key from until calls' rs' in
    if bool_decide (k = key) && (from <=? now)%Z && (now <=? until)%Z
    then match r with Ok 0%Z => (n + 1)%Z | _ => n end else n
  | _, _ => 0%Z
  end.

(** Calls with the times at which they got the lock, in that order: each within
    [late] of its reading of the clock. *)
Fixpoint locked (late at0 : Z) (calls : list (Z * (Z * bytes * Limit))) : Prop :=
  match calls with
  | [] => True
  | (lock, c) :: calls' => (at0 <= lock)%Z ∧ (c.1.1 <= lock <= c.1.1 + late)%Z ∧ locked late lock calls'
  end.

Section counting.
Context (iv b from until late every : Z).
Context (Hiv : (1 <= iv)%Z) (Hb : (1 <= b)%Z) (Hlate : (0 <= late)%Z) (Hevery : (0 < every)%Z).

(** What the window can still admit, in nanoseconds, given the key's entry and a
    lower bound of the readings to come. *)
Definition budget (at0 : Z) (o : option Z) : Z :=
  Z.max 0 (until + b * iv - Z.max from (Z.max (at0 - late) (default from o))).

(** How many sweeps can still make a difference to the window. *)
Definition sweeps_left (last : Z) : Z :=
  Z.max 0 ((until + late - Z.max last (from - every)) / every).

Lemma sweeps_left_mono last last' : (last <= last')%Z → (sweeps_left last' <= sweeps_left last)%Z.
Proof.
  intros Hle. unfold sweeps_left. apply Z.max_le_compat_l, Z.div_le_mono; lia.
Qed.

Lemma sweeps_left_step last n :
  (every <= n - last)%Z → (from <= n <= until + late)%Z → (sweeps_left n + 1 <= sweeps_left last)%Z.
Proof.
  intros Hsw Hn. unfold sweeps_left. rewrite (Z.max_l n) by lia.
  pose proof (Z.div_pos (until + late - n) every ltac:(lia) Hevery).
  rewrite (Z.max_r 0 ((until + late - n) / every)) by done.
  etrans; [|apply Z.le_max_r]. replace ((until + late - n) / every + 1)%Z
    with ((until + late - n + 1 * every) / every)%Z by (rewrite Z.div_add; lia).
  apply Z.div_le_mono; lia.
Qed.

Lemma budget_mono at0 lock o : (at0 <= lock)%Z → (budget lock o <= budget at0 o)%Z.
Proof. intros Hle. unfold budget. lia. Qed.

(** A sweep that drops the entry gives back no more than the lateness. *)
Lemma budget_sweep at0 lock n last o :
  (at0 <= lock)%Z → (n <= lock <= n + late)%Z → (lock - late <= until)%Z →
  (budget lock (found every n last o) +
     late * sweeps_left (if decide (every <= n - last) then n else last) <=
   budget at0 o + late * sweeps_left last)%Z.
Proof.
  intros Hat Hlock Huntil. unfold found. case_decide as Hsw.
  2:{ pose proof (budget_mono at0 lock o Hat). lia. }
  pose proof (sweeps_left_mono last n ltac:(lia)) as Hmono.
  assert (budget lock (forget n o) <= budget at0 o ∨
          (from <= n ∧ budget lock (forget n o) <= budget at0 o + late))%Z as [Hbud|[Hfrom Hbud]].
  { destruct o as [t|]; cbn [forget]; [|left; by apply budget_mono].
    case_decide as Ht; [left; by apply budget_mono|]. unfold budget. cbn [from_option Datatypes.id].
    destruct (Z.le_gt_cases from n); [right|left]; lia. }
  - assert (late * sweeps_left n <= late * sweeps_left last)%Z by (by apply Z.mul_le_mono_nonneg_l). lia.
  - pose proof (sweeps_left_step last n Hsw ltac:(lia)) as Hstep.
    assert (late * (sweeps_left n + 1) <= late * sweeps_left last)%Z by (by apply Z.mul_le_mono_nonneg_l). lia.
Qed.

(** An admission in the window takes an interval out of the budget. *)
Lemma budget_charge lock n o :
  (lock <= n + late)%Z →
  (budget lock (charged n iv b o) +
    (if (from <=? n) && (n <=? until) && (wait_of n iv b o =? 0) then iv else 0) <= budget lock o)%Z.
Proof.
  intros Hlock. unfold charged, wait_of. cbv zeta.
  assert (n <= eff n o)%Z as Hn by (unfold eff; lia).
  assert (default from o <= eff n o ∨ o = None)%Z as Hd
    by (unfold eff; destruct o as [t|]; cbn; [left; lia|by right]).
  destruct (decide (eff n o + iv - b * iv <= n)%Z) as [Ha|Ha].
  - rewrite (proj2 (Z.ltb_ge _ _)) by lia. rewrite Z.eqb_refl, andb_true_r.
    unfold budget. cbn [from_option Datatypes.id].
    assert (Z.max from (Z.max (lock - late) (default from o)) <= Z.max from (eff n o))%Z as Hmax.
    { destruct Hd as [Hd| ->]; cbn [from_option]; lia. }
    change (default from (Some (eff n o + iv)%Z)) with (eff n o + iv)%Z.
    set (t := eff n o) in *. clearbody t. set (M := Z.max from (Z.max (lock - late) (default from o))) in *.
    clearbody M. destruct ((from <=? n)%Z && (n <=? until)%Z) eqn:Ew; to_prop; lia.
  - rewrite (proj2 (Z.ltb_lt _ _)) by lia. rewrite (proj2 (Z.eqb_neq _ _)) by lia.
    rewrite andb_false_r. lia.
Qed.
End counting.

(** Once the clock is past the window, nothing counts. *)
Lemma admitted_late key from until late calls : ∀ at0 rs, (until < at0 - late)%Z → locked late at0 calls →
  admitted key from until (map snd calls) rs = 0%Z.
Proof.
  induction calls as [|[lock [[n k] l]] calls IH]; intros at0 rs Hu Hl; [done|].
  destruct Hl as (Hat & Hlock & Hl). cbn [fst snd map] in *. destruct rs as [|r rs]; [done|].
  cbn [admitted]. rewrite (IH lock) by (done || lia).
  rewrite (proj2 (Z.leb_gt n until)) by lia. by rewrite andb_false_r.
Qed.

Lemma admitted_other key from until n k l calls r rs : k ≠ key ∨ (∃ m, r = Err m) →
  admitted key from until ((n, k, l) :: calls) (r :: rs) = admitted key from until calls rs.
Proof.
  intros H. cbn [admitted]. destruct (bool_decide (k = key)) eqn:E; [|done]. to_prop.
  destruct H as [|[m ->]]; [done|]. by destruct (_ && _).
Qed.

Lemma admitted_own key from until n l calls w rs :
  admitted key from until ((n, key, l) :: calls) (Ok w :: rs) =
  (admitted key from until calls rs +
   if (from <=? n) && (n <=? until) && (w =? 0) then 1 else 0)%Z.
Proof.
  cbn [admitted]. rewrite bool_decide_eq_true_2 by done. cbn [andb].
  destruct ((from <=? n)%Z && (n <=? until)%Z); cbn [andb]; [|lia]. destruct w; cbn; lia.
Qed.

Lemma admitted_bound hash key l iv b from until late calls :
  limit_params l = Ok (iv, b) → limit_ok iv b → (0 <= late)%Z → ∀ at0 s,
  good_store s → Forall (λ c, go_call c.2) calls → Forall (λ c, c.2.1.2 = key → c.2.2 = l) calls →
  locked late at0 calls →
  (admitted key from until (map snd calls) (takes hash (map snd calls) s).1 * iv <=
   budget iv b from until late at0 (entry hash key s) +
   late * sweeps_left from until late (60 * second) (swept hash key s))%Z.
Proof.
  intros El Hok Hlate. assert (1 <= iv ∧ 1 <= b)%Z as [Hiv Hb] by (destruct Hok; lia).
  assert (0 < 60 * second)%Z as Hev by (unfold second; lia).
  induction calls as [|[lock [[n k] l']] calls IH]; intros at0 s Hs Hgo Hkey Hl.
  { cbn. unfold budget, sweeps_left. nia. }
  destruct (Z.lt_ge_cases until (lock - late)) as [Hpast|Hin].
  { rewrite (admitted_late key from until late _ (lock)).
    - unfold budget, sweeps_left. nia.
    - done.
    - destruct Hl as (_ & Hlock & Hl). repeat split; [lia|lia|lia|done]. }
  apply Forall_cons in Hgo as [Hc Hgo]. apply Forall_cons in Hkey as [Hk Hkey].
  destruct Hl as (Hat & Hlock & Hl). cbn [fst snd] in *.
  assert (good_store (Take hash n k l' s).2) as Hs' by (by apply (Take_good hash (n, k, l'))).
  specialize (IH lock _ Hs' Hgo Hkey Hl). cbn [map snd takes fst].
  set (rest := admitted key from until (map snd calls) (takes hash (map snd calls) (Take hash n k l' s).2).1) in *.
  pose proof (budget_sweep iv b from until late (60 * second) Hiv Hb Hlate Hev at0 lock n (swept hash key s)
                (entry hash key s) Hat Hlock Hin) as Hsweep.
  pose proof (budget_mono iv b from until late at0 lock (entry hash key s) Hat) as Hmono.
  destruct (limit_params l') as [[iv' b']|msg] eqn:El'.
  2:{ unfold rest in *. rewrite (Take_bad hash _ _ _ msg) in * by done. cbn [fst snd] in *.
      rewrite admitted_other by (right; by eexists). lia. }
  pose proof (go_limit _ _ _ Hc El') as Hok'.
  destruct (Take_spec hash n k l' iv' b' s Hs (proj1 Hc) El' Hok') as (Hr & _ & Hent & Hsw).
  rewrite Hent, Hsw in IH. clear Hent Hsw. rewrite Hr.
  destruct (decide (k = key)) as [->|Hne].
  - specialize (Hk eq_refl). subst l'. rewrite El in El'. injection El' as <- <-.
    rewrite admitted_own. fold rest. rewrite decide_True in IH by done.
    set (o := found _ _ _ _) in *.
    pose proof (budget_charge iv b from until late Hiv Hb lock n o ltac:(lia)) as Hch.
    assert ((if decide (shard_of hash key = shard_of hash key ∧ 60 * second <= n - swept hash key s)%Z
             then n else swept hash key s) =
            (if decide (60 * second <= n - swept hash key s)%Z then n else swept hash key s)) as Heq
      by (repeat case_decide; intuition).
    rewrite Heq in IH. destruct ((from <=? n)%Z && (n <=? until)%Z && (wait_of n iv b o =? 0)%Z); lia.
  - rewrite admitted_other by by left. fold rest. rewrite decide_False in IH by congruence.
    unfold entry_beside in IH.
    destruct (decide (shard_of hash key = shard_of hash k)) as [Hsh|Hsh].
    + assert ((if decide (shard_of hash key = shard_of hash k ∧ 60 * second <= n - swept hash key s)%Z
               then n else swept hash key s) =
              (if decide (60 * second <= n - swept hash key s)%Z then n else swept hash key s)) as Heq
        by (repeat case_decide; intuition).
      rewrite Heq in IH. lia.
    + rewrite decide_False in IH by by intros [? _]. lia.
Qed.

Lemma retryAfter_covers w : int64_range w → (0 < w)%Z →
  (w <= retryAfter w * second)%Z ∧ ((retryAfter w - 1) * second < w)%Z.
Proof.
  unfold int64_range, min_int64, max_int64. intros Hw Hpos. unfold retryAfter, rem64, quot64, second.
  pose proof (Z.quot_rem' w 1000000000) as Hqr.
  pose proof (Z.rem_bound_pos w 1000000000 ltac:(lia) ltac:(lia)).
  assert (0 <= Z.quot w 1000000000 <= w)%Z.
  { rewrite Z.quot_div_nonneg by lia. split; [apply Z.div_pos; lia|]. apply Z.div_le_upper_bound; lia. }
  rewrite wrap64_id by (unfold int64_range, min_int64, max_int64; lia).
  unfold add64. destruct (Z.rem w 1000000000 =? 0)%Z eqn:E; to_prop.
  - lia.
  - rewrite wrap64_id by (unfold int64_range, min_int64, max_int64; lia). lia.
Qed.

(** ** Retrying *)

(** What a refused key has left behind: an entry worth [w] more nanoseconds at
    [now], or nothing any more. *)
Definition refused_entry (now w iv b : Z) (o : option Z) : Prop :=
  match o with
  | Some t => (t + iv - b * iv <= now + w)%Z
  | None => True
  end.

Lemma refused_found every n last now w iv b o :
  refused_entry now w iv b o → refused_entry now w iv b (found every n last o).
Proof. unfold found, forget. destruct o; repeat case_decide; done. Qed.

Lemma wait_refused now iv b o w : limit_ok iv b → wait_of now iv b o = w → (0 < w)%Z →
  refused_entry now w iv b o ∧ refused_entry now w iv b (charged now iv b o).
Proof.
  intros (Hiv & Hb & _) Hw Hpos. unfold wait_of, charged in *. cbv zeta in Hw.
  destruct (_ <? _)%Z eqn:E; to_prop; [|lia]. rewrite decide_False by lia.
  assert (refused_entry now w iv b o); [|done]. destruct o as [t|]; [|done].
  unfold eff in *. cbn in *. lia.
Qed.

Lemma refused_wait now n w iv b o : limit_ok iv b → refused_entry now w iv b o → (now + w <= n)%Z →
  wait_of n iv b o = 0%Z.
Proof.
  intros (Hiv & Hb & _) Hr Hn. assert (1 * iv <= b * iv)%Z by (apply Z.mul_le_mono_nonneg_r; lia).
  unfold wait_of, eff. cbv zeta. rewrite (proj2 (Z.ltb_ge _ _)); [done|]. destruct o as [t|]; cbn in *; lia.
Qed.

Lemma takes_refused hash calls key now w iv b : ∀ s, good_store s → Forall go_call calls →
  Forall (λ c, c.1.2 ≠ key) calls → refused_entry now w iv b (entry hash key s) →
  refused_entry now w iv b (entry hash key (takes hash calls s).2).
Proof.
  induction calls as [|[[n k] l] calls IH]; intros s Hs Hc Hk Hr; [done|].
  apply Forall_cons in Hc as [Hc Hcs]. apply Forall_cons in Hk as [Hk Hks]. cbn [takes snd fst] in *.
  apply IH; [by apply (Take_good hash (n, k, l))|done|done|].
  destruct (limit_params l) as [[iv' b']|msg] eqn:El; [|by rewrite (Take_bad hash _ _ _ msg)].
  destruct (Take_spec hash n k l iv' b' s Hs (proj1 Hc) El (go_limit _ _ _ Hc El)) as (_ & _ & Hent & _).
  rewrite Hent, decide_False by congruence. unfold entry_beside. case_decide; [|done]. by apply refused_found.
Qed.

Lemma wait_of_range now iv b o : (0 <= now <= 2 ^ 62)%Z → limit_ok iv b →
  match o with Some t => stored_time t | None => True end → int64_range (wait_of now iv b o).
Proof.
  intros Hn (Hiv & Hb & Hq) Ho. unfold wait_of, eff, stored_time in *. cbv zeta.
  assert (1 * iv <= b * iv)%Z by (apply Z.mul_le_mono_nonneg_r; lia).
  unfold int64_range, min_int64, max_int64. destruct o as [t|]; cbn; destruct (_ <? _)%Z eqn:E; to_prop; lia.
Qed.

Lemma entry_stored hash key s t : good_store s → entry hash key s = Some t → stored_time t.
Proof.
  intros [_ _ Hs] (sh & Hsh & Ht)%bind_Some. destruct (Hs _ _ Hsh) as [Hm _]. by apply (Hm key).
Qed.

(** ** Concrete runs *)

Definition per_second : Limit := mkLimit 1 second 2.

Definition sample_calls : list (Z * bytes * Limit) :=
  map (λ n, (n, bs "k", per_second)) [0; 1; 2; 70 * second; 70 * second; 70 * second; 71 * second]%Z.

Lemma sample_go : Forall go_call sample_calls.
Proof. repeat (constructor; [vm_compute; intuition congruence|]). constructor. Qed.

(** A reading of the clock from before a sweep that got the lock first: the key is
    admitted twice within a second, which one map of arrival times would refuse. *)
Definition stale_calls : list (Z * bytes * Limit) :=
  let l := mkLimit 1 second 1 in
  [(59 * second, bs "k", l); (60 * second, bs "o", l); (60 * second - 1, bs "k", l)]%Z.

Example stale_reading :
  (takes length stale_calls NewMemoryStore).1 = [Ok 0; Ok 0; Ok 0]%Z ∧
  gcras stale_calls ∅ = [Ok 0; Ok 0; Ok 1]%Z.
Proof. split; vm_compute; reflexivity. Qed.

(** ** Properties *)

(** C23. The store is GCRA when no call's reading of the clock is from before the
    last sweep of its shard: then, whatever the hash, the limits and the calls,
    its int64 arithmetic never wraps, and neither sharding nor the sweep changes an
    answer, for a clock up to 146 years from the store's creation. Readings that
    are in the order in which the calls get their locks are such readings. [Take]
    reads its clock before it takes the lock, so this is a condition, and
    [stale_reading] is a run where it fails and the answers differ. *)
Theorem memory_store_refines hash calls (Hc : Forall go_call calls)
    (Hf : fresh hash calls NewMemoryStore ∨ in_order 0 calls) :
  (takes hash calls NewMemoryStore).1 = gcras calls ∅.
Proof.
  apply takes_gcras; [apply new_good|apply new_implements|done|]. destruct Hf as [Hf|Ho]; [done|].
  apply (in_order_fresh hash _ _ 0); [apply new_good|done| |done].
  intros k. destruct (new_entry hash k) as [_ ->]. lia.
Qed.

Lemma memory_store_refines_witness :
  (takes length sample_calls NewMemoryStore).1 =
  [Ok 0; Ok 0; Ok (second - 2); Ok 0; Ok 0; Ok second; Ok 0]%Z.
Proof.
  rewrite (memory_store_refines length sample_calls sample_go).
  - vm_compute. reflexivity.
  - right. repeat (split; [vm_compute; congruence|]). exact I.
Defined.

(** C22. The rate holds, however the calls of other keys and limits interleave and
    whatever the order of the clock readings: when every call gets its lock at
    most [late] after it read the clock, then in any window of readings of length
    W, a key under one limit is admitted at most Burst times and once more per
    interval, give or take [late] for every sweep of its shard, of which there is
    at most one a minute: the admissions times the interval are at most W, plus
    the burst's worth, plus [late] times one more than the minutes in W + [late].
    For locks taken at once that is W plus the burst's worth. *)
Theorem rate_bound hash calls key l iv b from until late
    (Hc : Forall (λ c, go_call c.2) calls) (Ht : locked late 0 calls) (Hlate : (0 <= late)%Z)
    (Hl : limit_params l = Ok (iv, b)) (Hgo : int64_range (Rate l) ∧ int64_range (Per l) ∧ int64_range (Burst l))
    (Hk : Forall (λ c, c.2.1.2 = key → c.2.2 = l) calls) (Hw : (from <= until)%Z) :
  (admitted key from until (map snd calls) (takes hash (map snd calls) NewMemoryStore).1 * iv <=
   (until - from) + b * iv + late * ((until - from + late) / (60 * second) + 1))%Z.
Proof.
  destruct Hgo as (? & ? & ?).
  assert (limit_ok iv b) as Hok by (by eapply limit_params_ok).
  etrans; [by apply (admitted_bound hash key l iv b from until late calls Hl Hok Hlate 0 _ new_good)|].
  destruct (new_entry hash key) as [-> ->]. destruct Hok as (? & ? & _).
  assert (0 <= b * iv)%Z by nia. unfold budget, sweeps_left. cbn [from_option].
  assert (0 < 60 * second)%Z as Hev by (unfold second; lia).
  assert ((until + late - Z.max 0 (from - 60 * second)) / (60 * second) <=
          (until - from + late) / (60 * second) + 1)%Z as Hdiv.
  { rewrite <-Z.div_add by lia. apply Z.div_le_mono; lia. }
  pose proof (Z.div_pos (until - from + late) (60 * second) ltac:(lia) Hev).
  apply Z.add_le_mono; [lia|]. apply Z.mul_le_mono_nonneg_l; lia.
Qed.

(** [stale_calls] with locks a nanosecond late: the window needs that nanosecond. *)
Lemma rate_bound_witness :
  (admitted (bs "k") (59 * second) (60 * second - 1) stale_calls (takes length stale_calls NewMemoryStore).1 * second
   <= (60 * second - 1 - 59 * second) + 1 * second +
      1 * ((60 * second - 1 - 59 * second + 1) / (60 * second) + 1))%Z.
Proof.
  apply (rate_bound length (combine [59 * second; 60 * second; 60 * second]%Z stale_calls)
           (bs "k") (mkLimit 1 second 1)).
  - repeat (constructor; [vm_compute; intuition congruence|]). constructor.
  - repeat (split; [vm_compute; intuition congruence|]). exact I.
  - lia.
  - reflexivity.
  - vm_compute. intuition congruence.
  - repeat (constructor; [done|]). constructor.
  - vm_compute. congruence.
Defined.

(** C24. Retry-After is honest: a client that was refused and then sends nothing for
    the whole seconds it was told is admitted, whatever calls of other keys the
    store serves before, in between and with whatever readings of the clock; and it
    is not told to wait a full second more than it must. *)
Theorem retry_admits hash calls now key l others d w
    (Hc : Forall go_call calls) (Hn : go_call (now, key, l)) (Ho : Forall go_call others)
    (Hk : Forall (λ c, c.1.2 ≠ key) others) :
  let s := (takes hash calls NewMemoryStore).2 in
  let refused := Take hash now key l s in
  refused.1 = Ok w → (0 < w)%Z →
  (retryAfter w * second <= d)%Z → (now + d <= 2 ^ 62)%Z →
  (Take hash (now + d) key l (takes hash others refused.2).2).1 = Ok 0%Z ∧
  ((retryAfter w - 1) * second < w)%Z.
Proof.
  intros s refused Hw Hpos Hd Hmax. assert (good_store s) as Hs by (by apply takes_good, new_good).
  destruct (limit_params l) as [[iv b]|msg] eqn:El.
  2:{ unfold refused in Hw. rewrite (Take_bad hash _ _ _ msg) in Hw by done. discriminate Hw. }
  pose proof (go_limit _ _ _ Hn El) as Hok. destruct Hn as [Hnow Hlim]. cbn [fst] in Hnow.
  destruct (Take_spec hash now key l iv b s Hs Hnow El Hok) as (Hr & Hgood & Hent & _).
  fold refused in Hr, Hgood, Hent. rewrite Hr in Hw. injection Hw as Hw.
  set (o := found (60 * second) now (swept hash key s) (entry hash key s)) in *.
  assert (int64_range w) as Hrange.
  { rewrite <-Hw. apply wait_of_range; [done..|]. unfold o, found, forget.
    destruct (entry hash key s) as [t|] eqn:Et; [|by case_decide].
    pose proof (entry_stored hash key s t Hs Et). by repeat case_decide. }
  destruct (retryAfter_covers w Hrange Hpos) as [Hcov Htight]. split; [|exact Htight].
  pose proof (takes_good hash others refused.2 Ho Hgood) as Hs2.
  assert (0 <= now + d <= 2 ^ 62)%Z as Hnd by lia.
  destruct (Take_spec hash (now + d) key l iv b _ Hs2 Hnd El Hok) as (-> & _).
  f_equal. apply (refused_wait now _ w); [done| |lia]. apply refused_found.
  apply takes_refused; [done..|]. rewrite Hent, decide_True by done. by apply wait_refused.
Qed.

(** Refused at 2 ns, admitted a second later although another key's call swept the
    shard in between. *)
Lemma retry_admits_witness :
  let s := (takes length (take 2 sample_calls) NewMemoryStore).2 in
  let refused := Take length 2 (bs "k") per_second s in
  (Take length (2 + second) (bs "k") per_second
     (takes length [((90 * second)%Z, bs "o", per_second)] refused.2).2).1 = Ok 0%Z.
Proof.
  refine (proj1 (retry_admits length (take 2 sample_calls) 2 (bs "k") per_second
            [((90 * second)%Z, bs "o", per_second)] second (second - 2) _ _ _ _ _ _ _ _)).
  - repeat (constructor; [vm_compute; intuition congruence|]). constructor.
  - vm_compute. intuition congruence.
  - repeat (constructor; [vm_compute; intuition congruence|]). constructor.
  - repeat constructor. done.
  - vm_compute. reflexivity.
  - vm_compute. reflexivity.
  - vm_compute. congruence.
  - vm_compute. congruence.
Defined.
