(* ===== verification/RealIP.v ===== *)
(** * The client's address behind proxies

    [src/middleware/realip.go]. [net.ParseIP] is an argument: nothing here depends
    on which strings it takes for addresses. *)

From S2P Require Import Prelude Bytes Pattern Slice Params Fasthttp Errors Ctx Handler.

Section realip.
Variable ParseIP : bytes → option bytes.

(** ** One entry *)

Definition digit_value (c : ascii) : Z := (code c - code "0")%Z.

(** [validPort]: at most five digits, so the int never overflows. *)
Definition validPort (p : bytes) : bool :=
  if bool_decide (p = []) || bool_decide (5 < length p) then false
  else if negb (forallb is_digit p) then false
  else
    let n := foldl (λ n c, n * 10 + digit_value c)%Z 0%Z p in
    (1 <=? n)%Z && (n <=? 65535)%Z.

Definition validPortSuffix (rest : bytes) : bool :=
  match rest with [] => true | c :: p => bool_decide (c = ":"%char) && validPort p end.

Definition parseEntry (entry : bytes) : option bytes :=
  let entry := trim isOWS entry in
  if bool_decide (head entry = Some "["%char) then
    match index_byte "]" entry with
    | None => None
    | Some e =>
      if negb (validPortSuffix (drop (S e) entry)) then None
      else
        let host := Bytes.slice 1 e entry in
        match index_byte ":" host with None => None | Some _ => ParseIP host end
    end
  else
    match index_byte ":" entry with
    | Some i =>
      match index_byte ":" (drop (S i) entry) with
      | None => if negb (validPort (drop (S i) entry)) then None else ParseIP (take i entry)
      | Some _ => ParseIP entry
      end
    | None => ParseIP entry
    end.

(** ** The header *)

(** The inner loop of [resolve] on one line: the answer, or how many entries have
    been seen. Each round shortens the line, so as many rounds as bytes are
    enough. *)
Fixpoint resolve_line (fuel hops : nat) (line : bytes) (seen : nat) : option bytes + nat :=
  match fuel, line with
  | S fuel', _ :: _ =>
    let '(entry, rest) := match last_index_byte "," line with
                          | Some j => (drop (S j) line, take j line)
                          | None => (line, [])
                          end in
    if decide (S seen < hops) then resolve_line fuel' hops rest (S seen)
    else inl (parseEntry entry)
  | _, _ => inr seen
  end.

(** The outer loop, from the last line. *)
Fixpoint resolve_lines (hops : nat) (lines : list bytes) (seen : nat) : option bytes :=
  match lines with
  | [] => None
  | line :: lines' =>
    match resolve_line (length line) hops line seen with
    | inl a => a
    | inr seen' => resolve_lines hops lines' seen'
    end
  end.

Definition resolve (lines : list bytes) (hops : nat) : option bytes := resolve_lines hops (rev lines) 0.
End realip.

(** [SetRemoteAddr]: nil restores [ConnAddr], the connection's address. *)
Class FasthttpAddr `{F : Fasthttp} : Type := {
  SetRemoteAddr : option bytes → RequestCtx → RequestCtx;
  ConnAddr : RequestCtx → bytes;
}.

Section middleware.
Context `{HA : Any} `{F : Fasthttp} `{HG : AppendGrowth} `{HS : Stored} `{HB : Build} {FA : FasthttpAddr}.

Definition RealIP (ParseIP : bytes → option bytes) (trustedHops : Z) : outcome bytes Middleware :=
  if (trustedHops <? 1)%Z then Panic (bs "rice: middleware.RealIP: trustedHops must be at least 1")
  else Ret (λ next : Handler,
    Seq (Call (AFctx (λ r,
          (tt, SetRemoteAddr (resolve ParseIP (req_Header (bs "X-Forwarded-For") r) (Z.to_nat trustedHops)) r))))
        (λ _, next)).
End middleware.

(** ** What proxies do *)

(** Each proxy adds the address it saw, at the end of the last line or as a line
    of its own. *)
Inductive appended (e : bytes) : list bytes → list bytes → Prop :=
| as_line lines : appended e lines (lines ++ [e])
| to_line lines line : appended e (lines ++ [line]) (lines ++ [line ++ ","%char :: e]).

Inductive proxied : list bytes → list bytes → list bytes → Prop :=
| no_proxy lines : proxied [] lines lines
| one_more es e lines lines1 lines2 :
    proxied es lines lines1 → appended e lines1 lines2 → proxied (es ++ [e]) lines lines2.

(** What a proxy writes: something, without a comma. *)
Definition is_entry (e : bytes) : Prop := e ≠ [] ∧ (","%char ∉ e).

(** ** Lemmas *)

(** The entries of a line as [resolve] meets them, from the right. *)
Fixpoint entries_loop (fuel : nat) (line : bytes) : list bytes :=
  match fuel, line with
  | S fuel', _ :: _ =>
    match last_index_byte "," line with
    | Some j => drop (S j) line :: entries_loop fuel' (take j line)
    | None => [line]
    end
  | _, _ => []
  end.

Definition entries (lines : list bytes) : list bytes :=
  concat (map (λ line, entries_loop (length line) line) (rev lines)).

Section lemmas.
Variable ParseIP : bytes → option bytes.

Lemma last_index_lt c s j : last_index_byte c s = Some j → j < length s.
Proof. intros [Hl _]%last_index_byte_Some. by apply lookup_lt_Some in Hl. Qed.

Lemma entries_fuel fuel : ∀ line, length line <= fuel →
  entries_loop fuel line = entries_loop (length line) line.
Proof.
  induction fuel as [fuel IH] using lt_wf_ind. intros [|c line] Hf; [by destruct fuel|].
  destruct fuel as [|fuel]; [cbn in Hf; lia|]. cbn [length entries_loop].
  destruct (last_index_byte "," (c :: line)) as [j|] eqn:Ej; [|done].
  pose proof (last_index_lt _ _ _ Ej) as Hj. cbn [length] in *.
  rewrite (IH fuel) by (rewrite ?length_take; cbn [length]; lia). symmetry. f_equal.
  destruct (decide (length line = fuel)) as [->|Hne].
  - apply IH; [lia|]. rewrite length_take. cbn [length]. lia.
  - apply IH; [lia|]. rewrite length_take. cbn [length]. lia.
Qed.

Lemma resolve_line_entries hops fuel : ∀ line seen, length line <= fuel → seen < hops →
  resolve_line ParseIP fuel hops line seen =
  match entries_loop fuel line !! (hops - 1 - seen) with
  | Some e => inl (parseEntry ParseIP e)
  | None => inr (seen + length (entries_loop fuel line))
  end.
Proof.
  induction fuel as [|fuel IH]; intros [|c line] seen Hf Hs; cbn [length] in Hf; try lia;
    try (cbn; by rewrite Nat.add_0_r).
  cbn [resolve_line entries_loop].
  destruct (last_index_byte "," (c :: line)) as [j|] eqn:Ej.
  - pose proof (last_index_lt _ _ _ Ej) as Hj. cbn [length] in Hj. case_decide as Hd.
    + rewrite IH by (rewrite ?length_take; cbn [length]; lia).
      replace (hops - 1 - seen) with (S (hops - 1 - S seen)) by lia. cbn [lookup list_lookup length].
      by rewrite Nat.add_succ_r, Nat.add_succ_l.
    + by replace (hops - 1 - seen) with 0 by lia.
  - case_decide as Hd.
    + replace (hops - 1 - seen) with (S (hops - 1 - S seen)) by lia.
      destruct fuel; cbn; f_equal; lia.
    + by replace (hops - 1 - seen) with 0 by lia.
Qed.

Lemma resolve_entries lines hops : 1 <= hops →
  resolve ParseIP lines hops =
  match entries lines !! (hops - 1) with Some e => parseEntry ParseIP e | None => None end.
Proof.
  intros Hh. unfold resolve, entries.
  assert (∀ ls seen, seen < hops → resolve_lines ParseIP hops ls seen =
    match concat (map (λ line, entries_loop (length line) line) ls) !! (hops - 1 - seen) with
    | Some e => parseEntry ParseIP e | None => None end) as H.
  { induction ls as [|l ls IH]; intros seen Hs; [done|]. cbn [resolve_lines map concat].
    rewrite resolve_line_entries by lia.
    destruct (entries_loop (length l) l !! (hops - 1 - seen)) as [e|] eqn:Ee.
    - by rewrite (lookup_app_l_Some _ _ _ _ Ee).
    - apply lookup_ge_None in Ee. rewrite lookup_app_r by lia.
      rewrite IH by lia. by replace (hops - 1 - seen - length (entries_loop (length l) l))
        with (hops - 1 - (seen + length (entries_loop (length l) l))) by lia. }
  rewrite H by lia. by rewrite Nat.sub_0_r.
Qed.

(** A comma-free entry at the end of a line is the first one met. *)
Lemma last_index_snoc line e : (","%char ∉ e) →
  last_index_byte "," (line ++ ","%char :: e) = Some (length line).
Proof.
  intros He. induction line as [|c line IH]; cbn.
  - destruct (last_index_byte "," e) as [j|] eqn:Ej; [|done].
    apply last_index_byte_Some in Ej as [Hj _]. apply list_elem_of_lookup_2 in Hj. done.
  - by rewrite IH.
Qed.

Lemma appended_entries e lines lines' : is_entry e → appended e lines lines' →
  entries lines' = e :: entries lines.
Proof.
  intros [Hne Hc] [ls|ls line]; unfold entries; rewrite rev_app_distr; cbn [rev Datatypes.app map concat].
  - assert (last_index_byte "," e = None) as Hn by (by apply last_index_byte_None).
    destruct e as [|c e]; [done|]. cbn [length entries_loop]. by rewrite Hn.
  - rewrite rev_app_distr. cbn [rev Datatypes.app map concat].
    assert (entries_loop (length (line ++ ","%char :: e)) (line ++ ","%char :: e) =
            e :: entries_loop (length line) line) as ->; [|done].
    destruct (line ++ ","%char :: e) as [|c l] eqn:El; [by destruct line|]. cbn [length entries_loop].
    rewrite <-El, last_index_snoc by done.
    rewrite take_app_length, drop_app_ge by lia. replace (S (length line) - length line) with 1 by lia.
    cbn [drop]. f_equal. apply entries_fuel. apply (f_equal length) in El.
    rewrite length_app in El. cbn in El. lia.
Qed.

Lemma proxied_entries es lines lines' : Forall is_entry es → proxied es lines lines' →
  entries lines' = rev es ++ entries lines.
Proof.
  intros Hes Hp. induction Hp as [lines|es e lines lines1 lines2 Hp IH Ha]; [done|].
  apply Forall_app in Hes as [Hes He]. apply Forall_cons in He as [He _].
  rewrite (appended_entries e lines1 lines2 He Ha), (IH Hes), rev_app_distr. done.
Qed.
End lemmas.

(** ** Properties *)

(** C21. The address cannot be forged: behind as many trusted proxies as configured,
    each appending to X-Forwarded-For as it likes, whatever the client sent in any
    number of lines, the address is the one the outermost trusted proxy wrote, or
    the connection's own when that is not an address. *)
Theorem realip_unforgeable ParseIP forged es lines (Hes : Forall is_entry es) (Hn : 1 <= length es)
    (Hp : proxied es forged lines) :
  resolve ParseIP lines (length es) =
  match head es with Some e => parseEntry ParseIP e | None => None end.
Proof.
  rewrite resolve_entries by done. rewrite (proxied_entries es forged lines Hes Hp).
  rewrite lookup_app_l by (rewrite length_rev; lia).
  destruct es as [|e es]; [cbn in Hn; lia|]. cbn [rev length head].
  rewrite lookup_app_r by (rewrite length_rev; lia).
  rewrite length_rev. by replace (S (length es) - 1 - length es) with 0 by lia.
Qed.

Lemma realip_unforgeable_witness :
  resolve Some [bs "6.6.6.6"; bs "evil, 9.9.9.9, 1.2.3.4:80, 10.0.0.1"] 2 = Some (bs "1.2.3.4").
Proof.
  rewrite (realip_unforgeable Some [bs "6.6.6.6"; bs "evil, 9.9.9.9"] [bs " 1.2.3.4:80"; bs " 10.0.0.1"]).
  - vm_compute. reflexivity.
  - repeat constructor; try done; apply (bool_decide_unpack _); vm_compute; exact I.
  - cbn. lia.
  - change [bs " 1.2.3.4:80"; bs " 10.0.0.1"] with (([] ++ [bs " 1.2.3.4:80"]) ++ [bs " 10.0.0.1"]).
    eapply one_more; [eapply one_more; [apply no_proxy|]|].
    + apply (to_line _ [bs "6.6.6.6"] (bs "evil, 9.9.9.9")).
    + apply (to_line _ [bs "6.6.6.6"] (bs "evil, 9.9.9.9, 1.2.3.4:80")).
Defined.

(** An empty entry counts as a position only when a comma follows or ends the line:
    one in front of a line's first comma is not met, and the count goes on in the
    line before. *)
Lemma leading_empty_not_counted :
  resolve Some [bs "9.9.9.9"; bs ",1.2.3.4"] 2 = Some (bs "9.9.9.9") ∧
  resolve (λ _, None) [bs "9.9.9.9"; bs "5.6.7.8, ,1.2.3.4"] 2 = None.
Proof. split; vm_compute; reflexivity. Qed.
