(* ===== verification/Auth.v ===== *)
(** * Authentication

    [src/middleware/auth.go], [basicauth.go] and [keyauth.go], with the standard
    library's base64. The callback [Validate] is the application's: its answer is a
    function of what it is given. *)

From S2P Require Import Prelude Bytes Pattern Slice Params Accept Fasthttp Errors Ctx Handler App AppSpec Middleware.

(** ** Base64 *)







(** ** Shared pieces *)

Definition cutScheme (v scheme : bytes) : option bytes :=
  let n := length scheme in
  if bool_decide (length v <= n) || negb (bool_decide (v !! n = Some " "%char)) ||
     negb (equalFoldASCII (take n v) scheme)
  then None
  else Some (trim_left (λ c, bool_decide (c = " "%char)) (drop n v)).

Definition is_token_byte (c : ascii) : bool :=
  is_alnum c || bool_decide (c ∈ bs "!#$%&'*+-.^_`|~").

Definition isToken (s : bytes) : bool := negb (bool_decide (s = [])) && forallb is_token_byte s.



(** The key of a request: after Bearer, or a header's whole value. *)
Definition api_key (bearer : bool) (v : bytes) : option bytes :=
  v ← (if bearer then cutScheme v (bs "Bearer") else Some v);
  let k := trimOWS v in if bool_decide (k = []) then None else Some k.

Section auth.
Context `{HA : Any} `{F : Fasthttp} `{HG : AppendGrowth} `{HS : Stored} `{HB : Build}.
Context {T : Type} `{!GoZero T} `{!Boxed T}.

Definition errUnauthorized : err := HTTPError 401 (bs "Unauthorized") None.

Definition unauthorized (challenge : bytes) : Handler :=
  if bool_decide (challenge = []) then Done (Some errUnauthorized)
  else Seq (set_header (bs "WWW-Authenticate") challenge) (λ _, Done (Some errUnauthorized)).

(** What [Validate] returns: the identity, whether the credentials are good, and
    the error of a check that failed. *)
Definition verdict : Type := T * bool * option err.

(** The end both share: the error, the refusal, or the identity stored and the
    next handler. *)
Definition admit_with (key : Key T) (challenge : bytes) (v : verdict) (next : Handler) : Handler :=
  match v.2 with
  | Some e => Done (Some e)
  | None => if v.1.2 then Seq (Call (AKeySet key v.1.1)) (λ _, next) else unauthorized challenge
  end.



(** [KeyAuth]. *)
Definition KeyAuth (key : Key T) (Validate : option (context → bytes → verdict))
    (Header : bytes) (baseCtx : context) : outcome bytes Middleware :=
  match Validate with
  | None => Panic (bs "rice: middleware.KeyAuth: Validate is nil")
  | Some validate =>
    if bool_decide (id key = None) then
      Panic (bs "rice: middleware.KeyAuth: Key is the zero Key; make one with rice.NewKey")
    else if negb (bool_decide (Header = [])) && negb (isToken Header) then
      Panic (bs "rice: middleware.KeyAuth: Header " ++ Header ++ bs " is not a valid header name")
    else if equalFoldASCII Header (bs "Authorization") then
      Panic (bs "rice: middleware.KeyAuth: Header " ++ "034"%char :: bs "Authorization" ++ "034"%char ::
             bs " would hand Validate the scheme too; use " ++ "034"%char :: "034"%char ::
             bs " for Authorization: Bearer <key>")
    else
      let bearer := bool_decide (Header = []) in
      let header := if bearer then bs "Authorization" else Header in
      let challenge := if bearer then bs "Bearer" else [] in
      Ret (λ next : Handler,
        Seq (peek header) (λ v,
          match api_key bearer v with
          | None => unauthorized challenge
          | Some k =>
            Seq (Call (AContext baseCtx)) (λ ctx, admit_with key challenge (validate ctx k) next)
          end))
  end.

(** ** What they do to a request *)




End auth.

(** ** Base64 round trip *)








(** ** Properties *)


Import Sample.

