(* ===== verification/Cors.v ===== *)
(** * Cross-origin requests

    [src/middleware/cors.go]: the compilation of a configuration, and what the
    middleware does to a preflight and to every other request. *)

From S2P Require Import Prelude Bytes Decimal Pattern Slice Params Accept Fasthttp Errors Ctx Handler App AppSpec Middleware.

(** ** Configuration *)

Record CORSConfig : Type := mkCORS {
  Origins : list bytes;
  AllowMethods : list bytes;
  AllowHeaders : list bytes;
  ExposeHeaders : list bytes;
  MaxAge : Z;
  AllowCredentials : bool;
}.

(** The panics of [compileCORS], with what their messages quote. *)
Inductive cors_panic : Type :=
| OriginsEmpty
| BadOrigin (o : bytes)
| MaxAgeNegative
| MaxAgeTooSmall
| BadEntry (field item : bytes).

Definition pair : Type := bytes * bytes.

(** [strings.Cut]. *)
Fixpoint index_sub (sub s : bytes) : option nat :=
  if has_prefix sub s then Some 0
  else match s with [] => None | _ :: s' => S <$> index_sub sub s' end.

Definition cut (sep s : bytes) : option (bytes * bytes) :=
  match index_sub sep s with
  | Some i => Some (take i s, drop (i + length sep) s)
  | None => None
  end.

Definition validOrigin (o : bytes) : bool :=
  match cut (bs "://") o with
  | None => false
  | Some (scheme, rest) =>
    if bool_decide (scheme = []) || bool_decide (rest = []) then false
    else if existsb (λ c, bool_decide (c ∈ bs "/?# ") || bool_decide (c = "009"%char)) rest then false
    else if bool_decide (scheme = bs "https") && has_suffix (bs ":443") rest ||
            bool_decide (scheme = bs "http") && has_suffix (bs ":80") rest then false
    else forallb (λ b, negb (is_upper b || (code b <? 33)%Z)) o
  end.

Definition hasCommaOrControl (s : bytes) : bool :=
  existsb (λ b, (code b <=? 32)%Z || (code b =? 127)%Z || bool_decide (b = ","%char)) s.

(** [strings.Join(items, sep)]. *)
Fixpoint join_with (sep : bytes) (items : list bytes) : bytes :=
  match items with
  | [] => []
  | [x] => x
  | x :: xs => x ++ sep ++ join_with sep xs
  end.

Fixpoint check_items (field : bytes) (items : list bytes) : outcome cors_panic unit :=
  match items with
  | [] => Ret tt
  | it :: items' =>
    if bool_decide (it = []) || hasCommaOrControl it then Panic (BadEntry field it)
    else check_items field items'
  end.

Definition joinList (field : bytes) (items : list bytes) : outcome cors_panic bytes :=
  match check_items field items with
  | Panic p => Panic p
  | Ret _ => Ret (join_with (bs ", ") items)
  end.

Fixpoint check_origins (os : list bytes) : outcome cors_panic unit :=
  match os with
  | [] => Ret tt
  | o :: os' => if negb (validOrigin o) then Panic (BadOrigin o) else check_origins os'
  end.

Definition defaultAllowMethods : list bytes :=
  [bs "GET"; bs "HEAD"; bs "POST"; bs "PUT"; bs "PATCH"; bs "DELETE"].

Definition opt_pair (key value : bytes) : list pair :=
  if bool_decide (value = []) then [] else [(key, value)].

Definition andthen {A B} (m : outcome cors_panic A) (k : A → outcome cors_panic B) : outcome cors_panic B :=
  match m with Ret a => k a | Panic p => Panic p end.

(** [compileCORS]: the origins, the pairs of a real response and of a preflight. *)
Definition compileCORS (cfg : CORSConfig) : outcome cors_panic (list bytes * list pair * list pair) :=
  if bool_decide (Origins cfg = []) then Panic OriginsEmpty
  else andthen (check_origins (Origins cfg)) (λ _,
    if (MaxAge cfg <? 0)%Z then Panic MaxAgeNegative
    else if (0 <? MaxAge cfg)%Z && (MaxAge cfg <? second)%Z then Panic MaxAgeTooSmall
    else
      let methods := if bool_decide (AllowMethods cfg = []) then defaultAllowMethods else AllowMethods cfg in
      andthen (joinList (bs "AllowMethods") methods) (λ ms,
      andthen (joinList (bs "AllowHeaders") (AllowHeaders cfg)) (λ hs,
        let cred := if AllowCredentials cfg then [(bs "Access-Control-Allow-Credentials", bs "true")] else [] in
        let preflight :=
          (bs "Access-Control-Allow-Methods", ms) :: opt_pair (bs "Access-Control-Allow-Headers") hs ++
          (if (0 <? MaxAge cfg)%Z then [(bs "Access-Control-Max-Age", Itoa (quot64 (MaxAge cfg) second))] else []) ++
          cred in
        andthen (joinList (bs "ExposeHeaders") (ExposeHeaders cfg)) (λ es,
          Ret (Origins cfg, cred ++ opt_pair (bs "Access-Control-Expose-Headers") es, preflight))))).

(** [matchOrigin]: the configured origin equal to the request's, or nothing. *)
Fixpoint matchOrigin (origins : list bytes) (origin : bytes) : bytes :=
  match origins with
  | [] => []
  | o :: os => if bool_decide (origin = o) then o else matchOrigin os origin
  end.

(** ** The middleware *)

Section cors.
Context `{HA : Any} `{F : Fasthttp} `{HG : AppendGrowth} `{HS : Stored} `{HB : Build}.

Definition allow_origin : bytes := bs "Access-Control-Allow-Origin".

Definition isPreflight : prog bool :=
  Call (AFctx (λ r,
    (bool_decide (req_Method r = bs "OPTIONS") &&
     negb (bool_decide (default [] (head (req_Header (bs "Access-Control-Request-Method") r)) = [])), r))).

Fixpoint set_pairs (l : list pair) : prog unit :=
  match l with
  | [] => Done tt
  | p :: l' => Seq (set_header p.1 p.2) (λ _, set_pairs l')
  end.

Definition decorate (allowed : bytes) (l : list pair) : prog unit :=
  if bool_decide (allowed = []) then Done tt
  else Seq (set_header allow_origin allowed) (λ _, set_pairs l).

Definition no_content : Handler :=
  Call (AFctx (λ r, (None, SetContentType [] (ResetBody (SetStatusCode 204 r))))).

Definition CORS (cfg : CORSConfig) : outcome cors_panic Middleware :=
  match compileCORS cfg with
  | Panic p => Panic p
  | Ret (origins, real, preflight) => Ret (λ next : Handler,
    Seq (add_header (bs "Vary") (bs "Origin")) (λ _,
      Seq (peek (bs "Origin")) (λ origin,
        if bool_decide (origin = []) then next
        else
          let allowed := matchOrigin origins origin in
          Seq isPreflight (λ pre : bool,
            if pre then Seq (decorate allowed preflight) (λ _, no_content)
            else Seq (decorate allowed real) (λ _, next)))))
  end.

(** ** What it does to the response *)

Definition set_all (l : list pair) (r : RequestCtx) : RequestCtx :=
  foldl (λ r p, SetHeader p.1 p.2 r) r l.

Lemma run_pairs settle l : ∀ s, live_ctx s →
  run_with settle (set_pairs l) s = (Ret tt, mkSt (the s) (set_all l (rc s)) (funnel s)).
Proof.
  induction l as [|[k v] l IH]; intros s Hl; [by destruct s|]. cbn [set_pairs]. rewrite run_seq.
  unfold set_header. rewrite run_fctx by done. cbn [fst snd]. rewrite IH by done. done.
Qed.

Lemma run_decorate settle allowed l s : live_ctx s →
  run_with settle (decorate allowed l) s =
  (Ret tt, mkSt (the s) (if bool_decide (allowed = []) then rc s
                         else set_all l (SetHeader allow_origin allowed (rc s))) (funnel s)).
Proof.
  intros Hl. unfold decorate. case_bool_decide; [by destruct s|]. rewrite run_seq. unfold set_header.
  rewrite run_fctx by done. cbn [fst snd]. by rewrite run_pairs.
Qed.

(** The match is membership: a valid origin is never empty. *)
Lemma matchOrigin_spec origins origin : ([] ∉ origins) →
  matchOrigin origins origin = if bool_decide (origin ∈ origins) then origin else [].
Proof.
  induction origins as [|o os IH]; intros Hne; cbn; [by rewrite bool_decide_eq_false_2 by apply not_elem_of_nil|].
  assert (origin ∈ o :: os ↔ origin = o ∨ origin ∈ os) as Hiff by apply elem_of_cons.
  rewrite (bool_decide_ext _ _ Hiff). destruct (decide (origin = o)) as [->|Ho].
  - rewrite !bool_decide_eq_true_2; [done|by left|done].
  - rewrite (bool_decide_eq_false_2 (origin = o)) by done. rewrite IH by set_solver.
    assert (origin = o ∨ origin ∈ os ↔ origin ∈ os) as Hiff2 by naive_solver.
    by rewrite (bool_decide_ext _ _ Hiff2).
Qed.

End cors.

(** ** The response's headers *)

(** The names [fasthttp] keeps apart from the other response headers. *)
Definition special_names : list bytes :=
  [bs "Content-Type"; bs "Content-Length"; bs "Content-Encoding"; bs "Connection"; bs "Server";
   bs "Set-Cookie"; bs "Transfer-Encoding"; bs "Trailer"; bs "Date"].

Definition same_name (k k' : bytes) : Prop := map fold_ascii k = map fold_ascii k'.

#[export] Instance same_name_dec k k' : Decision (same_name k k').
Proof. unfold same_name. apply _. Defined.

Definition ordinary (k : bytes) : Prop :=
  isMediaToken k = true ∧ Forall (λ n, ¬ same_name k n) special_names.

#[export] Instance ordinary_dec k : Decision (ordinary k).
Proof. unfold ordinary. apply _. Defined.

(** A value [fasthttp] writes as it is: it strips line breaks from others. *)
Definition one_line (v : bytes) : Prop := Forall (λ c, c ≠ "010"%char ∧ c ≠ "013"%char) v.

(** The laws of the response's headers: names are compared without case, an
    ordinary one is replaced by Set and joined by Add. *)
Class HeaderLaws (F : Fasthttp) : Prop := {
  header_set : ∀ k v r, ordinary k → one_line v → Header k (SetHeader k v r) = [v];
  header_set_ne : ∀ k k' v r, isMediaToken k = true → ordinary k' → one_line v → ¬ same_name k k' →
    Header k (SetHeader k' v r) = Header k r;
  header_add : ∀ k v r, ordinary k → one_line v → Header k (AddHeader k v r) = Header k r ++ [v];
  header_add_ne : ∀ k k' v r, isMediaToken k = true → ordinary k' → one_line v → ¬ same_name k k' →
    Header k (AddHeader k' v r) = Header k r;
  add_req_header : ∀ k k' v r, req_Header k (AddHeader k' v r) = req_Header k r;
  add_req_method : ∀ k v r, req_Method (AddHeader k v r) = req_Method r;
}.

(** Pairs that can be set one after the other without getting in each other's way. *)
Definition apart (l : list (bytes * bytes)) : Prop :=
  Forall (λ p, ordinary p.1 ∧ one_line p.2) l ∧ NoDup (map (λ p, map fold_ascii p.1) l).

Lemma set_all_other `{F : Fasthttp} {HL : HeaderLaws F} k l : isMediaToken k = true → ∀ r,
  Forall (λ p, ordinary p.1 ∧ one_line p.2) l → (∀ p, p ∈ l → ¬ same_name k p.1) →
  Header k (set_all l r) = Header k r.
Proof.
  intros Hk. induction l as [|p l IH]; intros r Hl Hn; [done|]. apply Forall_cons in Hl as [[Ho Hv] Hl].
  cbn [set_all foldl]. fold (set_all l (SetHeader p.1 p.2 r)).
  rewrite IH by (try done; intros q Hq; apply Hn; by right). apply header_set_ne; try done.
  apply Hn. by left.
Qed.

Lemma set_all_in `{F : Fasthttp} {HL : HeaderLaws F} l k v : ∀ r,
  apart l → (k, v) ∈ l → Header k (set_all l r) = [v].
Proof.
  induction l as [|p l IH]; intros r [Hl Hnd] Hin; [by apply elem_of_nil in Hin|].
  apply Forall_cons in Hl as [Hp Hl]. cbn [map] in Hnd. apply NoDup_cons in Hnd as [Hnin Hnd].
  cbn [set_all foldl]. fold (set_all l (SetHeader p.1 p.2 r)). apply elem_of_cons in Hin as [<-|Hin].
  - destruct Hp as [Ho Hv]. rewrite set_all_other; [by apply header_set|by destruct Ho|done|].
    intros q Hq Hs. apply Hnin. unfold same_name in Hs. cbn [fst] in *. rewrite Hs.
    apply list_elem_of_fmap. by exists q.
  - apply IH; [by split|done].
Qed.

(** ** The policy *)

(** The items with a comma and a space between them. *)
Definition commas (items : list bytes) : bytes :=
  match items with
  | [] => []
  | x :: xs => x ++ concat (map (λ y, bs ", " ++ y) xs)
  end.

(** The headers an allowed origin gets beside its own name, read off the
    configuration: on a preflight and on any other response. *)
Definition policy_headers (cfg : CORSConfig) (pre : bool) : list (bytes * bytes) :=
  let credentials := if AllowCredentials cfg then [(bs "Access-Control-Allow-Credentials", bs "true")] else [] in
  if pre then
    [(bs "Access-Control-Allow-Methods",
      match AllowMethods cfg with
      | [] => bs "GET, HEAD, POST, PUT, PATCH, DELETE"
      | ms => commas ms
      end)] ++
    match AllowHeaders cfg with [] => [] | hs => [(bs "Access-Control-Allow-Headers", commas hs)] end ++
    (if decide (MaxAge cfg = 0%Z) then []
     else [(bs "Access-Control-Max-Age", Itoa (MaxAge cfg / 1000000000))]) ++
    credentials
  else
    credentials ++
    match ExposeHeaders cfg with [] => [] | es => [(bs "Access-Control-Expose-Headers", commas es)] end.

Lemma join_commas items : join_with (bs ", ") items = commas items.
Proof.
  destruct items as [|x xs]; [done|]. revert x. induction xs as [|y ys IH]; intros x.
  { cbn. by rewrite app_nil_r. }
  change (join_with (bs ", ") (x :: y :: ys)) with (x ++ bs ", " ++ join_with (bs ", ") (y :: ys)).
  rewrite IH. cbn [commas map concat]. by rewrite <-app_assoc.
Qed.

Definition clean_item (it : bytes) : Prop := it ≠ [] ∧ one_line it.

Lemma joinList_ret field items v : joinList field items = Ret v →
  v = commas items ∧ Forall clean_item items.
Proof.
  unfold joinList. destruct (check_items field items) as [[]|p] eqn:E; [|done].
  intros [= <-]. split; [apply join_commas|]. induction items as [|it items IH]; [constructor|].
  cbn in E. destruct (bool_decide (it = [])) eqn:E1; [done|]. destruct (hasCommaOrControl it) eqn:E2; [done|].
  constructor; [|by apply IH]. apply bool_decide_eq_false in E1. split; [done|].
  apply Forall_forall. intros c Hc. assert (¬ (code c <= 32)%Z) as Hcode.
  { intros Hle. apply not_true_iff_false in E2. apply E2. apply existsb_exists. exists c.
    split; [by apply list_elem_of_In|]. by rewrite (proj2 (Z.leb_le _ _) Hle). }
  split; intros ->; by apply Hcode.
Qed.

Lemma commas_nonempty items : Forall clean_item items → commas items = [] ↔ items = [].
Proof. destruct 1 as [|x xs [Hx _] _]; [done|]. split; [|done]. by destruct x. Qed.

Lemma commas_one_line items : Forall clean_item items → one_line (commas items).
Proof.
  destruct 1 as [|x xs [_ Hx] Hxs]; [constructor|]. apply Forall_app. split; [done|].
  induction Hxs as [|y ys [_ Hy] _ IH]; cbn; [constructor|]. repeat constructor; try done.
  apply Forall_app. by split.
Qed.

Lemma digits_one_line v : forallb is_digit v = true → one_line v.
Proof.
  rewrite forallb_forall. intros H. apply Forall_forall. intros c Hc%list_elem_of_In%H.
  split; intros ->; discriminate Hc.
Qed.

(** What a configuration that is accepted is worth. *)
Record accepted (cfg : CORSConfig) : Prop := {
  acc_origins : Forall (λ o, o ≠ [] ∧ one_line o) (Origins cfg);
  acc_age : (0 <= MaxAge cfg)%Z;
  acc_methods : Forall clean_item (AllowMethods cfg);
  acc_headers : Forall clean_item (AllowHeaders cfg);
  acc_expose : Forall clean_item (ExposeHeaders cfg);
}.

Lemma validOrigin_clean o : validOrigin o = true → o ≠ [] ∧ one_line o.
Proof.
  intros H. split; [by intros ->|]. unfold validOrigin in H.
  destruct (cut _ o) as [[scheme rest]|]; [|done]. do 3 (case_match; [done|]).
  rewrite forallb_forall in H. apply Forall_forall. intros c Hc%list_elem_of_In%H.
  apply negb_true_iff, orb_false_iff in Hc as [_ Hc]. split; intros ->; discriminate Hc.
Qed.

Lemma check_origins_ret os u : check_origins os = Ret u → Forall (λ o, o ≠ [] ∧ one_line o) os.
Proof.
  induction os as [|o os IH]; cbn; [constructor|]. destruct (validOrigin o) eqn:Ev; [|done].
  intros H. constructor; [by apply validOrigin_clean|by apply IH].
Qed.

(** The compiled lists are the policy. *)
Lemma compileCORS_policy cfg origins real preflight :
  int64_range (MaxAge cfg) → compileCORS cfg = Ret (origins, real, preflight) →
  origins = Origins cfg ∧ real = policy_headers cfg false ∧ preflight = policy_headers cfg true ∧
  accepted cfg.
Proof.
  intros Hage. unfold compileCORS. case_bool_decide; [done|]. unfold andthen.
  destruct (check_origins (Origins cfg)) as [u|p] eqn:Eo; [|done]. apply check_origins_ret in Eo.
  destruct (MaxAge cfg <? 0)%Z eqn:Eneg; [done|]. destruct (_ && _); [done|]. cbv zeta.
  destruct (joinList (bs "AllowMethods") _) as [ms|p] eqn:Em; [|done].
  destruct (joinList (bs "AllowHeaders") _) as [hs|p] eqn:Eh; [|done].
  destruct (joinList (bs "ExposeHeaders") _) as [es|p] eqn:Ee; [|done].
  apply joinList_ret in Em as [-> Hms], Eh as [-> Hhs], Ee as [-> Hes].
  intros [= <- <- <-]. to_prop. split; [done|].
  assert (∀ k items, Forall clean_item items →
    opt_pair k (commas items) = match items with [] => [] | _ => [(k, commas items)] end) as Hopt.
  { intros k items Hi. unfold opt_pair. destruct items as [|it items]; [done|].
    rewrite bool_decide_eq_false_2; [done|]. by rewrite commas_nonempty. }
  rewrite !Hopt by done. unfold policy_headers.
  split; [by destruct (AllowCredentials cfg), (ExposeHeaders cfg)|]. split.
  - cbn [Datatypes.app]. f_equal.
    { f_equal. case_bool_decide as Hm; [rewrite Hm; reflexivity|]. by destruct (AllowMethods cfg). }
    f_equal; [by destruct (AllowHeaders cfg)|]. f_equal.
    destruct (0 <? MaxAge cfg)%Z eqn:Epos; to_prop.
    + rewrite decide_False by lia. unfold quot64, second. rewrite Z.quot_div_nonneg by lia.
      rewrite wrap64_id; [done|]. unfold int64_range, min_int64, max_int64 in *.
      pose proof (Z.div_le_upper_bound (MaxAge cfg) 1000000000 (2 ^ 63 - 1)).
      pose proof (Z.div_pos (MaxAge cfg) 1000000000). lia.
    + by rewrite decide_True by lia.
  - split; try done. case_bool_decide as Hm; [rewrite Hm; constructor|done].
Qed.

(** An accepted origin's headers can be set together, and beside Vary. *)
Lemma policy_apart cfg origin pre :
  accepted cfg → int64_range (MaxAge cfg) → origin ∈ Origins cfg →
  apart ((bs "Vary", bs "Origin") :: (allow_origin, origin) :: policy_headers cfg pre).
Proof.
  intros [Ho Hage Hm Hh He] Hr Hin. rewrite Forall_forall in Ho. destruct (Ho _ Hin) as [_ Horig].
  apply commas_one_line in Hm, Hh, He.
  assert (one_line (Itoa (MaxAge cfg / 1000000000))) as Hi.
  { apply digits_one_line, Itoa_spec. unfold int64_range, min_int64, max_int64 in *.
    pose proof (Z.div_le_upper_bound (MaxAge cfg) 1000000000 (2 ^ 63 - 1)).
    pose proof (Z.div_pos (MaxAge cfg) 1000000000). lia. }
  assert (∀ k v l, ordinary k → one_line v → Forall (λ p, ordinary p.1 ∧ one_line p.2) l →
    Forall (λ p, ordinary p.1 ∧ one_line p.2) ((k, v) :: l)) as Hcons by (by constructor).
  assert (∀ k, bool_decide (ordinary k) = true → ordinary k) as Hord
    by (intros k; apply bool_decide_eq_true_1).
  assert (one_line (match AllowMethods cfg with [] => bs "GET, HEAD, POST, PUT, PATCH, DELETE" | ms => commas ms end))
    as Hmeth.
  { destruct (AllowMethods cfg); [|done]. repeat constructor; done. }
  assert (one_line (bs "true") ∧ one_line (bs "Origin")) as [Ht Hv] by (repeat constructor; done).
  unfold apart, policy_headers. destruct pre.
  - destruct (AllowHeaders cfg), (decide (MaxAge cfg = 0%Z)), (AllowCredentials cfg); cbn [Datatypes.app];
      (split; [repeat (apply Hcons; [apply Hord; reflexivity|done|]); apply Forall_nil_2
              |apply (bool_decide_unpack _); vm_compute; exact I]).
  - destruct (ExposeHeaders cfg), (AllowCredentials cfg); cbn [Datatypes.app];
      (split; [repeat (apply Hcons; [apply Hord; reflexivity|done|]); apply Forall_nil_2
              |apply (bool_decide_unpack _); vm_compute; exact I]).
Qed.

(** Serving behind the middleware, whatever the lists it was compiled to. *)
Lemma run_cors `{HA : Any} `{F : Fasthttp} `{HG : AppendGrowth} `{HS : Stored} `{HB : Build}
    {HL : HeaderLaws F} cfg real preflight next eh s :
  compileCORS cfg = Ret (Origins cfg, real, preflight) → accepted cfg → live_ctx s →
  let origin := default [] (head (req_Header (bs "Origin") (rc s))) in
  let pre := bool_decide (req_Method (rc s) = bs "OPTIONS") &&
             negb (bool_decide (default [] (head (req_Header (bs "Access-Control-Request-Method") (rc s))) = [])) in
  let l := if pre then preflight else real in
  let sent := if decide (origin ∈ Origins cfg) then (allow_origin, origin) :: l else [] in
  let r := set_all sent (AddHeader (bs "Vary") (bs "Origin") (rc s)) in
  match CORS cfg with
  | Panic _ => False
  | Ret mw =>
    run_handler eh (mw next) s =
    if negb (bool_decide (origin = [])) && pre then
      (Ret None, mkSt (the s) (SetContentType [] (ResetBody (SetStatusCode 204 r))) (funnel s))
    else run_handler eh next (mkSt (the s) r (funnel s))
  end.
Proof.
  intros Hc [Ho _ _ _ _] Hl origin pre l sent r. unfold CORS. rewrite Hc.
  assert (([] : bytes) ∉ Origins cfg) as Hne.
  { intros Hin. rewrite Forall_forall in Ho. by destruct (Ho _ Hin). }
  unfold run_handler, peek, add_header, isPreflight, no_content.
  rewrite run_seq, run_fctx by done. cbn [fst snd].
  rewrite run_seq, run_fctx by done. cbn [fst snd the rc funnel]. rewrite add_req_header. fold origin.
  case_bool_decide as He.
  { unfold r, sent. rewrite decide_False by by rewrite He. done. }
  rewrite run_seq, run_fctx by done. cbn [fst snd the rc funnel].
  rewrite add_req_method, add_req_header. fold pre. cbn [negb andb].
  rewrite matchOrigin_spec by done.
  assert (∀ l r, (if bool_decide ((if bool_decide (origin ∈ Origins cfg) then origin else []) = []) then r
                else set_all l (SetHeader allow_origin
                  (if bool_decide (origin ∈ Origins cfg) then origin else []) r)) =
               set_all (if decide (origin ∈ Origins cfg) then (allow_origin, origin) :: l else []) r) as Hd.
  { intros l' r'. destruct (decide (origin ∈ Origins cfg)) as [Hi|Hi].
    - rewrite (bool_decide_eq_true_2 _ Hi). by rewrite (bool_decide_eq_false_2 (origin = [])).
    - rewrite (bool_decide_eq_false_2 _ Hi). by rewrite (bool_decide_eq_true_2 ([] = [])). }
  unfold r, sent, l.
  destruct pre; rewrite run_seq, run_decorate by done; cbn [the rc funnel]; rewrite Hd; [|done].
  by rewrite run_fctx.
Qed.

(** The headers of the plain instance under one name. *)
Definition named (k : bytes) (l : list (bytes * bytes)) : list bytes :=
  omap (λ kv, if decide (kv.1 = k) then Some kv.2 else None) l.

Lemma named_cons k p l : named k (p :: l) = (if decide (p.1 = k) then [p.2] else []) ++ named k l.
Proof. unfold named. cbn. by case_decide. Qed.

Lemma named_app k l l' : named k (l ++ l') = named k l ++ named k l'.
Proof. induction l as [|p l IH]; [done|]. cbn [Datatypes.app]. rewrite !named_cons, IH. by rewrite app_assoc. Qed.

Lemma named_filter k k' l :
  named k (filter (λ kv, kv.1 ≠ k') l) = if decide (k = k') then [] else named k l.
Proof.
  induction l as [|p l IH]; [by case_decide|]. rewrite filter_cons, named_cons.
  destruct (decide (p.1 ≠ k')) as [Hp|Hp]; [rewrite named_cons|]; rewrite IH;
    repeat case_decide; subst; try done; by destruct Hp.
Qed.

#[export] Instance plain_header_laws : HeaderLaws plain_fasthttp.
Proof.
  assert (∀ k k' v, ¬ same_name k k' → named k [(k', v)] = []) as Hne.
  { intros k k' v Hk. rewrite named_cons, decide_False; [done|]. cbn. by intros ->. }
  split; [intros k v r _ _|intros k k' v r _ _ _ Hk|intros k v r _ _|intros k k' v r _ _ _ Hk|done|done].
  - change (named k (filter (λ kv, kv.1 ≠ k) (rq_headers r) ++ [(k, v)]) = [v]).
    rewrite named_app, named_filter, named_cons, !decide_True by done. done.
  - change (named k (filter (λ kv, kv.1 ≠ k') (rq_headers r) ++ [(k', v)]) = named k (rq_headers r)).
    rewrite named_app, named_filter, Hne, app_nil_r, decide_False; [done|by intros ->|done].
  - change (named k (rq_headers r ++ [(k, v)]) = named k (rq_headers r) ++ [v]).
    by rewrite named_app, named_cons, decide_True.
  - change (named k (rq_headers r ++ [(k', v)]) = named k (rq_headers r)).
    by rewrite named_app, Hne, app_nil_r.
Qed.

(** ** Properties *)

(** C19. The policy: every response gets Vary: Origin; a request without an Origin,
    or with one that is not listed, gets nothing else and its handler runs as
    usual; a listed origin gets exactly itself as the allowed origin, and the
    headers the configuration spells out for a preflight or for any other response,
    each with that one value, before the chain runs; no other header changes; and a
    preflight is answered 204 on the spot, with or without them, whatever the chain
    behind it is. *)
Theorem cors_policy `{HA : Any} `{F : Fasthttp} `{HG : AppendGrowth} `{HS : Stored} `{HB : Build}
    {HL : HeaderLaws F} cfg mw next eh s
    (Hage : int64_range (MaxAge cfg)) (Hmw : CORS cfg = Ret mw) (Hl : live_ctx s) :
  let origin := default [] (head (req_Header (bs "Origin") (rc s))) in
  let pre := bool_decide (req_Method (rc s) = bs "OPTIONS") &&
             negb (bool_decide (default [] (head (req_Header (bs "Access-Control-Request-Method") (rc s))) = [])) in
  let sent := if decide (origin ∈ Origins cfg) then (allow_origin, origin) :: policy_headers cfg pre else [] in
  let r := set_all sent (AddHeader (bs "Vary") (bs "Origin") (rc s)) in
  run_handler eh (mw next) s =
    (if negb (bool_decide (origin = [])) && pre then
       (Ret None, mkSt (the s) (SetContentType [] (ResetBody (SetStatusCode 204 r))) (funnel s))
     else run_handler eh next (mkSt (the s) r (funnel s))) ∧
  (∀ k v, (k, v) ∈ sent → Header k r = [v]) ∧
  Header (bs "Vary") r = Header (bs "Vary") (rc s) ++ [bs "Origin"] ∧
  (∀ k, isMediaToken k = true → ¬ same_name k (bs "Vary") → (∀ p, p ∈ sent → ¬ same_name k p.1) →
     Header k r = Header k (rc s)).
Proof.
  intros origin pre sent r.
  destruct (compileCORS cfg) as [[[os real] preflight]|p] eqn:Hc;
    [|unfold CORS in Hmw; by rewrite Hc in Hmw].
  destruct (compileCORS_policy _ _ _ _ Hage Hc) as (-> & -> & -> & Hacc).
  pose proof (run_cors cfg _ _ next eh s Hc Hacc Hl) as Hrun. rewrite Hmw in Hrun. cbv zeta in Hrun.
  fold origin pre in Hrun.
  assert (apart ((bs "Vary", bs "Origin") :: sent)) as [[[Hord Hone] Hap]%Forall_cons [Hv Hnd]%NoDup_cons].
  { unfold sent. case_decide; [by apply policy_apart|]. split; [|repeat constructor; apply not_elem_of_nil].
    constructor; [|constructor]. split; [|repeat constructor; done].
    apply (bool_decide_unpack _). vm_compute. exact I. }
  split_and!.
  - rewrite Hrun. unfold r, sent. by destruct pre.
  - intros k v Hin. apply set_all_in; [by split|done].
  - unfold r. rewrite set_all_other; [by apply header_add|apply Hord|done|].
    intros p Hp Hs. apply Hv, list_elem_of_fmap. by exists p.
  - intros k Hk Hkv Hs. unfold r. rewrite set_all_other by done. by apply header_add_ne.
Qed.

Import Sample.

Definition sample_cors : CORSConfig :=
  mkCORS [bs "https://a.example"] [] [bs "Authorization"] [bs "X-Request-Id"; bs "X-Total"] 0 true.

Lemma cors_policy_witness :
  let s := requesting (bs "Origin") (bs "https://a.example") in
  match CORS sample_cors with
  | Ret mw =>
    let r := rc (run_handler default_handler (mw notFound) s).2 in
    Header allow_origin r = [bs "https://a.example"] ∧
    Header (bs "Access-Control-Expose-Headers") r = [bs "X-Request-Id, X-Total"]
  | _ => False
  end.
Proof.
  intros s. destruct (CORS sample_cors) as [mw|p] eqn:Em; [|discriminate Em].
  destruct (cors_policy sample_cors mw notFound default_handler s ltac:(done) Em) as (Hrun & Hh & _);
    [by split|].
  rewrite Hrun. split.
  - etrans; [|exact (Hh allow_origin (bs "https://a.example") ltac:(by left))]. reflexivity.
  - etrans; [|exact (Hh (bs "Access-Control-Expose-Headers") (bs "X-Request-Id, X-Total")
                       ltac:(by right; right; left))]. reflexivity.
Defined.
