(* ===== verification/Endpoints.v ===== *)
(** * Probes and request bodies

    [src/health/health.go] and [src/binding/binding.go]. A check's answer, a JSON
    decoder and a Validate method are the application's and the standard library's:
    what they return is an argument. *)

From S2P Require Import Prelude Bytes Pattern Slice Params Accept Fasthttp Errors Ctx Handler Middleware.

Section endpoints.
Context `{HA : Any} `{F : Fasthttp} `{HG : AppendGrowth} `{HS : Stored} `{HB : Build}.

(** ** Health *)

(** [c.String(code, body)]. *)
Definition string_response (code : Z) (body : bytes) : Handler :=
  Call (AFctx (λ r, (None, SetBody body (SetContentType MIMETextPlainUTF8 (SetStatusCode code r))))).

Definition Live : Handler := string_response 200 (bs "ok").

Definition errNotReady : err := HTTPError 503 (bs "not ready") None.

(** [Fn] under the derived context: it panics, or it returns, with its error and
    the error of that context by then. *)
Definition CheckFn : Type := context → outcome (panic_value err) (option err * option err).

Record Check_ : Type := mkCheck {
  ch_Name : bytes;
  ch_Timeout : Z;
  ch_Fn : option CheckFn;
}.

Definition defaultTimeout : Z := second.

(** [run]: the check's own error first; its panic goes on, the context cancelled. *)
Definition run_check (WithTimeout : Z → context → context) (parent : context)
    (timeout : Z) (fn : CheckFn) : outcome (panic_value err) (option err) :=
  let timeout := if (timeout =? 0)%Z then defaultTimeout else timeout in
  match fn (WithTimeout timeout parent) with
  | Panic v => Panic v
  | Ret r => Ret (match r.1 with Some e => Some e | None => r.2 end)
  end.

Inductive ready_panic : Type :=
| AppNil
| EmptyName
| NilFn (name : bytes)
| NegativeTimeout (name : bytes).

Fixpoint check_checks (checks : list Check_) : outcome ready_panic (list (bytes * Z * CheckFn)) :=
  match checks with
  | [] => Ret []
  | ch :: checks' =>
    if bool_decide (ch_Name ch = []) then Panic EmptyName
    else match ch_Fn ch with
         | None => Panic (NilFn (ch_Name ch))
         | Some fn =>
           if (ch_Timeout ch <? 0)%Z then Panic (NegativeTimeout (ch_Name ch))
           else match check_checks checks' with
                | Ret l => Ret ((ch_Name ch, ch_Timeout ch, fn) :: l)
                | Panic p => Panic p
                end
         end
  end.

(** [fmt.Errorf] with %q and %w: [quote] is [strconv.Quote]. *)
Definition check_failed (quote : bytes → bytes) (name : bytes) (e : err) : err :=
  WrapError (bs "health: check " ++ quote name ++ bs ": " ++ Error e) e.

Fixpoint run_checks (quote : bytes → bytes) (wt : Z → context → context) (parent : context)
    (checks : list (bytes * Z * CheckFn)) : outcome (panic_value err) (option err) :=
  match checks with
  | [] => Ret None
  | (name, timeout, fn) :: checks' =>
    match run_check wt parent timeout fn with
    | Panic v => Panic v
    | Ret (Some e) => Ret (Some (HTTPError 503 (bs "not ready") (Some (check_failed quote name e))))
    | Ret None => run_checks quote wt parent checks'
    end
  end.

(** [health.Ready]: [ready] is the App's readiness when the request arrives. *)
Definition health_Ready (quote : bytes → bytes) (app : option bool) (wt : Z → context → context)
    (baseCtx : context) (checks : list Check_) : outcome ready_panic Handler :=
  match app with
  | None => Panic AppNil
  | Some ready =>
    match check_checks checks with
    | Panic p => Panic p
    | Ret l => Ret (
      if negb ready then Done (Some errNotReady)
      else Seq (Call (AContext baseCtx)) (λ parent,
        match run_checks quote wt parent l with
        | Panic v => PanicNow v
        | Ret (Some e) => Done (Some e)
        | Ret None => string_response 200 (bs "ok")
        end))
    end
  end.

(** ** Binding *)

(** What [Decode] returned, and whether [More] found trailing data. [is_EOF] is
    [errors.Is(err, io.EOF)]. *)
Record decoding (T : Type) : Type := mkDecoding {
  decoded : result err T;
  is_EOF : bool;
  more : bool;
}.
Arguments mkDecoding {T}. Arguments decoded {T}. Arguments is_EOF {T}. Arguments more {T}.

Definition errTrailingData : err := PlainError (bs "binding: trailing data after the JSON value").

(** [binding.JSON]: [validate] is [None] for a type without a Validate method. *)
Definition bind_JSON {T} (decode : bytes → decoding T) (validate : option (T → option err))
    (body : bytes) : result err T :=
  let d := decode body in
  match decoded d with
  | Err e =>
    if is_EOF d then Err (HTTPError 400 (bs "empty request body") (Some e))
    else Err (HTTPError 400 (bs "invalid JSON body") (Some e))
  | Ok out =>
    if more d then Err (HTTPError 400 (bs "invalid JSON body") (Some errTrailingData))
    else
      match validate with
      | None => Ok out
      | Some validate =>
        match validate out with
        | None => Ok out
        | Some e =>
          match errors_As is_http e with
          | Some _ => Err e
          | None => Err (HTTPError 422 (Error e) (Some e))
          end
        end
      end
  end.

(** ** Lemmas *)

(** Every failure of binding is a 4xx the client can act on, or a status the
    author of Validate chose. *)
Lemma bind_JSON_status {T} decode (validate : option (T → option err)) body e :
  bind_JSON decode validate body = Err e →
  (∃ c m cause, e = HTTPError c m cause ∧ c ∈ [400; 422]%Z) ∨
  (∃ v out, validate = Some v ∧ v out = Some e ∧ is_Some (errors_As is_http e)).
Proof.
  unfold bind_JSON. destruct (decoded (decode body)) as [out|e0].
  - destruct (more (decode body)).
    { intros [= <-]. left. do 3 eexists. split; [reflexivity|set_solver]. }
    destruct validate as [v|]; [|done]. destruct (v out) as [e1|] eqn:Ev; [|done].
    destruct (errors_As is_http e1) as [h|] eqn:Eh; intros [= <-].
    + right. exists v, out. by rewrite Eh.
    + left. do 3 eexists. split; [reflexivity|set_solver].
  - destruct (is_EOF (decode body)); intros [= <-]; left; do 3 eexists; (split; [reflexivity|set_solver]).
Qed.
End endpoints.
