(* ===== verification/Emit.v ===== *)
(** * Middleware that tells the outside something

    A handler that also makes calls on a logger or a tracer, as a computation over
    the request's state and the list of those calls, and the chain such middleware
    wrap: one whose error is settled with [HandleError] before they look at the
    response. *)

From S2P Require Import Prelude Bytes Pattern Slice Params Tree TreeSpec TreeLookup Router Accept Fasthttp Errors Ctx Handler Isolation App AppSpec Dispatch Middleware.

(** A computation over the request and the calls of type [T] made so far. *)
Abbreviation G T := (go (St * list T) (panic_value err)).

Section emit.
Context `{HA : Any} `{F : Fasthttp} `{HG : AppendGrowth} `{HS : Stored} `{HB : Build}.

Definition lift {T A} (m : M A) : G T A := λ s,
  let '(o, s') := m s.1 in (o, (s', s.2)).
Definition emit {T} (x : T) : G T unit := go_modify (λ s, (s.1, s.2 ++ [x])).

(** ** Steps *)

(** One step of a program of [G]: a step on the request, and a call. *)
Lemma lift_step {T A B} (m : M A) (f : A → G T B) s (t : list T) a s' :
  m s = (Ret a, s') → (lift m ≫= f) (s, t) = f a (s', t).
Proof. intros H. apply go_bind_ret. unfold lift. cbn. by rewrite H. Qed.

Lemma lift_panic {T A B} (m : M A) (f : A → G T B) s (t : list T) v s' :
  m s = (Panic v, s') → (lift m ≫= f) (s, t) = (Panic v, (s', t)).
Proof. intros H. apply go_bind_panic. unfold lift. cbn. by rewrite H. Qed.

Lemma emit_step {T B} (x : T) (f : unit → G T B) s t : (emit x ≫= f) (s, t) = f tt (s, t ++ [x]).
Proof. reflexivity. Qed.

Lemma skip_step {T B} (f : unit → G T B) s (t : list T) : ((mret tt : G T unit) ≫= f) (s, t) = f tt (s, t).
Proof. reflexivity. Qed.

Lemma deref_read {A} (f : RequestCtx → A) s : live_ctx s → deref (λ r, (f r, r)) s = (Ret (f (rc s)), s).
Proof. intros [Hf _]. unfold deref. rewrite Hf. by destruct s. Qed.

Lemma with_fctx_read {A} (f : RequestCtx → A) s : live_ctx s →
  with_fctx (λ r, (f r, r)) s = (Ret (f (rc s)), s).
Proof.
  intros Hl. unfold with_fctx, mbind, go_bind. rewrite check_live by done. exact (deref_read f s Hl).
Qed.

Lemma Route_live s : live_ctx s → Route s = (Ret (Ctx.route (the s)), s).
Proof. intros Hl. unfold Route, mbind, go_bind. by rewrite check_live. Qed.

Lemma Context_live base s : live_ctx s → Context_ base s = (Ret (default base (ctx (the s))), s).
Proof. intros Hl. unfold Context_, mbind, go_bind. by rewrite check_live. Qed.

Definition in_ctx (v : context) (s : St) : St := mkSt (set_ctx (Some v) (the s)) (rc s) (funnel s).

Lemma SetContext_live v s : live_ctx s → SetContext (Some v) s = (Ret tt, in_ctx v s).
Proof. intros Hl. unfold SetContext, mbind, go_bind. by rewrite check_live. Qed.

Lemma live_settles s s' : live_ctx s → settles s s' → live_ctx s'.
Proof. intros [Hf Hp] []. split; congruence. Qed.

(** ** A chain whose error is settled *)

Definition settled_chain (next : Handler) : prog (option err) :=
  Seq next (λ e, match e with
                 | Some _ => Seq (HandleError e) (λ _, Done e)
                 | None => Done None
                 end).

(** [HandleError] on a live request, and the chain settled by it. *)
Lemma HandleError_run eh e s : live_ctx s →
  run_handler eh (HandleError (Some e)) s =
  if handled (the s) then (Ret tt, s) else call_funnel eh e (mkSt (set_handled (the s)) (rc s) (funnel s)).
Proof.
  intros Hl. unfold run_handler. cbn [run_with]. unfold mbind, go_bind. rewrite check_live by done.
  rewrite get_ctx_run. by destruct (handled (the s)).
Qed.

Lemma HandleError_returns eh e s : live_ctx s →
  ∃ s', run_handler eh (HandleError (Some e)) s = (Ret tt, s') ∧ live_ctx s'.
Proof.
  intros Hl. pose proof (run_settles eh (HandleError (Some e)) s (proj1 Hl)) as Hse.
  apply (live_settles _ _ Hl) in Hse. eexists. split; [|exact Hse].
  rewrite HandleError_run by done. destruct (handled (the s)); [done|].
  apply injective_projections; [|done]. by apply call_funnel_spec, Hl.
Qed.

Lemma settled_chain_run eh next s : live_ctx s →
  run_handler eh (settled_chain next) s =
  match run_handler eh next s with
  | (Ret (Some e), s') => (Ret (Some e), (run_handler eh (HandleError (Some e)) s').2)
  | x => x
  end.
Proof.
  intros Hl. pose proof (run_settles eh next s (proj1 Hl)) as Hse.
  unfold settled_chain, run_handler at 1. rewrite run_seq. fold (run_handler eh next).
  destruct (run_handler eh next s) as [[[e|]|v] s']; [|done|done].
  rewrite run_seq. fold (run_handler eh (HandleError (Some e))).
  destruct (HandleError_returns eh e s' (live_settles _ _ Hl Hse)) as (s'' & -> & _). done.
Qed.

(** ** What the App makes of a result *)

(** What [App.handle] does with a handler's result, before its recovery: the part
    of [body] after the handler. *)
Definition after_handler (eh : ErrorHandler) (m : M (option err)) : M unit :=
  res ← m;
  c ← get_ctx;
  match res with
  | Some e => if handled c then mret tt else put_ctx set_handled;; call_funnel eh e
  | None => mret tt
  end.

Lemma after_handler_run eh m s :
  after_handler eh m s =
  match m s with
  | (Ret (Some e), s') =>
    if handled (the s') then (Ret tt, s')
    else call_funnel eh e (mkSt (set_handled (the s')) (rc s') (funnel s'))
  | (Ret None, s') => (Ret tt, s')
  | (Panic v, s') => (Panic v, s')
  end.
Proof.
  unfold after_handler, mbind, go_bind. destruct (m s) as [[[e|]|v] s']; [|done|done].
  rewrite get_ctx_run. by destruct (handled (the s')).
Qed.

Lemma body_after_handler a : body a = after_handler (errorHandler a) (serve a).
Proof. reflexivity. Qed.

(** A middleware's handler, its calls forgotten. *)
Definition quietly {T} (t : list T) (m : G T (option err)) : M (option err) := λ s,
  let '(o, (s', _)) := m (s, t) in (o, s').

(** Behind such a middleware a chain ends as it would without it. *)
Lemma after_settled eh next s o s1 : live_ctx s →
  run_handler eh (settled_chain next) s = (o, s1) →
  after_handler eh (run_handler eh next) s = (match o with Ret _ => Ret tt | Panic v => Panic v end, s1).
Proof.
  intros Hl Hx. pose proof (run_settles eh next s (proj1 Hl)) as Hse.
  rewrite settled_chain_run in Hx by done. rewrite after_handler_run.
  destruct (run_handler eh next s) as [[[e|]|v] s0]; cbn [snd] in Hse; injection Hx as <- <-; [|done|done].
  pose proof (live_settles s s0 Hl Hse) as Hl0.
  destruct (HandleError_returns eh e s0 Hl0) as (s2 & He & _). rewrite He.
  rewrite HandleError_run in He by done. by rewrite He.
Qed.
End emit.
