(* ===== verification/Otel.v ===== *)
(** * Tracing and metrics

    [src/otelrice/otelrice.go] and [carrier.go]: the middleware that wraps a request
    in a span. OpenTelemetry's providers, propagators and span contexts are
    arguments; what the middleware tells them is a list of calls, in order, which is
    everything an exporter can see of it. What the chain itself records on the span
    is not in that list. *)

From S2P Require Import Prelude Bytes Decimal Pattern Slice Params Tree TreeSpec TreeLookup Router Accept Fasthttp Errors Ctx Handler Isolation App AppSpec Dispatch Middleware Emit.

(** The semantic conventions' attribute keys the source names. *)
Inductive attribute_key : Type :=
| HTTPRequestMethodKey
| HTTPRequestMethodOriginalKey
| HTTPResponseStatusCodeKey
| HTTPRouteKey
| URLPathKey
| URLSchemeKey
| UserAgentOriginalKey
| ClientAddressKey
| ErrorTypeKey.

Inductive attribute : Type :=
| AttrString (k : attribute_key) (v : bytes)
| AttrInt (k : attribute_key) (v : Z).

Section otel.
Context `{HA : Any} `{F : Fasthttp} `{HG : AppendGrowth} `{HS : Stored} `{HB : Build}.

(** What the middleware calls on the tracer, its span and the histogram. *)
Inductive signal : Type :=
| Start (name : bytes) (attrs : list attribute)
| RecordError (text : bytes) (stack : bool)
| SetAttributes (attrs : list attribute)
| SetStatusError
| End_
| Record_ (at_ : context) (attrs : list attribute).

(** [carrier]: the three methods of a TextMapCarrier over a request header. [Keys]
    copies the names in the order the header lists them. *)
Record TextMapCarrier : Type := mkCarrier {
  carrier_Get : bytes → bytes;
  carrier_Set : bytes → bytes → RequestCtx;
  carrier_Keys : list bytes;
}.

(** What is read of fasthttp and OpenTelemetry besides [Fasthttp.v]: the names of
    the request's headers, setting one, whether the connection is TLS, the user
    agent; the propagator; the context a started span lives in; whether the span
    records; and how an address prints. *)
Record telemetry_env : Type := mkEnv {
  All : RequestCtx → list bytes;
  SetRequestHeader : bytes → bytes → RequestCtx → RequestCtx;
  IsTLS : RequestCtx → bool;
  UserAgent : RequestCtx → bytes;
  Extract : context → TextMapCarrier → context;
  tracer_Start : context → bytes → list attribute → context;
  IsRecording : bool;
  IP_String : bytes → bytes;
}.

Variable env : telemetry_env.

Definition carrier (r : RequestCtx) : TextMapCarrier :=
  mkCarrier (λ key, default [] (head (req_Header key r))) (λ key v, SetRequestHeader env key v r) (All env r).

(** [methodName]. *)
Definition known_methods : list bytes :=
  [bs "GET"; bs "HEAD"; bs "POST"; bs "PUT"; bs "PATCH"; bs "DELETE"; bs "OPTIONS"; bs "CONNECT";
   bs "TRACE"; bs "QUERY"].

Definition methodName (m : bytes) : bytes :=
  if decide (m ∈ known_methods) then m else bs "_OTHER".

(** [finish]. *)
Definition metric_attrs (method route scheme : bytes) (status : Z) : list attribute :=
  [AttrString HTTPRequestMethodKey method; AttrInt HTTPResponseStatusCodeKey status;
   AttrString URLSchemeKey scheme] ++
  (if bool_decide (route = []) then [] else [AttrString HTTPRouteKey route]) ++
  (if (500 <=? status)%Z then [AttrString ErrorTypeKey (Itoa status)] else []).

Definition finish (ctx : context) (method route scheme : bytes) (status : Z) (ip : bytes) : G signal unit :=
  let isError := (500 <=? status)%Z in
  emit (Record_ ctx (metric_attrs method route scheme status));;
  (if IsRecording env then
     emit (SetAttributes [AttrInt HTTPResponseStatusCodeKey status]);;
     (if bool_decide (ip = []) then mret tt
      else emit (SetAttributes [AttrString ClientAddressKey (IP_String env ip)]));;
     (if isError then emit (SetAttributes [AttrString ErrorTypeKey (Itoa status)]) else mret tt)
   else mret tt);;
  (if isError then emit SetStatusError else mret tt);;
  emit End_.

(** The span's name, and what is known of it before the chain runs. *)
Definition unknown (method : bytes) : bool := bool_decide (method = bs "_OTHER").

Definition span_name (method route : bytes) : bytes :=
  let nameMethod := if unknown method then bs "HTTP" else method in
  if bool_decide (route = []) then nameMethod else nameMethod ++ bs " " ++ route.

Definition start_attrs (verb path route scheme ua : bytes) : list attribute :=
  let method := methodName verb in
  [AttrString HTTPRequestMethodKey method; AttrString URLPathKey path; AttrString URLSchemeKey scheme] ++
  (if bool_decide (route = []) then [] else [AttrString HTTPRouteKey route]) ++
  (if unknown method then [AttrString HTTPRequestMethodOriginalKey verb] else []) ++
  (if bool_decide (ua = []) then [] else [AttrString UserAgentOriginalKey ua]).

Definition tls_scheme (tls : bool) : bytes := if tls then bs "https" else bs "http".

(** [fmt.Errorf("panic: %v", r)]: its text. *)
Definition panic_text (v : panic_value err) : bytes := Error (PanicError v []).

(** Once the span is started: the chain under its context, and the deferred
    closure for a panic that reaches this frame. *)
Definition traced_chain (eh : ErrorHandler) (prev ctx : context) (labels : bytes * bytes * bytes)
    (next : Handler) : G signal (option err) :=
  let '(method, route, scheme) := labels in
  lift (SetContext (Some ctx));;
  handlerErr ← lift (run_handler eh next);
  (match handlerErr with
   | Some _ => lift (run_handler eh (HandleError handlerErr))
   | None => mret tt
   end);;
  lift (SetContext (Some prev));;
  status ← lift (deref (λ r, (StatusCode r, r)));
  (match handlerErr with
   | Some e => if (500 <=? status)%Z then emit (RecordError (Error e) false) else mret tt
   | None => mret tt
   end);;
  ip ← lift ClientIP;
  finish ctx method route scheme status ip;;
  mret None.

Definition traced_panic (prev ctx : context) (labels : bytes * bytes * bytes) (v : panic_value err)
    : G signal (option err) :=
  let '(method, route, scheme) := labels in
  lift (SetContext (Some prev));;
  emit (RecordError (panic_text v) true);;
  ip ← lift ClientIP;
  finish ctx method route scheme 500 ip;;
  go_panic v.

(** The handler [Middleware] returns, around [next]. The first access through
    [c.RequestCtx()] checks the Ctx; the later ones follow the pointer it gave. *)
Definition traced (eh : ErrorHandler) (baseCtx : context) (next : Handler) : G signal (option err) :=
  verb ← lift (with_fctx (λ r, (req_Method r, r)));
  let method := methodName verb in
  route ← lift Route;
  prev ← lift (Context_ baseCtx);
  ctx ← lift (deref (λ r, (Extract env prev (carrier r), r)));
  let name := span_name method route in
  tls ← lift (deref (λ r, (IsTLS env r, r)));
  let scheme := tls_scheme tls in
  path ← lift Path;
  ua ← lift (deref (λ r, (UserAgent env r, r)));
  let attrs := start_attrs verb path route scheme ua in
  let ctx := tracer_Start env ctx name attrs in
  emit (Start name attrs);;
  let labels := (method, route, scheme) in
  go_recover (traced_chain eh prev ctx labels next) (traced_panic prev ctx labels).

(** ** Configuration

    The providers and the propagator as opaque values; nil is [None]. *)

Section config.
Context {TP MP P : Type}.

Record config : Type := mkConfig { tp : TP; mp : MP; prop : P }.
Definition Option_ : Type := config → config.

Definition WithTracerProvider (v : option TP) : outcome bytes Option_ :=
  match v with
  | None => Panic (bs "rice: otelrice: WithTracerProvider: provider is nil")
  | Some v => Ret (λ c, mkConfig v (mp c) (prop c))
  end.

Definition WithMeterProvider (v : option MP) : outcome bytes Option_ :=
  match v with
  | None => Panic (bs "rice: otelrice: WithMeterProvider: provider is nil")
  | Some v => Ret (λ c, mkConfig (tp c) v (prop c))
  end.

Definition WithPropagators (v : option P) : outcome bytes Option_ :=
  match v with
  | None => Panic (bs "rice: otelrice: WithPropagators: propagator is nil")
  | Some v => Ret (λ c, mkConfig (tp c) (mp c) v)
  end.

(** [Middleware]: the globals are read when it is called, then the options apply in
    order. [Float64Histogram] is the meter's answer. *)
Definition otel_config (globals : config) (opts : list Option_) : config :=
  foldl (λ c o, o c) globals opts.

Definition otel_Middleware (Float64Histogram : MP → result bytes unit) (globals : config)
    (opts : list Option_) : outcome bytes config :=
  let cfg := otel_config globals opts in
  match Float64Histogram (mp cfg) with
  | Err msg => Panic (bs "rice: otelrice: creating the duration histogram: " ++ msg)
  | Ok _ => Ret cfg
  end.
End config.

(** ** What the calls amount to *)

Definition finish_signals (ctx : context) (method route scheme : bytes) (status : Z) (ip : bytes)
    : list signal :=
  Record_ ctx (metric_attrs method route scheme status) ::
  (if IsRecording env then
     SetAttributes [AttrInt HTTPResponseStatusCodeKey status] ::
     (if bool_decide (ip = []) then [] else [SetAttributes [AttrString ClientAddressKey (IP_String env ip)]]) ++
     (if (500 <=? status)%Z then [SetAttributes [AttrString ErrorTypeKey (Itoa status)]] else [])
   else []) ++
  (if (500 <=? status)%Z then [SetStatusError] else []) ++ [End_].

Lemma finish_run ctx method route scheme status ip s t :
  finish ctx method route scheme status ip (s, t) =
  (Ret tt, (s, t ++ finish_signals ctx method route scheme status ip)).
Proof.
  unfold finish, finish_signals, emit, go_modify, mbind, go_bind, mret, go_ret.
  destruct (IsRecording env), (bool_decide (ip = [])), (500 <=? status)%Z; cbn;
    by rewrite <-?app_assoc.
Qed.

Lemma finish_step {B} ctx method route scheme status ip (f : unit → G signal B) s t :
  (finish ctx method route scheme status ip ≫= f) (s, t) =
  f tt (s, t ++ finish_signals ctx method route scheme status ip).
Proof. apply go_bind_ret, finish_run. Qed.

(** ** The span around a chain *)

(** What the chain sees and leaves: the request under the span's context, and the
    request after [HandleError]. *)
Definition span_ctx (baseCtx : context) (s : St) : context :=
  let r := rc s in
  let method := methodName (req_Method r) in
  tracer_Start env (Extract env (default baseCtx (ctx (the s))) (carrier r))
    (span_name method (Ctx.route (the s)))
    (start_attrs (req_Method r) (req_Path r) (Ctx.route (the s)) (tls_scheme (IsTLS env r)) (UserAgent env r)).

Definition start_signal (s : St) : signal :=
  let r := rc s in
  Start (span_name (methodName (req_Method r)) (Ctx.route (the s)))
    (start_attrs (req_Method r) (req_Path r) (Ctx.route (the s)) (tls_scheme (IsTLS env r)) (UserAgent env r)).

(** The status the span and the metric get, and what is recorded on the way. *)
Definition recorded_status (o : outcome (panic_value err) (option err)) (r : RequestCtx) : Z :=
  match o with Ret _ => StatusCode r | Panic _ => 500 end.

Definition error_signals (o : outcome (panic_value err) (option err)) (status : Z) : list signal :=
  match o with
  | Ret (Some e) => if (500 <=? status)%Z then [RecordError (Error e) false] else []
  | Ret None => []
  | Panic v => [RecordError (panic_text v) true]
  end.

Lemma traced_panic_run prev ctx method route scheme v s t : live_ctx s →
  traced_panic prev ctx (method, route, scheme) v (s, t) =
  (Panic v, (in_ctx prev s,
    t ++ RecordError (panic_text v) true :: finish_signals ctx method route scheme 500 (RemoteIP (rc s)))).
Proof.
  intros Hl. unfold traced_panic.
  erewrite lift_step by (apply SetContext_live, Hl).
  rewrite emit_step.
  erewrite lift_step by (apply with_fctx_read; exact Hl).
  rewrite finish_step. by rewrite <-app_assoc.
Qed.

Lemma traced_chain_run eh prev ctx method route scheme next s t o s1 : live_ctx s →
  run_handler eh (settled_chain next) (in_ctx ctx s) = (o, s1) →
  let status := recorded_status o (rc s1) in
  live_ctx s1 ∧
  traced_chain eh prev ctx (method, route, scheme) next (s, t) =
  match o with
  | Ret _ => (Ret None, (in_ctx prev s1, t ++ error_signals o status ++
                finish_signals ctx method route scheme status (RemoteIP (rc s1))))
  | Panic v => (Panic v, (s1, t))
  end.
Proof.
  intros Hl Hx status. subst status. pose proof (run_settles eh next (in_ctx ctx s) (proj1 Hl)) as Hse.
  unfold traced_chain. erewrite lift_step by (apply SetContext_live, Hl).
  revert Hx. rewrite settled_chain_run by done.
  destruct (run_handler eh next (in_ctx ctx s)) as [[e|v] s0] eqn:En; cbn [snd] in Hse; intros Hx.
  all: pose proof (live_settles (in_ctx ctx s) s0 Hl Hse) as Hl1.
  2: { injection Hx as <- <-. split; [done|]. by erewrite lift_panic by exact En. }
  erewrite lift_step by exact En.
  assert (∀ (e : option err) s2, live_ctx s2 →
    (lift (SetContext (Some prev));;
     status ← lift (deref (λ r, (StatusCode r, r)));
     (match e with
      | Some e => if (500 <=? status)%Z then emit (RecordError (Error e) false) else mret tt
      | None => mret tt
      end);;
     ip ← lift ClientIP;
     finish ctx method route scheme status ip;;
     mret None : G signal (option err)) (s2, t) =
    (Ret None, (in_ctx prev s2, t ++ error_signals (Ret e) (StatusCode (rc s2)) ++
       finish_signals ctx method route scheme (StatusCode (rc s2)) (RemoteIP (rc s2))))) as Htail.
  { intros e' s2 Hl2. erewrite lift_step by (apply SetContext_live, Hl2).
    erewrite lift_step by (apply deref_read; exact Hl2).
    change (StatusCode (rc (in_ctx prev s2))) with (StatusCode (rc s2)).
    destruct e' as [e'|]; [destruct (500 <=? StatusCode (rc s2))%Z eqn:E5|];
      cbn [error_signals]; rewrite ?E5, ?emit_step, ?skip_step;
      (erewrite lift_step by (apply with_fctx_read; exact Hl2));
      rewrite finish_step; by rewrite <-?app_assoc. }
  destruct e as [e|].
  - destruct (HandleError_returns eh e s0 Hl1) as (s2 & Eh & Hl2). rewrite Eh in Hx.
    injection Hx as <- <-. split; [done|]. erewrite lift_step by exact Eh. by apply (Htail (Some e)).
  - injection Hx as <- <-. split; [done|]. rewrite skip_step. by apply (Htail None).
Qed.

Lemma traced_run eh baseCtx next s t o s1 : live_ctx s →
  let c := span_ctx baseCtx s in
  run_handler eh (settled_chain next) (in_ctx c s) = (o, s1) →
  let status := recorded_status o (rc s1) in
  traced eh baseCtx next (s, t) =
  (match o with Ret _ => Ret None | Panic v => Panic v end,
   (in_ctx (default baseCtx (ctx (the s))) s1,
    t ++ start_signal s :: error_signals o status ++
      finish_signals c (methodName (req_Method (rc s))) (Ctx.route (the s)) (tls_scheme (IsTLS env (rc s)))
        status (RemoteIP (rc s1)))).
Proof.
  intros Hl c Hx status. subst status. unfold traced.
  erewrite lift_step by (apply with_fctx_read, Hl).
  erewrite lift_step by (apply Route_live, Hl).
  erewrite lift_step by (apply Context_live, Hl).
  erewrite lift_step by (apply deref_read, Hl).
  erewrite lift_step by (apply deref_read, Hl).
  erewrite lift_step by (apply with_fctx_read, Hl).
  erewrite lift_step by (apply deref_read, Hl).
  rewrite emit_step.
  fold (span_ctx baseCtx s) (start_signal s). fold c. cbn [fst snd].
  pose proof (traced_chain_run eh (default baseCtx (ctx (the s))) c (methodName (req_Method (rc s)))
    (Ctx.route (the s)) (tls_scheme (IsTLS env (rc s))) next s (t ++ [start_signal s]) o s1 Hl Hx) as [Hl1 Hc].
  destruct o as [e|v].
  - rewrite (go_recover_ret _ _ _ _ _ Hc). by rewrite <-app_assoc.
  - rewrite (go_recover_panic _ _ _ _ _ Hc), traced_panic_run by done. by rewrite <-app_assoc.
Qed.
End otel.

Arguments mkEnv {F HS} All SetRequestHeader IsTLS UserAgent Extract tracer_Start IsRecording IP_String.

(** ** Properties *)

Section properties.
Context `{HA : Any} `{F : Fasthttp} `{HG : AppendGrowth} `{HS : Stored} `{HB : Build}.
Variable env : telemetry_env.

(** Which signals are what. *)
Definition is_boundary (x : signal) : bool :=
  match x with Start _ _ | End_ => true | _ => false end.
Definition metric_of (x : signal) : option (context * list attribute) :=
  match x with Record_ c attrs => Some (c, attrs) | _ => None end.

Lemma finish_signals_shape c method route scheme status ip :
  ∃ sigs, finish_signals env c method route scheme status ip = sigs ++ [End_] ∧
    Forall (λ x, is_boundary x = false) sigs ∧
    omap metric_of sigs = [(c, metric_attrs method route scheme status)] ∧
    (SetStatusError ∈ sigs ↔ (500 <= status)%Z) ∧
    (∀ text b, RecordError text b ∉ sigs) ∧
    (IsRecording env → SetAttributes [AttrInt HTTPResponseStatusCodeKey status] ∈ sigs).
Proof.
  unfold finish_signals. eexists. split; [by rewrite app_comm_cons, app_assoc|].
  destruct (IsRecording env), (bool_decide (ip = [])), (Z.leb_spec 500 status); cbn;
    (split_and!; [repeat constructor|done| | |]); rewrite ?list_elem_of_cons; try set_solver by lia;
    try (split; [set_solver by lia|lia]).
Qed.

Lemma error_signals_shape o r :
  let sigs := error_signals o (recorded_status o r) in
  Forall (λ x, is_boundary x = false) sigs ∧ omap metric_of sigs = [] ∧ (SetStatusError ∉ sigs) ∧
  (∀ text b, RecordError text b ∈ sigs → (500 <= recorded_status o r)%Z).
Proof.
  destruct o as [[e|]|v]; cbn; [destruct (Z.leb_spec 500 (StatusCode r))| |];
    (split_and!; [repeat constructor|done|set_solver|set_solver by lia]).
Qed.

(** C33. One span and one measurement per request, however the chain ends: what the
    middleware reports starts with the span's name and attributes and ends with its
    end, with nothing before or after; the measurement is made once, under the
    span's context, with a method of the fixed list, the route, the scheme and the
    status and nothing else of the request; the status is the one the response has
    when the chain is settled, or 500 for a panic; the span is marked as an error
    exactly from 500 on, and an error is recorded only then. The previous context is
    back in place, and a panic goes on with its value. *)
Theorem span_reports eh baseCtx next s t (Hl : live_ctx s) :
  let '(o, (s', t')) := traced env eh baseCtx next (s, t) in
  let status := match o with Ret _ => StatusCode (rc s') | Panic _ => 500%Z end in
  let method := methodName (req_Method (rc s)) in
  ctx (the s') = Some (default baseCtx (ctx (the s))) ∧
  match o with Ret e => e = None | Panic v => (run_handler eh next (in_ctx (span_ctx env baseCtx s) s)).1 = Panic v
  end ∧
  method ∈ bs "_OTHER" :: known_methods ∧
  ∃ sigs, t' = t ++ start_signal env s :: sigs ++ [End_] ∧
    Forall (λ x, is_boundary x = false) sigs ∧
    omap metric_of sigs =
      [(span_ctx env baseCtx s,
        metric_attrs method (Ctx.route (the s)) (tls_scheme (IsTLS env (rc s))) status)] ∧
    (SetStatusError ∈ sigs ↔ (500 <= status)%Z) ∧
    (∀ text b, RecordError text b ∈ sigs → (500 <= status)%Z) ∧
    (IsRecording env → SetAttributes [AttrInt HTTPResponseStatusCodeKey status] ∈ sigs).
Proof.
  destruct (run_handler eh (settled_chain next) (in_ctx (span_ctx env baseCtx s) s)) as [o s1] eqn:Ex.
  rewrite (traced_run env eh baseCtx next s t o s1 Hl Ex).
  destruct (finish_signals_shape (span_ctx env baseCtx s) (methodName (req_Method (rc s))) (Ctx.route (the s))
              (tls_scheme (IsTLS env (rc s))) (recorded_status o (rc s1)) (RemoteIP (rc s1)))
    as (sigs & -> & Hb & Hm & Hs & Hn & Hr).
  destruct (error_signals_shape o (rc s1)) as (Hb' & Hm' & Hs' & Hn').
  assert (∀ v, o = Panic v → (run_handler eh next (in_ctx (span_ctx env baseCtx s) s)).1 = Panic v) as Hpanic.
  { intros v ->. rewrite settled_chain_run in Ex by done.
    destruct (run_handler eh next _) as [[[e|]|v'] s0]; [done|done|]. by injection Ex as -> _. }
  assert (methodName (req_Method (rc s)) ∈ bs "_OTHER" :: known_methods) as Hmethod
    by (unfold methodName; case_decide; set_solver).
  revert Hb' Hm' Hs' Hn'. generalize (error_signals o (recorded_status o (rc s1))).
  intros es Hb' Hm' Hs' Hn'.
  destruct o as [e|v]; (split; [done|]; split; [auto|]; split; [exact Hmethod|]);
    exists (es ++ sigs); cbn [recorded_status] in *;
    (split; [by rewrite <-app_assoc|]; split; [by apply Forall_app|];
     split; [by rewrite omap_app, Hm', Hm|]; set_solver).
Qed.

(** C34. Tracing changes no answer: a chain behind the middleware leaves the request,
    the ErrorHandler's calls, the stream it recorded and whether it is settled
    exactly as the App would without the middleware for the chain run under the
    span's context, and panics with the same value; only the context differs, which
    is the previous one again. *)
Theorem tracing_is_transparent eh baseCtx next s t (Hl : live_ctx s) :
  after_handler eh (quietly t (traced env eh baseCtx next)) s =
  let y := after_handler eh (run_handler eh next) (in_ctx (span_ctx env baseCtx s) s) in
  (y.1, in_ctx (default baseCtx (ctx (the s))) y.2).
Proof.
  destruct (run_handler eh (settled_chain next) (in_ctx (span_ctx env baseCtx s) s)) as [o s1] eqn:Ex.
  rewrite (after_settled eh next (in_ctx (span_ctx env baseCtx s) s) o s1 Hl Ex), after_handler_run. unfold quietly.
  rewrite (traced_run env eh baseCtx next s t o s1 Hl Ex). by destruct o.
Qed.
End properties.

(** Witnesses: a handler that fails, and one that panics, with numbers for contexts
    and a started span's context the successor of its parent's. *)
Definition sample_stored : Stored := {| context := nat; StreamFn := unit |}.

Definition sample_env : @telemetry_env plain_fasthttp sample_stored :=
  @mkEnv plain_fasthttp sample_stored (λ _, []) (λ _ _ r, r) (λ _, false) (λ _, bs "curl") (λ c _, c)
    (λ c _ _, S c) true (λ ip, ip).

Definition sample_request : @St any_nat plain_fasthttp sample_stored :=
  @mkSt any_nat plain_fasthttp sample_stored
    (@reset any_nat sample_stored true (@newCtx any_nat sample_stored 1))
    (new_request (bs "BREW") (bs "/pot/7")) [].

Definition sample_traced (next : @Handler any_nat plain_fasthttp sample_stored) :=
  @traced any_nat plain_fasthttp two_room sample_stored false sample_env
    (@default_handler any_nat plain_fasthttp sample_stored) 0 next.

Lemma span_reports_witness :
  let x := sample_traced (PanicNow (PanicString (bs "boom"))) (sample_request, []) in
  x.1 = Panic (PanicString (bs "boom")) ∧
  ∃ attrs sigs, x.2.2 = Start (bs "HTTP") attrs :: sigs ++ [End_] ∧ SetStatusError ∈ sigs.
Proof.
  pose proof (@span_reports any_nat plain_fasthttp two_room sample_stored false sample_env
    (@default_handler any_nat plain_fasthttp sample_stored) 0
    (PanicNow (PanicString (bs "boom"))) sample_request [] (conj eq_refl eq_refl)) as Hs.
  split; [reflexivity|].
  destruct (traced _ _ _ _ _) as [o [s' t']] eqn:Ex.
  assert (o = Panic (PanicString (bs "boom"))) as ->.
  { change o with ((o, (s', t')).1). rewrite <-Ex. reflexivity. }
  destruct Hs as (_ & _ & _ & sigs & Ht & _ & _ & He & _).
  unfold sample_traced. rewrite Ex. eexists _, sigs. split; [exact Ht|]. apply He. lia.
Defined.

Lemma tracing_is_transparent_witness :
  (@after_handler any_nat plain_fasthttp two_room sample_stored false (@default_handler any_nat plain_fasthttp sample_stored)
     (quietly [] (sample_traced (Done (Some (PlainError (bs "boom")))))) sample_request).2 =
  in_ctx (HS := sample_stored) 0
    (@after_handler any_nat plain_fasthttp two_room sample_stored false (@default_handler any_nat plain_fasthttp sample_stored)
       (run_handler (HG := two_room) (HB := false) (@default_handler any_nat plain_fasthttp sample_stored)
          (Done (Some (PlainError (bs "boom")))))
       (in_ctx (HS := sample_stored) 1 sample_request)).2.
Proof.
  unfold sample_traced.
  rewrite (@tracing_is_transparent any_nat plain_fasthttp two_room sample_stored false sample_env
    (@default_handler any_nat plain_fasthttp sample_stored) 0
    (Done (Some (PlainError (bs "boom")))) sample_request [] (conj eq_refl eq_refl)).
  reflexivity.
Defined.
