(* ===== verification/Answers.v ===== *)
(** * What probes and deadlines answer

    [src/health/health.go] and [src/middleware/timeout.go] up to the response: the
    handlers of [Endpoints.v] and [Middleware.v] under the App's treatment of their
    result and the default ErrorHandler. *)

From S2P Require Import Prelude Bytes Pattern Slice Params Tree TreeSpec TreeLookup Router Accept Fasthttp Errors Ctx Handler Isolation App AppSpec Dispatch Middleware Endpoints Emit.

Section answers.
Context `{HA : Any} `{F : Fasthttp} `{HG : AppendGrowth} `{HS : Stored} `{HB : Build}.
Context {L : FasthttpLaws F}.

(** ** The default ErrorHandler's answer *)

(** The response the App gives a request whose chain is [h]. *)
Definition answer (h : Handler) (s : St) : RequestCtx :=
  rc (after_handler default_handler (run_handler default_handler h) s).2.

Lemma call_funnel_live e s : live_ctx s →
  call_funnel default_handler e s =
  (Ret tt, mkSt (the s) (DefaultErrorHandler e (rc s)) (funnel s ++ [e])).
Proof.
  intros Hl. unfold call_funnel, callErrorHandler, mbind, go_bind, go_modify, go_recover.
  cbn [run]. unfold default_handler. by rewrite run_fctx.
Qed.

Lemma answer_error h s e s' : run_handler default_handler h s = (Ret (Some e), s') →
  live_ctx s' → handled (the s') = false → answer h s = DefaultErrorHandler e (rc s').
Proof.
  intros Hr Hl Hh. unfold answer. rewrite after_handler_run, Hr, Hh. by rewrite call_funnel_live.
Qed.

Lemma answer_done e s : live_ctx s → handled (the s) = false →
  answer (Done (Some e)) s = DefaultErrorHandler e (rc s).
Proof. by apply answer_error. Qed.

Lemma answer_nil h s s' : run_handler default_handler h s = (Ret None, s') → answer h s = rc s'.
Proof. intros Hr. unfold answer. by rewrite after_handler_run, Hr. Qed.

(** An HTTPError around a cause without a panic is answered as itself. *)
Lemma http_answer code msg cause r : (100 <= code <= 599)%Z → msg ≠ [] →
  match cause with Some e => ∀ e', e' ∈ walk e → is_panic e' = false | None => True end →
  let r' := DefaultErrorHandler (HTTPError code msg cause) r in
  StatusCode r' = code ∧ Body r' = msg.
Proof.
  intros Hc Hm Hp. assert (DefaultErrorHandler (HTTPError code msg cause) r = respond code msg r) as ->.
  { rewrite DefaultErrorHandler_walk. unfold default_walk.
    destruct (errors_As is_panic _) as [p|] eqn:E; [|done].
    apply errors_As_Some in E as [Hin Hpp]. exfalso. cbn [walk] in Hin.
    apply elem_of_cons in Hin as [->|Hin]; [done|]. destruct cause as [e|]; [|by apply elem_of_nil in Hin].
    by rewrite (Hp p Hin) in Hpp. }
  unfold respond. rewrite validStatus_id, bool_decide_eq_false_2 by done.
  rewrite status_body, status_content, status_set, body_set by lia. done.
Qed.

(** ** Readiness *)

(** A Check [health.Ready] takes. *)
Definition check_usable (ch : Check_) : Prop :=
  ch_Name ch ≠ [] ∧ is_Some (ch_Fn ch) ∧ (0 <= ch_Timeout ch)%Z.

(** What a check returned under the context it was given, and that context's error
    by then. *)
Definition verdict (wt : Z → context → context) (parent : context) (ch : Check_)
    : outcome (panic_value err) (option err * option err) :=
  match ch_Fn ch with
  | Some fn => fn (wt (if decide (ch_Timeout ch = 0%Z) then second else ch_Timeout ch) parent)
  | None => Ret (None, None)
  end.

(** The first check that fails or answers too late, with its error, or that panics. *)
Fixpoint first_failure (wt : Z → context → context) (parent : context) (checks : list Check_)
    : outcome (panic_value err) (option (bytes * err)) :=
  match checks with
  | [] => Ret None
  | ch :: checks' =>
    match verdict wt parent ch with
    | Panic v => Panic v
    | Ret (Some e, _) | Ret (None, Some e) => Ret (Some (ch_Name ch, e))
    | Ret (None, None) => first_failure wt parent checks'
    end
  end.

Lemma run_check_verdict wt parent ch fn : ch_Fn ch = Some fn →
  run_check wt parent (ch_Timeout ch) fn =
    match verdict wt parent ch with
    | Panic v => Panic v
    | Ret (Some e, _) | Ret (None, Some e) => Ret (Some e)
    | Ret (None, None) => Ret None
    end.
Proof.
  intros Hf. unfold run_check, verdict, defaultTimeout. rewrite Hf.
  destruct (Z.eqb_spec (ch_Timeout ch) 0), (decide (ch_Timeout ch = 0%Z)); try contradiction;
    by destruct (fn _) as [[[?|] [?|]]|].
Qed.

Lemma check_checks_spec quote wt parent checks :
  match check_checks checks with
  | Ret l => Forall check_usable checks ∧
      run_checks quote wt parent l =
        match first_failure wt parent checks with
        | Panic v => Panic v
        | Ret o => Ret ((λ ne, HTTPError 503 (bs "not ready") (Some (check_failed quote ne.1 ne.2))) <$> o)
        end
  | Panic _ => ¬ Forall check_usable checks
  end.
Proof.
  induction checks as [|ch checks IH]; [by split|]. cbn [check_checks first_failure].
  case_bool_decide as Hn; [by intros [[? _] _]%Forall_cons|].
  destruct (ch_Fn ch) as [fn|] eqn:Ef; [|intros [(_ & Hf & _) _]%Forall_cons; rewrite Ef in Hf; by destruct Hf].
  destruct (Z.ltb_spec (ch_Timeout ch) 0); [intros [(_ & _ & ?) _]%Forall_cons; lia|].
  destruct (check_checks checks) as [l|p]; [|by intros [_ ?]%Forall_cons]. destruct IH as [Hall Hrun].
  split; [apply Forall_cons; split; [|done]; split_and!; [done|by rewrite Ef; eexists|lia]|].
  cbn [run_checks]. rewrite (run_check_verdict wt parent ch fn Ef).
  destruct (verdict wt parent ch) as [[[?|] [?|]]|v]; [done..|exact Hrun|done].
Qed.

Lemma run_string settle code body s : live_ctx s →
  run_with settle (string_response code body) s =
  (Ret None, mkSt (the s) (SetBody body (SetContentType MIMETextPlainUTF8 (SetStatusCode code (rc s)))) (funnel s)).
Proof. intros Hl. unfold string_response. by rewrite run_fctx. Qed.

(** ** Deadlines *)


End answers.

(** ** Properties *)

Section properties.
Context `{HA : Any} `{F : Fasthttp} `{HG : AppendGrowth} `{HS : Stored} `{HB : Build}.
Context {L : FasthttpLaws F}.

(** C31. The readiness probe: [health.Ready] panics exactly on a nil App or a check
    without a name, a function or a timeout it can use; otherwise the handler
    answers 200 "ok" when the App is ready and every check passes, and 503 "not
    ready", naming no check, when the App is not ready or a check fails, unless the
    check's error carries a recovered panic. A check that panics ends the handler
    with its panic, before a response is written. *)
Theorem Ready_answers quote app wt baseCtx checks :
  ((∃ h, health_Ready quote app wt baseCtx checks = Ret h) ↔ is_Some app ∧ Forall check_usable checks) ∧
  ∀ ready h s, app = Some ready → health_Ready quote app wt baseCtx checks = Ret h →
    live_ctx s → handled (the s) = false →
    let r := answer h s in
    let not_ready := StatusCode r = 503%Z ∧ Body r = bs "not ready" in
    if ready then
      match first_failure wt (default baseCtx (ctx (the s))) checks with
      | Ret None => StatusCode r = 200%Z ∧ Body r = bs "ok"
      | Ret (Some (_, e)) => (∀ e', e' ∈ walk e → is_panic e' = false) → not_ready
      | Panic v => run_handler default_handler h s = (Panic v, s)
      end
    else not_ready.
Proof.
  split.
  - unfold health_Ready. destruct app as [ready|]; [|split; [by intros [h [=]]|by intros [[? [=]] _]]].
    pose proof (λ c, check_checks_spec quote wt c checks) as Hc. destruct (check_checks checks) as [l|p].
    + split; [intros _|by eexists]. split; [by eexists|]. by apply (Hc baseCtx).
    + split; [by intros [h [=]]|]. intros [_ Hall]. by destruct (Hc baseCtx).
  - intros ready h s -> Hh Hl Hn r not_ready. unfold health_Ready in Hh.
    pose proof (check_checks_spec quote wt (default baseCtx (ctx (the s))) checks) as Hc.
    destruct (check_checks checks) as [l|p]; [|done]. destruct Hc as [_ Hc]. injection Hh as <-.
    destruct ready; cbn [negb] in r.
    + assert (∀ h : context → Handler, run_handler default_handler (Seq (Call (AContext baseCtx)) h) s =
        run_handler default_handler (h (default baseCtx (ctx (the s)))) s) as Hstep.
      { intros h. unfold run_handler. by rewrite run_seq, run_context. }
      assert (∀ h, r = answer (Seq (Call (AContext baseCtx)) h) s →
        r = answer (h (default baseCtx (ctx (the s)))) s) as Hseq.
      { intros h ->. unfold answer. by rewrite !after_handler_run, Hstep. }
      specialize (Hseq _ eq_refl). cbv beta in Hseq. rewrite Hc in Hseq.
      destruct (first_failure _ _ checks) as [[[name e]|]|v]; cbn [fmap option_fmap option_map fst snd] in Hseq.
      * intros He. unfold not_ready. rewrite Hseq.
        rewrite answer_done by done. apply http_answer; [lia|done|].
        intros e' [->|Hin]%elem_of_cons; [done|]. by apply He.
      * rewrite Hseq. rewrite (answer_nil _ s _ (run_string _ 200 (bs "ok") s Hl)). cbn [rc].
        by rewrite status_body, status_content, status_set, body_set by lia.
      * cbn [negb]. rewrite Hstep, Hc. reflexivity.
    + unfold not_ready, r. rewrite answer_done by done. by apply http_answer; [lia| |].
Qed.

End properties.

(** Witnesses, on the plain interface: a failing check, and a plain error after the
    deadline. *)
Module AnswerSample.
#[export] Existing Instance any_nat.
#[export] Existing Instance plain_fasthttp.
#[export] Existing Instance plain_fasthttp_laws.
#[export] Instance answer_stored : Stored := {| context := nat; StreamFn := unit |}.
#[export] Instance answer_growth : AppendGrowth := two_room.
#[export] Instance answer_build : Build := false.
End AnswerSample.

Import AnswerSample.

(** A derived context: the next number. *)
Definition later (d : Z) (c : @context answer_stored) : @context answer_stored := S c.

Definition probe_request : St := mkSt (reset true (newCtx 1)) (new_request (bs "GET") (bs "/ready")) [].

Definition probe_checks : list Check_ :=
  [mkCheck (bs "cache") 0 (Some (λ c, Ret (None, None)));
   mkCheck (bs "db") 5 (Some (λ c, Ret (Some (PlainError (bs "refused")), None)))].

Lemma Ready_answers_witness :
  ∃ h, health_Ready (λ q, q) (Some true) later 0 probe_checks = Ret h ∧
    StatusCode (answer h probe_request) = 503%Z ∧ Body (answer h probe_request) = bs "not ready".
Proof.
  destruct (Ready_answers (λ q, q) (Some true) later 0 probe_checks) as [[_ Hb] Hr].
  destruct Hb as [h Hh].
  { split; [by eexists|]. repeat constructor; try done; by eexists. }
  exists h. split; [exact Hh|].
  refine (Hr true h probe_request eq_refl Hh (conj eq_refl eq_refl) eq_refl _).
  cbn. intros e' [->|Hin]%elem_of_cons; [reflexivity|by apply elem_of_nil in Hin].
Defined.

