(* ===== verification/Logger.v ===== *)
(** * The access log

    [src/middleware/logger.go]: the line written for each request, as the call made
    on the application's [slog.Logger] with its context, level and attributes. What
    slog enables, the clock and how an address prints are arguments. *)

From S2P Require Import Prelude Bytes Pattern Slice Params Tree TreeSpec TreeLookup Router Accept Fasthttp Errors Ctx Handler Isolation App AppSpec Dispatch Middleware Emit.

(** The two levels it uses, and the attributes. *)
Inductive level : Type := LevelInfo | LevelError.

Inductive log_attr : Type :=
| LogString (key value : bytes)
| LogInt (key : bytes) (value : Z)
| LogDuration (key : bytes) (value : Z).

Section logger.
Context `{HA : Any} `{F : Fasthttp} `{HG : AppendGrowth} `{HS : Stored} `{HB : Build}.
Context `{!Boxed bytes}.

(** A call of [LogAttrs]. *)
Record line : Type := mkLine { line_ctx : context; line_level : level; line_msg : bytes; line_attrs : list log_attr }.

(** [l.Enabled], [time.Since] and the address's [String]. *)
Record log_env : Type := mkLogEnv {
  Enabled : context → level → bool;
  Since : Z;
  Addr_String : bytes → bytes;
}.

Variable env : log_env.
(** [requestIDKey]. *)
Variable key : Key bytes.

Definition RequestIDFrom : M bytes := r ← Key_Get key; mret r.1.

Definition level_of (status : Z) : level := if (500 <=? status)%Z then LevelError else LevelInfo.

Definition log_attrs (method path : bytes) (status : Z) (ip id : bytes) : list log_attr :=
  [LogString (bs "method") method; LogString (bs "path") path; LogInt (bs "status") status;
   LogDuration (bs "latency") (Since env); LogString (bs "ip") (Addr_String env ip)] ++
  (if bool_decide (id = []) then [] else [LogString (bs "request_id") id]).

(** The handler [Logger] returns, around [next]. *)
Definition logged (eh : ErrorHandler) (baseCtx : context) (next : Handler) : G line (option err) :=
  err ← lift (run_handler eh next);
  (match err with
   | Some _ => lift (run_handler eh (HandleError err))
   | None => mret tt
   end);;
  status ← lift (with_fctx (λ r, (StatusCode r, r)));
  let level := level_of status in
  ctx ← lift (Context_ baseCtx);
  if negb (Enabled env ctx level) then mret None
  else
    method ← lift Method;
    path ← lift Path;
    ip ← lift ClientIP;
    id ← lift RequestIDFrom;
    emit (mkLine ctx level (bs "request") (log_attrs method path status ip id));;
    mret None.

(** [Logger]; a nil logger panics. *)
Definition Logger (l : option unit) : outcome bytes (ErrorHandler → context → Handler → G line (option err)) :=
  match l with
  | None => Panic (bs "rice: middleware.Logger: logger is nil")
  | Some _ => Ret logged
  end.

(** ** The line a settled request gets *)

(** The id the request's store holds; reading it changes nothing. *)
Definition stored_id (s : St) : bytes :=
  match (RequestIDFrom s).1 with Ret id => id | Panic _ => [] end.

Definition request_line (baseCtx : context) (s : St) : line :=
  let r := rc s in
  mkLine (default baseCtx (ctx (the s))) (level_of (StatusCode r)) (bs "request")
    (log_attrs (req_Method r) (req_Path r) (StatusCode r) (RemoteIP r) (stored_id s)).

Definition line_enabled (baseCtx : context) (s : St) : bool :=
  Enabled env (default baseCtx (ctx (the s))) (level_of (StatusCode (rc s))).

(** Whatever is under the key is a string, as only [RequestID] has it. *)
Definition id_readable (s : St) : Prop := is_Some (id key) ∧ ∃ v, (RequestIDFrom s).1 = Ret v.

Lemma RequestIDFrom_read s : live_ctx s → id_readable s → RequestIDFrom s = (Ret (stored_id s), s).
Proof.
  intros Hl [[i Hi] [v Hv]].
  assert ((RequestIDFrom s).2 = s) as Hs.
  { unfold RequestIDFrom, Key_Get, mustBeMade. rewrite Hi. unfold mbind, go_bind.
    rewrite check_live by done. cbn -[get_ctx get_entry]. rewrite get_ctx_run.
    destruct (get_entry _ _) as [[x|]|]; [destruct (unbox x)|..]; done. }
  unfold stored_id. rewrite Hv. destruct (RequestIDFrom s) as [o s']. cbn in *. by subst.
Qed.

Lemma logged_run eh baseCtx next s t o s1 : live_ctx s →
  run_handler eh (settled_chain next) s = (o, s1) → id_readable s1 →
  logged eh baseCtx next (s, t) =
  match o with
  | Ret _ => (Ret None, (s1, if line_enabled baseCtx s1 then t ++ [request_line baseCtx s1] else t))
  | Panic v => (Panic v, (s1, t))
  end.
Proof.
  intros Hl Hx Hid. pose proof (run_settles eh next s (proj1 Hl)) as Hse.
  revert Hx. rewrite settled_chain_run by done. unfold logged.
  destruct (run_handler eh next s) as [[e|v] s0] eqn:En; cbn [snd] in Hse; intros Hx.
  2: { injection Hx as <- <-. by erewrite lift_panic by exact En. }
  pose proof (live_settles s s0 Hl Hse) as Hl0. erewrite lift_step by exact En.
  assert (live_ctx s1 ∧ ∃ o', o = Ret o' ∧ ∀ f : unit → G line (option err),
    ((match e with Some _ => lift (run_handler eh (HandleError e)) | None => mret tt end : G line unit)
       ≫= f) (s0, t) = f tt (s1, t)) as (Hl1 & o' & -> & ->).
  { destruct e as [e|]; [|by injection Hx as <- <-; split; [done|]; exists None].
    destruct (HandleError_returns eh e s0 Hl0) as (s2 & Eh & Hl2). rewrite Eh in Hx. injection Hx as <- <-.
    split; [done|]. exists (Some e). split; [done|]. intros f. by erewrite lift_step by exact Eh. }
  erewrite lift_step by (apply with_fctx_read, Hl1).
  erewrite lift_step by (apply Context_live, Hl1).
  unfold line_enabled. destruct (Enabled _ _ _); [|done]. cbn [negb].
  erewrite lift_step by (apply with_fctx_read, Hl1).
  erewrite lift_step by (apply with_fctx_read, Hl1).
  erewrite lift_step by (apply with_fctx_read, Hl1).
  erewrite lift_step by (by apply RequestIDFrom_read).
  by rewrite emit_step.
Qed.

(** ** Properties *)

(** The access log is one honest line: when the chain behind Logger returns, the App
    answers exactly as it would without Logger, and one line is written if its level
    is enabled and none otherwise, at ERROR from 500 on and INFO below, whose status
    is the one the client gets and whose method, path, address and id are the
    request's at that moment; a panic goes on with its value and is not logged. *)
Theorem one_honest_line eh baseCtx next s t o s1 (Hl : live_ctx s)
    (Hx : after_handler eh (run_handler eh next) s = (o, s1)) (Hid : id_readable s1) :
  after_handler eh (quietly t (logged eh baseCtx next)) s = (o, s1) ∧
  (logged eh baseCtx next (s, t)).2.2 =
    match o with
    | Ret _ => if line_enabled baseCtx s1 then t ++ [request_line baseCtx s1] else t
    | Panic _ => t
    end.
Proof.
  destruct (run_handler eh (settled_chain next) s) as [o' s'] eqn:Ex.
  rewrite (after_settled eh next s o' s' Hl Ex) in Hx. injection Hx as <- <-.
  rewrite after_handler_run. unfold quietly. rewrite (logged_run eh baseCtx next s t o' s' Hl Ex Hid).
  by destruct o'.
Qed.
End logger.

(** A failing handler behind RequestID, logged at ERROR with the id it was given. *)
Definition any_bytes : Any := {| any := bytes; Sprint v := v |}.

#[export] Instance boxed_bytes : @Boxed any_bytes bytes zero_list.
Proof. by refine (@Build_Boxed any_bytes bytes _ Some Some _ _); [intros v x [= ->]|]. Defined.

Definition log_stored : Stored := {| context := nat; StreamFn := unit |}.

Definition log_request : @St any_bytes plain_fasthttp log_stored :=
  @mkSt any_bytes plain_fasthttp log_stored
    (@reset any_bytes log_stored true (@newCtx any_bytes log_stored 1))
    (mkRequest (bs "GET") (bs "/pot") 0 [] [] [] false false [(bs "X-Request-Id", bs "r-17")]) [].

Definition log_key : Key bytes := mkKey (Some (mkKeyID 1 (bs "request-id"))).

Definition log_chain : @Handler any_bytes plain_fasthttp log_stored :=
  @RequestID any_bytes plain_fasthttp log_stored boxed_bytes log_key []
    (Done (Some (PlainError (bs "boom")))).

Definition log_answer : outcome (panic_value err) unit * @St any_bytes plain_fasthttp log_stored :=
  @after_handler any_bytes plain_fasthttp two_room log_stored false
    (@default_handler any_bytes plain_fasthttp log_stored)
    (@run_handler any_bytes plain_fasthttp two_room log_stored false
       (@default_handler any_bytes plain_fasthttp log_stored) _ log_chain) log_request.

Lemma one_honest_line_witness :
  (@logged any_bytes plain_fasthttp two_room log_stored false boxed_bytes
     (@mkLogEnv log_stored (λ _ _, true) 5 (λ ip, ip)) log_key (@default_handler any_bytes plain_fasthttp log_stored)
     0 log_chain (log_request, [])).2.2 =
  [@mkLine log_stored 0 LevelError (bs "request")
     [LogString (bs "method") (bs "GET"); LogString (bs "path") (bs "/pot"); LogInt (bs "status") 500;
      LogDuration (bs "latency") 5; LogString (bs "ip") []; LogString (bs "request_id") (bs "r-17")]].
Proof.
  refine (proj2 (@one_honest_line any_bytes plain_fasthttp two_room log_stored false boxed_bytes
    (@mkLogEnv log_stored (λ _ _, true) 5 (λ ip, ip)) log_key (@default_handler any_bytes plain_fasthttp log_stored)
    0 log_chain log_request [] log_answer.1 log_answer.2 (conj eq_refl eq_refl) eq_refl _)).
  split; [by eexists|]. eexists. vm_compute. reflexivity.
Defined.
