(* ===== verification/Stack.v ===== *)
(** * The recommended stack

    [src/middleware/doc.go] recommends Logger outermost, Recover directly inside it,
    then RealIP and RequestID around the rest. The file shows what that order buys:
    the access log misses no request, whatever the rest does. The rest is any
    handler that leaves RequestID's own key alone, which is not exported, and does not
    set the request's address itself. *)

From S2P Require Import Prelude Bytes Pattern Slice Params Tree TreeSpec TreeLookup Router Accept Fasthttp Errors Ctx Handler Isolation App AppSpec Dispatch Middleware RealIP Emit Logger.

(** Setting the address decides what [RemoteIP] answers and leaves the request's
    headers, and the response is no part of it. *)
Class FasthttpAddrLaws `{F : Fasthttp} (FA : FasthttpAddr) : Prop := {
  header_addr : ∀ name a r, req_Header name (SetRemoteAddr a r) = req_Header name r;
  remote_set : ∀ a r, RemoteIP (SetRemoteAddr a r) = match a with Some ip => ip | None => ConnAddr r end;
  remote_status : ∀ c r, RemoteIP (SetStatusCode c r) = RemoteIP r;
  remote_content : ∀ v r, RemoteIP (SetContentType v r) = RemoteIP r;
  remote_body : ∀ b r, RemoteIP (SetBody b r) = RemoteIP r;
  remote_header : ∀ k v r, RemoteIP (SetHeader k v r) = RemoteIP r;
  remote_add : ∀ k v r, RemoteIP (AddHeader k v r) = RemoteIP r;
}.

Section avoids.
Context `{HA : Any} `{F : Fasthttp} `{HG : AppendGrowth} `{HS : Stored} `{HB : Build}.
Variable n : nat.

(** ** Programs that set neither the key nor the client's address *)

Definition op_avoids {A} (op : api A) : Prop :=
  match op with
  | AKeySet k _ => ∀ i, id k = Some i → addr i ≠ n
  | AFctx f => ∀ r, RemoteIP (f r).2 = RemoteIP r
  | _ => True
  end.

Fixpoint avoids {A} (p : prog A) : Prop :=
  match p with
  | Done _ | HandleError _ | PanicNow _ => True
  | Seq p k => avoids p ∧ ∀ a, avoids (k a)
  | Call op => op_avoids op
  | Guard p h => avoids p ∧ ∀ v, avoids (h v)
  end.

(** What such a program leaves alone. *)
Record keeps_entry (s s' : St) : Prop := {
  ke_store : slice_ok (store (the s)) →
    slice_ok (store (the s')) ∧ get_entry n (store (the s')) = get_entry n (store (the s));
  ke_addr : RemoteIP (rc s') = RemoteIP (rc s);
}.

Lemma keeps_entry_same s s' : store (the s') = store (the s) → RemoteIP (rc s') = RemoteIP (rc s) →
  keeps_entry s s'.
Proof. intros He Ha. split; [intros Hs; by rewrite He|done]. Qed.

Lemma keeps_refl s : keeps_entry s s.
Proof. by apply keeps_entry_same. Qed.

Lemma keeps_trans s1 s2 s3 : keeps_entry s1 s2 → keeps_entry s2 s3 → keeps_entry s1 s3.
Proof.
  intros [H1 A1] [H2 A2]. split; [|by rewrite A2]. intros Hs. destruct (H1 Hs) as [Hs2 <-]. exact (H2 Hs2).
Qed.

Abbreviation keeping m := (respects keeps_entry m).

Lemma keep_ret {A} (a : A) : keeping (mret a).
Proof. apply respects_ret, keeps_refl. Qed.

Lemma keep_bind {A B} (m : M A) (f : A → M B) : keeping m → (∀ a, keeping (f a)) → keeping (m ≫= f).
Proof. apply respects_bind, keeps_trans. Qed.

Lemma keep_recover {A} (m : M A) h : keeping m → (∀ v, keeping (h v)) → keeping (go_recover m h).
Proof. apply respects_recover, keeps_trans. Qed.

Lemma keep_panic {A} v : keeping (go_panic v : M A).
Proof. intros s. apply keeps_refl. Qed.

Lemma keep_panic_if b v : keeping (go_panic_if b v).
Proof. destruct b; [apply keep_panic | apply keep_ret]. Qed.

Lemma keep_get_ctx : keeping get_ctx.
Proof. intros s. apply keeps_refl. Qed.

Lemma keep_check : keeping check.
Proof. apply keep_bind; [apply keep_get_ctx|]. intros c. apply keep_panic_if. Qed.

Lemma keep_deref {A} (f : RequestCtx → A * RequestCtx) : (∀ r, RemoteIP (f r).2 = RemoteIP r) →
  keeping (deref f).
Proof.
  intros Hf s. unfold deref. destruct (fctx (the s)); [|apply keeps_refl].
  specialize (Hf (rc s)). destruct (f (rc s)). by apply keeps_entry_same.
Qed.

Lemma keep_read {A} (f : RequestCtx → A) : keeping (deref (λ r, (f r, r))).
Proof. by apply keep_deref. Qed.

Lemma keep_put_ctx f : (∀ c, store (f c) = store c) → keeping (put_ctx f).
Proof. intros Hf s. apply keeps_entry_same; [apply Hf|done]. Qed.

Lemma keep_fmap {A B} (m : M A) (f : A → B) : keeping m → keeping (f <$> m).
Proof. intros Hm. apply keep_bind; [done|]. intros a. apply keep_ret. Qed.

Lemma keep_mustBeMade {T} (k : Key T) : keeping (mustBeMade k).
Proof. unfold mustBeMade. destruct (id k); [apply keep_ret|apply keep_panic]. Qed.
End avoids.

Create HintDb keep.
#[export] Hint Resolve keep_ret keep_panic keep_panic_if keep_get_ctx keep_check keep_read keep_fmap
  keep_mustBeMade : keep.

Ltac keep_solve :=
  repeat first
    [ solve [auto with keep | by apply keep_put_ctx
            | apply keep_deref; intros r; cbn [snd]; repeat case_match;
              by rewrite ?remote_body, ?remote_header, ?remote_add, ?remote_content, ?remote_status]
    | apply keep_bind; [|intros]
    | match goal with |- respects _ (match ?x with _ => _ end) => destruct x end ].

Section programs.
Context `{HA : Any} `{F : Fasthttp} `{HG : AppendGrowth} `{HS : Stored} `{HB : Build} {FA : FasthttpAddr}.
Context {FL : FasthttpAddrLaws FA}.
Variable n : nat.

Lemma respond_addr code msg r : RemoteIP (respond code msg r) = RemoteIP r.
Proof. unfold respond. by rewrite remote_body, remote_content, remote_status. Qed.

(** The default ErrorHandler is such a program. *)
Lemma default_avoids e : avoids n (default_handler e).
Proof.
  cbn. intros r. assert (RemoteIP (default_walk e r) = RemoteIP r) as Hw.
  { unfold default_walk, respondPanic. repeat case_match; apply respond_addr. }
  unfold DefaultErrorHandler. repeat case_match; try exact Hw; apply respond_addr.
Qed.

Lemma keep_registerStream hb fn : respects (keeps_entry n) (registerStream hb fn).
Proof.
  unfold registerStream. destruct fn; [|auto with keep].
  apply keep_bind; [auto with keep|intros c]. apply keep_bind; [auto with keep|intros _].
  apply keep_bind; [by apply keep_put_ctx|intros _].
  apply keep_bind; [auto with keep|intros []]; [auto with keep|by apply keep_put_ctx].
Qed.

Lemma keep_exec {A} (op : api A) : op_avoids n op → respects (keeps_entry n) (exec op).
Proof.
  intros Hop. destruct op; cbn [exec op_avoids] in *.
  - unfold with_fctx. apply keep_bind; [auto with keep|intros _]. by apply keep_deref.
  - unfold Param. keep_solve.
  - unfold Route. keep_solve.
  - unfold Context_. keep_solve.
  - unfold SetContext. keep_solve.
  - unfold Accepts_, reading, with_fctx. keep_solve.
  - unfold JSON. keep_solve.
  - unfold Key_Set. apply keep_bind; [auto with keep|intros _].
    unfold mustBeMade. destruct (id k) as [i|] eqn:Ei; [|intros s; apply keeps_refl].
    intros s. split; [|done]. intros Hs. change (slice_ok (set_entry (addr i) (box v) (store (the s))) ∧
      get_entry n (set_entry (addr i) (box v) (store (the s))) = get_entry n (store (the s))).
    rewrite get_set_entry by done.
    rewrite decide_False by (intros ->; by apply (Hop i)). split; [by apply set_entry_ok|done].
  - unfold Key_Get. keep_solve.
  - unfold Stream. apply keep_bind; [auto with keep|intros _].
    apply keep_bind; [apply keep_registerStream|auto with keep].
  - unfold SSE. apply keep_bind; [auto with keep|intros _].
    apply keep_bind; [auto with keep|intros _]. destruct fn; [|auto with keep].
    apply keep_bind; [keep_solve|intros _].
    apply keep_bind; [apply keep_registerStream|auto with keep].
Qed.

Lemma keep_run settle {A} (p : prog A) : (∀ e, respects (keeps_entry n) (settle e)) → avoids n p →
  respects (keeps_entry n) (run_with settle p).
Proof.
  intros Hse. induction p as [A a|A B p IHp k IHk|A op|e|A v|A p IHp h IHh]; cbn [avoids run_with]; intros Hp.
  - auto with keep.
  - destruct Hp as [Hp Hk]. apply keep_bind; [by apply IHp|]. intros a. by apply IHk.
  - by apply keep_exec.
  - apply keep_bind; [auto with keep|intros _]. apply keep_bind; [auto with keep|intros c].
    destruct e; [|auto with keep]. destruct (handled c); [auto with keep|].
    apply keep_bind; [by apply keep_put_ctx|done].
  - auto with keep.
  - destruct Hp as [Hp Hh]. apply keep_recover; [by apply IHp|]. intros v. by apply IHh.
Qed.

Lemma keep_run_handler eh {A} (p : prog A) : (∀ e, avoids n (eh e)) → avoids n p →
  respects (keeps_entry n) (run_handler eh p).
Proof.
  intros Heh. apply keep_run. intros e. unfold call_funnel, callErrorHandler.
  apply keep_bind; [intros s; by apply keeps_entry_same|intros _].
  apply keep_recover; [|intros v; apply keep_deref, respond_addr].
  cbn [run]. apply keep_run; [intros e'; apply keep_ret|apply Heh].
Qed.
End programs.

(** ** The stack *)

Section stack.
Context `{HA : Any} `{F : Fasthttp} `{HG : AppendGrowth} `{HS : Stored} `{HB : Build} {FA : FasthttpAddr}.
Context {FL : FasthttpAddrLaws FA}.
Context `{!Boxed bytes}.
Variable env : log_env.
Variable key : Key bytes.

(** What is inside Logger: [stack] is what [debug.Stack] returns, [random] the bytes
    of a new id, [realip] the middleware [RealIP] returned. *)
Definition inside_logger (stack : bytes) (realip : Middleware) (random : bytes) (next : Handler) : Handler :=
  Recover stack (realip (RequestID key random next)).

(** An id [RequestID] takes from the client: 1 to 64 letters, digits, - and _. *)
Definition id_ok (v : bytes) : Prop :=
  1 <= length v <= 64 ∧ Forall (λ c, is_alnum c = true ∨ c = "-"%char ∨ c = "_"%char) v.

#[export] Instance id_ok_dec v : Decision (id_ok v).
Proof. unfold id_ok. apply _. Defined.

(** A byte in two hexadecimal digits. *)
Definition hex_byte (b : ascii) : bytes :=
  let digit z := take 1 (drop (Z.to_nat z) (bs "0123456789abcdef")) in
  digit (code b / 16)%Z ++ digit (code b mod 16)%Z.

(** The id a request gets: the client's when it is one, else sixteen random bytes
    in hexadecimal. *)
Definition given_id (random sent : bytes) : bytes :=
  if decide (id_ok sent) then sent else concat (map hex_byte random).

Lemma validRequestID_ok v : validRequestID v = true ↔ id_ok v.
Proof.
  unfold validRequestID, id_ok.
  assert (forallb is_id_byte v = true ↔
    Forall (λ c, is_alnum c = true ∨ c = "-"%char ∨ c = "_"%char) v) as Hall.
  { assert (∀ c, is_id_byte c = true ↔ is_alnum c = true ∨ c = "-"%char ∨ c = "_"%char) as Hc.
    { intros c. unfold is_id_byte. rewrite !orb_true_iff, !bool_decide_eq_true. tauto. }
    rewrite forallb_forall, Forall_forall. split; intros H c Hin.
    - by apply Hc, H, list_elem_of_In.
    - by apply Hc, H, list_elem_of_In. }
  rewrite <-Hall. destruct v as [|c v]; [cbn; split; [done|lia]|].
  rewrite (bool_decide_eq_false_2 (c :: v = [])) by done. cbn [orb].
  case_bool_decide; [split; [done|lia]|]. cbn [length] in *. intuition lia.
Qed.

Lemma hex_byte_digits b : hex_byte b = [hex_digit (code b / 16); hex_digit (code b mod 16)].
Proof.
  assert (∀ z, (0 <= z < 16)%Z → take 1 (drop (Z.to_nat z) (bs "0123456789abcdef")) = [hex_digit z]) as Hd.
  { assert (Forall (λ z, take 1 (drop (Z.to_nat z) (bs "0123456789abcdef")) = [hex_digit z]) (seqZ 0 16))
      as Hall by (apply (bool_decide_unpack _); vm_compute; exact I).
    intros z Hz. rewrite Forall_forall in Hall. apply Hall, elem_of_seqZ. lia. }
  pose proof (code_range b). unfold hex_byte. cbv zeta. rewrite !Hd; [done|..].
  - apply Z.mod_pos_bound. lia.
  - split; [apply Z.div_pos; lia|apply Z.div_lt_upper_bound; lia].
Qed.

(** What the code computes for it. *)
Definition assigned_id (random : bytes) (r : RequestCtx) : bytes :=
  let sent := default [] (head (req_Header requestIDHeader r)) in
  if validRequestID sent then sent else newRequestID random.

Lemma assigned_id_given random r :
  assigned_id random r = given_id random (default [] (head (req_Header requestIDHeader r))).
Proof.
  unfold assigned_id, given_id. set (sent := default _ _). destruct (decide (id_ok sent)) as [Hs|Hs].
  - by rewrite (proj2 (validRequestID_ok sent)).
  - destruct (validRequestID sent) eqn:E; [by apply validRequestID_ok in E|].
    unfold newRequestID. f_equal. apply map_ext. intros b. by rewrite hex_byte_digits.
Qed.

Lemma given_id_ok random sent : length random = 16 → id_ok (given_id random sent).
Proof.
  intros Hl. unfold given_id. case_decide; [done|]. apply validRequestID_ok.
  rewrite <-(newRequestID_valid random Hl). f_equal. unfold newRequestID. f_equal. apply map_ext.
  intros b. by rewrite hex_byte_digits.
Qed.

Lemma run_key_set settle (v : bytes) k s : live_ctx s → id key = Some k →
  run_with settle (Call (AKeySet key v)) s =
  (Ret tt, mkSt (set_store (set_entry (addr k) (box v) (store (the s))) (the s)) (rc s) (funnel s)).
Proof.
  intros Hl Hk. cbn [run_with exec]. unfold Key_Set, mustBeMade. rewrite Hk.
  unfold mbind, go_bind. by rewrite check_live.
Qed.

(** An id under the key reads back. *)
Lemma id_read k v s : live_ctx s → id key = Some k → get_entry (addr k) (store (the s)) = Some (box v) →
  RequestIDFrom key s = (Ret v, s).
Proof.
  intros Hl Hk He. unfold RequestIDFrom, Key_Get, mustBeMade. rewrite Hk. unfold mbind, go_bind.
  rewrite check_live by done. cbn -[get_ctx get_entry]. rewrite get_ctx_run, He.
  destruct (box v) as [x|] eqn:Ex; [by rewrite (unbox_box v x Ex)|]. by rewrite (box_nil v Ex).
Qed.

(** The address [RealIP] sets, and the state in which [next] starts. *)
Definition client_addr (ParseIP : bytes → option bytes) (hops : Z) (s : St) : option bytes :=
  resolve ParseIP (req_Header (bs "X-Forwarded-For") (rc s)) (Z.to_nat hops).

(** The address the rest of the chain sees: that one, or the connection's. *)
Definition seen_addr (ParseIP : bytes → option bytes) (hops : Z) (s : St) : bytes :=
  match client_addr ParseIP hops s with Some ip => ip | None => ConnAddr (rc s) end.

Definition identified (k : keyID) (realip_addr : option bytes) (random : bytes) (s : St) : St :=
  let v := given_id random (default [] (head (req_Header (bs "X-Request-Id") (rc s)))) in
  mkSt (set_store (set_entry (addr k) (box v) (store (the s))) (the s))
    (SetHeader requestIDHeader v (SetRemoteAddr realip_addr (rc s))) (funnel s).

Lemma inside_run ParseIP hops realip stack random next eh k s :
  live_ctx s → id key = Some k → RealIP ParseIP hops = Ret realip →
  run_handler eh (inside_logger stack realip random next) s =
    match run_handler eh next (identified k (client_addr ParseIP hops s) random s) with
    | (Ret e, s') => (Ret e, s')
    | (Panic v, s') => (Ret (Some (PanicError v stack)), s')
    end.
Proof.
  intros Hl Hk Hr. unfold RealIP in Hr. destruct (hops <? 1)%Z; [done|]. injection Hr as <-.
  fold (client_addr ParseIP hops s). set (a := client_addr ParseIP hops s).
  unfold inside_logger. rewrite Recover_run. unfold run_handler at 1.
  rewrite run_seq, run_fctx by done. cbn [fst snd]. fold a.
  unfold RequestID. rewrite run_seq. unfold peek. rewrite run_fctx by done. cbn [fst snd rc].
  rewrite header_addr. fold (assigned_id random (rc s)). rewrite assigned_id_given.
  rewrite run_seq, (run_key_set _ _ k) by done. rewrite run_seq. unfold set_header.
  by rewrite run_fctx by done.
Qed.

(** The chain settled by Logger: it never panics, its context stays usable and the
    id stays readable. *)
Lemma settled_inside ParseIP hops realip stack random next eh k s :
  live_ctx s → slice_ok (store (the s)) → id key = Some k → RealIP ParseIP hops = Ret realip →
  avoids (addr k) next → (∀ e, avoids (addr k) (eh e)) →
  ∃ e s', run_handler eh (settled_chain (inside_logger stack realip random next)) s = (Ret e, s') ∧
    live_ctx s' ∧ RequestIDFrom key s' = (Ret (assigned_id random (rc s)), s') ∧
    RemoteIP (rc s') = seen_addr ParseIP hops s ∧
    let '(o, s0) := run_handler eh next (identified k (client_addr ParseIP hops s) random s) in
    ∀ v, o = Panic v → handled (the s0) = false → funnel s' = funnel s0 ++ [PanicError v stack].
Proof.
  intros Hl Hst Hk Hr Hn He. rewrite settled_chain_run, (inside_run ParseIP hops _ _ _ _ _ k) by done.
  set (s1 := identified k _ random s).
  assert (get_entry (addr k) (store (the s1)) = Some (box (assigned_id random (rc s)))) as Hid
    by (rewrite assigned_id_given; cbn -[get_entry set_entry]; rewrite get_set_entry, decide_True by done; done).
  assert (slice_ok (store (the s1))) as Hs1 by (by apply set_entry_ok).
  assert (RemoteIP (rc s1) = seen_addr ParseIP hops s) as Ha1
    by (unfold s1, identified; cbn [rc]; by rewrite remote_header, remote_set).
  assert (∀ {A} (p : prog A) s2, live_ctx s2 → live_ctx (run_handler eh p s2).2) as Hlive.
  { intros A p s2 H2. eapply live_settles; [exact H2|]. apply run_settles, H2. }
  destruct (keep_run_handler (addr k) eh next He Hn s1) as [Hk1 Ha2]. rewrite Ha1 in Ha2.
  destruct (Hk1 Hs1) as [Hs2 Hid2]. rewrite Hid in Hid2. clear Hk1.
  pose proof (Hlive _ next s1 Hl) as Hl2.
  assert (∀ e s2, live_ctx s2 → slice_ok (store (the s2)) →
    get_entry (addr k) (store (the s2)) = Some (box (assigned_id random (rc s))) →
    RemoteIP (rc s2) = seen_addr ParseIP hops s →
    let s3 := (run_handler eh (HandleError e) s2).2 in
    live_ctx s3 ∧ RequestIDFrom key s3 = (Ret (assigned_id random (rc s)), s3) ∧
    RemoteIP (rc s3) = seen_addr ParseIP hops s) as Hsettle.
  { intros e s2 Hls Hss Hes Has s3.
    destruct (keep_run_handler (addr k) eh (HandleError e) He I s2) as [Hk3 Ha3]. fold s3 in Hk3, Ha3.
    destruct (Hk3 Hss) as [_ Hid3]. rewrite Hes in Hid3. split; [by apply Hlive|].
    split; [by apply (id_read k); [apply Hlive|..]|]. by rewrite Ha3. }
  destruct (run_handler eh next s1) as [[e|v] s2]; cbn [snd] in *; [destruct e as [e|]|].
  - destruct (Hsettle (Some e) s2) as (? & ? & ?); [done..|].
    eexists _, _. split; [reflexivity|]. split_and!; done.
  - eexists _, _. split; [reflexivity|]. split; [done|]. split; [by apply (id_read k)|]. by split.
  - destruct (Hsettle (Some (PanicError v stack)) s2) as (? & ? & ?); [done..|].
    eexists _, _. split; [reflexivity|]. split_and!; [done..|]. intros v' [= <-] Hh.
    rewrite HandleError_run, Hh by done.
    destruct (call_funnel_spec eh (PanicError v stack) (mkSt (set_handled (the s2)) (rc s2) (funnel s2)))
      as [_ Hfr]; [done|apply Hl2|]. by rewrite (fr_funnel _ _ Hfr).
Qed.

(** ** Properties *)

(** C30. With the recommended stack no request is missed: whatever is inside it does,
    panics included, short of setting the request's address itself, Logger's handler
    returns nil and writes one line when the level is enabled, an error's from status
    500 on: the method and the path, the status in the response, the time since the
    request came in, the address RealIP found for the trusted hops or else the
    connection's, and the id, which is the client's when it is 1 to 64 letters,
    digits, - and _, and else sixteen random bytes in hexadecimal. A panic that was
    not settled before reaches the ErrorHandler. *)
Theorem every_request_is_logged ParseIP hops realip stack random next eh baseCtx k s t
    (Hl : live_ctx s) (Hst : slice_ok (store (the s))) (Hk : id key = Some k)
    (Hr : RealIP ParseIP hops = Ret realip) (Hrnd : length random = 16)
    (Hn : avoids (addr k) next) (He : ∀ e, avoids (addr k) (eh e)) :
  let '(o, (s', t')) := logged env key eh baseCtx (inside_logger stack realip random next) (s, t) in
  let id := given_id random (default [] (head (req_Header (bs "X-Request-Id") (rc s)))) in
  let r := rc s' in
  let level := if decide (500 <= StatusCode r)%Z then LevelError else LevelInfo in
  let context := default baseCtx (ctx (the s')) in
  o = Ret None ∧ id_ok id ∧
  t' = (if Enabled env context level
        then t ++ [mkLine context level (bs "request")
                     [LogString (bs "method") (req_Method r); LogString (bs "path") (req_Path r);
                      LogInt (bs "status") (StatusCode r); LogDuration (bs "latency") (Since env);
                      LogString (bs "ip") (Addr_String env (seen_addr ParseIP hops s));
                      LogString (bs "request_id") id]]
        else t) ∧
  let '(o0, s0) := run_handler eh next (identified k (client_addr ParseIP hops s) random s) in
  ∀ v, o0 = Panic v → handled (the s0) = false → funnel s' = funnel s0 ++ [PanicError v stack].
Proof.
  destruct (settled_inside ParseIP hops realip stack random next eh k s)
    as (e & s' & Hx & Hl' & Hid & Hip & Hp); [done..|].
  assert (id_readable key s') as Hrd by (split; [by rewrite Hk|by rewrite Hid; eexists]).
  rewrite (logged_run env key eh baseCtx _ s t _ s' Hl Hx Hrd). cbv zeta.
  pose proof (given_id_ok random (default [] (head (req_Header (bs "X-Request-Id") (rc s)))) Hrnd) as Hok.
  split; [done|]. split; [done|]. split; [|exact Hp].
  unfold line_enabled, request_line, stored_id, log_attrs. rewrite Hid, Hip, assigned_id_given. cbn [fst].
  assert (∀ c, level_of c = if decide (500 <= c)%Z then LevelError else LevelInfo) as Hlv.
  { intros c. unfold level_of. case_decide; destruct (Z.leb_spec 500 c); (done || lia). }
  rewrite Hlv. change requestIDHeader with (bs "X-Request-Id"). revert Hok. generalize (given_id random
    (default [] (head (req_Header (bs "X-Request-Id") (rc s))))). intros v [Hv _].
  by rewrite bool_decide_eq_false_2 by (intros ->; cbn in Hv; lia).
Qed.
End stack.

(** Witness: a handler that panics behind a proxy, and is logged with the address the
    proxy named and the id the client sent. The requests of the plain instance, with
    an address beside each. *)
Module LogSample.
#[export] Existing Instance any_bytes.
#[export] Instance located_fasthttp : Fasthttp := {
  RequestCtx := bytes * request;
  req_Method r := rq_method r.2;
  req_Path r := rq_path r.2;
  req_Query _ _ := [];
  req_Header name r := @req_Header plain_fasthttp name r.2;
  PostBody _ := [];
  RemoteIP r := r.1;
  IsHead r := @IsHead plain_fasthttp r.2;
  StatusCode r := @StatusCode plain_fasthttp r.2;
  SetStatusCode c r := (r.1, @SetStatusCode plain_fasthttp c r.2);
  ContentType r := rq_content r.2;
  SetContentType v r := (r.1, @SetContentType plain_fasthttp v r.2);
  Body r := rq_body r.2;
  SetBody b r := (r.1, @SetBody plain_fasthttp b r.2);
  ResetBody r := (r.1, @ResetBody plain_fasthttp r.2);
  Header name r := @Header plain_fasthttp name r.2;
  SetHeader name v r := (r.1, @SetHeader plain_fasthttp name v r.2);
  AddHeader name v r := (r.1, @AddHeader plain_fasthttp name v r.2);
  ConnectionClose r := rq_close r.2;
  SetConnectionClose r := (r.1, @SetConnectionClose plain_fasthttp r.2);
  IsBodyStream r := rq_stream r.2;
  SetBodyStreamWriter r := (r.1, @SetBodyStreamWriter plain_fasthttp r.2);
  StatusMessage := @StatusMessage plain_fasthttp;
}.
#[export] Existing Instance log_stored.
#[export] Instance log_growth : AppendGrowth := two_room.
#[export] Instance log_build : Build := false.
#[export] Instance located_addr : FasthttpAddr :=
  {| SetRemoteAddr a r := (match a with Some ip => ip | None => bs "proxy" end, r.2); ConnAddr _ := bs "proxy" |}.
#[export] Instance located_addr_laws : FasthttpAddrLaws located_addr.
Proof. by split. Defined.
End LogSample.

Import LogSample.

(** The client sent an id, and an address of its own before the proxy's. *)
Definition proxied_request : St :=
  mkSt (reset true (newCtx 1))
    (bs "proxy", mkRequest (bs "GET") (bs "/pot") 0 [] [] [] false false
       [(bs "X-Request-Id", bs "r-17"); (bs "X-Forwarded-For", bs "forged, client")]) [].

Definition sample_realip : Middleware := λ next,
  Seq (Call (AFctx (λ r, (tt, SetRemoteAddr (resolve Some (req_Header (bs "X-Forwarded-For") r) 1) r))))
    (λ _, next).

Definition sample_env : log_env := mkLogEnv (λ _ _, true) 5 (λ ip, ip).

Lemma every_request_is_logged_witness :
  let '(o, (s', t')) :=
    logged sample_env log_key default_handler 0
      (inside_logger log_key [] sample_realip (replicate 16 "000"%char) (PanicNow (PanicString (bs "boom"))))
      (proxied_request, []) in
  o = Ret None ∧
  t' = [mkLine 0 LevelError (bs "request")
          [LogString (bs "method") (bs "GET"); LogString (bs "path") (bs "/pot");
           LogInt (bs "status") 500; LogDuration (bs "latency") 5;
           LogString (bs "ip") (bs "client"); LogString (bs "request_id") (bs "r-17")]] ∧
  funnel s' = [PanicError (PanicString (bs "boom")) []].
Proof.
  pose proof (every_request_is_logged sample_env log_key Some 1 sample_realip [] (replicate 16 "000"%char)
    (PanicNow (PanicString (bs "boom"))) default_handler 0 (mkKeyID 1 (bs "request-id")) proxied_request []
    (conj eq_refl eq_refl) (proj1 (make_slice_ok (A := entry) storeCapacity)) eq_refl eq_refl eq_refl I
    (default_avoids 1)) as Hx.
  destruct (logged _ _ _ _ _ _) as [o [s' t']] eqn:El.
  destruct Hx as (Ho & _ & Ht & Hf).
  split; [exact Ho|]. split.
  - rewrite Ht. assert (s' = (logged sample_env log_key default_handler 0
        (inside_logger log_key [] sample_realip (replicate 16 "000"%char) (PanicNow (PanicString (bs "boom"))))
        (proxied_request, [])).2.1) as -> by (by rewrite El). vm_compute. reflexivity.
  - by rewrite (Hf (PanicString (bs "boom")) eq_refl eq_refl).
Defined.
