(* ===== verification/Rounding.v ===== *)
(** * Rounding in binary64

    What the standard library's executable model of IEEE 754 does to a product: the
    value it returns is within half a unit in the last place, and integers below
    2^53 are exact. The benchmark's quantiles need no more of floating point. *)

From Stdlib Require Import SpecFloat.
From S2P Require Import Prelude.

(** ** Shifting *)

Lemma digits2_log2 p : Z.pos (digits2_pos p) = (Z.log2 (Z.pos p) + 1)%Z.
Proof.
  assert (∀ p, digits2_pos p = Pos.size p) as Hd by (induction p as [p IH|p IH|]; cbn; by rewrite ?IH).
  destruct p; cbn [digits2_pos]; rewrite ?Hd; cbn [Z.log2]; lia.
Qed.

Lemma Zdigits2_log2 M : (0 < M)%Z → Zdigits2 M = (Z.log2 M + 1)%Z.
Proof. destruct M as [|p|p]; [done| |done]. intros _. apply digits2_log2. Qed.

Lemma iter_pos_nat {A} (f : A → A) p : ∀ x, SpecFloat.iter_pos f p x = Nat.iter (Pos.to_nat p) f x.
Proof.
  induction p as [p IH|p IH|]; intros x; cbn [SpecFloat.iter_pos]; [| |done].
  - rewrite !IH, <-Nat.iter_add. change (f x) with (Nat.iter 1 f x). rewrite <-Nat.iter_add. f_equal. lia.
  - rewrite !IH, <-Nat.iter_add. f_equal. lia.
Qed.

(** The record of a value shifted right by [k]: what is left, and the two bits that
    place the remainder below, at, or above one half. *)
Definition shifted (M k : Z) (mrs : shr_record) : Prop :=
  ∃ rem, (M = shr_m mrs * 2 ^ k + rem ∧ 0 <= rem < 2 ^ k ∧ 0 <= shr_m mrs)%Z ∧
    match shr_r mrs, shr_s mrs with
    | false, false => rem = 0
    | false, true => 0 < 2 * rem < 2 ^ k
    | true, false => 2 * rem = 2 ^ k
    | true, true => 2 ^ k < 2 * rem
    end%Z.

Lemma shr_1_parts m r s : (0 <= m)%Z →
  shr_1 (Build_shr_record m r s) = Build_shr_record (m / 2) (Z.odd m) (r || s).
Proof.
  intros Hm. rewrite <-Z.div2_div. destruct m as [|[p|p|]|p]; cbn; try done; lia.
Qed.

Lemma shifted_step M k mrs : (0 <= k)%Z → shifted M k mrs → shifted M (k + 1) (shr_1 mrs).
Proof.
  destruct mrs as [m r s]. intros Hk (rem & (HM & Hrem & Hm) & Hb). cbn [shr_m shr_r shr_s] in *.
  rewrite shr_1_parts by done. exists ((if Z.odd m then 2 ^ k else 0) + rem)%Z. cbn [shr_m shr_r shr_s].
  rewrite Z.pow_add_r by lia. change (2 ^ 1)%Z with 2%Z.
  pose proof (Z.div_mod m 2 ltac:(lia)) as Hdm. rewrite Zmod_odd in Hdm.
  assert (0 < 2 ^ k)%Z as Hp by (apply Z.pow_pos_nonneg; lia).
  pose proof (Z.div_pos m 2 Hm ltac:(lia)).
  split; [split_and!; [|destruct (Z.odd m); lia..|done]|].
  - rewrite HM at 1. rewrite Hdm at 1. destruct (Z.odd m); ring.
  - destruct (Z.odd m), r, s; cbn [orb]; lia.
Qed.

Lemma shifted_shr M p : (0 <= M)%Z →
  shifted M (Z.pos p) (SpecFloat.iter_pos shr_1 p (Build_shr_record M false false)).
Proof.
  intros HM. rewrite iter_pos_nat.
  assert (∀ k, shifted M (Z.of_nat k) (Nat.iter k shr_1 (Build_shr_record M false false))) as Hk.
  { induction k as [|k IH]; [exists 0%Z; cbn; lia|]. rewrite Nat2Z.inj_succ. unfold Z.succ.
    apply shifted_step; [lia|exact IH]. }
  specialize (Hk (Pos.to_nat p)). by rewrite positive_nat_Z in Hk.
Qed.

(** Rounding such a record to nearest is off by half at most. *)
Lemma shifted_round M k mrs : (0 <= k)%Z → shifted M k mrs →
  let m := round_nearest_even (shr_m mrs) (loc_of_shr_record mrs) in
  (shr_m mrs <= m <= shr_m mrs + 1 ∧ 2 * Z.abs (m * 2 ^ k - M) <= 2 ^ k)%Z.
Proof.
  destruct mrs as [m r s]. intros Hk (rem & (-> & Hrem & Hm) & Hb). cbn [shr_m shr_r shr_s] in *.
  assert (0 < 2 ^ k)%Z by (apply Z.pow_pos_nonneg; lia).
  destruct r, s; cbn [loc_of_shr_record round_nearest_even]; cbv zeta; [| |..].
  - split; [lia|]. replace ((m + 1) * 2 ^ k - (m * 2 ^ k + rem))%Z with (2 ^ k - rem)%Z by ring. lia.
  - destruct (Z.even m); (split; [lia|]).
    + replace (m * 2 ^ k - (m * 2 ^ k + rem))%Z with (- rem)%Z by ring. lia.
    + replace ((m + 1) * 2 ^ k - (m * 2 ^ k + rem))%Z with (2 ^ k - rem)%Z by ring. lia.
  - split; [lia|]. replace (m * 2 ^ k - (m * 2 ^ k + rem))%Z with (- rem)%Z by ring. lia.
  - split; [lia|]. replace (m * 2 ^ k - (m * 2 ^ k + rem))%Z with (- rem)%Z by ring. lia.
Qed.

(** ** Rounding to 53 bits *)

Lemma shr_fexp_fits M e l : (0 < M < 2 ^ 53)%Z → (-1074 <= e)%Z →
  shr_fexp 53 1024 M e l = (shr_record_of_loc M l, e).
Proof.
  intros HM He. unfold shr_fexp, fexp, emin. rewrite Zdigits2_log2 by lia.
  assert (Z.log2 M < 53)%Z by (apply Z.log2_lt_pow2; lia).
  assert (Z.max (Z.log2 M + 1 + e - 53) (3 - 1024 - 53) - e <= 0)%Z as Hle by lia.
  destruct (Z.max _ _ - e)%Z; [done|lia|done].
Qed.

Lemma round_fits s M e : (0 < M < 2 ^ 53)%Z → (-1074 <= e <= 971)%Z →
  binary_round_aux 53 1024 s M e loc_Exact = S754_finite s (Z.to_pos M) e.
Proof.
  intros HM He. unfold binary_round_aux. rewrite shr_fexp_fits by lia.
  cbn [shr_record_of_loc shr_m loc_of_shr_record round_nearest_even]. rewrite shr_fexp_fits by lia.
  cbn [shr_record_of_loc shr_m]. destruct M as [|p|p]; [lia| |lia].
  rewrite (proj2 (Z.leb_le _ _)) by lia. done.
Qed.

Lemma round_near s M e : (2 ^ 53 <= M)%Z → (-1074 <= e)%Z → (Z.log2 M + e <= 1000)%Z →
  ∃ m e', binary_round_aux 53 1024 s M e loc_Exact = S754_finite s m e' ∧
    (e + (Z.log2 M - 52) <= e' <= e + (Z.log2 M - 51) ∧
     2 * Z.abs (Z.pos m * 2 ^ (e' - e) - M) <= 2 ^ (Z.log2 M - 52))%Z.
Proof.
  intros HM He Hmax. assert (53 <= Z.log2 M)%Z as Hlog
    by (change 53%Z with (Z.log2 (2 ^ 53)); by apply Z.log2_le_mono).
  set (k := (Z.log2 M - 52)%Z). unfold binary_round_aux.
  assert (shr_fexp 53 1024 M e loc_Exact =
    (SpecFloat.iter_pos shr_1 (Z.to_pos k) (Build_shr_record M false false), e + k)%Z) as ->.
  { unfold shr_fexp, fexp, emin. rewrite Zdigits2_log2 by lia.
    replace (Z.max (Z.log2 M + 1 + e - 53) (3 - 1024 - 53) - e)%Z with k by lia.
    destruct k eqn:Ek; [lia|done|lia]. }
  pose proof (shifted_shr M (Z.to_pos k) ltac:(lia)) as Hs. rewrite Z2Pos.id in Hs by lia.
  set (mrs := SpecFloat.iter_pos _ _ _) in *. clearbody mrs.
  pose proof (shifted_round M k mrs ltac:(lia) Hs) as [Hm Hnear]. cbv zeta in Hm, Hnear.
  assert (2 ^ 52 <= shr_m mrs < 2 ^ 53)%Z as Hrange.
  { destruct Hs as (rem & (HMe & Hrem & _) & _). destruct (Z.log2_spec M) as [Hlo Hhi]; [lia|].
    assert (0 < 2 ^ k)%Z by (apply Z.pow_pos_nonneg; lia).
    replace (Z.log2 M) with (52 + k)%Z in Hlo by lia. replace (Z.succ (Z.log2 M)) with (53 + k)%Z in Hhi by lia.
    rewrite Z.pow_add_r in Hlo, Hhi by lia. nia. }
  set (m := round_nearest_even _ _) in *. clearbody m.
  destruct (Z.eq_dec m (2 ^ 53)%Z) as [->|Hne].
  - assert (shr_fexp 53 1024 (2 ^ 53)%Z (e + k)%Z loc_Exact =
      (Build_shr_record (2 ^ 52)%Z false false, e + k + 1)%Z) as ->.
    { unfold shr_fexp, fexp, emin. change (Zdigits2 (2 ^ 53)%Z) with 54%Z.
      replace (Z.max (54 + (e + k) - 53) (3 - 1024 - 53) - (e + k))%Z with 1%Z by lia. reflexivity. }
    cbn [shr_m]. change (2 ^ 52)%Z with (Z.pos (2 ^ 52)%positive). rewrite (proj2 (Z.leb_le _ _)) by lia.
    do 2 eexists. split; [reflexivity|]. split; [lia|].
    replace (e + k + 1 - e)%Z with (1 + k)%Z by lia. rewrite Z.pow_add_r by lia.
    rewrite Z.mul_assoc. exact Hnear.
  - rewrite shr_fexp_fits by lia. cbn [shr_record_of_loc shr_m].
    destruct m as [|p|p] eqn:Em; [lia| |lia]. rewrite (proj2 (Z.leb_le _ _)) by lia.
    exists p, (e + k)%Z. split; [done|]. split; [lia|]. by replace (e + k - e)%Z with k by lia.
Qed.

(** ** Integers *)

Lemma pos_iter_xO p d : Pos.iter xO p d = (p * 2 ^ d)%positive.
Proof.
  induction d as [|d IH] using Pos.peano_ind; [cbn; lia|].
  rewrite Pos.iter_succ, IH, Pos.pow_succ_r. lia.
Qed.

(** An integer below 2^53 is a float of 53 bits. *)
Lemma normalize_small z b : (0 < z < 2 ^ 53)%Z →
  let d := (52 - Z.log2 z)%Z in
  binary_normalize 53 1024 z 0 b = S754_finite false (Z.to_pos (z * 2 ^ d)) (- d) ∧
  (0 <= d <= 52 ∧ 2 ^ 52 <= z * 2 ^ d < 2 ^ 53)%Z.
Proof.
  intros Hz d. assert (Z.log2 z < 53)%Z as Hl by (apply Z.log2_lt_pow2; lia).
  pose proof (Z.log2_nonneg z). destruct (Z.log2_spec z) as [Hlo Hhi]; [lia|].
  assert (2 ^ 52 <= z * 2 ^ d < 2 ^ 53)%Z as Hr.
  { assert (2 ^ Z.log2 z * 2 ^ d = 2 ^ 52)%Z as He by (rewrite <-Z.pow_add_r by lia; f_equal; lia).
    assert (0 < 2 ^ d)%Z by (apply Z.pow_pos_nonneg; lia). rewrite Z.pow_succ_r in Hhi by lia.
    change (2 ^ 53)%Z with (2 * 2 ^ 52)%Z. nia. }
  split; [|lia]. destruct z as [|p|p]; [lia| |lia]. cbn [binary_normalize]. unfold binary_round, fexp, emin.
  rewrite digits2_log2. replace (Z.max (Z.log2 (Z.pos p) + 1 + 0 - 53) (3 - 1024 - 53)) with (- d)%Z by lia.
  unfold shl_align. rewrite Z.sub_0_r.
  assert ((match (- d)%Z with Z.neg n => (Pos.iter xO p n, (- d)%Z) | _ => (p, 0%Z) end) =
    (Z.to_pos (Z.pos p * 2 ^ d), (- d)%Z)) as ->.
  { destruct d as [|n|n] eqn:Ed; [change (2 ^ 0)%Z with 1%Z; by rewrite Z.mul_1_r| |lia]. cbn [Z.opp]. f_equal.
    rewrite pos_iter_xO. apply (inj Z.pos). rewrite Z2Pos.id by lia. by rewrite Pos2Z.inj_mul, Pos2Z.inj_pow. }
  rewrite Z2Pos.id by lia. by apply round_fits; lia.
Qed.
