(* ===== verification/Histogram.v ===== *)
(** * The benchmark's histogram

    [src/bench/compare/histogram.go]: log-linear buckets for the load generator's
    latencies, and the quantile it reports. Counters are uint64 and wrap; the rank
    of a quantile is computed in binary64, with the standard library's model of
    IEEE 754. *)

From Stdlib Require Import SpecFloat.
From stdpp Require Import sorting.
From S2P Require Import Prelude Rounding.

(** ** Operations *)

Definition two64 : Z := 2 ^ 64.
Definition u64 (z : Z) : Z := z mod two64.

(** [bits.Len64]. *)
Definition Len64 (x : Z) : Z := if (x =? 0)%Z then 0 else Z.log2 x + 1.

Definition bucketOf (ns : Z) : Z :=
  if (ns <? 16)%Z then ns
  else
    let e := (Len64 ns - 1)%Z in
    let sub := Z.land (Z.shiftr ns (e - 4)) 15 in
    ((e - 3) * 16 + sub)%Z.

Definition lowerBound (i : Z) : Z :=
  if (i <? 16)%Z then i
  else
    let e := (i / 16 + 3)%Z in
    let sub := (i mod 16)%Z in
    u64 (Z.shiftl (16 + sub) (e - 4)).

(** [Histogram]: an array of 1024 counters and their sum. *)
Record Histogram : Type := mkHistogram { counts : list Z; n : Z }.

Definition empty : Histogram := mkHistogram (replicate 1024 0%Z) 0.

(** [Record]: indexing past the array would panic. *)
Definition Record_ (d : Z) (h : Histogram) : outcome unit Histogram :=
  let d := if (d <? 0)%Z then 0%Z else d in
  let i := Z.to_nat (bucketOf d) in
  match counts h !! i with
  | None => Panic tt
  | Some c => Ret (mkHistogram (<[i := u64 (c + 1)]> (counts h)) (u64 (n h + 1)))
  end.

Definition Merge (h o : Histogram) : Histogram :=
  mkHistogram (zip_with (λ c c', u64 (c + c')) (counts h) (counts o)) (u64 (n h + n o)).

Definition Count (h : Histogram) : Z := n h.

(** [float64(n)], [math.Ceil] and the conversion to uint64, which Go defines for
    values that fit. *)
Definition float64 (z : Z) : spec_float := binary_normalize 53 1024 z 0 false.

Definition Ceil (x : spec_float) : spec_float :=
  match x with
  | S754_finite s m e =>
    if (0 <=? e)%Z then x
    else
      let p := (2 ^ (- e))%Z in
      binary_normalize 53 1024 (if s then - (Zpos m / p) else - (- Zpos m / p))%Z 0 s
  | _ => x
  end.

Definition to_uint64 (x : spec_float) : option Z :=
  match x with
  | S754_zero _ => Some 0%Z
  | S754_finite s m e =>
    let z := (if 0 <=? e then Zpos m * 2 ^ e else Zpos m / 2 ^ (- e))%Z in
    let z := if s then (- z)%Z else z in
    if (0 <=? z)%Z && (z <? two64)%Z then Some z else None
  | _ => None
  end.

(** The loop over the counters: the first bucket at which the sum reaches the
    target. *)
Fixpoint find_bucket (i : Z) (seen target : Z) (cs : list Z) : option Z :=
  match cs with
  | [] => None
  | c :: cs' =>
    let seen := u64 (seen + c) in
    if (target <=? seen)%Z then Some i else find_bucket (i + 1) seen target cs'
  end.

(** The rank whose value is reported; [None] where Go leaves the conversion open. *)
Definition rank (q : spec_float) (n : Z) : option Z :=
  target ← to_uint64 (Ceil (SFmul 53 1024 q (float64 n)));
  Some (if (target =? 0)%Z then 1%Z else target).

Definition Quantile (q : spec_float) (h : Histogram) : option Z :=
  if (n h =? 0)%Z then Some 0%Z
  else
    target ← rank q (n h);
    Some (wrap64 (match find_bucket 0 0 target (counts h) with
                  | Some i => lowerBound i
                  | None => lowerBound (Z.of_nat (length (counts h)) - 1)
                  end)).

(** ** Buckets *)

(** At or above 16 a value is [m * 2 ^ k] and a remainder, [m] from 16 to 31. *)
Lemma log_linear v : (16 <= v)%Z →
  ∃ k m r, (0 <= k ∧ 16 <= m < 32 ∧ 0 <= r < 2 ^ k ∧ v = m * 2 ^ k + r ∧ Z.log2 v = k + 4)%Z.
Proof.
  intros Hv. assert (4 <= Z.log2 v)%Z as Hk by (change 4%Z with (Z.log2 16); by apply Z.log2_le_mono).
  set (k := (Z.log2 v - 4)%Z). exists k, (v / 2 ^ k)%Z, (v mod 2 ^ k)%Z.
  destruct (Z.log2_spec v) as [Hlo Hhi]; [lia|].
  assert (0 < 2 ^ k)%Z as Hp by (apply Z.pow_pos_nonneg; lia).
  assert (2 ^ Z.log2 v = 16 * 2 ^ k)%Z as He.
  { replace (Z.log2 v) with (4 + k)%Z by lia. rewrite Z.pow_add_r by lia. done. }
  rewrite Z.pow_succ_r, He in Hhi by lia. rewrite He in Hlo.
  split_and!; try lia.
  - apply Z.div_le_lower_bound; lia.
  - apply Z.div_lt_upper_bound; lia.
  - by apply Z.mod_pos_bound.
  - by apply Z.mod_pos_bound.
  - rewrite Z.mul_comm. apply Z.div_mod. lia.
Qed.

Lemma bucketOf_high k m r : (0 <= k → 16 <= m < 32 → 0 <= r < 2 ^ k →
  bucketOf (m * 2 ^ k + r) = 16 * k + m)%Z.
Proof.
  intros Hk Hm Hr. set (v := (m * 2 ^ k + r)%Z).
  assert (0 < 2 ^ k)%Z as Hp by lia.
  assert (Z.log2 v = k + 4)%Z as Hl.
  { apply Z.log2_unique; [lia|]. replace (Z.succ (k + 4)) with (k + 5)%Z by lia.
    rewrite !Z.pow_add_r by lia. unfold v. nia. }
  assert (16 <= v)%Z as Hv by (unfold v; nia).
  unfold bucketOf, Len64. destruct (Z.ltb_spec v 16); [lia|]. destruct (Z.eqb_spec v 0); [lia|].
  rewrite Hl. replace (k + 4 + 1 - 1 - 4)%Z with k by lia.
  rewrite Z.shiftr_div_pow2 by done. change 15%Z with (Z.ones 4). rewrite Z.land_ones by done.
  replace (v / 2 ^ k)%Z with m by (apply Z.div_unique with r; lia).
  replace m with (m - 16 + 1 * 16)%Z at 1 by lia. change (2 ^ 4)%Z with 16%Z.
  rewrite Z.mod_add, Z.mod_small by lia. lia.
Qed.

Lemma lowerBound_high k m : (0 <= k < 60 → 16 <= m < 32 → lowerBound (16 * k + m) = m * 2 ^ k)%Z.
Proof.
  intros Hk Hm. unfold lowerBound. destruct (Z.ltb_spec (16 * k + m) 16); [lia|].
  replace (16 * k + m)%Z with (m - 16 + (k + 1) * 16)%Z by lia.
  rewrite Z.div_add, Z.mod_add, Z.div_small, Z.mod_small by lia.
  replace (0 + (k + 1) + 3 - 4)%Z with k by lia. replace (16 + (m - 16))%Z with m by lia.
  rewrite Z.shiftl_mul_pow2 by lia. unfold u64, two64. apply Z.mod_small.
  assert (2 ^ k <= 2 ^ 59)%Z by (apply Z.pow_le_mono_r; lia). split; [nia|].
  change (2 ^ 64)%Z with (32 * 2 ^ 59)%Z. nia.
Qed.

(** A uint64's exponent. *)
Lemma exponent_bound v k : (0 <= v < two64 → Z.log2 v = k + 4 → k < 60)%Z.
Proof.
  intros Hv Hk. destruct (decide (v = 0)%Z) as [->|]; [cbn in Hk; lia|].
  assert (Z.log2 v < 64)%Z by (apply Z.log2_lt_pow2; unfold two64 in Hv; lia). lia.
Qed.

(** The bucket of a value, from its lower bound to a sixteenth above. *)
Lemma bucket_bounds v : (0 <= v < two64)%Z →
  (0 <= bucketOf v < 976 ∧ 0 <= lowerBound (bucketOf v) <= v ∧
   (v < 16 → lowerBound (bucketOf v) = v) ∧
   (16 <= v → 16 * (v - lowerBound (bucketOf v)) < lowerBound (bucketOf v)))%Z.
Proof.
  intros Hv. destruct (Z.lt_ge_cases v 16) as [Hlt|Hge].
  - assert (bucketOf v = v) as -> by (unfold bucketOf; destruct (Z.ltb_spec v 16); lia).
    assert (lowerBound v = v) as -> by (unfold lowerBound; destruct (Z.ltb_spec v 16); lia). lia.
  - destruct (log_linear v Hge) as (k & m & r & Hk & Hm & Hr & -> & Hl).
    pose proof (exponent_bound _ _ Hv Hl). rewrite bucketOf_high, lowerBound_high by lia. nia.
Qed.

Lemma bucketOf_mono v w : (0 <= v <= w)%Z → (bucketOf v <= bucketOf w)%Z.
Proof.
  intros Hvw. destruct (Z.lt_ge_cases w 16) as [Hlt|Hge].
  { unfold bucketOf. destruct (Z.ltb_spec v 16), (Z.ltb_spec w 16); lia. }
  destruct (log_linear w Hge) as (k' & m' & r' & Hk' & Hm' & Hr' & -> & Hl').
  rewrite bucketOf_high by done.
  destruct (Z.lt_ge_cases v 16) as [Hlt|Hgev].
  { unfold bucketOf. destruct (Z.ltb_spec v 16); lia. }
  destruct (log_linear v Hgev) as (k & m & r & Hk & Hm & Hr & -> & Hl).
  rewrite bucketOf_high by done.
  assert (k <= k')%Z by (pose proof (Z.log2_le_mono (m * 2 ^ k + r) (m' * 2 ^ k' + r') (proj2 Hvw)); lia).
  destruct (decide (k = k')) as [<-|]; [|lia]. nia.
Qed.

(** ** The rank of a quantile *)

Lemma float64_exact z : (0 < z < 2 ^ 53)%Z → to_uint64 (float64 z) = Some z.
Proof.
  intros Hz. destruct (normalize_small z false Hz) as [Hf [Hd Hr]]. unfold float64. rewrite Hf.
  set (d := (52 - Z.log2 z)%Z) in *. clearbody d. unfold to_uint64. rewrite Z2Pos.id by lia.
  assert ((if 0 <=? - d then z * 2 ^ d * 2 ^ (- d) else z * 2 ^ d / 2 ^ (- (- d))) = z)%Z as ->.
  { destruct (Z.leb_spec 0 (- d)) as [H0|H0].
    - assert (d = 0)%Z as -> by lia. change (2 ^ 0)%Z with 1%Z. lia.
    - rewrite Z.opp_involutive. apply Z.div_mul. pose proof (Z.pow_pos_nonneg 2 d). lia. }
  rewrite (proj2 (Z.leb_le 0 z)), (proj2 (Z.ltb_lt z two64)); [done|unfold two64; lia|lia].
Qed.

(** The arithmetic of the product and its rounding, in units of [2 ^ e] for
    [e = - 53 - d]: [M] is the exact product, [m * 2 ^ s] the rounded one. *)
Lemma rank_arith (Q num den n k d M m p s t : Z) :
  (0 < num <= den → den <= 100 → 0 <= num * 2 ^ 53 - den * Q <= 8 →
   1 <= n → den * (k - 1) < num * n <= den * k →
   7 <= d → n * 2 ^ d < 2 ^ 53 → M = Q * (n * 2 ^ d) →
   0 <= p <= 53 → p <= s → 0 <= t → s + t = 53 + d → 2 * Z.abs (m * 2 ^ s - M) <= 2 ^ p →
   (k - 1) * 2 ^ t < m <= k * 2 ^ t)%Z.
Proof.
  intros Hnum Hden HQ Hn Hk Hd Hnd HM Hp Hps Ht Hst Hnear.
  assert (2 ^ s * 2 ^ t = 2 ^ 53 * 2 ^ d)%Z as Hpow by (rewrite <-!Z.pow_add_r by lia; by rewrite Hst).
  assert (2 ^ p <= 2 ^ s)%Z as Hle by (apply Z.pow_le_mono_r; lia).
  assert (2 ^ p <= 2 ^ 53)%Z as Hp53 by (apply Z.pow_le_mono_r; lia).
  assert (2 ^ 7 <= 2 ^ d)%Z as Hd7 by (apply Z.pow_le_mono_r; lia).
  assert (0 < 2 ^ s)%Z as Hs by (apply Z.pow_pos_nonneg; lia).
  assert (0 < 2 ^ p)%Z as Hp0 by (apply Z.pow_pos_nonneg; lia).
  set (D := (2 ^ d)%Z) in *. set (S := (2 ^ s)%Z) in *. set (T := (2 ^ t)%Z) in *. set (P := (2 ^ p)%Z) in *.
  clearbody D S T P. change (2 ^ 7)%Z with 128%Z in Hd7.
  set (B := (2 ^ 53)%Z) in *. assert (B = 9007199254740992)%Z as HB by reflexivity. clearbody B.
  assert (Q * n <= k * B)%Z as Hup by nia.
  assert (den * (Q * n) >= (den * (k - 1) + 1) * B - 8 * n)%Z as Hlow by nia.
  split.
  - apply (Z.mul_lt_mono_pos_r S); [done|]. replace ((k - 1) * T * S)%Z with ((k - 1) * (B * D))%Z by nia.
    apply (Z.mul_lt_mono_pos_l den); [lia|].
    assert (den * M >= ((den * (k - 1) + 1) * B - 8 * n) * D)%Z by nia.
    assert (2 * (den * (m * S)) >= 2 * (den * M) - 100 * P)%Z by nia. nia.
  - apply Z.le_ngt. intros Hgt. assert (m * S >= (k * T + 1) * S)%Z by nia.
    assert (k * T * S = k * B * D)%Z by nia. assert (M <= k * B * D)%Z by nia. lia.
Qed.

(** For fewer than 2^46 values the rank of the float next below [num / den] is the
    exact ceiling of [num / den] of them. *)
Lemma rank_exact (Q num den n k : Z) :
  (2 ^ 52 <= Q < 2 ^ 53 → 0 < num <= den → den <= 100 → 0 <= num * 2 ^ 53 - den * Q <= 8 →
   1 <= n < 2 ^ 46 → den * (k - 1) < num * n <= den * k →
   rank (S754_finite false (Z.to_pos Q) (-53)) n = Some k)%Z.
Proof.
  intros HQ Hnum Hden Hfl Hn Hk. destruct (normalize_small n false) as [Hf [Hd Hr]]; [lia|].
  assert (1 <= k <= n)%Z as Hkn by nia.
  assert (Z.log2 n < 46)%Z as Hln by (apply Z.log2_lt_pow2; lia). pose proof (Z.log2_nonneg n).
  unfold rank, float64. rewrite Hf. set (d := (52 - Z.log2 n)%Z) in *.
  cbn [SFmul xorb]. set (M := (Q * (n * 2 ^ d))%Z).
  assert (Z.pos (Z.to_pos Q * Z.to_pos (n * 2 ^ d)) = M) as -> by (rewrite Pos2Z.inj_mul, !Z2Pos.id by lia; done).
  assert (2 ^ 104 <= M < 2 ^ 106)%Z as HM.
  { change (2 ^ 104)%Z with (2 ^ 52 * 2 ^ 52)%Z. change (2 ^ 106)%Z with (2 ^ 53 * 2 ^ 53)%Z. unfold M.
    split; [apply Z.mul_le_mono_nonneg; lia|apply Z.mul_lt_mono_nonneg; lia]. }
  assert (104 <= Z.log2 M <= 105)%Z as HlM.
  { split; [change 104%Z with (Z.log2 (2 ^ 104)); apply Z.log2_le_mono; lia|].
    assert (Z.log2 M < 106)%Z by (apply Z.log2_lt_pow2; lia). lia. }
  destruct (round_near false M (-53 + - d)) as (m & e' & -> & He' & Hnear); [|lia|lia|].
  { etrans; [|apply HM]. by apply Z.pow_le_mono_r. }
  set (s := (e' - (-53 + - d))%Z) in *.
  assert ((k - 1) * 2 ^ (- e') < Z.pos m <= k * 2 ^ (- e'))%Z as Hm.
  { apply (rank_arith Q num den n k d M _ (Z.log2 M - 52) s); try done; unfold s; lia. }
  assert (0 < 2 ^ (- e'))%Z as Hpe by (apply Z.pow_pos_nonneg; lia).
  cbn [Ceil]. rewrite (proj2 (Z.leb_gt 0 e')) by lia.
  assert (- (- Z.pos m / 2 ^ (- e')) = k)%Z as ->.
  { assert (- Z.pos m / 2 ^ (- e') = - k)%Z as ->; [|lia].
    symmetry. apply (Z.div_unique _ _ _ (k * 2 ^ (- e') - Z.pos m)); [left; lia|lia]. }
  fold (float64 k). rewrite float64_exact by lia. cbn. rewrite (proj2 (Z.eqb_neq k 0)) by lia. done.
Qed.

(** ** What a histogram stands for

    A histogram represents the durations it was given, as long as their number fits
    its counters. *)

Definition how_many (P : Z → bool) (vs : list Z) : Z := Z.of_nat (length (filter (λ v, P v = true) vs)).

Record represents (vs : list Z) (h : Histogram) : Prop := {
  rp_length : length (counts h) = 1024;
  rp_counts : ∀ i, i < 1024 → counts h !! i = Some (how_many (λ v, bucketOf v =? Z.of_nat i)%Z vs);
  rp_n : n h = Z.of_nat (length vs);
  rp_range : Forall (λ v, 0 <= v <= max_int64)%Z vs;
  rp_room : (Z.of_nat (length vs) < two64)%Z;
}.

Lemma how_many_app P vs ws : how_many P (vs ++ ws) = (how_many P vs + how_many P ws)%Z.
Proof. unfold how_many. rewrite filter_app, length_app. lia. Qed.

Lemma how_many_one P v : how_many P [v] = (if P v then 1 else 0)%Z.
Proof. unfold how_many. rewrite filter_cons, filter_nil. by destruct (P v). Qed.

Lemma how_many_cons P v vs : how_many P (v :: vs) = ((if P v then 1 else 0) + how_many P vs)%Z.
Proof. change (v :: vs) with ([v] ++ vs). by rewrite how_many_app, how_many_one. Qed.

Lemma how_many_bounds P vs : (0 <= how_many P vs <= Z.of_nat (length vs))%Z.
Proof. unfold how_many. pose proof (length_filter (λ v, P v = true) vs). lia. Qed.

Lemma how_many_le P Q vs : (∀ v, v ∈ vs → P v = true → Q v = true) → (how_many P vs <= how_many Q vs)%Z.
Proof.
  induction vs as [|v vs IH]; intros HPQ; [done|]. rewrite !how_many_cons.
  assert (how_many P vs <= how_many Q vs)%Z by (apply IH; intros w Hw; apply HPQ; by right).
  specialize (HPQ v ltac:(by left)). destruct (P v), (Q v); naive_solver lia.
Qed.

Lemma duration_bucket v : (0 <= v <= max_int64)%Z → (0 <= v < two64)%Z ∧ Z.to_nat (bucketOf v) < 1024.
Proof.
  intros Hv. assert (0 <= v < two64)%Z as Hv' by (unfold max_int64, two64 in *; lia).
  pose proof (bucket_bounds v Hv'). split; [done|lia].
Qed.

Lemma empty_represents : represents [] empty.
Proof.
  split; try done. intros i Hi. unfold empty. cbn [counts]. by rewrite lookup_replicate_2.
Qed.

(** [Record] never indexes out of the array, and adds its duration. *)
Lemma Record_represents vs h d : represents vs h → (d <= max_int64)%Z →
  (Z.of_nat (length vs) + 1 < two64)%Z →
  ∃ h', Record_ d h = Ret h' ∧ represents (vs ++ [Z.max 0 d]) h'.
Proof.
  intros [Hl Hc Hn Hr Hm] Hd Hroom. unfold Record_.
  replace (if (d <? 0)%Z then 0%Z else d) with (Z.max 0 d) by (destruct (Z.ltb_spec d 0); lia).
  set (v := Z.max 0 d). assert (0 <= v <= max_int64)%Z as Hv by (unfold v, max_int64 in *; lia).
  destruct (duration_bucket v Hv) as [Hv' Hi]. pose proof (bucket_bounds v Hv') as [Hb _].
  rewrite Hc by done. eexists. split; [done|]. split; cbn.
  - by rewrite length_insert.
  - intros i Hi'. rewrite how_many_app, how_many_one, list_lookup_insert. rewrite Hl.
    pose proof (how_many_bounds (λ v, bucketOf v =? Z.of_nat i)%Z vs).
    case_decide as Hd'.
    + destruct Hd' as [<- _]. rewrite Z2Nat.id, Z.eqb_refl by lia.
      f_equal. apply Z.mod_small. rewrite Z2Nat.id in * by lia. lia.
    + rewrite Hc by done. destruct (Z.eqb_spec (bucketOf v) (Z.of_nat i)); [|f_equal; lia]. destruct Hd'. lia.
  - rewrite Hn, length_app. cbn. unfold u64. rewrite Z.mod_small; lia.
  - apply Forall_app. split; [done|]. by apply Forall_singleton.
  - rewrite length_app. cbn. lia.
Qed.

Lemma Merge_represents vs ws h o : represents vs h → represents ws o →
  (Z.of_nat (length vs) + Z.of_nat (length ws) < two64)%Z → represents (vs ++ ws) (Merge h o).
Proof.
  intros [Hl Hc Hn Hr _] [Hl' Hc' Hn' Hr' _] Hroom. split; cbn.
  - rewrite length_zip_with. lia.
  - intros i Hi. rewrite lookup_zip_with, Hc, Hc' by done. cbn. rewrite how_many_app. f_equal.
    pose proof (how_many_bounds (λ v, bucketOf v =? Z.of_nat i)%Z vs).
    pose proof (how_many_bounds (λ v, bucketOf v =? Z.of_nat i)%Z ws).
    apply Z.mod_small. lia.
  - rewrite Hn, Hn', length_app. unfold u64. rewrite Z.mod_small; lia.
  - by apply Forall_app.
  - rewrite length_app. lia.
Qed.

(** ** Quantiles *)

(** [v] is the [k]-th smallest of [vs], counting from one. *)
Definition kth_smallest (vs : list Z) (k v : Z) : Prop :=
  v ∈ vs ∧ (how_many (λ w, w <? v) vs < k <= how_many (λ w, w <=? v) vs)%Z.

Lemma how_many_Permutation P vs ws : vs ≡ₚ ws → how_many P vs = how_many P ws.
Proof. intros Hp. unfold how_many. by rewrite Hp. Qed.

Lemma how_many_all P vs : (∀ v, v ∈ vs → P v = true) → how_many P vs = Z.of_nat (length vs).
Proof.
  induction vs as [|v vs IH]; intros HP; [done|]. rewrite how_many_cons, IH by (intros w Hw; apply HP; by right).
  rewrite HP by (by left). cbn [length]. lia.
Qed.

Lemma how_many_none P vs : (∀ v, v ∈ vs → P v = false) → how_many P vs = 0%Z.
Proof.
  induction vs as [|v vs IH]; intros HP; [done|]. rewrite how_many_cons, IH by (intros w Hw; apply HP; by right).
  rewrite HP by (by left). done.
Qed.

Lemma kth_sorted l1 v l2 : (∀ w, w ∈ l1 → (w <= v)%Z) → (∀ w, w ∈ l2 → (v <= w)%Z) →
  kth_smallest (l1 ++ v :: l2) (Z.of_nat (S (length l1))) v.
Proof.
  intros H1 H2. split; [set_solver|]. rewrite !how_many_app, !how_many_cons.
  rewrite Z.ltb_irrefl, Z.leb_refl.
  rewrite (how_many_none (λ w, w <? v)%Z l2) by (intros w Hw; apply Z.ltb_ge; auto).
  rewrite (how_many_all (λ w, w <=? v)%Z l1) by (intros w Hw; apply Z.leb_le; auto).
  pose proof (how_many_bounds (λ w, w <? v)%Z l1). pose proof (how_many_bounds (λ w, w <=? v)%Z l2). lia.
Qed.

Lemma kth_exists vs k : (1 <= k <= Z.of_nat (length vs))%Z → ∃ v, kth_smallest vs k v.
Proof.
  intros Hk. set (ws := merge_sort Z.le vs).
  assert (ws ≡ₚ vs) as Hp by apply merge_sort_Permutation.
  assert (StronglySorted Z.le ws) as Hs by (apply (StronglySorted_merge_sort Z.le)).
  assert (Z.to_nat (k - 1) < length ws) as Hlt by (rewrite Hp; lia).
  destruct (lookup_lt_is_Some_2 ws _ Hlt) as [v Hv].
  exists v. apply (list_elem_of_split_length ws) in Hv as (l1 & l2 & Hws & Hl1).
  assert (kth_smallest ws k v) as [Hin Hk'].
  { rewrite Hws in Hs |- *. apply StronglySorted_app in Hs as (Hord & _ & Hs2).
    apply StronglySorted_cons in Hs2 as [Hv2 _]. replace k with (Z.of_nat (S (length l1))) by lia.
    apply kth_sorted; [intros w Hw; apply (Hord w v Hw); by left|]. by apply Forall_forall. }
  split; [by rewrite <-Hp|]. by rewrite <-!(how_many_Permutation _ _ _ Hp).
Qed.

Lemma how_many_below vs k :
  how_many (λ v, bucketOf v <? Z.of_nat (S k))%Z vs =
  (how_many (λ v, bucketOf v <? Z.of_nat k) vs + how_many (λ v, bucketOf v =? Z.of_nat k) vs)%Z.
Proof.
  induction vs as [|v vs IH]; [done|]. rewrite !how_many_cons, IH.
  destruct (Z.ltb_spec (bucketOf v) (Z.of_nat (S k))), (Z.ltb_spec (bucketOf v) (Z.of_nat k)),
    (Z.eqb_spec (bucketOf v) (Z.of_nat k)); lia.
Qed.

(** The loop stops at the first bucket the target falls in. *)
Lemma find_bucket_spec vs h target : represents vs h → (target <= Z.of_nat (length vs))%Z →
  ∀ m k, m + k = 1024 → (how_many (λ v, bucketOf v <? Z.of_nat k) vs < target)%Z →
  ∃ i, find_bucket (Z.of_nat k) (how_many (λ v, bucketOf v <? Z.of_nat k)%Z vs) target (drop k (counts h)) =
         Some (Z.of_nat i) ∧
    (how_many (λ v, bucketOf v <? Z.of_nat i) vs < target <= how_many (λ v, bucketOf v <? Z.of_nat (S i)) vs)%Z.
Proof.
  intros [Hl Hc Hn Hr Hm] Ht m. induction m as [|m IH]; intros k Hk Hlo.
  { rewrite how_many_all in Hlo; [lia|]. intros v Hv. rewrite Forall_forall in Hr.
    destruct (duration_bucket v (Hr v Hv)) as [Hv' _]. pose proof (bucket_bounds v Hv'). apply Z.ltb_lt. lia. }
  rewrite (drop_S _ _ _ (Hc k ltac:(lia))). cbn [find_bucket].
  assert (u64 (how_many (λ v, bucketOf v <? Z.of_nat k)%Z vs + how_many (λ v, bucketOf v =? Z.of_nat k)%Z vs) =
          how_many (λ v, bucketOf v <? Z.of_nat (S k))%Z vs) as ->.
  { rewrite <-how_many_below. apply Z.mod_small.
    pose proof (how_many_bounds (λ v, bucketOf v <? Z.of_nat (S k))%Z vs). lia. }
  destruct (Z.leb_spec target (how_many (λ v, bucketOf v <? Z.of_nat (S k))%Z vs)); [by exists k|].
  replace (Z.of_nat k + 1)%Z with (Z.of_nat (S k)) by lia. apply IH; lia.
Qed.

(** The bucket the target falls in is the bucket of the value of that rank. *)
Lemma kth_bucket vs k v i : Forall (λ v, 0 <= v <= max_int64)%Z vs → kth_smallest vs k v →
  (how_many (λ v, bucketOf v <? Z.of_nat i) vs < k <= how_many (λ v, bucketOf v <? Z.of_nat (S i)) vs)%Z →
  bucketOf v = Z.of_nat i.
Proof.
  intros Hr [Hin Hk] Hi. rewrite Forall_forall in Hr. pose proof (Hr v Hin).
  destruct (Z.lt_trichotomy (bucketOf v) (Z.of_nat i)) as [Hlt|[?|Hgt]]; [|done|].
  - assert (how_many (λ w, w <=? v) vs <= how_many (λ v, bucketOf v <? Z.of_nat i) vs)%Z; [|lia].
    apply how_many_le. intros w Hw ?%Z.leb_le. apply Z.ltb_lt. pose proof (Hr w Hw).
    pose proof (bucketOf_mono w v). lia.
  - assert (how_many (λ v, bucketOf v <? Z.of_nat (S i)) vs <= how_many (λ w, w <? v) vs)%Z; [|lia].
    apply how_many_le. intros w Hw ?%Z.ltb_lt. apply Z.ltb_lt. pose proof (Hr w Hw).
    destruct (Z.lt_ge_cases w v); [done|]. pose proof (bucketOf_mono v w). lia.
Qed.

(** ** Properties *)

(** Everything a load generator does with histograms: [Record]s into some, merged
    into one. *)
Fixpoint records (ds : list Z) (h : Histogram) : outcome unit Histogram :=
  match ds with
  | [] => Ret h
  | d :: ds' => match Record_ d h with Ret h' => records ds' h' | Panic e => Panic e end
  end.

Lemma records_represents ds : ∀ vs h, represents vs h → Forall (λ d, d <= max_int64)%Z ds →
  (Z.of_nat (length vs) + Z.of_nat (length ds) < two64)%Z →
  ∃ h', records ds h = Ret h' ∧ represents (vs ++ map (Z.max 0) ds) h'.
Proof.
  induction ds as [|d ds IH]; intros vs h Hh Hd Hroom; cbn in Hroom |- *.
  { exists h. by rewrite app_nil_r. }
  apply Forall_cons in Hd as [Hd Hds].
  destruct (Record_represents vs h d Hh Hd) as (h1 & -> & Hh1); [lia|].
  destruct (IH (vs ++ [Z.max 0 d]) h1 Hh1 Hds) as (h' & -> & Hh'); [rewrite length_app; cbn; lia|].
  exists h'. split; [done|]. by rewrite <-app_assoc in Hh'.
Qed.

(** [Load]'s merge of its workers' histograms. *)
Definition merge_all (hs : list Histogram) : Histogram := foldl Merge empty hs.

Lemma merge_all_represents hs vss : Forall2 represents vss hs → ∀ vs h, represents vs h →
  (Z.of_nat (length vs) + Z.of_nat (length (concat vss)) < two64)%Z →
  represents (vs ++ concat vss) (foldl Merge h hs).
Proof.
  induction 1 as [|vs' h' vss hs Hh _ IH]; intros vs h Hvs Hroom; cbn in Hroom |- *; [by rewrite app_nil_r|].
  rewrite length_app in Hroom. rewrite app_assoc. apply IH; [apply Merge_represents; [done..|lia]|].
  rewrite length_app. lia.
Qed.

Lemma rank_pos q m k : rank q m = Some k → (1 <= k)%Z.
Proof.
  unfold rank. intros (t & Ht & Hk)%bind_Some. injection Hk as <-.
  assert (0 <= t)%Z.
  { unfold to_uint64 in Ht. destruct (Ceil _); simplify_eq/=; try done.
    destruct (_ && _) eqn:E; [|done]. apply andb_true_iff in E as [?%Z.leb_le _]. by injection Ht as <-. }
  destruct (Z.eqb_spec t 0); lia.
Qed.

Lemma Quantile_represents vs h q k : represents vs h → vs ≠ [] → rank q (n h) = Some k →
  (k <= n h)%Z → ∃ v, kth_smallest vs k v ∧ Quantile q h = Some (lowerBound (bucketOf v)).
Proof.
  intros Hh Hne Hrank Hk. pose proof (rank_pos q (n h) k Hrank) as Hk1. pose proof Hh as [Hl Hc Hn Hr Hm].
  rewrite Hn in Hk. destruct (kth_exists vs k) as [v Hv]; [lia|]. exists v. split; [done|].
  assert (how_many (λ v, bucketOf v <? Z.of_nat 0) vs = 0)%Z as Hz.
  { apply how_many_none. intros w Hw. rewrite Forall_forall in Hr. destruct (duration_bucket w (Hr w Hw)) as [Hw' _].
    pose proof (bucket_bounds w Hw'). apply Z.ltb_ge. lia. }
  destruct (find_bucket_spec vs h k Hh ltac:(lia) 1024 0) as (i & Hf & Hi); [done|lia|].
  rewrite Hz, drop_0 in Hf. change (Z.of_nat 0) with 0%Z in Hf.
  unfold Quantile. rewrite Hrank. destruct (Z.eqb_spec (n h) 0); [destruct vs; [done|cbn in Hn; lia]|].
  cbn [mbind option_bind]. rewrite Hf, (kth_bucket vs k v i Hr Hv Hi). f_equal. apply wrap64_id.
  rewrite <-(kth_bucket vs k v i Hr Hv Hi). destruct Hv as [Hin _]. rewrite Forall_forall in Hr.
  destruct (duration_bucket v (Hr v Hin)) as [Hv' _]. pose proof (bucket_bounds v Hv').
  specialize (Hr v Hin). unfold int64_range, min_int64, max_int64 in *. lia.
Qed.

(** What is reported of the durations for the quantile [num / den]: the order
    statistic of the least rank that covers [num / den] of them, exactly below 16ns,
    and less than a sixteenth below it above that. *)
Definition reported (num den : Z) (vs : list Z) (p : option Z) : Prop :=
  (vs = [] → p = Some 0%Z) ∧
  (vs ≠ [] → ∃ k v r,
    (den * (k - 1) < num * Z.of_nat (length vs) <= den * k)%Z ∧ kth_smallest vs k v ∧
    p = Some r ∧ (r <= v ∧ (v < 16 → r = v) ∧ (16 <= v → 16 * (v - r) < r))%Z).

(** The float a quantile is asked with: the nearest one not above [num / den]. *)
Definition just_below (q : spec_float) (num den : Z) : Prop :=
  ∃ Q, q = S754_finite false (Z.to_pos Q) (-53) ∧
    (2 ^ 52 <= Q < 2 ^ 53 ∧ 0 < num <= den ∧ den <= 100 ∧ 0 <= num * 2 ^ 53 - den * Q <= 8)%Z.

Lemma Quantile_reported vs h q num den : represents vs h → (Z.of_nat (length vs) < 2 ^ 46)%Z →
  just_below q num den → reported num den vs (Quantile q h).
Proof.
  intros Hh Hlen (Q & -> & HQ & Hnum & Hden & Hfl). pose proof (rp_n _ _ Hh) as Hn. split.
  - intros ->. unfold Quantile. by rewrite Hn.
  - intros Hne. set (N := Z.of_nat (length vs)) in *.
    assert (1 <= N)%Z as HN by (unfold N; destruct vs; [done|cbn; lia]).
    set (k := (- (- (num * N) / den))%Z).
    assert (den * (k - 1) < num * N <= den * k)%Z as Hk.
    { unfold k. pose proof (Z.div_mod (- (num * N)) den ltac:(lia)).
      pose proof (Z.mod_pos_bound (- (num * N)) den ltac:(lia)). lia. }
    assert (1 <= k <= N)%Z as Hkn by nia.
    destruct (Quantile_represents vs h (S754_finite false (Z.to_pos Q) (-53)) k) as (v & Hv & Hq); [done|done| |lia|].
    { rewrite Hn. by apply (rank_exact Q num den). }
    exists k, v, (lowerBound (bucketOf v)). split; [done|]. split; [done|]. split; [done|].
    destruct Hv as [Hin _]. pose proof (rp_range _ _ Hh) as Hr. rewrite Forall_forall in Hr.
    destruct (duration_bucket v (Hr v Hin)) as [Hv' _]. pose proof (bucket_bounds v Hv'). tauto.
Qed.

(** What the load generator reports: however its durations are spread over the
    workers, no [Record] panics, the merged histogram counts every one, and a
    quantile is the exact order statistic of its rank when that is below 16ns and
    otherwise below it by less than a sixteenth; a negative duration counts as zero,
    and an empty run reports zero. *)
Theorem quantile_within_a_sixteenth q num den (dss : list (list Z)) (Hq : just_below q num den)
    (Hd : Forall (λ d, d <= max_int64)%Z (concat dss))
    (Hroom : (Z.of_nat (length (concat dss)) < 2 ^ 46)%Z) :
  ∃ hs, Forall2 (λ ds h, records ds empty = Ret h) dss hs ∧
  Count (merge_all hs) = Z.of_nat (length (concat dss)) ∧
  reported num den (map (Z.max 0) (concat dss)) (Quantile q (merge_all hs)).
Proof.
  assert (Z.of_nat (length (concat dss)) < two64)%Z as Hroom' by (unfold two64; lia).
  assert (∃ hs, Forall2 (λ ds h, records ds empty = Ret h) dss hs ∧
                Forall2 represents (map (map (Z.max 0)) dss) hs) as (hs & Hrec & Hrep).
  { clear q Hq Hroom. induction dss as [|ds dss IH]; [by exists []|]. cbn in Hd, Hroom'.
    apply Forall_app in Hd as [Hd1 Hd2]. rewrite length_app in Hroom'.
    destruct IH as (hs & H1 & H2); [done|lia|].
    destruct (records_represents ds [] empty empty_represents Hd1) as (h & Hh & Hr); [cbn; lia|].
    exists (h :: hs). split; by constructor. }
  exists hs. split; [done|].
  assert (represents (map (Z.max 0) (concat dss)) (merge_all hs)) as Hall.
  { pose proof (merge_all_represents hs _ Hrep [] empty empty_represents) as Hm.
    rewrite <-concat_map, length_map in Hm. apply Hm. cbn. lia. }
  split; [unfold Count; by rewrite (rp_n _ _ Hall), length_map|].
  apply Quantile_reported; [done|by rewrite length_map|done].
Qed.

(** A witness: the median of four durations on two workers. *)
Definition one_half : spec_float := S754_finite false 4503599627370496 (-53).

Lemma one_half_below : just_below one_half 1 2.
Proof. by exists 4503599627370496%Z. Qed.

Lemma quantile_within_a_sixteenth_witness :
  ∃ hs, Forall2 (λ ds h, records ds empty = Ret h) [[5; 100]; [-3; 1000]]%Z hs ∧
    reported 1 2 [5; 100; 0; 1000]%Z (Quantile one_half (merge_all hs)).
Proof.
  destruct (quantile_within_a_sixteenth one_half 1 2 [[5; 100]; [-3; 1000]]%Z one_half_below) as (hs & Hhs & Hc & Hq).
  - repeat constructor; unfold max_int64; cbn; lia.
  - done.
  - by exists hs.
Defined.
