(* ===== verification/Compare.v ===== *)
(** * The benchmark's application

    [src/bench/compare]: the scenarios every framework has to answer alike, the
    check that they do, the GitHub route table, and rice's own adapter, a program
    that uses the package as its documentation shows. The other frameworks'
    adapters are not modelled. *)

From S2P Require Import Prelude Bytes Decimal Pattern Slice Params Tree TreeSpec TreeLookup Router Accept Fasthttp Errors Ctx Handler Isolation App AppSpec Dispatch Middleware Endpoints.

(** ** [scenarios.go] *)

Inductive app_kind : Type := Small | GitHub.

Record Scenario : Type := mkScenario {
  s_Name : bytes;
  s_App : app_kind;
  s_Method : bytes;
  s_Path : bytes;
  s_Body : option bytes;
  s_Status : Z;
  s_Want : bytes;
  s_StatusOnly : bool;
}.

(** [JSONPayload], and [json.Marshal] of one whose strings need no escaping. *)
Record JSONPayload : Type := mkPayload { ID : Z; p_Name : bytes; Tags : list bytes }.

Definition jsonPayload : JSONPayload := mkPayload 42 (bs "rice") [bs "a"; bs "b"].

Definition quote : ascii := "034"%char.
Definition json_string (s : bytes) : bytes := quote :: s ++ [quote].

Definition Marshal (p : JSONPayload) : bytes :=
  bs "{" ++ json_string (bs "id") ++ bs ":" ++ Itoa (ID p) ++ bs "," ++
  json_string (bs "name") ++ bs ":" ++ json_string (p_Name p) ++ bs "," ++
  json_string (bs "tags") ++ bs ":[" ++ join_on "," (map json_string (Tags p)) ++ bs "]}".

Definition body64k : bytes := replicate (64 * 1024) "r"%char.

Definition githubTarget : bytes := bs "/repos/julienschmidt/httprouter/pulls/42/comments".

Definition wanted_json : bytes :=
  bs "{" ++ [quote] ++ bs "id" ++ [quote] ++ bs ":42," ++ [quote] ++ bs "name" ++ [quote] ++ bs ":" ++
  [quote] ++ bs "rice" ++ [quote] ++ bs "," ++ [quote] ++ bs "tags" ++ [quote] ++ bs ":[" ++
  [quote] ++ bs "a" ++ [quote] ++ bs "," ++ [quote] ++ bs "b" ++ [quote] ++ bs "]}".

Definition Scenarios : list Scenario :=
  [mkScenario (bs "static") Small (bs "GET") (bs "/hello") None 200 (bs "hello") false;
   mkScenario (bs "param") Small (bs "GET") (bs "/users/42") None 200 (bs "42") false;
   mkScenario (bs "middleware5") Small (bs "GET") (bs "/mw") None 200 (bs "ok") false;
   mkScenario (bs "notfound") Small (bs "GET") (bs "/nope") None 404 [] true;
   mkScenario (bs "githubapi") GitHub (bs "GET") githubTarget None 200 (bs "ok") false;
   mkScenario (bs "json") Small (bs "GET") (bs "/json") None 200 wanted_json false;
   mkScenario (bs "body64k") Small (bs "POST") (bs "/echo-len") (Some body64k) 200 (bs "65536") false].

(** [ScenarioByName]: the first of the name. *)
Fixpoint by_name (name : bytes) (l : list Scenario) : option Scenario :=
  match l with
  | [] => None
  | s :: l' => if decide (s_Name s = name) then Some s else by_name name l'
  end.
Definition ScenarioByName (name : bytes) : option Scenario := by_name name Scenarios.

(** ** [githubapi.go] *)

Record entry : Type := mkEntry { Method : bytes; Path : bytes }.

#[export] Instance entry_eq_dec : EqDecision entry.
Proof. solve_decision. Defined.

Definition githubAPI : list entry :=
  [mkEntry (bs "GET") (bs "/authorizations");
   mkEntry (bs "GET") (bs "/authorizations/:id");
   mkEntry (bs "POST") (bs "/authorizations");
   mkEntry (bs "DELETE") (bs "/authorizations/:id");
   mkEntry (bs "GET") (bs "/applications/:client_id/tokens/:access_token");
   mkEntry (bs "DELETE") (bs "/applications/:client_id/tokens");
   mkEntry (bs "DELETE") (bs "/applications/:client_id/tokens/:access_token");
   mkEntry (bs "GET") (bs "/events");
   mkEntry (bs "GET") (bs "/repos/:owner/:repo/events");
   mkEntry (bs "GET") (bs "/networks/:owner/:repo/events");
   mkEntry (bs "GET") (bs "/orgs/:org/events");
   mkEntry (bs "GET") (bs "/users/:user/received_events");
   mkEntry (bs "GET") (bs "/users/:user/received_events/public");
   mkEntry (bs "GET") (bs "/users/:user/events");
   mkEntry (bs "GET") (bs "/users/:user/events/public");
   mkEntry (bs "GET") (bs "/users/:user/events/orgs/:org");
   mkEntry (bs "GET") (bs "/feeds");
   mkEntry (bs "GET") (bs "/notifications");
   mkEntry (bs "GET") (bs "/repos/:owner/:repo/notifications");
   mkEntry (bs "PUT") (bs "/notifications");
   mkEntry (bs "PUT") (bs "/repos/:owner/:repo/notifications");
   mkEntry (bs "GET") (bs "/notifications/threads/:id");
   mkEntry (bs "GET") (bs "/notifications/threads/:id/subscription");
   mkEntry (bs "PUT") (bs "/notifications/threads/:id/subscription");
   mkEntry (bs "DELETE") (bs "/notifications/threads/:id/subscription");
   mkEntry (bs "GET") (bs "/repos/:owner/:repo/stargazers");
   mkEntry (bs "GET") (bs "/users/:user/starred");
   mkEntry (bs "GET") (bs "/user/starred");
   mkEntry (bs "GET") (bs "/user/starred/:owner/:repo");
   mkEntry (bs "PUT") (bs "/user/starred/:owner/:repo");
   mkEntry (bs "DELETE") (bs "/user/starred/:owner/:repo");
   mkEntry (bs "GET") (bs "/repos/:owner/:repo/subscribers");
   mkEntry (bs "GET") (bs "/users/:user/subscriptions");
   mkEntry (bs "GET") (bs "/user/subscriptions");
   mkEntry (bs "GET") (bs "/repos/:owner/:repo/subscription");
   mkEntry (bs "PUT") (bs "/repos/:owner/:repo/subscription");
   mkEntry (bs "DELETE") (bs "/repos/:owner/:repo/subscription");
   mkEntry (bs "GET") (bs "/user/subscriptions/:owner/:repo");
   mkEntry (bs "PUT") (bs "/user/subscriptions/:owner/:repo");
   mkEntry (bs "DELETE") (bs "/user/subscriptions/:owner/:repo");
   mkEntry (bs "GET") (bs "/users/:user/gists");
   mkEntry (bs "GET") (bs "/gists");
   mkEntry (bs "GET") (bs "/gists/:id");
   mkEntry (bs "POST") (bs "/gists");
   mkEntry (bs "PUT") (bs "/gists/:id/star");
   mkEntry (bs "DELETE") (bs "/gists/:id/star");
   mkEntry (bs "GET") (bs "/gists/:id/star");
   mkEntry (bs "POST") (bs "/gists/:id/forks");
   mkEntry (bs "DELETE") (bs "/gists/:id");
   mkEntry (bs "GET") (bs "/repos/:owner/:repo/git/blobs/:sha");
   mkEntry (bs "POST") (bs "/repos/:owner/:repo/git/blobs");
   mkEntry (bs "GET") (bs "/repos/:owner/:repo/git/commits/:sha");
   mkEntry (bs "POST") (bs "/repos/:owner/:repo/git/commits");
   mkEntry (bs "GET") (bs "/repos/:owner/:repo/git/refs");
   mkEntry (bs "POST") (bs "/repos/:owner/:repo/git/refs");
   mkEntry (bs "GET") (bs "/repos/:owner/:repo/git/tags/:sha");
   mkEntry (bs "POST") (bs "/repos/:owner/:repo/git/tags");
   mkEntry (bs "GET") (bs "/repos/:owner/:repo/git/trees/:sha");
   mkEntry (bs "POST") (bs "/repos/:owner/:repo/git/trees");
   mkEntry (bs "GET") (bs "/issues");
   mkEntry (bs "GET") (bs "/user/issues");
   mkEntry (bs "GET") (bs "/orgs/:org/issues");
   mkEntry (bs "GET") (bs "/repos/:owner/:repo/issues");
   mkEntry (bs "GET") (bs "/repos/:owner/:repo/issues/:number");
   mkEntry (bs "POST") (bs "/repos/:owner/:repo/issues");
   mkEntry (bs "GET") (bs "/repos/:owner/:repo/assignees");
   mkEntry (bs "GET") (bs "/repos/:owner/:repo/assignees/:assignee");
   mkEntry (bs "GET") (bs "/repos/:owner/:repo/issues/:number/comments");
   mkEntry (bs "POST") (bs "/repos/:owner/:repo/issues/:number/comments");
   mkEntry (bs "GET") (bs "/repos/:owner/:repo/issues/:number/events");
   mkEntry (bs "GET") (bs "/repos/:owner/:repo/labels");
   mkEntry (bs "GET") (bs "/repos/:owner/:repo/labels/:name");
   mkEntry (bs "POST") (bs "/repos/:owner/:repo/labels");
   mkEntry (bs "DELETE") (bs "/repos/:owner/:repo/labels/:name");
   mkEntry (bs "GET") (bs "/repos/:owner/:repo/issues/:number/labels");
   mkEntry (bs "POST") (bs "/repos/:owner/:repo/issues/:number/labels");
   mkEntry (bs "DELETE") (bs "/repos/:owner/:repo/issues/:number/labels/:name");
   mkEntry (bs "PUT") (bs "/repos/:owner/:repo/issues/:number/labels");
   mkEntry (bs "DELETE") (bs "/repos/:owner/:repo/issues/:number/labels");
   mkEntry (bs "GET") (bs "/repos/:owner/:repo/milestones/:number/labels");
   mkEntry (bs "GET") (bs "/repos/:owner/:repo/milestones");
   mkEntry (bs "GET") (bs "/repos/:owner/:repo/milestones/:number");
   mkEntry (bs "POST") (bs "/repos/:owner/:repo/milestones");
   mkEntry (bs "DELETE") (bs "/repos/:owner/:repo/milestones/:number");
   mkEntry (bs "GET") (bs "/emojis");
   mkEntry (bs "GET") (bs "/gitignore/templates");
   mkEntry (bs "GET") (bs "/gitignore/templates/:name");
   mkEntry (bs "POST") (bs "/markdown");
   mkEntry (bs "POST") (bs "/markdown/raw");
   mkEntry (bs "GET") (bs "/meta");
   mkEntry (bs "GET") (bs "/rate_limit");
   mkEntry (bs "GET") (bs "/users/:user/orgs");
   mkEntry (bs "GET") (bs "/user/orgs");
   mkEntry (bs "GET") (bs "/orgs/:org");
   mkEntry (bs "GET") (bs "/orgs/:org/members");
   mkEntry (bs "GET") (bs "/orgs/:org/members/:user");
   mkEntry (bs "DELETE") (bs "/orgs/:org/members/:user");
   mkEntry (bs "GET") (bs "/orgs/:org/public_members");
   mkEntry (bs "GET") (bs "/orgs/:org/public_members/:user");
   mkEntry (bs "PUT") (bs "/orgs/:org/public_members/:user");
   mkEntry (bs "DELETE") (bs "/orgs/:org/public_members/:user");
   mkEntry (bs "GET") (bs "/orgs/:org/teams");
   mkEntry (bs "GET") (bs "/teams/:id");
   mkEntry (bs "POST") (bs "/orgs/:org/teams");
   mkEntry (bs "DELETE") (bs "/teams/:id");
   mkEntry (bs "GET") (bs "/teams/:id/members");
   mkEntry (bs "GET") (bs "/teams/:id/members/:user");
   mkEntry (bs "PUT") (bs "/teams/:id/members/:user");
   mkEntry (bs "DELETE") (bs "/teams/:id/members/:user");
   mkEntry (bs "GET") (bs "/teams/:id/repos");
   mkEntry (bs "GET") (bs "/teams/:id/repos/:owner/:repo");
   mkEntry (bs "PUT") (bs "/teams/:id/repos/:owner/:repo");
   mkEntry (bs "DELETE") (bs "/teams/:id/repos/:owner/:repo");
   mkEntry (bs "GET") (bs "/user/teams");
   mkEntry (bs "GET") (bs "/repos/:owner/:repo/pulls");
   mkEntry (bs "GET") (bs "/repos/:owner/:repo/pulls/:number");
   mkEntry (bs "POST") (bs "/repos/:owner/:repo/pulls");
   mkEntry (bs "GET") (bs "/repos/:owner/:repo/pulls/:number/commits");
   mkEntry (bs "GET") (bs "/repos/:owner/:repo/pulls/:number/files");
   mkEntry (bs "GET") (bs "/repos/:owner/:repo/pulls/:number/merge");
   mkEntry (bs "PUT") (bs "/repos/:owner/:repo/pulls/:number/merge");
   mkEntry (bs "GET") (bs "/repos/:owner/:repo/pulls/:number/comments");
   mkEntry (bs "PUT") (bs "/repos/:owner/:repo/pulls/:number/comments");
   mkEntry (bs "GET") (bs "/user/repos");
   mkEntry (bs "GET") (bs "/users/:user/repos");
   mkEntry (bs "GET") (bs "/orgs/:org/repos");
   mkEntry (bs "GET") (bs "/repositories");
   mkEntry (bs "POST") (bs "/user/repos");
   mkEntry (bs "POST") (bs "/orgs/:org/repos");
   mkEntry (bs "GET") (bs "/repos/:owner/:repo");
   mkEntry (bs "GET") (bs "/repos/:owner/:repo/contributors");
   mkEntry (bs "GET") (bs "/repos/:owner/:repo/languages");
   mkEntry (bs "GET") (bs "/repos/:owner/:repo/teams");
   mkEntry (bs "GET") (bs "/repos/:owner/:repo/tags");
   mkEntry (bs "GET") (bs "/repos/:owner/:repo/branches");
   mkEntry (bs "GET") (bs "/repos/:owner/:repo/branches/:branch");
   mkEntry (bs "DELETE") (bs "/repos/:owner/:repo");
   mkEntry (bs "GET") (bs "/repos/:owner/:repo/collaborators");
   mkEntry (bs "GET") (bs "/repos/:owner/:repo/collaborators/:user");
   mkEntry (bs "PUT") (bs "/repos/:owner/:repo/collaborators/:user");
   mkEntry (bs "DELETE") (bs "/repos/:owner/:repo/collaborators/:user");
   mkEntry (bs "GET") (bs "/repos/:owner/:repo/comments");
   mkEntry (bs "GET") (bs "/repos/:owner/:repo/commits/:sha/comments");
   mkEntry (bs "POST") (bs "/repos/:owner/:repo/commits/:sha/comments");
   mkEntry (bs "GET") (bs "/repos/:owner/:repo/comments/:id");
   mkEntry (bs "DELETE") (bs "/repos/:owner/:repo/comments/:id");
   mkEntry (bs "GET") (bs "/repos/:owner/:repo/commits");
   mkEntry (bs "GET") (bs "/repos/:owner/:repo/commits/:sha");
   mkEntry (bs "GET") (bs "/repos/:owner/:repo/readme");
   mkEntry (bs "GET") (bs "/repos/:owner/:repo/keys");
   mkEntry (bs "GET") (bs "/repos/:owner/:repo/keys/:id");
   mkEntry (bs "POST") (bs "/repos/:owner/:repo/keys");
   mkEntry (bs "DELETE") (bs "/repos/:owner/:repo/keys/:id");
   mkEntry (bs "GET") (bs "/repos/:owner/:repo/downloads");
   mkEntry (bs "GET") (bs "/repos/:owner/:repo/downloads/:id");
   mkEntry (bs "DELETE") (bs "/repos/:owner/:repo/downloads/:id");
   mkEntry (bs "GET") (bs "/repos/:owner/:repo/forks");
   mkEntry (bs "POST") (bs "/repos/:owner/:repo/forks");
   mkEntry (bs "GET") (bs "/repos/:owner/:repo/hooks");
   mkEntry (bs "GET") (bs "/repos/:owner/:repo/hooks/:id");
   mkEntry (bs "POST") (bs "/repos/:owner/:repo/hooks");
   mkEntry (bs "POST") (bs "/repos/:owner/:repo/hooks/:id/tests");
   mkEntry (bs "DELETE") (bs "/repos/:owner/:repo/hooks/:id");
   mkEntry (bs "POST") (bs "/repos/:owner/:repo/merges");
   mkEntry (bs "GET") (bs "/repos/:owner/:repo/releases");
   mkEntry (bs "GET") (bs "/repos/:owner/:repo/releases/:id");
   mkEntry (bs "POST") (bs "/repos/:owner/:repo/releases");
   mkEntry (bs "DELETE") (bs "/repos/:owner/:repo/releases/:id");
   mkEntry (bs "GET") (bs "/repos/:owner/:repo/releases/:id/assets");
   mkEntry (bs "GET") (bs "/repos/:owner/:repo/stats/contributors");
   mkEntry (bs "GET") (bs "/repos/:owner/:repo/stats/commit_activity");
   mkEntry (bs "GET") (bs "/repos/:owner/:repo/stats/code_frequency");
   mkEntry (bs "GET") (bs "/repos/:owner/:repo/stats/participation");
   mkEntry (bs "GET") (bs "/repos/:owner/:repo/stats/punch_card");
   mkEntry (bs "GET") (bs "/repos/:owner/:repo/statuses/:ref");
   mkEntry (bs "POST") (bs "/repos/:owner/:repo/statuses/:ref");
   mkEntry (bs "GET") (bs "/search/repositories");
   mkEntry (bs "GET") (bs "/search/code");
   mkEntry (bs "GET") (bs "/search/issues");
   mkEntry (bs "GET") (bs "/search/users");
   mkEntry (bs "GET") (bs "/legacy/issues/search/:owner/:repository/:state/:keyword");
   mkEntry (bs "GET") (bs "/legacy/repos/search/:keyword");
   mkEntry (bs "GET") (bs "/legacy/user/search/:keyword");
   mkEntry (bs "GET") (bs "/legacy/user/email/:email");
   mkEntry (bs "GET") (bs "/users/:user");
   mkEntry (bs "GET") (bs "/user");
   mkEntry (bs "GET") (bs "/users");
   mkEntry (bs "GET") (bs "/user/emails");
   mkEntry (bs "POST") (bs "/user/emails");
   mkEntry (bs "DELETE") (bs "/user/emails");
   mkEntry (bs "GET") (bs "/users/:user/followers");
   mkEntry (bs "GET") (bs "/user/followers");
   mkEntry (bs "GET") (bs "/users/:user/following");
   mkEntry (bs "GET") (bs "/user/following");
   mkEntry (bs "GET") (bs "/user/following/:user");
   mkEntry (bs "GET") (bs "/users/:user/following/:target_user");
   mkEntry (bs "PUT") (bs "/user/following/:user");
   mkEntry (bs "DELETE") (bs "/user/following/:user");
   mkEntry (bs "GET") (bs "/users/:user/keys");
   mkEntry (bs "GET") (bs "/user/keys");
   mkEntry (bs "GET") (bs "/user/keys/:id");
   mkEntry (bs "POST") (bs "/user/keys");
   mkEntry (bs "DELETE") (bs "/user/keys/:id")].

Section compare.
Context `{HA : Any} `{F : Fasthttp} `{HG : AppendGrowth} `{HS : Stored} `{HB : Build}.

(** ** [rice.go] *)

Definition bytes_response (code : Z) (body : bytes) : Handler :=
  Call (AFctx (λ r, (None, SetBody body (SetStatusCode code r)))).

Definition hello : Handler := string_response 200 (bs "hello").
Definition user : Handler := Seq (Call (AParam (bs "id"))) (bytes_response 200).
Definition ok : Handler := string_response 200 (bs "ok").
Definition json : Handler :=
  Seq (Call (AFctx (λ r, (tt, SetContentType (bs "application/json") r)))) (λ _,
    bytes_response 200 (Marshal jsonPayload)).
Definition echo_len : Handler :=
  Seq (Call (AFctx (λ r, (PostBody r, r)))) (λ b, string_response 200 (Itoa (Z.of_nat (length b)))).

Definition riceNoop : Middleware := λ next, next.

Fixpoint handle_all (rts : list entry) : R unit :=
  match rts with
  | [] => mret tt
  | rt :: rts' => Handle (Method rt) (Path rt) (Some ok) [];; handle_all rts'
  end.

(** [buildRice]: the routes, and [FasthttpHandler], which builds. *)
Definition register_kind (k : app_kind) : R unit :=
  match k with
  | Small =>
    GET (bs "/hello") (Some hello) [];;
    GET (bs "/users/:id") (Some user) [];;
    GET (bs "/mw") (Some ok) [Some riceNoop; Some riceNoop; Some riceNoop; Some riceNoop; Some riceNoop];;
    GET (bs "/json") (Some json) [];;
    POST (bs "/echo-len") (Some echo_len) []
  | GitHub => handle_all githubAPI
  end.

Definition buildRice (k : app_kind) : outcome reg_panic unit * App :=
  (register_kind k;; Build_) (New default_handler).

(** ** [check.go] *)

(** [Do]: the App's handler on a fresh request context. *)
Definition Do (a : App) (stack : bytes) (r : RequestCtx) : Z * bytes :=
  let x := handle a stack false (newCtx (maxParams a)) r in
  (StatusCode (hr_response x), Body (hr_response x)).

Inductive check_error : Type :=
| WrongStatus (got want : Z)
| WrongBody (got want : bytes).

(** [strings.TrimSuffix] for the newline. *)
Definition trim_newline (b : bytes) : bytes :=
  if bool_decide (last b = Some "010"%char) then take (length b - 1) b else b.

Definition CheckServer (a : App) (stack : bytes) (s : Scenario) (r : RequestCtx) : option check_error :=
  let '(status, body) := Do a stack r in
  if negb (status =? s_Status s)%Z then Some (WrongStatus status (s_Status s))
  else if s_StatusOnly s then None
  else
    let got := trim_newline body in
    if negb (bool_decide (got = s_Want s)) then Some (WrongBody got (s_Want s)) else None.

(** [Check]: on a fresh App, whose construction must not panic. *)
Definition Check_rice (stack : bytes) (s : Scenario) (r : RequestCtx) : outcome reg_panic (option check_error) :=
  match buildRice (s_App s) with
  | (Ret _, a) => Ret (CheckServer a stack s r)
  | (Panic p, _) => Panic p
  end.

(** ** Handlers that only respond

    [responds hd ps r r']: on a request [r] with parameters [ps] the handler returns
    nil, leaves the Ctx as it was and the response as in [r']. *)
Definition responds (hd : Handler) (ps : Params) (r r' : RequestCtx) : Prop :=
  ∀ eh s, live_ctx s → rc s = r → params (the s) = ps →
  run_handler eh hd s = (Ret None, mkSt (the s) r' (funnel s)).

Lemma responds_fctx f ps r : (f r).1 = None → responds (Call (AFctx f)) ps r (f r).2.
Proof. intros Hf eh s Hl <- _. unfold run_handler. rewrite run_fctx by done. by rewrite Hf. Qed.

Lemma responds_seq {A} (f : RequestCtx → A * RequestCtx) k ps r r' :
  responds (k (f r).1) ps (f r).2 r' → responds (Seq (Call (AFctx f)) k) ps r r'.
Proof.
  intros Hk eh s Hl <- Hps. unfold run_handler. rewrite run_seq, run_fctx by done.
  exact (Hk eh (mkSt (the s) (f (rc s)).2 (funnel s)) Hl eq_refl Hps).
Qed.

Lemma run_param settle nm s : live_ctx s →
  run_with settle (Call (AParam nm)) s = (Ret (Params.Get (params (the s)) nm), s).
Proof.
  intros Hl. cbn [run_with exec]. unfold Param, mbind, go_bind. by rewrite check_live.
Qed.

Lemma responds_param nm k ps r r' :
  responds (k (Params.Get ps nm)) ps r r' → responds (Seq (Call (AParam nm)) k) ps r r'.
Proof.
  intros Hk eh s Hl Hr Hps. unfold run_handler. rewrite run_seq, run_param, Hps by done. by apply (Hk eh).
Qed.

(** A request that finds such a handler gets its response. *)
Lemma handle_responds a stack r e ps hd r' :
  app_ok a → lookupEntry a (req_Method r) (req_Path r) (Reset (params (newCtx (maxParams a)))) = (Some e, ps) →
  h e = Some hd → responds hd ps r r' →
  hr_response (handle a stack false (newCtx (maxParams a)) r) = r'.
Proof.
  intros Ha Hl He Hr.
  pose proof (handle_spec a stack false (newCtx (maxParams a)) r Ha (newCtx_ok _) eq_refl) as Hs.
  cbv zeta in Hs. unfold serve, mbind, go_bind, route_request in Hs.
  cbn [acquire rc the params reset funnel] in Hs. rewrite Hl, He in Hs.
  rewrite (Hr (errorHandler a)) in Hs by first [done|split; [done|apply andb_false_r]].
  destruct Hs as (_ & _ & _ & _ & _ & Hst & ->). cbn in Hst. by rewrite Hst.
Qed.

(** One that finds nothing, in an App without middleware, gets the default 404. *)
Lemma handle_misses a stack r ps :
  app_ok a → lookupEntry a (req_Method r) (req_Path r) (Reset (params (newCtx (maxParams a)))) = (None, ps) →
  miss a = notFound → errorHandler a = default_handler →
  hr_response (handle a stack false (newCtx (maxParams a)) r) = DefaultErrorHandler ErrNotFound r.
Proof.
  intros Ha Hl Hm Heh.
  pose proof (handle_spec a stack false (newCtx (maxParams a)) r Ha (newCtx_ok _) eq_refl) as Hs.
  cbv zeta in Hs. unfold serve, mbind, go_bind, route_request in Hs.
  cbn [acquire rc the params reset funnel] in Hs. rewrite Hl, Hm, Heh in Hs.
  cbn [run_handler run_with notFound mret go_ret] in Hs.
  destruct Hs as (_ & _ & _ & _ & _ & _ & ->). by rewrite call_funnel_default.
Qed.

(** ** The Apps as sequences of registrations *)

Definition small_ops : list reg_op :=
  [OHandle (bs "GET") (bs "/hello") (Some hello) [];
   OHandle (bs "GET") (bs "/users/:id") (Some user) [];
   OHandle (bs "GET") (bs "/mw") (Some ok) [Some riceNoop; Some riceNoop; Some riceNoop; Some riceNoop; Some riceNoop];
   OHandle (bs "GET") (bs "/json") (Some json) [];
   OHandle (bs "POST") (bs "/echo-len") (Some echo_len) []].

Definition github_ops : list reg_op := map (λ rt, OHandle (Method rt) (Path rt) (Some ok) []) githubAPI.

Definition ops_of (k : app_kind) : list reg_op := match k with Small => small_ops | GitHub => github_ops end.

Lemma register_small : register_kind Small (New default_handler) = (Ret tt, run_ops small_ops (New default_handler)).
Proof.
  unfold register_kind, small_ops. generalize hello user ok json echo_len riceNoop. intros.
  vm_compute. reflexivity.
Qed.

Lemma handle_all_ops rts : ∀ a, (handle_all rts a).1 = Ret tt →
  handle_all rts a = (Ret tt, run_ops (map (λ rt, OHandle (Method rt) (Path rt) (Some ok) []) rts) a).
Proof.
  induction rts as [|rt rts IH]; intros a; [done|]. cbn [handle_all map]. unfold mbind, go_bind.
  unfold run_ops. cbn [foldl run_op].
  destruct (Handle (Method rt) (Path rt) (Some ok) [] a) as [[[]|p] a'] eqn:E; [|done].
  cbn [fst snd]. apply IH.
Qed.

Lemma register_github : register_kind GitHub (New default_handler) = (Ret tt, run_ops github_ops (New default_handler)).
Proof.
  apply handle_all_ops. cbn [register_kind]. generalize ok. intros. vm_compute. reflexivity.
Qed.

Lemma buildRice_ops k :
  ∃ a', Build_ (run_ops (ops_of k) (New default_handler)) = (Ret tt, a') ∧ buildRice k = (Ret tt, a') ∧ app_ok a'.
Proof.
  destruct (build_answers default_handler (ops_of k)) as (a' & Ha & _).
  exists a'. split; [done|]. split.
  - unfold buildRice, mbind, go_bind. destruct k; [rewrite register_small|rewrite register_github]; apply Ha.
  - pose proof (built_app_ok default_handler (ops_of k)) as Hok. by rewrite Ha in Hok.
Qed.

(** ** Serving *)

Lemma served ops stack r ts hd pat caps r' a' :
  let a := run_ops ops (New default_handler) in
  Build_ a = (Ret tt, a') → req_Path r ≠ [] →
  table_lookup (route_table (compiled a) (routes a) (req_Method r)) (req_Path r) =
    Some (ts, App.mkEntry (Some hd) pat, caps) →
  (∀ ps, captures ps = caps → responds hd ps r r') →
  Do a' stack r = (StatusCode r', Body r').
Proof.
  intros a Hb Hp Hl Hr. destruct (build_answers default_handler ops) as (a0 & Hb' & _ & _ & _ & _ & Hans).
  fold a in Hb'. rewrite Hb in Hb'. injection Hb' as <-.
  pose proof (built_app_ok default_handler ops) as Hok. fold a in Hok. rewrite Hb in Hok. cbn in Hok.
  set (ps0 := Reset (params (newCtx (maxParams a')))).
  destruct (Hans (req_Method r) (req_Path r) ps0 Hp) as [H1 H2]; [apply truncate_ok; [apply MakeParams_ok|lia]|].
  fold a in H1, H2. rewrite Hl in H1, H2.
  destruct (lookupEntry a' (req_Method r) (req_Path r) ps0) as [e ps] eqn:El. cbn [fst snd] in H1, H2.
  rewrite H1 in El. assert (captures ps0 = []) as Hps0.
  { unfold ps0, Reset. rewrite captures_truncate; [done|apply MakeParams_ok|lia]. }
  rewrite Hps0 in H2. unfold Do.
  by rewrite (handle_responds a' stack r (App.mkEntry (Some hd) pat) ps hd r' Hok El eq_refl (Hr ps H2)).
Qed.

Lemma missed ops stack r a' :
  let a := run_ops ops (New default_handler) in
  Build_ a = (Ret tt, a') → req_Path r ≠ [] → mws a = [] → errorHandler a = default_handler →
  table_lookup (route_table (compiled a) (routes a) (req_Method r)) (req_Path r) = None →
  Do a' stack r = (StatusCode (DefaultErrorHandler ErrNotFound r), Body (DefaultErrorHandler ErrNotFound r)).
Proof.
  intros a Hb Hp Hm Heh Hl.
  destruct (build_answers default_handler ops) as (a0 & Hb' & _ & Hmiss & Heh' & _ & Hans).
  fold a in Hb'. rewrite Hb in Hb'. injection Hb' as <-.
  pose proof (built_app_ok default_handler ops) as Hok. fold a in Hok, Hmiss, Heh'. rewrite Hb in Hok. cbn in Hok.
  set (ps0 := Reset (params (newCtx (maxParams a')))).
  destruct (Hans (req_Method r) (req_Path r) ps0 Hp) as [H1 _]; [apply truncate_ok; [apply MakeParams_ok|lia]|].
  fold a in H1. rewrite Hl in H1.
  destruct (lookupEntry a' (req_Method r) (req_Path r) ps0) as [e ps] eqn:El. cbn [fst] in H1.
  unfold Do. rewrite (handle_misses a' stack r ps Hok); [done|by rewrite H1 in El| |by rewrite Heh'].
  by rewrite Hmiss, Hm.
Qed.

(** The GitHub App before it is built. *)
Lemma github_routes :
  let a := run_ops github_ops (New default_handler) in
  routes a = map (λ rt, mkRoute (Method rt) (Path rt) ok None []) githubAPI ∧ mws a = [] ∧
  errorHandler a = default_handler.
Proof. unfold github_ops. generalize ok. intros. vm_compute. done. Qed.

Lemma github_entry a m ts e :
  routes a = map (λ rt, mkRoute (Method rt) (Path rt) ok None []) githubAPI → mws a = [] →
  Router.entry (route_table (compiled a) (routes a) m) ts e ↔
  ∃ rt segs, rt ∈ githubAPI ∧ Method rt = m ∧ parsePattern (Path rt) = Ok segs ∧ toks segs = ts ∧
             e = App.mkEntry (Some ok) (Path rt).
Proof.
  intros Hr Hm. rewrite Hr.
  assert (∀ rt, compiled a (mkRoute (Method rt) (Path rt) ok None []) = App.mkEntry (Some ok) (Path rt)) as Hc.
  { intros rt. unfold compiled, middlewareFor. by rewrite Hm. }
  unfold Router.entry, route_table. setoid_rewrite list_elem_of_fmap. setoid_rewrite list_elem_of_filter.
  setoid_rewrite list_elem_of_fmap. split.
  - intros (p & segs & (r & [= -> ->] & <- & rt & -> & Hin) & Hp & Ht). exists rt, segs. rewrite Hc.
    exact (conj Hin (conj eq_refl (conj Hp (conj Ht eq_refl)))).
  - intros (rt & segs & Hin & <- & Hp & Ht & ->). exists (Path rt), segs. split; [|exact (conj Hp Ht)].
    exists (mkRoute (Method rt) (Path rt) ok None []). rewrite Hc. split; [done|]. split; [done|].
    exists rt. exact (conj eq_refl Hin).
Qed.
End compare.

(** ** Properties *)

Section properties.
Context `{HA : Any} `{F : Fasthttp} `{HG : AppendGrowth} `{HS : Stored} `{HB : Build} {L : FasthttpLaws F}.

(** A path some route of the table is for: the pattern with its parameters filled
    in. *)
Definition in_table (method path : bytes) : Prop :=
  ∃ rt segs values, rt ∈ githubAPI ∧ Method rt = method ∧ parsePattern (Path rt) = Ok segs ∧
    expand segs values = Some path.

Lemma github_serves stack r (Hp : req_Path r ≠ []) :
  let '(o, a) := buildRice GitHub in
  length githubAPI = 203 ∧ o = Ret tt ∧
  (in_table (req_Method r) (req_Path r) → Do a stack r = (200%Z, bs "ok")) ∧
  (¬ in_table (req_Method r) (req_Path r) → Do a stack r = (404%Z, bs "Not Found")).
Proof.
  destruct (buildRice_ops GitHub) as (a' & Hb & -> & _). split; [reflexivity|]. split; [done|].
  change (ops_of GitHub) with github_ops in Hb.
  destruct github_routes as (Hr & Hm & Heh).
  pose proof (λ ts e, github_entry _ (req_Method r) ts e Hr Hm) as Hent.
  pose proof (served github_ops stack r) as Hserved. pose proof (missed github_ops stack r) as Hmissed.
  cbv zeta in Hserved, Hmissed. revert Hb Hr Hm Heh Hent Hserved Hmissed.
  generalize (run_ops github_ops (New default_handler)). intros a Hb Hr Hm Heh Hent Hserved Hmissed.
  destruct (table_lookup (route_table (compiled a) (routes a) (req_Method r)) (req_Path r))
    as [[[ts e] caps]|] eqn:El.
  - pose proof El as [He Ht]%table_lookup_Some. pose proof (proj1 (Hent _ _) He) as
      (rt & segs & Hin & Hmt & Hps & <- & ->).
    assert (in_table (req_Method r) (req_Path r)) as Hit.
    { apply parsePattern_sound in Hps as Hs. destruct Hs as (_ & _ & Hwf & _).
      exists rt, segs, caps.*2.
      exact (conj Hin (conj Hmt (conj Hps (proj2 (expand_match _ _ _ _ Hwf Ht))))). }
    split; [intros _|intros Hn; destruct (Hn Hit)].
    rewrite (Hserved _ ok (Path rt) caps (SetBody (bs "ok") (SetContentType MIMETextPlainUTF8 (SetStatusCode 200 r))) a' Hb Hp eq_refl).
    + by rewrite status_body, status_content, status_set, body_set.
    + intros ps _. by apply (responds_fctx (λ r, (None, SetBody (bs "ok") (SetContentType MIMETextPlainUTF8 (SetStatusCode 200 r))))).
  - split.
    + intros (rt & segs & values & Hin & Hmt & Hps & Hx). exfalso.
      rewrite table_lookup_None in El. specialize (El (toks segs) (App.mkEntry (Some ok) (Path rt))).
      apply parsePattern_sound in Hps as Hs. destruct Hs as (_ & _ & Hwf & _).
      rewrite (match_expand segs [] values _ Hwf Hx) in El. discriminate El.
      apply (proj2 (Hent _ _)).
      exists rt, segs. exact (conj Hin (conj Hmt (conj Hps (conj eq_refl eq_refl)))).
    + intros _. rewrite (Hmissed a' Hb Hp Hm Heh eq_refl).
      cbn. unfold respond. by rewrite status_body, status_content, status_set, body_set.
Qed.

(** The small App before it is built. *)
Definition small_routes : list route :=
  [mkRoute (bs "GET") (bs "/hello") hello None []; mkRoute (bs "GET") (bs "/users/:id") user None [];
   mkRoute (bs "GET") (bs "/mw") ok None [riceNoop; riceNoop; riceNoop; riceNoop; riceNoop];
   mkRoute (bs "GET") (bs "/json") json None []; mkRoute (bs "POST") (bs "/echo-len") echo_len None []].

Lemma small_recorded :
  let a := run_ops small_ops (New default_handler) in
  routes a = small_routes ∧ mws a = [] ∧ errorHandler a = default_handler.
Proof.
  unfold small_ops, small_routes. generalize hello user ok json echo_len riceNoop. intros.
  vm_compute. done.
Qed.

Lemma small_lookup a : mws a = [] →
  let find m p := (λ x, (x.1.2, x.2)) <$> table_lookup (route_table (compiled a) small_routes m) p in
  find (bs "GET") (bs "/hello") = Some (App.mkEntry (Some hello) (bs "/hello"), []) ∧
  find (bs "GET") (bs "/users/42") = Some (App.mkEntry (Some user) (bs "/users/:id"), [(bs "id", bs "42")]) ∧
  find (bs "GET") (bs "/mw") = Some (App.mkEntry (Some ok) (bs "/mw"), []) ∧
  find (bs "GET") (bs "/nope") = None ∧
  find (bs "GET") (bs "/json") = Some (App.mkEntry (Some json) (bs "/json"), []) ∧
  find (bs "POST") (bs "/echo-len") = Some (App.mkEntry (Some echo_len) (bs "/echo-len"), []).
Proof.
  intros Hm. cbv beta zeta.
  assert (∀ m p hd l, compiled a (mkRoute m p hd None l) = App.mkEntry (Some (Compile hd l)) p) as Hc.
  { intros. unfold compiled, middlewareFor. by rewrite Hm. }
  assert (∀ m, route_table (compiled a) small_routes m =
    map (λ r, (r_path r, App.mkEntry (Some (Compile (r_h r) (r_mws r))) (r_path r)))
      (filter (λ r, r_method r = m) small_routes)) as Ht.
  { intros m. unfold route_table, small_routes. rewrite !filter_cons. repeat case_decide; cbn [map r_path r_h r_mws];
      rewrite ?Hc; reflexivity. }
  rewrite !Ht. unfold small_routes, riceNoop. generalize hello user ok json echo_len. intros.
  vm_compute. done.
Qed.

(** C35. The 203 routes of the GitHub table register without a conflict, and the App
    built from them answers 200 to exactly the requests some route of the table is
    for, whatever the parameters' values, and 404 to every other. *)
Theorem github_app_serves stack r (Hp : req_Path r ≠ []) :
  let '(o, a) := buildRice GitHub in
  length githubAPI = 203 ∧ o = Ret tt ∧
  (in_table (req_Method r) (req_Path r) → Do a stack r = (200%Z, bs "ok")) ∧
  (¬ in_table (req_Method r) (req_Path r) → Do a stack r = (404%Z, bs "Not Found")).
Proof. by apply github_serves. Qed.

(** A scenario passes when the response has its status and its body. *)
Lemma check_passes a stack s r st b :
  Do a stack r = (st, b) → st = s_Status s → s_StatusOnly s = true ∨ trim_newline b = s_Want s →
  CheckServer a stack s r = None.
Proof.
  intros Hd -> Hw. unfold CheckServer. rewrite Hd, Z.eqb_refl. cbn [negb].
  destruct (s_StatusOnly s); [done|]. destruct Hw as [|Hw]; [done|].
  by rewrite bool_decide_eq_true_2 by exact Hw.
Qed.

Lemma small_serves stack r a' m p hd pat caps r' :
  Build_ (run_ops small_ops (New default_handler)) = (Ret tt, a') →
  req_Method r = m → req_Path r = p → p ≠ [] →
  (λ x, (x.1.2, x.2)) <$>
    table_lookup (route_table (compiled (run_ops small_ops (New default_handler))) small_routes m) p =
    Some (App.mkEntry (Some hd) pat, caps) →
  (∀ ps, captures ps = caps → responds hd ps r r') → Do a' stack r = (StatusCode r', Body r').
Proof.
  intros Hb <- <- Hp Hl Hr. apply fmap_Some in Hl as ([[ts e] c] & Hl & [= <- <-]).
  destruct small_recorded as (Hroutes & _ & _). rewrite <-Hroutes in Hl.
  exact (served small_ops stack r ts hd pat caps r' a' Hb Hp Hl Hr).
Qed.

Lemma captured_Get ps name v : captures ps = [(name, v)] → Params.Get ps name = v.
Proof.
  unfold captures, Params.Get. intros Hc. destruct (live (slots ps)) as [|q [|]]; try done.
  cbn in Hc. injection Hc as Hn Hv. cbn. by rewrite decide_True by exact Hn.
Qed.

Lemma small_scenario stack s r hd pat caps r' :
  s_App s = Small → req_Method r = s_Method s → req_Path r = s_Path s → s_Path s ≠ [] →
  (λ x, (x.1.2, x.2)) <$>
    table_lookup (route_table (compiled (run_ops small_ops (New default_handler))) small_routes (s_Method s)) (s_Path s) =
    Some (App.mkEntry (Some hd) pat, caps) →
  (∀ ps, captures ps = caps → responds hd ps r r') →
  StatusCode r' = s_Status s → trim_newline (Body r') = s_Want s → Check_rice stack s r = Ret None.
Proof.
  intros Hk Hm Hp Hne Hl Hr Hst Hw. unfold Check_rice. rewrite Hk.
  destruct (buildRice_ops Small) as (a' & Hbuild & -> & _). f_equal.
  exact (check_passes a' stack s r _ _ (small_serves stack r a' _ _ hd pat caps r' Hbuild Hm Hp Hne Hl Hr) Hst
    (or_intror Hw)).
Qed.

Definition string_set (body : bytes) (r : RequestCtx) : RequestCtx :=
  SetBody body (SetContentType MIMETextPlainUTF8 (SetStatusCode 200 r)).

Lemma string_set_answer body r : StatusCode (string_set body r) = 200%Z ∧ Body (string_set body r) = body.
Proof. unfold string_set. by rewrite status_body, status_content, status_set, body_set. Qed.

Lemma responds_string body ps r : responds (string_response 200 body) ps r (string_set body r).
Proof. by apply (responds_fctx (λ r, (None, string_set body r))). Qed.

Lemma responds_bytes body ps r : responds (bytes_response 200 body) ps r (SetBody body (SetStatusCode 200 r)).
Proof. by apply (responds_fctx (λ r, (None, SetBody body (SetStatusCode 200 r)))). Qed.

(** The six scenarios of the small App, one by one; [notfound] is answered by the
    miss chain. *)
Lemma small_passes stack s r : s ∈ Scenarios → s_App s = Small →
  req_Method r = s_Method s → req_Path r = s_Path s → PostBody r = default [] (s_Body s) →
  Check_rice stack s r = Ret None.
Proof.
  intros Hs Hk Hm Hp Hb. destruct small_recorded as (Hroutes & Hmws & Heh).
  pose proof (small_lookup _ Hmws) as (L1 & L2 & L3 & L4 & L5 & L6).
  unfold Scenarios in Hs. repeat (apply elem_of_cons in Hs as [->|Hs]); [..|destruct (not_elem_of_nil _ Hs)].
  - eapply small_scenario; [exact Hk|exact Hm|exact Hp|discriminate|exact L1|intros; apply responds_string|
      apply string_set_answer|rewrite (proj2 (string_set_answer _ r)); vm_compute; reflexivity].
  - eapply (small_scenario _ _ _ _ _ _ (SetBody (bs "42") (SetStatusCode 200 r))); [exact Hk|exact Hm|exact Hp|discriminate|exact L2| |
      rewrite status_body, status_set; [reflexivity|discriminate]|rewrite body_set; vm_compute; reflexivity].
    intros ps Hps. apply responds_param. rewrite (captured_Get _ _ _ Hps). apply responds_bytes.
  - eapply small_scenario; [exact Hk|exact Hm|exact Hp|discriminate|exact L3|intros; apply responds_string|
      apply string_set_answer|rewrite (proj2 (string_set_answer _ r)); vm_compute; reflexivity].
  - unfold Check_rice. cbn [s_App]. destruct (buildRice_ops Small) as (a' & Hbuild & -> & _). f_equal.
    apply fmap_None in L4. rewrite <-Hroutes in L4. cbn [s_Method s_Path] in Hm, Hp.
    pose proof (missed small_ops stack r a' Hbuild) as Hmiss. rewrite Hm, Hp in Hmiss.
    specialize (Hmiss ltac:(discriminate) Hmws Heh L4).
    eapply check_passes; [exact Hmiss| |left; reflexivity].
    cbn. unfold respond. rewrite status_body, status_content, status_set; [reflexivity|discriminate].
  - discriminate Hk.
  - eapply (small_scenario _ _ _ _ _ _
      (SetBody (Marshal jsonPayload) (SetStatusCode 200 (SetContentType (bs "application/json") r)))); [exact Hk|exact Hm|exact Hp|discriminate|exact L5| |
      rewrite status_body, status_set; [reflexivity|discriminate]|rewrite body_set; vm_compute; reflexivity].
    intros ps _. unfold json. apply responds_seq. apply responds_bytes.
  - eapply small_scenario; [exact Hk|exact Hm|exact Hp|discriminate|exact L6| | | ].
    + intros ps _. unfold echo_len. apply responds_seq. cbn [fst snd]. rewrite Hb. apply responds_string.
    + apply string_set_answer.
    + rewrite (proj2 (string_set_answer _ r)). vm_compute. reflexivity.
Qed.

Lemma githubTarget_in_table : in_table (bs "GET") githubTarget.
Proof.
  exists (mkEntry (bs "GET") (bs "/repos/:owner/:repo/pulls/:number/comments")).
  eexists _, [bs "julienschmidt"; bs "httprouter"; bs "42"].
  split; [apply (bool_decide_unpack _); vm_compute; exact I|].
  split; [reflexivity|]. split; vm_compute; reflexivity.
Qed.

(** The equivalence gate: rice's adapter builds without a panic, and for every
    scenario the check finds nothing, for any request with the scenario's method,
    path and body. *)
Theorem rice_passes_scenarios stack s r (Hs : s ∈ Scenarios)
    (Hm : req_Method r = s_Method s) (Hp : req_Path r = s_Path s)
    (Hb : PostBody r = default [] (s_Body s)) :
  Check_rice stack s r = Ret None.
Proof.
  destruct (s_App s) eqn:Ek; [by apply small_passes|].
  assert (s = mkScenario (bs "githubapi") GitHub (bs "GET") githubTarget None 200 (bs "ok") false) as ->.
  { unfold Scenarios in Hs. repeat (apply elem_of_cons in Hs as [->|Hs]); try discriminate Ek; [reflexivity|].
    destruct (not_elem_of_nil _ Hs). }
  cbn [s_Method s_Path] in Hm, Hp. unfold Check_rice. cbn [s_App].
  pose proof (github_serves stack r) as Hg. destruct (buildRice GitHub) as [o a].
  destruct Hg as (_ & -> & Hg & _); [by rewrite Hp|]. f_equal.
  eapply check_passes; [apply Hg|done|by right]. rewrite Hm, Hp. apply githubTarget_in_table.
Qed.
End properties.

(** Witnesses: a request for a gist's star, and the parameter scenario. *)
Definition bench_stored : Stored := {| context := unit; StreamFn := unit |}.

Lemma github_app_serves_witness :
  @Do any_nat plain_fasthttp two_room bench_stored false
    (@buildRice any_nat plain_fasthttp bench_stored GitHub).2 []
    (new_request (bs "PUT") (bs "/gists/17/star")) = (200%Z, bs "ok").
Proof.
  pose proof (@github_app_serves any_nat plain_fasthttp two_room bench_stored false plain_fasthttp_laws []
    (new_request (bs "PUT") (bs "/gists/17/star")) ltac:(discriminate)) as Hx.
  destruct (buildRice GitHub) as [o a]. destruct Hx as (_ & _ & Hx & _). apply Hx.
  exists (mkEntry (bs "PUT") (bs "/gists/:id/star")). eexists _, [bs "17"].
  split; [apply (bool_decide_unpack _); vm_compute; exact I|].
  split; [reflexivity|]. split; vm_compute; reflexivity.
Defined.

Lemma rice_passes_scenarios_witness :
  @Check_rice any_nat plain_fasthttp two_room bench_stored false []
    (mkScenario (bs "param") Small (bs "GET") (bs "/users/42") None 200 (bs "42") false)
    (new_request (bs "GET") (bs "/users/42")) = Ret None.
Proof.
  apply (@rice_passes_scenarios any_nat plain_fasthttp two_room bench_stored false plain_fasthttp_laws).
  - right. left.
  - reflexivity.
  - reflexivity.
  - reflexivity.
Defined.
