(* ===== verification/LoadGen.v ===== *)
(** * The load generator

    [src/bench/compare/loadgen.go]: closed-loop workers, each with counters and a
    histogram of its own, and what a run reports from them. What the clock and the
    client return is a script of rounds per worker; the sockets are fasthttp's. *)

From Stdlib Require Import SpecFloat.
From stdpp Require Import sorting.
From S2P Require Import Prelude Histogram Compare.

(** ** One worker *)

(** A round: the clock before the request, what [Do] returned, the clock after. *)
Record round {E : Type} : Type := mkRound { t0 : Z; response : result E Z; t1 : Z }.
Arguments round E : clear implicits.
Arguments mkRound {E} t0%_Z response t1%_Z.

Record worker : Type := mkWorker {
  hist : Histogram;
  requests : Z;
  mismatches : Z;
  errors : Z;
}.

Definition new_worker : worker := mkWorker Histogram.empty 0 0 0.

(** [t1.Sub(t0)] saturates. *)
Definition Sub (t u : Z) : Z := Z.max min_int64 (Z.min max_int64 (t - u)).

Section load.
Context {E : Type}.

(** The goroutine's loop, and whether it has returned: it has not when the script
    ends first. *)
Fixpoint worker_loop (status measureFrom end_ : Z) (rounds : list (round E)) (w : worker)
    : outcome unit (bool * worker) :=
  match rounds with
  | [] => Ret (false, w)
  | r :: rounds' =>
    if negb (t0 r <? end_)%Z then Ret (true, w)
    else match response r with
         | Err _ => Ret (true, mkWorker (hist w) (requests w) (mismatches w) (u64 (errors w + 1)))
         | Ok code =>
           let w := if (code =? status)%Z then w
                    else mkWorker (hist w) (requests w) (u64 (mismatches w + 1)) (errors w) in
           if (t0 r <? measureFrom)%Z then worker_loop status measureFrom end_ rounds' w
           else match Histogram.Record_ (Sub (t1 r) (t0 r)) (hist w) with
                | Panic p => Panic p
                | Ret h =>
                  worker_loop status measureFrom end_ rounds'
                    (mkWorker h (u64 (requests w + 1)) (mismatches w) (errors w))
                end
         end
  end.

(** ** A run *)

Record LoadConfig : Type := mkLoadConfig {
  cfg_Addr : bytes;
  cfg_Scenario : Scenario;
  Conns : Z;
  Warmup : Z;
  Duration : Z;
  Timeout : Z;
}.

(** What [Load] sets of fasthttp's client, and of the request each worker sends. *)
Record HostClient : Type := mkHostClient {
  hc_Addr : bytes;
  MaxConns : Z;
  MaxIdemponentCallAttempts : Z;
  ReadTimeout : Z;
  WriteTimeout : Z;
  MaxIdleConnDuration : Z;
}.

Record Request : Type := mkRequest { rq_Method : bytes; rq_URI : bytes; rq_Body : option bytes }.

Definition host_client (cfg : LoadConfig) : HostClient :=
  let timeout := if (Timeout cfg <=? 0)%Z then (10 * second)%Z else Timeout cfg in
  mkHostClient (cfg_Addr cfg) (Conns cfg) 1 timeout timeout (60 * second).

Definition worker_request (cfg : LoadConfig) : Request :=
  let s := cfg_Scenario cfg in
  mkRequest (s_Method s) (bs "http://" ++ cfg_Addr cfg ++ s_Path s) (s_Body s).

Record LoadResult : Type := mkLoadResult {
  Requests : Z;
  Mismatches : Z;
  Errors : Z;
  RPS : spec_float;
  P50 : option Z;     (* [None] where Go leaves a conversion open *)
  P99 : option Z;
}.

Inductive load_error : Type :=
| ConnsTooFew (got : Z)
| Differed (scenario : bytes) (mismatches errors : Z).

Definition no_result : LoadResult := mkLoadResult 0 0 0 (S754_zero false) (Some 0%Z) (Some 0%Z).

(** [time.Duration.Seconds]. *)
Definition Seconds (d : Z) : spec_float :=
  SFadd 53 1024 (float64 (Z.quot d second)) (SFdiv 53 1024 (float64 (Z.rem d second)) (float64 second)).

Definition q50 : spec_float := S754_finite false 4503599627370496 (-53).
Definition q99 : spec_float := S754_finite false 8917127262193582 (-53).

(** The loop over the workers after [wg.Wait]. *)
Definition gather (ws : list worker) : Histogram * Z * Z * Z :=
  foldl (λ acc w, let '(h, n, m, e) := acc in
           (Merge h (hist w), u64 (n + requests w), u64 (m + mismatches w), u64 (e + errors w)))
    (Histogram.empty, 0%Z, 0%Z, 0%Z) ws.

(** Every worker's loop: a panic of one is the process's; [None] while [wg.Wait]
    still waits for one. *)
Fixpoint run_workers (status measureFrom end_ : Z) (scripts : list (list (round E)))
    : outcome unit (option (list worker)) :=
  match scripts with
  | [] => Ret (Some [])
  | rounds :: scripts' =>
    match worker_loop status measureFrom end_ rounds new_worker with
    | Panic p => Panic p
    | Ret (finished, w) =>
      match run_workers status measureFrom end_ scripts' with
      | Panic p => Panic p
      | Ret ws => Ret (if finished then cons w <$> ws else None)
      end
    end
  end.

(** [Load] from the moment its clock reads [now]. [client] is what the workers see:
    for fasthttp's client and the request they send, a script for each. *)
Definition Load (client : HostClient → Request → list (list (round E))) (cfg : LoadConfig) (now : Z)
    : outcome unit (option (LoadResult * option load_error)) :=
  if (Conns cfg <? 1)%Z then Ret (Some (no_result, Some (ConnsTooFew (Conns cfg))))
  else
    let measureFrom := (now + Warmup cfg)%Z in
    let end_ := (measureFrom + Duration cfg)%Z in
    let scripts := take (Z.to_nat (Conns cfg)) (client (host_client cfg) (worker_request cfg)) in
    match run_workers (s_Status (cfg_Scenario cfg)) measureFrom end_ scripts with
    | Panic p => Panic p
    | Ret None => Ret None
    | Ret (Some ws) =>
      let '(all, n, m, e) := gather ws in
      let rps := if (0 <? Duration cfg)%Z then SFdiv 53 1024 (float64 n) (Seconds (Duration cfg))
                 else S754_zero false in
      let res := mkLoadResult n m e rps (Quantile q50 all) (Quantile q99 all) in
      Ret (Some (res, if (0 <? m)%Z || (0 <? e)%Z
                      then Some (Differed (s_Name (cfg_Scenario cfg)) m e) else None))
    end.

(** ** What a run did *)

(** The rounds in which a worker sent its request: those before the end, up to the
    first failure. *)
Fixpoint sent (end_ : Z) (rounds : list (round E)) : list (round E) :=
  match rounds with
  | [] => []
  | r :: rounds' =>
    if (t0 r <? end_)%Z
    then r :: match response r with Err _ => [] | Ok _ => sent end_ rounds' end
    else []
  end.

Definition failed (r : round E) : bool := match response r with Err _ => true | Ok _ => false end.
Definition wrong (status : Z) (r : round E) : bool :=
  match response r with Ok code => negb (code =? status)%Z | Err _ => false end.
Definition measured (measureFrom : Z) (r : round E) : bool :=
  negb (failed r) && (measureFrom <=? t0 r)%Z.

Definition count (P : round E → bool) (rs : list (round E)) : Z := Z.of_nat (length (filter (λ r, P r = true) rs)).

(** The latencies recorded. *)
Definition latencies (measureFrom : Z) (rs : list (round E)) : list Z :=
  map (λ r, Z.max 0 (Sub (t1 r) (t0 r))) (filter (λ r, measured measureFrom r = true) rs).

(** A worker returns at a failure or at the first clock reading past the end. *)
Definition returns (end_ : Z) (rounds : list (round E)) : bool :=
  existsb (λ r, negb (t0 r <? end_)%Z || failed r) rounds.

(** [WaitReady]: per attempt, what [Dial] returned (for a connection, what its
    [Close] did) and the clock after it; [None] while it still waits. *)
Inductive ready_error : Type := CloseFailed (e : E) | NotReady (addr : bytes) (timeout : Z) (e : E).

Fixpoint dial_loop (addr : bytes) (timeout deadline : Z) (attempts : list (result E (option E) * Z))
    : option (option ready_error) :=
  match attempts with
  | [] => None
  | (dialed, now) :: attempts' =>
    match dialed with
    | Ok closed => Some (CloseFailed <$> closed)
    | Err e => if (deadline <? now)%Z then Some (Some (NotReady addr timeout e))
               else dial_loop addr timeout deadline attempts'
    end
  end.

Definition WaitReady (addr : bytes) (timeout now : Z) (attempts : list (result E (option E) * Z))
    : option (option ready_error) :=
  dial_loop addr timeout (now + timeout) attempts.

(** ** Accounts

    A worker's counters and histogram account for the rounds it sent. *)
Context (status measureFrom end_ : Z).

Record accounts (rs : list (round E)) (w : worker) : Prop := {
  ac_hist : represents (latencies measureFrom rs) (hist w);
  ac_requests : requests w = count (measured measureFrom) rs;
  ac_mismatches : mismatches w = count (wrong status) rs;
  ac_errors : errors w = count failed rs;
}.

Lemma count_app P rs rs' : count P (rs ++ rs') = (count P rs + count P rs')%Z.
Proof. unfold count. rewrite filter_app, length_app. lia. Qed.

Lemma count_one P r : count P [r] = (if P r then 1 else 0)%Z.
Proof. unfold count. rewrite filter_cons, filter_nil. by destruct (P r). Qed.

Lemma count_bounds P rs : (0 <= count P rs <= Z.of_nat (length rs))%Z.
Proof. unfold count. pose proof (length_filter (λ r, P r = true) rs). lia. Qed.

Lemma count_0 P rs : count P rs = 0%Z ↔ ∀ r, r ∈ rs → P r = false.
Proof.
  induction rs as [|r rs IH]; [split; [set_solver|done]|].
  change (r :: rs) with ([r] ++ rs). rewrite count_app, count_one.
  pose proof (count_bounds P rs). destruct (P r) eqn:HP.
  - split; [lia|]. intros Hall. specialize (Hall r ltac:(set_solver)). congruence.
  - rewrite Z.add_0_l, IH. set_solver.
Qed.

Lemma latencies_app rs rs' : latencies measureFrom (rs ++ rs') = latencies measureFrom rs ++ latencies measureFrom rs'.
Proof. unfold latencies. by rewrite filter_app, map_app. Qed.

Lemma latencies_one r :
  latencies measureFrom [r] = if measured measureFrom r then [Z.max 0 (Sub (t1 r) (t0 r))] else [].
Proof. unfold latencies. rewrite filter_cons, filter_nil. by destruct (measured _ r). Qed.

Lemma length_latencies rs : Z.of_nat (length (latencies measureFrom rs)) = count (measured measureFrom) rs.
Proof. unfold latencies, count. by rewrite length_map. Qed.

Lemma accounts_new : accounts [] new_worker.
Proof. split; [apply empty_represents|done..]. Qed.

Lemma u64_small z : (0 <= z < two64)%Z → u64 z = z.
Proof. apply Z.mod_small. Qed.

(** One round: a failure is the worker's last. *)
Lemma worker_step rs w r rounds : accounts rs w → (Z.of_nat (length rs) + 1 < two64)%Z → (t0 r < end_)%Z →
  ∃ w', accounts (rs ++ [r]) w' ∧
    worker_loop status measureFrom end_ (r :: rounds) w =
      if failed r then Ret (true, w') else worker_loop status measureFrom end_ rounds w'.
Proof.
  intros [Hh Hn Hm He] Hroom Hend. cbn [worker_loop]. destruct (Z.ltb_spec (t0 r) end_); [|lia].
  cbn [negb]. pose proof (count_bounds (measured measureFrom) rs). pose proof (count_bounds (wrong status) rs).
  pose proof (count_bounds failed rs). pose proof (count_app (measured measureFrom) rs [r]) as An.
  pose proof (count_app (wrong status) rs [r]) as Am. pose proof (count_app failed rs [r]) as Ae.
  pose proof (latencies_app rs [r]) as Al. rewrite count_one in An, Am, Ae. rewrite latencies_one in Al.
  assert (failed r = match response r with Err _ => true | Ok _ => false end) as Hf by done.
  assert (wrong status r = match response r with Ok code => negb (code =? status)%Z | Err _ => false end) as Hwr by done.
  assert (measured measureFrom r = negb (failed r) && (measureFrom <=? t0 r)%Z) as Hme by done.
  rewrite Hf in *. rewrite Hwr in Am. rewrite Hme in An, Al. destruct (response r) as [code|e].
  2: { eexists. split; [|done]. cbn [negb andb] in An, Al.
       split; cbn [hist requests mismatches errors]; rewrite ?u64_small by lia; [|lia..].
       rewrite Al, app_nil_r. exact Hh. }
  cbn [negb andb] in An, Al.
  set (w1 := if (code =? status)%Z then w else _).
  assert (hist w1 = hist w ∧ requests w1 = requests w ∧ errors w1 = errors w ∧
          mismatches w1 = count (wrong status) (rs ++ [r])) as (E1 & E2 & E3 & E4).
  { unfold w1. destruct (code =? status)%Z; cbn [negb] in Am; cbn [hist requests mismatches errors];
      rewrite ?u64_small by lia; split_and!; first [reflexivity|lia]. }
  destruct (Z.ltb_spec (t0 r) measureFrom) as [Hw|Hw].
  - replace (measureFrom <=? t0 r)%Z with false in An, Al by (symmetry; apply Z.leb_gt; lia).
    exists w1. split; [|done]. split; [|lia..]. rewrite Al, app_nil_r, E1. exact Hh.
  - replace (measureFrom <=? t0 r)%Z with true in An, Al by (symmetry; apply Z.leb_le; lia).
    rewrite E1. destruct (Record_represents _ _ (Sub (t1 r) (t0 r)) Hh) as (h' & -> & Hh').
    { unfold Sub, min_int64, max_int64 in *. lia. }
    { rewrite length_latencies. lia. }
    eexists. split; [|done]. split; cbn [hist requests mismatches errors]; [by rewrite Al|..]; [|lia..].
    rewrite E2, u64_small; lia.
Qed.

Lemma worker_accounts rounds : ∀ rs w, accounts rs w →
  (Z.of_nat (length rs) + Z.of_nat (length rounds) < two64)%Z →
  ∃ w', worker_loop status measureFrom end_ rounds w = Ret (returns end_ rounds, w') ∧
    accounts (rs ++ sent end_ rounds) w'.
Proof.
  induction rounds as [|r rounds IH]; intros rs w Hw Hroom.
  { exists w. by rewrite app_nil_r. }
  cbn [length] in Hroom. cbn [sent returns existsb]. destruct (Z.ltb_spec (t0 r) end_) as [Hend|Hend].
  2: { exists w. rewrite app_nil_r. split; [|done]. cbn [worker_loop]. by destruct (Z.ltb_spec (t0 r) end_); [lia|]. }
  destruct (worker_step rs w r rounds Hw ltac:(lia) Hend) as (w1 & Hw1 & ->). unfold failed at 1 2.
  destruct (response r); [|by exists w1]. destruct (IH _ w1 Hw1) as (w' & -> & Hw').
  { rewrite length_app. cbn. lia. }
  exists w'. split; [done|]. by rewrite <-app_assoc in Hw'.
Qed.

Lemma run_workers_accounts scripts : (Z.of_nat (length (concat scripts)) < two64)%Z →
  ∃ ws, run_workers status measureFrom end_ scripts =
      Ret (if forallb (returns end_) scripts then Some ws else None) ∧
    Forall2 accounts (map (sent end_) scripts) ws.
Proof.
  induction scripts as [|rounds scripts IH]; intros Hroom; [by exists []|].
  cbn [concat] in Hroom. rewrite length_app in Hroom. destruct IH as (ws & Hrun & Hws); [lia|].
  destruct (worker_accounts rounds [] new_worker accounts_new) as (w & Hw & Hacc); [cbn; lia|].
  exists (w :: ws). split; [|by constructor]. cbn [run_workers]. rewrite Hw, Hrun. cbn [forallb].
  destruct (returns end_ rounds); [|done]. by destruct (forallb _ scripts).
Qed.

(** The sum over the workers accounts for all their rounds together. *)
Lemma gather_accounts rss ws : Forall2 accounts rss ws → ∀ rs w, accounts rs w →
  (Z.of_nat (length rs) + Z.of_nat (length (concat rss)) < two64)%Z →
  ∃ w', foldl (λ acc w, let '(h, n, m, e) := acc in
           (Merge h (hist w), u64 (n + requests w), u64 (m + mismatches w), u64 (e + errors w)))
         (hist w, requests w, mismatches w, errors w) ws =
       (hist w', requests w', mismatches w', errors w') ∧
     accounts (rs ++ concat rss) w'.
Proof.
  induction 1 as [|rs' w' rss ws Hw' _ IH]; intros rs w Hw Hroom; [exists w; by rewrite app_nil_r|].
  cbn [concat foldl] in Hroom |- *. rewrite length_app in Hroom. rewrite app_assoc.
  pose proof Hw as [Hh Hn Hm He]. pose proof Hw' as [Hh' Hn' Hm' He'].
  apply (IH (rs ++ rs') (mkWorker _ _ _ _)); [|rewrite length_app; lia].
  split; cbn [hist requests mismatches errors].
  - rewrite latencies_app. apply Merge_represents; [done..|]. rewrite !length_latencies.
    pose proof (count_bounds (measured measureFrom) rs). pose proof (count_bounds (measured measureFrom) rs'). lia.
  - rewrite count_app, <-Hn, <-Hn'. pose proof (count_bounds (measured measureFrom) rs).
    pose proof (count_bounds (measured measureFrom) rs'). apply u64_small. lia.
  - rewrite count_app, <-Hm, <-Hm'. pose proof (count_bounds (wrong status) rs).
    pose proof (count_bounds (wrong status) rs'). apply u64_small. lia.
  - rewrite count_app, <-He, <-He'. pose proof (count_bounds failed rs).
    pose proof (count_bounds failed rs'). apply u64_small. lia.
Qed.

Lemma length_sent rounds : length (sent end_ rounds) ≤ length rounds.
Proof.
  induction rounds as [|r rounds IH]; [done|]. cbn. destruct (t0 r <? end_)%Z; [|cbn; lia].
  destruct (response r); cbn; lia.
Qed.

Lemma length_concat_sent scripts : length (concat (map (sent end_) scripts)) ≤ length (concat scripts).
Proof.
  induction scripts as [|rounds scripts IH]; [done|]. cbn. rewrite !length_app.
  pose proof (length_sent rounds). lia.
Qed.

(** A clock that advances with every round reaches the end. *)
Lemma clock_returns rounds : ∀ now, StronglySorted Z.lt (map t0 rounds) →
  Forall (λ r, now <= t0 r)%Z rounds → (Z.max 0 (end_ - now) < Z.of_nat (length rounds))%Z →
  returns end_ rounds = true.
Proof.
  induction rounds as [|r rounds IH]; intros now Hs Hge Hlen; cbn in Hlen; [lia|].
  apply Forall_cons in Hge as [Hr Hge]. apply StronglySorted_cons in Hs as [Hlt Hs].
  cbn [returns existsb]. destruct (Z.ltb_spec (t0 r) end_); [|done]. cbn [negb orb].
  destruct (failed r); [done|]. apply (IH (now + 1)%Z Hs); [|lia].
  apply (Forall_fmap t0 (Z.lt (t0 r)) rounds) in Hlt. eapply Forall_impl; [exact Hlt|]. cbn. lia.
Qed.
End load.

(** ** Properties *)

(** The rounds of a run, all workers' together. *)
Definition sent_by_all {E} (end_ : Z) (scripts : list (list (round E))) : list (round E) :=
  concat (map (sent end_) scripts).

(** A worker's clock: it starts at [now], advances with every round, and is read often
    enough to see the end. *)
Definition clock_runs {E} (now end_ : Z) (rounds : list (round E)) : Prop :=
  StronglySorted Z.lt (map t0 rounds) ∧ Forall (λ r, now <= t0 r)%Z rounds ∧
  (Z.max 0 (end_ - now) < Z.of_nat (length rounds))%Z.

(** What a result says of the rounds sent. *)
Record load_result_of {E} (status measureFrom : Z) (all : list (round E)) (res : LoadResult) : Prop := {
  lr_requests : Requests res = count (measured measureFrom) all;
  lr_mismatches : Mismatches res = count (wrong status) all;
  lr_errors : Errors res = count failed all;
  lr_p50 : reported 1 2 (latencies measureFrom all) (P50 res);
  lr_p99 : reported 99 100 (latencies measureFrom all) (P99 res);
}.

(** The literals 0.50 and 0.99. *)
Lemma q50_below : just_below q50 1 2.
Proof. by exists 4503599627370496%Z. Qed.

Lemma q99_below : just_below q99 99 100.
Proof. by exists 8917127262193582%Z. Qed.

(** No failure and no mismatch is every answer as the scenario wants it. *)
Lemma nothing_differed {E} status (all : list (round E)) :
  (0 <? count (wrong status) all)%Z || (0 <? count failed all)%Z = false ↔
  ∀ r, r ∈ all → response r = Ok status.
Proof.
  pose proof (count_bounds (wrong status) all). pose proof (count_bounds failed all).
  rewrite orb_false_iff, !Z.ltb_ge. split.
  - intros [Hw Hf] r Hr. pose proof (proj1 (count_0 (wrong status) all) ltac:(lia) r Hr) as Hwr.
    pose proof (proj1 (count_0 failed all) ltac:(lia) r Hr) as Hfr. unfold wrong in Hwr. unfold failed in Hfr.
    destruct (response r); [|done]. apply negb_false_iff, Z.eqb_eq in Hwr. by subst.
  - intros Hall. split; apply Z.eq_le_incl, count_0; intros r Hr; specialize (Hall r Hr);
      [unfold wrong|unfold failed]; rewrite Hall; [by rewrite Z.eqb_refl|done].
Qed.

(** C36. A load run reports what its workers did, all of it and nothing else. When
    every worker returns, the result counts the requests answered in the measured
    window, and the wrong statuses and the failures of the whole run; its percentiles
    are those of the measured latencies of all workers together, the latencies of rank
    ⌈n/2⌉ and ⌈99n/100⌉ for fewer than 2^46 requests, exactly below 16ns and within a
    sixteenth above; and there is no error exactly when every request sent was
    answered with the scenario's status. Under a clock that advances every worker
    returns, and no run panics. *)
Theorem load_reports {E} (client : HostClient → Request → list (list (round E))) cfg now
    (Hconns : (1 <= Conns cfg)%Z)
    (Hworkers : Z.of_nat (length (client (host_client cfg) (worker_request cfg))) = Conns cfg)
    (Hroom : (Z.of_nat (length (concat (client (host_client cfg) (worker_request cfg)))) < 2 ^ 46)%Z) :
  let scripts := client (host_client cfg) (worker_request cfg) in
  let status := s_Status (cfg_Scenario cfg) in
  let measureFrom := (now + Warmup cfg)%Z in
  let end_ := (measureFrom + Duration cfg)%Z in
  let all := sent_by_all end_ scripts in
  (Forall (clock_runs now end_) scripts → forallb (returns end_) scripts = true) ∧
  (forallb (returns end_) scripts = false → Load client cfg now = Ret None) ∧
  (forallb (returns end_) scripts = true →
   ∃ res err, Load client cfg now = Ret (Some (res, err)) ∧
     load_result_of status measureFrom all res ∧
     (err = None ↔ ∀ r, r ∈ all → response r = Ok status)).
Proof.
  intros scripts status measureFrom end_ all. split.
  { intros Hclock. apply forallb_forall. intros rounds Hin. rewrite Forall_forall in Hclock.
    destruct (Hclock rounds) as (Hs & Hge & Hlen); [by apply list_elem_of_In|]. by apply (clock_returns _ _ now). }
  destruct (run_workers_accounts status measureFrom end_ scripts) as (ws & Hrun & Hws);
    [unfold scripts, two64 in *; lia|].
  assert (take (Z.to_nat (Conns cfg)) scripts = scripts) as Htake by (apply take_ge; unfold scripts; lia).
  unfold Load. destruct (Z.ltb_spec (Conns cfg) 1); [lia|]. cbv zeta.
  fold scripts status measureFrom end_. rewrite Htake, Hrun.
  split; [by intros ->|]. intros ->.
  destruct (gather_accounts status measureFrom _ _ Hws [] new_worker) as (w & Hg & Hacc).
  { apply accounts_new. }
  { pose proof (length_concat_sent end_ scripts). fold scripts in Hroom. cbn. unfold two64. lia. }
  unfold gather. change (Histogram.empty, 0%Z, 0%Z, 0%Z)
    with (hist new_worker, requests new_worker, mismatches new_worker, errors new_worker).
  rewrite Hg. destruct Hacc as [Hh Hn Hm He]. cbn [app] in Hh, Hn, Hm, He. fold (sent_by_all end_ scripts) all in Hh, Hn, Hm, He.
  assert (Z.of_nat (length (latencies measureFrom all)) < 2 ^ 46)%Z as Hlat.
  { rewrite length_latencies. pose proof (count_bounds (measured measureFrom) all).
    pose proof (length_concat_sent end_ scripts). fold scripts in Hroom. unfold all, sent_by_all in *. lia. }
  do 2 eexists. split; [reflexivity|]. split; [split; cbn; try done; apply Quantile_reported; try done|].
  { apply q50_below. }
  { apply q99_below. }
  rewrite Hm, He, <-nothing_differed. by destruct (_ || _).
Qed.

(** A witness: two workers, a warm-up round, a wrong status and a failure. *)
Definition sample_config : LoadConfig :=
  mkLoadConfig (bs "127.0.0.1:18080") (mkScenario (bs "static") Small (bs "GET") (bs "/hello") None 200 (bs "hello") false)
    2%Z 10%Z 100%Z 0%Z.

Definition sample_client (hc : HostClient) (rq : Request) : list (list (round unit)) :=
  [[mkRound 1 (Ok 200%Z) 5; mkRound 12 (Ok 200%Z) 17; mkRound 20 (Ok 404%Z) 90; mkRound 111 (Ok 200%Z) 112];
   [mkRound 2 (Ok 200%Z) 13; mkRound 14 (Err tt) 15]].

Lemma load_reports_witness :
  ∃ res err, Load sample_client sample_config 0 = Ret (Some (res, err)) ∧
    Requests res = 2%Z ∧ Mismatches res = 1%Z ∧ Errors res = 1%Z ∧ P50 res = Some 5%Z ∧ P99 res = Some 68%Z ∧ err ≠ None.
Proof.
  destruct (load_reports sample_client sample_config 0) as (_ & _ & Hrun); [vm_compute; congruence|reflexivity..|].
  destruct (Hrun eq_refl) as (res & err & HL & [H1 H2 H3 _ _] & Herr). exists res, err.
  split; [exact HL|]. split; [exact H1|]. split; [exact H2|]. split; [exact H3|].
  assert (Load sample_client sample_config 0 = Load sample_client sample_config 0) as HL' by reflexivity.
  rewrite HL in HL' at 1. vm_compute in HL'. injection HL' as -> ->. split; [reflexivity|]. split; [reflexivity|].
  intros Hn. pose proof (proj1 Herr Hn (mkRound 14 (Err tt) 15)) as Hbad. discriminate Hbad. set_solver.
Defined.
