(* ===== verification/Summarize.v ===== *)
(** * The summary of a benchmark

    [src/bench/compare/summarize.go] and the commands [cmd/loadgen] and
    [cmd/summarize] around it: the result line a run prints, and the Markdown tables
    made of such lines. [strconv.ParseFloat] is an argument with the law the code
    relies on; the scanner, [strings.Fields], Atoi, %.0f and the arithmetic are
    modelled. *)

From Stdlib Require Import SpecFloat.
From stdpp Require Import gmap sorting.
From S2P Require Import Prelude Bytes Decimal Histogram Compare LoadGen.

(** ** Text *)

Definition newline : ascii := "010".

(** The spaces of [unicode.IsSpace], in UTF-8. No other character holds one of them. *)
Definition spaces : list bytes :=
  map (λ z, [byte_of z]) [9; 10; 11; 12; 13; 32]%Z ++
  map (map byte_of) ([[194; 133]; [194; 160]; [225; 154; 128]; [226; 128; 168]; [226; 128; 169]; [226; 128; 175];
                      [226; 129; 159]; [227; 128; 128]] ++ map (λ z, [226; 128; z]) (seqZ 128 11))%Z.

Definition space_len (s : bytes) : nat :=
  match List.find (λ p, has_prefix p s) spaces with Some p => length p | None => 0 end.

Definition word (w : bytes) : list bytes := match w with [] => [] | _ => [w] end.

(** [strings.Fields]: [skip] bytes of a space are still to pass, [w] is the field so
    far. *)
Fixpoint Fields_loop (skip : nat) (w s : bytes) : list bytes :=
  match s with
  | [] => word w
  | c :: s' =>
    match skip with
    | S skip' => Fields_loop skip' w s'
    | 0 =>
      match space_len s with
      | 0 => Fields_loop 0 (w ++ [c]) s'
      | S k => word w ++ Fields_loop k [] s'
      end
    end
  end.
Definition Fields (s : bytes) : list bytes := Fields_loop 0 [] s.

Definition dropCR (l : bytes) : bytes :=
  match last l with Some "013"%char => removelast l | _ => l end.

Definition MaxScanTokenSize : Z := 64 * 1024.

(** [bufio.Scanner] by lines, and whether it stopped at one too long for its buffer:
    [n] bytes of a line are in [l]. *)
Fixpoint scan_loop (l : bytes) (n : Z) (s : bytes) : list bytes * bool :=
  match s with
  | [] => (match l with [] => [] | _ => [dropCR l] end, false)
  | c :: s' =>
    if bool_decide (c = newline) then
      let '(ls, long) := scan_loop [] 0 s' in (dropCR l :: ls, long)
    else if (n + 1 =? MaxScanTokenSize)%Z then ([], true)
    else scan_loop (l ++ [c]) (n + 1) s'
  end.

(** ** Numbers *)

(** %.0f: the nearest integer, halves to even. *)
Definition half_even (m : positive) (e : Z) : Z :=
  if (0 <=? e)%Z then (Zpos m * 2 ^ e)%Z
  else
    let p := (2 ^ (- e))%Z in
    let q := (Zpos m / p)%Z in
    let r := (Zpos m mod p)%Z in
    if (2 * r <? p)%Z then q else if (p <? 2 * r)%Z then (q + 1)%Z
    else if Z.even q then q else (q + 1)%Z.

Definition format0 (x : spec_float) : bytes :=
  match x with
  | S754_nan => bs "NaN"
  | S754_infinity s => bs (if s then "-Inf" else "+Inf")
  | S754_zero s => bs (if s then "-0" else "0")
  | S754_finite s m e => (if s then bs "-" else []) ++ digits_loop 310 (half_even m e) []
  end.

(** The order of [sort.Float64s]: NaN first. *)
Definition is_nan (x : spec_float) : bool := match x with S754_nan => true | _ => false end.
Definition float_less (a b : spec_float) : bool := SFltb a b || (is_nan a && negb (is_nan b)).
Definition float_le (a b : spec_float) : Prop := float_less b a = false.

#[export] Instance float_le_dec : RelDecision float_le.
Proof. intros a b. unfold float_le. apply _. Defined.

(** [sort.Float64s]: the two zeros, which compare equal, keep their order here. *)
Definition Float64s (xs : list spec_float) : list spec_float := merge_sort float_le xs.

(** ** [summarize.go] *)

Record sample : Type := mkSample { rps : spec_float; p50 : spec_float; p99 : spec_float }.

Definition pick (xs : list sample) (field : sample → spec_float) : list spec_float := Float64s (map field xs).

(** [None]: the index is out of range. *)
Definition median (sorted : list spec_float) : option spec_float :=
  let n := length sorted in
  if decide (n mod 2 = 1) then sorted !! (n / 2)
  else
    if decide (n = 0) then None
    else a ← sorted !! (n / 2 - 1); b ← sorted !! (n / 2);
         Some (SFdiv 53 1024 (SFadd 53 1024 a b) (float64 2)).

(** [targets.go]: the frameworks' names; what they build is not modelled. *)
Definition Targets : list bytes := [bs "rice"; bs "gin"; bs "echo"; bs "fiber"].
Definition TargetByName (name : bytes) : option bytes := List.find (λ t, bool_decide (t = name)) Targets.

Inductive summary_error : Type :=
| FieldCount (line got : Z) (text : bytes)
| BadRound (line : Z) (round : bytes) (e : num_error)
| BadNumber (line field : Z) (text : bytes) (e : num_error)
| UnknownFramework (line : Z) (name : bytes)
| UnknownScenario (line : Z) (name : bytes)
| TooLong
| ReadFailed.

Notation samples := (gmap bytes (gmap bytes (list sample))).

Definition of_samples (m : samples) (scen fw : bytes) : list sample :=
  default [] (default ∅ (m !! scen) !! fw).

Definition add_sample (scen fw : bytes) (x : sample) (m : samples) : samples :=
  <[scen := <[fw := of_samples m scen fw ++ [x]]> (default ∅ (m !! scen))]> m.

Section summarize.
Context (ParseFloat : bytes → result num_error spec_float).

(** The loop over [f[3:]], from the index [i]. *)
Fixpoint parse_numbers (line i : Z) (f : list bytes) : result summary_error (list spec_float) :=
  match f with
  | [] => Ok []
  | s :: f' =>
    match ParseFloat s with
    | Err e => Err (BadNumber line (i + 4) s e)
    | Ok v => match parse_numbers line (i + 1) f' with Ok vs => Ok (v :: vs) | Err e => Err e end
    end
  end.

(** The body of the loop over the lines. *)
Definition summarize_line (line : Z) (text : bytes) (m : samples) : result summary_error samples :=
  match Fields text with
  | [] => Ok m
  | [fw; scen; round; f3; f4; f5] =>
    match Atoi round with
    | Err e => Err (BadRound line round e)
    | Ok _ =>
      match parse_numbers line 0 [f3; f4; f5] with
      | Err e => Err e
      | Ok nums =>
        match TargetByName fw with
        | None => Err (UnknownFramework line fw)
        | Some _ =>
          match ScenarioByName scen with
          | None => Err (UnknownScenario line scen)
          | Some _ =>
            let num i := default (S754_zero false) (nums !! i) in
            Ok (add_sample scen fw (mkSample (num 0) (num 1) (num 2)) m)
          end
        end
      end
    end
  | f => Err (FieldCount line (Z.of_nat (length f)) text)
  end.

Fixpoint summarize_lines (line : Z) (texts : list bytes) (m : samples) : result summary_error samples :=
  match texts with
  | [] => Ok m
  | text :: texts' =>
    match summarize_line line text m with
    | Err e => Err e
    | Ok m' => summarize_lines (line + 1) texts' m'
    end
  end.

(** A framework's row, and a scenario's table. *)
Definition row (name : bytes) (rounds : list sample) : option bytes :=
  let rpss := pick rounds rps in
  m_rps ← median rpss; lo ← rpss !! 0; hi ← last rpss;
  m_p50 ← median (pick rounds p50); m_p99 ← median (pick rounds p99);
  Some (bs "| " ++ name ++ bs " | " ++ format0 m_rps ++ bs " | " ++ format0 lo ++ bs "–" ++ format0 hi ++
        bs " | " ++ format0 m_p50 ++ bs " | " ++ format0 m_p99 ++ bs " |" ++ [newline]).

Definition table_header (name : bytes) : bytes :=
  bs "## " ++ name ++ [newline; newline] ++
  bs "| framework | req/s (median) | req/s (min–max) | p50 µs (median) | p99 µs (median) |" ++ [newline] ++
  bs "| --- | ---: | --- | ---: | ---: |" ++ [newline].

Definition rows (byFw : gmap bytes (list sample)) : option (list bytes) :=
  mapM (λ t, match default [] (byFw !! t) with [] => Some [] | rounds => row t rounds end) Targets.

Definition table (m : samples) (s : Scenario) : option bytes :=
  let byFw := default ∅ (m !! s_Name s) in
  if decide (byFw = ∅) then Some []
  else rs ← rows byFw; Some (table_header (s_Name s) ++ concat rs ++ [newline]).

(** [Summarize] of what [r] reads, which ends with an error or at its end: what is
    written, and the error. [Panic]: an index out of range. *)
Definition Summarize (input : bytes) (failed : bool) : outcome unit (bytes * option summary_error) :=
  let '(texts, long) := scan_loop [] 0 input in
  match summarize_lines 1 texts ∅ with
  | Err e => Ret ([], Some e)
  | Ok m =>
    if long then Ret ([], Some TooLong)
    else if failed then Ret ([], Some ReadFailed)
    else match mapM (table m) Scenarios with
         | None => Panic tt
         | Some ts => Ret (concat ts, None)
         end
  end.

(** [cmd/summarize]: the exit code and the standard output. *)
Definition summarize_main (stdin : bytes) : outcome unit (Z * bytes) :=
  match Summarize stdin false with
  | Panic p => Panic p
  | Ret (out, None) => Ret (0%Z, out)
  | Ret (out, Some _) => Ret (1%Z, out)
  end.
End summarize.

(** ** [cmd/loadgen] *)

(** The flags after [flag.Parse]. *)
Record flags : Type := mkFlags {
  f_addr : bytes;
  f_scenario : bytes;
  f_framework : bytes;
  f_round : Z;
  f_conns : Z;
  f_warmup : Z;
  f_duration : Z;
  f_list : bool;
}.

Definition default_flags : flags :=
  mkFlags (bs "127.0.0.1:18080") (bs "static") [] 1 64 (5 * second) (10 * second) false.

Inductive loadgen_error {E : Type} : Type :=
| NoFramework
| BadDuration (d : Z)
| BadWarmup (d : Z)
| NoScenario (name : bytes)
| NeverReady (e : ready_error (E := E))
| RunFailed (framework scenario : bytes) (e : load_error).
Arguments loadgen_error E : clear implicits.

Definition Microseconds (d : Z) : Z := Z.quot d 1000.

(** The line printed for a run; [None] where a percentile is left open. *)
Definition result_line (framework scenario : bytes) (round : Z) (res : LoadResult) : option bytes :=
  p50 ← P50 res; p99 ← P99 res;
  Some (framework ++ bs " " ++ scenario ++ bs " " ++ Itoa round ++ bs " " ++ format0 (RPS res) ++ bs " " ++
        Itoa (Microseconds p50) ++ bs " " ++ Itoa (Microseconds p99) ++ [newline]).

(** [main]: the exit code, the standard output, and why it failed; [None] while it has
    not returned. [attempts] are WaitReady's dials, from a clock at [now]; the run
    starts at [now']. *)
Definition loadgen_main {E} (fl : flags) (now : Z) (attempts : list (result E (option E) * Z))
    (now' : Z) (client : HostClient → Request → list (list (round E)))
    : outcome unit (option (Z * option bytes * option (loadgen_error E))) :=
  if f_list fl then Ret (Some (0%Z, Some (concat (map (λ s, s_Name s ++ [newline]) Scenarios)), None))
  else if bool_decide (f_framework fl = []) then Ret (Some (2%Z, Some [], Some NoFramework))
  else if (f_duration fl <=? 0)%Z then Ret (Some (2%Z, Some [], Some (BadDuration (f_duration fl))))
  else if (f_warmup fl <? 0)%Z then Ret (Some (2%Z, Some [], Some (BadWarmup (f_warmup fl))))
  else match ScenarioByName (f_scenario fl) with
  | None => Ret (Some (2%Z, Some [], Some (NoScenario (f_scenario fl))))
  | Some s =>
    match WaitReady (f_addr fl) (10 * second) now attempts with
    | None => Ret None
    | Some (Some e) => Ret (Some (1%Z, Some [], Some (NeverReady e)))
    | Some None =>
      match Load client (mkLoadConfig (f_addr fl) s (f_conns fl) (f_warmup fl) (f_duration fl) 0) now' with
      | Panic p => Panic p
      | Ret None => Ret None
      | Ret (Some (_, Some e)) => Ret (Some (1%Z, Some [], Some (RunFailed (f_framework fl) (f_scenario fl) e)))
      | Ret (Some (res, None)) =>
        Ret (Some (0%Z, result_line (f_framework fl) (s_Name s) (f_round fl) res, None))
      end
    end
  end.

(** ** Lemmas: text *)

(** Printable and not a space. *)
Definition plain (c : ascii) : bool := between "!" "~" c.
Definition field (w : bytes) : Prop := w ≠ [] ∧ Forall (λ c, plain c = true) w.

Lemma spaces_not_plain : Forall (λ p, ∃ c p', p = c :: p' ∧ plain c = false) spaces.
Proof. repeat constructor; do 2 eexists; split; reflexivity. Qed.

Lemma space_len_plain c s : plain c = true → space_len (c :: s) = 0.
Proof.
  intros Hc. unfold space_len. destruct (List.find _ spaces) as [p|] eqn:Ef; [|done].
  apply List.find_some in Ef as [Hin Hp]. apply list_elem_of_In in Hin.
  pose proof spaces_not_plain as Hs. rewrite Forall_forall in Hs. destruct (Hs p Hin) as (d & p' & -> & Hd).
  apply bool_decide_eq_true in Hp. cbn in Hp. injection Hp as -> _. congruence.
Qed.

Lemma Fields_word w : ∀ v s, Forall (λ c, plain c = true) w → Fields_loop 0 v (w ++ s) = Fields_loop 0 (v ++ w) s.
Proof.
  induction w as [|c w IH]; intros v s Hw; [by rewrite app_nil_r|]. apply Forall_cons in Hw as [Hc Hw].
  cbn [app Fields_loop]. rewrite space_len_plain, IH by done. by rewrite <-app_assoc.
Qed.

(** Fields written with a space between them are the fields read. *)
Lemma Fields_join ws : Forall field ws → Fields (join_on " " ws) = ws.
Proof.
  unfold Fields. induction ws as [|w ws IH]; intros Hws; [done|].
  apply Forall_cons in Hws as [[Hne Hw] Hws].
  destruct ws as [|w' ws].
  - cbn [join_on]. rewrite <-(app_nil_r w) at 1. rewrite Fields_word by done. cbn. by destruct w.
  - change (join_on " " (w :: w' :: ws)) with (w ++ " "%char :: join_on " " (w' :: ws)).
    rewrite Fields_word by done. cbn [app Fields_loop].
    change (space_len (" "%char :: join_on " " (w' :: ws))) with 1. cbn beta iota.
    rewrite IH by done. by destruct w.
Qed.

(** A line the scanner passes: it fits the buffer and does not end in a CR. *)
Definition scannable (l : bytes) : Prop :=
  (newline ∉ l) ∧ dropCR l = l ∧ (Z.of_nat (length l) < MaxScanTokenSize)%Z.

Lemma scan_line l : ∀ v s, newline ∉ l → (Z.of_nat (length v) + Z.of_nat (length l) < MaxScanTokenSize)%Z →
  scan_loop v (Z.of_nat (length v)) (l ++ newline :: s) =
    let '(ls, long) := scan_loop [] 0 s in (dropCR (v ++ l) :: ls, long).
Proof.
  induction l as [|c l IH]; intros v s Hn Hlen; [by rewrite app_nil_r|].
  cbn [length] in Hlen. apply not_elem_of_cons in Hn as [Hc Hn]. cbn [app scan_loop].
  rewrite bool_decide_eq_false_2 by congruence.
  destruct (Z.eqb_spec (Z.of_nat (length v) + 1) MaxScanTokenSize); [lia|].
  replace (Z.of_nat (length v) + 1)%Z with (Z.of_nat (length (v ++ [c]))) by (rewrite length_app; cbn; lia).
  rewrite IH, <-app_assoc by (try done; rewrite length_app; cbn; lia). done.
Qed.

Lemma scan_lines ls : Forall scannable ls → scan_loop [] 0 (concat (map (λ l, l ++ [newline]) ls)) = (ls, false).
Proof.
  induction 1 as [|l ls (Hn & Hd & Hlen) _ IH]; [done|]. cbn [map concat]. rewrite <-app_assoc. cbn [app].
  pose proof (scan_line l [] (concat (map (λ l, l ++ [newline]) ls)) Hn) as Hs. change (Z.of_nat (length [])) with 0%Z in Hs.
  rewrite Hs, IH by lia. cbn. by rewrite Hd.
Qed.

Lemma join_elem sep ws c : c ∈ join_on sep ws → c = sep ∨ ∃ w, w ∈ ws ∧ c ∈ w.
Proof.
  induction ws as [|w ws IH]; [set_solver|]. destruct ws as [|w' ws]; cbn [join_on]; [set_solver|].
  rewrite elem_of_app, elem_of_cons. cbn [join_on] in IH. set_solver.
Qed.

Lemma fields_scannable ws : Forall field ws →
  (Z.of_nat (length (join_on " " ws)) < MaxScanTokenSize)%Z → scannable (join_on " " ws).
Proof.
  intros Hws Hlen. assert (∀ c, c ∈ join_on " " ws → c = " "%char ∨ plain c = true) as Hp.
  { intros c [->|(w & Hw & Hc)]%join_elem; [by left|right]. rewrite Forall_forall in Hws.
    destruct (Hws w Hw) as [_ Hf]. rewrite Forall_forall in Hf. by apply Hf. }
  split_and!; [intros Hn; by destruct (Hp newline Hn)| |done].
  unfold dropCR. destruct (last (join_on " " ws)) as [c|] eqn:El; [|done].
  assert (c ≠ "013"%char) as Hc.
  { intros ->. apply last_Some_elem_of in El. by destruct (Hp _ El). }
  by destruct c as [[] [] [] [] [] [] [] []].
Qed.

Lemma digits_field s : s ≠ [] → forallb is_digit s = true → field s.
Proof.
  intros Hne Hs. split; [done|]. apply Forall_forall. intros c Hc. rewrite forallb_forall in Hs.
  apply list_elem_of_In in Hc. specialize (Hs c Hc). apply is_digit_value in Hs.
  apply between_spec. change (code "0") with 48%Z in Hs. change (code "!") with 33%Z. change (code "~") with 126%Z. lia.
Qed.

Lemma Itoa_field z : int64_range z → field (Itoa z).
Proof.
  intros [Hlo Hhi]. unfold min_int64, max_int64 in *. unfold Itoa. destruct (Z.ltb_spec z 0).
  - destruct (digits_loop_spec 19 (- z) []) as (d & -> & Hne & Hd & Hv); [lia|]. rewrite app_nil_r.
    split; [done|]. constructor; [done|]. by apply digits_field.
  - destruct (digits_loop_spec 19 z []) as (d & -> & Hne & Hd & Hv); [lia|]. rewrite app_nil_r. by apply digits_field.
Qed.

(** ** Lemmas: the order of floats

    [float_le] is the lexicographic order of a sign class, an exponent and a mantissa,
    which identifies nothing but the two zeros. *)

Definition float_key (x : spec_float) : Z * Z * Z :=
  match x with
  | S754_nan => (-4, 0, 0)
  | S754_infinity true => (-3, 0, 0)
  | S754_finite true m e => (-2, - e, Zneg m)
  | S754_zero _ => (-1, 0, 0)
  | S754_finite false m e => (0, e, Zpos m)
  | S754_infinity false => (1, 0, 0)
  end%Z.

Definition lex_lt (a b : Z * Z * Z) : Prop :=
  (a.1.1 < b.1.1 ∨ a.1.1 = b.1.1 ∧ (a.1.2 < b.1.2 ∨ a.1.2 = b.1.2 ∧ a.2 < b.2))%Z.

Lemma float_less_key a b : float_less a b = true ↔ lex_lt (float_key a) (float_key b).
Proof.
  unfold lex_lt, float_less, SFltb.
  destruct a as [[]|[]| |[] m e], b as [[]|[]| |[] m' e']; cbn -[Z.lt Z.compare Z.opp].
  all: match goal with
       | |- context [(?x ?= ?y)%Z] => destruct (Z.compare_spec x y); subst
       | _ => idtac
       end.
  all: match goal with
       | |- context [Pos.compare_cont Eq ?x ?y] => change (Pos.compare_cont Eq x y) with (Pos.compare x y); destruct (Pos.compare_spec x y)
       | _ => idtac
       end; cbn -[Z.lt Z.opp]; split; intros; first [done|lia].
Qed.

Lemma float_le_key a b : float_le a b ↔ ¬ lex_lt (float_key b) (float_key a).
Proof. unfold float_le. rewrite <-float_less_key. by destruct (float_less b a). Qed.

#[export] Instance float_le_total : Total float_le.
Proof. intros a b. rewrite !float_le_key. unfold lex_lt. lia. Qed.

#[export] Instance float_le_trans : Transitive float_le.
Proof. intros a b c. rewrite !float_le_key. unfold lex_lt. lia. Qed.

(** What a decimal integer reads as: no NaN, no negative zero. *)
Definition proper_float (x : spec_float) : Prop := x ≠ S754_zero true.

Lemma float_le_antisym a b : proper_float a → proper_float b → float_le a b → float_le b a → a = b.
Proof.
  unfold proper_float. rewrite !float_le_key. intros Ha Hb H1 H2.
  assert (float_key a = float_key b) as Hk.
  { destruct (float_key a) as [[x y] z], (float_key b) as [[x' y'] z']. unfold lex_lt in *. cbn in *. repeat f_equal; lia. }
  destruct a as [[]|[]| |[] m e], b as [[]|[]| |[] m' e']; cbn in Hk; try done; injection Hk; intros; f_equal; lia.
Qed.

Lemma Float64s_sorted xs : StronglySorted float_le (Float64s xs) ∧ Float64s xs ≡ₚ xs.
Proof. split; [apply (StronglySorted_merge_sort float_le)|apply merge_sort_Permutation]. Qed.

(** Sorting forgets the order it was given. *)
Lemma Float64s_Permutation xs ys : Forall proper_float xs → xs ≡ₚ ys → Float64s xs = Float64s ys.
Proof.
  intros Hx Hp. destruct (Float64s_sorted xs) as [S1 P1], (Float64s_sorted ys) as [S2 P2].
  apply (StronglySorted_unique_strong float_le); [|done|done|by rewrite P1, P2].
  intros a b Ha Hb. rewrite Forall_forall in Hx. rewrite P1 in Ha. rewrite P2, <-Hp in Hb.
  apply float_le_antisym; auto.
Qed.

Lemma binary_round_aux_proper m e l : proper_float (binary_round_aux 53 1024 false m e l).
Proof.
  unfold binary_round_aux. destruct (shr_fexp _ _ m e l) as [r e']. destruct (shr_fexp _ _ _ e' loc_Exact) as [r' e''].
  destruct (shr_m r'); [done| |done]. by destruct (_ <=? _)%Z.
Qed.

Lemma float64_proper z : (0 <= z)%Z → proper_float (float64 z).
Proof.
  intros Hz. unfold float64, binary_normalize. destruct z as [|p|p]; [done| |lia].
  unfold binary_round. destruct (shl_align _ _ _) as [m e]. apply binary_round_aux_proper.
Qed.

(** The median of a sorted list exists, and is its middle value or the mean of its two. *)
Lemma median_Some xs : xs ≠ [] → is_Some (median xs).
Proof.
  intros Hne. unfold median. assert (0 < length xs) by (destruct xs; [done|cbn; lia]).
  destruct (decide (length xs mod 2 = 1)); [apply lookup_lt_is_Some; apply Nat.div_lt; lia|].
  destruct (decide (length xs = 0)); [lia|].
  pose proof (Nat.div_mod_eq (length xs) 2). pose proof (Nat.mod_upper_bound (length xs) 2).
  destruct (lookup_lt_is_Some_2 xs (length xs / 2 - 1)) as [a ->]; [lia|].
  destruct (lookup_lt_is_Some_2 xs (length xs / 2)) as [b ->]; [lia|]. by eexists.
Qed.

Lemma pick_Permutation xs ys (field : sample → spec_float) : Forall (λ x, proper_float (field x)) xs → xs ≡ₚ ys →
  pick xs field = pick ys field.
Proof. intros Hx Hp. apply Float64s_Permutation; [by apply Forall_map|by rewrite Hp]. Qed.

(** ** Lemmas: the samples *)

Lemma of_samples_add m scen fw x scen' fw' :
  of_samples (add_sample scen fw x m) scen' fw' =
    of_samples m scen' fw' ++ (if decide (scen = scen' ∧ fw = fw') then [x] else []).
Proof.
  unfold of_samples at 1, add_sample. destruct (decide (scen = scen')) as [->|Hs].
  - rewrite lookup_insert_eq. cbn [from_option id]. destruct (decide (fw = fw')) as [->|Hf].
    + rewrite lookup_insert_eq, decide_True by done. done.
    + rewrite lookup_insert_ne, decide_False by naive_solver. by rewrite app_nil_r.
  - rewrite lookup_insert_ne, decide_False by naive_solver. by rewrite app_nil_r.
Qed.

Lemma add_sample_nonempty m scen fw x scen' :
  default ∅ (add_sample scen fw x m !! scen') = ∅ ↔ scen ≠ scen' ∧ default ∅ (m !! scen') = ∅.
Proof.
  unfold add_sample. destruct (decide (scen = scen')) as [->|Hs].
  - rewrite lookup_insert_eq. cbn [from_option id]. split; [intros He|by intros []].
    by destruct (insert_non_empty _ _ _ He).
  - rewrite lookup_insert_ne by done. naive_solver.
Qed.

(** ** Reports

    What one loadgen prints, as data. *)

Record report : Type := mkReport {
  r_framework : bytes;
  r_scenario : bytes;
  r_round : Z;
  r_result : LoadResult;
}.

Definition report_line (r : report) : option bytes :=
  result_line (r_framework r) (r_scenario r) (r_round r) (r_result r).

(** The integer %.0f writes. *)
Definition rounded (x : spec_float) : option Z :=
  match x with
  | S754_zero false => Some 0%Z
  | S754_finite false m e => Some (half_even m e)
  | _ => None
  end.

Definition sample_of (r : report) : option sample :=
  z ← rounded (RPS (r_result r)); a ← P50 (r_result r); b ← P99 (r_result r);
  Some (mkSample (float64 z) (float64 (Microseconds a)) (float64 (Microseconds b))).

(** A report of a known framework and scenario, with numbers in range. *)
Record reportable (r : report) : Prop := {
  rr_framework : r_framework r ∈ Targets;
  rr_scenario : r_scenario r ∈ map s_Name Scenarios;
  rr_round : int64_range (r_round r);
  rr_rps : ∃ z, rounded (RPS (r_result r)) = Some z ∧ (0 <= z <= max_int64)%Z;
  rr_p50 : ∃ d, P50 (r_result r) = Some d ∧ (0 <= d <= max_int64)%Z;
  rr_p99 : ∃ d, P99 (r_result r) = Some d ∧ (0 <= d <= max_int64)%Z;
}.

Lemma target_name t : t ∈ Targets → field t ∧ length t <= 16 ∧ TargetByName t = Some t.
Proof.
  unfold Targets. intros Ht. repeat (apply elem_of_cons in Ht as [->|Ht]); [..|by apply elem_of_nil in Ht];
    (split; [split; [done|by repeat constructor]|split; [cbn; lia|reflexivity]]).
Qed.

Lemma scenario_names : map s_Name Scenarios =
  [bs "static"; bs "param"; bs "middleware5"; bs "notfound"; bs "githubapi"; bs "json"; bs "body64k"].
Proof. reflexivity. Qed.

Lemma by_name_Some name l : name ∈ map s_Name l → is_Some (by_name name l).
Proof.
  induction l as [|s l IH]; [by intros ?%elem_of_nil|]. cbn. intros [->|Hin]%elem_of_cons.
  - by rewrite decide_True.
  - destruct (decide _); [by eexists|by apply IH].
Qed.

Lemma scenario_name n : n ∈ map s_Name Scenarios → field n ∧ length n <= 16 ∧ is_Some (ScenarioByName n).
Proof.
  intros Hn. split; [|split; [|by apply by_name_Some]]; rewrite scenario_names in Hn;
    repeat (apply elem_of_cons in Hn as [->|Hn]); try (by apply elem_of_nil in Hn);
    [split; [done|by repeat constructor]..|cbn; lia|cbn; lia|cbn; lia|cbn; lia|cbn; lia|cbn; lia|cbn; lia].
Qed.

Lemma format0_spec x z : rounded x = Some z → (0 <= z <= max_int64)%Z →
  format0 x ≠ [] ∧ forallb is_digit (format0 x) = true ∧ decimal (format0 x) = z ∧ length (format0 x) <= 310.
Proof.
  intros Hr Hz. destruct x as [[]|[]| |[] m e]; try discriminate Hr; injection Hr as <-.
  - split; [done|]. split; [done|]. split; [reflexivity|cbn; lia].
  - cbn [format0 app]. destruct (digits_loop_spec 309 (half_even m e) []) as (d & Hd & Hne & Hf & Hv).
    { split; [lia|]. eapply Z.le_lt_trans; [apply Hz|]. by vm_compute. }
    rewrite app_nil_r in Hd. pose proof (length_digits_loop 310 (half_even m e) []) as Hl.
    change (S 309) with 310 in Hd. rewrite Hd in Hl |- *. cbn [length] in Hl. split_and!; [done..|lia].
Qed.

Lemma Microseconds_range d : (0 <= d <= max_int64)%Z → (0 <= Microseconds d <= max_int64)%Z.
Proof.
  intros Hd. unfold Microseconds. rewrite Z.quot_div_nonneg by lia. split; [apply Z.div_pos; lia|].
  etrans; [|apply Hd]. apply Z.div_le_upper_bound; lia.
Qed.

(** What the code relies on of [strconv.ParseFloat]: it reads the decimal writing of an
    integer as the float nearest to it. *)
Class ParseFloatLaws (ParseFloat : bytes → result num_error spec_float) : Prop :=
  ParseFloat_decimal s : s ≠ [] → forallb is_digit s = true → (decimal s <= max_int64)%Z →
    ParseFloat s = Ok (float64 (decimal s)).

Section reports.
Context (ParseFloat : bytes → result num_error spec_float) {L : ParseFloatLaws ParseFloat}.

Lemma ParseFloat_Itoa z : (0 <= z <= max_int64)%Z → ParseFloat (Itoa z) = Ok (float64 z).
Proof.
  intros Hz. destruct (Itoa_spec z) as (Hne & Hd & Hv); [unfold max_int64 in Hz; lia|].
  rewrite ParseFloat_decimal by (try done; lia). by rewrite Hv.
Qed.

(** A report is one line of six fields, which Summarize adds as one sample. *)
Lemma report_read r : reportable r → ∃ l x,
  report_line r = Some (l ++ [newline]) ∧ sample_of r = Some x ∧ scannable l ∧
  (proper_float (rps x) ∧ proper_float (p50 x) ∧ proper_float (p99 x)) ∧
  ∀ line m, summarize_line ParseFloat line l m = Ok (add_sample (r_scenario r) (r_framework r) x m).
Proof.
  intros [Hfw Hsc Hround (z & Hz & Hzr) (a & Ha & Har) (b & Hb & Hbr)].
  destruct (target_name _ Hfw) as (Ff & Lf & Tf). destruct (scenario_name _ Hsc) as (Fs & Ls & [s Ss]).
  destruct (format0_spec _ _ Hz Hzr) as (Hne & Hd & Hv & Hlen).
  pose proof (Microseconds_range a Har) as Hma. pose proof (Microseconds_range b Hbr) as Hmb.
  set (ws := [r_framework r; r_scenario r; Itoa (r_round r); format0 (RPS (r_result r));
              Itoa (Microseconds a); Itoa (Microseconds b)]).
  assert (Forall field ws) as Hws.
  { unfold ws. rewrite !Forall_cons, Forall_nil. split_and!; [exact Ff|exact Fs| |by apply digits_field| | |exact I];
      apply Itoa_field; [exact Hround|..]; unfold int64_range, min_int64, max_int64 in *; lia. }
  exists (join_on " " ws), (mkSample (float64 z) (float64 (Microseconds a)) (float64 (Microseconds b))).
  split_and!.
  - unfold report_line, result_line. rewrite Ha, Hb. cbn [mbind option_bind]. f_equal. unfold ws. cbn [join_on].
    do 5 (rewrite <-app_assoc; cbn [app]). reflexivity.
  - unfold sample_of. by rewrite Hz, Ha, Hb.
  - apply fields_scannable; [done|]. unfold ws. cbn [join_on]. repeat (rewrite length_app; cbn [length]).
    pose proof (length_Itoa (r_round r)). pose proof (length_Itoa (Microseconds a)).
    pose proof (length_Itoa (Microseconds b)). unfold MaxScanTokenSize. lia.
  - apply float64_proper. lia.
  - apply float64_proper. lia.
  - apply float64_proper. lia.
  - intros line m. unfold summarize_line. rewrite (Fields_join ws Hws). unfold ws. cbv iota.
    rewrite Atoi_Itoa by done. cbn [parse_numbers]. rewrite (ParseFloat_decimal _ Hne Hd) by lia.
    rewrite !ParseFloat_Itoa by done. by rewrite Tf, Ss, Hv.
Qed.

(** ** What a summary states *)

(** The samples of a scenario and a framework, in the order of the reports. *)
Definition rounds_of (runs : list report) (scen fw : bytes) : list sample :=
  omap sample_of (filter (λ r, r_scenario r = scen ∧ r_framework r = fw) runs).

Lemma rounds_of_app runs runs' scen fw :
  rounds_of (runs ++ runs') scen fw = rounds_of runs scen fw ++ rounds_of runs' scen fw.
Proof. unfold rounds_of. by rewrite filter_app, omap_app. Qed.

Lemma rounds_of_one r x scen fw : sample_of r = Some x →
  rounds_of [r] scen fw = if decide (r_scenario r = scen ∧ r_framework r = fw) then [x] else [].
Proof.
  intros Hx. unfold rounds_of. rewrite filter_cons, filter_nil. destruct (decide _); [|done]. cbn. by rewrite Hx.
Qed.

(** The map holds the samples of the reports read. *)
Definition holds (runs : list report) (m : samples) : Prop :=
  (∀ scen fw, of_samples m scen fw = rounds_of runs scen fw) ∧
  (∀ scen, default ∅ (m !! scen) = ∅ ↔ Forall (λ r, r_scenario r ≠ scen) runs).

Lemma holds_add runs m r x : holds runs m → sample_of r = Some x →
  holds (runs ++ [r]) (add_sample (r_scenario r) (r_framework r) x m).
Proof.
  intros [Hm He] Hx. split.
  - intros scen fw. by rewrite of_samples_add, rounds_of_app, Hm, (rounds_of_one r x).
  - intros scen. rewrite add_sample_nonempty, He, Forall_app, Forall_singleton. tauto.
Qed.

Lemma read_reports runs : Forall reportable runs → ∀ pre m line, holds pre m →
  ∃ ls m', mapM report_line runs = Some (map (λ l, l ++ [newline]) ls) ∧ Forall scannable ls ∧
    summarize_lines ParseFloat line ls m = Ok m' ∧ holds (pre ++ runs) m'.
Proof.
  induction 1 as [|r runs Hr _ IH]; intros pre m line Hm.
  { exists [], m. rewrite app_nil_r. by repeat split; try apply Hm. }
  destruct (report_read r Hr) as (l & x & Hl & Hx & Hs & _ & Hadd).
  destruct (IH (pre ++ [r]) _ (line + 1)%Z (holds_add _ _ r x Hm Hx)) as (ls & m' & Hls & Hss & Hsum & Hm').
  exists (l :: ls), m'. split; [|split; [by constructor|split]].
  - cbn [mapM]. by rewrite Hl; cbn; rewrite Hls.
  - cbn [summarize_lines]. by rewrite Hadd.
  - by rewrite <-app_assoc in Hm'.
Qed.

(** The middle value of a sorted list: as many before it as after it; of a list with
    two in the middle, half their sum. *)
Definition middle (ys : list spec_float) (med : spec_float) : Prop :=
  (∃ l1 l2, ys = l1 ++ med :: l2 ∧ length l1 = length l2) ∨
  (∃ l1 a b l2, ys = l1 ++ a :: b :: l2 ∧ length l1 = length l2 ∧
     med = SFdiv 53 1024 (SFadd 53 1024 a b) (float64 2)).

(** The least, the median and the greatest of some numbers. *)
Definition order_stats (xs : list spec_float) (lo med hi : spec_float) : Prop :=
  ∃ ys, ys ≡ₚ xs ∧ StronglySorted float_le ys ∧ middle ys med ∧
    (∃ above, ys = lo :: above) ∧ (∃ below, ys = below ++ [hi]).

Lemma median_middle ys med : median ys = Some med → middle ys med.
Proof.
  unfold median. pose proof (Nat.div_mod_eq (length ys) 2) as Hd. pose proof (Nat.mod_upper_bound (length ys) 2).
  destruct (decide (length ys mod 2 = 1)) as [Ho|Ho].
  - intros Hm. left. exists (take (length ys / 2) ys), (drop (S (length ys / 2)) ys).
    split; [symmetry; by apply take_drop_middle|]. pose proof (lookup_lt_Some _ _ _ Hm).
    rewrite length_take, length_drop. lia.
  - destruct (decide (length ys = 0)); [done|]. intros (x & Hx & Hm)%bind_Some.
    apply bind_Some in Hm as (y & Hy & Hm). injection Hm as <-. right.
    exists (take (length ys / 2 - 1) ys), x, y, (drop (S (length ys / 2)) ys). split; [|split; [|done]].
    + rewrite <-(take_drop_middle ys _ x Hx) at 1. do 2 f_equal.
      replace (S (length ys / 2 - 1)) with (length ys / 2) by lia. by apply drop_S.
    + rewrite length_take, length_drop. lia.
Qed.

Definition median_of (xs : list spec_float) (med : spec_float) : Prop := ∃ lo hi, order_stats xs lo med hi.

Definition row_of (name : bytes) (xs : list sample) (line : bytes) : Prop :=
  ∃ lo hi m1 m2 m3, order_stats (map rps xs) lo m1 hi ∧ median_of (map p50 xs) m2 ∧ median_of (map p99 xs) m3 ∧
    line = bs "| " ++ name ++ bs " | " ++ format0 m1 ++ bs " | " ++ format0 lo ++ bs "–" ++ format0 hi ++
           bs " | " ++ format0 m2 ++ bs " | " ++ format0 m3 ++ bs " |" ++ [newline].

(** A scenario without reports has no table; another has one, with a row for each
    framework that has reports of it. *)
Definition table_of (runs : list report) (s : Scenario) (out : bytes) : Prop :=
  if decide (Forall (λ r, r_scenario r ≠ s_Name s) runs) then out = []
  else ∃ rs, out = bs "## " ++ s_Name s ++ [newline; newline] ++
      bs "| framework | req/s (median) | req/s (min–max) | p50 µs (median) | p99 µs (median) |" ++ [newline] ++
      bs "| --- | ---: | --- | ---: | ---: |" ++ [newline] ++ concat rs ++ [newline] ∧
    Forall2 (λ t line, match rounds_of runs (s_Name s) t with [] => line = [] | xs => row_of t xs line end) Targets rs.

Definition expected_table (runs : list report) (s : Scenario) : option bytes :=
  if decide (Forall (λ r, r_scenario r ≠ s_Name s) runs) then Some []
  else rs ← mapM (λ t, match rounds_of runs (s_Name s) t with [] => Some [] | xs => row t xs end) Targets;
       Some (table_header (s_Name s) ++ concat rs ++ [newline]).

Lemma table_holds runs m s : holds runs m → table m s = expected_table runs s.
Proof.
  intros [Hm He]. unfold table, expected_table. cbv zeta.
  destruct (decide (Forall _ runs)) as [Ha|Ha], (decide (default ∅ (m !! s_Name s) = ∅)) as [Hn|Hn];
    [done|by rewrite He in Hn|by rewrite He in Hn|].
  unfold rows. f_equal. apply mapM_ext. intros t. by rewrite <-Hm.
Qed.

Lemma picked_stats xs (field : sample → spec_float) : xs ≠ [] →
  ∃ lo med hi, order_stats (map field xs) lo med hi ∧
    pick xs field !! 0 = Some lo ∧ median (pick xs field) = Some med ∧ last (pick xs field) = Some hi.
Proof.
  intros Hne. destruct (Float64s_sorted (map field xs)) as [Hs Hp]. fold (pick xs field) in Hs, Hp.
  assert (pick xs field ≠ []) as Hn.
  { intros Hn. rewrite Hn in Hp. apply Permutation_nil in Hp. by destruct xs. }
  destruct (median_Some _ Hn) as [med Hmed]. destruct (pick xs field) as [|lo ys] eqn:Ep; [done|].
  destruct (last (lo :: ys)) as [hi|] eqn:El; [|by apply last_None in El].
  exists lo, med, hi. split; [|done]. exists (lo :: ys). split; [done|]. split; [done|].
  split; [by apply median_middle|]. split; [by exists ys|]. by apply last_Some.
Qed.

Lemma row_states t xs : xs ≠ [] → ∃ line, row t xs = Some line ∧ row_of t xs line.
Proof.
  intros Hne. destruct (picked_stats xs rps Hne) as (lo & m1 & hi & H1 & Elo & E1 & Ehi).
  destruct (picked_stats xs p50 Hne) as (lo2 & m2 & hi2 & H2 & _ & E2 & _).
  destruct (picked_stats xs p99 Hne) as (lo3 & m3 & hi3 & H3 & _ & E3 & _).
  eexists. split; [unfold row; rewrite Elo, E1, Ehi, E2, E3; reflexivity|].
  exists lo, hi, m1, m2, m3. split; [done|]. split; [by exists lo2, hi2|]. split; [by exists lo3, hi3|done].
Qed.

Lemma table_states runs s : ∃ out, expected_table runs s = Some out ∧ table_of runs s out.
Proof.
  unfold expected_table, table_of. destruct (decide (Forall _ runs)); [by eexists|].
  assert (∀ ts, ∃ rs,
    mapM (λ t, match rounds_of runs (s_Name s) t with [] => Some [] | xs => row t xs end) ts = Some rs ∧
    Forall2 (λ t line, match rounds_of runs (s_Name s) t with [] => line = [] | xs => row_of t xs line end) ts rs)
    as Hrows.
  { induction ts as [|t ts (rs & Hrs & Hall)]; [by exists []|].
    assert (∃ line, match rounds_of runs (s_Name s) t with [] => Some [] | xs => row t xs end = Some line ∧
      match rounds_of runs (s_Name s) t with [] => line = [] | xs => row_of t xs line end) as (line & Hl & Hline).
    { destruct (rounds_of runs (s_Name s) t) as [|x xs]; [by eexists|]. by apply row_states. }
    exists (line :: rs). split; [cbn [mapM]; by rewrite Hl; cbn; rewrite Hrs|by constructor]. }
  destruct (Hrows Targets) as (rs & -> & Hall). eexists. split; [reflexivity|]. exists rs. split; [|done].
  unfold table_header. by rewrite <-!app_assoc.
Qed.

(** The order of the reports does not show. *)
Lemma rounds_proper runs scen fw : Forall reportable runs →
  Forall (λ x, proper_float (rps x) ∧ proper_float (p50 x) ∧ proper_float (p99 x)) (rounds_of runs scen fw).
Proof.
  intros Hr. apply Forall_forall. intros x Hx. unfold rounds_of in Hx.
  apply list_elem_of_omap in Hx as (r & Hin & Hx). apply list_elem_of_filter in Hin as [_ Hin].
  rewrite Forall_forall in Hr. destruct (report_read r (Hr r Hin)) as (l & x' & _ & Hx' & _ & Hp & _).
  by replace x with x' by congruence.
Qed.

Lemma row_Permutation t xs ys :
  Forall (λ x, proper_float (rps x) ∧ proper_float (p50 x) ∧ proper_float (p99 x)) xs → xs ≡ₚ ys → row t xs = row t ys.
Proof.
  intros Hx Hp. unfold row.
  rewrite (pick_Permutation xs ys rps), (pick_Permutation xs ys p50), (pick_Permutation xs ys p99); try done;
    eapply Forall_impl; try exact Hx; naive_solver.
Qed.

Lemma table_Permutation runs runs' s : Forall reportable runs → runs ≡ₚ runs' →
  expected_table runs s = expected_table runs' s.
Proof.
  intros Hr Hp. unfold expected_table. assert (∀ t, rounds_of runs (s_Name s) t ≡ₚ rounds_of runs' (s_Name s) t) as Hrp.
  { intros t. unfold rounds_of. by rewrite Hp. }
  destruct (decide (Forall _ runs)) as [Ha|Ha], (decide (Forall _ runs')) as [Hb|Hb];
    [done|by rewrite Hp in Ha|by rewrite Hp in Ha|]. f_equal. apply mapM_ext. intros t. specialize (Hrp t).
  pose proof (row_Permutation t _ _ (rounds_proper runs (s_Name s) t Hr) Hrp) as Hrow.
  destruct (rounds_of runs _ t) as [|x xs], (rounds_of runs' _ t) as [|y ys]; [done| | |done].
  - by apply Permutation_nil_cons in Hrp.
  - by symmetry in Hrp; apply Permutation_nil_cons in Hrp.
Qed.

(** ** Properties *)

Lemma table_total m s : is_Some (table m s).
Proof.
  unfold table. cbv zeta. destruct (decide _); [by eexists|]. unfold rows.
  assert (∀ ts, is_Some (mapM (λ t, match default [] (default ∅ (m !! s_Name s) !! t) with
                                    | [] => Some [] | rounds => row t rounds end) ts)) as Hr.
  { induction ts as [|t ts [rs IH]]; [by eexists|]. cbn [mapM].
    destruct (default [] (default ∅ (m !! s_Name s) !! t)) as [|x xs]; [cbn; rewrite IH; by eexists|].
    destruct (row_states t (x :: xs)) as (line & -> & _); [done|]. cbn. rewrite IH. by eexists. }
  destruct (Hr Targets) as [rs ->]. by eexists.
Qed.

(** Whatever it reads, Summarize does not panic, and writes nothing when it fails. *)
Lemma Summarize_all_or_nothing input failed :
  ∃ out e, Summarize ParseFloat input failed = Ret (out, e) ∧ (e ≠ None → out = []).
Proof.
  unfold Summarize. destruct (scan_loop [] 0 input) as [texts long].
  destruct (summarize_lines ParseFloat 1 texts ∅) as [m|e]; [|by do 2 eexists].
  destruct long; [by do 2 eexists|]. destruct failed; [by do 2 eexists|].
  assert (is_Some (mapM (table m) Scenarios)) as [ts ->].
  { apply mapM_is_Some_2, Forall_forall. intros s _. apply table_total. }
  do 2 eexists. split; [reflexivity|]. done.
Qed.

(** C37. The lines loadgen prints are the rounds the summary states, in whatever order
    they are read. Summarize accepts them all and writes, scenario by scenario, a table
    for exactly the scenarios that have reports, in it a row for exactly the frameworks
    that have reports of the scenario, and in the row the median, the least and the
    greatest rate and the medians of the percentiles of just those reports. *)
Theorem summarize_reports runs (Hr : Forall reportable runs) :
  ∃ ts, Forall2 (table_of runs) Scenarios ts ∧
  ∀ runs', runs' ≡ₚ runs → ∃ lines, mapM report_line runs' = Some lines ∧
    Summarize ParseFloat (concat lines) false = Ret (concat ts, None).
Proof.
  assert (∀ ss, ∃ ts, mapM (expected_table runs) ss = Some ts ∧ Forall2 (table_of runs) ss ts) as Htables.
  { induction ss as [|s ss (ts & Hts & Hall)]; [by exists []|]. destruct (table_states runs s) as (out & Ho & Hst).
    exists (out :: ts). split; [cbn [mapM]; by rewrite Ho; cbn; rewrite Hts|by constructor]. }
  destruct (Htables Scenarios) as (ts & Hts & Hall). exists ts. split; [done|].
  intros runs' Hp. assert (Forall reportable runs') as Hr' by (by rewrite Hp).
  destruct (read_reports runs' Hr' [] ∅ 1) as (ls & m & Hls & Hs & Hsum & Hm).
  { split; [|intros scen; by split]. intros scen fw. unfold of_samples.
    rewrite lookup_empty. cbn [from_option id]. by rewrite lookup_empty. }
  eexists. split; [exact Hls|]. unfold Summarize. rewrite scan_lines, Hsum by done.
  rewrite (mapM_ext (table m) (expected_table runs)); [by rewrite Hts|].
  intros s. rewrite (table_holds runs' m s Hm). by apply table_Permutation.
Qed.
End reports.

(** A run of the command that succeeds prints the report of its Load. *)
Lemma loadgen_prints {E} fl now (attempts : list (result E (option E) * Z)) now' client out err :
  f_list fl = false → loadgen_main fl now attempts now' client = Ret (Some (0%Z, out, err)) →
  ∃ s res, ScenarioByName (f_scenario fl) = Some s ∧
    Load client (mkLoadConfig (f_addr fl) s (f_conns fl) (f_warmup fl) (f_duration fl) 0) now' = Ret (Some (res, None)) ∧
    out = report_line (mkReport (f_framework fl) (s_Name s) (f_round fl) res) ∧ err = None.
Proof.
  unfold loadgen_main. intros ->. destruct (bool_decide _); [done|]. destruct (f_duration fl <=? 0)%Z; [done|].
  destruct (f_warmup fl <? 0)%Z; [done|]. destruct (ScenarioByName (f_scenario fl)) as [s|]; [|done].
  destruct (WaitReady _ _ _ _) as [[?|]|]; [done| |done].
  destruct (Load _ _ _) as [[[res [?|]]|]|p] eqn:El; try done. intros [= <- <-]. by exists s, res.
Qed.

(** A witness: two rounds of one framework and one of another. *)
Definition sample_parse (s : bytes) : result num_error spec_float :=
  match Atoi s with Ok z => Ok (float64 z) | Err e => Err e end.

#[export] Instance sample_parse_laws : ParseFloatLaws sample_parse.
Proof. intros s Hne Hs Hle. unfold sample_parse. by rewrite (Atoi_digits false s Hne Hs Hle). Qed.

Definition sample_report (fw : bytes) (round rate p50 p99 : Z) : report :=
  mkReport fw (bs "static") round (mkLoadResult 10 0 0 (float64 rate) (Some p50) (Some p99)).

Definition sample_runs : list report :=
  [sample_report (bs "gin") 1 50 5000 9000; sample_report (bs "rice") 2 300 30999 60000;
   sample_report (bs "rice") 1 100 10000 20000]%Z.

Lemma summarize_reports_witness :
  ∃ ts, Forall2 (table_of sample_runs) Scenarios ts ∧
    Summarize sample_parse (bs "rice static 1 100 10 20
gin static 1 50 5 9
rice static 2 300 30 60
") false = Ret (concat ts, None) ∧
    concat ts = table_header (bs "static") ++ bs "| rice | 200 | 100–300 | 20 | 40 |
| gin | 50 | 50–50 | 5 | 9 |

".
Proof.
  assert (∀ fw n rate a b, fw ∈ Targets → int64_range n → (∃ z, rounded (float64 rate) = Some z ∧ 0 <= z <= max_int64)%Z →
    (0 <= a <= max_int64)%Z → (0 <= b <= max_int64)%Z → reportable (sample_report fw n rate a b)) as Hok.
  { intros fw n rate a b Hfw Hn Hz Ha Hb. split; [exact Hfw| |exact Hn|exact Hz|by exists a|by exists b].
    rewrite scenario_names. left. }
  assert (Forall reportable sample_runs) as Hr.
  { repeat apply Forall_cons_2; [..|apply Forall_nil_2]; apply Hok; unfold Targets, int64_range, min_int64, max_int64; try lia;
      try (by repeat constructor); eexists; (split; [vm_compute; reflexivity|lia]). }
  destruct (summarize_reports sample_parse sample_runs Hr) as (ts & Hts & Hsum). exists ts. split; [exact Hts|].
  destruct (Hsum [sample_report (bs "rice") 1 100 10000 20000; sample_report (bs "gin") 1 50 5000 9000;
                  sample_report (bs "rice") 2 300 30999 60000]%Z) as (lines & Hl & Hs).
  { exact (Permutation_cons_append [_; _] _). }
  vm_compute in Hl. injection Hl as <-. split; [exact Hs|].
  match type of Hs with ?x = Ret (?y, None) =>
    assert (x = Ret (table_header (bs "static") ++ bs "| rice | 200 | 100–300 | 20 | 40 |
| gin | 50 | 50–50 | 5 | 9 |

", None)) as Hc by (vm_compute; reflexivity); rewrite Hs in Hc; by injection Hc end.
Defined.
